(* ===== verification/_CoqProject ===== *)
-Q . S2P
Prelude.v
Errors.v
Engine.v
Effects.v
Locks.v
Serial.v
MemDriver.v
Envelope.v
Keys.v
ListCodec.v
Text.v
DriverName.v
DB.v
DBTheorems.v
Collections.v
Transport.v
Resp.v
RedisStorage.v
RedisStrings.v
RedisCollections.v
Utf8.v
Json.v
JsonProps.v
Base64.v
PathClean.v
Modules.v
ModuleProps.v
Backend.v
BackendProps.v
Http.v
HttpClient.v
HttpProps.v
HttpEntryProps.v
HttpServerProps.v
PathMatch.v
RedisServer.v
Calls.v
CallProps.v
RedisModel.v
RedisTheorems.v
RedisStringProps.v
RedisCollProps.v
RedisListProps.v
RedisKeyspaceProps.v
RedisShrink.v
RedisTyped.v
RedisInvariant.v
ConcurrentProps.v
Races.v
RedisSessionProps.v
RedisLifecycle.v
CMemory.v
CApi.v
ModuleLoader.v
LoaderProps.v
CApiProps.v
NativeLoader.v
NativeProps.v
Drivers.v
DriverProps.v
BerkeleyDB.v
Linking.v
Flags.v
Cli.v
ModuleCmds.v
Supervisor.v
CliProps.v
