(* ===== verification/Prelude.v ===== *)
(** * KVLite: a verification library

    KVLite (the Go module under [src/]) is an embedded key-value store: a
    [DB] handle keeps typed values, hashes, sets and lists in one flat record
    space of a storage engine, two extensions serve an open handle to other
    processes, one over HTTP and one over the Redis protocol, a C interface
    exports it to other languages, and command-line programs run the servers.
    This library models that code as executable functions and proves what its
    callers rely on.

    ** The parts and how they interact

    - A storage driver gives an engine: [Get], [Put], [Delete], [ScanPrefix],
      [Close] on records ([engine.go]). [newDB] wraps it in a guard that
      refuses operations after [Close].
    - [Open] ([backend.go]) chooses a driver, linked in or found as a packaged
      module ([module.go]), and pins the directory to it with a manifest file
      ([backend_manifest.go]).
    - The handle ([db.go], [collections.go]) encodes values with a codec into
      envelopes ([envelope.go]) under the storage keys of [keys.go].
    - [transport.go] gives extensions the record view of an open handle. The
      Redis extension ([extensions/redis]) represents Redis values on it and
      holds the store's lock for one command at a time; the HTTP extension ([extensions/http])
      exposes records, collections and JSON entries, and contains a client
      that is itself a storage engine: the engine of a remote handle.
    - The C interface ([capi]) exports handles and cursors. A packaged module
      is a library with that interface, or a native one that registers
      operation tables; two loaders make engines of them
      ([driver_module_loader.go], [native_module_loader.go]). The bundled
      drivers ([extensions/boltdb] and the others) adapt storage libraries.
    - [kvlite serve] ([cmd/kvlite]) opens a directory and serves it itself, or
      starts the programs of the HTTP and Redis modules, one of which owns the
      directory and the other attaches to it.

    ** Files

    Shared:
    - [Prelude]: bytes, machine integers, decimal text, list and map lemmas,
      the hint database [kv] and the tactics.
    - [Errors]: sentinel errors, wrapping, [errors.Is] and error texts.
    - [Effects]: the monad in which handle methods and commands are written
      (engine operations, closed flag, clock, failure, panic); [run] executes
      a program over any [Engine], [wp] is its predicate-transformer reading
      over an abstract record map, and [wp_sound] relates the two for every
      engine that satisfies the class [LocalEngine].
    - [Locks]: goroutines that share a handle, each executing a [call], a
      program whose parts run under a mutex or under none. A [step] is one
      engine operation or one lock operation of one goroutine; a coarser
      semantics runs whole critical sections, and the theorems of the file
      relate the two. [Serial]: clients that issue one request after another,
      and executions in which whole requests take turns.
    - [Text], [Utf8], [Json], [JsonProps], [Base64], [PathClean],
      [PathMatch]: what the program uses of Go's [strings], [strconv],
      [unicode/utf8], [encoding/json], [encoding/base64] and [path].

    The core:
    - [Engine] (the interface as a class, the guard), [MemDriver]
      ([memdriver.go], an instance of [LocalEngine]), [Envelope], [Keys],
      [ListCodec] (the list record of [collections.go]), [DriverName] (names
      of drivers and modules), [DB] ([db.go], [logical_key.go], [codec.go],
      [options.go]), [DBTheorems], [Collections] ([collections.go]),
      [Transport] ([transport.go]).
    - [Calls]: every method of the handle, Redis command and HTTP handler as a
      [call], with the sections of [protocolMu] and [collectionMu] the code
      has; with its locks forgotten each is the sequential definition of the
      other files. [CallProps] makes requests of them, [ConcurrentProps] and
      [Races] say what concurrent clients may and may not rely on.
    - [Modules], [ModuleProps] ([module.go]): manifests, validation,
      registration, discovery, integrity.
    - [Backend], [BackendProps] ([backend.go], [backend_manifest.go]): the
      driver registry, [Open], and the manifest as programs over system
      calls, so that two processes can be interleaved.

    The HTTP extension ([extensions/http/http.go]): [Http] is the server,
    [HttpClient] the remote engine, [HttpProps] the gate, the isolation of
    databases and the client-server refinement, [HttpEntryProps] the
    handlers, [HttpServerProps] start and stop.

    The Redis extension: [Resp] ([resp.go]), [RedisStorage]
    ([redis_storage.go]), [RedisStrings], [RedisCollections]
    ([redis_commands.go]), [RedisServer] (key-space commands, dispatch and
    the connection loop of [redis_server.go]), [RedisLifecycle] (accept loop,
    connection goroutines and [Close] as a transition system). [RedisModel]
    is the abstract database, a partial map from keys to typed values seen
    at an instant; [RedisTheorems], [RedisStringProps], [RedisCollProps],
    [RedisListProps], [RedisKeyspaceProps] and [RedisSessionProps] relate the
    commands to it. [RedisShrink], [RedisTyped] and [RedisInvariant] prove
    the typing of the store for every command, at any readings of the clock.

    Storage drivers: [Drivers] holds the adapters for BoltDB, LevelDB,
    BadgerDB, LMDB and RocksDB over one class of ordered stores
    ([OrderedStore], a method per call the adapters make), their metadata and
    the compaction filter; [BerkeleyDB] is the adapter in C and Go with its
    buffers; [DriverProps] has the laws of the libraries and the theorems.
    [Linking] has the [init] functions of the extensions and the programs
    that import any of them.

    C code: [CMemory] is the heap that Go and C share, a map from addresses
    to blocks in which a double free or a read of freed memory is a crash,
    the monad of programs over it and their weakest preconditions. [CApi] is
    [capi/main.go], [ModuleLoader] is [driver_module_loader.go] with its C
    half, [NativeLoader] is [native_module_loader.go] with its own;
    [CApiProps], [LoaderProps] and [NativeProps] have the theorems.
    [LoaderProps] states what a record library promises as the class
    [RecordLibrary], proves the engine against it, and discharges it for the
    C interface: a module that packages this program.

    Programs: [Flags] (Go's [flag], [strconv.ParseInt] with a base prefix and
    [net.SplitHostPort], and [--driver-path]), [Cli] ([cmd/kvlite]),
    [ModuleCmds] ([kvlite-http], [kvlite-redis]) as trees of calls with
    arbitrary answers, [CliProps] with monitors over their runs, [Supervisor]
    ([waitForAttachedModule]) as a step relation.

    ** What the theorems show

    - Data formats: storage keys of different logical records never collide;
      envelopes, list records, RESP values and manifests are read back as
      they were written; the RESP reader ends on every input.
    - Handle: a stored value is returned until its deadline and gone from
      then on; deletion removes every representation of one key and nothing
      else; the deadline wraps for a TTL beyond the clock's range.
    - Opening: a directory stays with the driver that created it, also when
      two processes race with system calls that fail; the registry keeps its
      invariant; the default driver is the documented one.
    - Modules: an accepted artifact lies below its module's directory and is
      the only one for its platform; verification and discovery are exact.
    - HTTP: without the token no request reaches a database; a request
      touches at most the selected database; refused requests write nothing;
      a client's engine behaves as the owner's record map; a server that
      fails to start releases what it opened.
    - Redis: strings, counters, expiry, lists, sets, hashes and key
      enumeration refine the abstract database on every branch; without the
      password a connection performs no store operation; pipelined requests
      are framed exactly; the connection limit is an invariant; [Close] ends
      and leaves nothing behind.
    - Types: every Redis command keeps the store well-typed: a key has
      records of one kind, they decode, and a scalar has no expiry record
      beside it ([sound]).
    - Concurrency: requests that keep to one mutex are serializable, with the
      replies and the store of their sequential definitions, so the typing
      invariant and the sums of counters hold under concurrent clients; no
      mix of requests deadlocks. Requests under different mutexes, or under
      none, are not serializable: a list push or a hash write can be lost.
    - Drivers: on libraries that behave as documented every adapter is an
      exact record map that scans in key order; no program can tell two such
      engines apart, also not from the memory driver; physical expiry is
      invisible. A program starts with any selection of the extensions.
    - C code: the engines over packaged modules are the record maps of their
      libraries and leak nothing, a native module is selected only with the
      capabilities it declares, a closed handle stays refused, a cursor is a
      snapshot; out of memory the Berkeley DB adapter leaks nothing.
    - Programs: every run releases what it acquired; a directory has one
      owner and every server the options of the command line; the supervisor
      returns when a process has ended and leaves none behind; waiting for
      the owner ends.

    ** Bounds and fuel

    Integers of the program are [Z] with the wrap-around of their width
    written out ([int64], [uint32]) wherever the code computes with them.
    Lengths in [int] are unbounded; where a length is stored in 32 bits the
    theorems ask for keys shorter than 2^32 bytes ([short]). Loops that are
    not structural take fuel measured by the input they consume:
    [readRESP] the bytes left (every level of nesting consumes a header
    line; [resp_read_total] shows no input exhausts it), [serve_loop] the
    bytes left ([serve_loop_fuel]: each request consumes one), [sanitize],
    [quote_body], [unquote] and [parse_value] the length of the text,
    [match_chunk] and [match_fuel] the length of the pattern. The client of
    [SCAN] follows cursors with fuel above the number of keys. The scans of
    the module engines and of Berkeley DB ([scan_records],
    [native_scan_loop], [berkeley_loop]) take fuel above the number of
    records, and the theorems show that it suffices; [poll_health] takes 151
    rounds, enough by [health_wait_ends]. A [connection] takes the fuel of
    [serve_loop]. In [redis_commands_keep_types] the number of items of a
    list plus those a command pushes stays below 2^32, the range of the count
    in a list record. Lengths that pass through C are
    [size_t], or [int] with its wrap-around ([c_int]).

    ** Parameters

    - [GoText]: lower-casing, trimming and quoting of text outside ASCII,
      which use the Unicode tables of the Go library.
    - [MapRange]: the order in which Go ranges over a map.
    - The SHA-256 digest, and the texts of JSON and base64 errors.
    - [FileSystem]: a snapshot of the module directories.
    - [openModuleDriver], [openNativeModuleDriver] of [Backend]: the loaders
      of packaged modules, modelled in their own files. [Do]: the transport
      of the HTTP client; the theorems connect it to the server model.
    - The foreign libraries: what [dlopen] finds in a file, the [init]
      function of a native module ([init_program]), the stores of [Drivers]
      ([OrderedStore]) and Berkeley DB ([BerkeleyLib]) with their documented
      behaviour as laws, and which allocations fail ([malloc_fails]).
    - The answers to the calls of a program ([answer] of [Cli]).
    - The [encoding/json] conversion of arbitrary Go values in the JSON codec.

    ** Not modelled

    - Examples, bindings and packaging; the loaders' stubs without cgo.
    - Inside the C half of the loaders: [dlopen] and [dlsym] themselves, and
      the memory of the strings of a registration. Scans of the model deliver
      all their records: a callback that stops early is not modelled.
    - The time-outs of the HTTP server and the goroutine in which [net/http]
      accepts connections.
    - Calls that race with [Close] of the handle, and a context that is
      cancelled in the middle of a call: goroutines of [Locks] share an open
      handle, and a context is cancelled or not for a whole call.

    ** Left to do

    The typed handle over the remote engine, whose records change between the
    requests of one operation; callbacks that stop a scan; [Close] as one of
    the goroutines of [Locks]. *)

From Stdlib Require Export Strings.Byte.
From Stdlib Require Import Decimal DecimalN DecimalFacts DecimalPos.
From stdpp Require Export sorting base gmap strings numbers option list.

#[global] Set Default Goal Selector "!".

Create HintDb kv.
Create Rewrite HintDb kv.
Declare Scope kv_scope.
Delimit Scope kv_scope with kv.

(** ** Bytes and Go strings

    A Go [string] and a Go [[]byte] are both a sequence of bytes. *)

Abbreviation bytes := (list Byte.byte).

#[global] Instance byte_eq_dec : EqDecision Byte.byte := Byte.byte_eq_dec.

#[global] Program Instance byte_countable : Countable Byte.byte :=
  inj_countable Byte.to_N Byte.of_N _.
Next Obligation. apply Byte.of_to_N. Qed.

#[global] Instance bytes_eq_dec : EqDecision bytes | 0 := list.list_eq_dec.
#[global] Instance bytes_countable : Countable bytes | 0 := list_countable.

(** Literals: the bytes of an ASCII string constant of the source. *)
Definition str (s : string) : bytes := String.list_byte_of_string s.
Arguments str _%_string.

Notation "⟦ s ⟧" := (str s) (at level 0, s constr, format "⟦ s ⟧") : kv_scope.
Open Scope kv_scope.

Definition byte_to_Z (b : Byte.byte) : Z := Z.of_N (Byte.to_N b).

Definition byte_of_Z (z : Z) : Byte.byte :=
  default Byte.x00 (Byte.of_N (Z.to_N (z mod 256))).

Lemma byte_to_Z_range b : (0 ≤ byte_to_Z b < 256)%Z.
Proof. unfold byte_to_Z. pose proof (Byte.to_N_bounded b). lia. Qed.

Lemma byte_of_to_Z b : byte_of_Z (byte_to_Z b) = b.
Proof.
  unfold byte_of_Z. rewrite Z.mod_small by apply byte_to_Z_range.
  unfold byte_to_Z. by rewrite N2Z.id, Byte.of_to_N.
Qed.

Lemma byte_eq z c : z = byte_to_Z c → byte_of_Z z = c.
Proof. intros ->. apply byte_of_to_Z. Qed.

Lemma byte_to_of_Z z : byte_to_Z (byte_of_Z z) = (z mod 256)%Z.
Proof.
  pose proof (Z.mod_pos_bound z 256 ltac:(lia)) as Hz.
  unfold byte_of_Z, byte_to_Z.
  destruct (Byte.of_N (Z.to_N (z mod 256))) as [b|] eqn:E; simpl.
  - apply Byte.to_of_N in E. lia.
  - apply Byte.of_N_None_iff in E. lia.
Qed.

(** ** Big-endian words ([encoding/binary], BigEndian)

    [be_put n z] writes the low [8*n] bits of [z] (so a conversion such as
    [uint32(len)] truncates); [be_get] reads an unsigned word. *)

Fixpoint be_put (n : nat) (z : Z) : bytes :=
  match n with
  | O => []
  | S n' => byte_of_Z (Z.shiftr z (8 * Z.of_nat n')) :: be_put n' z
  end.

Definition be_get (l : bytes) : Z :=
  foldl (λ acc b, acc * 256 + byte_to_Z b)%Z 0%Z l.

Lemma be_put_length n z : length (be_put n z) = n.
Proof. induction n; simpl; congruence. Qed.

Lemma be_get_acc l a :
  foldl (λ acc b, acc * 256 + byte_to_Z b)%Z a l
  = (a * 256 ^ Z.of_nat (length l) + be_get l)%Z.
Proof.
  unfold be_get. revert a. induction l as [|b l IH]; intros a; simpl.
  - rewrite Z.pow_0_r. lia.
  - rewrite IH, (IH (0 * 256 + byte_to_Z b)%Z).
    rewrite Nat2Z.inj_succ, Z.pow_succ_r by lia. lia.
Qed.

Lemma be_get_cons b l :
  be_get (b :: l) = (byte_to_Z b * 256 ^ Z.of_nat (length l) + be_get l)%Z.
Proof. unfold be_get at 1. simpl. rewrite be_get_acc. lia. Qed.

Lemma be_get_range l : (0 ≤ be_get l < 256 ^ Z.of_nat (length l))%Z.
Proof.
  induction l as [|b l IH]; [done|].
  rewrite be_get_cons. pose proof (byte_to_Z_range b).
  simpl length. rewrite Nat2Z.inj_succ, Z.pow_succ_r by lia. nia.
Qed.

Lemma be_get_put n z : be_get (be_put n z) = (z mod 256 ^ Z.of_nat n)%Z.
Proof.
  induction n as [|n IH]; simpl be_put.
  - by rewrite Z.pow_0_r, Z.mod_1_r.
  - rewrite be_get_cons, be_put_length, byte_to_of_Z, IH.
    rewrite Z.shiftr_div_pow2 by lia.
    replace (2 ^ (8 * Z.of_nat n))%Z with (256 ^ Z.of_nat n)%Z
      by (rewrite Z.pow_mul_r by lia; done).
    rewrite Nat2Z.inj_succ, Z.pow_succ_r by lia.
    rewrite (Z.mul_comm 256), Z.rem_mul_r; try lia.
Qed.

Lemma be_put_get l : be_put (length l) (be_get l) = l.
Proof.
  assert (∀ n l a, length l = n →
    be_put n (a * 256 ^ Z.of_nat n + be_get l)%Z = l) as H.
  { clear l. induction n as [|n IH]; intros [|b l] a Hl; try done.
    simpl in *. injection Hl as Hl. rewrite be_get_cons, Hl.
    pose proof (be_get_range l) as Hr. rewrite Hl in Hr.
    rewrite Nat2Z.inj_succ, Z.pow_succ_r by lia.
    set (p := (256 ^ Z.of_nat n)%Z) in *.
    replace (a * (256 * p) + (byte_to_Z b * p + be_get l))%Z
      with ((a * 256 + byte_to_Z b) * p + be_get l)%Z by lia.
    f_equal; [|by apply IH].
    rewrite Z.shiftr_div_pow2 by lia.
    replace (2 ^ (8 * Z.of_nat n))%Z with p
      by (subst p; rewrite Z.pow_mul_r by lia; done).
    rewrite Z.div_add_l by lia. rewrite (Z.div_small (be_get l)) by lia.
    rewrite <-(byte_of_to_Z b) at 2. pose proof (byte_to_Z_range b).
    unfold byte_of_Z. do 3 f_equal. rewrite Z.add_0_r.
    rewrite (Z.mod_small (byte_to_Z b)) by done.
    rewrite Z.add_comm, Z.mod_add by lia. by apply Z.mod_small. }
  by rewrite <-(H (length l) l 0%Z eq_refl) at 3.
Qed.

Lemma be_put_eq n z l :
  length l = n → (z mod 256 ^ Z.of_nat n)%Z = be_get l → be_put n z = l.
Proof.
  intros Hl Hz. rewrite <-(be_put_get (be_put n z)), be_put_length, be_get_put, Hz.
  rewrite <-Hl. apply be_put_get.
Qed.

Lemma be_get_put_small n z :
  (0 ≤ z < 256 ^ Z.of_nat n)%Z → be_get (be_put n z) = z.
Proof. intros. rewrite be_get_put. by apply Z.mod_small. Qed.

#[global] Arguments be_put : simpl never.
#[global] Arguments be_get : simpl never.

(** ** Machine integers

    [int] and [int64] are 64-bit two's complement; [wrap64] is the value an
    arithmetic result takes when it is stored in one. *)

Definition maxInt64 : Z := (2 ^ 63 - 1)%Z.
Definition minInt64 : Z := (- 2 ^ 63)%Z.

Definition wrap64 (z : Z) : Z := ((z + 2 ^ 63) mod 2 ^ 64 - 2 ^ 63)%Z.

Definition isInt64 (z : Z) : bool := bool_decide (minInt64 ≤ z ≤ maxInt64)%Z.

Lemma wrap64_id z : (minInt64 ≤ z ≤ maxInt64)%Z → wrap64 z = z.
Proof.
  unfold wrap64, minInt64, maxInt64. intros.
  rewrite Z.mod_small by lia. lia.
Qed.

Lemma wrap64_range z : (minInt64 ≤ wrap64 z ≤ maxInt64)%Z.
Proof.
  unfold wrap64, minInt64, maxInt64.
  pose proof (Z.mod_pos_bound (z + 2 ^ 63) (2 ^ 64) ltac:(lia)). lia.
Qed.

Lemma wrap64_mod z : wrap64 (z mod 2 ^ 64) = wrap64 z.
Proof.
  unfold wrap64. f_equal.
  by rewrite Zplus_mod_idemp_l.
Qed.

(** An int64 written with [PutUint64(uint64(x))] and read back with
    [int64(Uint64(...))] is unchanged. *)
Lemma be_int64_roundtrip z :
  (minInt64 ≤ z ≤ maxInt64)%Z → wrap64 (be_get (be_put 8 z)) = z.
Proof.
  intros. rewrite be_get_put. change (256 ^ Z.of_nat 8)%Z with (2 ^ 64)%Z.
  rewrite wrap64_mod. by apply wrap64_id.
Qed.

(** ** Decimal text: [strconv.FormatInt], [strconv.ParseInt], [big.Int] *)

Fixpoint uint_to_bytes (d : Decimal.uint) : bytes :=
  match d with
  | Nil => []
  | D0 d => "0"%byte :: uint_to_bytes d
  | D1 d => "1"%byte :: uint_to_bytes d
  | D2 d => "2"%byte :: uint_to_bytes d
  | D3 d => "3"%byte :: uint_to_bytes d
  | D4 d => "4"%byte :: uint_to_bytes d
  | D5 d => "5"%byte :: uint_to_bytes d
  | D6 d => "6"%byte :: uint_to_bytes d
  | D7 d => "7"%byte :: uint_to_bytes d
  | D8 d => "8"%byte :: uint_to_bytes d
  | D9 d => "9"%byte :: uint_to_bytes d
  end.

Fixpoint uint_of_bytes (l : bytes) : option Decimal.uint :=
  match l with
  | [] => Some Nil
  | c :: l =>
      match c with
      | "0"%byte => D0 <$> uint_of_bytes l
      | "1"%byte => D1 <$> uint_of_bytes l
      | "2"%byte => D2 <$> uint_of_bytes l
      | "3"%byte => D3 <$> uint_of_bytes l
      | "4"%byte => D4 <$> uint_of_bytes l
      | "5"%byte => D5 <$> uint_of_bytes l
      | "6"%byte => D6 <$> uint_of_bytes l
      | "7"%byte => D7 <$> uint_of_bytes l
      | "8"%byte => D8 <$> uint_of_bytes l
      | "9"%byte => D9 <$> uint_of_bytes l
      | _ => None
      end
  end.

Definition format_nat (n : N) : bytes := uint_to_bytes (N.to_uint n).

(** [%d] of a signed integer, [strconv.FormatInt(z, 10)], [big.Int.String]. *)
Definition format_int (z : Z) : bytes :=
  if (z <? 0)%Z then "-"%byte :: format_nat (Z.to_N (- z)) else format_nat (Z.to_N z).

(** Digits only, at least one. *)
Definition parse_nat (l : bytes) : option N :=
  match l with
  | [] => None
  | _ => N.of_uint <$> uint_of_bytes l
  end.

(** [big.Int.SetString(s, 10)]: an optional sign and decimal digits. *)
Definition parse_big (l : bytes) : option Z :=
  match l with
  | "+"%byte :: l => Z.of_N <$> parse_nat l
  | "-"%byte :: l => (λ n, - Z.of_N n)%Z <$> parse_nat l
  | _ => Z.of_N <$> parse_nat l
  end.

(** [strconv.ParseInt(s, 10, bits)], [None] for a syntax or range error. *)
Definition parse_int (bits : Z) (l : bytes) : option Z :=
  z ← parse_big l;
  if bool_decide (- 2 ^ (bits - 1) ≤ z < 2 ^ (bits - 1))%Z then Some z else None.

Lemma uint_bytes_roundtrip d : uint_of_bytes (uint_to_bytes d) = Some d.
Proof. induction d; simpl; rewrite ?IHd; done. Qed.

Lemma format_nat_nonempty n : format_nat n ≠ [].
Proof.
  unfold format_nat. intros H.
  assert (N.to_uint n = Nil) as Hn by (by destruct (N.to_uint n)).
  destruct n as [|p]; [done|]. simpl in Hn.
  by apply (DecimalPos.Unsigned.to_uint_nonnil p).
Qed.

Lemma parse_format_nat n : parse_nat (format_nat n) = Some n.
Proof.
  unfold parse_nat. pose proof (format_nat_nonempty n).
  destruct (format_nat n) as [|c l] eqn:E; [done|]. rewrite <-E.
  unfold format_nat. rewrite uint_bytes_roundtrip. simpl.
  by rewrite DecimalN.Unsigned.of_to.
Qed.

Definition is_digit (c : Byte.byte) : bool :=
  match c with
  | "0"%byte | "1"%byte | "2"%byte | "3"%byte | "4"%byte
  | "5"%byte | "6"%byte | "7"%byte | "8"%byte | "9"%byte => true
  | _ => false
  end.

Lemma format_nat_digits n : Forall (λ c, is_digit c = true) (format_nat n).
Proof. unfold format_nat. induction (N.to_uint n); simpl; auto. Qed.

Lemma parse_format_big z : parse_big (format_int z) = Some z.
Proof.
  unfold format_int. destruct (Z.ltb_spec z 0) as [Hz|Hz]; simpl.
  - rewrite parse_format_nat. simpl. f_equal. lia.
  - pose proof (format_nat_digits (Z.to_N z)) as Hd.
    pose proof (parse_format_nat (Z.to_N z)) as Hp.
    destruct (format_nat (Z.to_N z)) as [|c l]; [done|].
    apply Forall_cons_1 in Hd as [Hc _]. unfold parse_big.
    destruct c; try discriminate Hc; rewrite Hp; simpl; f_equal; lia.
Qed.

Lemma parse_format_int bits z :
  (- 2 ^ (bits - 1) ≤ z < 2 ^ (bits - 1))%Z → parse_int bits (format_int z) = Some z.
Proof.
  intros. unfold parse_int. rewrite parse_format_big. simpl.
  by rewrite bool_decide_eq_true_2.
Qed.

Lemma parse_int_range bits l z :
  parse_int bits l = Some z → (- 2 ^ (bits - 1) ≤ z < 2 ^ (bits - 1))%Z.
Proof.
  unfold parse_int. destruct (parse_big l); simpl; [|done].
  intros H. case_bool_decide; by simplify_eq.
Qed.

(** A number has at most as many decimal as binary digits. *)
Lemma length_uint_to_bytes d : length (uint_to_bytes d) = Decimal.nb_digits d.
Proof. induction d; simpl; auto. Qed.

Lemma nb_digits_little d :
  Decimal.nb_digits (Decimal.Little.double d) ≤ S (Decimal.nb_digits d)
  ∧ Decimal.nb_digits (Decimal.Little.succ_double d) ≤ S (Decimal.nb_digits d).
Proof. induction d; simpl; lia. Qed.

Lemma length_format_nat n k : (0 < k)%nat → (n < 2 ^ N.of_nat k)%N → length (format_nat n) ≤ k.
Proof.
  intros Hk Hn. unfold format_nat. rewrite length_uint_to_bytes.
  destruct n as [|p]; [simpl; lia|]. cbn [N.to_uint]. unfold Pos.to_uint.
  rewrite DecimalFacts.nb_digits_rev.
  assert (Decimal.nb_digits (Pos.to_little_uint p) ≤ Pos.size_nat p) as H.
  { clear. induction p as [p IH|p IH|]; simpl; [..|lia];
      pose proof (nb_digits_little (Pos.to_little_uint p)); lia. }
  assert (Pos.size_nat p ≤ k) as Hs; [|lia].
  clear H. revert p k Hk Hn. induction p as [p IH|p IH|]; intros k Hk Hn; simpl; [..|lia].
  - destruct k as [|[|k]]; [lia|simpl in Hn; lia|].
    apply le_n_S, IH; [lia|]. rewrite Nat2N.inj_succ, N.pow_succ_r' in Hn. lia.
  - destruct k as [|[|k]]; [lia|simpl in Hn; lia|].
    apply le_n_S, IH; [lia|]. rewrite Nat2N.inj_succ, N.pow_succ_r' in Hn. lia.
Qed.

Lemma length_format_int z : (minInt64 ≤ z ≤ maxInt64)%Z → length (format_int z) ≤ 65.
Proof.
  unfold minInt64, maxInt64, format_int. intros.
  destruct (Z.ltb_spec z 0); cbn [length]; [apply le_n_S|transitivity 64; [|lia]];
    apply length_format_nat; try lia.
Qed.

Lemma format_int_no c z : is_digit c = false → c ≠ "-"%byte → c ∉ format_int z.
Proof.
  intros Hc Hm. assert (∀ n, c ∉ format_nat n) as H.
  { intros n Hin. pose proof (format_nat_digits n) as Hd. rewrite Forall_forall in Hd.
    specialize (Hd c Hin). congruence. }
  unfold format_int. destruct (z <? 0)%Z; [|done].
  apply not_elem_of_cons. auto.
Qed.

(** ** Byte-wise order and sorting ([sort.Strings], [sort.Slice] on names) *)

Fixpoint bytes_leb (a b : bytes) : bool :=
  match a, b with
  | [], _ => true
  | _ :: _, [] => false
  | x :: a', y :: b' =>
      if (byte_to_Z x <? byte_to_Z y)%Z then true
      else if (byte_to_Z x =? byte_to_Z y)%Z then bytes_leb a' b' else false
  end.

Definition bytes_le (a b : bytes) : Prop := bytes_leb a b = true.

#[global] Instance bytes_le_dec : RelDecision bytes_le.
Proof. intros a b. unfold bytes_le. apply _. Defined.

Lemma byte_to_Z_inj a b : byte_to_Z a = byte_to_Z b → a = b.
Proof. intros H. by rewrite <-(byte_of_to_Z a), H, byte_of_to_Z. Qed.

#[global] Instance bytes_le_total : Total bytes_le.
Proof.
  intros a. unfold bytes_le. induction a as [|x a IH]; intros [|y b]; simpl; auto.
  destruct (Z.ltb_spec (byte_to_Z x) (byte_to_Z y)); auto.
  destruct (Z.ltb_spec (byte_to_Z y) (byte_to_Z x)); auto.
  rewrite !(proj2 (Z.eqb_eq _ _)) by lia. auto.
Qed.

#[global] Instance bytes_le_trans : Transitive bytes_le.
Proof.
  intros a. unfold bytes_le. induction a as [|x a IH]; intros [|y b] [|z c]; simpl; try done.
  destruct (Z.ltb_spec (byte_to_Z x) (byte_to_Z y)),
    (Z.ltb_spec (byte_to_Z y) (byte_to_Z z)),
    (Z.ltb_spec (byte_to_Z x) (byte_to_Z z)); auto;
  destruct (Z.eqb_spec (byte_to_Z x) (byte_to_Z y)),
    (Z.eqb_spec (byte_to_Z y) (byte_to_Z z)),
    (Z.eqb_spec (byte_to_Z x) (byte_to_Z z)); try done; try lia; eauto.
Qed.

#[global] Instance bytes_le_antisymm : AntiSymm (=) bytes_le.
Proof.
  intros a. unfold bytes_le. induction a as [|x a IH]; intros [|y b]; simpl; try done.
  destruct (Z.ltb_spec (byte_to_Z x) (byte_to_Z y)),
    (Z.ltb_spec (byte_to_Z y) (byte_to_Z x)); try lia;
  destruct (Z.eqb_spec (byte_to_Z x) (byte_to_Z y)),
    (Z.eqb_spec (byte_to_Z y) (byte_to_Z x)); try done; try lia.
  intros. f_equal; [by apply byte_to_Z_inj|auto].
Qed.

Definition sort_strings (l : list bytes) : list bytes := merge_sort bytes_le l.

Lemma sort_strings_perm l : sort_strings l ≡ₚ l.
Proof. apply merge_sort_Permutation. Qed.

Lemma sort_strings_sorted l : Sorted bytes_le (sort_strings l).
Proof. apply Sorted_merge_sort, _. Qed.

(** The sorted form depends only on the multiset of strings. *)
Lemma sort_strings_unique l k : l ≡ₚ k → sort_strings l = sort_strings k.
Proof.
  intros H. apply (Sorted_unique bytes_le); try apply sort_strings_sorted.
  by rewrite !sort_strings_perm.
Qed.

Lemma sort_strings_id l : Sorted bytes_le l → sort_strings l = l.
Proof.
  intros H. apply (Sorted_unique bytes_le); auto using sort_strings_sorted.
  apply sort_strings_perm.
Qed.

(** ** Slices *)

(** [data[a:b]] for in-range bounds. *)
Definition slice {A} (a b : nat) (l : list A) : list A := take (b - a) (drop a l).

Lemma length_slice {A} a b (l : list A) :
  b ≤ length l → length (slice a b l) = b - a.
Proof. intros. unfold slice. rewrite length_take, length_drop. lia. Qed.

Lemma slice_app_drop {A} a b (l : list A) :
  a ≤ b → slice a b l ++ drop b l = drop a l.
Proof.
  intros. unfold slice. rewrite <-(take_drop (b - a) (drop a l)) at 2.
  rewrite drop_drop. by replace (a + (b - a)) with b by lia.
Qed.

Lemma take_slice_app {A} a b (l : list A) :
  a ≤ b → take a l ++ slice a b l = take b l.
Proof.
  intros. unfold slice. rewrite take_drop_commute.
  replace (a + (b - a)) with b by lia.
  rewrite <-(take_drop a (take b l)) at 2. f_equal.
  rewrite take_take. by replace (a `min` b) with a by lia.
Qed.

Lemma slice_slice_app {A} a b c (l : list A) :
  a ≤ b → b ≤ c → slice a b l ++ slice b c l = slice a c l.
Proof.
  intros Hab Hbc. unfold slice at 2 3.
  rewrite <-(slice_app_drop a b l) by done.
  destruct (decide (b ≤ length l)) as [Hb|Hb].
  - rewrite take_app, length_slice by done.
    rewrite (take_ge (slice a b l)) by (rewrite length_slice; lia).
    by replace (c - a - (b - a)) with (c - b) by lia.
  - rewrite (drop_ge l b) by lia. rewrite take_nil, !app_nil_r.
    rewrite take_ge; [done|]. unfold slice. rewrite length_take. lia.
Qed.

(** Reading back a field of a concatenation of known lengths. *)
Lemma slice_app_skip {A} (x y : list A) a b :
  a = length x → b = length x + length y → ∀ z, slice a b (x ++ y ++ z) = y.
Proof.
  intros -> -> z. unfold slice. rewrite drop_app_length.
  replace (length x + length y - length x) with (length y) by lia.
  by rewrite take_app_length.
Qed.

(** A filter that keeps everything. *)
Lemma list_filter_all {A} (P : A → Prop) `{!∀ x, Decision (P x)} (l : list A) :
  Forall P l → filter P l = l.
Proof. induction 1 as [|x l Hx _ IH]; [done|]. by rewrite filter_cons_True, IH. Qed.

(** Linear arithmetic with division and modulus. *)
Ltac zlia := Z.div_mod_to_equations; lia.
