(* ===== verification/Errors.v ===== *)
(** * Go error values

    The package-level sentinel errors of [errors.go], [engine.go] and
    [extensions/redis/redis_storage.go], errors built with [fmt.Errorf], the
    wrapping chain that [errors.Is] walks, and the text [Error()] renders. *)

From S2P Require Import Prelude.

(** ** Sentinels *)

Inductive sentinel :=
  | ErrNotFound | ErrClosed | ErrInvalidArgument | ErrCodecUnavailable
  | ErrDriverUnavailable | ErrDriverNotInstalled | ErrDriverNotLoaded
  | ErrModuleNotInstalled | ErrModuleNoExecutable | ErrModuleManifestInvalid
  | ErrModuleIncompatible | ErrModuleConflict | ErrModuleArtifactMissing
  | ErrModuleIntegrity | ErrDriverNotExposed
  | ErrBackendMismatch | ErrBackendManifestMissing | ErrBackendManifestInvalid
  | errAtomicListPushUnsupported | errAtomicSetAddUnsupported
  | errAtomicSetRemoveUnsupported | errAtomicHashDeleteUnsupported
  | errAtomicReplaceUnsupported
  | errRedisWrongType
  | ctxCanceled | ctxDeadlineExceeded | ioEOF | ioErrUnexpectedEOF | ioErrShortWrite.

#[global] Instance sentinel_eq_dec : EqDecision sentinel.
Proof. solve_decision. Defined.

Definition sentinel_text (s : sentinel) : bytes :=
  match s with
  | ErrNotFound => ⟦"kvlite: key not found"⟧
  | ErrClosed => ⟦"kvlite: database is closed"⟧
  | ErrInvalidArgument => ⟦"kvlite: invalid argument"⟧
  | ErrCodecUnavailable => ⟦"kvlite: value codec is unavailable"⟧
  | ErrDriverUnavailable => ⟦"kvlite: storage driver is unavailable"⟧
  | ErrDriverNotInstalled => ⟦"kvlite: storage driver is not installed"⟧
  | ErrDriverNotLoaded => ⟦"kvlite: storage driver is installed but not loaded"⟧
  | ErrModuleNotInstalled => ⟦"kvlite: module is not installed"⟧
  | ErrModuleNoExecutable => ⟦"kvlite: module has no standalone executable"⟧
  | ErrModuleManifestInvalid => ⟦"kvlite: module manifest is invalid"⟧
  | ErrModuleIncompatible => ⟦"kvlite: module is incompatible"⟧
  | ErrModuleConflict => ⟦"kvlite: module name conflict"⟧
  | ErrModuleArtifactMissing => ⟦"kvlite: module artifact is missing"⟧
  | ErrModuleIntegrity => ⟦"kvlite: module artifact integrity check failed"⟧
  | ErrDriverNotExposed => ⟦"kvlite: storage driver is not exposed by this server"⟧
  | ErrBackendMismatch => ⟦"kvlite: database backend mismatch"⟧
  | ErrBackendManifestMissing => ⟦"kvlite: database backend manifest is missing"⟧
  | ErrBackendManifestInvalid => ⟦"kvlite: database backend manifest is invalid"⟧
  | errAtomicListPushUnsupported => ⟦"kvlite: engine does not support atomic list push"⟧
  | errAtomicSetAddUnsupported => ⟦"kvlite: engine does not support atomic set add"⟧
  | errAtomicSetRemoveUnsupported => ⟦"kvlite: engine does not support atomic set remove"⟧
  | errAtomicHashDeleteUnsupported => ⟦"kvlite: engine does not support atomic hash delete"⟧
  | errAtomicReplaceUnsupported =>
      ⟦"kvlite: engine does not support atomic logical replacement"⟧
  | errRedisWrongType =>
      ⟦"WRONGTYPE Operation against a key holding the wrong kind of value"⟧
  | ctxCanceled => ⟦"context canceled"⟧
  | ctxDeadlineExceeded => ⟦"context deadline exceeded"⟧
  | ioEOF => ⟦"EOF"⟧
  | ioErrUnexpectedEOF => ⟦"unexpected EOF"⟧
  | ioErrShortWrite => ⟦"short write"⟧
  end.

(** ** Error values

    [ENew] is [errors.New] or a [fmt.Errorf] without [%w]: a message nothing
    else is equal to. [EWrap pre e post] is [fmt.Errorf] with one [%w]: the
    wrapped error and the already formatted text around it. [EExternal] is an
    error of code outside the repository (an operating system, a storage
    library), known only by its text. [EWrap2] has two [%w]; [ETyped] is an
    error type of the program with its own text and [Unwrap] method. *)

Inductive GoError :=
  | ESentinel (s : sentinel)
  | ENew (text : bytes)
  | EWrap (pre : bytes) (inner : GoError) (post : bytes)
  | EExternal (text : bytes)
  | EWrap2 (first : GoError) (mid : bytes) (second : GoError)
  | ETyped (text : bytes) (unwrap : option sentinel).

#[global] Instance GoError_eq_dec : EqDecision GoError.
Proof. solve_decision. Defined.

Coercion ESentinel : sentinel >-> GoError.

(** [errors.Is(err, target)] for a sentinel target. *)
Fixpoint errors_Is (e : GoError) (target : sentinel) : bool :=
  match e with
  | ESentinel s => bool_decide (s = target)
  | EWrap _ inner _ => errors_Is inner target
  | EWrap2 first _ second => errors_Is first target || errors_Is second target
  | ETyped _ unwrap => bool_decide (unwrap = Some target)
  | ENew _ | EExternal _ => false
  end.

(** [err.Error()]. *)
Fixpoint error_text (e : GoError) : bytes :=
  match e with
  | ESentinel s => sentinel_text s
  | ENew t | EExternal t | ETyped t _ => t
  | EWrap2 first mid second => error_text first ++ mid ++ error_text second
  | EWrap pre inner post => pre ++ error_text inner ++ post
  end.

(** [fmt.Errorf("%w: ...", sentinel)], the form most errors have. *)
Definition errorf (s : sentinel) (detail : bytes) : GoError :=
  EWrap [] (ESentinel s) (⟦": "⟧ ++ detail).

(** [fmt.Errorf("kvlite: op: %w", err)]. *)
Definition wrapf (prefix : bytes) (e : GoError) : GoError := EWrap prefix e [].

Lemma errors_Is_errorf s d t : errors_Is (errorf s d) t = bool_decide (s = t).
Proof. done. Qed.

Lemma errors_Is_wrapf p e t : errors_Is (wrapf p e) t = errors_Is e t.
Proof. done. Qed.

#[export] Hint Rewrite errors_Is_errorf errors_Is_wrapf : kv.
