(* ===== verification/Engine.v ===== *)
(** * The storage contract and the close guard ([engine.go])

    [Engine] is the Go interface a storage driver implements, as a class of
    operations over the driver's own state; [guardedEngine] is the wrapper
    [newDB] puts around every engine. *)

From S2P Require Import Prelude Errors.

(** A [context.Context] as one call sees it: what [ctx.Err()] returns. *)
Abbreviation GoContext := (option GoError).

Definition Background : GoContext := None.

(** ** The Engine interface

    Every operation takes and returns the engine's state. [Get] yields the
    value when the key is found. [ScanPrefix] yields the records it delivers
    to the callback, in order, and the error that ended the scan, if any; the
    callback runs in the caller, which stops reading at its first error. The
    last five fields are the optional owner-side operations of a remote
    engine, [None] for an engine whose type assertion fails. *)

Class Engine (E : Type) := {
  engine_Get : GoContext → bytes → E → (GoError + option bytes) * E;
  engine_Put : GoContext → bytes → bytes → E → option GoError * E;
  engine_Delete : GoContext → bytes → E → option GoError * E;
  engine_ScanPrefix : GoContext → bytes → E → (list (bytes * bytes) * option GoError) * E;
  engine_Close : E → option GoError * E;
  engine_PushList :
    option (GoContext → bytes → list bytes → bool → E → (GoError + Z) * E);
  engine_AddSet : option (GoContext → bytes → list bytes → E → (GoError + Z) * E);
  engine_RemoveSet : option (GoContext → bytes → list bytes → E → (GoError + Z) * E);
  engine_DeleteHashFields :
    option (GoContext → bytes → list bytes → E → (GoError + Z) * E);
  engine_ReplaceLogicalValue :
    option (GoContext → bytes → bytes → E → option GoError * E)
}.

(** ** guardedEngine *)

Record guardedEngine (E : Type) := mkGuarded { inner : E; closed : bool }.
Arguments mkGuarded {E}.
Arguments inner {E}.
Arguments closed {E}.

Section guarded.
Context {E : Type} `{!Engine E}.
Implicit Types (g : guardedEngine E) (ctx : GoContext).

(** Run an operation of the inner engine and store its new state. *)
Definition on_inner {A} (f : E → A * E) g : A * guardedEngine E :=
  let '(a, e) := f (inner g) in (a, mkGuarded e (closed g)).

Definition guarded_Get ctx key g : (GoError + option bytes) * guardedEngine E :=
  if closed g then (inl (ESentinel ErrClosed), g)
  else on_inner (engine_Get ctx key) g.

Definition guarded_Put ctx key value g : option GoError * guardedEngine E :=
  if closed g then (Some (ESentinel ErrClosed), g)
  else on_inner (engine_Put ctx key value) g.

Definition guarded_Delete ctx key g : option GoError * guardedEngine E :=
  if closed g then (Some (ESentinel ErrClosed), g)
  else on_inner (engine_Delete ctx key) g.

Definition guarded_ScanPrefix ctx pfx g
    : (list (bytes * bytes) * option GoError) * guardedEngine E :=
  if closed g then (([], Some (ESentinel ErrClosed)), g)
  else on_inner (engine_ScanPrefix ctx pfx) g.

Definition guarded_PushList ctx key items onLeft g : (GoError + Z) * guardedEngine E :=
  if closed g then (inl (ESentinel ErrClosed), g)
  else match engine_PushList with
       | None => (inl (ESentinel errAtomicListPushUnsupported), g)
       | Some remote => on_inner (remote ctx key items onLeft) g
       end.

Definition guarded_AddSet ctx name members g : (GoError + Z) * guardedEngine E :=
  if closed g then (inl (ESentinel ErrClosed), g)
  else match engine_AddSet with
       | None => (inl (ESentinel errAtomicSetAddUnsupported), g)
       | Some remote => on_inner (remote ctx name members) g
       end.

Definition guarded_RemoveSet ctx name members g : (GoError + Z) * guardedEngine E :=
  if closed g then (inl (ESentinel ErrClosed), g)
  else match engine_RemoveSet with
       | None => (inl (ESentinel errAtomicSetRemoveUnsupported), g)
       | Some remote => on_inner (remote ctx name members) g
       end.

Definition guarded_DeleteHashFields ctx name fields g
    : (GoError + Z) * guardedEngine E :=
  if closed g then (inl (ESentinel ErrClosed), g)
  else match engine_DeleteHashFields with
       | None => (inl (ESentinel errAtomicHashDeleteUnsupported), g)
       | Some remote => on_inner (remote ctx name fields) g
       end.

Definition guarded_ReplaceLogicalValue ctx key encoded g
    : option GoError * guardedEngine E :=
  if closed g then (Some (ESentinel ErrClosed), g)
  else match engine_ReplaceLogicalValue with
       | None => (Some (ESentinel errAtomicReplaceUnsupported), g)
       | Some remote => on_inner (remote ctx key encoded) g
       end.

Definition guarded_Close g : option GoError * guardedEngine E :=
  if closed g then (None, g)
  else on_inner engine_Close (mkGuarded (inner g) true).
End guarded.

(** ** What the core relies on

    The records an engine holds under a prefix, as a list without order. *)

Definition has_prefix (pfx key : bytes) : bool :=
  bool_decide (take (length pfx) key = pfx).

Definition matches (m : gmap bytes bytes) (pfx : bytes) : list (bytes * bytes) :=
  filter (λ kv, has_prefix pfx kv.1 = true) (map_to_list m).

(** A local engine in good health behaves as a finite map from record keys to
    records: reads do not change it, writes change one key, a scan delivers
    exactly the records under the prefix, in some order. It offers none of the
    optional owner-side operations. *)

Class LocalEngine (E : Type) `{!Engine E} := {
  contents : E → gmap bytes bytes;
  live : E → Prop;
  local_Get e key : live e → ∃ e',
    engine_Get Background key e = (inr (contents e !! key), e')
    ∧ live e' ∧ contents e' = contents e;
  local_Put e key value : live e → ∃ e',
    engine_Put Background key value e = (None, e')
    ∧ live e' ∧ contents e' = <[key := value]> (contents e);
  local_Delete e key : live e → ∃ e',
    engine_Delete Background key e = (None, e')
    ∧ live e' ∧ contents e' = delete key (contents e);
  local_ScanPrefix e pfx : live e → ∃ items e',
    engine_ScanPrefix Background pfx e = ((items, None), e')
    ∧ items ≡ₚ matches (contents e) pfx
    ∧ live e' ∧ contents e' = contents e;
  local_PushList : engine_PushList = None;
  local_AddSet : engine_AddSet = None;
  local_RemoveSet : engine_RemoveSet = None;
  local_DeleteHashFields : engine_DeleteHashFields = None;
  local_ReplaceLogicalValue : engine_ReplaceLogicalValue = None
}.

Lemma has_prefix_spec pfx key :
  has_prefix pfx key = true ↔ ∃ rest, key = pfx ++ rest.
Proof.
  unfold has_prefix. rewrite bool_decide_eq_true. split.
  - intros H. exists (drop (length pfx) key). rewrite <-H at 1. by rewrite take_drop.
  - intros [rest ->]. by rewrite take_app_length.
Qed.

Lemma elem_of_matches m pfx k v :
  (k, v) ∈ matches m pfx ↔ m !! k = Some v ∧ has_prefix pfx k = true.
Proof. unfold matches. rewrite list_elem_of_filter, elem_of_map_to_list. tauto. Qed.

Lemma matches_NoDup m pfx : NoDup (matches m pfx).*1.
Proof.
  unfold matches. eapply sublist_NoDup; [apply (NoDup_fst_map_to_list m)|].
  apply fmap_sublist, sublist_filter.
Qed.

(** The keys a scan delivers. *)
Lemma elem_of_matches_keys m pfx items k :
  items ≡ₚ matches m pfx → k ∈ items.*1 ↔ has_prefix pfx k = true ∧ is_Some (m !! k).
Proof.
  intros Hp. rewrite Hp, list_elem_of_fmap. split.
  - intros ([k' v] & -> & Hin). apply elem_of_matches in Hin as [Hm Hpf]. eauto.
  - intros [Hpf [v Hv]]. exists (k, v). by rewrite elem_of_matches.
Qed.
