(* ===== verification/Effects.v ===== *)
(** * Effects of the core and of the protocol extensions

    The methods of [DB], of the protocol store and of the Redis commands are
    programs over a few effects: the engine operations behind
    [guardedEngine], the closed flag of the handle, and the clock
    [cfg.now]. [run] executes a program over any engine; [wp] is the
    predicate-transformer reading of the same program over an abstract record
    map, and [wp_sound] connects the two for every [LocalEngine]. *)

From S2P Require Import Prelude Errors Engine.

(** ** Programs *)

Inductive op :=
  | OpClosed
  | OpNow
  | OpGet (key : bytes)
  | OpPut (key value : bytes)
  | OpDelete (key : bytes)
  | OpScan (pfx : bytes)
  | OpPushList (key : bytes) (items : list bytes) (onLeft : bool)
  | OpAddSet (name : bytes) (members : list bytes)
  | OpRemoveSet (name : bytes) (members : list bytes)
  | OpDeleteHashFields (name : bytes) (fields : list bytes)
  | OpReplaceLogicalValue (key encoded : bytes).

Definition resp (o : op) : Type :=
  match o with
  | OpClosed => bool
  | OpNow => Z
  | OpGet _ => GoError + option bytes
  | OpPut _ _ | OpDelete _ | OpReplaceLogicalValue _ _ => option GoError
  | OpScan _ => list (bytes * bytes) * option GoError
  | OpPushList _ _ _ | OpAddSet _ _ | OpRemoveSet _ _ | OpDeleteHashFields _ _ =>
      GoError + Z
  end.

Inductive prog (A : Type) : Type :=
  | Ret (a : A)
  | Step (o : op) (k : resp o → prog A).
Arguments Ret {A}.
Arguments Step {A}.

Fixpoint prog_bind {A B} (f : A → prog B) (p : prog A) : prog B :=
  match p with
  | Ret a => f a
  | Step o k => Step o (λ r, prog_bind f (k r))
  end.

(** How a Go call ends: a value, a non-nil error, or a run-time panic. *)
Inductive result (A : Type) :=
  | Ok (a : A)
  | Err (e : GoError)
  | Panic.
Arguments Ok {A}.
Arguments Err {A}.
Arguments Panic {A}.

#[global] Instance result_eq_dec {A} `{EqDecision A} : EqDecision (result A).
Proof. solve_decision. Defined.

Lemma Ok_inj {A} (a b : A) : Ok a = Ok b → a = b.
Proof. by intros [=]. Qed.

#[global] Instance result_ret : MRet result := λ A a, Ok a.

#[global] Instance result_bind : MBind result := λ A B f r,
  match r with Ok a => f a | Err e => Err e | Panic => Panic end.

(** [if bad { return err }]. *)
Definition refuse (bad : bool) (err : GoError) : result unit := if bad then Err err else Ok tt.

Lemma refuse_Ok bad err : refuse bad err = Ok tt ↔ bad = false.
Proof. by destruct bad. Qed.

Lemma result_bind_Ok {A B} (r : result A) (f : A → result B) b :
  r ≫= f = Ok b ↔ ∃ a, r = Ok a ∧ f a = Ok b.
Proof. destruct r; cbn; naive_solver. Qed.

Definition M (A : Type) : Type := prog (result A).

#[global] Instance M_ret : MRet M := λ A a, Ret (Ok a).

#[global] Instance M_bind : MBind M := λ A B f m,
  prog_bind (λ r, match r with
                  | Ok a => f a
                  | Err e => Ret (Err e)
                  | Panic => Ret Panic
                  end) m.

Definition throw {A} (e : GoError) : M A := Ret (Err e).
Definition panic {A} : M A := Ret Panic.

(** [x, err := f()] with [err] inspected by the caller. *)
Definition attempt {A} (m : M A) : M (GoError + A) :=
  prog_bind (λ r, Ret (match r with
                       | Ok a => Ok (inr a)
                       | Err e => Ok (inl e)
                       | Panic => Panic
                       end)) m.

(** [_ = f()] and [_, _ = f()]: the error is dropped. *)
Definition ignore {A} (m : M A) : M unit := attempt m ≫= λ _, mret tt.

(** [if err := f(); err != nil { return wrap(err) }]. *)
Definition map_err {A} (wrap : GoError → GoError) (m : M A) : M A :=
  prog_bind (λ r, Ret (match r with
                       | Ok a => Ok a
                       | Err e => Err (wrap e)
                       | Panic => Panic
                       end)) m.

(** [for _, x := range l { s = body(x, s) }], leaving at the first error. *)
Fixpoint for_each {A S} (l : list A) (body : A → S → M S) (s : S) : M S :=
  match l with
  | [] => mret s
  | x :: l => body x s ≫= for_each l body
  end.

(** ** The effects as calls *)

Definition of_sum {A} (r : GoError + A) : result A :=
  match r with inl e => Err e | inr a => Ok a end.

Definition of_option (r : option GoError) : result unit :=
  match r with Some e => Err e | None => Ok tt end.

Definition dbClosed : M bool := Step OpClosed (λ b, Ret (Ok b)).
Definition nowTime : M Z := Step OpNow (λ t, Ret (Ok t)).
Definition engineGet (key : bytes) : M (option bytes) :=
  Step (OpGet key) (λ r, Ret (of_sum r)).
Definition enginePut (key value : bytes) : M unit :=
  Step (OpPut key value) (λ r, Ret (of_option r)).
Definition engineDelete (key : bytes) : M unit :=
  Step (OpDelete key) (λ r, Ret (of_option r)).
Definition enginePushList key items onLeft : M Z :=
  Step (OpPushList key items onLeft) (λ r, Ret (of_sum r)).
Definition engineAddSet name members : M Z :=
  Step (OpAddSet name members) (λ r, Ret (of_sum r)).
Definition engineRemoveSet name members : M Z :=
  Step (OpRemoveSet name members) (λ r, Ret (of_sum r)).
Definition engineDeleteHashFields name fields : M Z :=
  Step (OpDeleteHashFields name fields) (λ r, Ret (of_sum r)).
Definition engineReplaceLogicalValue key encoded : M unit :=
  Step (OpReplaceLogicalValue key encoded) (λ r, Ret (of_option r)).

(** [engine.ScanPrefix(ctx, pfx, callback)]: the callback sees the records
    in order, the first error (its own, else the engine's) is returned. *)
Definition engineScan {S} (pfx : bytes) (callback : bytes * bytes → S → M S) (s : S)
    : M S :=
  Step (OpScan pfx) (λ '(items, err),
    for_each items callback s ≫= λ s',
    match err with Some e => throw e | None => mret s' end).

(** ** Execution over an engine *)

(** The database handle ([DB] of [db.go]); its configuration is a parameter
    of the programs that use it. *)
Record DB (E : Type) := mkDB {
  db_engine : guardedEngine E;
  db_backend : bytes;
  db_remote : bool;
  db_closed : bool
}.
Arguments mkDB {E}.
Arguments db_engine {E}.
Arguments db_backend {E}.
Arguments db_remote {E}.
Arguments db_closed {E}.

(** The environment of one call: the caller's context and the clock, a
    sequence of readings ([env_now n] is the value of the n-th call to
    [cfg.now()], in nanoseconds since the Unix epoch). *)
Record Env := mkEnv { env_ctx : GoContext; env_now : nat → Z }.

Record World (E : Type) := mkWorld { w_db : DB E; w_ticks : nat }.
Arguments mkWorld {E}.
Arguments w_db {E}.
Arguments w_ticks {E}.

Section run.
Context {E : Type} `{!Engine E}.
Implicit Types (env : Env) (w : World E).

Definition on_engine {A} (f : guardedEngine E → A * guardedEngine E) w
    : A * World E :=
  let db := w_db w in
  let '(a, g) := f (db_engine db) in
  (a, mkWorld (mkDB g (db_backend db) (db_remote db) (db_closed db)) (w_ticks w)).

Definition perform env (o : op) w : resp o * World E :=
  match o with
  | OpClosed => (db_closed (w_db w), w)
  | OpNow => (env_now env (w_ticks w), mkWorld (w_db w) (S (w_ticks w)))
  | OpGet key => on_engine (guarded_Get (env_ctx env) key) w
  | OpPut key value => on_engine (guarded_Put (env_ctx env) key value) w
  | OpDelete key => on_engine (guarded_Delete (env_ctx env) key) w
  | OpScan pfx => on_engine (guarded_ScanPrefix (env_ctx env) pfx) w
  | OpPushList key items onLeft =>
      on_engine (guarded_PushList (env_ctx env) key items onLeft) w
  | OpAddSet name members => on_engine (guarded_AddSet (env_ctx env) name members) w
  | OpRemoveSet name members =>
      on_engine (guarded_RemoveSet (env_ctx env) name members) w
  | OpDeleteHashFields name fields =>
      on_engine (guarded_DeleteHashFields (env_ctx env) name fields) w
  | OpReplaceLogicalValue key encoded =>
      on_engine (guarded_ReplaceLogicalValue (env_ctx env) key encoded) w
  end.

Fixpoint run {A} env (p : prog A) w : A * World E :=
  match p with
  | Ret a => (a, w)
  | Step o k => let '(r, w') := perform env o w in run env (k r) w'
  end.

Lemma run_prog_bind {A B} env (f : A → prog B) p w :
  run env (prog_bind f p) w = let '(a, w') := run env p w in run env (f a) w'.
Proof.
  revert w. induction p as [a|o k IH]; intros w; simpl; [done|].
  destruct (perform env o w) as [r w']. apply IH.
Qed.
End run.

(** ** The abstract reading: weakest preconditions over a record map

    [readings t] says which values a clock reading can take during the call.
    An operation's meaning on the record map [m]: a scan may deliver the
    matching records in any order, the clock may show any admissible time. *)

Definition op_spec (readings : Z → Prop) (o : op) (m : gmap bytes bytes)
    : (resp o → gmap bytes bytes → Prop) → Prop :=
  match o return (resp o → gmap bytes bytes → Prop) → Prop with
  | OpClosed => λ Q, Q false m
  | OpNow => λ Q, ∀ t, readings t → Q t m
  | OpGet key => λ Q, Q (inr (m !! key)) m
  | OpPut key value => λ Q, Q None (<[key := value]> m)
  | OpDelete key => λ Q, Q None (delete key m)
  | OpScan pfx => λ Q, ∀ items, items ≡ₚ matches m pfx → Q (items, None) m
  | OpPushList _ _ _ => λ Q, Q (inl (ESentinel errAtomicListPushUnsupported)) m
  | OpAddSet _ _ => λ Q, Q (inl (ESentinel errAtomicSetAddUnsupported)) m
  | OpRemoveSet _ _ => λ Q, Q (inl (ESentinel errAtomicSetRemoveUnsupported)) m
  | OpDeleteHashFields _ _ => λ Q, Q (inl (ESentinel errAtomicHashDeleteUnsupported)) m
  | OpReplaceLogicalValue _ _ => λ Q, Q (Some (ESentinel errAtomicReplaceUnsupported)) m
  end.

Fixpoint wp {A} (readings : Z → Prop) (p : prog A) (Q : A → gmap bytes bytes → Prop)
    (m : gmap bytes bytes) : Prop :=
  match p with
  | Ret a => Q a m
  | Step o k => op_spec readings o m (λ r m', wp readings (k r) Q m')
  end.

Implicit Types (m : gmap bytes bytes) (readings : Z → Prop).

Lemma op_spec_mono readings o m (P Q : resp o → gmap bytes bytes → Prop) :
  op_spec readings o m P → (∀ r m', P r m' → Q r m') → op_spec readings o m Q.
Proof. destruct o; simpl; auto. Qed.

Lemma wp_mono {A} readings (p : prog A) P Q m :
  wp readings p P m → (∀ a m', P a m' → Q a m') → wp readings p Q m.
Proof.
  revert m. induction p as [a|o k IH]; intros m; simpl; [auto|].
  intros H HPQ. eapply op_spec_mono; [done|]. eauto.
Qed.

Lemma wp_prog_bind {A B} readings (f : A → prog B) p Q m :
  wp readings (prog_bind f p) Q m ↔ wp readings p (λ a m', wp readings (f a) Q m') m.
Proof.
  revert m. induction p as [a|o k IH]; intros m; simpl; [done|].
  split; intros H; eapply op_spec_mono; eauto; intros r m'; apply IH.
Qed.

(** Sequencing of fallible programs, in the two directions proofs use. *)
Lemma wp_bind {A B} readings (f : A → M B) (p : M A) Q m :
  wp readings p (λ r m', match r with
                         | Ok a => wp readings (f a) Q m'
                         | Err e => Q (Err e) m'
                         | Panic => Q Panic m'
                         end) m →
  wp readings (p ≫= f) Q m.
Proof.
  intros H. apply wp_prog_bind. eapply wp_mono; [exact H|]. by intros [] ?.
Qed.

Lemma wp_attempt {A} readings (p : M A) Q m :
  wp readings p (λ r m', Q (match r with
                            | Ok a => Ok (inr a)
                            | Err e => Ok (inl e)
                            | Panic => Panic
                            end) m') m →
  wp readings (attempt p) Q m.
Proof. intros H. by apply wp_prog_bind. Qed.

Lemma wp_ignore {A} readings (p : M A) Q m :
  wp readings p (λ r m', Q (match r with Panic => Panic | _ => Ok tt end) m') m →
  wp readings (ignore p) Q m.
Proof.
  intros H. apply wp_bind, wp_attempt. eapply wp_mono; [exact H|]. by intros [] ?.
Qed.

Lemma wp_map_err {A} readings wrap (p : M A) Q m :
  wp readings p (λ r m', Q (match r with
                            | Ok a => Ok a
                            | Err e => Err (wrap e)
                            | Panic => Panic
                            end) m') m →
  wp readings (map_err wrap p) Q m.
Proof. intros H. by apply wp_prog_bind. Qed.

(** A loop whose body keeps [I done s m] never fails and ends with every
    element done. *)
Lemma wp_for_each {A S} readings (l : list A) (body : A → S → M S)
    (I : list A → S → gmap bytes bytes → Prop) s m :
  I [] s m →
  (∀ don x rest s m, l = don ++ x :: rest → I don s m →
    wp readings (body x s)
       (λ r m', ∃ s', r = Ok s' ∧ I (don ++ [x]) s' m') m) →
  wp readings (for_each l body s) (λ r m', ∃ s', r = Ok s' ∧ I l s' m') m.
Proof.
  intros Hinit Hstep.
  assert (∀ rest don s m, l = don ++ rest → I don s m →
    wp readings (for_each rest body s) (λ r m', ∃ s', r = Ok s' ∧ I l s' m') m)
    as H; [|by apply (H l [] s m)].
  clear s m Hinit. induction rest as [|x rest IH]; intros don s m Hl HI; simpl.
  - exists s. by rewrite Hl, app_nil_r.
  - apply wp_bind. eapply wp_mono; [by eapply Hstep|].
    intros r m' (s' & -> & HI'). apply (IH (don ++ [x])); [|done].
    by rewrite <-app_assoc.
Qed.

(** A scan delivers some ordering of the matching records and its callback
    behaves as the corresponding loop. *)
Lemma wp_scan {S} readings (pfx : bytes) (callback : bytes * bytes → S → M S)
    (Q : result S → gmap bytes bytes → Prop) (s : S) m :
  (∀ items : list (bytes * bytes), items ≡ₚ matches m pfx →
    wp readings (for_each items callback s) Q m) →
  wp readings (engineScan pfx callback s) Q m.
Proof.
  intros H items Hp. specialize (H items Hp).
  apply wp_bind. eapply wp_mono; [exact H|]. by intros [] ?.
Qed.

(** ** Soundness of the abstract reading

    A world is healthy when neither the handle nor the guard is closed and
    the engine is live. *)

Section sound.
Context {E : Type} `{!Engine E} `{!LocalEngine E}.
Implicit Types (w : World E).

Definition records w : gmap bytes bytes := contents (inner (db_engine (w_db w))).

Definition healthy w : Prop :=
  db_closed (w_db w) = false ∧ closed (db_engine (w_db w)) = false
  ∧ live (inner (db_engine (w_db w))).

Lemma perform_sound readings env o w Q :
  env_ctx env = Background → (∀ n, readings (env_now env n)) → healthy w →
  op_spec readings o (records w) Q →
  Q (perform env o w).1 (records (perform env o w).2) ∧ healthy (perform env o w).2.
Proof.
  destruct env as [ctx now], w as [[[e cl] be rm dcl] n]; unfold healthy, records.
  simpl. intros -> Hnow (-> & -> & Hlive) H.
  destruct o; simpl in *; unfold on_engine, guarded_Get, guarded_Put, guarded_Delete,
    guarded_ScanPrefix, guarded_PushList, guarded_AddSet, guarded_RemoveSet,
    guarded_DeleteHashFields, guarded_ReplaceLogicalValue, on_inner; simpl;
    rewrite ?local_PushList, ?local_AddSet, ?local_RemoveSet, ?local_DeleteHashFields,
      ?local_ReplaceLogicalValue; simpl; auto.
  - destruct (local_Get e key Hlive) as (e' & -> & ? & Hc). simpl. by rewrite Hc.
  - destruct (local_Put e key value Hlive) as (e' & -> & ? & Hc). simpl. by rewrite Hc.
  - destruct (local_Delete e key Hlive) as (e' & -> & ? & Hc). simpl. by rewrite Hc.
  - destruct (local_ScanPrefix e pfx Hlive) as (items & e' & -> & Hp & ? & Hc).
    simpl. rewrite Hc. auto.
Qed.

Theorem wp_sound {A} readings env (p : prog A) Q w :
  env_ctx env = Background → (∀ n, readings (env_now env n)) → healthy w →
  wp readings p Q (records w) →
  Q (run env p w).1 (records (run env p w).2) ∧ healthy (run env p w).2.
Proof.
  intros Hctx Hnow. revert w. induction p as [a|o k IH]; intros w Hw; simpl; [auto|].
  intros H.
  pose proof (perform_sound readings env o w _ Hctx Hnow Hw H) as [Hk Hh].
  destruct (perform env o w) as [r w']. by apply IH.
Qed.
End sound.

(** ** Specifications of calls

    [triple readings P p Q]: on every healthy local engine, under a live
    context and a clock that shows only admissible readings, a call of [p]
    from a record map satisfying [P] ends with a result and a record map
    related to the initial one by [Q], and the handle stays healthy. *)

Definition triple {A} (readings : Z → Prop) (P : gmap bytes bytes → Prop) (p : prog A)
    (Q : gmap bytes bytes → A → gmap bytes bytes → Prop) : Prop :=
  ∀ (E : Type) (HE : Engine E) (HL : LocalEngine E) (env : Env) (w : World E),
    env_ctx env = Background → (∀ n, readings (env_now env n)) → healthy w →
    P (records w) →
    Q (records w) (run env p w).1 (records (run env p w).2)
    ∧ healthy (run env p w).2.

Lemma triple_intro {A} readings P (p : prog A) Q :
  (∀ m, P m → wp readings p (Q m) m) → triple readings P p Q.
Proof. intros H E HE HL env w Hctx Hnow Hw HP. by apply (wp_sound readings); auto. Qed.

(** Pure results inside programs. *)
Definition lift {A} (r : result A) : M A := Ret r.

(** A scan whose callback only collects: the delivered records and the error
    that ended the scan. *)
Definition engineScanAll (pfx : bytes) : M (list (bytes * bytes) * option GoError) :=
  Step (OpScan pfx) (λ r, Ret (Ok r)).

(** Deleting a list of keys leaves the other records. *)
Definition delete_keys (keys : list bytes) : M unit :=
  for_each keys (λ key _, engineDelete key) tt.

Lemma wp_delete_loop readings (del : bytes → M unit) keys m
    (Q : result unit → gmap bytes bytes → Prop) :
  (∀ k m Q, Q (Ok tt) (delete k m) → wp readings (del k) Q m) →
  Q (Ok tt) (filter (λ kv, kv.1 ∉ keys) m) →
  wp readings (for_each keys (λ k _, del k) tt) Q m.
Proof.
  intros Hdel HQ. eapply wp_mono.
  - apply (wp_for_each readings keys _
      (λ don _ m', m' = filter (λ kv, kv.1 ∉ don) m)).
    + symmetry. apply map_filter_id. intros k v _ Hk. by apply not_elem_of_nil in Hk.
    + intros don x rest [] m' _ ->. apply Hdel. exists tt. split; [done|].
      apply map_eq. intros k. destruct (decide (x = k)) as [->|Hne].
      * rewrite lookup_delete_eq. symmetry. apply map_lookup_filter_None. right.
        intros v _ Hk. apply Hk. simpl. set_solver.
      * rewrite lookup_delete_ne by done. apply option_eq. intros v.
        rewrite !map_lookup_filter_Some. simpl. set_solver.
  - simpl. intros r m' ([] & -> & ->). done.
Qed.

Lemma wp_delete_keys readings keys m (Q : result unit → gmap bytes bytes → Prop) :
  Q (Ok tt) (filter (λ kv, kv.1 ∉ keys) m) → wp readings (delete_keys keys) Q m.
Proof. by apply wp_delete_loop. Qed.

(** Program steps that [simpl] exposes. *)
Ltac wp_step :=
  lazymatch goal with
  | |- wp _ (_ ≫= _) _ _ => apply wp_bind
  | |- wp _ (attempt _) _ _ => apply wp_attempt
  | |- wp _ (ignore _) _ _ => apply wp_ignore
  | |- wp _ (map_err _ _) _ _ => apply wp_map_err
  | |- wp _ (mret _) _ _ => cbn [wp mret M_ret]
  | |- wp _ (throw _) _ _ => cbn [wp throw]
  | |- wp _ (lift _) _ _ => cbn [wp lift]
  | |- wp _ (engineGet _) _ _ => cbn [wp op_spec engineGet of_sum]
  | |- wp _ (enginePut _ _) _ _ => cbn [wp op_spec enginePut of_option]
  | |- wp _ (engineDelete _) _ _ => cbn [wp op_spec engineDelete of_option]
  | |- wp _ dbClosed _ _ => cbn [wp op_spec dbClosed]
  | |- wp _ nowTime _ _ => cbn [wp op_spec nowTime]; intros
  | |- wp _ (enginePushList _ _ _) _ _ => cbn [wp op_spec enginePushList of_sum]
  | |- wp _ (engineAddSet _ _) _ _ => cbn [wp op_spec engineAddSet of_sum]
  | |- wp _ (engineRemoveSet _ _) _ _ => cbn [wp op_spec engineRemoveSet of_sum]
  | |- wp _ (engineDeleteHashFields _ _) _ _ =>
      cbn [wp op_spec engineDeleteHashFields of_sum]
  | |- wp _ (engineReplaceLogicalValue _ _) _ _ =>
      cbn [wp op_spec engineReplaceLogicalValue of_option]
  | |- wp _ (engineScanAll _) _ _ => cbn [wp op_spec engineScanAll]; intros
  end.
Ltac wp_steps := repeat (wp_step; cbv beta iota).
