(* ===== verification/Locks.v ===== *)
(** * The mutexes of a handle and the goroutines that share it

    [DB] has two mutexes: [protocolMu] brackets the multi-step operations and
    every Redis command, [collectionMu] the typed list pushes. A [call] is one
    method as its goroutine executes it: engine operations outside any mutex,
    and critical sections, which the code never nests. [step] interleaves the
    goroutines operation by operation; [atomic_step] runs a whole critical
    section at once. [steps_atomic] shows that goroutines which work under one
    mutex only cannot tell the two apart. *)

From S2P Require Import Prelude Errors Engine Effects.

(** ** Calls *)

Inductive mutex := protocolMu | collectionMu.

#[global] Instance mutex_eq_dec : EqDecision mutex.
Proof. solve_decision. Defined.

#[global] Instance mutex_countable : Countable mutex.
Proof.
  refine (inj_countable' (λ mu, match mu with protocolMu => true | collectionMu => false end)
            (λ b : bool, if b then protocolMu else collectionMu) _).
  abstract (by intros []).
Defined.

Inductive call (R : Type) : Type :=
  | Return (r : R)
  | Unlocked (o : op) (k : resp o → call R)
  | Locked (mu : mutex) (body : prog (call R)).
Arguments Return {R}.
Arguments Unlocked {R}.
Arguments Locked {R}.

(** A program run before any lock is taken. *)
Fixpoint before_lock {A R} (p : prog A) (k : A → call R) : call R :=
  match p with
  | Ret a => k a
  | Step o f => Unlocked o (λ r, before_lock (f r) k)
  end.

(** [if err := f(); err != nil { return err }] before any lock is taken. *)
Definition checking {A R} (p : M A) (k : A → call (result R)) : call (result R) :=
  before_lock p (λ r, match r with
                      | Ok a => k a
                      | Err e => Return (Err e)
                      | Panic => Return Panic
                      end).

(** [mu.Lock(); defer mu.Unlock()] in front of the rest of a method. *)
Definition holding {A} (mu : mutex) (body : prog A) : call A :=
  Locked mu (prog_bind (λ r, Ret (Return r)) body).

Definition unlocked {A} (p : prog A) : call A := before_lock p Return.

(** One call after another in the same goroutine. *)
Fixpoint call_bind {A B} (f : A → call B) (c : call A) : call B :=
  match c with
  | Return r => f r
  | Unlocked o k => Unlocked o (λ r, call_bind f (k r))
  | Locked mu body => Locked mu (prog_bind (λ c, Ret (call_bind f c)) body)
  end.

(** The call with its locks forgotten, as the only goroutine runs it. *)
Fixpoint erase {R} (c : call R) : prog R :=
  match c with
  | Return r => Ret r
  | Unlocked o k => Step o (λ r, erase (k r))
  | Locked mu body => prog_bind erase body
  end.

(** Every way a program can end satisfies [P]. *)
Inductive leaves {A} (P : A → Prop) : prog A → Prop :=
  | leaves_Ret a : P a → leaves P (Ret a)
  | leaves_Step o k : (∀ r, leaves P (k r)) → leaves P (Step o k).

Section leaves.
Context {A : Type} (P : A → Prop) (HP : ∀ a, P a).

Definition leaves_all : ∀ p : prog A, leaves P p :=
  fix go p := match p with
              | Ret a => leaves_Ret P a (HP a)
              | Step o k => leaves_Step P o k (λ r, go (k r))
              end.
End leaves.

(** The induction principle of calls, through the programs of their critical
    sections. *)
Section call_induction.
Context {R : Type} (P : call R → Prop).
Context (P_Return : ∀ r, P (Return r))
        (P_Unlocked : ∀ o k, (∀ r, P (k r)) → P (Unlocked o k))
        (P_Locked : ∀ mu body, leaves P body → P (Locked mu body)).

Definition call_induction : ∀ c, P c :=
  fix go c := match c with
              | Return r => P_Return r
              | Unlocked o k => P_Unlocked o k (λ r, go (k r))
              | Locked mu body => P_Locked mu body (leaves_all P go body)
              end.
End call_induction.

Lemma leaves_mono {A} (P Q : A → Prop) p : (∀ a, P a → Q a) → leaves P p → leaves Q p.
Proof. intros HPQ. induction 1; constructor; auto. Qed.

Lemma leaves_bind {A B} (P : A → Prop) (Q : B → Prop) (f : A → prog B) p :
  leaves P p → (∀ a, P a → leaves Q (f a)) → leaves Q (prog_bind f p).
Proof. intros Hp Hf. induction Hp; simpl; [auto|by constructor]. Qed.

(** ** Interleaved execution *)

Section system.
Context {E : Type} `{!Engine E} {R : Type}.

(** Where a goroutine is: before its next operation, or holding a mutex with
    the rest of the critical section in front of it. *)
Inductive position :=
  | At (c : call R)
  | Inside (mu : mutex) (p : prog (call R)).

(** Each goroutine has its own context and clock readings. *)
Record goroutine := mkGoroutine { g_env : Env; g_at : position }.

Record system := mkSystem {
  sys_world : World E;
  sys_held : gset mutex;
  sys_go : list goroutine
}.

(** The next move of one goroutine; [None] when it has returned or waits for
    a mutex that is held. *)
Definition advance (g : goroutine) (w : World E) (held : gset mutex)
    : option (goroutine * World E * gset mutex) :=
  let env := g_env g in
  match g_at g with
  | At (Return _) => None
  | At (Unlocked o k) =>
      let '(r, w') := perform env o w in Some (mkGoroutine env (At (k r)), w', held)
  | At (Locked mu body) =>
      if decide (mu ∈ held) then None
      else Some (mkGoroutine env (Inside mu body), w, {[mu]} ∪ held)
  | Inside mu (Step o k) =>
      let '(r, w') := perform env o w in Some (mkGoroutine env (Inside mu (k r)), w', held)
  | Inside mu (Ret c) => Some (mkGoroutine env (At c), w, held ∖ {[mu]})
  end.

Inductive step : system → system → Prop :=
  | step_go i g g' w w' held held' gs :
      gs !! i = Some g → advance g w held = Some (g', w', held') →
      step (mkSystem w held gs) (mkSystem w' held' (<[i := g']> gs)).

(** Executions follow a schedule: the goroutine that moves at each step. *)
Fixpoint run_schedule (schedule : list nat) (s : system) : option system :=
  match schedule with
  | [] => Some s
  | i :: schedule =>
      g ← sys_go s !! i;
      '(g', w', held') ← advance g (sys_world s) (sys_held s);
      run_schedule schedule (mkSystem w' held' (<[i := g']> (sys_go s)))
  end.

Lemma run_schedule_steps schedule s s' :
  run_schedule schedule s = Some s' → rtc step s s'.
Proof.
  revert s. induction schedule as [|i schedule IH]; intros [w held gs]; simpl.
  { by intros [= <-]. }
  destruct (gs !! i) as [g|] eqn:Hi; [|done]. cbn.
  destruct (advance g w held) as [[[g' w'] held']|] eqn:Ha; [|done]. cbn.
  intros H%IH. eapply rtc_l; [by econstructor|done].
Qed.

Definition scheduled (schedule : list nat) (s : system) : system := default s (run_schedule schedule s).

Lemma scheduled_steps schedule s :
  (if run_schedule schedule s then true else false) = true → rtc step s (scheduled schedule s).
Proof.
  unfold scheduled. destruct (run_schedule schedule s) as [s'|] eqn:Hs; [|done].
  intros _. by eapply run_schedule_steps.
Qed.

(** The goroutines before they start. *)
Definition starting (calls : list (Env * call R)) : list goroutine :=
  (λ ec, mkGoroutine ec.1 (At ec.2)) <$> calls.

Definition initial (w : World E) (calls : list (Env * call R)) : system :=
  mkSystem w ∅ (starting calls).

(** ** Atomic execution: a critical section is one step *)

Definition advance_atomic (env : Env) (c : call R) (w : World E)
    : option (call R * World E) :=
  match c with
  | Return _ => None
  | Unlocked o k => let '(r, w') := perform env o w in Some (k r, w')
  | Locked mu body => Some (run env body w)
  end.

Inductive atomic_step : World E * list (Env * call R) → World E * list (Env * call R) → Prop :=
  | atomic_go i env c c' w w' cs :
      cs !! i = Some (env, c) → advance_atomic env c w = Some (c', w') →
      atomic_step (w, cs) (w', <[i := (env, c')]> cs).
End system.
Arguments position : clear implicits.
Arguments goroutine : clear implicits.
Arguments system E R : clear implicits.
Arguments mkSystem {E R}.
Arguments sys_world {E R}.
Arguments sys_held {E R}.
Arguments sys_go {E R}.

Lemma Forall_or_lookup {A} (P Q : A → Prop) l :
  (∀ x, P x ∨ Q x) → Forall P l ∨ ∃ i x, l !! i = Some x ∧ Q x.
Proof.
  intros Hor. induction l as [|x l [IH|(i & y & Hi & Hy)]]; [by left| |right; by exists (S i), y].
  destruct (Hor x); [left; by constructor|right; by exists 0, x].
Qed.

(** ** Mutual exclusion, progress and termination *)

Section locks.
Context {E : Type} `{!Engine E} {R : Type}.
Implicit Types (s : system E R) (g : goroutine R) (held : gset mutex).

Definition inside (mu : mutex) g : Prop := ∃ p, g_at g = Inside mu p.

(** A mutex is held exactly when one goroutine is inside its section. *)
Definition locks_ok s : Prop :=
  (∀ mu, mu ∈ sys_held s ↔ ∃ i g, sys_go s !! i = Some g ∧ inside mu g)
  ∧ ∀ mu i j g h, sys_go s !! i = Some g → sys_go s !! j = Some h →
      inside mu g → inside mu h → i = j.

(** What one move does to the position and to the held mutexes. *)
Lemma advance_inv g g' w w' held held' :
  advance g w held = Some (g', w', held') →
  (held' = held ∧ ∀ mu, inside mu g' ↔ inside mu g)
  ∨ (∃ mu, mu ∉ held ∧ held' = {[mu]} ∪ held
      ∧ (∀ mu', ¬ inside mu' g) ∧ (∀ mu', inside mu' g' ↔ mu' = mu))
  ∨ (∃ mu, held' = held ∖ {[mu]}
      ∧ (∀ mu', inside mu' g ↔ mu' = mu) ∧ (∀ mu', ¬ inside mu' g')).
Proof.
  unfold advance, inside. destruct g as [env [[|o k|mu body]|mu [c|o k]]]; cbn; [done|..].
  - destruct (perform env o w). intros [= <- <- <-]. left. naive_solver.
  - case_decide; [done|]. intros [= <- <- <-]. right; left. exists mu. naive_solver.
  - intros [= <- <- <-]. right; right. exists mu. naive_solver.
  - destruct (perform env o w). intros [= <- <- <-]. left. naive_solver.
Qed.

Lemma step_locks_ok s s' : step s s' → locks_ok s → locks_ok s'.
Proof.
  intros [i g g' w w' held held' gs Hi Ha] [Hheld Huniq]. cbn in *.
  pose proof (lookup_lt_Some _ _ _ Hi) as Hlt.
  assert (∀ j h, <[i:=g']> gs !! j = Some h ↔ (j = i ∧ h = g') ∨ (j ≠ i ∧ gs !! j = Some h)) as Hins.
  { intros j h. rewrite list_lookup_insert_Some. naive_solver. }
  apply advance_inv in Ha as [[-> Hg]|[(mu & Hmu & -> & Hg & Hg')|(mu & -> & Hg & Hg')]].
  - split.
    + intros mu. cbn. rewrite Hheld. setoid_rewrite Hins. split.
      * intros (j & h & Hj & Hh). destruct (decide (j = i)) as [->|]; [|naive_solver].
        exists i, g'. naive_solver.
      * intros (j & h & [[-> ->]|[? Hj]] & Hh); naive_solver.
    + cbn. setoid_rewrite Hins. naive_solver.
  - split.
    + intros mu'. cbn. rewrite elem_of_union, elem_of_singleton, Hheld. setoid_rewrite Hins. split.
      * intros [->|(j & h & Hj & Hh)]; [naive_solver|].
        exists j, h. split; [|done]. right. split; [|done]. intros ->. naive_solver.
      * naive_solver.
    + cbn. setoid_rewrite Hins. intros mu' j k h l [[-> ->]|[Hji Hj]] [[-> ->]|[Hki Hk]] Hh Hl;
        [done| | |by eapply Huniq].
      * apply Hg' in Hh as ->. destruct Hmu. apply Hheld. eauto.
      * apply Hg' in Hl as ->. destruct Hmu. apply Hheld. eauto.
  - split.
    + intros mu'. cbn. rewrite elem_of_difference, elem_of_singleton, Hheld. setoid_rewrite Hins. split.
      * intros [(j & h & Hj & Hh) Hne]. exists j, h. split; [|done]. right. split; [|done].
        intros ->. naive_solver.
      * intros (j & h & [[-> ->]|[Hji Hj]] & Hh); [naive_solver|]. split; [eauto|].
        intros ->. apply Hji. eapply Huniq; [exact Hj|exact Hi|exact Hh|by apply Hg].
    + cbn. setoid_rewrite Hins. naive_solver.
Qed.

Lemma initial_locks_ok w calls : locks_ok (initial (E := E) (R := R) w calls).
Proof.
  assert (∀ i g mu, starting calls !! i = Some g → inside mu g → False) as Hno.
  { unfold starting. intros i g mu. rewrite list_lookup_fmap.
    destruct (calls !! i); [|done]. intros [= <-] [? [=]]. }
  split; cbn; [|naive_solver]. intros mu. split; [set_solver|naive_solver].
Qed.

Lemma reachable_locks_ok w calls s : rtc step (initial w calls) s → locks_ok s.
Proof.
  intros Hr. pose proof (initial_locks_ok w calls) as Hok. revert Hok.
  induction Hr; eauto using step_locks_ok.
Qed.

Definition returned g : Prop := ∃ r, g_at g = At (Return r).

(** A goroutine that has not returned moves, unless it waits for a mutex. *)
Lemma advance_or_wait g w held :
  returned g ∨ (∃ x, advance g w held = Some x) ∨ ∃ mu, mu ∈ held ∧ ∀ mu', ¬ inside mu' g.
Proof.
  unfold returned, advance, inside. destruct g as [env [[r|o k|mu body]|mu [c|o k]]]; cbn.
  - eauto.
  - destruct (perform env o w). eauto.
  - case_decide; [|eauto]. right; right. exists mu. naive_solver.
  - eauto.
  - destruct (perform env o w). eauto.
Qed.

Lemma locks_ok_progress s : locks_ok s → Forall returned (sys_go s) ∨ ∃ s', step s s'.
Proof.
  destruct s as [w held gs]. intros [Hheld _]. cbn in *.
  assert (∀ i g x, gs !! i = Some g → advance g w held = Some x →
    ∃ s', step (mkSystem w held gs) s') as Hstep.
  { intros i g [[g' w'] held'] Hi Ha. eexists. by econstructor. }
  destruct (decide (held = ∅)) as [->|Hne].
  - destruct (Forall_or_lookup returned (λ g, ∃ x, advance g w ∅ = Some x) gs)
      as [Hall|(i & g & Hi & x & Hx)]; [|by left|by eauto].
    intros g. destruct (advance_or_wait g w ∅) as [|[|(mu & Hmu & _)]]; [auto..|set_solver].
  - right. apply set_choose_L in Hne as [mu Hmu]. apply Hheld in Hmu as (i & g & Hi & p & Hp).
    destruct (advance_or_wait g w held) as [[r Hr]|[[x Hx]|(mu' & _ & Hno)]]; [congruence|eauto|].
    destruct (Hno mu). by exists p.
Qed.

(** [g'] is [g] after some move of its own. *)
Definition moved g' g : Prop := ∃ w w' held held', advance (E := E) g w held = Some (g', w', held').

Lemma moved_wf : well_founded moved.
Proof.
  assert (∀ env c, Acc moved (mkGoroutine env (At c))) as Hat.
  { intros env. apply call_induction.
    - intros r. constructor. intros g' (w & w' & held & held' & [=]).
    - intros o k IH. constructor. intros g' (w & w' & held & held' & Ha).
      unfold advance in Ha. cbn in Ha. destruct (perform env o w). simplify_eq. apply IH.
    - intros mu body Hb. constructor. intros g' (w & w' & held & held' & Ha).
      unfold advance in Ha. cbn in Ha. case_decide; [done|]. simplify_eq. clear -Hb.
      induction Hb as [c Hc|o k _ IH]; constructor; intros g' (w & w' & held & held' & Ha);
        unfold advance in Ha; cbn in Ha; [by simplify_eq|].
      destruct (perform env o w). simplify_eq. apply IH. }
  intros [env [c|mu p]]; [apply Hat|].
  induction p as [c|o k IH]; constructor; intros g' (w & w' & held & held' & Ha);
    unfold advance in Ha; cbn in Ha; [simplify_eq; apply Hat|].
  destruct (perform env o w). simplify_eq. apply IH.
Qed.

Definition one_moved (gs' gs : list (goroutine R)) : Prop :=
  ∃ i g g', gs !! i = Some g ∧ moved g' g ∧ gs' = <[i := g']> gs.

Lemma one_moved_wf : well_founded one_moved.
Proof.
  intros gs. induction gs as [|g gs IH].
  { constructor. intros gs' (i & g & g' & Hi & _). by rewrite lookup_nil in Hi. }
  revert gs IH. induction (moved_wf g) as [g _ IHg]. intros gs Hgs.
  induction Hgs as [gs Hgs IHgs]. constructor. intros gs' (i & h & h' & Hi & Hm & ->).
  destruct i as [|i]; cbn in *; simplify_eq.
  - apply IHg; [done|]. by constructor.
  - apply IHgs. by exists i, h, h'.
Qed.

Lemma steps_wf : well_founded (flip (step (E := E) (R := R))).
Proof.
  intros [w held gs]. revert w held. induction (one_moved_wf gs) as [gs _ IH].
  intros w held. constructor. intros s' Hs. unfold flip in Hs.
  inversion Hs as [i g g' ? w' ? held' ? Hi Ha]; simplify_eq.
  apply IH. exists i, g, g'. split_and!; [done| |done]. by exists w, w', held, held'.
Qed.
End locks.

(** ** Critical sections are atomic *)

(** The operations a local engine answers without touching its state: the
    closed flag, and the owner-side operations it does not have. *)
Definition inert (o : op) : bool :=
  match o with
  | OpClosed | OpPushList _ _ _ | OpAddSet _ _ | OpRemoveSet _ _
  | OpDeleteHashFields _ _ | OpReplaceLogicalValue _ _ => true
  | OpNow | OpGet _ | OpPut _ _ | OpDelete _ | OpScan _ => false
  end.

(** Calls that take [mu] only, and do their work inside it. *)
Inductive disciplined {R} (mu : mutex) : call R → Prop :=
  | disciplined_Return r : disciplined mu (Return r)
  | disciplined_Unlocked o k :
      inert o = true → (∀ r, disciplined mu (k r)) → disciplined mu (Unlocked o k)
  | disciplined_Locked body :
      leaves (disciplined mu) body → disciplined mu (Locked mu body).

Section atomicity.
Context {E : Type} `{!Engine E} `{!LocalEngine E} {R : Type} (mu : mutex).
Implicit Types (w : World E) (c : call R) (cs : list (Env * call R)) (s : system E R).

Lemma inert_perform o : inert o = true →
  ∃ r, ∀ env w, healthy w → perform env o w = (r, w).
Proof.
  intros Ho.
  assert (∀ w, healthy w → ∃ e be rm n, w = mkWorld (mkDB (mkGuarded e false) be rm false) n) as Hw.
  { intros [[[e cl] be rm dcl] n] (Hd & Hc & _). cbn in *. subst. eauto. }
  destruct o; try done; eexists; intros env w (e & be & rm & n & ->)%Hw; cbn;
    unfold on_engine, guarded_PushList, guarded_AddSet, guarded_RemoveSet,
      guarded_DeleteHashFields, guarded_ReplaceLogicalValue; cbn;
    rewrite ?local_PushList, ?local_AddSet, ?local_RemoveSet, ?local_DeleteHashFields,
      ?local_ReplaceLogicalValue; reflexivity.
Qed.

Lemma perform_healthy env o w :
  env_ctx env = Background → healthy w → healthy (perform env o w).2.
Proof.
  intros Hctx Hw.
  apply (perform_sound (λ _, True) env o w (λ _ _, True) Hctx); [done|done|by destruct o].
Qed.

(** A goroutine of a well-behaved client. *)
Definition tame (ec : Env * call R) : Prop := env_ctx ec.1 = Background ∧ disciplined mu ec.2.

(** The atomic execution lags behind while a goroutine is inside its section:
    it still has the whole section in front of it, and running it from the
    older world ends where the goroutine will. *)
Inductive behind : system E R → World E * list (Env * call R) → Prop :=
  | behind_rest w cs :
      healthy w → Forall tame cs → behind (mkSystem w ∅ (starting cs)) (w, cs)
  | behind_inside w v cs i env body p :
      healthy w → healthy v → Forall tame cs →
      cs !! i = Some (env, Locked mu body) → leaves (disciplined mu) p →
      run env body v = run env p w →
      behind (mkSystem w {[mu]} (<[i := mkGoroutine env (Inside mu p)]> (starting cs))) (v, cs).

Lemma starting_lookup cs i g :
  starting cs !! i = Some g →
  ∃ env c, cs !! i = Some (env, c) ∧ g = mkGoroutine env (At c).
Proof.
  unfold starting. rewrite list_lookup_fmap. destruct (cs !! i) as [[env c]|]; [|done].
  intros [= <-]. eauto.
Qed.

Lemma starting_insert cs i env c :
  <[i := mkGoroutine env (At c)]> (starting cs) = starting (<[i := (env, c)]> cs).
Proof. unfold starting. by rewrite list_fmap_insert. Qed.

Lemma tame_insert cs i env c :
  Forall tame cs → env_ctx env = Background → disciplined mu c → Forall tame (<[i := (env, c)]> cs).
Proof. intros Hcs He Hc. by apply Forall_insert. Qed.

Lemma starting_inj cs cs' : starting cs = starting cs' → cs = cs'.
Proof.
  revert cs'. induction cs as [|[env c] cs IH]; intros [|[env' c'] cs'] [=]; [done|].
  subst. f_equal. by apply IH.
Qed.

(** One move of the interleaved execution is matched by at most one atomic
    step. *)
Lemma step_behind s s' a : step s s' → behind s a → ∃ a', rtc atomic_step a a' ∧ behind s' a'.
Proof.
  intros Hs Hb. destruct Hb as [w cs Hw Hcs|w v cs i env body p Hw Hv Hcs Hi Hp Hrun];
    inversion Hs as [j g g' ? w' ? held' ? Hj Ha]; simplify_eq.
  - apply starting_lookup in Hj as (env & c & Hj & ->).
    pose proof (proj1 (Forall_lookup _ _) Hcs j _ Hj) as [Hctx Hd]. cbn in Hctx, Hd.
    unfold advance in Ha. cbn in Ha. destruct Hd as [r|o k Ho Hk|body Hbody]; [done| |].
    + destruct (inert_perform o Ho) as [r Hr]. rewrite Hr in Ha by done. simplify_eq.
      exists (w', <[j := (env, k r)]> cs). rewrite starting_insert. split.
      * apply rtc_once. econstructor; [done|]. cbn. by rewrite Hr.
      * constructor; [done|]. by apply tame_insert.
    + rewrite decide_False in Ha by set_solver. simplify_eq. exists (w', cs). split; [done|].
      rewrite union_empty_r_L. by econstructor.
  - pose proof (proj1 (Forall_lookup _ _) Hcs i _ Hi) as [Hctx _]. cbn in Hctx.
    destruct (decide (j = i)) as [->|Hne].
    + apply list_lookup_insert_Some in Hj as [(_ & <- & _)|[? _]]; [|done].
      rewrite list_insert_insert_eq.
      unfold advance in Ha. cbn in Ha. destruct Hp as [c Hc|o k Hk].
      * simplify_eq/=. exists (w', <[i := (env, c)]> cs). rewrite starting_insert. split.
        -- apply rtc_once. econstructor; [done|]. cbn. by rewrite Hrun.
        -- replace ({[mu]} ∖ {[mu]} : gset mutex) with (∅ : gset mutex) by set_solver.
           constructor; [done|]. by apply tame_insert.
      * pose proof (perform_healthy env o w Hctx Hw) as Hh.
        destruct (perform env o w) as [r w1] eqn:Hperf. simplify_eq. exists (v, cs). split; [done|].
        econstructor; [done..|by apply Hk|]. rewrite Hrun. cbn. by rewrite Hperf.
    + rewrite list_lookup_insert_ne in Hj by done.
      apply starting_lookup in Hj as (env' & c & Hj & ->).
      pose proof (proj1 (Forall_lookup _ _) Hcs j _ Hj) as [Hctx' Hd]. cbn in Hctx', Hd.
      unfold advance in Ha. cbn in Ha. destruct Hd as [r|o k Ho Hk|body' Hbody]; [done| |].
      * destruct (inert_perform o Ho) as [r Hr]. rewrite Hr in Ha by done. simplify_eq.
        exists (v, <[j := (env', k r)]> cs). split.
        -- apply rtc_once. econstructor; [done|]. cbn. by rewrite Hr.
        -- rewrite list_insert_insert_ne, starting_insert by done.
           econstructor; [done|done|by apply tame_insert| |done|done].
           by rewrite list_lookup_insert_ne.
      * by rewrite decide_True in Ha by set_solver.
Qed.

Lemma steps_behind s s' a : rtc step s s' → behind s a → ∃ a', rtc atomic_step a a' ∧ behind s' a'.
Proof.
  intros Hs. revert a. induction Hs as [|s1 s2 s3 H12 _ IH]; intros a Ha; [by exists a|].
  destruct (step_behind _ _ _ H12 Ha) as (b & Hab & Hb).
  destruct (IH b Hb) as (c & Hbc & Hc). exists c. split; [by etrans|done].
Qed.

Lemma steps_atomic w calls w' calls' :
  healthy w → Forall tame calls →
  rtc step (initial w calls) (initial w' calls') →
  rtc atomic_step (w, calls) (w', calls').
Proof.
  intros Hw Hcs Hs.
  destruct (steps_behind _ _ (w, calls) Hs) as (a & Ha & Hb); [by constructor|].
  remember (initial w' calls') as s' eqn:Hs'. destruct Hb as [v cs|]; [|by inversion Hs'].
  injection Hs' as -> Heq. by apply starting_inj in Heq as ->.
Qed.
End atomicity.

(** ** Programs up to their behaviour

    Two programs are equivalent when they run alike over every engine. *)

Definition prog_equiv {A} (p q : prog A) : Prop :=
  ∀ (E : Type) (HE : Engine E) (env : Env) (w : World E), run env p w = run env q w.

Infix "≡p" := prog_equiv (at level 70, no associativity) : kv_scope.

#[global] Instance prog_equiv_equivalence {A} : Equivalence (prog_equiv (A := A)).
Proof.
  split.
  - by intros p E HE env w.
  - intros p q H E HE env w. symmetry. apply H.
  - intros p q r H1 H2 E HE env w. by rewrite H1, H2.
Qed.

#[global] Instance prog_bind_proper {A B} :
  Proper (pointwise_relation A prog_equiv ==> prog_equiv ==> prog_equiv) (prog_bind (B := B)).
Proof.
  intros f g Hfg p q Hpq E HE env w. rewrite !run_prog_bind, Hpq.
  destruct (run env q w) as [a w']. apply Hfg.
Qed.

#[global] Instance Step_proper {A} o :
  Proper (pointwise_relation _ prog_equiv ==> prog_equiv) (Step (A := A) o).
Proof.
  intros k l Hkl E HE env w. simpl. destruct (perform env o w) as [r w']. apply Hkl.
Qed.

Lemma prog_bind_assoc {A B C} (f : A → prog B) (g : B → prog C) p :
  prog_bind g (prog_bind f p) ≡p prog_bind (λ a, prog_bind g (f a)) p.
Proof.
  intros E HE env w. rewrite !run_prog_bind. destruct (run env p w). by rewrite run_prog_bind.
Qed.

Lemma prog_bind_Ret {A} (p : prog A) : prog_bind Ret p ≡p p.
Proof. intros E HE env w. rewrite run_prog_bind. by destruct (run env p w). Qed.

(** ** Calls with their locks forgotten *)

Lemma erase_before_lock {A R} (p : prog A) (k : A → call R) :
  erase (before_lock p k) ≡p prog_bind (λ a, erase (k a)) p.
Proof.
  induction p as [a|o f IH]; simpl; [reflexivity|]. f_equiv. intros r. apply IH.
Qed.

Lemma erase_unlocked {A} (p : prog A) : erase (unlocked p) ≡p p.
Proof. unfold unlocked. rewrite erase_before_lock. simpl. apply prog_bind_Ret. Qed.

Lemma erase_holding {A} mu (p : prog A) : erase (holding mu p) ≡p p.
Proof. unfold holding. simpl. rewrite prog_bind_assoc. simpl. apply prog_bind_Ret. Qed.

Lemma erase_checking {A R} (p : M A) (k : A → call (result R)) (f : A → M R) :
  (∀ a, erase (k a) ≡p f a) → erase (checking p k) ≡p (p ≫= f).
Proof.
  intros Hk. unfold checking, mbind, M_bind. rewrite erase_before_lock. f_equiv.
  intros [a| |]; simpl; [apply Hk|reflexivity..].
Qed.

Lemma erase_bind {A B} (f : A → call B) c :
  erase (call_bind f c) ≡p prog_bind (λ a, erase (f a)) (erase c).
Proof.
  induction c as [r|o k IH|mu body IH] using call_induction; simpl; [reflexivity| |].
  - f_equiv. intros r. apply IH.
  - rewrite prog_bind_assoc. simpl. induction IH as [c Hc|o k _ IH]; simpl; [done|].
    f_equiv. intros r. apply IH.
Qed.

(** ** One section per call *)

(** A call that does nothing outside its one section but inert operations. *)
Inductive sectioned {R} (mu : mutex) : call R → Prop :=
  | sectioned_Return r : sectioned mu (Return r)
  | sectioned_Unlocked o k :
      inert o = true → (∀ r, sectioned mu (k r)) → sectioned mu (Unlocked o k)
  | sectioned_Locked body :
      leaves (λ c, ∃ r, c = Return r) body → sectioned mu (Locked mu body).

(** Programs of inert operations. *)
Fixpoint quiet {A} (p : prog A) : Prop :=
  match p with
  | Ret _ => True
  | Step o k => inert o = true ∧ ∀ r, quiet (k r)
  end.

Lemma sectioned_before_lock {A R} mu (p : prog A) (k : A → call R) :
  quiet p → (∀ a, sectioned mu (k a)) → sectioned mu (before_lock p k).
Proof.
  intros Hp Hk. induction p as [a|o f IH]; simpl in *; [done|]. constructor; naive_solver.
Qed.

Lemma sectioned_checking {A R} mu (p : M A) (k : A → call (result R)) :
  quiet p → (∀ a, sectioned mu (k a)) → sectioned mu (checking p k).
Proof. intros Hp Hk. apply sectioned_before_lock; [done|]. intros []; [done|constructor..]. Qed.

Lemma sectioned_holding {A} mu (p : prog A) : sectioned mu (holding mu p).
Proof.
  constructor. eapply leaves_bind; [by apply (leaves_all (λ _, True))|].
  intros a _. constructor. eauto.
Qed.

Lemma sectioned_map {A B} mu (f : A → B) c :
  sectioned mu c → sectioned mu (call_bind (λ a, Return (f a)) c).
Proof.
  induction 1 as [r|o k Ho _ IH|body Hb]; simpl; constructor; [done|done|].
  eapply leaves_bind; [exact Hb|]. intros _ [r ->]. constructor. simpl. eauto.
Qed.

Lemma sectioned_disciplined {A B} mu (f : A → call B) c :
  sectioned mu c → (∀ a, disciplined mu (f a)) → disciplined mu (call_bind f c).
Proof.
  intros Hc Hf. induction Hc as [r|o k Ho _ IH|body Hb]; simpl; [done|by constructor|].
  constructor. eapply leaves_bind; [exact Hb|]. intros _ [r ->]. constructor. apply Hf.
Qed.

(** ** Final states *)

Section final.
Context {E : Type} `{!Engine E} {R : Type}.
Implicit Types (s : system E R).

Lemma advance_env (g g' : goroutine R) (w w' : World E) held held' :
  advance g w held = Some (g', w', held') → g_env g' = g_env g.
Proof.
  unfold advance. destruct g as [env [[|o k|mu body]|mu [c|o k]]]; cbn; [done|..];
    try destruct (perform env o w); try case_decide; naive_solver.
Qed.

Lemma steps_envs s s' : rtc step s s' → g_env <$> sys_go s' = g_env <$> sys_go s.
Proof.
  induction 1 as [|s1 s2 s3 [i g g' w w' held held' gs Hi Ha] _ IH]; [done|]. rewrite IH. cbn.
  rewrite list_fmap_insert, (advance_env _ _ _ _ _ _ Ha). apply list_insert_id.
  by rewrite list_lookup_fmap, Hi.
Qed.

(** A state in which every goroutine has returned. *)
Lemma returned_initial s :
  locks_ok s → Forall returned (sys_go s) →
  ∃ outs : list (Env * R), s = initial (sys_world s) ((λ eo, (eo.1, Return eo.2)) <$> outs)
    ∧ outs.*1 = g_env <$> sys_go s.
Proof.
  destruct s as [w held gs]. intros [Hheld _] Hret. cbn in *.
  assert (held = ∅) as ->.
  { apply leibniz_equiv. intros mu. rewrite Hheld. split; [|set_solver].
    intros (i & g & Hi & p & Hp). rewrite Forall_lookup in Hret. destruct (Hret i g Hi) as [r Hr].
    congruence. }
  clear Hheld. induction Hret as [|[env pos] gs [r Hr] Hret IH].
  { by exists []. }
  destruct IH as (outs & Heq & Henv). cbn in Hr. subst pos. injection Heq as Hgs.
  exists ((env, r) :: outs). cbn. split; [|by rewrite Henv]. unfold initial. by rewrite Hgs.
Qed.

Lemma scheduled_final schedule s (calls : list (Env * call R)) :
  (if run_schedule schedule s then true else false) = true →
  bool_decide (sys_held (scheduled schedule s) = ∅) = true →
  sys_go (scheduled schedule s) = starting calls →
  rtc step s (initial (sys_world (scheduled schedule s)) calls).
Proof.
  intros Hrun Hheld%bool_decide_eq_true Hgo. pose proof (scheduled_steps schedule s Hrun) as Hsteps.
  destruct (scheduled schedule s) as [w held gs]. cbn in *. by subst.
Qed.
End final.
