(* ===== verification/Serial.v ===== *)
(** * Serial executions of concurrent requests

    A client issues requests one after the other, each chosen from the replies
    so far; a request is a call with one critical section. Every interleaved
    execution that completes ends as some execution in which the requests run
    one at a time, each client's in its own order. *)

From S2P Require Import Prelude Errors Engine Effects Locks.

(** A client: what it does next, given the replies it has had. *)
Inductive script (request reply O : Type) : Type :=
  | Finish (o : O)
  | Issue (rq : request) (k : reply → script request reply O).
Arguments Finish {request reply O}.
Arguments Issue {request reply O}.

(** A fixed list of requests; the client ends with the replies. *)
Fixpoint issue_all {request reply} (rs : list request) (reps : list reply)
    : script request reply (list reply) :=
  match rs with
  | [] => Finish reps
  | rq :: rs => Issue rq (λ rep, issue_all rs (reps ++ [rep]))
  end.

Section serial.
Context {E : Type} `{!Engine E} `{!LocalEngine E}.
Context {request reply O : Type} (mu : mutex).
(** A request as a goroutine executes it, and as the only goroutine would. *)
Context (answer : request → call reply) (sequential : request → prog reply).
(** The requests that keep to the mutex. *)
Context (under : request → bool).
Context (answer_sectioned : ∀ rq, under rq = true → sectioned mu (answer rq))
        (answer_erase : ∀ rq, erase (answer rq) ≡p sequential rq).
Implicit Types (w : World E) (rq : request) (c : call O).

Abbreviation script := (script request reply O).
Implicit Types (sc : script).

Fixpoint client sc : call O :=
  match sc with
  | Finish o => Return o
  | Issue rq k => call_bind (λ rep, client (k rep)) (answer rq)
  end.

Fixpoint all_under sc : Prop :=
  match sc with
  | Finish _ => True
  | Issue rq k => under rq = true ∧ ∀ rep, all_under (k rep)
  end.

(** One whole request of one client. *)
Inductive serial_step : World E * list (Env * script) → World E * list (Env * script) → Prop :=
  | serial_go i env rq k rep w w' ss :
      ss !! i = Some (env, Issue rq k) → run env (sequential rq) w = (rep, w') →
      serial_step (w, ss) (w', <[i := (env, k rep)]> ss).

Definition is_return {R} (c : call R) : bool :=
  match c with Return _ => true | _ => false end.

(** [c] is what is left of a client whose next request has not had an effect
    yet: its remaining call [c0] still does all the request does. *)
Inductive waiting (env : Env) : call O → script → Prop :=
  | waiting_done o : waiting env (Return o) (Finish o)
  | waiting_for rq k (c0 : call reply) :
      is_return c0 = false → sectioned mu c0 →
      (∀ w, healthy w → run env (erase c0) w = run env (sequential rq) w) →
      waiting env (call_bind (λ rep, client (k rep)) c0) (Issue rq k).

(** Requests that return at once, before any effect, are settled. *)
Lemma settle env sc w ss i :
  healthy w → all_under sc → ss !! i = Some (env, sc) →
  ∃ sc', rtc serial_step (w, ss) (w, <[i := (env, sc')]> ss)
    ∧ all_under sc' ∧ waiting env (client sc) sc'.
Proof.
  intros Hw. revert ss. induction sc as [o|rq k IH]; intros ss Hsc Hi.
  { exists (Finish o). rewrite list_insert_id by done. split_and!; [done|done|constructor]. }
  pose proof Hsc as [Hrq Hk]. pose proof (answer_erase rq) as He.
  destruct (is_return (answer rq)) eqn:Hret.
  - cbn [client]. destruct (answer rq) as [rep| |]; [|done..]. cbn [call_bind].
    destruct (IH rep (<[i := (env, k rep)]> ss)) as (sc' & Hsteps & Hsc' & Hwait); [done| |].
    { apply list_lookup_insert_eq. by eapply lookup_lt_Some. }
    rewrite list_insert_insert_eq in Hsteps. exists sc'. split_and!; [|done..].
    eapply rtc_l; [|exact Hsteps]. econstructor; [done|]. by rewrite <-(He _ _ env w).
  - exists (Issue rq k). rewrite list_insert_id by done.
    split_and!; [done|done|]. constructor; [done|by apply answer_sectioned|].
    intros v _. apply He.
Qed.

(** The effect of a request, as one serial step. *)
Lemma settle_after env rq k rep w w' ss i :
  healthy w' → all_under (k rep) → ss !! i = Some (env, Issue rq k) →
  run env (sequential rq) w = (rep, w') →
  ∃ sc', rtc serial_step (w, ss) (w', <[i := (env, sc')]> ss)
    ∧ all_under sc' ∧ waiting env (client (k rep)) sc'.
Proof.
  intros Hw Hsc Hi Hrun.
  destruct (settle env (k rep) w' (<[i := (env, k rep)]> ss) i)
    as (sc' & Hsteps & Hsc' & Hwait); [done|done| |].
  { apply list_lookup_insert_eq. by eapply lookup_lt_Some. }
  rewrite list_insert_insert_eq in Hsteps. exists sc'. split_and!; [|done..].
  eapply rtc_l; [|exact Hsteps]. by econstructor.
Qed.

Definition matching (ec : Env * call O) (es : Env * script) : Prop :=
  ec.1 = es.1 ∧ env_ctx ec.1 = Background ∧ all_under es.2 ∧ waiting ec.1 ec.2 es.2.

Lemma run_healthy {A} env (p : prog A) w :
  env_ctx env = Background → healthy w → healthy (run env p w).2.
Proof.
  intros Hctx. revert w. induction p as [a|o k IH]; intros w Hw; [done|]. cbn.
  pose proof (perform_healthy env o w Hctx Hw) as Hh. destruct (perform env o w). by apply IH.
Qed.

(** What one move of a waiting client does: an inert operation, or its whole
    section. *)
Lemma atomic_waiting env c c' sc w w' ss i :
  healthy w → env_ctx env = Background → all_under sc →
  waiting env c sc → ss !! i = Some (env, sc) →
  advance_atomic env c w = Some (c', w') →
  healthy w' ∧ ∃ sc', rtc serial_step (w, ss) (w', <[i := (env, sc')]> ss)
    ∧ all_under sc' ∧ waiting env c' sc'.
Proof.
  intros Hw Hctx Hsc Hwait Hi Ha. destruct Hwait as [|rq k c0 Hret Hsec Hrun]; [done|].
  pose proof Hsc as [Hrq Hk].
  destruct Hsec as [|o f Ho Hf|body Hbody]; [done| |]; cbn in Ha.
  - destruct (inert_perform o Ho) as [r Hr]. rewrite Hr in Ha by done. simplify_eq.
    split; [done|].
    assert (∀ v, healthy v → run env (erase (f r)) v = run env (sequential rq) v) as Hf'.
    { intros v Hv. rewrite <-Hrun by done. cbn. by rewrite Hr. }
    destruct (is_return (f r)) eqn:Hfr.
    + destruct (f r) as [rep| |]; [|done..]. cbn. eapply settle_after; [done..|]. by rewrite <-Hf'.
    + exists (Issue rq k). rewrite list_insert_id by done.
      split_and!; [done|done|]. by constructor.
  - rewrite run_prog_bind in Ha. pose proof (run_healthy env body w Hctx Hw) as Hh.
    specialize (Hrun w Hw). cbn in Hrun. rewrite run_prog_bind in Hrun.
    assert (∃ rep, (run env body w).1 = Return rep) as [rep Hrep].
    { clear -Hbody. revert w. induction Hbody as [c Hc|o k _ IH]; intros w; cbn; [done|].
      destruct (perform env o w). apply IH. }
    destruct (run env body w) as [c1 w1]. cbn in *. subst c1. cbn in *. simplify_eq.
    split; [done|]. by eapply settle_after.
Qed.

Lemma atomic_serial w cs w' cs' ss :
  rtc atomic_step (w, cs) (w', cs') → healthy w → Forall2 matching cs ss →
  healthy w' ∧ ∃ ss', rtc serial_step (w, ss) (w', ss') ∧ Forall2 matching cs' ss'.
Proof.
  intros Hsteps. remember (w, cs) as a eqn:Ea. remember (w', cs') as b eqn:Eb.
  revert w cs ss Ea. induction Hsteps as [a|a b c Hab _ IH]; intros w cs ss -> Hw Hm.
  { simplify_eq. split; [done|]. by exists ss. }
  inversion Hab as [i env c1 c2 ? w1 ? Hi Ha]; simplify_eq.
  destruct (Forall2_lookup_l _ _ _ _ _ Hm Hi) as ([env' sc] & Hs & Henv & Hctx & Hsc & Hwait).
  cbn in *. subst env'.
  edestruct atomic_waiting as (Hw1 & sc' & Hsteps & Hsc' & Hwait'); [done..|].
  destruct (IH eq_refl w1 (<[i:=(env, c2)]> cs) (<[i:=(env, sc')]> ss))
    as (Hw' & ss' & Hss & Hm'); [done|done| |].
  { by apply Forall2_insert. }
  split; [done|]. exists ss'. split; [by etrans|done].
Qed.

Definition issuing (clients : list (Env * script)) : list (Env * call O) :=
  (λ es, (es.1, client es.2)) <$> clients.

(** The clients once they have ended. *)
Definition answered (outs : list (Env * O)) : list (Env * call O) :=
  (λ eo, (eo.1, Return eo.2)) <$> outs.

Definition finished (outs : list (Env * O)) : list (Env * script) :=
  (λ eo, (eo.1, Finish eo.2)) <$> outs.

Lemma client_disciplined sc : all_under sc → disciplined mu (client sc).
Proof.
  induction sc as [o|rq k IH]; cbn; [constructor|].
  intros [Hrq Hk]. apply sectioned_disciplined; auto.
Qed.

Definition well_behaved (es : Env * script) : Prop :=
  env_ctx es.1 = Background ∧ all_under es.2.

(** The clients settle into scripts that wait. *)
Lemma opening_matching w clients :
  healthy w → Forall well_behaved clients →
  ∃ ss, rtc serial_step (w, clients) (w, ss) ∧ Forall2 matching (issuing clients) ss.
Proof.
  intros Hw Hcl.
  assert (∀ don rest, Forall well_behaved rest →
    ∃ ss, rtc serial_step (w, don ++ rest) (w, don ++ ss) ∧ Forall2 matching (issuing rest) ss)
    as H; [|by apply (H [])].
  clear clients Hcl. intros don rest Hrest. revert don.
  induction Hrest as [|[env sc] rest [Hctx Hsc] Hrest IH]; intros don; cbn.
  { exists []. split; [done|constructor]. }
  destruct (settle env sc w (don ++ (env, sc) :: rest) (length don))
    as (sc' & Hsteps & Hsc' & Hwait); [done|done|by apply list_lookup_middle|].
  rewrite insert_app_r_alt, Nat.sub_diag in Hsteps by done. cbn in Hsteps.
  destruct (IH (don ++ [(env, sc')])) as (ss & Hss & Hm).
  exists ((env, sc') :: ss). rewrite <-!app_assoc in Hss. cbn in Hss.
  split; [by etrans|]. by constructor.
Qed.

Lemma answered_matching outs ss : Forall2 matching (answered outs) ss → ss = finished outs.
Proof.
  revert ss. induction outs as [|[env o] outs IH]; intros ss Hm; cbn in Hm;
    inversion Hm as [|? [env' sc'] ? ss' (Henv & _ & _ & Hwait) Hm']; simplify_eq; [done|].
  cbn in *. subst env'. rewrite (IH ss') by done. remember (Return o) as c eqn:Hc.
  destruct Hwait as [|rq k c0 Hret Hsec Hrun]; [by simplify_eq|]. by destruct c0.
Qed.

Lemma requests_serial w clients w' outs :
  healthy w → Forall well_behaved clients →
  rtc step (initial w (issuing clients)) (initial w' (answered outs)) →
  rtc serial_step (w, clients) (w', finished outs).
Proof.
  intros Hw Hcl Hsteps.
  apply (steps_atomic mu) in Hsteps; [|done|].
  2:{ unfold issuing. apply Forall_fmap. eapply Forall_impl; [exact Hcl|].
      intros [env sc] [Hctx Hsc]. split; [done|]. by apply client_disciplined. }
  destruct (opening_matching w clients Hw Hcl) as (ss & Hss & Hm).
  destruct (atomic_serial _ _ _ _ _ Hsteps Hw Hm) as (_ & ss' & Hss' & Hm').
  apply answered_matching in Hm' as ->. by etrans.
Qed.

(** Whenever no mutex is held the store is the one of a serial execution. *)
Lemma requests_serial_at_rest w clients s :
  healthy w → Forall well_behaved clients →
  rtc step (initial w (issuing clients)) s → sys_held s = ∅ →
  healthy (sys_world s) ∧ ∃ ss, rtc serial_step (w, clients) (sys_world s, ss).
Proof.
  intros Hw Hcl Hsteps Hheld.
  destruct (steps_behind mu _ _ (w, issuing clients) Hsteps) as ([v cs] & Hatomic & Hb).
  { constructor; [done|]. apply Forall_fmap. eapply Forall_impl; [exact Hcl|].
    intros [env sc] [Hctx Hsc]. split; [done|]. by apply client_disciplined. }
  destruct (opening_matching w clients Hw Hcl) as (ss & Hss & Hm).
  destruct (atomic_serial _ _ _ _ _ Hatomic Hw Hm) as (Hv & ss' & Hss' & _).
  inversion Hb; subst; cbn in *; [|exfalso; set_solver].
  split; [done|]. exists ss'. by etrans.
Qed.
End serial.

(** Two clients of one request each have two serial executions. *)
Section two.
Context {E : Type} `{!Engine E} {request reply : Type}.
Context (sequential : request → prog reply).

Definition one_then_other (env1 env2 : Env) (rq1 rq2 : request) (w : World E)
    : reply * reply * World E :=
  let '(rep1, w1) := run env1 (sequential rq1) w in
  let '(rep2, w2) := run env2 (sequential rq2) w1 in
  (rep1, rep2, w2).

Lemma serial_two env1 env2 rq1 rq2 (w w' : World E) rep1 rep2 :
  rtc (serial_step sequential) (w, [(env1, issue_all [rq1] []); (env2, issue_all [rq2] [])])
    (w', finished [(env1, [rep1]); (env2, [rep2])]) →
  one_then_other env1 env2 rq1 rq2 w = (rep1, rep2, w')
  ∨ one_then_other env2 env1 rq2 rq1 w = (rep2, rep1, w').
Proof.
  intros H. unfold one_then_other.
  inversion H as [|? ? ? Hs1 H1]; subst; clear H.
  inversion Hs1 as [i env rq k rep ? w1 ? Hi Hrun]; subst; clear Hs1.
  destruct i as [|[|i]]; cbn in Hi; simplify_eq; cbn in H1;
    inversion H1 as [|? ? ? Hs2 H2]; subst; clear H1;
    inversion Hs2 as [i' env' rq' k' rep' ? w2 ? Hi' Hrun']; subst; clear Hs2;
    destruct i' as [|[|i']]; cbn in Hi'; simplify_eq; cbn in H2;
    (inversion H2 as [|? ? ? Hs3 _]; subst; clear H2;
      [|by inversion Hs3 as [i'' ? ? ? ? ? ? ? Hi'']; destruct i'' as [|[|]]]).
  - left. by rewrite Hrun, Hrun'.
  - right. by rewrite Hrun, Hrun'.
Qed.
End two.
