(* ===== verification/MemDriver.v ===== *)
(** * The built-in memory driver ([memdriver.go])

    A map from record keys to records, with a closed flag. It discharges the
    [LocalEngine] contract, so every theorem proved against that contract
    holds for a database opened with [WithDriver("memory")]. *)

From S2P Require Import Prelude Errors Engine Effects.

Record memoryDriverEngine := mkMem {
  mem_data : gmap bytes bytes;
  mem_closed : bool
}.

Implicit Types (ctx : GoContext) (e : memoryDriverEngine).

(** [memoryDriver.Open]: every open gets a fresh, empty store. *)
Definition memoryDriver_Open : memoryDriverEngine := mkMem ∅ false.

Definition memory_Get ctx (key : bytes) e : (GoError + option bytes) * memoryDriverEngine :=
  match ctx with
  | Some err => (inl err, e)
  | None =>
      if mem_closed e then (inl (ESentinel ErrClosed), e)
      else (inr (mem_data e !! key), e)
  end.

Definition memory_Put ctx (key value : bytes) e : option GoError * memoryDriverEngine :=
  match ctx with
  | Some err => (Some err, e)
  | None =>
      if mem_closed e then (Some (ESentinel ErrClosed), e)
      else (None, mkMem (<[key := value]> (mem_data e)) false)
  end.

Definition memory_Delete ctx (key : bytes) e : option GoError * memoryDriverEngine :=
  match ctx with
  | Some err => (Some err, e)
  | None =>
      if mem_closed e then (Some (ESentinel ErrClosed), e)
      else (None, mkMem (delete key (mem_data e)) false)
  end.

(** The delivery loop polls the context before each record. *)
Fixpoint memory_deliver ctx (items : list (bytes * bytes))
    : list (bytes * bytes) * option GoError :=
  match items with
  | [] => ([], None)
  | item :: rest =>
      match ctx with
      | Some err => ([], Some err)
      | None => let '(delivered, err) := memory_deliver ctx rest in
                (item :: delivered, err)
      end
  end.

Definition memory_ScanPrefix ctx (pfx : bytes) e
    : (list (bytes * bytes) * option GoError) * memoryDriverEngine :=
  if mem_closed e then (([], Some (ESentinel ErrClosed)), e)
  else
    let keys := filter (λ key, has_prefix pfx key = true) (map_to_list (mem_data e)).*1 in
    let items := (λ key, (key, default [] (mem_data e !! key))) <$> sort_strings keys in
    (memory_deliver ctx items, e).

Definition memory_Close e : option GoError * memoryDriverEngine :=
  if mem_closed e then (None, e) else (None, mkMem ∅ true).

#[global] Instance memory_Engine : Engine memoryDriverEngine := {
  engine_Get := memory_Get;
  engine_Put := memory_Put;
  engine_Delete := memory_Delete;
  engine_ScanPrefix := memory_ScanPrefix;
  engine_Close := memory_Close;
  engine_PushList := None;
  engine_AddSet := None;
  engine_RemoveSet := None;
  engine_DeleteHashFields := None;
  engine_ReplaceLogicalValue := None
}.

(** ** Lemmas *)

Lemma memory_deliver_background items : memory_deliver None items = (items, None).
Proof. induction items as [|i items IH]; simpl; [done|]. by rewrite IH. Qed.

(** Looking the sorted keys up again yields the matching records. *)
Lemma memory_items_perm (m : gmap bytes bytes) pfx :
  (λ key, (key, default [] (m !! key)))
    <$> sort_strings (filter (λ key, has_prefix pfx key = true) (map_to_list m).*1)
  ≡ₚ matches m pfx.
Proof.
  rewrite sort_strings_perm. unfold matches.
  enough (∀ l : list (bytes * bytes), (∀ k v, (k, v) ∈ l → m !! k = Some v) →
    (λ key, (key, default [] (m !! key)))
      <$> filter (λ key, has_prefix pfx key = true) l.*1
    = filter (λ kv, has_prefix pfx kv.1 = true) l) as H.
  { rewrite H; [done|]. intros k v. apply elem_of_map_to_list. }
  induction l as [|[k v] l IH]; intros Hl; [done|].
  rewrite fmap_cons, !filter_cons. cbn [fst].
  assert (m !! k = Some v) as Hk by (apply Hl; left).
  assert (∀ k v, (k, v) ∈ l → m !! k = Some v) as Hl' by (intros; apply Hl; by right).
  case_decide; rewrite ?fmap_cons, IH by done; [by rewrite Hk|done].
Qed.

#[global] Program Instance memory_LocalEngine : LocalEngine memoryDriverEngine := {
  contents := mem_data;
  live := λ e, mem_closed e = false
}.
Next Obligation. intros e key He. exists e. simpl. unfold memory_Get. by rewrite He. Qed.
Next Obligation.
  intros e key value He. eexists. simpl. unfold memory_Put. by rewrite He.
Qed.
Next Obligation. intros e key He. eexists. simpl. unfold memory_Delete. by rewrite He. Qed.
Next Obligation.
  intros e pfx He. simpl. unfold memory_ScanPrefix. rewrite He.
  rewrite memory_deliver_background. eexists _, _. split; [done|].
  split; [apply memory_items_perm|done].
Qed.
Next Obligation. done. Qed.
Next Obligation. done. Qed.
Next Obligation. done. Qed.
Next Obligation. done. Qed.
Next Obligation. done. Qed.

(** ** Properties *)

(** A live scan delivers exactly the records under the prefix, each once, in
    increasing byte order of their keys. *)
Theorem memory_scan_sorted_exact (e : memoryDriverEngine) (pfx : bytes) :
  mem_closed e = false →
  ∃ items, memory_ScanPrefix Background pfx e = ((items, None), e)
    ∧ Sorted bytes_le items.*1
    ∧ NoDup items.*1
    ∧ ∀ k v, (k, v) ∈ items ↔ mem_data e !! k = Some v ∧ ∃ rest, k = pfx ++ rest.
Proof.
  intros He. unfold memory_ScanPrefix. rewrite He, memory_deliver_background.
  eexists. split; [done|]. pose proof (memory_items_perm (mem_data e) pfx) as Hp.
  split_and!.
  - rewrite <-list_fmap_compose.
    change (fst ∘ _) with (@id bytes). rewrite list_fmap_id.
    apply sort_strings_sorted.
  - rewrite Hp. apply matches_NoDup.
  - intros k v. rewrite Hp, elem_of_matches, has_prefix_spec. done.
Qed.

Lemma memory_scan_sorted_exact_witness :
  mem_closed (mkMem {[ [Byte.x01; "a"%byte] := [Byte.x02] ]} false) = false
  ∧ ∃ items, memory_ScanPrefix Background [Byte.x01]
      (mkMem {[ [Byte.x01; "a"%byte] := [Byte.x02] ]} false)
      = ((items, None), mkMem {[ [Byte.x01; "a"%byte] := [Byte.x02] ]} false)
    ∧ Sorted bytes_le items.*1.
Proof.
  split; [reflexivity|].
  destruct (memory_scan_sorted_exact
    (mkMem {[ [Byte.x01; "a"%byte] := [Byte.x02] ]} false) [Byte.x01] eq_refl)
    as (items & H & Hs & _).
  by exists items.
Defined.

(** After [Close] every operation fails with [ErrClosed] under a live context,
    no record is left, and closing again is a no-op that succeeds. *)
Theorem memory_closed_is_final (e : memoryDriverEngine) key value pfx :
  let e' := (memory_Close e).2 in
  (memory_Close e).1 = None
  ∧ (mem_closed e = false → mem_data e' = ∅)
  ∧ memory_Close e' = (None, e')
  ∧ memory_Get Background key e' = (inl (ESentinel ErrClosed), e')
  ∧ memory_Put Background key value e' = (Some (ESentinel ErrClosed), e')
  ∧ memory_Delete Background key e' = (Some (ESentinel ErrClosed), e')
  ∧ memory_ScanPrefix Background pfx e' = (([], Some (ESentinel ErrClosed)), e').
Proof.
  destruct e as [m cl]. unfold memory_Close, memory_Get, memory_Put, memory_Delete,
    memory_ScanPrefix. simpl. by destruct cl.
Qed.
