(* ===== verification/Envelope.v ===== *)
(** * The value envelope ([envelope.go])

    Every scalar, hash field and list item is stored in an envelope: a magic
    number, the expiry (Unix nanoseconds, 0 for none), the codec name and the
    payload. *)

From S2P Require Import Prelude Errors Engine Effects.

Record envelope := mkEnvelope {
  env_expiresAt : Z;
  env_codec : bytes;
  env_payload : bytes
}.

Definition envelopeMagic : bytes := ⟦"KVL1"⟧.

Definition envelopeHeaderSize : nat := 14.

(** [time.Time.UnixNano]: the int64 nanosecond count of an instant, which
    wraps for instants outside the years 1678 to 2262. *)
Definition unixNano (t : Z) : Z := wrap64 t.

Definition marshalEnvelope (codec payload : bytes) (expiresAt : Z) : result bytes :=
  if bool_decide (65535 < Z.of_nat (length codec))%Z
  then Err (errorf ErrInvalidArgument ⟦"codec name is too long"⟧)
  else Ok (envelopeMagic ++ be_put 8 expiresAt ++ be_put 2 (Z.of_nat (length codec))
             ++ codec ++ payload).

Definition unmarshalEnvelope (data : bytes) : result envelope :=
  if bool_decide (length data < envelopeHeaderSize ∨ take 4 data ≠ envelopeMagic)
  then Err (ENew ⟦"kvlite: invalid value envelope"⟧)
  else
    let codecLength := Z.to_nat (be_get (slice 12 14 data)) in
    if bool_decide (length data < envelopeHeaderSize + codecLength)
    then Err (ENew ⟦"kvlite: truncated value envelope"⟧)
    else Ok {| env_expiresAt := wrap64 (be_get (slice 4 12 data));
               env_codec := slice 14 (14 + codecLength) data;
               env_payload := drop (14 + codecLength) data |}.

(** The expiry test every reader applies, at clock reading [now]. *)
Definition expired_at (expiresAt now : Z) : bool :=
  bool_decide (0 < expiresAt ∧ expiresAt ≤ unixNano now)%Z.

Definition envelopeExpired (data : bytes) (now : Z) : bool :=
  match unmarshalEnvelope data with
  | Ok value => expired_at (env_expiresAt value) now
  | _ => false
  end.

(** ** Lemmas *)

Lemma marshalEnvelope_ok codec payload expiresAt :
  (Z.of_nat (length codec) ≤ 65535)%Z →
  marshalEnvelope codec payload expiresAt =
  Ok (envelopeMagic ++ be_put 8 expiresAt ++ be_put 2 (Z.of_nat (length codec))
        ++ codec ++ payload).
Proof. intros. unfold marshalEnvelope. by rewrite bool_decide_eq_false_2 by lia. Qed.

Lemma unmarshal_marshal codec payload expiresAt data :
  (minInt64 ≤ expiresAt ≤ maxInt64)%Z →
  marshalEnvelope codec payload expiresAt = Ok data →
  unmarshalEnvelope data = Ok (mkEnvelope expiresAt codec payload).
Proof.
  intros He. unfold marshalEnvelope. case_bool_decide as Hc; [done|].
  intros <-%Ok_inj. unfold unmarshalEnvelope, envelopeHeaderSize.
  set (h := be_put 8 expiresAt). set (c := be_put 2 (Z.of_nat (length codec))).
  assert (length h = 8) as Hh by apply be_put_length.
  assert (length c = 2) as Hcl by apply be_put_length.
  assert (length envelopeMagic = 4) as Hm by done.
  case_bool_decide as Hbad.
  { exfalso. rewrite !length_app in Hbad. destruct Hbad as [?|[]]; [lia|].
    by rewrite <-Hm, take_app_length. }
  assert (slice 12 14 (envelopeMagic ++ h ++ c ++ codec ++ payload) = c) as ->.
  { rewrite (app_assoc envelopeMagic). apply slice_app_skip; rewrite length_app; lia. }
  assert (slice 4 12 (envelopeMagic ++ h ++ c ++ codec ++ payload) = h) as ->.
  { apply slice_app_skip; lia. }
  assert (Z.to_nat (be_get c) = length codec) as ->.
  { unfold c. rewrite be_get_put_small; lia. }
  rewrite bool_decide_eq_false_2 by (rewrite !length_app; lia).
  do 2 f_equal.
  - by apply be_int64_roundtrip.
  - rewrite (app_assoc envelopeMagic), (app_assoc _ c).
    apply slice_app_skip; rewrite !length_app; lia.
  - rewrite !app_assoc. apply drop_app_length'. rewrite !length_app. lia.
Qed.

Lemma unmarshal_expiry_range data v :
  unmarshalEnvelope data = Ok v → (minInt64 ≤ env_expiresAt v ≤ maxInt64)%Z.
Proof.
  unfold unmarshalEnvelope. repeat case_bool_decide; try done.
  intros [= <-]. apply wrap64_range.
Qed.

Lemma unmarshal_Err data e : unmarshalEnvelope data = Err e → ∃ text, e = ENew text.
Proof. unfold unmarshalEnvelope. repeat case_bool_decide; naive_solver. Qed.

Lemma unmarshal_Panic data : unmarshalEnvelope data ≠ Panic.
Proof. unfold unmarshalEnvelope. by repeat case_bool_decide. Qed.

Lemma marshal_unmarshal data v :
  unmarshalEnvelope data = Ok v →
  marshalEnvelope (env_codec v) (env_payload v) (env_expiresAt v) = Ok data.
Proof.
  unfold unmarshalEnvelope, envelopeHeaderSize.
  case_bool_decide as Hm; [done|]. case_bool_decide as Hl; [done|].
  intros <-%Ok_inj. cbn [env_codec env_payload env_expiresAt].
  set (n := Z.to_nat (be_get (slice 12 14 data))) in *.
  assert (¬ length data < 14 ∧ take 4 data = envelopeMagic) as [H14 Hmg].
  { split; [tauto|]. apply dec_stable. tauto. }
  assert (length (slice 12 14 data) = 2) as H2 by (rewrite length_slice; lia).
  assert (length (slice 4 12 data) = 8) as H8 by (rewrite length_slice; lia).
  pose proof (be_get_range (slice 12 14 data)) as Hr. rewrite H2 in Hr.
  assert (length (slice 14 (14 + n) data) = n) as Hn by (rewrite length_slice; lia).
  rewrite marshalEnvelope_ok by (rewrite Hn; lia). rewrite Hn. f_equal.
  assert (be_put 8 (wrap64 (be_get (slice 4 12 data))) = slice 4 12 data) as ->.
  { apply be_put_eq; [done|]. unfold wrap64. change (256 ^ Z.of_nat 8)%Z with (2 ^ 64)%Z.
    rewrite Zminus_mod_idemp_l, Z.add_simpl_r.
    pose proof (be_get_range (slice 4 12 data)) as Hq. rewrite H8 in Hq.
    by apply Z.mod_small. }
  assert (be_put 2 (Z.of_nat n) = slice 12 14 data) as ->.
  { apply be_put_eq; [done|]. unfold n. rewrite Z2Nat.id by lia. by apply Z.mod_small. }
  rewrite slice_app_drop by lia. rewrite (slice_app_drop 12 14) by lia.
  rewrite (slice_app_drop 4 12) by lia. rewrite <-Hmg. apply take_drop.
Qed.

(** ** Properties *)

(** C15: Encoding then decoding a record returns its expiry, codec and payload
    unchanged, for every int64 expiry; encoding fails exactly for a codec name
    longer than 65535 bytes. *)
Theorem envelope_roundtrip codec payload expiresAt :
  (minInt64 ≤ expiresAt ≤ maxInt64)%Z →
  match marshalEnvelope codec payload expiresAt with
  | Ok data => length codec ≤ Z.to_nat 65535
      ∧ unmarshalEnvelope data = Ok (mkEnvelope expiresAt codec payload)
  | Err e => Z.to_nat 65535 < length codec ∧ errors_Is e ErrInvalidArgument = true
  | Panic => False
  end.
Proof.
  intros He. destruct (marshalEnvelope codec payload expiresAt) as [data|e|] eqn:Hm.
  - split; [|by eapply unmarshal_marshal].
    unfold marshalEnvelope in Hm. case_bool_decide; [done|lia].
  - unfold marshalEnvelope in Hm. case_bool_decide; simplify_eq.
    split; [lia|done].
  - unfold marshalEnvelope in Hm. by case_bool_decide.
Qed.

Lemma envelope_roundtrip_witness :
  (minInt64 ≤ 1700000000000000000 ≤ maxInt64)%Z
  ∧ match marshalEnvelope ⟦"json"⟧ ⟦"{}"⟧ 1700000000000000000 with
    | Ok data => length ⟦"json"⟧ ≤ Z.to_nat 65535
        ∧ unmarshalEnvelope data
          = Ok (mkEnvelope 1700000000000000000 ⟦"json"⟧ ⟦"{}"⟧)
    | Err e => Z.to_nat 65535 < length ⟦"json"⟧ ∧ errors_Is e ErrInvalidArgument = true
    | Panic => False
    end.
Proof.
  assert (minInt64 ≤ 1700000000000000000 ≤ maxInt64)%Z as H
    by (unfold minInt64, maxInt64; lia).
  split; [exact H|]. exact (envelope_roundtrip ⟦"json"⟧ ⟦"{}"⟧ 1700000000000000000 H).
Defined.

(** The encoding is canonical: whatever the decoder accepts is byte for byte
    what the encoder writes for the decoded record, so two different byte
    strings never decode to the same record. *)
Theorem envelope_canonical data v :
  unmarshalEnvelope data = Ok v →
  marshalEnvelope (env_codec v) (env_payload v) (env_expiresAt v) = Ok data.
Proof. apply marshal_unmarshal. Qed.

Lemma envelope_canonical_witness :
  ∃ data v, unmarshalEnvelope data = Ok v
    ∧ marshalEnvelope (env_codec v) (env_payload v) (env_expiresAt v) = Ok data.
Proof.
  exists (⟦"KVL1"⟧ ++ be_put 8 5 ++ be_put 2 1 ++ ⟦"xab"⟧),
    (mkEnvelope 5 ⟦"x"⟧ ⟦"ab"⟧).
  split; [vm_compute; reflexivity|].
  apply envelope_canonical. vm_compute. reflexivity.
Defined.
