(* ===== verification/Keys.v ===== *)
(** * Storage keys ([keys.go])

    One flat key space holds every representation of a logical key: a kind
    byte, then the key itself for scalars, lists and expiry records, or a
    length-prefixed name and a member for hash fields and set members. *)

From S2P Require Import Prelude Errors Engine Effects.

Definition kindValue : Byte.byte := Byte.x01.
Definition kindHash : Byte.byte := Byte.x02.
Definition kindSet : Byte.byte := Byte.x03.
Definition kindList : Byte.byte := Byte.x04.
Definition kindCollectionTTL : Byte.byte := Byte.x05.

Definition valueKey (key : bytes) : bytes := kindValue :: key.

Definition namespacePrefix (kind : Byte.byte) (namespace : bytes) : bytes :=
  kind :: be_put 4 (Z.of_nat (length namespace)) ++ namespace.

Definition namespacedKey (kind : Byte.byte) (namespace member : bytes) : bytes :=
  namespacePrefix kind namespace ++ member.

Definition listKey (name : bytes) : bytes := kindList :: name.

Definition collectionTTLKey (key : bytes) : bytes := kindCollectionTTL :: key.

Definition logicalKeyFromStorage (storageKey : bytes) : option bytes :=
  match storageKey with
  | [] => None
  | kind :: rest =>
      if bool_decide (kind = kindValue ∨ kind = kindList ∨ kind = kindCollectionTTL)
      then Some rest
      else if bool_decide (kind = kindHash ∨ kind = kindSet) then
        if bool_decide (length storageKey < 5) then None
        else
          let length' := Z.to_nat (be_get (slice 1 5 storageKey)) in
          if bool_decide (length storageKey < 5 + length') then None
          else Some (slice 5 (5 + length') storageKey)
      else None
  end.

(** Names whose length fits the 32-bit length field. *)
Definition short (name : bytes) : Prop := (Z.of_nat (length name) < 2 ^ 32)%Z.

#[global] Instance short_dec name : Decision (short name).
Proof. unfold short. apply _. Defined.

(** ** Lemmas *)

Lemma namespacePrefix_length kind ns : length (namespacePrefix kind ns) = 5 + length ns.
Proof. unfold namespacePrefix. by rewrite length_cons, length_app, be_put_length. Qed.

(** The five shapes a storage key can have. *)
Inductive shape :=
  | SValue (key : bytes)
  | SHash (name field : bytes)
  | SSet (name member : bytes)
  | SList (name : bytes)
  | STTL (key : bytes).

Definition storage_key (s : shape) : bytes :=
  match s with
  | SValue key => valueKey key
  | SHash name field => namespacedKey kindHash name field
  | SSet name member => namespacedKey kindSet name member
  | SList name => listKey name
  | STTL key => collectionTTLKey key
  end.

Definition logical_key (s : shape) : bytes :=
  match s with
  | SValue k | SHash k _ | SSet k _ | SList k | STTL k => k
  end.

Lemma logicalKey_namespaced kind name member :
  kind = kindHash ∨ kind = kindSet → short name →
  logicalKeyFromStorage (namespacedKey kind name member) = Some name.
Proof.
  intros Hk Hs. unfold logicalKeyFromStorage, namespacedKey, namespacePrefix.
  cbn [app]. rewrite (bool_decide_eq_false_2 (kind = kindValue ∨ _))
    by (by destruct Hk as [-> | ->]; intros [?|[?|?]]).
  rewrite bool_decide_eq_true_2 by done.
  set (h := be_put 4 (Z.of_nat (length name))).
  assert (length h = 4) as Hh by apply be_put_length.
  rewrite bool_decide_eq_false_2 by (rewrite length_cons, !length_app; lia).
  rewrite <-app_assoc.
  assert (slice 1 5 (kind :: h ++ name ++ member) = h) as ->.
  { apply (slice_app_skip [kind] h); simpl; lia. }
  assert (Z.to_nat (be_get h) = length name) as ->.
  { unfold h. unfold short in Hs. rewrite be_get_put_small; lia. }
  rewrite bool_decide_eq_false_2 by (rewrite length_cons, !length_app; lia).
  f_equal. apply (slice_app_skip (kind :: h) name); simpl; lia.
Qed.

Lemma logicalKey_storage_key s :
  short (logical_key s) → logicalKeyFromStorage (storage_key s) = Some (logical_key s).
Proof.
  destruct s; cbn [logical_key storage_key]; intros; try reflexivity;
    apply logicalKey_namespaced; auto.
Qed.

(** Under a prefix of the right kind, the logical key is the prefix's name. *)
Lemma has_prefix_namespace kind ns sk :
  has_prefix (namespacePrefix kind ns) sk = true ↔
  ∃ member, sk = namespacedKey kind ns member.
Proof. apply has_prefix_spec. Qed.

Lemma logicalKey_inv sk key :
  short key →
  logicalKeyFromStorage sk = Some key ↔ ∃ s, sk = storage_key s ∧ logical_key s = key.
Proof.
  intros Hs. split.
  2:{ intros (s & -> & <-). by apply logicalKey_storage_key. }
  destruct sk as [|kind rest]; [done|]. cbn [logicalKeyFromStorage].
  case_bool_decide as H1.
  { intros [= ->]. destruct H1 as [->|[->| ->]];
      [exists (SValue key)|exists (SList key)|exists (STTL key)]; done. }
  case_bool_decide as H2; [|done]. case_bool_decide as H3; [done|].
  set (l := kind :: rest) in *. set (n := Z.to_nat (be_get (slice 1 5 l))).
  case_bool_decide as H4; [done|]. intros Hkey%(inj Some).
  assert (l = namespacedKey kind key (drop (5 + n) l)) as Hl.
  { unfold namespacedKey, namespacePrefix.
    assert (length (slice 1 5 l) = 4) as H14 by (rewrite length_slice; lia).
    assert (length (slice 5 (5 + n) l) = n) as H5n by (rewrite length_slice; lia).
    pose proof (be_get_range (slice 1 5 l)) as Hr. rewrite H14 in Hr.
    assert (be_put 4 (Z.of_nat (length key)) = slice 1 5 l) as ->.
    { apply be_put_eq; [done|]. rewrite <-Hkey, H5n. unfold n.
      rewrite Z2Nat.id by lia. by apply Z.mod_small. }
    rewrite <-Hkey. cbn [app]. rewrite <-app_assoc, slice_app_drop by lia.
    rewrite (slice_app_drop 1 5) by lia. unfold l. done. }
  destruct H2 as [-> | ->];
    [exists (SHash key (drop (5 + n) l))|exists (SSet key (drop (5 + n) l))]; done.
Qed.

Lemma storage_key_inj s s' :
  short (logical_key s) → short (logical_key s') →
  storage_key s = storage_key s' → s = s'.
Proof.
  intros Hs Hs' Heq.
  assert (logical_key s = logical_key s') as Hk.
  { apply (inj Some). by rewrite <-!logicalKey_storage_key, Heq. }
  destruct s, s'; cbn [logical_key storage_key] in *; subst; try congruence;
    unfold namespacedKey in Heq; try (apply app_inv_head in Heq; congruence);
    exfalso; revert Heq; clear; unfold namespacePrefix; cbn [app];
    unfold valueKey, listKey, collectionTTLKey, kindValue, kindHash, kindSet, kindList,
      kindCollectionTTL; congruence.
Qed.

(** ** Properties *)

(** C12: The key space is collision free: two different representations, of the
    same or of different logical keys, never share a storage key (names
    shorter than 4 GiB, members of any length). *)
Theorem storage_keys_collision_free s s' :
  short (logical_key s) → short (logical_key s') →
  storage_key s = storage_key s' ↔ s = s'.
Proof. intros Hs Hs'. split; [by apply storage_key_inj|by intros ->]. Qed.

Lemma storage_keys_collision_free_witness :
  short ⟦"user:1"⟧ ∧ short ⟦"user:10"⟧
  ∧ (storage_key (SHash ⟦"user:1"⟧ ⟦"0"⟧) = storage_key (SHash ⟦"user:10"⟧ [])
     ↔ SHash ⟦"user:1"⟧ ⟦"0"⟧ = SHash ⟦"user:10"⟧ []).
Proof.
  split; [vm_compute; reflexivity|]. split; [vm_compute; reflexivity|].
  apply storage_keys_collision_free; vm_compute; reflexivity.
Defined.

(** [logicalKeyFromStorage] recognises exactly the well-formed storage keys
    and returns the logical key they belong to; a prefix scan of a hash or
    set namespace therefore sees the members of that name and no sibling. *)
Theorem logical_key_recognises (sk key : bytes) :
  short key →
  (logicalKeyFromStorage sk = Some key ↔ ∃ s, sk = storage_key s ∧ logical_key s = key)
  ∧ (has_prefix (namespacePrefix kindHash key) sk = true
     ↔ ∃ field, sk = storage_key (SHash key field))
  ∧ (has_prefix (namespacePrefix kindSet key) sk = true
     ↔ ∃ member, sk = storage_key (SSet key member)).
Proof.
  intros Hs. split_and!.
  - by apply logicalKey_inv.
  - apply has_prefix_namespace.
  - apply has_prefix_namespace.
Qed.

Lemma logical_key_recognises_witness :
  short ⟦"k"⟧
  ∧ (has_prefix (namespacePrefix kindHash ⟦"k"⟧) (storage_key (SHash ⟦"k"⟧ ⟦"f"⟧)) = true
     ↔ ∃ field, storage_key (SHash ⟦"k"⟧ ⟦"f"⟧) = storage_key (SHash ⟦"k"⟧ field)).
Proof.
  split; [vm_compute; reflexivity|].
  apply (logical_key_recognises (storage_key (SHash ⟦"k"⟧ ⟦"f"⟧)) ⟦"k"⟧).
  vm_compute. reflexivity.
Defined.
