(* ===== verification/ListCodec.v ===== *)
(** * List records ([collections.go], list part; repeated in [http.go])

    A list is one record: a 32-bit item count, then each item with a 32-bit
    length. [normalizeRange] resolves the inclusive, possibly negative bounds
    of a range request. *)

From S2P Require Import Prelude Errors Engine Effects.

Fixpoint encode_items (items : list bytes) : bytes :=
  match items with
  | [] => []
  | item :: items => be_put 4 (Z.of_nat (length item)) ++ item ++ encode_items items
  end.

Definition encodeList (items : list bytes) : bytes :=
  be_put 4 (Z.of_nat (length items)) ++ encode_items items.

(** The decoding loop: [count] items are still to be read from [offset]. *)
Fixpoint decode_items (count : nat) (data : bytes) (offset : nat) (items : list bytes)
    : result (list bytes * nat) :=
  match count with
  | O => Ok (items, offset)
  | S count =>
      if bool_decide (length data < offset + 4)
      then Err (ENew ⟦"kvlite: truncated list encoding"⟧)
      else
        let length' := Z.to_nat (be_get (slice offset (offset + 4) data)) in
        let offset := offset + 4 in
        if bool_decide (length data < offset + length')
        then Err (ENew ⟦"kvlite: truncated list item"⟧)
        else decode_items count data (offset + length')
               (items ++ [slice offset (offset + length') data])
  end.

Definition decodeList (data : bytes) : result (list bytes) :=
  if bool_decide (length data < 4) then Err (ENew ⟦"kvlite: invalid list encoding"⟧)
  else
    let count := be_get (take 4 data) in
    if bool_decide (Z.of_nat (length data - 4) / 4 < count)%Z
    then Err (ENew ⟦"kvlite: invalid list item count"⟧)
    else match decode_items (Z.to_nat count) data 4 [] with
         | Ok (items, offset) =>
             if bool_decide (offset = length data) then Ok items
             else Err (ENew ⟦"kvlite: trailing list data"⟧)
         | Err e => Err e
         | Panic => Panic
         end.

(** Go [int] arithmetic: each sum is stored in an int64. *)
Definition normalizeRange (length start stop : Z) : Z * Z * bool :=
  let start := if bool_decide (start < 0)%Z then wrap64 (length + start) else start in
  let stop := if bool_decide (stop < 0)%Z then wrap64 (length + stop) else stop in
  let start := if bool_decide (start < 0)%Z then 0%Z else start in
  let stop := if bool_decide (length ≤ stop)%Z then wrap64 (length - 1) else stop in
  (start, stop, bool_decide (0 < length ∧ start < length ∧ start ≤ stop)%Z).

(** [items[start : stop+1]]. *)
Definition range_slice {A} (items : list A) (start stop : Z) : list A :=
  slice (Z.to_nat start) (Z.to_nat (stop + 1)) items.

(** Items and lists the 32-bit length fields can describe. *)
Definition list_encodable (items : list bytes) : Prop :=
  (Z.of_nat (length items) < 2 ^ 32)%Z
  ∧ Forall (λ item, Z.of_nat (length item) < 2 ^ 32)%Z items.

#[global] Instance list_encodable_dec items : Decision (list_encodable items).
Proof. unfold list_encodable. apply _. Defined.

(** ** Lemmas *)

Lemma encode_items_length items : 4 * length items ≤ length (encode_items items).
Proof.
  induction items as [|item items IH]; [done|].
  cbn [encode_items]. rewrite !length_app, be_put_length, length_cons. lia.
Qed.

Lemma decode_encode_items items pre acc :
  Forall (λ item, Z.of_nat (length item) < 2 ^ 32)%Z items →
  decode_items (length items) (pre ++ encode_items items) (length pre) acc
  = Ok (acc ++ items, length (pre ++ encode_items items)).
Proof.
  revert pre acc. induction items as [|item items IH]; intros pre acc Hall.
  { simpl. by rewrite !app_nil_r. }
  apply Forall_cons_1 in Hall as [Hitem Hall].
  cbn [length encode_items decode_items].
  set (h := be_put 4 (Z.of_nat (length item))).
  assert (length h = 4) as Hh by apply be_put_length.
  rewrite bool_decide_eq_false_2 by (rewrite !length_app; lia).
  rewrite (slice_app_skip pre h) by lia.
  assert (Z.to_nat (be_get h) = length item) as ->.
  { unfold h. rewrite be_get_put_small; lia. }
  rewrite bool_decide_eq_false_2 by (rewrite !length_app; lia).
  rewrite (app_assoc pre h).
  rewrite (slice_app_skip (pre ++ h) item) by (rewrite length_app; lia).
  rewrite (app_assoc (pre ++ h) item).
  replace (length pre + 4 + length item) with (length ((pre ++ h) ++ item))
    by (rewrite !length_app; lia).
  rewrite IH by done. by rewrite <-app_assoc.
Qed.

Lemma decode_encode_list items :
  list_encodable items → decodeList (encodeList items) = Ok items.
Proof.
  intros [Hn Hall]. unfold decodeList, encodeList.
  set (h := be_put 4 (Z.of_nat (length items))).
  assert (length h = 4) as Hh by apply be_put_length.
  pose proof (encode_items_length items).
  rewrite bool_decide_eq_false_2 by (rewrite length_app; lia).
  assert (be_get (take 4 (h ++ encode_items items)) = Z.of_nat (length items)) as ->.
  { rewrite <-Hh, take_app_length. unfold h. apply be_get_put_small. lia. }
  rewrite bool_decide_eq_false_2.
  2:{ rewrite length_app, Hh. apply Z.le_ngt, Z.div_le_lower_bound; lia. }
  rewrite Nat2Z.id. rewrite <-Hh, decode_encode_items by done.
  by rewrite bool_decide_eq_true_2.
Qed.

Lemma decode_items_inv count data offset acc items end' :
  offset ≤ length data →
  decode_items count data offset acc = Ok (items, end') →
  ∃ new, items = acc ++ new ∧ length new = count ∧ offset ≤ end' ≤ length data
    ∧ encode_items new = slice offset end' data
    ∧ Forall (λ item, Z.of_nat (length item) < 2 ^ 32)%Z new.
Proof.
  revert offset acc. induction count as [|count IH]; intros offset acc Ho; cbn [decode_items].
  { intros [= <- <-]. exists []. rewrite app_nil_r. split_and!; try done.
    unfold slice. by rewrite Nat.sub_diag. }
  case_bool_decide as H1; [done|].
  set (len := Z.to_nat (be_get (slice offset (offset + 4) data))).
  case_bool_decide as H2; [done|].
  intros (new & -> & Hlen & Hend & Henc & Hall)%IH; [|lia].
  assert (length (slice offset (offset + 4) data) = 4) as H4 by (rewrite length_slice; lia).
  pose proof (be_get_range (slice offset (offset + 4) data)) as Hr. rewrite H4 in Hr.
  set (item := slice (offset + 4) (offset + 4 + len) data) in *.
  assert (length item = len) as Hitem by (unfold item; rewrite length_slice; lia).
  exists (item :: new). split_and!; try lia.
  - by rewrite <-app_assoc.
  - rewrite length_cons. lia.
  - cbn [encode_items]. rewrite Hitem, Henc.
    assert (be_put 4 (Z.of_nat len) = slice offset (offset + 4) data) as ->.
    { apply be_put_eq; [done|]. unfold len. rewrite Z2Nat.id by lia.
      by apply Z.mod_small. }
    unfold item. rewrite (slice_slice_app (offset + 4)), slice_slice_app by lia. done.
  - constructor; [|done]. rewrite Hitem. unfold len.
    rewrite Z2Nat.id by lia. apply Hr.
Qed.

Lemma encode_decode_list data items :
  decodeList data = Ok items → encodeList items = data ∧ list_encodable items.
Proof.
  unfold decodeList. case_bool_decide as H4; [done|].
  set (count := be_get (take 4 data)).
  case_bool_decide as Hc; [done|].
  destruct (decode_items (Z.to_nat count) data 4 []) as [[its off]| |] eqn:Hd; try done.
  case_bool_decide as Hoff; [|done]. intros <-%Ok_inj.
  apply decode_items_inv in Hd as (new & Hits & Hlen & Hend & Henc & Hall); [|lia].
  simpl in Hits. subst its.
  assert (length (take 4 data) = 4) as Ht by (rewrite length_take; lia).
  pose proof (be_get_range (take 4 data)) as Hr. rewrite Ht in Hr.
  unfold encodeList. split.
  - rewrite Henc, Hoff. unfold slice. rewrite (take_ge (drop _ _)).
    2:{ rewrite length_drop. lia. }
    assert (be_put 4 (Z.of_nat (length new)) = take 4 data) as ->.
    { apply be_put_eq; [done|]. rewrite Hlen. unfold count.
      rewrite Z2Nat.id by lia. by apply Z.mod_small. }
    apply take_drop.
  - split; [|done]. rewrite Hlen. unfold count. rewrite Z2Nat.id by lia. apply Hr.
Qed.

(** The reference meaning of a range: the items whose index, counted from 0,
    satisfies a test. *)
Fixpoint select {A} (from : nat) (keep : Z → bool) (l : list A) : list A :=
  match l with
  | [] => []
  | x :: l => if keep (Z.of_nat from) then x :: select (S from) keep l
              else select (S from) keep l
  end.

(** A negative index counts from the end. *)
Definition resolve_index (length i : Z) : Z := if bool_decide (i < 0)%Z then (length + i)%Z else i.

Lemma select_none {A} from keep (l : list A) :
  (∀ i, from ≤ i < from + length l → keep (Z.of_nat i) = false) →
  select from keep l = [].
Proof.
  revert from. induction l as [|x l IH]; intros from H; [done|].
  cbn [select]. rewrite H by (simpl; lia). apply IH.
  intros i Hi. apply H. simpl. lia.
Qed.

Lemma select_ext_in {A} (l : list A) keep keep' from :
  (∀ i, from ≤ i < from + length l → keep (Z.of_nat i) = keep' (Z.of_nat i)) →
  select from keep l = select from keep' l.
Proof.
  revert from. induction l as [|x l IH]; intros from H; [done|].
  cbn [select]. rewrite H by (simpl; lia). rewrite (IH (S from)); [done|].
  intros i Hi. apply H. simpl. lia.
Qed.

Lemma select_interval {A} (l : list A) from lo hi :
  from ≤ lo → lo ≤ hi →
  select from (λ i, bool_decide (Z.of_nat lo ≤ i < Z.of_nat hi)%Z) l
  = slice (lo - from) (hi - from) l.
Proof.
  revert from lo. induction l as [|x l IH]; intros from lo Hf Hlh.
  { unfold slice. by rewrite drop_nil, take_nil. }
  cbn [select]. case_bool_decide as Hin.
  - assert (from = lo) as -> by lia. rewrite Nat.sub_diag. unfold slice.
    rewrite drop_0, Nat.sub_0_r.
    destruct (hi - lo) as [|k] eqn:Hk; [lia|]. simpl. f_equal.
    destruct (decide (hi = S lo)) as [->|].
    + assert (k = 0) as -> by lia. simpl. apply select_none.
      intros i Hi. rewrite bool_decide_eq_false_2; [done|lia].
    + pose proof (IH (S lo) (S lo)) as IH'.
      rewrite (select_ext_in _ _ (λ i, bool_decide (Z.of_nat (S lo) ≤ i < Z.of_nat hi)%Z)).
      * rewrite IH' by lia. unfold slice. rewrite Nat.sub_diag, drop_0.
        by replace (hi - S lo - 0) with k by lia.
      * intros i Hi. apply bool_decide_ext. lia.
  - destruct (decide (lo = from)) as [->|Hne].
    + assert (hi = from) as -> by lia. rewrite Nat.sub_diag. unfold slice. simpl.
      apply select_none. intros i Hi. rewrite bool_decide_eq_false_2; [done|lia].
    + rewrite IH by lia. unfold slice.
      replace (lo - from) with (S (lo - S from)) by lia. simpl.
      f_equal. lia.
Qed.

Lemma normalizeRange_ok length start stop first last ok :
  (0 ≤ length ≤ maxInt64)%Z → (minInt64 ≤ start ≤ maxInt64)%Z →
  (minInt64 ≤ stop ≤ maxInt64)%Z →
  normalizeRange length start stop = (first, last, ok) →
  first = Z.max 0 (resolve_index length start)
  ∧ last = Z.min (length - 1) (resolve_index length stop)
  ∧ (ok = true ↔ (first ≤ last ∧ 0 < length)%Z).
Proof.
  unfold normalizeRange, resolve_index, minInt64, maxInt64. intros Hl Hs Ht.
  intros [= <- <- <-].
  assert (∀ z, (- 2 ^ 63 ≤ z ≤ 2 ^ 63 - 1)%Z → wrap64 z = z) as Hw by apply wrap64_id.
  repeat (case_bool_decide || (rewrite Hw in * by lia));
    rewrite ?bool_decide_eq_true; lia.
Qed.

(** ** Properties *)

(** Decoding an encoded list returns its items, for every list within the
    32-bit count and length fields. *)
Theorem list_roundtrip items :
  list_encodable items → decodeList (encodeList items) = Ok items.
Proof. apply decode_encode_list. Qed.

Lemma list_roundtrip_witness :
  list_encodable [⟦"a"⟧; []; ⟦"bc"⟧]
  ∧ decodeList (encodeList [⟦"a"⟧; []; ⟦"bc"⟧]) = Ok [⟦"a"⟧; []; ⟦"bc"⟧].
Proof.
  assert (list_encodable [⟦"a"⟧; []; ⟦"bc"⟧]) as H
    by (split; [vm_compute; reflexivity|repeat constructor]).
  split; [exact H|exact (list_roundtrip _ H)].
Defined.

(** The decoder accepts only canonical encodings: no truncated, padded or
    trailing bytes, so what it accepts re-encodes to the same record. *)
Theorem list_canonical data items :
  decodeList data = Ok items → encodeList items = data ∧ list_encodable items.
Proof. apply encode_decode_list. Qed.

Lemma list_canonical_witness :
  decodeList (be_put 4 1 ++ be_put 4 2 ++ ⟦"hi"⟧) = Ok [⟦"hi"⟧]
  ∧ encodeList [⟦"hi"⟧] = be_put 4 1 ++ be_put 4 2 ++ ⟦"hi"⟧.
Proof.
  assert (decodeList (be_put 4 1 ++ be_put 4 2 ++ ⟦"hi"⟧) = Ok [⟦"hi"⟧]) as H
    by (vm_compute; reflexivity).
  split; [exact H|]. apply (list_canonical _ _ H).
Defined.

(** [normalizeRange] with the slice it guards selects exactly the items whose
    index lies between the two resolved bounds, whatever int64 bounds a client
    sends: no sum overflows and the slice is never out of range. *)
Theorem normalize_range_selects (items : list bytes) start stop first last ok :
  (Z.of_nat (length items) ≤ maxInt64)%Z →
  (minInt64 ≤ start ≤ maxInt64)%Z → (minInt64 ≤ stop ≤ maxInt64)%Z →
  normalizeRange (Z.of_nat (length items)) start stop = (first, last, ok) →
  (if ok then range_slice items first last else [])
  = select 0 (λ i, bool_decide (resolve_index (Z.of_nat (length items)) start ≤ i
                                ≤ resolve_index (Z.of_nat (length items)) stop)%Z) items
  ∧ (ok = true → 0 ≤ first ≤ last ∧ last < Z.of_nat (length items))%Z.
Proof.
  intros Hl Hs Ht Hn.
  apply normalizeRange_ok in Hn as (Hf & Hla & Hok); [|lia|done|done].
  set (n := Z.of_nat (length items)) in *.
  set (lo := resolve_index n start) in *. set (hi := resolve_index n stop) in *.
  destruct ok.
  - destruct (proj1 Hok eq_refl) as [Hle Hpos]. split; [|lia].
    unfold range_slice.
    rewrite (select_ext_in _ _ (λ i, bool_decide
      (Z.of_nat (Z.to_nat first) ≤ i < Z.of_nat (Z.to_nat (last + 1)))%Z)).
    + rewrite select_interval by lia. by rewrite !Nat.sub_0_r.
    + intros i Hi. apply bool_decide_ext. lia.
  - split; [|done]. symmetry. apply select_none. intros i Hi.
    apply bool_decide_eq_false_2. intros Hin.
    assert (first ≤ last ∧ 0 < n)%Z as Hx by lia. apply Hok in Hx. done.
Qed.

Lemma normalize_range_selects_witness :
  normalizeRange 3 (-2) maxInt64 = (1, 2, true)%Z
  ∧ range_slice [⟦"a"⟧; ⟦"b"⟧; ⟦"c"⟧] 1 2
    = select 0 (λ i, bool_decide (resolve_index 3 (-2) ≤ i ≤ resolve_index 3 maxInt64)%Z)
        [⟦"a"⟧; ⟦"b"⟧; ⟦"c"⟧].
Proof.
  assert (normalizeRange 3 (-2) maxInt64 = (1, 2, true)%Z) as H by (vm_compute; reflexivity).
  split; [exact H|].
  apply (normalize_range_selects [⟦"a"⟧; ⟦"b"⟧; ⟦"c"⟧] (-2) maxInt64 1 2 true);
    unfold minInt64, maxInt64; simpl; first [lia | exact H].
Defined.
