(* ===== verification/Text.v ===== *)
(** * Text functions the program uses ([strings], [strconv.Quote])

    On ASCII text the functions are defined here. On text with bytes above
    127 they depend on the Unicode tables of the Go library, which are a
    parameter of the model: the class [GoText]. *)

From S2P Require Import Prelude.

Class GoText := {
  unicode_ToUpper : bytes → bytes;
  unicode_ToLower : bytes → bytes;
  unicode_TrimSpace : bytes → bytes;
  unicode_Fields : bytes → list bytes;
  unicode_EqualFold : bytes → bytes → bool;
  strconv_Quote : bytes → bytes;
  strconv_QuoteRune : Byte.byte → bytes
}.

(** An instance for evaluating concrete ASCII inputs. *)
Definition ascii_GoText : GoText := {|
  unicode_ToUpper := id;
  unicode_ToLower := id;
  unicode_TrimSpace := id;
  unicode_Fields := λ s, [s];
  unicode_EqualFold := λ s t, bool_decide (s = t);
  strconv_Quote := λ s, ⟦"'"⟧ ++ s ++ ⟦"'"⟧;
  strconv_QuoteRune := λ c, ⟦"'"⟧ ++ [c] ++ ⟦"'"⟧
|}.

Definition in_range (lo hi c : Byte.byte) : bool :=
  bool_decide (byte_to_Z lo ≤ byte_to_Z c ≤ byte_to_Z hi)%Z.

Definition is_ascii (s : bytes) : bool := forallb (λ c, bool_decide (byte_to_Z c < 128)%Z) s.

Definition upper_byte (c : Byte.byte) : Byte.byte :=
  if in_range "a" "z" c then byte_of_Z (byte_to_Z c - 32) else c.

Definition lower_byte (c : Byte.byte) : Byte.byte :=
  if in_range "A" "Z" c then byte_of_Z (byte_to_Z c + 32) else c.

(** ASCII white space: tab, line feed, vertical tab, form feed, carriage
    return, space. *)
Definition is_space (c : Byte.byte) : bool :=
  in_range Byte.x09 Byte.x0d c || bool_decide (c = " "%byte).

Fixpoint trim_left (s : bytes) : bytes :=
  match s with
  | [] => []
  | c :: s' => if is_space c then trim_left s' else s
  end.

(** The fields of [s], the current one collected in [cur]. *)
Fixpoint fields_from (s cur : bytes) : list bytes :=
  match s with
  | [] => if bool_decide (cur = []) then [] else [cur]
  | c :: s' =>
      if is_space c
      then (if bool_decide (cur = []) then [] else [cur]) ++ fields_from s' []
      else fields_from s' (cur ++ [c])
  end.

Section strings.
Context {GT : GoText}.

Definition strings_ToUpper (s : bytes) : bytes :=
  if is_ascii s then upper_byte <$> s else unicode_ToUpper s.

Definition strings_ToLower (s : bytes) : bytes :=
  if is_ascii s then lower_byte <$> s else unicode_ToLower s.

Definition strings_TrimSpace (s : bytes) : bytes :=
  if is_ascii s then reverse (trim_left (reverse (trim_left s))) else unicode_TrimSpace s.

Definition strings_Fields (s : bytes) : list bytes :=
  if is_ascii s then fields_from s [] else unicode_Fields s.

Definition strings_EqualFold (s t : bytes) : bool :=
  if is_ascii s && is_ascii t
  then bool_decide (lower_byte <$> s = lower_byte <$> t)
  else unicode_EqualFold s t.
End strings.

Definition strings_HasPrefix (s pfx : bytes) : bool :=
  bool_decide (take (length pfx) s = pfx).

Definition strings_HasSuffix (s sfx : bytes) : bool :=
  bool_decide (drop (length s - length sfx) s = sfx ∧ length sfx ≤ length s).

(** ** Lemmas *)

Lemma byte_ascii_cases (P : Byte.byte → Prop) :
  (∀ n, n < 256 → P (byte_of_Z (Z.of_nat n))) → ∀ c, P c.
Proof.
  intros H c. rewrite <-(byte_of_to_Z c). pose proof (byte_to_Z_range c).
  replace (byte_to_Z c) with (Z.of_nat (Z.to_nat (byte_to_Z c))) by lia.
  apply H. lia.
Qed.

Lemma lower_byte_idemp c : lower_byte (lower_byte c) = lower_byte c.
Proof. by destruct c. Qed.

Lemma lower_byte_ascii c : (byte_to_Z c < 128)%Z → (byte_to_Z (lower_byte c) < 128)%Z.
Proof.
  unfold lower_byte, in_range. case_bool_decide as H; [|done].
  rewrite byte_to_of_Z. intros. change (byte_to_Z "Z") with 90%Z in H.
  rewrite Z.mod_small; [lia|]. pose proof (byte_to_Z_range c). lia.
Qed.

Lemma lower_byte_space c : is_space (lower_byte c) = is_space c.
Proof. by destruct c. Qed.

Lemma trim_left_lower s : trim_left (lower_byte <$> s) = lower_byte <$> trim_left s.
Proof.
  induction s as [|c s IH]; [done|]. cbn. rewrite lower_byte_space.
  by destruct (is_space c).
Qed.

Lemma trim_left_idemp s : trim_left (trim_left s) = trim_left s.
Proof.
  induction s as [|c s IH]; [done|]. simpl.
  destruct (is_space c) eqn:E; [done|]. simpl. by rewrite E.
Qed.

Lemma is_ascii_Forall s : is_ascii s = true ↔ Forall (λ c, byte_to_Z c < 128)%Z s.
Proof.
  unfold is_ascii. rewrite <-Is_true_true, forallb_True.
  split; intros H; eapply Forall_impl; try exact H; intros c; simpl;
    by rewrite bool_decide_spec.
Qed.
