(* ===== verification/DriverName.v ===== *)
(** * Driver and module names ([backend.go], [module.go])

    Names are canonicalized to lower case, trimmed, and restricted to
    letters, digits, dash, underscore and dot. *)

From S2P Require Import Prelude Errors Engine Effects Text.

Definition DriverRocksDB : bytes := ⟦"rocksdb"⟧.
Definition DriverLevelDB : bytes := ⟦"leveldb"⟧.
Definition DriverBadgerDB : bytes := ⟦"badgerdb"⟧.
Definition DriverBoltDB : bytes := ⟦"boltdb"⟧.
Definition DriverLMDB : bytes := ⟦"lmdb"⟧.
Definition DriverBerkeleyDB : bytes := ⟦"berkeleydb"⟧.
Definition BackendRemote : bytes := ⟦"remote"⟧.
Definition DriverMemory : bytes := ⟦"memory"⟧.

Definition name_character (c : Byte.byte) : bool :=
  in_range "a" "z" c || in_range "0" "9" c
  || bool_decide (c = "-"%byte) || bool_decide (c = "_"%byte) || bool_decide (c = "."%byte).

(** The byte offset of the first unsupported character. The Go loop ranges
    over runes; a rune outside ASCII is unsupported and starts at its first
    byte, which is unsupported too. *)
Fixpoint bad_character (s : bytes) (index : nat) : option nat :=
  match s with
  | [] => None
  | c :: s => if name_character c then bad_character s (S index) else Some index
  end.

Section names.
Context {GT : GoText}.

Definition normalizeDriverName (name : bytes) : result bytes :=
  let canonical := strings_ToLower (strings_TrimSpace name) in
  if bool_decide (canonical = [])
  then Err (errorf ErrInvalidArgument ⟦"storage driver is required"⟧)
  else match bad_character canonical 0 with
       | Some index =>
           Err (errorf ErrInvalidArgument
                  (⟦"storage driver "⟧ ++ strconv_Quote name
                   ++ ⟦" contains an unsupported character at byte "⟧
                   ++ format_int (Z.of_nat index)))
       | None => Ok canonical
       end.

Definition ParseDriverName (name : bytes) : result bytes := normalizeDriverName name.

Definition normalizeModuleName (name : bytes) : result bytes :=
  let canonical := strings_ToLower (strings_TrimSpace name) in
  if bool_decide (canonical = [])
  then Err (errorf ErrModuleManifestInvalid ⟦"module name is required"⟧)
  else match bad_character canonical 0 with
       | Some index =>
           Err (errorf ErrModuleManifestInvalid
                  (⟦"module name "⟧ ++ strconv_Quote name
                   ++ ⟦" contains an unsupported character at byte "⟧
                   ++ format_int (Z.of_nat index)))
       | None => Ok canonical
       end.

(** ** Lemmas *)

Lemma bad_character_None s i :
  bad_character s i = None ↔ Forall (λ c, name_character c = true) s.
Proof.
  revert i. induction s as [|c s IH]; intros i; simpl; [done|].
  rewrite Forall_cons_iff. destruct (name_character c); [rewrite IH; tauto|]. split; [done|]. by intros [? _].
Qed.

Lemma name_character_facts c :
  name_character c = true →
  lower_byte c = c ∧ is_space c = false ∧ (byte_to_Z c < 128)%Z.
Proof. by destruct c. Qed.

(** A canonical name is its own canonical form. *)
Lemma canonical_fixed c :
  Forall (λ c, name_character c = true) c →
  strings_ToLower (strings_TrimSpace c) = c.
Proof.
  intros Hc.
  assert (∀ s, Forall (λ c, name_character c = true) s → trim_left s = s) as Htrim.
  { intros [|x s]; [done|]. intros [Hx _]%Forall_cons_1. simpl.
    by destruct (name_character_facts x Hx) as (_ & -> & _). }
  assert (is_ascii c = true) as Ha.
  { apply is_ascii_Forall. eapply Forall_impl; [exact Hc|].
    intros x Hx. by apply name_character_facts. }
  unfold strings_TrimSpace. rewrite Ha, (Htrim c) by done.
  rewrite Htrim by (by apply Forall_reverse). rewrite reverse_involutive.
  unfold strings_ToLower. rewrite Ha. clear Ha.
  induction Hc as [|x c Hx Hc IH]; [done|]. rewrite fmap_cons, IH.
  by destruct (name_character_facts x Hx) as (-> & _).
Qed.

Lemma normalizeDriverName_Ok name c :
  normalizeDriverName name = Ok c →
  c ≠ [] ∧ Forall (λ c, name_character c = true) c.
Proof.
  unfold normalizeDriverName. case_bool_decide; [done|].
  destruct (bad_character _ 0) eqn:E; [done|]. intros <-%Ok_inj.
  split; [done|]. by apply bad_character_None in E.
Qed.

Lemma normalizeDriverName_canonical c :
  c ≠ [] → Forall (λ c, name_character c = true) c → normalizeDriverName c = Ok c.
Proof.
  intros Hne Hc. unfold normalizeDriverName. rewrite canonical_fixed by done.
  rewrite bool_decide_eq_false_2 by done.
  by rewrite (proj2 (bad_character_None c 0) Hc).
Qed.

(** ** Properties *)

(** Normalizing a driver name either fails with [ErrInvalidArgument] or
    yields a non-empty name of supported characters that normalizes to
    itself, so a name has one canonical form. *)
Theorem driver_name_canonical (name : bytes) :
  match normalizeDriverName name with
  | Ok c => c ≠ [] ∧ Forall (λ c, name_character c = true) c
            ∧ normalizeDriverName c = Ok c
  | Err e => errors_Is e ErrInvalidArgument = true
  | Panic => False
  end.
Proof.
  destruct (normalizeDriverName name) as [c|e|] eqn:H.
  - apply normalizeDriverName_Ok in H as [Hne Hc].
    split_and!; auto using normalizeDriverName_canonical.
  - unfold normalizeDriverName in H. case_bool_decide; simplify_eq; [done|].
    destruct (bad_character _ 0); by simplify_eq.
  - unfold normalizeDriverName in H. case_bool_decide; [done|].
    by destruct (bad_character _ 0).
Qed.
End names.
