(* ===== verification/DB.v ===== *)
(** * The database handle ([db.go], [logical_key.go], [codec.go], [options.go])

    Typed values go through a codec into an envelope; a logical key has one
    representation, so a scalar write first removes every other record of the
    key. *)

From S2P Require Import Prelude Errors Engine Effects Envelope Keys Text DriverName.

(** ** Codecs

    Go values and decode targets as the codecs tell them apart: a byte slice,
    or a value of any other type. *)

Inductive goValue (X : Type) := GoBytes (b : bytes) | GoOther (x : X).
Arguments GoBytes {X}.
Arguments GoOther {X}.

(** [TargetBytes nilPointer] is a [*[]byte]. *)
Inductive goTarget (Y : Type) := TargetNil | TargetBytes (nilPointer : bool) | TargetOther (y : Y).
Arguments TargetNil {Y}.
Arguments TargetBytes {Y}.
Arguments TargetOther {Y}.

Record Codec (X Y : Type) := mkCodec {
  codec_Name : bytes;
  codec_Marshal : goValue X → result bytes;
  codec_Unmarshal : bytes → goTarget Y → result (goValue X)
}.
Arguments mkCodec {X Y}.
Arguments codec_Name {X Y}.
Arguments codec_Marshal {X Y}.
Arguments codec_Unmarshal {X Y}.

Section codecs.
Context {X Y : Type}.
(** [encoding/json] and the type names [%T] prints. *)
Context (json_Marshal : goValue X → GoError + bytes)
        (json_Unmarshal : bytes → goTarget Y → GoError + goValue X)
        (typeName : X → bytes).

Definition JSONCodec_Marshal (value : goValue X) : result bytes :=
  match json_Marshal value with
  | inl err => Err (wrapf ⟦"kvlite: encode json: "⟧ err)
  | inr data => Ok data
  end.

Definition JSONCodec_Unmarshal (data : bytes) (target : goTarget Y) : result (goValue X) :=
  match target with
  | TargetNil => Err (errorf ErrInvalidArgument ⟦"decode target cannot be nil"⟧)
  | _ => match json_Unmarshal data target with
         | inl err => Err (wrapf ⟦"kvlite: decode json: "⟧ err)
         | inr v => Ok v
         end
  end.

Definition JSONCodec : Codec X Y :=
  mkCodec ⟦"json"⟧ JSONCodec_Marshal JSONCodec_Unmarshal.

Definition BytesCodec_Marshal (value : goValue X) : result bytes :=
  match value with
  | GoBytes data => Ok data
  | GoOther x =>
      Err (errorf ErrInvalidArgument
             (⟦"BytesCodec expects []byte, got "⟧ ++ typeName x))
  end.

Definition BytesCodec_Unmarshal (data : bytes) (target : goTarget Y) : result (goValue X) :=
  match target with
  | TargetBytes false => Ok (GoBytes data)
  | _ => Err (errorf ErrInvalidArgument ⟦"BytesCodec target must be *[]byte"⟧)
  end.

Definition BytesCodec : Codec X Y :=
  mkCodec ⟦"bytes"⟧ BytesCodec_Marshal BytesCodec_Unmarshal.
End codecs.

(** ** Configuration *)

Record config (X Y : Type) := mkConfig {
  cfg_codec : Codec X Y;
  cfg_codecs : gmap bytes (Codec X Y);
  cfg_driver : bytes;
  cfg_driverExplicit : bool;
  cfg_blockCacheSize : Z;
  cfg_writeBufferSize : Z;
  cfg_maxWriteBuffers : Z;
  cfg_maxBackgroundJobs : Z
}.
Arguments mkConfig {X Y}.
Arguments cfg_codec {X Y}.
Arguments cfg_codecs {X Y}.
Arguments cfg_driver {X Y}.
Arguments cfg_driverExplicit {X Y}.
Arguments cfg_blockCacheSize {X Y}.
Arguments cfg_writeBufferSize {X Y}.
Arguments cfg_maxWriteBuffers {X Y}.
Arguments cfg_maxBackgroundJobs {X Y}.

Definition defaultBlockCacheSize : Z := Z.shiftl 64 20.
Definition defaultWriteBufferSize : Z := Z.shiftl 16 20.

Section options.
Context {X Y : Type} {GT : GoText}.
Implicit Types (cfg : config X Y) (codec : Codec X Y).

Definition defaultConfig (json : Codec X Y) : config X Y := {|
  cfg_codec := json;
  cfg_codecs := {[ codec_Name json := json ]};
  cfg_driver := DriverRocksDB;
  cfg_driverExplicit := false;
  cfg_blockCacheSize := defaultBlockCacheSize;
  cfg_writeBufferSize := defaultWriteBufferSize;
  cfg_maxWriteBuffers := 2;
  cfg_maxBackgroundJobs := 2
|}.

(** An [Option]; a nil one is [None] in an option list. *)
Definition Option := config X Y → result (config X Y).

Definition WithDriver (driver : bytes) : Option := λ cfg,
  match normalizeDriverName driver with
  | Ok canonical =>
      Ok (mkConfig (cfg_codec cfg) (cfg_codecs cfg) canonical true
            (cfg_blockCacheSize cfg) (cfg_writeBufferSize cfg)
            (cfg_maxWriteBuffers cfg) (cfg_maxBackgroundJobs cfg))
  | Err e => Err e
  | Panic => Panic
  end.

Definition WithBackend (backend : bytes) : Option := WithDriver backend.

(** [codec = None] is a nil interface. *)
Definition WithCodec (codec : option (Codec X Y)) : Option := λ cfg,
  match codec with
  | None => Err (errorf ErrInvalidArgument ⟦"codec and codec name are required"⟧)
  | Some codec =>
      if bool_decide (codec_Name codec = [])
      then Err (errorf ErrInvalidArgument ⟦"codec and codec name are required"⟧)
      else Ok (mkConfig codec (<[codec_Name codec := codec]> (cfg_codecs cfg))
                 (cfg_driver cfg) (cfg_driverExplicit cfg)
                 (cfg_blockCacheSize cfg) (cfg_writeBufferSize cfg)
                 (cfg_maxWriteBuffers cfg) (cfg_maxBackgroundJobs cfg))
  end.

Definition WithRegisteredCodec (codec : option (Codec X Y)) : Option := λ cfg,
  match codec with
  | None => Err (errorf ErrInvalidArgument ⟦"codec and codec name are required"⟧)
  | Some codec =>
      if bool_decide (codec_Name codec = [])
      then Err (errorf ErrInvalidArgument ⟦"codec and codec name are required"⟧)
      else Ok (mkConfig (cfg_codec cfg) (<[codec_Name codec := codec]> (cfg_codecs cfg))
                 (cfg_driver cfg) (cfg_driverExplicit cfg)
                 (cfg_blockCacheSize cfg) (cfg_writeBufferSize cfg)
                 (cfg_maxWriteBuffers cfg) (cfg_maxBackgroundJobs cfg))
  end.

(** Go integer division truncates towards zero. *)
Definition WithMemoryBudget (budget : Z) : Option := λ cfg,
  if bool_decide (budget < Z.shiftl 24 20)%Z
  then Err (errorf ErrInvalidArgument ⟦"memory budget must be at least 24 MiB"⟧)
  else Ok (mkConfig (cfg_codec cfg) (cfg_codecs cfg) (cfg_driver cfg)
             (cfg_driverExplicit cfg) (Z.quot budget 2) (Z.quot budget 8) 2
             (cfg_maxBackgroundJobs cfg)).

Fixpoint buildConfig_from cfg (options : list (option Option)) : result (config X Y) :=
  match options with
  | [] => Ok cfg
  | None :: options => buildConfig_from cfg options
  | Some option :: options =>
      match option cfg with
      | Ok cfg' => buildConfig_from cfg' options
      | Err e => Err e
      | Panic => Panic
      end
  end.

Definition buildConfig (json : Codec X Y) (options : list (option Option))
    : result (config X Y) :=
  buildConfig_from (defaultConfig json) options.
End options.

(** Options of one write. *)
Record putConfig := mkPutConfig { put_ttl : Z }.

Definition PutOption := putConfig → result putConfig.

Definition TTL (duration : Z) : PutOption := λ _,
  if bool_decide (duration ≤ 0)%Z
  then Err (errorf ErrInvalidArgument ⟦"ttl must be positive"⟧)
  else Ok (mkPutConfig duration).

Fixpoint applyPutOptions (cfg : putConfig) (options : list (option PutOption))
    : result putConfig :=
  match options with
  | [] => Ok cfg
  | None :: options => applyPutOptions cfg options
  | Some option :: options =>
      match option cfg with
      | Ok cfg' => applyPutOptions cfg' options
      | Err e => Err e
      | Panic => Panic
      end
  end.

(** ** Operations of the handle *)

Definition ensureOpen : M unit :=
  c ← dbClosed;
  if c : bool then throw ErrClosed else mret tt.

Definition keyRequired : GoError := errorf ErrInvalidArgument ⟦"key is required"⟧.

(** [value.expiresAt > 0 && db.cfg.now().UnixNano() >= value.expiresAt]: the
    clock is read only when there is an expiry. *)
Definition isExpired (expiresAt : Z) : M bool :=
  if bool_decide (0 < expiresAt)%Z
  then t ← nowTime; mret (bool_decide (expiresAt ≤ unixNano t)%Z)
  else mret false.

(** [if ttl > 0 { expiresAt = now.Add(ttl).UnixNano() }]. *)
Definition expiryFor (ttl : Z) : M Z :=
  if bool_decide (0 < ttl)%Z
  then t ← nowTime; mret (unixNano (t + ttl))
  else mret 0%Z.

(** [deleteLogicalKey]: exact lookups for the scalar, list and expiry
    records, prefix scans for hash fields and set members, then the deletes. *)
Definition deleteLogicalKey (key : bytes) : M bool :=
  keys ← for_each [valueKey key; listKey key; collectionTTLKey key]
    (λ storageKey keys,
       data ← engineGet storageKey;
       mret (match data with Some _ => keys ++ [storageKey] | None => keys end)) [];
  keys ← for_each [namespacePrefix kindHash key; namespacePrefix kindSet key]
    (λ pfx keys,
       '(items, err) ← engineScanAll pfx;
       let keys := keys ++ items.*1 in
       match err with
       | Some e => if errors_Is e ErrDriverUnavailable then mret keys else throw e
       | None => mret keys
       end) keys;
  _ ← delete_keys keys;
  mret (bool_decide (keys ≠ [])).

Definition replaceLogicalValue (key encoded : bytes) : M unit :=
  r ← attempt (engineReplaceLogicalValue key encoded);
  match r with
  | inr _ => mret tt
  | inl e =>
      if errors_Is e errAtomicReplaceUnsupported then
        _ ← map_err (wrapf ⟦"kvlite: put: "⟧) (deleteLogicalKey key);
        map_err (wrapf ⟦"kvlite: put: "⟧) (enginePut (valueKey key) encoded)
      else throw e
  end.

(** [StoredValue]: the serialized form of one live logical value. *)
Record StoredValue := mkStored {
  stored_Codec : bytes;
  stored_Payload : bytes;
  stored_ExpiresAt : Z
}.

Definition encodePayload (codec payload : bytes) (ttl : Z) : M bytes :=
  expiresAt ← expiryFor ttl;
  lift (marshalEnvelope codec payload expiresAt).

Definition PutStoredValue (key codec value : bytes) (options : list (option PutOption))
    : M unit :=
  if bool_decide (key = []) then throw keyRequired
  else if bool_decide (codec = [])
  then throw (errorf ErrInvalidArgument ⟦"codec is required"⟧)
  else
    _ ← ensureOpen;
    cfg ← lift (applyPutOptions (mkPutConfig 0) options);
    encoded ← encodePayload codec value (put_ttl cfg);
    replaceLogicalValue key encoded.

Definition PutBytes (key value : bytes) (options : list (option PutOption)) : M unit :=
  PutStoredValue key ⟦"bytes"⟧ value options.

Definition GetStoredValue (key : bytes) : M StoredValue :=
  if bool_decide (key = []) then throw keyRequired
  else
    _ ← ensureOpen;
    let storageKey := valueKey key in
    data ← map_err (wrapf ⟦"kvlite: get: "⟧) (engineGet storageKey);
    match data with
    | None => throw ErrNotFound
    | Some data =>
        value ← lift (unmarshalEnvelope data);
        expired ← isExpired (env_expiresAt value);
        if expired : bool then
          _ ← ignore (engineDelete storageKey);
          throw ErrNotFound
        else mret (mkStored (env_codec value) (env_payload value) (env_expiresAt value))
    end.

Definition GetBytes (key : bytes) : M bytes :=
  value ← GetStoredValue key; mret (stored_Payload value).

Definition Has (key : bytes) : M bool :=
  if bool_decide (key = []) then throw keyRequired
  else
    _ ← ensureOpen;
    let storageKey := valueKey key in
    data ← engineGet storageKey;
    match data with
    | None => mret false
    | Some data =>
        value ← lift (unmarshalEnvelope data);
        expired ← isExpired (env_expiresAt value);
        if expired : bool then
          _ ← ignore (engineDelete storageKey);
          mret false
        else mret true
    end.

Definition Delete (key : bytes) : M unit :=
  if bool_decide (key = []) then throw keyRequired
  else
    _ ← ensureOpen;
    _ ← map_err (wrapf ⟦"kvlite: delete: "⟧) (deleteLogicalKey key);
    mret tt.

Section typed.
Context {X Y : Type}.
Implicit Types (cfg : config X Y) (value : goValue X) (target : goTarget Y).

Definition encodeValue cfg value (options : list (option PutOption)) : M bytes :=
  pc ← lift (applyPutOptions (mkPutConfig 0) options);
  payload ← lift (codec_Marshal (cfg_codec cfg) value);
  expiresAt ← expiryFor (put_ttl pc);
  lift (marshalEnvelope (codec_Name (cfg_codec cfg)) payload expiresAt).

Definition Put cfg (key : bytes) value (options : list (option PutOption)) : M unit :=
  if bool_decide (key = []) then throw keyRequired
  else
    _ ← ensureOpen;
    encoded ← encodeValue cfg value options;
    replaceLogicalValue key encoded.

(** [put] writes one storage record and leaves the others alone. *)
Definition put cfg (storageKey : bytes) value (options : list (option PutOption)) : M unit :=
  _ ← ensureOpen;
  if bool_decide (storageKey = []) then throw keyRequired
  else
    encoded ← encodeValue cfg value options;
    map_err (wrapf ⟦"kvlite: put: "⟧) (enginePut storageKey encoded).

Definition decode cfg (data : bytes) target : M (goValue X) :=
  value ← lift (unmarshalEnvelope data);
  expired ← isExpired (env_expiresAt value);
  if expired : bool then throw ErrNotFound
  else match cfg_codecs cfg !! env_codec value with
       | None => throw (errorf ErrCodecUnavailable (env_codec value))
       | Some codec => lift (codec_Unmarshal codec (env_payload value) target)
       end.

Definition get cfg (storageKey : bytes) target : M (goValue X) :=
  _ ← ensureOpen;
  data ← map_err (wrapf ⟦"kvlite: get: "⟧) (engineGet storageKey);
  match data with
  | None => throw ErrNotFound
  | Some data =>
      r ← attempt (decode cfg data target);
      match r with
      | inr v => mret v
      | inl e =>
          _ ← (if errors_Is e ErrNotFound then ignore (engineDelete storageKey)
               else mret tt);
          throw e
      end
  end.

Definition Get cfg (key : bytes) target : M (goValue X) :=
  if bool_decide (key = []) then throw keyRequired
  else get cfg (valueKey key) target.
End typed.

(** ** Opening over a supplied engine, and closing *)

Section handle.
Context {E : Type} `{!Engine E} {X Y : Type} {GT : GoText}.

Definition newDB (storage : E) (backend : bytes) : DB E :=
  mkDB (mkGuarded storage false) backend false false.

(** A nil storage engine is [None]. *)
Definition OpenWithEngine (storage : option E) (backend : bytes) (json : Codec X Y)
    (options : list (option (@Option X Y))) : result (DB E * config X Y) :=
  match storage with
  | None => Err (errorf ErrInvalidArgument ⟦"storage engine is required"⟧)
  | Some storage =>
      match ParseDriverName backend with
      | Ok canonicalBackend =>
          match buildConfig json options with
          | Ok cfg =>
              let db := newDB storage canonicalBackend in
              Ok (mkDB (db_engine db) (db_backend db) true (db_closed db), cfg)
          | Err e => Err e
          | Panic => Panic
          end
      | Err e => Err e
      | Panic => Panic
      end
  end.

Definition IsRemote (db : DB E) : bool := db_remote db.
Definition Backend (db : DB E) : bytes := db_backend db.

Definition Close (db : DB E) : option GoError * DB E :=
  if db_closed db then (None, db)
  else
    let '(err, g) := guarded_Close (db_engine db) in
    (err, mkDB g (db_backend db) (db_remote db) true).
End handle.

(** ** Lemmas *)

(** The records of a logical key, and the map without them. *)
Definition owns (key sk : bytes) : bool := bool_decide (logicalKeyFromStorage sk = Some key).

Definition without (key : bytes) (m : gmap bytes bytes) : gmap bytes bytes :=
  filter (λ kv, owns key kv.1 = false) m.

Lemma lookup_without key m sk :
  without key m !! sk = if owns key sk then None else m !! sk.
Proof.
  unfold without. destruct (owns key sk) eqn:Ho.
  - apply map_lookup_filter_None. right. simpl. congruence.
  - destruct (m !! sk) as [v|] eqn:Hm.
    + by apply map_lookup_filter_Some.
    + apply map_lookup_filter_None. auto.
Qed.

Lemma owns_storage_key s key :
  short (logical_key s) → owns key (storage_key s) = bool_decide (logical_key s = key).
Proof.
  intros. unfold owns. rewrite logicalKey_storage_key by done.
  apply bool_decide_ext. split; congruence.
Qed.

Lemma owns_inv key sk :
  short key → owns key sk = true ↔
  sk = valueKey key ∨ sk = listKey key ∨ sk = collectionTTLKey key
  ∨ has_prefix (namespacePrefix kindHash key) sk = true
  ∨ has_prefix (namespacePrefix kindSet key) sk = true.
Proof.
  intros Hs. unfold owns. rewrite bool_decide_eq_true, logicalKey_inv by done.
  rewrite !has_prefix_namespace. split.
  - intros ([k|k f|k f|k|k] & -> & <-); cbn [storage_key logical_key]; eauto 8.
  - intros [->|[->|[->|[[f ->]|[f ->]]]]];
      [exists (SValue key)|exists (SList key)|exists (STTL key)
      |exists (SHash key f)|exists (SSet key f)]; done.
Qed.

Lemma wp_ensureOpen readings m Q : Q (Ok tt) m → wp readings ensureOpen Q m.
Proof. done. Qed.

Lemma found_keys_elem (m : gmap bytes bytes) (ks : list bytes) acc readings Q :
  (∀ keys, (∀ k, k ∈ keys ↔ k ∈ acc ∨ k ∈ ks ∧ is_Some (m !! k)) → Q (Ok keys) m) →
  wp readings (for_each ks
    (λ storageKey keys,
       data ← engineGet storageKey;
       mret (match data with Some _ => keys ++ [storageKey] | None => keys end)) acc) Q m.
Proof.
  revert acc. induction ks as [|k ks IH]; intros acc HQ; cbn [for_each].
  - cbn. apply HQ. intros k. rewrite elem_of_nil. tauto.
  - wp_steps. apply IH. intros keys Hk. apply HQ. intros k'. rewrite Hk.
    destruct (m !! k) eqn:E; rewrite elem_of_cons.
    + rewrite elem_of_app, list_elem_of_singleton. split; [|naive_solver].
      intros [[?| ->]|?]; [tauto| |tauto]. rewrite E. eauto.
    + split; [tauto|]. intros [?|[[->|?] ?]]; [tauto| |tauto].
      rewrite E in *. by apply is_Some_None in H.
Qed.

Lemma wp_deleteLogicalKey readings key m Q :
  short key →
  (∀ b : bool, (b = true ↔ ∃ sk v, m !! sk = Some v ∧ owns key sk = true) →
    Q (Ok b) (without key m)) →
  wp readings (deleteLogicalKey key) Q m.
Proof.
  intros Hs HQ. unfold deleteLogicalKey. wp_step. apply found_keys_elem.
  intros keys1 H1. wp_step. cbn [for_each]. wp_steps. apply wp_delete_keys. wp_step.
  set (keys := (keys1 ++ items.*1) ++ items0.*1).
  assert (∀ k, k ∈ keys ↔ owns key k = true ∧ is_Some (m !! k)) as Hkeys.
  { intros k. unfold keys. rewrite !elem_of_app, H1, owns_inv by done.
    rewrite (elem_of_matches_keys m _ items k), (elem_of_matches_keys m _ items0 k)
      by done.
    rewrite !elem_of_cons, !elem_of_nil. tauto. }
  assert (filter (λ kv, kv.1 ∉ keys) m = without key m) as ->.
  { apply map_eq. intros k. rewrite lookup_without. apply option_eq. intros v.
    rewrite map_lookup_filter_Some. simpl. rewrite Hkeys.
    destruct (owns key k); naive_solver. }
  apply HQ. rewrite bool_decide_eq_true. split.
  - intros Hne. destruct keys as [|k keys]; [done|].
    destruct (proj1 (Hkeys k) ltac:(left)) as [Ho [v Hv]]. eauto.
  - intros (sk & v & Hm & Ho) Hnil. eapply (elem_of_nil (A:=bytes) sk).
    rewrite <-Hnil. apply Hkeys. eauto.
Qed.

(** Readings under which an expiry has, or has not, passed. *)
Definition alive (readings : Z → Prop) (expiresAt : Z) : Prop :=
  (expiresAt ≤ 0)%Z ∨ ∀ t, readings t → (unixNano t < expiresAt)%Z.

Definition gone (readings : Z → Prop) (expiresAt : Z) : Prop :=
  (0 < expiresAt)%Z ∧ ∀ t, readings t → (expiresAt ≤ unixNano t)%Z.

(** The expiry a write with time-to-live [ttl] stores. *)
Definition expiry_of (readings : Z → Prop) (ttl expiresAt : Z) : Prop :=
  ((ttl ≤ 0)%Z ∧ expiresAt = 0%Z)
  ∨ ((0 < ttl)%Z ∧ ∃ t, readings t ∧ expiresAt = unixNano (t + ttl)).

Lemma expiry_of_range readings ttl e :
  expiry_of readings ttl e → (minInt64 ≤ e ≤ maxInt64)%Z.
Proof.
  intros [[_ ->]|(_ & t & _ & ->)]; [unfold minInt64, maxInt64; lia|apply wrap64_range].
Qed.

Lemma wp_isExpired_alive readings e m Q :
  alive readings e → Q (Ok false) m → wp readings (isExpired e) Q m.
Proof.
  intros Ha HQ. unfold isExpired. case_bool_decide as He; [|done].
  wp_steps. rewrite bool_decide_eq_false_2; [done|].
  destruct Ha as [?|Ha]; [lia|]. specialize (Ha t H). lia.
Qed.

Lemma wp_isExpired_gone readings e m Q :
  gone readings e → Q (Ok true) m → wp readings (isExpired e) Q m.
Proof.
  intros [Hp Hg] HQ. unfold isExpired. rewrite bool_decide_eq_true_2 by done.
  wp_steps. by rewrite bool_decide_eq_true_2 by auto.
Qed.

Lemma wp_expiryFor readings ttl m Q :
  (∀ e, expiry_of readings ttl e → Q (Ok e) m) → wp readings (expiryFor ttl) Q m.
Proof.
  intros HQ. unfold expiryFor. case_bool_decide as Ht.
  - wp_steps. apply HQ. right. eauto.
  - wp_steps. apply HQ. left. split; [lia|done].
Qed.

Lemma wp_replaceLogicalValue readings key encoded m Q :
  short key → Q (Ok tt) (<[valueKey key := encoded]> (without key m)) →
  wp readings (replaceLogicalValue key encoded) Q m.
Proof.
  intros Hs HQ. unfold replaceLogicalValue. wp_steps. cbn [errors_Is].
  rewrite bool_decide_eq_true_2 by done. wp_steps.
  apply wp_deleteLogicalKey; [done|]. intros b _. by wp_steps.
Qed.

Lemma wp_PutStoredValue readings key codec value options pc m Q :
  key ≠ [] → short key → codec ≠ [] → (Z.of_nat (length codec) ≤ 65535)%Z →
  applyPutOptions (mkPutConfig 0) options = Ok pc →
  (∀ e data, expiry_of readings (put_ttl pc) e → marshalEnvelope codec value e = Ok data →
    Q (Ok tt) (<[valueKey key := data]> (without key m))) →
  wp readings (PutStoredValue key codec value options) Q m.
Proof.
  intros Hk Hs Hc Hlen Hopt HQ. unfold PutStoredValue.
  rewrite !bool_decide_eq_false_2 by done. wp_step. apply wp_ensureOpen. wp_steps.
  rewrite Hopt. unfold encodePayload. wp_steps. apply wp_expiryFor.
  intros e He. wp_steps. rewrite marshalEnvelope_ok by done. wp_steps.
  apply wp_replaceLogicalValue; [done|]. apply (HQ e); [done|].
  by apply marshalEnvelope_ok.
Qed.

Lemma wp_GetStoredValue_alive readings key data v m Q :
  key ≠ [] → m !! valueKey key = Some data → unmarshalEnvelope data = Ok v →
  alive readings (env_expiresAt v) →
  Q (Ok (mkStored (env_codec v) (env_payload v) (env_expiresAt v))) m →
  wp readings (GetStoredValue key) Q m.
Proof.
  intros Hk Hm Hd Ha HQ. unfold GetStoredValue. rewrite bool_decide_eq_false_2 by done.
  wp_step. apply wp_ensureOpen. wp_steps. rewrite Hm. wp_steps. rewrite Hd. wp_steps.
  apply wp_isExpired_alive; [done|]. by wp_steps.
Qed.

Lemma wp_GetStoredValue_gone readings key data v m Q :
  key ≠ [] → m !! valueKey key = Some data → unmarshalEnvelope data = Ok v →
  gone readings (env_expiresAt v) →
  Q (Err (ESentinel ErrNotFound)) (delete (valueKey key) m) →
  wp readings (GetStoredValue key) Q m.
Proof.
  intros Hk Hm Hd Ha HQ. unfold GetStoredValue. rewrite bool_decide_eq_false_2 by done.
  wp_step. apply wp_ensureOpen. wp_steps. rewrite Hm. wp_steps. rewrite Hd. wp_steps.
  apply wp_isExpired_gone; [done|]. by wp_steps.
Qed.

(** ** Properties *)

(** C1: [Delete] removes every record of the logical key, whatever its
    representation, and no record of any other key; it succeeds whether or
    not the key exists. *)
Theorem delete_exact key :
  key ≠ [] → short key →
  triple (λ _, True) (λ _, True) (Delete key)
    (λ m r m', r = Ok tt
       ∧ ∀ sk, m' !! sk = if bool_decide (logicalKeyFromStorage sk = Some key)
                          then None else m !! sk).
Proof.
  intros Hk Hs. apply triple_intro. intros m _. unfold Delete.
  rewrite bool_decide_eq_false_2 by done. wp_step. apply wp_ensureOpen. wp_steps.
  apply wp_deleteLogicalKey; [done|]. intros b _. wp_steps. split; [done|].
  intros sk. apply lookup_without.
Qed.

Lemma delete_exact_witness :
  ⟦"user:1"⟧ ≠ [] ∧ short ⟦"user:1"⟧
  ∧ triple (λ _, True) (λ _, True) (Delete ⟦"user:1"⟧)
      (λ m r m', r = Ok tt
         ∧ ∀ sk, m' !! sk = if bool_decide (logicalKeyFromStorage sk = Some ⟦"user:1"⟧)
                            then None else m !! sk).
Proof.
  split; [discriminate|]. split; [vm_compute; reflexivity|].
  apply delete_exact; [discriminate|vm_compute; reflexivity].
Defined.
