(* ===== verification/DBTheorems.v ===== *)
(** * Theorems about the database handle

    What a caller of [Put], [Get], [Has], [Delete] and [Close] can rely on,
    for every engine that satisfies the storage contract (and, where stated,
    for every engine at all). *)

From S2P Require Import Prelude Errors Engine Effects Envelope Keys Text DriverName DB MemDriver.

(** A clock that shows one instant during a call. *)
Definition at_time (t : Z) : Z → Prop := λ t', t' = t.

Lemma unixNano_id t : (0 ≤ t ≤ maxInt64)%Z → unixNano t = t.
Proof. intros. apply wrap64_id. unfold minInt64, maxInt64 in *. lia. Qed.

(** A TTL that overflows the int64 nanosecond clock wraps to a non-positive
    expiry. *)
Lemma unixNano_overflow t ttl :
  (0 ≤ t ≤ maxInt64)%Z → (0 < ttl ≤ maxInt64)%Z → (maxInt64 < t + ttl)%Z →
  (unixNano (t + ttl) ≤ 0)%Z.
Proof.
  unfold unixNano, wrap64, maxInt64. intros.
  replace ((t + ttl + 2 ^ 63) mod 2 ^ 64)%Z with (t + ttl + 2 ^ 63 - 2 ^ 64)%Z; [lia|].
  apply Z.mod_unique with 1%Z; lia.
Qed.

Section deadline.
Context {E : Type} {HE : Engine E} {HL : LocalEngine E}.
Context (env1 env2 : Env) (w : World E).
Context (key codec value : bytes) (t ttl : Z).

Hypothesis live_contexts : env_ctx env1 = Background ∧ env_ctx env2 = Background.
Hypothesis write_time : ∀ n, env_now env1 n = t.
Hypothesis open_handle : healthy w.
Hypothesis valid_key : key ≠ [] ∧ short key.
Hypothesis valid_codec : codec ≠ [] ∧ (Z.of_nat (length codec) ≤ 65535)%Z.
Hypothesis positive_ttl : (0 < ttl)%Z.

Let put := run env1 (PutStoredValue key codec value [Some (TTL ttl)]) w.
Let get := run env2 (GetStoredValue key) put.2.

(** What the write leaves behind. *)
Lemma put_with_ttl_stores :
  put.1 = Ok tt ∧ healthy put.2
  ∧ (∃ data, records put.2 = <[valueKey key := data]> (without key (records w))
       ∧ unmarshalEnvelope data = Ok (mkEnvelope (unixNano (t + ttl)) codec value)).
Proof using env1 env2 live_contexts open_handle positive_ttl valid_codec valid_key write_time.
  destruct live_contexts as [Hctx _], valid_key as [Hk Hs], valid_codec as [Hc Hl].
  pose proof (wp_sound (at_time t) env1 (PutStoredValue key codec value [Some (TTL ttl)])
    (λ r m', r = Ok tt ∧ ∃ data, m' = <[valueKey key := data]> (without key (records w))
       ∧ unmarshalEnvelope data = Ok (mkEnvelope (unixNano (t + ttl)) codec value)) w
    Hctx write_time open_handle) as Hput.
  destruct Hput as [[Hr Hd] Hh]; [|by fold put in Hr, Hd, Hh].
  eapply (wp_PutStoredValue _ _ _ _ _ (mkPutConfig ttl)); try done.
  { simpl. unfold TTL. by rewrite bool_decide_eq_false_2 by lia. }
  simpl. intros e data He Hdata. split; [done|]. exists data. split; [done|].
  pose proof (expiry_of_range _ _ _ He).
  destruct He as [[? _]|(_ & t' & -> & ->)]; [lia|].
  by eapply unmarshal_marshal.
Qed.

(** Reading the written record back under clock readings [readings]. *)
Lemma get_after_put_alive :
  alive (λ t', ∃ n, t' = env_now env2 n) (unixNano (t + ttl)) →
  get.1 = Ok (mkStored codec value (unixNano (t + ttl)))
  ∧ records get.2 = records put.2.
Proof using env1 env2 live_contexts open_handle positive_ttl valid_codec valid_key write_time.
  intros Ha. destruct put_with_ttl_stores as (_ & Hh & data & Hrec & Hd).
  destruct live_contexts as [_ Hctx].
  edestruct (wp_sound (λ t', ∃ n, t' = env_now env2 n) env2 (GetStoredValue key)
    (λ r m', r = Ok (mkStored codec value (unixNano (t + ttl))) ∧ m' = records put.2)
    put.2) as [H _]; eauto.
  eapply wp_GetStoredValue_alive; [apply valid_key| |exact Hd|exact Ha|done].
  rewrite Hrec. apply lookup_insert_eq.
Qed.

Lemma get_after_put_gone :
  gone (λ t', ∃ n, t' = env_now env2 n) (unixNano (t + ttl)) →
  get.1 = Err (ESentinel ErrNotFound)
  ∧ records get.2 = delete (valueKey key) (records put.2).
Proof using env1 env2 live_contexts open_handle positive_ttl valid_codec valid_key write_time.
  intros Ha. destruct put_with_ttl_stores as (_ & Hh & data & Hrec & Hd).
  destruct live_contexts as [_ Hctx].
  edestruct (wp_sound (λ t', ∃ n, t' = env_now env2 n) env2 (GetStoredValue key)
    (λ r m', r = Err (ESentinel ErrNotFound)
             ∧ m' = delete (valueKey key) (records put.2))
    put.2) as [H _]; eauto.
  eapply wp_GetStoredValue_gone; [apply valid_key| |exact Hd|exact Ha|done].
  rewrite Hrec. apply lookup_insert_eq.
Qed.

(** C2: A value written with a TTL is returned, byte for byte and with its
    codec, by every read whose clock is before the deadline, and by no read
    at or after it: such a read reports [ErrNotFound] and removes the
    record. The write also removes every other record of the key and
    touches no other key. *)
Theorem put_get_deadline :
  (0 ≤ t)%Z → (t + ttl ≤ maxInt64)%Z → (∀ n, 0 ≤ env_now env2 n ≤ maxInt64)%Z →
  put.1 = Ok tt
  ∧ (∀ sk, owns key sk = false → records put.2 !! sk = records w !! sk)
  ∧ (∀ sk, owns key sk = true → sk ≠ valueKey key → records put.2 !! sk = None)
  ∧ ((∀ n, env_now env2 n < t + ttl)%Z → get.1 = Ok (mkStored codec value (t + ttl)))
  ∧ ((∀ n, t + ttl ≤ env_now env2 n)%Z →
       get.1 = Err (ESentinel ErrNotFound) ∧ records get.2 !! valueKey key = None).
Proof using env1 env2 live_contexts open_handle positive_ttl valid_codec valid_key write_time.
  intros Ht Hmax Hnow2. assert (unixNano (t + ttl) = (t + ttl)%Z) as Hexp
    by (apply unixNano_id; lia).
  destruct put_with_ttl_stores as (Hr & Hh & data & Hrec & Hd). rewrite Hexp in Hd.
  split; [done|]. rewrite Hrec. split_and!.
  - intros sk Ho. rewrite lookup_insert_ne, lookup_without, Ho; [done|].
    intros <-. unfold owns in Ho. by apply bool_decide_eq_false in Ho.
  - intros sk Ho Hne. by rewrite lookup_insert_ne, lookup_without, Ho.
  - intros Hb. rewrite <-Hexp at 1. apply get_after_put_alive. right.
    intros t' [n ->]. rewrite Hexp, unixNano_id by auto. apply Hb.
  - intros Ha. destruct get_after_put_gone as [Hg1 Hg2].
    { split; [lia|]. intros t' [n ->]. rewrite Hexp, unixNano_id by auto. apply Ha. }
    split; [done|]. rewrite Hg2. apply lookup_delete_eq.
Qed.

(** A TTL whose deadline does not fit the int64 nanosecond clock (after the
    year 2262) makes the record immortal: it is returned by every later
    read, also by reads long after the requested deadline. *)
Theorem put_ttl_overflow_never_expires :
  (0 ≤ t ≤ maxInt64)%Z → (ttl ≤ maxInt64)%Z → (maxInt64 < t + ttl)%Z →
  put.1 = Ok tt
  ∧ get.1 = Ok (mkStored codec value (unixNano (t + ttl)))
  ∧ records get.2 = records put.2.
Proof using env1 env2 live_contexts open_handle positive_ttl valid_codec valid_key write_time.
  intros Ht Httl Hover. split; [apply put_with_ttl_stores|].
  apply get_after_put_alive. left. apply unixNano_overflow; lia.
Qed.
End deadline.

(** A fresh database over the memory driver, and a clock stopped at [t]. *)
Definition mem_world : World memoryDriverEngine :=
  mkWorld (newDB memoryDriver_Open DriverMemory) 0.

Definition clock_at (t : Z) : Env := mkEnv Background (λ _, t).

(** A configuration over byte slices only. *)
Definition bytes_codec : Codec Empty_set Empty_set := BytesCodec (λ x : Empty_set, match x with end).

Definition bytes_config : config Empty_set Empty_set :=
  mkConfig bytes_codec {[ codec_Name bytes_codec := bytes_codec ]} DriverMemory true 0 0 0 0.

Lemma mem_world_healthy : healthy mem_world.
Proof. done. Qed.

Lemma put_get_deadline_witness :
  let env1 := clock_at 1000 in
  let put := run env1 (PutStoredValue ⟦"k"⟧ ⟦"json"⟧ ⟦"1"⟧ [Some (TTL 500)]) mem_world in
  put.1 = Ok tt
  ∧ (run (clock_at 1499) (GetStoredValue ⟦"k"⟧) put.2).1
    = Ok (mkStored ⟦"json"⟧ ⟦"1"⟧ 1500)
  ∧ (run (clock_at 1500) (GetStoredValue ⟦"k"⟧) put.2).1 = Err (ESentinel ErrNotFound).
Proof.
  assert (⟦"k"⟧ ≠ [] ∧ short ⟦"k"⟧) as Hk by (split; [discriminate|by vm_compute]).
  assert (⟦"json"⟧ ≠ [] ∧ (Z.of_nat (length ⟦"json"⟧) ≤ 65535)%Z) as Hc
    by (split; [discriminate|by vm_compute]).
  assert (1000 + 500 ≤ maxInt64)%Z as Hmax by (unfold maxInt64; lia).
  assert (∀ t', (0 ≤ t' ≤ maxInt64)%Z → ∀ n : nat, (0 ≤ env_now (clock_at t') n ≤ maxInt64)%Z)
    as Hr by (intros t' H n; exact H).
  intros env1 put. split_and!.
  - apply (put_get_deadline env1 (clock_at 1499) mem_world ⟦"k"⟧ ⟦"json"⟧ ⟦"1"⟧ 1000 500);
      first [done | lia | apply Hr; lia].
  - apply (put_get_deadline env1 (clock_at 1499) mem_world ⟦"k"⟧ ⟦"json"⟧ ⟦"1"⟧ 1000 500);
      first [done | lia | apply Hr; lia | intros; cbn; lia].
  - apply (put_get_deadline env1 (clock_at 1500) mem_world ⟦"k"⟧ ⟦"json"⟧ ⟦"1"⟧ 1000 500);
      first [done | lia | apply Hr; lia | intros; cbn; lia].
Defined.

Lemma put_ttl_overflow_never_expires_witness :
  let put := run (clock_at (maxInt64 - 10))
    (PutStoredValue ⟦"k"⟧ ⟦"json"⟧ ⟦"1"⟧ [Some (TTL 100)]) mem_world in
  put.1 = Ok tt
  ∧ (run (clock_at (maxInt64 + 1000)) (GetStoredValue ⟦"k"⟧) put.2).1
    = Ok (mkStored ⟦"json"⟧ ⟦"1"⟧ (unixNano (maxInt64 - 10 + 100))).
Proof.
  assert (⟦"k"⟧ ≠ [] ∧ short ⟦"k"⟧) as Hk by (split; [discriminate|by vm_compute]).
  assert (⟦"json"⟧ ≠ [] ∧ (Z.of_nat (length ⟦"json"⟧) ≤ 65535)%Z) as Hc
    by (split; [discriminate|by vm_compute]).
  intros put. split;
    apply (put_ttl_overflow_never_expires (clock_at (maxInt64 - 10))
      (clock_at (maxInt64 + 1000)) mem_world ⟦"k"⟧ ⟦"json"⟧ ⟦"1"⟧ (maxInt64 - 10) 100);
    first [done | unfold maxInt64; lia].
Defined.

(** Remove the "kvlite: get: " wrapper [GetStoredValue] adds to an engine
    error and [Has] does not. *)
Definition unwrap_get (e : GoError) : GoError :=
  match e with
  | EWrap pre inner _ => if bool_decide (pre = ⟦"kvlite: get: "⟧) then inner else e
  | _ => e
  end.

(** On every engine, healthy, failing or closed, and at every clock, [Has]
    reports exactly whether [GetStoredValue] would return a value, leaves the
    database in the same state (both remove an expired record), and fails
    with the same error. *)
Theorem has_agrees_with_get {E} `{Engine E} (env : Env) (w : World E) (key : bytes) :
  run env (Has key) w =
  match run env (GetStoredValue key) w with
  | (Ok _, w') => (Ok true, w')
  | (Err e, w') => (if bool_decide (e = ESentinel ErrNotFound) then Ok false
                    else Err (unwrap_get e), w')
  | (Panic, w') => (Panic, w')
  end.
Proof.
  unfold Has, GetStoredValue. case_bool_decide as Hk; [done|].
  unfold ensureOpen. cbn. destruct (db_closed (w_db w)); [done|]. cbn.
  destruct (on_engine (guarded_Get (env_ctx env) (valueKey key)) w) as [[e|[data|]] w1];
    cbn; [done| |done].
  destruct (unmarshalEnvelope data) as [v|e|] eqn:Hu; cbn; [|by apply unmarshal_Err in Hu as [txt ->]|done].
  unfold isExpired. case_bool_decide; cbn; [|done].
  case_bool_decide; cbn; [|done].
  by destruct (on_engine (guarded_Delete (env_ctx env) (valueKey key)) _) as [[e|] w2].
Qed.

(** Once a handle is closed every operation on it fails with [ErrClosed]
    without reaching the engine: neither the engine's state nor the clock
    moves. This holds for every engine. *)
Theorem closed_handle_rejects {E} `{Engine E} {X Y} (env : Env) (w : World E)
    (cfg : config X Y) key codec value (v : goValue X) (target : goTarget Y) options :
  db_closed (w_db w) = true → key ≠ [] → codec ≠ [] →
  run env (Put cfg key v options) w = (Err (ESentinel ErrClosed), w)
  ∧ run env (PutStoredValue key codec value options) w = (Err (ESentinel ErrClosed), w)
  ∧ run env (Get cfg key target) w = (Err (ESentinel ErrClosed), w)
  ∧ run env (GetStoredValue key) w = (Err (ESentinel ErrClosed), w)
  ∧ run env (Has key) w = (Err (ESentinel ErrClosed), w)
  ∧ run env (Delete key) w = (Err (ESentinel ErrClosed), w).
Proof.
  intros Hc Hk Hcodec. unfold Put, PutStoredValue, Get, GetStoredValue, Has, Delete, get.
  rewrite !bool_decide_eq_false_2 by done. unfold ensureOpen. cbn. by rewrite Hc.
Qed.

Lemma closed_handle_rejects_witness :
  let w := mkWorld (Close (w_db mem_world)).2 0 in
  db_closed (w_db w) = true
  ∧ run (clock_at 0) (Delete ⟦"k"⟧) w = (Err (ESentinel ErrClosed), w).
Proof.
  intros w. split; [reflexivity|].
  apply (closed_handle_rejects (X:=Empty_set) (Y:=Empty_set) (clock_at 0) w
    bytes_config ⟦"k"⟧ ⟦"bytes"⟧ [] (GoBytes []) TargetNil []); [reflexivity|discriminate|discriminate].
Defined.

(** [Close] closes the engine exactly once: the first call closes it and
    marks handle and guard closed, a second call succeeds and changes
    nothing; afterwards the guard refuses every operation and the inner
    engine is not called again. *)
Theorem close_once {E} `{Engine E} (db : DB E) ctx key value :
  db_closed db = false → closed (db_engine db) = false →
  let '(err, db1) := Close db in
  err = (engine_Close (inner (db_engine db))).1
  ∧ inner (db_engine db1) = (engine_Close (inner (db_engine db))).2
  ∧ Close db1 = (None, db1)
  ∧ guarded_Get ctx key (db_engine db1) = (inl (ESentinel ErrClosed), db_engine db1)
  ∧ guarded_Put ctx key value (db_engine db1) = (Some (ESentinel ErrClosed), db_engine db1)
  ∧ guarded_Delete ctx key (db_engine db1) = (Some (ESentinel ErrClosed), db_engine db1)
  ∧ guarded_ScanPrefix ctx key (db_engine db1)
    = (([], Some (ESentinel ErrClosed)), db_engine db1).
Proof.
  intros Hd Hg. unfold Close, guarded_Close, on_inner. rewrite Hd, Hg. simpl.
  by destruct (engine_Close (inner (db_engine db))) as [err e].
Qed.

Lemma close_once_witness :
  db_closed (w_db mem_world) = false
  ∧ let '(err, db1) := Close (w_db mem_world) in Close db1 = (None, db1).
Proof.
  split; [reflexivity|].
  pose proof (close_once (w_db mem_world) Background [] [] eq_refl eq_refl) as Hc.
  destruct (Close (w_db mem_world)) as [err db1]. apply Hc.
Defined.

Section typed_values.
Context {E : Type} {HE : Engine E} {HL : LocalEngine E} {X Y : Type}.
Context (cfg : config X Y) (value : goValue X) (target : goTarget Y) (payload : bytes).

(** The selected codec reads back what it wrote, and is the codec found
    under its own name. *)
Hypothesis marshals : codec_Marshal (cfg_codec cfg) value = Ok payload.
Hypothesis unmarshals : codec_Unmarshal (cfg_codec cfg) payload target = Ok value.
Hypothesis registered : cfg_codecs cfg !! codec_Name (cfg_codec cfg) = Some (cfg_codec cfg).
Hypothesis short_name : (Z.of_nat (length (codec_Name (cfg_codec cfg))) ≤ 65535)%Z.

Lemma wp_Put_untimed readings key m Q :
  key ≠ [] → short key →
  (∀ data, unmarshalEnvelope data = Ok (mkEnvelope 0 (codec_Name (cfg_codec cfg)) payload) →
    Q (Ok tt) (<[valueKey key := data]> (without key m))) →
  wp readings (Put cfg key value []) Q m.
Proof using marshals short_name.
  intros Hk Hs HQ. unfold Put, encodeValue. rewrite bool_decide_eq_false_2 by done.
  wp_step. apply wp_ensureOpen. wp_steps. cbn [applyPutOptions]. wp_steps.
  rewrite marshals. wp_steps. apply wp_expiryFor. simpl. intros e [[_ ->]|[? _]]; [|lia]. wp_steps.
  rewrite marshalEnvelope_ok by done. wp_steps.
  apply wp_replaceLogicalValue; [done|]. apply HQ.
  eapply unmarshal_marshal; [unfold minInt64, maxInt64; lia|].
  by apply marshalEnvelope_ok.
Qed.

Lemma wp_get_alive readings sk data v m Q :
  m !! sk = Some data → unmarshalEnvelope data = Ok v → alive readings (env_expiresAt v) →
  env_codec v = codec_Name (cfg_codec cfg) → env_payload v = payload →
  Q (Ok value) m → wp readings (get cfg sk target) Q m.
Proof using unmarshals registered.
  intros Hm Hd Ha Hc Hp HQ. unfold get, decode. wp_step. apply wp_ensureOpen. wp_steps.
  rewrite Hm. wp_steps. rewrite Hd. wp_steps. apply wp_isExpired_alive; [done|]. wp_steps.
  rewrite Hc, registered, Hp. cbn. by rewrite unmarshals.
Qed.

(** A typed value written without TTL is returned equal by every later
    read, at any clock, on any healthy engine. *)
Theorem typed_put_get (env1 env2 : Env) (w : World E) key :
  env_ctx env1 = Background → env_ctx env2 = Background → healthy w →
  key ≠ [] → short key →
  (run env1 (Put cfg key value []) w).1 = Ok tt
  ∧ (run env2 (Get cfg key target) (run env1 (Put cfg key value []) w).2).1 = Ok value.
Proof using marshals registered short_name unmarshals.
  intros Hc1 Hc2 Hw Hk Hs.
  edestruct (wp_sound (λ _, True) env1 (Put cfg key value [])
    (λ r m', r = Ok tt ∧ ∃ data, m' !! valueKey key = Some data
      ∧ unmarshalEnvelope data
        = Ok (mkEnvelope 0 (codec_Name (cfg_codec cfg)) payload)) w)
    as [(Hr & data & Hm & Hd) Hh]; auto.
  { apply wp_Put_untimed; auto. intros data Hd. split; [done|]. exists data.
    by rewrite lookup_insert_eq. }
  split; [done|].
  edestruct (wp_sound (λ _, True) env2 (Get cfg key target)
    (λ r _, r = Ok value) (run env1 (Put cfg key value []) w).2) as [H _]; auto.
  unfold Get. rewrite bool_decide_eq_false_2 by done.
  eapply wp_get_alive; eauto. by left.
Qed.
End typed_values.

Lemma typed_put_get_witness :
  (run (clock_at 7) (Put bytes_config ⟦"k"⟧ (GoBytes ⟦"v"⟧) []) mem_world).1 = Ok tt
  ∧ (run (clock_at 9) (Get bytes_config ⟦"k"⟧ (TargetBytes false))
       (run (clock_at 7) (Put bytes_config ⟦"k"⟧ (GoBytes ⟦"v"⟧) []) mem_world).2).1
    = Ok (GoBytes ⟦"v"⟧).
Proof.
  apply (typed_put_get bytes_config (GoBytes ⟦"v"⟧) (TargetBytes false) ⟦"v"⟧);
    first [reflexivity | discriminate | exact mem_world_healthy
          | vm_compute; discriminate | vm_compute; reflexivity].
Defined.
