(* ===== verification/Collections.v ===== *)
(** * Hashes, sets and lists ([collections.go])

    Hash fields and set members are one record each under a namespaced key; a
    list is one record. Counting operations return the count reached and the
    error that stopped them, as the Go signatures do. *)

From S2P Require Import Prelude Errors Engine Effects Envelope Keys ListCodec Text DriverName DB.

Abbreviation counted := (Z * option GoError)%type.

(** The common loop of [HDelete], [SAdd] and [SRemove]: [step] handles one
    item and says whether it counts; the first error ends the loop. *)
Fixpoint count_loop (step : bytes → M bool) (items : list bytes) (n : Z) : M counted :=
  match items with
  | [] => mret (n, None)
  | item :: items =>
      r ← attempt (step item);
      match r with
      | inl e => mret (n, Some e)
      | inr true => count_loop step items (wrap64 (n + 1))
      | inr false => count_loop step items n
      end
  end.

(** Prefer the engine's owner-side operation, fall back on the local loop when
    it is unsupported. *)
Definition owner_side (remote : M Z) (unsupported : sentinel) (local : M counted)
    : M counted :=
  r ← attempt remote;
  match r with
  | inr n => mret (n, None)
  | inl e => if errors_Is e unsupported then local else mret (0%Z, Some e)
  end.

Definition when_open (body : M counted) : M counted :=
  o ← attempt ensureOpen;
  match o with
  | inl e => mret (0%Z, Some e)
  | inr _ => body
  end.

Definition HDelete_step (name field : bytes) : M bool :=
  let key := namespacedKey kindHash name field in
  data ← engineGet key;
  match data with
  | None => mret false
  | Some _ => _ ← engineDelete key; mret true
  end.

Definition HDelete (name : bytes) (fields : list bytes) : M counted :=
  when_open (owner_side (engineDeleteHashFields name fields) errAtomicHashDeleteUnsupported
    (count_loop (HDelete_step name) fields 0)).

Definition SAdd_step (name member : bytes) : M bool :=
  let key := namespacedKey kindSet name member in
  data ← engineGet key;
  match data with
  | Some _ => mret false
  | None => _ ← enginePut key [Byte.x01]; mret true
  end.

Definition SAdd (name : bytes) (members : list bytes) : M counted :=
  when_open (owner_side (engineAddSet name members) errAtomicSetAddUnsupported
    (count_loop (SAdd_step name) members 0)).

Definition SRemove_step (name member : bytes) : M bool :=
  let key := namespacedKey kindSet name member in
  data ← engineGet key;
  match data with
  | None => mret false
  | Some _ => _ ← engineDelete key; mret true
  end.

Definition SRemove (name : bytes) (members : list bytes) : M counted :=
  when_open (owner_side (engineRemoveSet name members) errAtomicSetRemoveUnsupported
    (count_loop (SRemove_step name) members 0)).

Definition SContains (name member : bytes) : M bool :=
  _ ← ensureOpen;
  data ← engineGet (namespacedKey kindSet name member);
  mret (bool_decide (is_Some data)).

(** The members collected before an error are returned with it. *)
Definition SMembers (name : bytes) : M (list bytes * option GoError) :=
  _ ← ensureOpen;
  let pfx := namespacePrefix kindSet name in
  '(items, err) ← engineScanAll pfx;
  mret (sort_strings ((λ kv, drop (length pfx) kv.1) <$> items), err).

Definition readList (key : bytes) : M (list bytes) :=
  data ← engineGet key;
  match data with
  | None => mret []
  | Some data => lift (decodeList data)
  end.

Definition writeList (key : bytes) (items : list bytes) : M unit :=
  enginePut key (encodeList items).

Definition pushEncodedList (key : bytes) (encoded : list bytes) (onLeft : bool) : M Z :=
  r ← attempt (enginePushList key encoded onLeft);
  match r with
  | inr length => mret length
  | inl e =>
      if errors_Is e errAtomicListPushUnsupported then
        items ← readList key;
        let items := if onLeft then encoded ++ items else items ++ encoded in
        _ ← writeList key items;
        mret (Z.of_nat (length items))
      else throw e
  end.

Section typed.
Context {X Y : Type}.
Implicit Types (cfg : config X Y) (target : goTarget Y).

Definition HSet cfg (name field : bytes) (value : goValue X)
    (options : list (option PutOption)) : M unit :=
  if bool_decide (name = [] ∨ field = [])
  then throw (errorf ErrInvalidArgument ⟦"hash name and field are required"⟧)
  else put cfg (namespacedKey kindHash name field) value options.

Definition HGet cfg (name field : bytes) target : M (goValue X) :=
  get cfg (namespacedKey kindHash name field) target.

(** [elem] is the decode target for one map element; [None] stands for a
    target that is not a non-nil pointer to [map[string]T]. *)
Definition HGetAll cfg (name : bytes) (elem : option (goTarget Y))
    : M (gmap bytes (goValue X)) :=
  _ ← ensureOpen;
  match elem with
  | None =>
      throw (errorf ErrInvalidArgument
               ⟦"HGetAll target must be a non-nil pointer to map[string]T"⟧)
  | Some target =>
      let pfx := namespacePrefix kindHash name in
      '(result, expired) ← engineScan pfx
        (λ kv '(result, expired),
           r ← attempt (decode cfg kv.2 target);
           match r with
           | inr v => mret (<[drop (length pfx) kv.1 := v]> result, expired)
           | inl e => if errors_Is e ErrNotFound
                      then mret (result, expired ++ [kv.1])
                      else throw e
           end) (∅, []);
      _ ← for_each expired (λ key _, ignore (engineDelete key)) tt;
      mret result
  end.

Fixpoint encode_values cfg (values : list (goValue X)) : result (list bytes) :=
  match values with
  | [] => Ok []
  | value :: values =>
      match codec_Marshal (cfg_codec cfg) value with
      | Ok payload =>
          match marshalEnvelope (codec_Name (cfg_codec cfg)) payload 0 with
          | Ok item =>
              match encode_values cfg values with
              | Ok items => Ok (item :: items)
              | Err e => Err e
              | Panic => Panic
              end
          | Err e => Err e
          | Panic => Panic
          end
      | Err e => Err e
      | Panic => Panic
      end
  end.

Definition push cfg (name : bytes) (onLeft : bool) (values : list (goValue X)) : M Z :=
  _ ← ensureOpen;
  encoded ← lift (encode_values cfg values);
  pushEncodedList (listKey name) encoded onLeft.

Definition RPush cfg (name : bytes) (values : list (goValue X)) : M Z :=
  push cfg name false values.

Definition LPush cfg (name : bytes) (values : list (goValue X)) : M Z :=
  push cfg name true values.

Definition LRange cfg (name : bytes) (start stop : Z) (elem : option (goTarget Y))
    : M (list (goValue X)) :=
  _ ← ensureOpen;
  match elem with
  | None =>
      throw (errorf ErrInvalidArgument ⟦"LRange target must be a non-nil pointer to []T"⟧)
  | Some target =>
      items ← readList (listKey name);
      let '(first, last, ok) := normalizeRange (Z.of_nat (length items)) start stop in
      if ok : bool then
        for_each (range_slice items first last)
          (λ item result, v ← decode cfg item target; mret (result ++ [v])) []
      else mret []
  end.
End typed.

(** ** Lemmas *)

(** The abstract set a name denotes. *)
Definition set_of (m : gmap bytes bytes) (name : bytes) : gset bytes :=
  list_to_set ((λ kv, drop (length (namespacePrefix kindSet name)) kv.1)
    <$> matches m (namespacePrefix kindSet name)).

Lemma drop_namespaced kind name x :
  drop (length (namespacePrefix kind name)) (namespacedKey kind name x) = x.
Proof. unfold namespacedKey. by rewrite drop_app_length. Qed.

Lemma namespacedKey_inj kind name x y :
  namespacedKey kind name x = namespacedKey kind name y → x = y.
Proof. unfold namespacedKey. apply app_inv_head. Qed.

(** The members a scan delivers are those with a record. *)
Lemma elem_of_scan_members m kind name items x :
  items ≡ₚ matches m (namespacePrefix kind name) →
  x ∈ (λ kv, drop (length (namespacePrefix kind name)) kv.1) <$> items
  ↔ is_Some (m !! namespacedKey kind name x).
Proof.
  intros Hp. rewrite Hp, list_elem_of_fmap. split.
  - intros ([k v] & -> & [Hm Hpf]%elem_of_matches).
    apply has_prefix_namespace in Hpf as [y ->]. cbn [fst]. rewrite drop_namespaced. eauto.
  - intros [v Hv]. exists (namespacedKey kind name x, v). cbn [fst].
    rewrite drop_namespaced, elem_of_matches, has_prefix_namespace. eauto.
Qed.

Lemma scan_members_NoDup m kind name items :
  items ≡ₚ matches m (namespacePrefix kind name) →
  NoDup ((λ kv, drop (length (namespacePrefix kind name)) kv.1) <$> items).
Proof.
  intros Hp. rewrite Hp. clear items Hp.
  pose proof (matches_NoDup m (namespacePrefix kind name)) as Hnd.
  assert (Forall (λ kv, has_prefix (namespacePrefix kind name) kv.1 = true)
            (matches m (namespacePrefix kind name))) as Hall.
  { apply Forall_forall. intros [k v] Hin.
    by apply elem_of_matches in Hin as [_ ?]. }
  induction Hall as [|[k v] l Hk Hall IH]; [constructor|].
  cbn in Hnd. apply NoDup_cons in Hnd as [Hk' Hnd]. rewrite fmap_cons. constructor; auto.
  intros ([k2 v2] & Heq & Hin)%list_elem_of_fmap. cbn [fst] in Heq, Hk.
  rewrite Forall_forall in Hall.
  pose proof (Hall (k2, v2) Hin) as Hk2. cbn [fst] in Hk2.
  apply has_prefix_namespace in Hk as [x ->], Hk2 as [y ->].
  rewrite !drop_namespaced in Heq. subst y. apply Hk'.
  apply list_elem_of_fmap. by exists (namespacedKey kind name x, v2).
Qed.

Lemma elem_of_set_of m name x :
  x ∈ set_of m name ↔ is_Some (m !! namespacedKey kindSet name x).
Proof. unfold set_of. rewrite elem_of_list_to_set. by apply elem_of_scan_members. Qed.

Lemma set_of_insert m name x v :
  set_of (<[namespacedKey kindSet name x := v]> m) name = {[x]} ∪ set_of m name.
Proof.
  apply set_eq. intros y. rewrite elem_of_union, elem_of_singleton, !elem_of_set_of.
  destruct (decide (y = x)) as [->|Hne].
  - rewrite lookup_insert_eq. split; eauto.
  - rewrite lookup_insert_ne by (intros ?%namespacedKey_inj; congruence). tauto.
Qed.

Lemma set_of_delete m name x :
  set_of (delete (namespacedKey kindSet name x) m) name = set_of m name ∖ {[x]}.
Proof.
  apply set_eq. intros y. rewrite elem_of_difference, elem_of_singleton, !elem_of_set_of.
  destruct (decide (y = x)) as [->|Hne].
  - rewrite lookup_delete_eq. split; [by intros []|tauto].
  - rewrite lookup_delete_ne by (intros ?%namespacedKey_inj; congruence). tauto.
Qed.

(** Records outside the namespace of a set are untouched. *)
Definition same_outside (pfx : bytes) (m m' : gmap bytes bytes) : Prop :=
  ∀ sk, has_prefix pfx sk = false → m' !! sk = m !! sk.

Lemma namespaced_has_prefix kind name x :
  has_prefix (namespacePrefix kind name) (namespacedKey kind name x) = true.
Proof. apply has_prefix_namespace. eauto. Qed.

Lemma same_outside_insert kind name x v m m' :
  same_outside (namespacePrefix kind name) (<[namespacedKey kind name x := v]> m) m' →
  same_outside (namespacePrefix kind name) m m'.
Proof.
  intros H sk Hsk. rewrite H by done. rewrite lookup_insert_ne; [done|].
  intros <-. by rewrite namespaced_has_prefix in Hsk.
Qed.

Lemma same_outside_delete kind name x m m' :
  same_outside (namespacePrefix kind name) (delete (namespacedKey kind name x) m) m' →
  same_outside (namespacePrefix kind name) m m'.
Proof.
  intros H sk Hsk. rewrite H by done. rewrite lookup_delete_ne; [done|].
  intros <-. by rewrite namespaced_has_prefix in Hsk.
Qed.

Lemma wp_SAdd_loop readings name members n m Q :
  (0 ≤ n)%Z → (n + Z.of_nat (length members) ≤ maxInt64)%Z →
  (∀ m', set_of m' name = set_of m name ∪ list_to_set members →
    same_outside (namespacePrefix kindSet name) m m' →
    Q (Ok (n + Z.of_nat (size (set_of m' name)) - Z.of_nat (size (set_of m name)), None)%Z)
      m') →
  wp readings (count_loop (SAdd_step name) members n) Q m.
Proof.
  revert n m. induction members as [|x members IH]; intros n m Hn Hmax HQ;
    cbn [count_loop].
  - wp_steps. replace n with
      (n + Z.of_nat (size (set_of m name)) - Z.of_nat (size (set_of m name)))%Z by lia.
    apply HQ; [simpl; set_solver|done].
  - rewrite length_cons in Hmax. wp_steps. unfold SAdd_step at 1. wp_steps.
    destruct (m !! namespacedKey kindSet name x) as [v|] eqn:Hx; wp_steps.
    + assert (x ∈ set_of m name) as Hin by (apply elem_of_set_of; eauto).
      apply IH; [lia..|]. intros m' Hs. apply HQ. rewrite Hs. simpl. set_solver.
    + assert (x ∉ set_of m name) as Hin
        by (rewrite elem_of_set_of, Hx; by intros []).
      rewrite wrap64_id by (unfold minInt64; lia).
      apply IH; [lia..|]. rewrite set_of_insert. intros m' Hs Ho.
      rewrite size_union, size_singleton by set_solver.
      replace (n + 1 + _ - _)%Z
        with (n + Z.of_nat (size (set_of m' name)) - Z.of_nat (size (set_of m name)))%Z
        by lia.
      apply HQ; [rewrite Hs; simpl; set_solver|by eapply same_outside_insert].
Qed.

Lemma wp_SRemove_loop readings name members n m Q :
  (0 ≤ n)%Z → (n + Z.of_nat (length members) ≤ maxInt64)%Z →
  (∀ m', set_of m' name = set_of m name ∖ list_to_set members →
    same_outside (namespacePrefix kindSet name) m m' →
    Q (Ok (n + Z.of_nat (size (set_of m name)) - Z.of_nat (size (set_of m' name)), None)%Z)
      m') →
  wp readings (count_loop (SRemove_step name) members n) Q m.
Proof.
  revert n m. induction members as [|x members IH]; intros n m Hn Hmax HQ;
    cbn [count_loop].
  - wp_steps. replace n with
      (n + Z.of_nat (size (set_of m name)) - Z.of_nat (size (set_of m name)))%Z by lia.
    apply HQ; [simpl; set_solver|done].
  - rewrite length_cons in Hmax. wp_steps. unfold SRemove_step at 1. wp_steps.
    destruct (m !! namespacedKey kindSet name x) as [v|] eqn:Hx; wp_steps.
    + assert (x ∈ set_of m name) as Hin by (apply elem_of_set_of; eauto).
      rewrite wrap64_id by (unfold minInt64; lia).
      apply IH; [lia..|]. rewrite set_of_delete. intros m' Hs Ho.
      assert (size (set_of m name) = S (size (set_of m name ∖ {[x]}))) as Hsz.
      { rewrite size_difference, size_singleton by set_solver.
        assert (size (set_of m name) ≠ 0); [|lia].
        rewrite size_non_empty_iff. set_solver. }
      replace (n + 1 + _ - _)%Z
        with (n + Z.of_nat (size (set_of m name)) - Z.of_nat (size (set_of m' name)))%Z
        by lia.
      apply HQ; [rewrite Hs; simpl; set_solver|by eapply same_outside_delete].
    + assert (x ∉ set_of m name) as Hin
        by (rewrite elem_of_set_of, Hx; by intros []).
      apply IH; [lia..|]. intros m' Hs. apply HQ. rewrite Hs. simpl. set_solver.
Qed.

(** ** Properties *)

(** [SAdd] is set union: afterwards the set holds the old members and the
    given ones, the count returned is exactly the number of new members
    (duplicates in the arguments count once), and no record outside the set's
    namespace changes. *)
Theorem sadd_is_union name members :
  (Z.of_nat (length members) ≤ maxInt64)%Z →
  triple (λ _, True) (λ _, True) (SAdd name members)
    (λ m r m',
       set_of m' name = set_of m name ∪ list_to_set members
       ∧ r = Ok (Z.of_nat (size (set_of m' name)) - Z.of_nat (size (set_of m name)), None)%Z
       ∧ same_outside (namespacePrefix kindSet name) m m').
Proof.
  intros Hlen. apply triple_intro. intros m _. unfold SAdd, when_open, owner_side.
  wp_steps. apply wp_ensureOpen. wp_steps. cbn [errors_Is].
  rewrite bool_decide_eq_true_2 by done. apply wp_SAdd_loop; [lia..|].
  intros m' Hs Ho. rewrite Z.add_0_l. done.
Qed.

Lemma sadd_is_union_witness :
  (Z.of_nat (length [⟦"a"⟧; ⟦"b"⟧; ⟦"a"⟧]) ≤ maxInt64)%Z
  ∧ triple (λ _, True) (λ _, True) (SAdd ⟦"s"⟧ [⟦"a"⟧; ⟦"b"⟧; ⟦"a"⟧])
      (λ m r m',
         set_of m' ⟦"s"⟧ = set_of m ⟦"s"⟧ ∪ list_to_set [⟦"a"⟧; ⟦"b"⟧; ⟦"a"⟧]
         ∧ r = Ok (Z.of_nat (size (set_of m' ⟦"s"⟧)) - Z.of_nat (size (set_of m ⟦"s"⟧)), None)%Z
         ∧ same_outside (namespacePrefix kindSet ⟦"s"⟧) m m').
Proof.
  assert (Z.of_nat (length [⟦"a"⟧; ⟦"b"⟧; ⟦"a"⟧]) ≤ maxInt64)%Z as H
    by (vm_compute; discriminate).
  split; [exact H|exact (sadd_is_union _ _ H)].
Defined.

(** [SRemove] is set difference, and counts the members that were present. *)
Theorem sremove_is_difference name members :
  (Z.of_nat (length members) ≤ maxInt64)%Z →
  triple (λ _, True) (λ _, True) (SRemove name members)
    (λ m r m',
       set_of m' name = set_of m name ∖ list_to_set members
       ∧ r = Ok (Z.of_nat (size (set_of m name)) - Z.of_nat (size (set_of m' name)), None)%Z
       ∧ same_outside (namespacePrefix kindSet name) m m').
Proof.
  intros Hlen. apply triple_intro. intros m _. unfold SRemove, when_open, owner_side.
  wp_steps. apply wp_ensureOpen. wp_steps. cbn [errors_Is].
  rewrite bool_decide_eq_true_2 by done. apply wp_SRemove_loop; [lia..|].
  intros m' Hs Ho. rewrite Z.add_0_l. done.
Qed.

Lemma sremove_is_difference_witness :
  (Z.of_nat (length [⟦"a"⟧]) ≤ maxInt64)%Z
  ∧ triple (λ _, True) (λ _, True) (SRemove ⟦"s"⟧ [⟦"a"⟧])
      (λ m r m',
         set_of m' ⟦"s"⟧ = set_of m ⟦"s"⟧ ∖ list_to_set [⟦"a"⟧]
         ∧ r = Ok (Z.of_nat (size (set_of m ⟦"s"⟧)) - Z.of_nat (size (set_of m' ⟦"s"⟧)), None)%Z
         ∧ same_outside (namespacePrefix kindSet ⟦"s"⟧) m m').
Proof.
  assert (Z.of_nat (length [⟦"a"⟧]) ≤ maxInt64)%Z as H by (vm_compute; discriminate).
  split; [exact H|exact (sremove_is_difference _ _ H)].
Defined.

(** [SMembers] returns every member exactly once in increasing byte order,
    whatever order the engine scans in, and [SContains] agrees with it. *)
Theorem smembers_sorted_exact name member :
  triple (λ _, True) (λ _, True)
    (l ← SMembers name; b ← SContains name member; mret (l, b))
    (λ m r m', m' = m ∧ ∃ members,
       r = Ok (members, None, bool_decide (member ∈ members))
       ∧ Sorted bytes_le members ∧ NoDup members
       ∧ list_to_set members = set_of m name).
Proof.
  apply triple_intro. intros m _. unfold SMembers, SContains. wp_steps.
  apply wp_ensureOpen. wp_steps. apply wp_ensureOpen. wp_steps. split; [done|].
  set (l := (λ kv : bytes * bytes, drop (length (namespacePrefix kindSet name)) kv.1) <$> items).
  exists (sort_strings l). split_and!.
  - do 2 f_equal. apply bool_decide_ext. rewrite sort_strings_perm.
    symmetry. by apply elem_of_scan_members.
  - apply sort_strings_sorted.
  - rewrite sort_strings_perm. by eapply scan_members_NoDup.
  - apply set_eq. intros x. rewrite elem_of_list_to_set, sort_strings_perm, elem_of_set_of.
    by apply elem_of_scan_members.
Qed.
