(* ===== verification/Transport.v ===== *)
(** * The protocol store ([transport.go])

    The record view a protocol extension gets of an open handle: every access
    checks that the handle is open, then goes to the engine. The class
    [ProtocolStore] is the Go interface of that name, less the mutex pair
    [Lock]/[Unlock]: what runs between them is a critical section, made one
    by [between_locks] of [Calls]. The instance is [dbProtocol]. *)

From S2P Require Import Prelude Errors Engine Effects Envelope Keys ListCodec Text DriverName DB Collections.

Definition transport_Get (key : bytes) : M (option bytes) :=
  _ ← ensureOpen; engineGet key.

Definition transport_Put (key value : bytes) : M unit :=
  _ ← ensureOpen; enginePut key value.

Definition transport_Delete (key : bytes) : M unit :=
  _ ← ensureOpen; engineDelete key.

Definition transport_ScanPrefix {S} (pfx : bytes) (callback : bytes * bytes → S → M S) (s : S)
    : M S :=
  _ ← ensureOpen; engineScan pfx callback s.

Definition transport_PushList (key : bytes) (items : list bytes) (onLeft : bool) : M Z :=
  _ ← ensureOpen; pushEncodedList key items onLeft.

Class ProtocolStore := {
  store_Get : bytes → M (option bytes);
  store_Put : bytes → bytes → M unit;
  store_Delete : bytes → M unit;
  store_ScanPrefix : ∀ {S}, bytes → (bytes * bytes → S → M S) → S → M S;
  store_PushList : bytes → list bytes → bool → M Z;
  store_Now : M Z;
  store_DeleteLogicalKey : bytes → M bool;
  store_ValueKey : bytes → bytes;
  store_HashKey : bytes → bytes → bytes;
  store_HashPrefix : bytes → bytes;
  store_SetKey : bytes → bytes → bytes;
  store_SetPrefix : bytes → bytes;
  store_ListKey : bytes → bytes;
  store_CollectionTTLKey : bytes → bytes;
  store_LogicalKey : bytes → option bytes;
  store_EncodeRecord : bytes → bytes → Z → result bytes;
  store_DecodeRecord : bytes → result StoredValue;
  store_EncodeList : list bytes → bytes;
  store_DecodeList : bytes → result (list bytes)
}.

Definition protocol_DeleteLogicalKey (key : bytes) : M bool :=
  _ ← ensureOpen; deleteLogicalKey key.

Definition protocol_DecodeRecord (data : bytes) : result StoredValue :=
  match unmarshalEnvelope data with
  | Ok value => Ok (mkStored (env_codec value) (env_payload value) (env_expiresAt value))
  | Err e => Err e
  | Panic => Panic
  end.

#[global] Instance dbProtocol : ProtocolStore := {
  store_Get := transport_Get;
  store_Put := transport_Put;
  store_Delete := transport_Delete;
  store_ScanPrefix := @transport_ScanPrefix;
  store_PushList := transport_PushList;
  store_Now := nowTime;
  store_DeleteLogicalKey := protocol_DeleteLogicalKey;
  store_ValueKey := valueKey;
  store_HashKey := namespacedKey kindHash;
  store_HashPrefix := namespacePrefix kindHash;
  store_SetKey := namespacedKey kindSet;
  store_SetPrefix := namespacePrefix kindSet;
  store_ListKey := listKey;
  store_CollectionTTLKey := collectionTTLKey;
  store_LogicalKey := logicalKeyFromStorage;
  store_EncodeRecord := marshalEnvelope;
  store_DecodeRecord := protocol_DecodeRecord;
  store_EncodeList := encodeList;
  store_DecodeList := decodeList
}.
