(* ===== verification/Resp.v ===== *)
(** * The RESP wire format ([extensions/redis/resp.go])

    A connection is the sequence of bytes still to come and the error its end
    reports ([io.EOF] for an orderly close). Readers return the value and the
    unread bytes; writers return the bytes written and the error that stopped
    them. Failures of the connection while writing are outside the model. *)

From S2P Require Import Prelude Errors Engine Effects Text.

Definition respSimple : Byte.byte := "+".
Definition respError : Byte.byte := "-".
Definition respInteger : Byte.byte := ":".
Definition respBulk : Byte.byte := "$".
Definition respArray : Byte.byte := "*".
Definition respMap : Byte.byte := "%".

Definition maxRESPLine : Z := Z.shiftl 1 20.
Definition maxRESPBulk : Z := Z.shiftl 64 20.
Definition maxRESPArgs : Z := 1024.

Definition CR : Byte.byte := Byte.x0d.
Definition LF : Byte.byte := Byte.x0a.
Definition CRLF : bytes := [CR; LF].

Inductive respValue :=
  Resp (kind : Byte.byte) (data : bytes) (value : Z) (items : list respValue) (null : bool).

Definition resp_kind (v : respValue) : Byte.byte := let 'Resp k _ _ _ _ := v in k.
Definition resp_data (v : respValue) : bytes := let 'Resp _ d _ _ _ := v in d.
Definition resp_value (v : respValue) : Z := let 'Resp _ _ z _ _ := v in z.
Definition resp_items (v : respValue) : list respValue := let 'Resp _ _ _ l _ := v in l.
Definition resp_null (v : respValue) : bool := let 'Resp _ _ _ _ n := v in n.

Definition respSimpleString (value : bytes) : respValue := Resp respSimple value 0 [] false.
Definition respErrorString (value : bytes) : respValue := Resp respError value 0 [] false.
Definition respIntegerValue (value : Z) : respValue := Resp respInteger [] value [] false.
Definition respBulkBytes (value : bytes) : respValue := Resp respBulk value 0 [] false.
Definition respBulkString (value : bytes) : respValue := respBulkBytes value.
Definition respNil : respValue := Resp respBulk [] 0 [] true.
Definition respArrayValues (items : list respValue) : respValue :=
  Resp respArray [] 0 items false.
Definition respMapValues (items : list respValue) : respValue := Resp respMap [] 0 items false.

(** ** Reading *)

(** [bufio.Reader.ReadBytes('\n')]: up to and including the delimiter. *)
Fixpoint read_bytes_LF (s : bytes) : option (bytes * bytes) :=
  match s with
  | [] => None
  | c :: s =>
      if bool_decide (c = LF) then Some ([c], s)
      else '(line, rest) ← read_bytes_LF s; Some (c :: line, rest)
  end.

(** The error of [strconv.ParseInt]. *)
Definition parse_int_error {GT : GoText} (s : bytes) : GoError :=
  ENew (⟦"strconv.ParseInt: parsing "⟧ ++ strconv_Quote s ++
        match parse_big s with
        | Some _ => ⟦": value out of range"⟧
        | None => ⟦": invalid syntax"⟧
        end).

Section reader.
Context {GT : GoText} (ending : GoError).

Definition readRESPLine (s : bytes) : result (bytes * bytes) :=
  match read_bytes_LF s with
  | None => Err ending
  | Some (line, rest) =>
      if bool_decide (length line < 2 ∨ line !! (length line - 2) ≠ Some CR)
      then Err (ENew ⟦"redis: malformed CRLF"⟧)
      else
        let line := take (length line - 2) line in
        if bool_decide (maxRESPLine < Z.of_nat (length line))%Z
        then Err (ENew ⟦"redis: line too long"⟧)
        else Ok (line, rest)
  end.

Definition readRESPLineAfterPrefix (s : bytes) (prefix_byte : Byte.byte)
    : result (bytes * bytes) :=
  match readRESPLine s with
  | Ok (line, rest) => Ok (prefix_byte :: line, rest)
  | Err e => Err e
  | Panic => Panic
  end.

Definition readRESPInt (s : bytes) : result (Z * bytes) :=
  match readRESPLine s with
  | Ok (line, rest) =>
      match parse_int 32 line with
      | Some value => Ok (value, rest)
      | None => Err (wrapf ⟦"redis: invalid length: "⟧ (parse_int_error line))
      end
  | Err e => Err e
  | Panic => Panic
  end.

(** [io.ReadFull] of [n] bytes. *)
Definition read_full (n : nat) (s : bytes) : result (bytes * bytes) :=
  if bool_decide (n ≤ length s) then Ok (take n s, drop n s)
  else if bool_decide (s ≠ [] ∧ ending = ESentinel ioEOF)
  then Err (ESentinel ioErrUnexpectedEOF)
  else Err ending.

Definition expectCRLF (s : bytes) : result bytes :=
  match read_full 2 s with
  | Ok (suffix, rest) =>
      if bool_decide (suffix = CRLF) then Ok rest
      else Err (ENew ⟦"redis: malformed bulk terminator"⟧)
  | Err e => Err e
  | Panic => Panic
  end.

(** The element loop of arrays and maps, given the reader of one value. *)
Fixpoint read_items (read : bytes → result (respValue * bytes)) (nullError : bytes)
    (count : nat) (s : bytes) : result (list respValue * bytes) :=
  match count with
  | O => Ok ([], s)
  | S count =>
      match read s with
      | Ok (item, rest) =>
          if resp_null item then Err (ENew nullError)
          else match read_items read nullError count rest with
               | Ok (items, rest) => Ok (item :: items, rest)
               | Err e => Err e
               | Panic => Panic
               end
      | Err e => Err e
      | Panic => Panic
      end
  end.

(** Arrays and maps: [per] values for each counted element. *)
Definition read_aggregate (read : bytes → result (respValue * bytes)) (kind : Byte.byte)
    (per : nat) (what nullError : bytes) (s : bytes) : result (respValue * bytes) :=
  match readRESPInt s with
  | Ok (count, rest) =>
      if bool_decide (count < 0 ∨ maxRESPArgs < count)%Z
      then Err (ENew (⟦"redis: invalid "⟧ ++ what ++ ⟦" length "⟧ ++ format_int count))
      else match read_items read nullError (Z.to_nat count * per) rest with
           | Ok (items, rest) => Ok (Resp kind [] 0 items false, rest)
           | Err e => Err e
           | Panic => Panic
           end
  | Err e => Err e
  | Panic => Panic
  end.

Definition read_bulk (s : bytes) : result (respValue * bytes) :=
  match readRESPInt s with
  | Ok (count, rest) =>
      if bool_decide (count = -1)%Z then Ok (Resp respBulk [] 0 [] true, rest)
      else if bool_decide (count < 0 ∨ maxRESPBulk < count)%Z
      then Err (ENew (⟦"redis: invalid bulk length "⟧ ++ format_int count))
      else match read_full (Z.to_nat count) rest with
           | Ok (data, rest) =>
               match expectCRLF rest with
               | Ok rest => Ok (Resp respBulk data 0 [] false, rest)
               | Err e => Err e
               | Panic => Panic
               end
           | Err e => Err e
           | Panic => Panic
           end
  | Err e => Err e
  | Panic => Panic
  end.

Definition read_line_value (kind : Byte.byte) (s : bytes) : result (respValue * bytes) :=
  match readRESPLine s with
  | Ok (line, rest) =>
      if bool_decide (kind = respInteger) then
        match parse_int 64 line with
        | Some value => Ok (Resp respInteger [] value [] false, rest)
        | None => Err (wrapf ⟦"redis: invalid integer: "⟧ (parse_int_error line))
        end
      else Ok (Resp kind line 0 [] false, rest)
  | Err e => Err e
  | Panic => Panic
  end.

Definition read_inline (first : Byte.byte) (s : bytes) : result (respValue * bytes) :=
  match readRESPLineAfterPrefix s first with
  | Ok (line, rest) =>
      let parts := strings_Fields line in
      if bool_decide (parts = [] ∨ (maxRESPArgs < Z.of_nat (length parts))%Z)
      then Err (ENew ⟦"redis: invalid inline command"⟧)
      else Ok (Resp respArray [] 0 ((λ part, Resp respBulk part 0 [] false) <$> parts) false,
               rest)
  | Err e => Err e
  | Panic => Panic
  end.

(** [readRESP] with [fuel] nested calls at most; running out of fuel is
    [Panic]. *)
Fixpoint readRESP_fuel (fuel : nat) (s : bytes) : result (respValue * bytes) :=
  match fuel with
  | O => Panic
  | S fuel =>
      match s with
      | [] => Err ending
      | c :: s =>
          if bool_decide (c = respArray) then
            read_aggregate (readRESP_fuel fuel) respArray 1 ⟦"array"⟧
              ⟦"redis: null command argument"⟧ s
          else if bool_decide (c = respMap) then
            read_aggregate (readRESP_fuel fuel) respMap 2 ⟦"map"⟧
              ⟦"redis: null map member"⟧ s
          else if bool_decide (c = respBulk) then read_bulk s
          else if bool_decide (c = respSimple ∨ c = respError ∨ c = respInteger)
          then read_line_value c s
          else read_inline c s
      end
  end.

Definition readRESP (s : bytes) : result (respValue * bytes) :=
  readRESP_fuel (S (length s)) s.
End reader.

(** ** Writing *)

(** [bytes.ReplaceAll] of carriage returns and line feeds by nothing. *)
Definition strip_newlines (data : bytes) : bytes :=
  filter (λ c, c ≠ LF) (filter (λ c, c ≠ CR) data).

(** The element loop: stops at the first error. *)
Fixpoint write_all (outputs : list (bytes * option GoError)) : bytes * option GoError :=
  match outputs with
  | [] => ([], None)
  | (out, Some e) :: _ => (out, Some e)
  | (out, None) :: outputs =>
      let '(out', err) := write_all outputs in (out ++ out', err)
  end.

Fixpoint writeRESP {GT : GoText} (reply : respValue) : bytes * option GoError :=
  let 'Resp kind data value items null := reply in
  if bool_decide (kind = respSimple ∨ kind = respError) then
    (kind :: strip_newlines data ++ CRLF, None)
  else if bool_decide (kind = respInteger) then (⟦":"⟧ ++ format_int value ++ CRLF, None)
  else if bool_decide (kind = respBulk) then
    if null then (⟦"$-1"⟧ ++ CRLF, None)
    else (⟦"$"⟧ ++ format_int (Z.of_nat (length data)) ++ CRLF ++ data ++ CRLF, None)
  else if bool_decide (kind = respArray) then
    if null then (⟦"*-1"⟧ ++ CRLF, None)
    else
      let '(out, err) := write_all (writeRESP <$> items) in
      (⟦"*"⟧ ++ format_int (Z.of_nat (length items)) ++ CRLF ++ out, err)
  else if bool_decide (kind = respMap) then
    if null then (⟦"%-1"⟧ ++ CRLF, None)
    else if bool_decide (length items mod 2 ≠ 0)
    then ([], Some (ENew ⟦"redis: map requires key/value pairs"⟧))
    else
      let '(out, err) := write_all (writeRESP <$> items) in
      (⟦"%"⟧ ++ format_int (Z.of_nat (length items `div` 2)) ++ CRLF ++ out, err)
  else ([], Some (ENew (⟦"redis: unsupported response kind "⟧ ++ strconv_QuoteRune kind))).

(** ** Well-formed replies *)

Definition no_items (items : list respValue) : bool :=
  match items with [] => true | _ => false end.

(** Replies whose wire form a reader with the same limits accepts. *)
Fixpoint sendable (v : respValue) : bool :=
  let 'Resp kind data value items null := v in
  if bool_decide (kind = respSimple ∨ kind = respError) then
    no_items items && negb null && bool_decide (value = 0%Z)
    && bool_decide (Z.of_nat (length (strip_newlines data)) ≤ maxRESPLine)%Z
  else if bool_decide (kind = respInteger) then
    no_items items && negb null && bool_decide (data = []) && isInt64 value
  else if bool_decide (kind = respBulk) then
    no_items items && bool_decide (value = 0%Z)
    && (if null then bool_decide (data = [])
        else bool_decide (Z.of_nat (length data) ≤ maxRESPBulk)%Z)
  else if bool_decide (kind = respArray ∨ kind = respMap) then
    negb null && bool_decide (data = []) && bool_decide (value = 0%Z)
    && (if bool_decide (kind = respArray)
        then bool_decide (Z.of_nat (length items) ≤ maxRESPArgs)%Z
        else bool_decide (length items mod 2 = 0)
             && bool_decide (Z.of_nat (length items) ≤ 2 * maxRESPArgs)%Z)
    && forallb (λ item, negb (resp_null item) && sendable item) items
  else false.

(** What the peer reads: the reply with line breaks removed from its simple
    strings and errors. *)
Fixpoint sent (v : respValue) : respValue :=
  let 'Resp kind data value items null := v in
  Resp kind
    (if bool_decide (kind = respSimple ∨ kind = respError) then strip_newlines data else data)
    value (sent <$> items) null.

(** ** Lemmas *)

Section respValue_induction.
Context (P : respValue → Prop).
Context (HP : ∀ kind data value items null,
  Forall P items → P (Resp kind data value items null)).

Fixpoint respValue_ind' (v : respValue) : P v :=
  let 'Resp kind data value items null := v in
  HP kind data value items null
    ((fix go (l : list respValue) : Forall P l :=
        match l with
        | [] => List.Forall_nil P
        | x :: l => List.Forall_cons P x l (respValue_ind' x) (go l)
        end) items).
End respValue_induction.

Lemma read_bytes_LF_app l rest :
  LF ∉ l → read_bytes_LF (l ++ LF :: rest) = Some (l ++ [LF], rest).
Proof.
  induction l as [|c l IH]; intros Hl; cbn [app read_bytes_LF]; [done|].
  apply not_elem_of_cons in Hl as [Hc Hl].
  by rewrite bool_decide_eq_false_2, IH by congruence.
Qed.

Lemma read_bytes_LF_suffix s line rest :
  read_bytes_LF s = Some (line, rest) → rest `suffix_of` s.
Proof.
  revert line. induction s as [|c s IH]; intros line; simpl; [done|].
  case_bool_decide; [intros [= <- <-]; by exists [c]|].
  destruct (read_bytes_LF s) as [[l r]|]; [|done]. cbn.
  intros [= <- <-]. by apply suffix_cons_r, (IH l).
Qed.

(** A reader's result is safe for the bytes [s] it was given when it leaves a
    suffix of them, or reports an error; it never runs out of fuel. *)
Definition safe {A} (s : bytes) (r : result (A * bytes)) : Prop :=
  match r with
  | Ok (_, rest) => rest `suffix_of` s
  | Err _ => True
  | Panic => False
  end.

Lemma safe_weaken {A} s s' (r : result (A * bytes)) :
  safe s r → s `suffix_of` s' → safe s' r.
Proof. destruct r as [[a rest]| |]; simpl; auto. intros. by etrans. Qed.

Section reader_lemmas.
Context {GT : GoText} (ending : GoError).

Lemma readRESPLine_app l rest :
  LF ∉ l → (Z.of_nat (length l) ≤ maxRESPLine)%Z →
  readRESPLine ending (l ++ CRLF ++ rest) = Ok (l, rest).
Proof.
  intros Hl Hmax. unfold readRESPLine, CRLF.
  replace (l ++ [CR; LF] ++ rest) with ((l ++ [CR]) ++ LF :: rest)
    by by rewrite <-app_assoc.
  rewrite read_bytes_LF_app by (apply not_elem_of_app; split; [done|set_solver]).
  rewrite <-app_assoc. cbn [app].
  replace (length (l ++ [CR; LF]) - 2) with (length l) by (rewrite length_app; simpl; lia).
  rewrite bool_decide_eq_false_2.
  - rewrite take_app_length. by rewrite bool_decide_eq_false_2 by lia.
  - intros [H|H]; [rewrite length_app in H; simpl in H; lia|].
    apply H. by rewrite list_lookup_middle.
Qed.

Lemma readRESPLine_safe s : safe s (readRESPLine ending s).
Proof.
  unfold readRESPLine. destruct (read_bytes_LF s) as [[line rest]|] eqn:E; [|done].
  repeat case_bool_decide; simpl; try done. by eapply read_bytes_LF_suffix.
Qed.

Lemma readRESPInt_safe s : safe s (readRESPInt ending s).
Proof.
  unfold readRESPInt. pose proof (readRESPLine_safe s) as H.
  destruct (readRESPLine ending s) as [[line rest]| |]; try done.
  by destruct (parse_int 32 line).
Qed.

Lemma read_full_safe n s : safe s (read_full ending n s).
Proof. unfold read_full. repeat case_bool_decide; simpl; auto using suffix_drop. Qed.

Lemma expectCRLF_safe s :
  match expectCRLF ending s with
  | Ok rest => rest `suffix_of` s | Err _ => True | Panic => False end.
Proof.
  unfold expectCRLF. pose proof (read_full_safe 2 s) as H.
  destruct (read_full ending 2 s) as [[x rest]| |]; try done.
  by case_bool_decide.
Qed.

Lemma read_bulk_safe s : safe s (read_bulk ending s).
Proof.
  unfold read_bulk. pose proof (readRESPInt_safe s) as H.
  destruct (readRESPInt ending s) as [[n rest]| |]; try done.
  repeat case_bool_decide; try done. simpl in H.
  pose proof (read_full_safe (Z.to_nat n) rest) as H'.
  destruct (read_full ending (Z.to_nat n) rest) as [[d rest']| |]; try done.
  pose proof (expectCRLF_safe rest') as H''.
  destruct (expectCRLF ending rest'); try done. simpl in *. by repeat (etrans; [done|]).
Qed.

Lemma read_line_value_safe c s : safe s (read_line_value ending c s).
Proof.
  unfold read_line_value. pose proof (readRESPLine_safe s) as H.
  destruct (readRESPLine ending s) as [[line rest]| |]; try done.
  case_bool_decide; [|done]. by destruct (parse_int 64 line).
Qed.

Lemma read_inline_safe c s : safe s (read_inline ending c s).
Proof.
  unfold read_inline, readRESPLineAfterPrefix. pose proof (readRESPLine_safe s) as H.
  destruct (readRESPLine ending s) as [[line rest]| |]; try done.
  by case_bool_decide.
Qed.

Lemma read_items_safe read nullError count s :
  (∀ s', s' `suffix_of` s → safe s' (read s')) →
  safe s (read_items read nullError count s).
Proof.
  revert s. induction count as [|count IH]; intros s Hread; simpl; [done|].
  pose proof (Hread s ltac:(done)) as H.
  destruct (read s) as [[item rest]| |]; try done. destruct (resp_null item); [done|].
  simpl in H. assert (safe rest (read_items read nullError count rest)) as H'.
  { apply IH. intros s' Hs'. apply Hread. by etrans. }
  destruct (read_items read nullError count rest) as [[items rest']| |]; try done.
  simpl in *. by etrans.
Qed.

Lemma read_aggregate_safe read kind per what nullError s :
  (∀ s', s' `suffix_of` s → safe s' (read s')) →
  safe s (read_aggregate ending read kind per what nullError s).
Proof.
  intros Hread. unfold read_aggregate. pose proof (readRESPInt_safe s) as H.
  destruct (readRESPInt ending s) as [[n rest]| |]; try done.
  case_bool_decide; [done|]. simpl in H.
  assert (safe rest (read_items read nullError (Z.to_nat n * per) rest)) as H'.
  { apply read_items_safe. intros s' Hs'. apply Hread. by etrans. }
  destruct (read_items read nullError (Z.to_nat n * per) rest) as [[items rest']| |];
    try done. simpl in *. by etrans.
Qed.

(** With more fuel than bytes a read succeeds in leaving a strictly shorter
    suffix, or fails. *)
Lemma readRESP_fuel_safe fuel c s :
  length s < fuel → safe s (readRESP_fuel ending (S fuel) (c :: s)).
Proof.
  revert c s. induction fuel as [|fuel IH]; intros c s Hf; [lia|].
  assert (∀ s', s' `suffix_of` s → safe s' (readRESP_fuel ending (S fuel) s')) as Hread.
  { intros s' Hs'. apply suffix_length in Hs'. destruct s' as [|c' s']; [done|].
    apply (safe_weaken s'); [apply IH; simpl in Hs'; lia|by exists [c']]. }
  cbn [readRESP_fuel]. repeat case_bool_decide;
    auto using read_aggregate_safe, read_bulk_safe, read_line_value_safe, read_inline_safe.
Qed.

(** *** Reading back what was written *)

Lemma readRESPInt_app z rest :
  (- 2 ^ 31 ≤ z < 2 ^ 31)%Z →
  readRESPInt ending (format_int z ++ CRLF ++ rest) = Ok (z, rest).
Proof.
  intros Hz. unfold readRESPInt. rewrite readRESPLine_app.
  - by rewrite parse_format_int by (simpl; lia).
  - by apply format_int_no.
  - pose proof (length_format_int z ltac:(unfold minInt64, maxInt64; lia)).
    change maxRESPLine with 1048576%Z. lia.
Qed.

Lemma strip_newlines_LF data : LF ∉ strip_newlines data.
Proof. unfold strip_newlines. by intros [? _]%list_elem_of_filter. Qed.

(** One value at the head of a stream is read back with any fuel above the
    number of its bytes. *)
Definition reads_back (out : bytes) (v : respValue) : Prop :=
  ∀ fuel rest, length out < fuel → readRESP_fuel ending fuel (out ++ rest) = Ok (v, rest).

Lemma reads_back_line kind data :
  kind = respSimple ∨ kind = respError →
  (Z.of_nat (length (strip_newlines data)) ≤ maxRESPLine)%Z →
  reads_back (kind :: strip_newlines data ++ CRLF)
    (Resp kind (strip_newlines data) 0 [] false).
Proof.
  intros Hk Hlen [|fuel] rest Hf; [simpl in Hf; lia|].
  cbn [app]. rewrite <-app_assoc.
  destruct Hk as [-> | ->];
    [change (read_line_value ending respSimple (strip_newlines data ++ CRLF ++ rest)
             = Ok (Resp respSimple (strip_newlines data) 0 [] false, rest))
    |change (read_line_value ending respError (strip_newlines data ++ CRLF ++ rest)
             = Ok (Resp respError (strip_newlines data) 0 [] false, rest))];
    unfold read_line_value; rewrite readRESPLine_app; auto using strip_newlines_LF.
Qed.

Lemma reads_back_integer z :
  isInt64 z = true →
  reads_back (⟦":"⟧ ++ format_int z ++ CRLF) (Resp respInteger [] z [] false).
Proof.
  intros Hz%bool_decide_eq_true [|fuel] rest Hf; [simpl in Hf; lia|].
  rewrite <-!app_assoc.
  change (read_line_value ending respInteger (format_int z ++ CRLF ++ rest)
          = Ok (Resp respInteger [] z [] false, rest)).
  unfold read_line_value. rewrite readRESPLine_app.
  - unfold minInt64, maxInt64 in Hz. cbn. by rewrite parse_format_int by (simpl; lia).
  - by apply format_int_no.
  - pose proof (length_format_int z Hz). change maxRESPLine with 1048576%Z. lia.
Qed.

Lemma reads_back_nil : reads_back (⟦"$-1"⟧ ++ CRLF) (Resp respBulk [] 0 [] true).
Proof. by intros [|fuel] rest Hf; [simpl in Hf; lia|]. Qed.

Lemma reads_back_bulk data :
  (Z.of_nat (length data) ≤ maxRESPBulk)%Z →
  reads_back (⟦"$"⟧ ++ format_int (Z.of_nat (length data)) ++ CRLF ++ data ++ CRLF)
    (Resp respBulk data 0 [] false).
Proof.
  intros Hd [|fuel] rest Hf; [simpl in Hf; lia|].
  change maxRESPBulk with 67108864%Z in *.
  rewrite <-!app_assoc.
  change (read_bulk ending (format_int (Z.of_nat (length data)) ++ CRLF ++ data ++ CRLF ++ rest)
          = Ok (Resp respBulk data 0 [] false, rest)).
  unfold read_bulk. rewrite readRESPInt_app by lia.
  rewrite !bool_decide_eq_false_2 by (change maxRESPBulk with 67108864%Z; lia).
  unfold read_full at 1. rewrite Nat2Z.id.
  rewrite bool_decide_eq_true_2 by (rewrite length_app; lia).
  rewrite take_app_length, drop_app_length. unfold expectCRLF, read_full.
  rewrite bool_decide_eq_true_2 by (rewrite length_app; simpl; lia).
  rewrite take_app_le by done. by cbn.
Qed.

Lemma reads_back_items nullError (outs : list bytes) (items : list respValue) fuel rest :
  Forall2 (λ out v, resp_null v = false ∧ reads_back out v) outs items →
  length (concat outs) < fuel →
  read_items (readRESP_fuel ending fuel) nullError (length items) (concat outs ++ rest)
  = Ok (items, rest).
Proof.
  intros H. revert fuel rest.
  induction H as [|out v outs items [Hn Hv] Hf2 IH]; intros fuel rest Hf; [done|].
  cbn [concat] in *. rewrite length_app in Hf.
  cbn [length read_items]. rewrite <-app_assoc, Hv by lia. rewrite Hn.
  by rewrite IH by lia.
Qed.

Lemma reads_back_array outs items :
  Forall2 (λ out v, resp_null v = false ∧ reads_back out v) outs items →
  (Z.of_nat (length items) ≤ maxRESPArgs)%Z →
  reads_back (⟦"*"⟧ ++ format_int (Z.of_nat (length items)) ++ CRLF ++ concat outs)
    (Resp respArray [] 0 items false).
Proof.
  intros H Hlen [|fuel] rest Hf; [simpl in Hf; lia|]. unfold maxRESPArgs in *.
  rewrite !length_app in Hf. change (length ⟦"*"⟧) with 1 in Hf. rewrite <-!app_assoc.
  change (read_aggregate ending (readRESP_fuel ending fuel) respArray 1 ⟦"array"⟧
            ⟦"redis: null command argument"⟧
            (format_int (Z.of_nat (length items)) ++ CRLF ++ concat outs ++ rest)
          = Ok (Resp respArray [] 0 items false, rest)).
  unfold read_aggregate. rewrite readRESPInt_app by lia.
  rewrite bool_decide_eq_false_2 by (unfold maxRESPArgs; lia).
  rewrite Nat2Z.id, Nat.mul_1_r.
  by rewrite (reads_back_items _ outs) by (done || lia).
Qed.

Lemma reads_back_map outs items :
  Forall2 (λ out v, resp_null v = false ∧ reads_back out v) outs items →
  length items mod 2 = 0 → (Z.of_nat (length items) ≤ 2 * maxRESPArgs)%Z →
  reads_back (⟦"%"⟧ ++ format_int (Z.of_nat (length items `div` 2)) ++ CRLF ++ concat outs)
    (Resp respMap [] 0 items false).
Proof.
  intros H Heven Hlen [|fuel] rest Hf; [simpl in Hf; lia|]. unfold maxRESPArgs in *.
  assert (length items = length items `div` 2 * 2) as Hdiv
    by (pose proof (Nat.div_mod (length items) 2 ltac:(lia)); lia).
  rewrite !length_app in Hf. change (length ⟦"%"⟧) with 1 in Hf. rewrite <-!app_assoc.
  change (read_aggregate ending (readRESP_fuel ending fuel) respMap 2 ⟦"map"⟧
            ⟦"redis: null map member"⟧
            (format_int (Z.of_nat (length items `div` 2)) ++ CRLF ++ concat outs ++ rest)
          = Ok (Resp respMap [] 0 items false, rest)).
  unfold read_aggregate.
  rewrite readRESPInt_app by lia.
  rewrite bool_decide_eq_false_2 by (unfold maxRESPArgs; lia).
  rewrite Nat2Z.id, <-Hdiv.
  by rewrite (reads_back_items _ outs) by (done || lia).
Qed.

(** Writing the elements of an aggregate: every element succeeded and the
    output is the concatenation. *)
Lemma write_all_ok (items : list respValue) :
  Forall (λ v, sendable v = true →
    ∃ out, writeRESP v = (out, None) ∧ reads_back out (sent v)) items →
  forallb (λ item, negb (resp_null item) && sendable item) items = true →
  ∃ outs, write_all (writeRESP <$> items) = (concat outs, None)
    ∧ Forall2 (λ out v, resp_null v = false ∧ reads_back out v) outs (sent <$> items).
Proof.
  induction 1 as [|v items Hv Hall IH]; intros Hs.
  - exists []. split; [done|constructor].
  - simpl in Hs. apply andb_prop in Hs as [[Hn Hsend]%andb_prop Hs].
    destruct (Hv Hsend) as (out & Hout & Hback). destruct (IH Hs) as (outs & Houts & Hf2).
    exists (out :: outs). split; [rewrite fmap_cons; cbn [write_all]; by rewrite Hout, Houts|].
    rewrite fmap_cons. constructor; [|done]. split; [|done].
    destruct v as [k d z l n]. by destruct n.
Qed.

Lemma write_read v :
  sendable v = true → ∃ out, writeRESP v = (out, None) ∧ reads_back out (sent v).
Proof.
  induction v as [kind data value items null IH] using respValue_ind'.
  cbn [sendable writeRESP sent]. case_bool_decide as Hk1.
  { intros [[[Hi Hn]%andb_prop Hv]%andb_prop Hl]%andb_prop.
    apply bool_decide_eq_true in Hv as ->, Hl. destruct items, null; try done.
    eauto using reads_back_line. }
  case_bool_decide as Hk2.
  { subst kind. intros [[[Hi Hn]%andb_prop Hd]%andb_prop Hz]%andb_prop.
    apply bool_decide_eq_true in Hd as ->. destruct items, null; try done.
    eauto using reads_back_integer. }
  case_bool_decide as Hk3.
  { subst kind. intros [[Hi Hv]%andb_prop Hd]%andb_prop.
    apply bool_decide_eq_true in Hv as ->. destruct items; [|done].
    destruct null; apply bool_decide_eq_true in Hd; [subst data|];
      eauto using reads_back_nil, reads_back_bulk. }
  case_bool_decide as Hk4; [|done].
  intros [[[[Hn Hd]%andb_prop Hv]%andb_prop Hl]%andb_prop Hall]%andb_prop.
  apply bool_decide_eq_true in Hd as ->, Hv as ->. destruct null; [done|].
  destruct (write_all_ok items IH Hall) as (outs & Hw & Hf2).
  rewrite Hw. destruct Hk4 as [-> | ->]; cbn -[Nat.div Nat.modulo format_int str sent] in *.
  - apply bool_decide_eq_true in Hl. eexists; split; [done|].
    pose proof (reads_back_array outs (sent <$> items)) as H.
    rewrite length_fmap in H. auto.
  - apply andb_prop in Hl as [He%bool_decide_eq_true Hl%bool_decide_eq_true].
    rewrite (bool_decide_eq_false_2 (_ ≠ 0)) by tauto. eexists; split; [done|].
    pose proof (reads_back_map outs (sent <$> items)) as H.
    rewrite length_fmap in H. auto.
Qed.
End reader_lemmas.

(** ** Properties *)



(** C34: [readRESP] ends on every input: it returns a value and consumes a
    non-empty prefix of the bytes, or an error; its fuel never runs out. *)
Theorem resp_read_total {GT : GoText} (ending : GoError) (s : bytes) :
  match readRESP ending s with
  | Ok (_, rest) => ∃ consumed, consumed ≠ [] ∧ s = consumed ++ rest
  | Err _ => True
  | Panic => False
  end.
Proof.
  unfold readRESP. destruct s as [|c s]; [done|].
  pose proof (readRESP_fuel_safe ending (S (length s)) c s ltac:(lia)) as H.
  cbn [length]. destruct (readRESP_fuel _ _ _) as [[v rest]| |]; try done.
  destruct H as [k ->]. by exists (c :: k).
Qed.
