(* ===== verification/RedisStorage.v ===== *)
(** * Redis types and expiry over the protocol store
      ([extensions/redis/redis_storage.go])

    A logical key is seen as none, a string, a hash, a set or a list. Strings
    and hash fields carry their expiry in the envelope; a collection's expiry
    is a separate 8-byte record. *)

From S2P Require Import Prelude Errors Engine Effects Envelope Keys ListCodec Text DriverName DB Collections Transport.

(** The [redisType*] constants. *)
Inductive redisTyp :=
  redisTypeNone | redisTypeString | redisTypeHash | redisTypeSet | redisTypeList.

#[global] Instance redisTyp_eq_dec : EqDecision redisTyp.
Proof. solve_decision. Defined.

Definition redisTyp_name (t : redisTyp) : bytes :=
  match t with
  | redisTypeNone => ⟦"none"⟧
  | redisTypeString => ⟦"string"⟧
  | redisTypeHash => ⟦"hash"⟧
  | redisTypeSet => ⟦"set"⟧
  | redisTypeList => ⟦"list"⟧
  end.

Definition bytesCodec : bytes := ⟦"bytes"⟧.

Definition wrongType (t : redisTyp) : GoError := errorf errRedisWrongType (redisTyp_name t).

(** [time.Time.Sub]: the difference saturates at the int64 bounds. *)
Definition saturate64 (d : Z) : Z := Z.max minInt64 (Z.min d maxInt64).

Section storage.
Context {store : ProtocolStore}.

(** [value.expiresAt > 0 && db.cfg.now().UnixNano() >= value.expiresAt]. *)
Definition recordExpired (expiresAt : Z) : M bool :=
  if bool_decide (0 < expiresAt)%Z
  then t ← store_Now; mret (bool_decide (expiresAt ≤ unixNano t)%Z)
  else mret false.

Definition putPayload (key codec payload : bytes) (ttl : Z) : M unit :=
  expiresAt ← (if bool_decide (0 < ttl)%Z
               then t ← store_Now; mret (unixNano (t + ttl))
               else mret 0%Z);
  encoded ← lift (store_EncodeRecord codec payload expiresAt);
  store_Put key encoded.

Definition decodeRecord (data : bytes) : M StoredValue := lift (store_DecodeRecord data).

Definition encodeRecord (codec payload : bytes) (expiresAt : Z) : M bytes :=
  lift (store_EncodeRecord codec payload expiresAt).

Definition redisDeleteRaw (key : bytes) : M bool := store_DeleteLogicalKey key.

Definition redisMetadataExpiry (key : bytes) : M (option Z) :=
  data ← store_Get (store_CollectionTTLKey key);
  match data with
  | None => mret None
  | Some data =>
      if bool_decide (length data ≠ 8)
      then throw (ENew ⟦"kvlite: invalid Redis expiry metadata"⟧)
      else mret (Some (wrap64 (be_get data)))
  end.

Definition encodeRedisExpiry (expiresAt : Z) : bytes := be_put 8 expiresAt.

Definition redisKeyExpired (key : bytes) : M bool :=
  expiry ← redisMetadataExpiry key;
  match expiry with
  | None => mret false
  | Some expiresAt =>
      t ← store_Now;
      if bool_decide (unixNano t < expiresAt)%Z then mret false
      else _ ← redisDeleteRaw key; mret true
  end.

(** The three probes of [redisType]: the scalar record, the hash fields, the
    set members and list record. *)
Definition probe_string (key : bytes) : M bool :=
  data ← store_Get (store_ValueKey key);
  match data with
  | None => mret false
  | Some data =>
      value ← decodeRecord data;
      expired ← recordExpired (stored_ExpiresAt value);
      if expired : bool
      then _ ← ignore (store_Delete (store_ValueKey key)); mret false
      else mret true
  end.

Definition probe_hash (key : bytes) : M (list bytes * bool) :=
  store_ScanPrefix (store_HashPrefix key)
    (λ kv '(hashKeys, hashFound),
       value ← decodeRecord kv.2;
       expired ← recordExpired (stored_ExpiresAt value);
       if expired : bool then mret (hashKeys ++ [kv.1], hashFound)
       else mret (hashKeys, true)) ([], false).

Definition probe_set (key : bytes) : M bool :=
  store_ScanPrefix (store_SetPrefix key) (λ _ _, mret true) false.

Definition probe_list (key : bytes) : M redisTyp :=
  data ← store_Get (store_ListKey key);
  match data with
  | None => mret redisTypeNone
  | Some data =>
      items ← lift (store_DecodeList data);
      if bool_decide (items ≠ []) then mret redisTypeList
      else _ ← ignore (redisDeleteRaw key); mret redisTypeNone
  end.

Definition probe_collections (key : bytes) : M redisTyp :=
  '(hashKeys, hashFound) ← probe_hash key;
  _ ← for_each hashKeys (λ storageKey _, store_Delete storageKey) tt;
  if hashFound : bool then mret redisTypeHash
  else
    _ ← (if bool_decide (hashKeys ≠ [])
         then _ ← redisDeleteRaw key; mret tt else mret tt);
    setFound ← probe_set key;
    if setFound : bool then mret redisTypeSet else probe_list key.

Definition redisType (key : bytes) : M redisTyp :=
  expired ← redisKeyExpired key;
  if expired : bool then mret redisTypeNone
  else
    stringFound ← probe_string key;
    if stringFound : bool then mret redisTypeString else probe_collections key.

Definition redisString (key : bytes) : M (option bytes) :=
  typ ← redisType key;
  match typ with
  | redisTypeNone => mret None
  | redisTypeString =>
      data ← store_Get (store_ValueKey key);
      match data with
      | None => mret None
      | Some data =>
          value ← decodeRecord data;
          expired ← recordExpired (stored_ExpiresAt value);
          if expired : bool
          then _ ← ignore (redisDeleteRaw key); mret None
          else mret (Some (stored_Payload value))
      end
  | _ => throw (wrongType typ)
  end.

Definition redisWriteStringWithCodec (key payload codec : bytes) (expiresAt : Z) : M unit :=
  if bool_decide (expiresAt ≤ 0)%Z then
    _ ← putPayload (store_ValueKey key) codec payload 0;
    store_Delete (store_CollectionTTLKey key)
  else
    t ← store_Now;
    let duration := saturate64 (expiresAt - t) in
    if bool_decide (duration ≤ 0)%Z then _ ← redisDeleteRaw key; mret tt
    else putPayload (store_ValueKey key) codec payload duration.

Definition redisWriteString (key value : bytes) (expiresAt : Z) : M unit :=
  redisWriteStringWithCodec key value bytesCodec expiresAt.

(** The expiry and whether there is one; a missing one is 0 in Go. *)
Definition redisExpiry (key : bytes) : M (option Z) :=
  typ ← redisType key;
  match typ with
  | redisTypeNone => mret None
  | redisTypeString =>
      data ← store_Get (store_ValueKey key);
      match data with
      | None => mret None
      | Some data =>
          value ← decodeRecord data;
          if bool_decide (0 < stored_ExpiresAt value)%Z
          then mret (Some (stored_ExpiresAt value)) else mret None
      end
  | _ => redisMetadataExpiry key
  end.

Definition redisSetExpiry (key : bytes) (expiresAt : Z) : M bool :=
  typ ← redisType key;
  if bool_decide (typ = redisTypeNone) then mret false
  else
    t ← store_Now;
    if bool_decide (expiresAt ≤ unixNano t)%Z then _ ← redisDeleteRaw key; mret true
    else if bool_decide (typ = redisTypeString) then
      data ← store_Get (store_ValueKey key);
      match data with
      | None => mret false
      | Some data =>
          value ← decodeRecord data;
          _ ← redisWriteStringWithCodec key (stored_Payload value) (stored_Codec value)
                expiresAt;
          _ ← ignore (store_Delete (store_CollectionTTLKey key));
          mret true
      end
    else
      _ ← store_Put (store_CollectionTTLKey key) (encodeRedisExpiry expiresAt);
      mret true.

Definition redisPersist (key : bytes) : M bool :=
  typ ← redisType key;
  if bool_decide (typ = redisTypeNone) then mret false
  else
    expiry ← redisExpiry key;
    match expiry with
    | None => mret false
    | Some _ =>
        if bool_decide (typ = redisTypeString) then
          data ← store_Get (store_ValueKey key);
          match data with
          | None => mret false
          | Some data =>
              value ← decodeRecord data;
              _ ← putPayload (store_ValueKey key) (stored_Codec value)
                    (stored_Payload value) 0;
              mret true
          end
        else _ ← store_Delete (store_CollectionTTLKey key); mret true
    end.

Definition redisHashField (key field : bytes) : M (option bytes) :=
  typ ← redisType key;
  match typ with
  | redisTypeNone => mret None
  | redisTypeHash =>
      let storageKey := store_HashKey key field in
      data ← store_Get storageKey;
      match data with
      | None => mret None
      | Some data =>
          value ← decodeRecord data;
          expired ← recordExpired (stored_ExpiresAt value);
          if expired : bool then _ ← ignore (store_Delete storageKey); mret None
          else mret (Some (stored_Payload value))
      end
  | _ => throw (wrongType typ)
  end.

Definition redisList (key : bytes) : M (option (list bytes)) :=
  typ ← redisType key;
  match typ with
  | redisTypeNone => mret None
  | redisTypeList =>
      data ← store_Get (store_ListKey key);
      match data with
      | None => mret None
      | Some data => items ← lift (store_DecodeList data); mret (Some items)
      end
  | _ => throw (wrongType typ)
  end.

Definition redisItemPayload (data : bytes) (now : Z) : M (option bytes) :=
  value ← decodeRecord data;
  if expired_at (stored_ExpiresAt value) now then mret None
  else mret (Some (stored_Payload value)).

Definition redisWriteList (key : bytes) (items : list bytes) : M unit :=
  if bool_decide (items = []) then _ ← redisDeleteRaw key; mret tt
  else store_Put (store_ListKey key) (store_EncodeList items).
End storage.
