(* ===== verification/RedisStrings.v ===== *)
(** * Redis string, key and expiry commands
      ([extensions/redis/redis_commands.go], first half)

    A command is a program that returns its reply. Errors of the store become
    error replies ([catching]); a run-time panic is not caught. *)

From S2P Require Import Prelude Errors Engine Effects Envelope Keys ListCodec Text DriverName DB Collections Transport Resp RedisStorage.

Definition redisMaxInt64 : Z := maxInt64.
Definition redisMinInt64 : Z := minInt64.

Definition time_Second : Z := 1000000000.
Definition time_Millisecond : Z := 1000000.

Definition redisErrorReply (err : option GoError) : respValue :=
  match err with
  | None => respSimpleString ⟦"OK"⟧
  | Some err =>
      if errors_Is err errRedisWrongType
      then respErrorString (sentinel_text errRedisWrongType)
      else if errors_Is err ErrClosed then respErrorString ⟦"ERR database is closed"⟧
      else respErrorString (⟦"ERR "⟧ ++ error_text err)
  end.

(** Every [if err != nil { return redisErrorReply(err) }] of a command. *)
Definition catching (body : M respValue) : M respValue :=
  r ← attempt body;
  match r with
  | inl e => mret (redisErrorReply (Some e))
  | inr reply => mret reply
  end.

Definition redisSyntaxError : respValue := respErrorString ⟦"ERR syntax error"⟧.

Definition notAnInteger : GoError := ENew ⟦"value is not an integer or out of range"⟧.
Definition invalidExpireInSet : GoError := ENew ⟦"invalid expire time in set"⟧.
Definition invalidExpireInGetEx : GoError := ENew ⟦"invalid expire time in getex"⟧.
Definition invalidExpire : GoError := ENew ⟦"invalid expire time"⟧.
Definition syntaxError : GoError := ENew ⟦"syntax error"⟧.

Definition redisParseInt (data : bytes) : result Z :=
  match parse_int 64 data with
  | Some value => Ok value
  | None => Err notAnInteger
  end.

Definition redisParseNonNegative (data : bytes) : result Z :=
  match redisParseInt data with
  | Ok value => if bool_decide (value < 0)%Z then Err notAnInteger else Ok value
  | Err _ => Err notAnInteger
  | Panic => Panic
  end.

Record redisSetOptions := mkSetOptions {
  opt_expiresAt : Z;
  opt_hasExpiry : bool;
  opt_nx : bool;
  opt_xx : bool;
  opt_get : bool;
  opt_keepTTL : bool
}.

Section commands.
Context {store : ProtocolStore} {GT : GoText}.
Implicit Types (args : list bytes) (key value : bytes).

(** The expiry an [EX], [PX], [EXAT] or [PXAT] option sets. *)
Definition setOptionExpiry (name : bytes) (amount : Z) : M Z :=
  let unit := if bool_decide (name = ⟦"PX"⟧ ∨ name = ⟦"PXAT"⟧)
              then time_Millisecond else time_Second in
  let absolute := bool_decide (name = ⟦"EXAT"⟧ ∨ name = ⟦"PXAT"⟧) in
  if bool_decide (amount ≤ 0)%Z then throw invalidExpireInSet
  else if bool_decide (redisMaxInt64 `quot` unit < amount)%Z then throw invalidExpireInSet
  else
    let nanos := wrap64 (amount * unit) in
    if absolute : bool then mret nanos
    else
      t ← store_Now;
      let now := unixNano t in
      if bool_decide (wrap64 (redisMaxInt64 - nanos) < now)%Z then throw invalidExpireInSet
      else mret (wrap64 (now + nanos)).

(** The loop over [args[3:]]. *)
Fixpoint parseSetOptions (options : redisSetOptions) args : M redisSetOptions :=
  match args with
  | [] => mret options
  | arg :: rest =>
      let 'mkSetOptions expiresAt hasExpiry nx xx get keepTTL := options in
      let name := strings_ToUpper arg in
      if bool_decide (name = ⟦"NX"⟧) then
        if xx then throw syntaxError
        else parseSetOptions (mkSetOptions expiresAt hasExpiry true xx get keepTTL) rest
      else if bool_decide (name = ⟦"XX"⟧) then
        if nx then throw syntaxError
        else parseSetOptions (mkSetOptions expiresAt hasExpiry nx true get keepTTL) rest
      else if bool_decide (name = ⟦"GET"⟧) then
        parseSetOptions (mkSetOptions expiresAt hasExpiry nx xx true keepTTL) rest
      else if bool_decide (name = ⟦"KEEPTTL"⟧) then
        if hasExpiry then throw syntaxError
        else parseSetOptions (mkSetOptions expiresAt hasExpiry nx xx get true) rest
      else if bool_decide (name ∈ [⟦"EX"⟧; ⟦"PX"⟧; ⟦"EXAT"⟧; ⟦"PXAT"⟧]) then
        if hasExpiry then throw syntaxError
        else match rest with
             | [] => throw syntaxError
             | arg :: rest =>
                 amount ← lift (redisParseInt arg);
                 expiresAt ← setOptionExpiry name amount;
                 parseSetOptions (mkSetOptions expiresAt true nx xx get keepTTL) rest
             end
      else throw syntaxError
  end.

Definition redisSetOptions_parse args : M redisSetOptions :=
  parseSetOptions (mkSetOptions 0 false false false false false) (drop 3 args).

Definition bulk_or_nil (value : option bytes) : respValue :=
  match value with Some value => respBulkBytes value | None => respNil end.

Definition redisGet args : M respValue :=
  match args with
  | [_; key] => catching (value ← redisString key; mret (bulk_or_nil value))
  | _ => mret redisSyntaxError
  end.

Definition redisDeleteAndWriteString key value (expiresAt : Z) : M unit :=
  _ ← redisDeleteRaw key;
  redisWriteString key value expiresAt.

Definition redisSet args : M respValue :=
  match args with
  | _ :: key :: value :: _ => catching (
      options ← redisSetOptions_parse args;
      typ ← redisType key;
      let exists_ := bool_decide (typ ≠ redisTypeNone) in
      if opt_nx options && exists_ then mret respNil
      else if opt_xx options && negb exists_ then mret respNil
      else
        old ← (if opt_get options && exists_
               then oldValue ← redisString key; mret (bulk_or_nil oldValue)
               else mret respNil);
        expiresAt ← (if opt_keepTTL options && exists_ && negb (opt_hasExpiry options)
                     then expiry ← redisExpiry key; mret (default 0%Z expiry)
                     else mret (opt_expiresAt options));
        _ ← redisDeleteAndWriteString key value expiresAt;
        if opt_get options then mret old else mret (respSimpleString ⟦"OK"⟧))
  | _ => mret redisSyntaxError
  end.

Definition redisSetNX args : M respValue :=
  match args with
  | [_; key; value] => catching (
      typ ← redisType key;
      if bool_decide (typ ≠ redisTypeNone) then mret (respIntegerValue 0)
      else _ ← redisWriteString key value 0; mret (respIntegerValue 1))
  | _ => mret redisSyntaxError
  end.

Definition redisSetEX args (milliseconds : bool) : M respValue :=
  match args with
  | [_; key; arg; value] => catching (
      match redisParseInt arg with
      | Ok amount =>
          let unit := if milliseconds then time_Millisecond else time_Second in
          if bool_decide (amount ≤ 0 ∨ redisMaxInt64 `quot` unit < amount)%Z
          then throw invalidExpireInSet
          else
            t ← store_Now;
            let now := unixNano t in
            let delta := wrap64 (amount * unit) in
            if bool_decide (wrap64 (redisMaxInt64 - delta) < now)%Z
            then throw invalidExpireInSet
            else
              _ ← redisDeleteRaw key;
              _ ← redisWriteString key value (wrap64 (now + delta));
              mret (respSimpleString ⟦"OK"⟧)
      | _ => throw invalidExpireInSet
      end)
  | _ => mret redisSyntaxError
  end.

Definition redisGetSet args : M respValue :=
  match args with
  | [_; key; value] => catching (
      old ← redisString key;
      _ ← redisDeleteRaw key;
      _ ← redisWriteString key value 0;
      mret (bulk_or_nil old))
  | _ => mret redisSyntaxError
  end.

Definition redisGetDel args : M respValue :=
  match args with
  | [_; key] => catching (
      value ← redisString key;
      match value with
      | None => mret respNil
      | Some value => _ ← redisDeleteRaw key; mret (respBulkBytes value)
      end)
  | _ => mret redisSyntaxError
  end.

(** [redisExpiryFromCommand]: the units come from the prefix P, absolute
    times from the suffix AT. *)
Definition redisExpiryFromCommand (now : Z) (command : bytes) (amount : Z) : result Z :=
  let absolute := strings_HasSuffix command ⟦"AT"⟧ in
  let unit := if strings_HasPrefix command ⟦"P"⟧ then time_Millisecond else time_Second in
  if bool_decide (redisMaxInt64 `quot` unit < amount ∨ amount < redisMinInt64 `quot` unit)%Z
  then Err invalidExpire
  else if absolute then Ok (wrap64 (amount * unit))
  else
    let delta := wrap64 (amount * unit) in
    let current := unixNano now in
    if bool_decide (0 < delta ∧ wrap64 (redisMaxInt64 - delta) < current)%Z
    then Err invalidExpire
    else if bool_decide (delta < 0 ∧ current < wrap64 (redisMinInt64 - delta))%Z
    then Err invalidExpire
    else Ok (wrap64 (current + delta)).

Definition redisGetEx args : M respValue :=
  match args with
  | _ :: key :: options => catching (
      value ← redisString key;
      match value with
      | None => mret respNil
      | Some value =>
          match options with
          | [] => mret (respBulkBytes value)
          | [option] =>
              if strings_EqualFold option ⟦"PERSIST"⟧
              then _ ← redisPersist key; mret (respBulkBytes value)
              else mret redisSyntaxError
          | [option; arg] =>
              match redisParseInt arg with
              | Ok amount =>
                  let option := strings_ToUpper option in
                  if bool_decide ((option = ⟦"EX"⟧ ∨ option = ⟦"PX"⟧) ∧ (amount ≤ 0)%Z)
                  then throw invalidExpireInGetEx
                  else if bool_decide (option ∉ [⟦"EX"⟧; ⟦"PX"⟧; ⟦"EXAT"⟧; ⟦"PXAT"⟧])
                  then mret redisSyntaxError
                  else
                    t ← store_Now;
                    match redisExpiryFromCommand t option amount with
                    | Ok expiresAt =>
                        _ ← redisSetExpiry key expiresAt; mret (respBulkBytes value)
                    | _ => throw invalidExpireInGetEx
                    end
              | _ => throw invalidExpireInGetEx
              end
          | _ => mret redisSyntaxError
          end
      end)
  | _ => mret redisSyntaxError
  end.

Definition redisMGet args : M respValue :=
  match args with
  | _ :: ((_ :: _) as keys) => catching (
      items ← for_each keys
        (λ key items, value ← redisString key; mret (items ++ [bulk_or_nil value])) [];
      mret (respArrayValues items))
  | _ => mret redisSyntaxError
  end.

(** The key/value pairs of [args[1:]]; [None] for an odd number. *)
Fixpoint pairs (l : list bytes) : option (list (bytes * bytes)) :=
  match l with
  | [] => Some []
  | k :: v :: l => cons (k, v) <$> pairs l
  | _ => None
  end.

Definition redisMSet args : M respValue :=
  match args with
  | _ :: ((_ :: _) as rest) =>
      match pairs rest with
      | Some kvs => catching (
          _ ← for_each kvs
            (λ kv _, _ ← redisDeleteRaw kv.1; redisWriteString kv.1 kv.2 0) tt;
          mret (respSimpleString ⟦"OK"⟧))
      | None => mret redisSyntaxError
      end
  | _ => mret redisSyntaxError
  end.

(** The first loop of [MSETNX]: stops at the first key that exists. *)
Fixpoint any_exists (keys : list bytes) : M bool :=
  match keys with
  | [] => mret false
  | key :: keys =>
      typ ← redisType key;
      if bool_decide (typ ≠ redisTypeNone) then mret true else any_exists keys
  end.

Definition redisMSetNX args : M respValue :=
  match args with
  | _ :: ((_ :: _) as rest) =>
      match pairs rest with
      | Some kvs => catching (
          found ← any_exists kvs.*1;
          if found : bool then mret (respIntegerValue 0)
          else
            _ ← for_each kvs (λ kv _, redisWriteString kv.1 kv.2 0) tt;
            mret (respIntegerValue 1))
      | None => mret redisSyntaxError
      end
  | _ => mret redisSyntaxError
  end.

Definition redisStrLen args : M respValue :=
  match args with
  | [_; key] => catching (
      value ← redisString key;
      mret (respIntegerValue (Z.of_nat (length (default [] value)))))
  | _ => mret redisSyntaxError
  end.

Definition redisAppend args : M respValue :=
  match args with
  | [_; key; suffix] => catching (
      value ← redisString key;
      expiry ← redisExpiry key;
      let value' := default [] value ++ suffix in
      _ ← redisWriteString key value' (default 0%Z expiry);
      match value with
      | None => mret (respIntegerValue (Z.of_nat (length suffix)))
      | Some _ => mret (respIntegerValue (Z.of_nat (length value')))
      end)
  | _ => mret redisSyntaxError
  end.

(** Arbitrary-precision addition, then the range check. *)
Definition redisIncrementBig key (delta : Z) : M respValue := catching (
  value ← redisString key;
  let current := match value with None => Some 0%Z | Some value => parse_big value end in
  match current with
  | None => mret (respErrorString ⟦"ERR value is not an integer or out of range"⟧)
  | Some current =>
      let current := (current + delta)%Z in
      if negb (isInt64 current)
      then mret (respErrorString ⟦"ERR increment or decrement would overflow"⟧)
      else
        expiry ← redisExpiry key;
        _ ← redisWriteString key (format_int current) (default 0%Z expiry);
        mret (respIntegerValue current)
  end).

Definition redisIncrement key (delta : Z) : M respValue := redisIncrementBig key delta.

Definition redisIncrementCommand args (delta : Z) : M respValue :=
  match args with
  | [_; key] => redisIncrement key delta
  | _ => mret redisSyntaxError
  end.

Definition redisIncrementByCommand args (decrement : bool) : M respValue :=
  match args with
  | [_; key; arg] =>
      match redisParseInt arg with
      | Ok delta =>
          if decrement then redisIncrementBig key (- delta) else redisIncrement key delta
      | Err e => mret (redisErrorReply (Some e))
      | Panic => panic
      end
  | _ => mret redisSyntaxError
  end.

Definition redisDelete args : M respValue :=
  match args with
  | _ :: ((_ :: _) as keys) => catching (
      count ← for_each keys
        (λ key count, deleted ← redisDeleteRaw key;
           mret (if deleted : bool then wrap64 (count + 1) else count)) 0%Z;
      mret (respIntegerValue count))
  | _ => mret redisSyntaxError
  end.

Definition redisExists args : M respValue :=
  match args with
  | _ :: ((_ :: _) as keys) => catching (
      count ← for_each keys
        (λ key count, typ ← redisType key;
           mret (if bool_decide (typ ≠ redisTypeNone) then wrap64 (count + 1) else count)) 0%Z;
      mret (respIntegerValue count))
  | _ => mret redisSyntaxError
  end.

Definition redisTypeCommand args : M respValue :=
  match args with
  | [_; key] => catching (
      typ ← redisType key; mret (respSimpleString (redisTyp_name typ)))
  | _ => mret redisSyntaxError
  end.

Definition one_or_zero (b : bool) : respValue := respIntegerValue (if b then 1 else 0)%Z.

Definition redisExpireCommand args (command : bytes) : M respValue :=
  match args with
  | [_; key; arg] => catching (
      amount ← lift (redisParseInt arg);
      t ← store_Now;
      expiresAt ← lift (redisExpiryFromCommand t command amount);
      ok ← redisSetExpiry key expiresAt;
      mret (one_or_zero ok))
  | _ => mret redisSyntaxError
  end.

Definition redisTTLCommand args (command : bytes) : M respValue :=
  match args with
  | [_; key] => catching (
      expiry ← redisExpiry key;
      match expiry with
      | None =>
          typ ← redisType key;
          mret (respIntegerValue
                  (if bool_decide (typ = redisTypeNone) then (-2) else (-1))%Z)
      | Some expiresAt =>
          t ← store_Now;
          let remaining := wrap64 (expiresAt - unixNano t) in
          if bool_decide (remaining ≤ 0)%Z then mret (respIntegerValue (-2))
          else
            let divisor := if bool_decide (command = ⟦"PTTL"⟧)
                           then time_Millisecond else time_Second in
            mret (respIntegerValue (Z.max 1 (remaining `quot` divisor)))
      end)
  | _ => mret redisSyntaxError
  end.

Definition redisPersistCommand args : M respValue :=
  match args with
  | [_; key] => catching (ok ← redisPersist key; mret (one_or_zero ok))
  | _ => mret redisSyntaxError
  end.
End commands.
