(* ===== verification/RedisCollections.v ===== *)
(** * Redis hash, set and list commands
      ([extensions/redis/redis_commands.go], second half) *)

From S2P Require Import Prelude Errors Engine Effects Envelope Keys ListCodec Text DriverName DB Collections Transport Resp RedisStorage RedisStrings.

Section collections.
Context {store : ProtocolStore} {GT : GoText}.
Implicit Types (args : list bytes) (key value field : bytes).

(** Delivered records collected by a scan that fails as a whole. *)
Definition store_Collect (pfx : bytes) : M (list (bytes * bytes)) :=
  store_ScanPrefix pfx (λ kv records, mret (records ++ [kv])) [].

(** ** Hashes *)

(** A [redisHashEntry] is a pair of field and value; entries are sorted by
    field, and no two share one. *)
Definition entry_le (a b : bytes * bytes) : Prop := bytes_le a.1 b.1.

#[global] Instance entry_le_dec : RelDecision entry_le.
Proof. intros a b. unfold entry_le. apply _. Defined.

Definition redisHashEntries key : M (option (list (bytes * bytes))) :=
  typ ← redisType key;
  match typ with
  | redisTypeNone => mret None
  | redisTypeHash =>
      let pfx := store_HashPrefix key in
      records ← store_Collect pfx;
      '(entries, expired) ← for_each records
        (λ record '(entries, expired),
           value ← decodeRecord record.2;
           gone ← recordExpired (stored_ExpiresAt value);
           if gone : bool then mret (entries, expired ++ [record.1])
           else mret (entries ++ [(drop (length pfx) record.1, stored_Payload value)],
                      expired)) ([], []);
      _ ← for_each expired (λ storageKey _, store_Delete storageKey) tt;
      if bool_decide (entries = []) then
        _ ← (if bool_decide (expired ≠ []) then ignore (redisDeleteRaw key) else mret tt);
        mret None
      else mret (Some (merge_sort entry_le entries))
  | _ => throw (wrongType typ)
  end.

Definition redisHSet args : M respValue :=
  match args with
  | _ :: key :: ((_ :: _) as rest) =>
      match pairs rest with
      | Some fvs => catching (
          typ ← redisType key;
          if bool_decide (typ ≠ redisTypeNone ∧ typ ≠ redisTypeHash)
          then throw (wrongType typ)
          else
            _ ← (if bool_decide (typ = redisTypeNone)
                 then ignore (store_Delete (store_CollectionTTLKey key)) else mret tt);
            added ← for_each fvs
              (λ fv added,
                 let storageKey := store_HashKey key fv.1 in
                 data ← store_Get storageKey;
                 let added := match data with Some _ => added | None => wrap64 (added + 1) end in
                 _ ← putPayload storageKey bytesCodec fv.2 0;
                 mret added) 0%Z;
            mret (respIntegerValue added))
      | None => mret redisSyntaxError
      end
  | _ => mret redisSyntaxError
  end.

Definition redisHGet args : M respValue :=
  match args with
  | [_; key; field] => catching (
      value ← redisHashField key field; mret (bulk_or_nil value))
  | _ => mret redisSyntaxError
  end.

Definition redisHMGet args : M respValue :=
  match args with
  | _ :: key :: ((_ :: _) as fields) => catching (
      items ← for_each fields
        (λ field items, value ← redisHashField key field;
           mret (items ++ [bulk_or_nil value])) [];
      mret (respArrayValues items))
  | _ => mret redisSyntaxError
  end.

Definition redisHGetAll args : M respValue :=
  match args with
  | [_; key] => catching (
      entries ← redisHashEntries key;
      mret (respArrayValues
              (default [] entries ≫= λ e, [respBulkString e.1; respBulkBytes e.2])))
  | _ => mret redisSyntaxError
  end.

Definition redisHDel args : M respValue :=
  match args with
  | _ :: key :: ((_ :: _) as fields) => catching (
      typ ← redisType key;
      match typ with
      | redisTypeNone => mret (respIntegerValue 0)
      | redisTypeHash =>
          removed ← for_each fields
            (λ field removed,
               let storageKey := store_HashKey key field in
               data ← store_Get storageKey;
               match data with
               | None => mret removed
               | Some data =>
                   value ← decodeRecord data;
                   gone ← recordExpired (stored_ExpiresAt value);
                   if gone : bool
                   then _ ← ignore (store_Delete storageKey); mret removed
                   else _ ← store_Delete storageKey; mret (wrap64 (removed + 1))
               end) 0%Z;
          entries ← redisHashEntries key;
          _ ← (if bool_decide (default [] entries = [])
               then ignore (redisDeleteRaw key) else mret tt);
          mret (respIntegerValue removed)
      | _ => throw (wrongType typ)
      end)
  | _ => mret redisSyntaxError
  end.

Definition redisHExists args : M respValue :=
  match args with
  | [_; key; field] => catching (
      value ← redisHashField key field; mret (one_or_zero (bool_decide (is_Some value))))
  | _ => mret redisSyntaxError
  end.

Definition redisHLen args : M respValue :=
  match args with
  | [_; key] => catching (
      entries ← redisHashEntries key;
      mret (respIntegerValue (Z.of_nat (length (default [] entries)))))
  | _ => mret redisSyntaxError
  end.

Definition redisHKeys args : M respValue :=
  match args with
  | [_; key] => catching (
      entries ← redisHashEntries key;
      mret (respArrayValues ((λ e, respBulkString e.1) <$> default [] entries)))
  | _ => mret redisSyntaxError
  end.

Definition redisHVals args : M respValue :=
  match args with
  | [_; key] => catching (
      entries ← redisHashEntries key;
      mret (respArrayValues ((λ e, respBulkBytes e.2) <$> default [] entries)))
  | _ => mret redisSyntaxError
  end.

Definition redisHIncrBy args : M respValue :=
  match args with
  | [_; key; field; arg] => catching (
      delta ← lift (redisParseInt arg);
      typ ← redisType key;
      if bool_decide (typ ≠ redisTypeNone ∧ typ ≠ redisTypeHash)
      then throw (wrongType typ)
      else
        currentValue ← redisHashField key field;
        match match currentValue with None => Some 0%Z | Some v => parse_big v end with
        | None => mret (respErrorString ⟦"ERR hash value is not an integer"⟧)
        | Some current =>
            let current := (current + delta)%Z in
            if negb (isInt64 current)
            then mret (respErrorString ⟦"ERR increment or decrement would overflow"⟧)
            else
              _ ← putPayload (store_HashKey key field) bytesCodec (format_int current) 0;
              mret (respIntegerValue current)
        end)
  | _ => mret redisSyntaxError
  end.

(** ** Sets *)

Definition redisSetMembers key : M (option (list bytes)) :=
  typ ← redisType key;
  match typ with
  | redisTypeNone => mret None
  | redisTypeSet =>
      let pfx := store_SetPrefix key in
      members ← store_ScanPrefix pfx
        (λ kv members, mret (members ++ [drop (length pfx) kv.1])) [];
      if bool_decide (members = []) then _ ← ignore (redisDeleteRaw key); mret None
      else mret (Some (sort_strings members))
  | _ => throw (wrongType typ)
  end.

Definition redisSAdd args : M respValue :=
  match args with
  | _ :: key :: ((_ :: _) as members) => catching (
      typ ← redisType key;
      if bool_decide (typ ≠ redisTypeNone ∧ typ ≠ redisTypeSet)
      then throw (wrongType typ)
      else
        _ ← (if bool_decide (typ = redisTypeNone)
             then ignore (store_Delete (store_CollectionTTLKey key)) else mret tt);
        added ← for_each members
          (λ member added,
             let storageKey := store_SetKey key member in
             data ← store_Get storageKey;
             match data with
             | Some _ => mret added
             | None => _ ← store_Put storageKey [Byte.x01]; mret (wrap64 (added + 1))
             end) 0%Z;
        mret (respIntegerValue added))
  | _ => mret redisSyntaxError
  end.

Definition redisSRem args : M respValue :=
  match args with
  | _ :: key :: ((_ :: _) as members) => catching (
      typ ← redisType key;
      match typ with
      | redisTypeNone => mret (respIntegerValue 0)
      | redisTypeSet =>
          removed ← for_each members
            (λ member removed,
               let storageKey := store_SetKey key member in
               data ← store_Get storageKey;
               match data with
               | None => mret removed
               | Some _ => _ ← store_Delete storageKey; mret (wrap64 (removed + 1))
               end) 0%Z;
          left_ ← redisSetMembers key;
          _ ← (if bool_decide (default [] left_ = [])
               then ignore (redisDeleteRaw key) else mret tt);
          mret (respIntegerValue removed)
      | _ => throw (wrongType typ)
      end)
  | _ => mret redisSyntaxError
  end.

Definition redisSIsMember args : M respValue :=
  match args with
  | [_; key; member] => catching (
      typ ← redisType key;
      match typ with
      | redisTypeNone => mret (respIntegerValue 0)
      | redisTypeSet =>
          data ← store_Get (store_SetKey key member);
          mret (one_or_zero (bool_decide (is_Some data)))
      | _ => throw (wrongType typ)
      end)
  | _ => mret redisSyntaxError
  end.

(** The loop of [SMISMEMBER]: the first error reply is the reply. *)
Fixpoint members_loop (name key : bytes) (members : list bytes) (items : list respValue)
    : M respValue :=
  match members with
  | [] => mret (respArrayValues items)
  | member :: members =>
      reply ← redisSIsMember [name; key; member];
      if bool_decide (resp_kind reply = respError) then mret reply
      else members_loop name key members (items ++ [reply])
  end.

Definition redisSMIsMember args : M respValue :=
  match args with
  | _ :: key :: ((_ :: _) as members) => members_loop ⟦"SISMEMBER"⟧ key members []
  | _ => mret redisSyntaxError
  end.

Definition redisSMembers args : M respValue :=
  match args with
  | [_; key] => catching (
      members ← redisSetMembers key;
      mret (respArrayValues (respBulkString <$> default [] members)))
  | _ => mret redisSyntaxError
  end.

Definition redisSCard args : M respValue :=
  match args with
  | [_; key] => catching (
      members ← redisSetMembers key;
      mret (respIntegerValue (Z.of_nat (length (default [] members)))))
  | _ => mret redisSyntaxError
  end.

(** ** Lists *)

Definition redisListValues key : M (option (list bytes)) :=
  found ← redisList key;
  match found with
  | None => mret None
  | Some items =>
      '(live, changed) ← for_each items
        (λ item '(live, changed),
           t ← store_Now;
           payload ← redisItemPayload item t;
           match payload with
           | None => mret (live, true)
           | Some _ => mret (live ++ [item], changed)
           end) ([], false);
      _ ← (if changed : bool then redisWriteList key live else mret tt);
      if bool_decide (live = []) then mret None else mret (Some live)
  end.

Definition redisListReply (items : list bytes) (now : Z) : M respValue :=
  replies ← for_each items
    (λ item replies,
       payload ← redisItemPayload item now;
       match payload with
       | Some payload => mret (replies ++ [respBulkBytes payload])
       | None => mret replies
       end) [];
  mret (respArrayValues replies).

(** [encoded[index], encoded[other] = encoded[other], encoded[index]] for
    [index] from 0 below [n]. *)
Fixpoint swap_ends (n index : nat) (l : list bytes) : list bytes :=
  match n with
  | O => l
  | S n =>
      let other := length l - index - 1 in
      swap_ends n (S index)
        (match l !! index, l !! other with
         | Some a, Some b => <[index := b]> (<[other := a]> l)
         | _, _ => l
         end)
  end.

Definition redisPushValues key (values : list bytes) (onLeft onlyIfExists : bool)
    : M respValue := catching (
  typ ← redisType key;
  if bool_decide (typ ≠ redisTypeNone ∧ typ ≠ redisTypeList) then throw (wrongType typ)
  else if onlyIfExists && bool_decide (typ = redisTypeNone) then mret (respIntegerValue 0)
  else
    found ← redisListValues key;
    if onlyIfExists && bool_decide (found = None) then mret (respIntegerValue 0)
    else
      encoded ← for_each values
        (λ value encoded, item ← encodeRecord bytesCodec value 0;
           mret (encoded ++ [item])) [];
      let items := default [] found in
      let items := if onLeft then swap_ends (length encoded `div` 2) 0 encoded ++ items
                   else items ++ encoded in
      _ ← redisWriteList key items;
      _ ← (if bool_decide (found = None)
           then ignore (store_Delete (store_CollectionTTLKey key)) else mret tt);
      mret (respIntegerValue (Z.of_nat (length items)))).

Definition redisPush args (onLeft : bool) : M respValue :=
  match args with
  | _ :: key :: ((_ :: _) as values) => redisPushValues key values onLeft false
  | _ => mret redisSyntaxError
  end.

Definition redisPushX args (onLeft : bool) : M respValue :=
  match args with
  | _ :: key :: ((_ :: _) as values) => redisPushValues key values onLeft true
  | _ => mret redisSyntaxError
  end.

Definition redisLRange args : M respValue :=
  match args with
  | [_; key; start; stop] => catching (
      start ← lift (redisParseInt start);
      stop ← lift (redisParseInt stop);
      found ← redisListValues key;
      let items := default [] found in
      let '(first, last, ok) := normalizeRange (Z.of_nat (length items)) start stop in
      if ok : bool then
        t ← store_Now;
        redisListReply (range_slice items first last) t
      else mret (respArrayValues []))
  | _ => mret redisSyntaxError
  end.

Definition redisLLen args : M respValue :=
  match args with
  | [_; key] => catching (
      found ← redisListValues key;
      mret (respIntegerValue (Z.of_nat (length (default [] found)))))
  | _ => mret redisSyntaxError
  end.

(** The number of elements to pop: [None] in the count form stands for 0. *)
Definition redisPopCount (arg : option bytes) : result Z :=
  match arg with
  | None => Ok 1%Z
  | Some arg => redisParseNonNegative arg
  end.

(** The reply of a pop: an array in the count form, else the one element. *)
Definition redisPopReply (arg : option bytes) (removed : list bytes) (now : Z) : M respValue :=
  match arg with
  | Some _ => redisListReply removed now
  | None =>
      match removed with
      | [] => panic
      | item :: _ => payload ← redisItemPayload item now; mret (bulk_or_nil payload)
      end
  end.

Definition redisPopKey key (arg : option bytes) (onLeft : bool) : M respValue := catching (
  found ← redisListValues key;
  match found with
  | None => mret (if bool_decide (arg = None) then respNil else respArrayValues [])
  | Some items =>
      count ← lift (redisPopCount arg);
      if bool_decide (arg ≠ None ∧ count = 0%Z) then mret (respArrayValues [])
      else
        let n := Z.to_nat (Z.min count (Z.of_nat (length items))) in
        let '(removed, items) :=
          if onLeft then (take n items, drop n items)
          else (drop (length items - n) items, take (length items - n) items) in
        _ ← redisWriteList key items;
        t ← store_Now;
        redisPopReply arg removed t
  end).

Definition redisPop args (onLeft : bool) : M respValue :=
  match args with
  | [_; key] => redisPopKey key None onLeft
  | [_; key; count] => redisPopKey key (Some count) onLeft
  | _ => mret redisSyntaxError
  end.

Definition redisLTrim args : M respValue :=
  match args with
  | [_; key; start; stop] => catching (
      start ← lift (redisParseInt start);
      stop ← lift (redisParseInt stop);
      found ← redisListValues key;
      let items := default [] found in
      let '(first, last, ok) := normalizeRange (Z.of_nat (length items)) start stop in
      _ ← (if ok : bool then redisWriteList key (range_slice items first last)
           else _ ← redisDeleteRaw key; mret tt);
      mret (respSimpleString ⟦"OK"⟧))
  | _ => mret redisSyntaxError
  end.
End collections.
