(* ===== verification/Utf8.v ===== *)
(** * UTF-8 ([unicode/utf8] and [unicode/utf16] of the Go library) *)

From S2P Require Import Prelude.

(** ** Decoding *)

Definition RuneError : Z := 65533.

Definition in_span (lo hi : Z) (c : Byte.byte) : bool :=
  bool_decide (lo ≤ byte_to_Z c ≤ hi)%Z.

(** The admissible second bytes after a lead byte, and the rune's length. *)
Definition rune_lead (c : Byte.byte) : option (nat * Z * Z) :=
  let b := byte_to_Z c in
  if bool_decide (194 ≤ b ≤ 223)%Z then Some (2, 128%Z, 191%Z)
  else if bool_decide (b = 224)%Z then Some (3, 160%Z, 191%Z)
  else if bool_decide (b = 237)%Z then Some (3, 128%Z, 159%Z)
  else if bool_decide (225 ≤ b ≤ 239)%Z then Some (3, 128%Z, 191%Z)
  else if bool_decide (b = 240)%Z then Some (4, 144%Z, 191%Z)
  else if bool_decide (241 ≤ b ≤ 243)%Z then Some (4, 128%Z, 191%Z)
  else if bool_decide (b = 244)%Z then Some (4, 128%Z, 143%Z)
  else None.

(** [utf8.DecodeRuneInString]: the rune and its length; an invalid sequence
    is one byte of [RuneError]. *)
Definition DecodeRune (s : bytes) : Z * nat :=
  match s with
  | [] => (RuneError, 0)
  | c :: s =>
      let b := byte_to_Z c in
      if bool_decide (b < 128)%Z then (b, 1)
      else match rune_lead c, s with
           | Some (2, lo, hi), c1 :: _ =>
               if in_span lo hi c1
               then ((Z.land b 31 * 64 + Z.land (byte_to_Z c1) 63)%Z, 2)
               else (RuneError, 1)
           | Some (3, lo, hi), c1 :: c2 :: _ =>
               if in_span lo hi c1 && in_span 128 191 c2
               then ((Z.land b 15 * 4096 + Z.land (byte_to_Z c1) 63 * 64
                     + Z.land (byte_to_Z c2) 63)%Z, 3)
               else (RuneError, 1)
           | Some (4, lo, hi), c1 :: c2 :: c3 :: _ =>
               if in_span lo hi c1 && in_span 128 191 c2 && in_span 128 191 c3
               then ((Z.land b 7 * 262144 + Z.land (byte_to_Z c1) 63 * 4096
                     + Z.land (byte_to_Z c2) 63 * 64 + Z.land (byte_to_Z c3) 63)%Z, 4)
               else (RuneError, 1)
           | _, _ => (RuneError, 1)
           end
  end.

(** [utf8.AppendRune]: surrogates and numbers above the Unicode range become
    [RuneError]. *)
Definition EncodeRune (r : Z) : bytes :=
  let r := if bool_decide (r < 0 ∨ 55296 ≤ r ≤ 57343 ∨ 1114111 < r)%Z then RuneError else r in
  let tail shift := byte_of_Z (128 + Z.land (Z.shiftr r shift) 63) in
  if bool_decide (r < 128)%Z then [byte_of_Z r]
  else if bool_decide (r < 2048)%Z then [byte_of_Z (192 + Z.shiftr r 6); tail 0%Z]
  else if bool_decide (r < 65536)%Z then [byte_of_Z (224 + Z.shiftr r 12); tail 6%Z; tail 0%Z]
  else [byte_of_Z (240 + Z.shiftr r 18); tail 12%Z; tail 6%Z; tail 0%Z].

(** [utf16.IsSurrogate] and [utf16.DecodeRune]. *)
Definition IsSurrogate (r : Z) : bool := bool_decide (55296 ≤ r ≤ 57343)%Z.

Definition DecodeSurrogates (r1 r2 : Z) : Z :=
  if bool_decide (55296 ≤ r1 < 56320 ∧ 56320 ≤ r2 < 57344)%Z
  then ((r1 - 55296) * 1024 + (r2 - 56320) + 65536)%Z
  else RuneError.

(** An invalid sequence at the head of [s]. *)
Definition invalid_head (s : bytes) : bool := bool_decide ((DecodeRune s).2 ≤ 1 ∧ (DecodeRune s).1 = RuneError).

(** ** Lemmas *)

Lemma DecodeRune_ascii c s : (byte_to_Z c < 128)%Z → DecodeRune (c :: s) = (byte_to_Z c, 1).
Proof. intros H. cbn. by rewrite bool_decide_eq_true_2. Qed.

(** The width of a valid rune above ASCII fits the input, and decoding looks
    no further than it. *)
Lemma DecodeRune_width c s :
  (128 ≤ byte_to_Z c)%Z →
  DecodeRune (c :: s) = (RuneError, 1)
  ∨ ∃ r n, DecodeRune (c :: s) = (r, n) ∧ 2 ≤ n ≤ length (c :: s)
      ∧ ∀ s', DecodeRune (take n (c :: s) ++ s') = (r, n).
Proof.
  intros Hc. assert (∀ s, DecodeRune (c :: s) =
    match rune_lead c, s with
    | Some (2, lo, hi), c1 :: _ =>
        if in_span lo hi c1
        then ((Z.land (byte_to_Z c) 31 * 64 + Z.land (byte_to_Z c1) 63)%Z, 2) else (RuneError, 1)
    | Some (3, lo, hi), c1 :: c2 :: _ =>
        if in_span lo hi c1 && in_span 128 191 c2
        then ((Z.land (byte_to_Z c) 15 * 4096 + Z.land (byte_to_Z c1) 63 * 64
               + Z.land (byte_to_Z c2) 63)%Z, 3) else (RuneError, 1)
    | Some (4, lo, hi), c1 :: c2 :: c3 :: _ =>
        if in_span lo hi c1 && in_span 128 191 c2 && in_span 128 191 c3
        then ((Z.land (byte_to_Z c) 7 * 262144 + Z.land (byte_to_Z c1) 63 * 4096
               + Z.land (byte_to_Z c2) 63 * 64 + Z.land (byte_to_Z c3) 63)%Z, 4)
        else (RuneError, 1)
    | _, _ => (RuneError, 1)
    end) as Heq.
  { intros s'. unfold DecodeRune. by rewrite bool_decide_eq_false_2 by lia. }
  rewrite Heq.
  destruct (rune_lead c) as [[[[|[|[|[|[|n]]]]] lo] hi]|] eqn:Hl; try (by left);
    destruct s as [|c1 s]; try (by left); cbn [andb].
  2,3: destruct s as [|c2 s]; try (by left).
  3: destruct s as [|c3 s]; try (by left).
  all: lazymatch goal with |- (if ?b then _ else _) = _ ∨ _ => destruct b eqn:Hb; [|by left] end;
    right; eexists _, _; (split; [reflexivity|]); (split; [cbn [length]; lia|]); intros s';
    cbn [take app]; rewrite Heq, Hb; reflexivity.
Qed.

Lemma land63 z : Z.land z 63 = (z mod 64)%Z.
Proof. exact (Z.land_ones z 6 ltac:(lia)). Qed.

Lemma rune_lead_cases c n lo hi :
  rune_lead c = Some (n, lo, hi) →
  (n = 2 ∧ (194 ≤ byte_to_Z c ≤ 223)%Z ∧ lo = 128%Z ∧ hi = 191%Z)
  ∨ (n = 3 ∧ (224 ≤ byte_to_Z c ≤ 239)%Z ∧ (128 ≤ lo ∧ hi ≤ 191)%Z
     ∧ (byte_to_Z c = 224 → lo = 160)%Z ∧ (byte_to_Z c = 237 → hi = 159)%Z)
  ∨ (n = 4 ∧ (240 ≤ byte_to_Z c ≤ 244)%Z ∧ (128 ≤ lo ∧ hi ≤ 191)%Z
     ∧ (byte_to_Z c = 240 → lo = 144)%Z ∧ (byte_to_Z c = 244 → hi = 143)%Z).
Proof. unfold rune_lead. repeat case_bool_decide; intros [= <- <- <-]; lia. Qed.

Lemma in_span_true lo hi c : in_span lo hi c = true → (lo ≤ byte_to_Z c ≤ hi)%Z.
Proof. apply bool_decide_eq_true. Qed.

(** Encoding the rune read gives its bytes back. *)
Lemma EncodeRune_DecodeRune c s r n :
  (128 ≤ byte_to_Z c)%Z → DecodeRune (c :: s) = (r, n) → 2 ≤ n →
  EncodeRune r = take n (c :: s).
Proof.
  intros Hc. cbn [DecodeRune]. rewrite bool_decide_eq_false_2 by lia.
  destruct (rune_lead c) as [[[k lo] hi]|] eqn:Hl; [|intros [= <- <-]; lia].
  change 31%Z with (Z.ones 5). change 15%Z with (Z.ones 4). change 7%Z with (Z.ones 3).
  rewrite !Z.land_ones by lia.
  apply rune_lead_cases in Hl as [(-> & Hb & -> & ->)|[(-> & Hb & Hs & H1 & H2)|(-> & Hb & Hs & H1 & H2)]].
  - destruct s as [|c1 s]; [intros [= <- <-]; lia|].
    destruct (in_span _ _ c1) eqn:E1; [|intros [= <- <-]; lia]. apply in_span_true in E1.
    rewrite !land63. intros [= <- <-] _. unfold EncodeRune. cbn [take].
    rewrite (bool_decide_eq_false_2 (_ ∨ _)) by zlia. cbn zeta.
    rewrite bool_decide_eq_false_2, bool_decide_eq_true_2 by zlia.
    rewrite Z.shiftr_0_r, Z.shiftr_div_pow2, !land63 by lia.
    f_equal; [apply byte_eq; zlia|]. f_equal. apply byte_eq. zlia.
  - destruct s as [|c1 [|c2 s]]; [intros [= <- <-]; lia..|].
    destruct (in_span lo hi c1) eqn:E1; [|intros [= <- <-]; lia].
    destruct (in_span 128 191 c2) eqn:E2; [|intros [= <- <-]; lia].
    apply in_span_true in E1, E2. cbn [andb]. rewrite !land63. intros [= <- <-] _.
    unfold EncodeRune. cbn [take].
    rewrite (bool_decide_eq_false_2 (_ ∨ _)) by zlia. cbn zeta.
    do 2 rewrite bool_decide_eq_false_2 by zlia. rewrite bool_decide_eq_true_2 by zlia.
    rewrite Z.shiftr_0_r, !Z.shiftr_div_pow2, !land63 by lia.
    f_equal; [apply byte_eq; zlia|]. f_equal; [apply byte_eq; zlia|]. f_equal. apply byte_eq. zlia.
  - destruct s as [|c1 [|c2 [|c3 s]]]; [intros [= <- <-]; lia..|].
    destruct (in_span lo hi c1) eqn:E1; [|intros [= <- <-]; lia].
    destruct (in_span 128 191 c2) eqn:E2; [|intros [= <- <-]; lia].
    destruct (in_span 128 191 c3) eqn:E3; [|intros [= <- <-]; lia].
    apply in_span_true in E1, E2, E3. cbn [andb]. rewrite !land63. intros [= <- <-] _.
    unfold EncodeRune. cbn [take].
    rewrite (bool_decide_eq_false_2 (_ ∨ _)) by zlia. cbn zeta.
    do 3 rewrite bool_decide_eq_false_2 by zlia.
    rewrite Z.shiftr_0_r, !Z.shiftr_div_pow2, !land63 by lia.
    f_equal; [apply byte_eq; zlia|]. f_equal; [apply byte_eq; zlia|].
    f_equal; [apply byte_eq; zlia|]. f_equal. apply byte_eq. zlia.
Qed.

(** ** Replacing what is not UTF-8 *)

Fixpoint sanitize_fuel (fuel : nat) (s : bytes) : bytes :=
  match fuel, s with
  | S fuel, c :: rest =>
      if bool_decide (byte_to_Z c < 128)%Z then c :: sanitize_fuel fuel rest
      else
        let n := (DecodeRune s).2 in
        if bool_decide (n ≤ 1) then EncodeRune RuneError ++ sanitize_fuel fuel rest
        else take n s ++ sanitize_fuel fuel (drop n s)
  | _, _ => []
  end.

(** [strings.ToValidUTF8] byte by byte, as [encoding/json] does it. *)
Definition sanitize (s : bytes) : bytes := sanitize_fuel (length s) s.

Definition utf8_Valid (s : bytes) : bool := bool_decide (sanitize s = s).

Lemma sanitize_ascii s : Forall (λ c, byte_to_Z c < 128)%Z s → sanitize s = s.
Proof.
  unfold sanitize. induction 1 as [|c s Hc _ IH]; [done|]. cbn.
  rewrite bool_decide_eq_true_2 by done. by rewrite IH.
Qed.
