(* ===== verification/Json.v ===== *)
(** * JSON ([encoding/json] of the Go library)

    What the module manifests and the HTTP extension use of the library:
    [Marshal] and [Encoder] on strings, integers, slices and structs, [Valid],
    [Unmarshal] and [Decoder] on the same. A document is parsed to a [jvalue];
    decoding into a Go value goes through it. *)

From S2P Require Import Prelude Utf8 Text.

Inductive jvalue :=
  | JNull
  | JBool (b : bool)
  | JNumber (text : bytes)
  | JString (text : bytes)
  | JArray (items : list jvalue)
  | JObject (members : list (bytes * jvalue)).

Definition Quote : Byte.byte := Byte.x22.
Definition BackQuote : Byte.byte := "\".

(** ** Strings *)

Definition hex_digit (n : Z) : Byte.byte :=
  if bool_decide (n < 10)%Z then byte_of_Z (48 + n) else byte_of_Z (87 + n).

Definition hex_value (c : Byte.byte) : option Z :=
  if in_range "0" "9" c then Some (byte_to_Z c - 48)%Z
  else if in_range "a" "f" c then Some (byte_to_Z c - 87)%Z
  else if in_range "A" "F" c then Some (byte_to_Z c - 55)%Z
  else None.

Definition quote_ascii (c : Byte.byte) : bytes :=
  if bool_decide (c = Quote ∨ c = BackQuote) then [BackQuote; c]
  else if bool_decide (c = Byte.x08) then [BackQuote; "b"%byte]
  else if bool_decide (c = Byte.x0c) then [BackQuote; "f"%byte]
  else if bool_decide (c = Byte.x0a) then [BackQuote; "n"%byte]
  else if bool_decide (c = Byte.x0d) then [BackQuote; "r"%byte]
  else if bool_decide (c = Byte.x09) then [BackQuote; "t"%byte]
  else if bool_decide ((byte_to_Z c < 32)%Z ∨ c ∈ ["<"; ">"; "&"]%byte)
  then [BackQuote; "u"; "0"; "0"; hex_digit (byte_to_Z c / 16); hex_digit (byte_to_Z c mod 16)]%byte
  else [c].

(** The text between the quotes: HTML characters and line separators are
    escaped, an invalid byte becomes the replacement character. *)
Fixpoint quote_body (fuel : nat) (s : bytes) : bytes :=
  match fuel, s with
  | S fuel, c :: rest =>
      if bool_decide (byte_to_Z c < 128)%Z then quote_ascii c ++ quote_body fuel rest
      else
        let '(r, n) := DecodeRune s in
        if bool_decide (n ≤ 1) then [BackQuote; "u"; "f"; "f"; "f"; "d"]%byte ++ quote_body fuel rest
        else if bool_decide (r = 8232 ∨ r = 8233)%Z
        then [BackQuote; "u"; "2"; "0"; "2"; hex_digit (Z.land r 15)]%byte
               ++ quote_body fuel (drop n s)
        else take n s ++ quote_body fuel (drop n s)
  | _, _ => []
  end.

Definition quote (s : bytes) : bytes := Quote :: quote_body (length s) s ++ [Quote].

Definition hex4 (s : bytes) : option (Z * bytes) :=
  match s with
  | a :: b :: c :: d :: rest =>
      match hex_value a, hex_value b, hex_value c, hex_value d with
      | Some a, Some b, Some c, Some d => Some ((((a * 16 + b) * 16 + c) * 16 + d)%Z, rest)
      | _, _, _, _ => None
      end
  | _ => None
  end.

(** A [\u] escape, its digits at the head of [s]: the bytes it stands for. A
    surrogate needs its partner right after it. *)
Definition unescape_unicode (s : bytes) : option (bytes * bytes) :=
  match hex4 s with
  | None => None
  | Some (r, rest) =>
      if IsSurrogate r then
        match rest with
        | a :: b :: rest' =>
            match (if bool_decide (a = BackQuote ∧ b = "u"%byte) then hex4 rest' else None) with
            | Some (r2, rest'') =>
                let dec := DecodeSurrogates r r2 in
                if bool_decide (dec = RuneError) then Some (EncodeRune RuneError, rest)
                else Some (EncodeRune dec, rest'')
            | None => Some (EncodeRune RuneError, rest)
            end
        | _ => Some (EncodeRune RuneError, rest)
        end
      else Some (EncodeRune r, rest)
  end.

Definition unescape_simple (c : Byte.byte) : option Byte.byte :=
  if bool_decide (c = Quote ∨ c = BackQuote ∨ c = "/"%byte) then Some c
  else if bool_decide (c = "b"%byte) then Some Byte.x08
  else if bool_decide (c = "f"%byte) then Some Byte.x0c
  else if bool_decide (c = "n"%byte) then Some Byte.x0a
  else if bool_decide (c = "r"%byte) then Some Byte.x0d
  else if bool_decide (c = "t"%byte) then Some Byte.x09
  else None.

(** The rest of a string literal after its opening quote. *)
Fixpoint unquote (fuel : nat) (s : bytes) : option (bytes * bytes) :=
  match fuel, s with
  | S fuel, c :: rest =>
      let more (prefix : bytes) (rest : bytes) :=
        '(text, rest) ← unquote fuel rest; Some (prefix ++ text, rest) in
      if bool_decide (c = Quote) then Some ([], rest)
      else if bool_decide (c = BackQuote) then
        match rest with
        | [] => None
        | e :: rest =>
            if bool_decide (e = "u"%byte)
            then '(text, rest) ← unescape_unicode rest; more text rest
            else d ← unescape_simple e; more [d] rest
        end
      else if bool_decide (byte_to_Z c < 32)%Z then None
      else if bool_decide (byte_to_Z c < 128)%Z then more [c] rest
      else
        let n := (DecodeRune s).2 in
        if bool_decide (n ≤ 1) then more (EncodeRune RuneError) rest
        else more (take n s) (drop n s)
  | _, _ => None
  end.

(** ** Parsing *)

Definition is_json_space (c : Byte.byte) : bool :=
  bool_decide (c ∈ [" "; Byte.x09; Byte.x0a; Byte.x0d]%byte).

Fixpoint skip_space (s : bytes) : bytes :=
  match s with
  | c :: rest => if is_json_space c then skip_space rest else s
  | [] => []
  end.

Fixpoint span_digits (s : bytes) : bytes * bytes :=
  match s with
  | c :: rest => if is_digit c then let '(d, r) := span_digits rest in (c :: d, r) else ([], s)
  | [] => ([], [])
  end.

(** A fraction or an exponent, if one starts here. *)
Definition lex_fraction (s : bytes) : option (bytes * bytes) :=
  match s with
  | c :: rest =>
      if bool_decide (c = "."%byte) then
        match span_digits rest with
        | ([], _) => None
        | (d, rest) => Some (c :: d, rest)
        end
      else Some ([], s)
  | [] => Some ([], [])
  end.

Definition lex_exponent (s : bytes) : option (bytes * bytes) :=
  match s with
  | c :: rest =>
      if bool_decide (c = "e"%byte ∨ c = "E"%byte) then
        let '(sign, rest) := match rest with
                             | x :: rest' => if bool_decide (x = "+"%byte ∨ x = "-"%byte)
                                             then ([x], rest') else ([], rest)
                             | [] => ([], [])
                             end in
        match span_digits rest with
        | ([], _) => None
        | (d, rest) => Some (c :: sign ++ d, rest)
        end
      else Some ([], s)
  | [] => Some ([], [])
  end.

Definition lex_number (s : bytes) : option (bytes * bytes) :=
  let '(sign, s) := match s with
                    | c :: rest => if bool_decide (c = "-"%byte) then ([c], rest) else ([], s)
                    | [] => ([], [])
                    end in
  '(int, s) ← match s with
              | c :: rest => if bool_decide (c = "0"%byte) then Some ([c], rest)
                             else match span_digits s with
                                  | ([], _) => None
                                  | (d, rest) => Some (d, rest)
                                  end
              | [] => None
              end;
  '(frac, s) ← lex_fraction s;
  '(exp, s) ← lex_exponent s;
  Some (sign ++ int ++ frac ++ exp, s).

Definition strip_prefix (p s : bytes) : option bytes :=
  if bool_decide (take (length p) s = p) then Some (drop (length p) s) else None.

(** [maxNestingDepth]. *)
Definition maxDepth : Z := 10000.

Fixpoint parse_value (fuel : nat) (depth : Z) (s : bytes) : option (jvalue * bytes) :=
  match fuel with
  | O => None
  | S fuel =>
      match skip_space s with
      | [] => None
      | c :: rest =>
          if bool_decide (c = Quote) then
            '(text, rest) ← unquote (length rest) rest; Some (JString text, rest)
          else if bool_decide (c = "["%byte) then
            if bool_decide (maxDepth < depth + 1)%Z then None
            else match skip_space rest with
                 | x :: rest' => if bool_decide (x = "]"%byte) then Some (JArray [], rest')
                                 else '(items, rest) ← parse_items fuel (depth + 1) rest;
                                      Some (JArray items, rest)
                 | [] => None
                 end
          else if bool_decide (c = "{"%byte) then
            if bool_decide (maxDepth < depth + 1)%Z then None
            else match skip_space rest with
                 | x :: rest' => if bool_decide (x = "}"%byte) then Some (JObject [], rest')
                                 else '(members, rest) ← parse_members fuel (depth + 1) rest;
                                      Some (JObject members, rest)
                 | [] => None
                 end
          else if bool_decide (c = "n"%byte) then
            rest ← strip_prefix ⟦"ull"⟧ rest; Some (JNull, rest)
          else if bool_decide (c = "t"%byte) then
            rest ← strip_prefix ⟦"rue"⟧ rest; Some (JBool true, rest)
          else if bool_decide (c = "f"%byte) then
            rest ← strip_prefix ⟦"alse"⟧ rest; Some (JBool false, rest)
          else '(text, rest) ← lex_number (c :: rest); Some (JNumber text, rest)
      end
  end
with parse_items (fuel : nat) (depth : Z) (s : bytes) : option (list jvalue * bytes) :=
  match fuel with
  | O => None
  | S fuel =>
      '(item, rest) ← parse_value fuel depth s;
      match skip_space rest with
      | x :: rest => if bool_decide (x = "]"%byte) then Some ([item], rest)
                     else if bool_decide (x = ","%byte) then
                       '(items, rest) ← parse_items fuel depth rest; Some (item :: items, rest)
                     else None
      | [] => None
      end
  end
with parse_members (fuel : nat) (depth : Z) (s : bytes)
    : option (list (bytes * jvalue) * bytes) :=
  match fuel with
  | O => None
  | S fuel =>
      match skip_space s with
      | q :: rest =>
          if bool_decide (q = Quote) then
            '(name, rest) ← unquote (length rest) rest;
            match skip_space rest with
            | x :: rest =>
                if bool_decide (x = ":"%byte) then
                  '(value, rest) ← parse_value fuel depth rest;
                  match skip_space rest with
                  | x :: rest =>
                      if bool_decide (x = "}"%byte) then Some ([(name, value)], rest)
                      else if bool_decide (x = ","%byte) then
                        '(members, rest) ← parse_members fuel depth rest;
                        Some ((name, value) :: members, rest)
                      else None
                  | [] => None
                  end
                else None
            | [] => None
            end
          else None
      | [] => None
      end
  end.

(** [Decoder.Decode]: the next value of a stream and what follows it. Two
    calls to a byte suffice. *)
Definition decode_next (s : bytes) : option (jvalue * bytes) :=
  parse_value (2 * length s + 2) 0 s.

(** [Unmarshal] checks the whole document first. *)
Definition parse_document (s : bytes) : option jvalue :=
  match decode_next s with
  | Some (v, rest) => if bool_decide (skip_space rest = []) then Some v else None
  | None => None
  end.

Definition json_Valid (s : bytes) : bool :=
  match parse_document s with Some _ => true | None => false end.

(** ** Printing *)

Fixpoint commas (l : list bytes) : bytes :=
  match l with
  | [] => []
  | [x] => x
  | x :: l => x ++ ","%byte :: commas l
  end.

(** [Marshal]. *)
Fixpoint marshal (v : jvalue) : bytes :=
  match v with
  | JNull => ⟦"null"⟧
  | JBool true => ⟦"true"⟧
  | JBool false => ⟦"false"⟧
  | JNumber text => text
  | JString text => quote text
  | JArray items => "["%byte :: commas (marshal <$> items) ++ ["]"%byte]
  | JObject members =>
      "{"%byte :: commas ((λ m, quote m.1 ++ ":"%byte :: marshal m.2) <$> members) ++ ["}"%byte]
  end.

(** [Encoder.Encode] ends a value with a line feed. *)
Definition encode_line (v : jvalue) : bytes := marshal v ++ [Byte.x0a].

Definition JInt (z : Z) : jvalue := JNumber (format_int z).

(** ** Decoding into Go values

    A decoder stores into the target or reports an error; an error of one
    field does not stop the others, but fails the whole call. *)

Section decode.
Context {GT : GoText}.

Definition set_string {S} (f : bytes → S → S) (v : jvalue) (s : S) : option S :=
  match v with JString t => Some (f t s) | JNull => Some s | _ => None end.

Definition set_int {S} (f : Z → S → S) (v : jvalue) (s : S) : option S :=
  match v with
  | JNumber t => z ← parse_int 64 t; Some (f z s)
  | JNull => Some s
  | _ => None
  end.

(** A slice: [null] makes it nil, an array replaces it. *)
Definition set_slice {S A} (zero : A) (elem : jvalue → A → option A)
    (f : option (list A) → S → S) (v : jvalue) (s : S) : option S :=
  match v with
  | JNull => Some (f None s)
  | JArray items => l ← mapM (λ item, elem item zero) items; Some (f (Some l) s)
  | _ => None
  end.

Definition decode_string (v : jvalue) (s : bytes) : option bytes := set_string (λ t _, t) v s.

(** The field a member name selects: the exact name, else one that differs
    in case only. *)
Definition find_field {A} (fields : list (bytes * A)) (name : bytes) : option A :=
  match list_find (λ f, f.1 = name) fields with
  | Some (_, f) => Some f.2
  | None => match list_find (λ f, strings_EqualFold f.1 name = true) fields with
            | Some (_, f) => Some f.2
            | None => None
            end
  end.

Fixpoint set_members {S} (strict : bool) (fields : list (bytes * (jvalue → S → option S)))
    (members : list (bytes * jvalue)) (s : S) : option S :=
  match members with
  | [] => Some s
  | (name, v) :: members =>
      match find_field fields name with
      | Some set => s ← set v s; set_members strict fields members s
      | None => if strict then None else set_members strict fields members s
      end
  end.

(** A struct with the given fields; [strict] is [DisallowUnknownFields]. *)
Definition set_struct {S} (strict : bool) (fields : list (bytes * (jvalue → S → option S)))
    (v : jvalue) (s : S) : option S :=
  match v with
  | JObject members => set_members strict fields members s
  | JNull => Some s
  | _ => None
  end.

(** [Unmarshal(data, &items)] for [items []string]: [Some None] is nil. *)
Definition unmarshal_strings (data : bytes) : option (option (list bytes)) :=
  v ← parse_document data; set_slice [] decode_string (λ l _, l) v None.
End decode.

(** [Marshal] of a slice of strings; a nil slice is [null]. *)
Definition marshal_strings (items : option (list bytes)) : bytes :=
  match items with
  | None => marshal JNull
  | Some items => marshal (JArray (JString <$> items))
  end.

Example json_examples :
  parse_document ⟦" { 'a' : [ 1 , -2.5e+3 , null ] } "⟧ = None
  ∧ parse_document (⟦"{"⟧ ++ quote ⟦"a<b"⟧ ++ ⟦": [1 , -2.5e+3,true] }"⟧)
    = Some (JObject [(⟦"a<b"⟧, JArray [JNumber ⟦"1"⟧; JNumber ⟦"-2.5e+3"⟧; JBool true])])
  ∧ json_Valid ⟦"01"⟧ = false ∧ json_Valid ⟦"[1,]"⟧ = false ∧ json_Valid ⟦"nulls"⟧ = false.
Proof. by vm_compute. Qed.
