(* ===== verification/JsonProps.v ===== *)
(** * Reading JSON back

    What [Marshal] prints is parsed to the same value, strings with their
    invalid bytes replaced. *)

From Stdlib Require Import Decimal DecimalN DecimalFacts.
From S2P Require Import Prelude Utf8 Text Json.

(** ** Strings *)

Definition extend (prefix : bytes) (r : option (bytes * bytes)) : option (bytes * bytes) :=
  '(text, rest) ← r; Some (prefix ++ text, rest).

Lemma unquote_ascii c fuel x :
  (byte_to_Z c < 128)%Z → unquote (S fuel) (quote_ascii c ++ x) = extend [c] (unquote fuel x).
Proof. intros Hc. destruct c; try (by vm_compute in Hc); vm_compute; reflexivity. Qed.

Lemma unquote_replacement fuel x :
  unquote (S fuel) ([BackQuote; "u"; "f"; "f"; "f"; "d"]%byte ++ x)
  = extend (EncodeRune RuneError) (unquote fuel x).
Proof. cbn [app unquote]. by rewrite bool_decide_eq_false_2, bool_decide_eq_true_2 by done. Qed.

Lemma unquote_separator r fuel x :
  (r = 8232 ∨ r = 8233)%Z →
  unquote (S fuel) ([BackQuote; "u"; "2"; "0"; "2"; hex_digit (Z.land r 15)]%byte ++ x)
  = extend (EncodeRune r) (unquote fuel x).
Proof.
  intros Hr. cbn [app unquote]. rewrite bool_decide_eq_false_2, !bool_decide_eq_true_2 by done.
  by destruct Hr as [-> | ->].
Qed.

Lemma unquote_rune c s r n fuel x :
  (128 ≤ byte_to_Z c)%Z → DecodeRune (c :: s) = (r, n) → 2 ≤ n ≤ length (c :: s) →
  (∀ s', DecodeRune (take n (c :: s) ++ s') = (r, n)) →
  unquote (S fuel) (take n (c :: s) ++ x) = extend (take n (c :: s)) (unquote fuel x).
Proof.
  intros Hc Hd Hn Hs. destruct n as [|n]; [lia|].
  cbn [take app]. cbn [unquote].
  rewrite bool_decide_eq_false_2 by (intros ->; vm_compute in Hc; by destruct Hc).
  rewrite bool_decide_eq_false_2 by (intros ->; vm_compute in Hc; by destruct Hc).
  do 2 rewrite bool_decide_eq_false_2 by lia.
  specialize (Hs x). cbn [take app] in Hs. rewrite Hs. cbn [snd].
  rewrite bool_decide_eq_false_2 by lia. cbn [take drop].
  cbn [length] in Hn.
  by rewrite take_app_length', drop_app_length' by (rewrite length_take; lia).
Qed.

Lemma quote_ascii_nonempty c : 1 ≤ length (quote_ascii c).
Proof. unfold quote_ascii. repeat case_bool_decide; cbn; lia. Qed.

Lemma unquote_quote fuel : ∀ s fuel' rest,
  length s ≤ fuel → length (quote_body fuel s) < fuel' →
  unquote fuel' (quote_body fuel s ++ Quote :: rest) = Some (sanitize_fuel fuel s, rest).
Proof.
  induction fuel as [|fuel IH]; intros s [|fuel'] rest Hs Hf; [lia| |lia|].
  { by destruct s. }
  destruct s as [|c s]; [done|]. cbn [length] in Hs.
  cbn [quote_body sanitize_fuel] in *. case_bool_decide as Hc.
  - rewrite <-app_assoc, unquote_ascii by done. pose proof (quote_ascii_nonempty c).
    rewrite length_app in Hf. by rewrite IH by lia.
  - destruct (DecodeRune_width c s ltac:(lia)) as [Hd|(r & n & Hd & Hn & Hw)]; rewrite Hd in *;
      cbn [snd] in *.
    + rewrite bool_decide_eq_true_2 in * by lia. rewrite <-app_assoc, unquote_replacement.
      rewrite length_app in Hf. cbn [length] in Hf. by rewrite IH by lia.
    + rewrite bool_decide_eq_false_2 in * by lia. cbn [length] in Hn.
      assert (length (drop n (c :: s)) ≤ fuel) by (rewrite length_drop; cbn [length]; lia).
      case_bool_decide as Hr; rewrite <-app_assoc; rewrite length_app in Hf.
      * rewrite unquote_separator by done. cbn [length] in Hf. rewrite IH by lia.
        by rewrite (EncodeRune_DecodeRune c s r n) by (done || lia).
      * rewrite (unquote_rune c s r n) by (done || (cbn [length]; lia)).
        rewrite length_take in Hf. cbn [length] in Hf. by rewrite IH by lia.
Qed.

Lemma unquote_literal s rest :
  unquote (length (quote_body (length s) s ++ Quote :: rest)) (quote_body (length s) s ++ Quote :: rest)
  = Some (sanitize s, rest).
Proof. apply unquote_quote; [done|]. rewrite length_app. cbn. lia. Qed.

(** ** Numbers *)

(** What may follow a number without becoming part of it. *)
Definition stops (rest : bytes) : Prop :=
  match rest with
  | [] => True
  | c :: _ => is_digit c = false ∧ c ∉ ["."; "e"; "E"]%byte
  end.

Lemma span_digits_all d rest :
  Forall (λ c, is_digit c = true) d → stops rest → span_digits (d ++ rest) = (d, rest).
Proof.
  intros Hd Hr. induction Hd as [|c d Hc _ IH]; cbn.
  - destruct rest as [|c rest]; [done|]. cbn in Hr. cbn. by destruct Hr as [-> _].
  - rewrite Hc. by rewrite IH.
Qed.

Lemma format_nat_head n : format_nat n = ["0"%byte] ∨ ∃ c d, format_nat n = c :: d ∧ c ≠ "0"%byte.
Proof.
  unfold format_nat.
  assert (N.to_uint n = Decimal.unorm (N.to_uint n)) as Hd.
  { rewrite <-DecimalN.Unsigned.to_of. by rewrite DecimalN.Unsigned.of_to. }
  revert Hd. generalize (N.to_uint n). intros d Hd.
  destruct d as [|d|d|d|d|d|d|d|d|d|d]; [by exfalso| |right; by eexists _, _..].
  left. unfold Decimal.unorm in Hd. cbn in Hd.
  destruct (Decimal.nzhead d) eqn:Hz; try (by simplify_eq).
  exfalso. by apply (DecimalFacts.nzhead_nonzero d u).
Qed.

Lemma lex_tail rest : stops rest → lex_fraction rest = Some ([], rest) ∧ lex_exponent rest = Some ([], rest).
Proof.
  destruct rest as [|c rest]; [done|]. intros [_ Hc]. cbn.
  rewrite !bool_decide_eq_false_2 by set_solver. done.
Qed.

Lemma lex_number_nat n rest :
  stops rest →
  (match format_nat n ++ rest with
   | c :: rest => if bool_decide (c = "0"%byte) then Some ([c], rest)
                  else match span_digits (c :: rest) with
                       | ([], _) => None
                       | (d, rest) => Some (d, rest)
                       end
   | [] => None
   end) = Some (format_nat n, rest).
Proof.
  intros Hr. pose proof (format_nat_digits n) as Hd.
  destruct (format_nat_head n) as [-> |(c & d & He & Hc)]; [done|].
  rewrite He in *. cbn [app]. rewrite bool_decide_eq_false_2 by done.
  change (c :: d ++ rest) with ((c :: d) ++ rest). by rewrite span_digits_all.
Qed.

Lemma lex_number_format z rest :
  stops rest → lex_number (format_int z ++ rest) = Some (format_int z, rest).
Proof.
  intros Hr. destruct (lex_tail rest Hr) as [Hf He]. unfold lex_number, format_int.
  destruct (z <? 0)%Z.
  - cbn [app]. rewrite bool_decide_eq_true_2 by done.
    pose proof (lex_number_nat (Z.to_N (- z)) rest Hr) as Hn.
    destruct (format_nat (Z.to_N (- z)) ++ rest) as [|c r] eqn:E; [done|]. cbn -[span_digits] in Hn |- *.
    rewrite Hn. cbn. rewrite Hf. cbn. rewrite He. cbn. by rewrite app_nil_r.
  - pose proof (lex_number_nat (Z.to_N z) rest Hr) as Hn.
    assert (∀ c r, format_nat (Z.to_N z) ++ rest = c :: r → c ≠ "-"%byte) as Hm.
    { intros c r Hc ->. pose proof (format_nat_digits (Z.to_N z)) as Hd.
      pose proof (format_nat_nonempty (Z.to_N z)). destruct (format_nat _) as [|x l]; [done|].
      by simplify_eq/=. }
    destruct (format_nat (Z.to_N z) ++ rest) as [|c r] eqn:E; [done|].
    rewrite bool_decide_eq_false_2 by (by eapply Hm). cbn -[span_digits] in Hn |- *.
    rewrite Hn. cbn. rewrite Hf. cbn. rewrite He. cbn. by rewrite app_nil_r.
Qed.

(** ** Values *)

Section jvalue_induction.
Context (P : jvalue → Prop).
Context (Hnull : P JNull) (Hbool : ∀ b, P (JBool b)) (Hnum : ∀ t, P (JNumber t))
  (Hstr : ∀ t, P (JString t))
  (Harr : ∀ items, Forall P items → P (JArray items))
  (Hobj : ∀ members, Forall (λ m, P m.2) members → P (JObject members)).

Fixpoint jvalue_ind' (v : jvalue) : P v :=
  match v with
  | JNull => Hnull
  | JBool b => Hbool b
  | JNumber t => Hnum t
  | JString t => Hstr t
  | JArray items => Harr items
      ((fix go (l : list jvalue) : Forall P l :=
          match l with
          | [] => List.Forall_nil P
          | x :: l => List.Forall_cons P x l (jvalue_ind' x) (go l)
          end) items)
  | JObject members => Hobj members
      ((fix go (l : list (bytes * jvalue)) : Forall (λ m, P m.2) l :=
          match l with
          | [] => List.Forall_nil _
          | x :: l => List.Forall_cons _ x l (jvalue_ind' x.2) (go l)
          end) members)
  end.
End jvalue_induction.

(** Numbers printed by [FormatInt]. *)
Fixpoint printable (v : jvalue) : Prop :=
  match v with
  | JNumber t => ∃ z, t = format_int z
  | JArray items => foldr (λ x Q, printable x ∧ Q) True items
  | JObject members => foldr (λ m Q, printable m.2 ∧ Q) True members
  | _ => True
  end.

(** What the reader gets: text that is not UTF-8 is replaced. *)
Fixpoint clean (v : jvalue) : jvalue :=
  match v with
  | JString t => JString (sanitize t)
  | JArray items => JArray (clean <$> items)
  | JObject members => JObject ((λ m, (sanitize m.1, clean m.2)) <$> members)
  | v => v
  end.

Fixpoint height (v : jvalue) : nat :=
  match v with
  | JArray items => S (foldr (λ x n, height x `max` n) 0 items)
  | JObject members => S (foldr (λ m n, height m.2 `max` n) 0 members)
  | _ => 0
  end.

(** Nested calls of the parser. *)
Fixpoint need (v : jvalue) : nat :=
  match v with
  | JArray items => S (foldr (λ x n, S (need x `max` n)) 0 items)
  | JObject members => S (foldr (λ m n, S (need m.2 `max` n)) 0 members)
  | _ => 1
  end.

Lemma commas_cons x y l : commas (x :: y :: l) = x ++ ","%byte :: commas (y :: l).
Proof. done. Qed.

(** The first byte of a value is not space and closes nothing. *)
Lemma marshal_head v : printable v →
  ∃ c s, marshal v = c :: s ∧ is_json_space c = false ∧ c ≠ "]"%byte ∧ c ≠ "}"%byte.
Proof.
  destruct v as [|[]|t|t|items|members]; intros Hp; try (eexists _, _; split; [done|]; done).
  cbn in Hp. destruct Hp as [z ->]. cbn. unfold format_int. destruct (z <? 0)%Z.
  - by eexists _, _.
  - pose proof (format_nat_digits (Z.to_N z)) as Hd. pose proof (format_nat_nonempty (Z.to_N z)) as Hn.
    destruct (format_nat (Z.to_N z)) as [|c s]; [done|]. apply Forall_cons in Hd as [Hc _].
    exists c, s. split; [done|]. by destruct c.
Qed.

Lemma skip_space_head c s : is_json_space c = false → skip_space (c :: s) = c :: s.
Proof. intros H. cbn. by rewrite H. Qed.

Definition parses_back (v : jvalue) : Prop :=
  ∀ fuel depth rest, printable v → need v ≤ fuel → (depth + Z.of_nat (height v) ≤ maxDepth)%Z →
    stops rest → parse_value fuel depth (marshal v ++ rest) = Some (clean v, rest).

Lemma stops_close c rest : c ∈ [","; "]"; "}"]%byte → stops (c :: rest).
Proof. intros Hc. cbn. repeat (apply elem_of_cons in Hc as [-> |Hc]; [split; [done|set_solver]|]). by apply not_elem_of_nil in Hc. Qed.

Lemma parse_items_back items : ∀ x fuel depth rest,
  Forall parses_back (x :: items) →
  foldr (λ x Q, printable x ∧ Q) True (x :: items) →
  foldr (λ x n, S (need x `max` n)) 0 (x :: items) ≤ fuel →
  (depth + Z.of_nat (foldr (λ x n, height x `max` n)%nat 0%nat (x :: items)) ≤ maxDepth)%Z →
  parse_items fuel depth (commas (marshal <$> x :: items) ++ "]"%byte :: rest)
  = Some (clean <$> x :: items, rest).
Proof.
  induction items as [|y items IH]; intros x [|fuel] depth rest Hall Hp Hf Hd;
    [cbn in Hf; lia| |cbn in Hf; lia|]; apply Forall_cons in Hall as [Hx Hall];
    destruct Hp as [Hpx Hp]; cbn [foldr] in Hf, Hd; cbn [parse_items].
  - cbn [fmap list_fmap commas]. rewrite Hx; [|done|lia|lia|by apply stops_close; set_solver].
    cbn [mbind option_bind]. by rewrite skip_space_head.
  - rewrite !fmap_cons, commas_cons, <-app_assoc, <-!fmap_cons. cbn [app].
    rewrite Hx; [|done|lia|lia|by apply stops_close; set_solver].
    cbn [mbind option_bind]. rewrite skip_space_head by done. 
    rewrite bool_decide_eq_false_2, bool_decide_eq_true_2 by done.
    rewrite IH; [done|done|done|cbn [foldr] in *; lia|cbn [foldr] in *; lia].
Qed.

Definition print_member (m : bytes * jvalue) : bytes := quote m.1 ++ ":"%byte :: marshal m.2.

Definition clean_member (m : bytes * jvalue) : bytes * jvalue := (sanitize m.1, clean m.2).

Lemma parse_members_back members : ∀ m fuel depth rest,
  Forall (λ m, parses_back m.2) (m :: members) →
  foldr (λ m Q, printable m.2 ∧ Q) True (m :: members) →
  foldr (λ m n, S (need m.2 `max` n)) 0 (m :: members) ≤ fuel →
  (depth + Z.of_nat (foldr (λ m n, height m.2 `max` n)%nat 0%nat (m :: members)) ≤ maxDepth)%Z →
  parse_members fuel depth
    (commas (print_member <$> m :: members) ++ "}"%byte :: rest)
  = Some (clean_member <$> m :: members, rest).
Proof.
  induction members as [|m' members IH]; intros [k v] [|fuel] depth rest Hall Hp Hf Hd;
    [cbn in Hf; lia| |cbn in Hf; lia|]; apply Forall_cons in Hall as [Hx Hall];
    destruct Hp as [Hpx Hp]; cbn [foldr fst snd] in *; cbn [parse_members].
  - cbn [fmap list_fmap commas]. unfold print_member, clean_member, quote. cbn [fst snd]. cbn [app].
    rewrite skip_space_head by done. rewrite bool_decide_eq_true_2 by done.
    rewrite <-!app_assoc. cbn [app]. rewrite unquote_literal. cbn [mbind option_bind].
    rewrite skip_space_head by done. rewrite bool_decide_eq_true_2 by done.
    rewrite Hx; [|done|lia|lia|by apply stops_close; set_solver].
    cbn [mbind option_bind]. by rewrite skip_space_head.
  - rewrite !fmap_cons, commas_cons, <-app_assoc, <-!fmap_cons. unfold print_member at 1, quote at 1.
    cbn [fst snd app]. rewrite skip_space_head by done. rewrite bool_decide_eq_true_2 by done.
    rewrite <-!app_assoc. cbn [app]. rewrite unquote_literal. cbn [mbind option_bind].
    rewrite skip_space_head by done. rewrite bool_decide_eq_true_2 by done.
    rewrite Hx; [|done|lia|lia|by apply stops_close; set_solver].
    cbn [mbind option_bind]. rewrite skip_space_head by done.
    rewrite bool_decide_eq_false_2, bool_decide_eq_true_2 by done.
    rewrite IH; [done|done|done|lia|lia].
Qed.

Lemma value_parses_back v : parses_back v.
Proof.
  induction v as [|b|t|t|items IH|members IH] using jvalue_ind'; intros [|fuel] depth rest Hp Hf Hd Hr;
    try (cbn in Hf; lia); cbn [parse_value].
  - done.
  - by destruct b.
  - destruct (marshal_head _ Hp) as (c & s & Hm & Hsp & _). destruct Hp as [z Hz]. cbn [marshal] in *.
    rewrite Hm. cbn [app]. rewrite skip_space_head by done. subst t.
    assert (is_digit c = true ∨ c = "-"%byte) as Hc.
    { unfold format_int in Hm. destruct (z <? 0)%Z; [by simplify_eq/=; auto|].
      pose proof (format_nat_digits (Z.to_N z)) as Hdg. rewrite Hm in Hdg.
      apply Forall_cons in Hdg as [? _]. by left. }
    do 6 rewrite bool_decide_eq_false_2 by (intros ->; by destruct Hc).
    change (c :: s ++ rest) with ((c :: s) ++ rest). rewrite <-Hm, lex_number_format by done. done.
  - cbn [marshal]. unfold quote. cbn [app]. rewrite skip_space_head by done.
    rewrite bool_decide_eq_true_2 by done. rewrite <-app_assoc. cbn [app].
    by rewrite unquote_literal.
  - cbn [marshal app]. rewrite skip_space_head by done.
    rewrite bool_decide_eq_false_2, bool_decide_eq_true_2 by done.
    cbn [height] in Hd. rewrite bool_decide_eq_false_2 by lia.
    destruct items as [|x items]; [done|]. rewrite <-app_assoc. cbn [app].
    assert (∃ c s, commas (marshal <$> x :: items) ++ "]"%byte :: rest = c :: s
      ∧ is_json_space c = false ∧ c ≠ "]"%byte) as (c & s & Hs & Hsp & Hne).
    { destruct Hp as [Hx _]. destruct (marshal_head x Hx) as (c & s & Hm & ? & ? & _).
      destruct items; cbn; rewrite Hm; by eexists _, _. }
    rewrite Hs, skip_space_head by done. rewrite bool_decide_eq_false_2 by done. rewrite <-Hs.
    cbn [need] in Hf. by rewrite parse_items_back by (done || lia).
  - cbn [marshal app]. rewrite skip_space_head by done.
    do 2 rewrite bool_decide_eq_false_2 by done. rewrite bool_decide_eq_true_2 by done.
    cbn [height] in Hd. rewrite bool_decide_eq_false_2 by lia.
    destruct members as [|m members]; [done|]. rewrite <-app_assoc. cbn [app].
    assert (∃ s, commas (print_member <$> m :: members) ++ "}"%byte :: rest = Quote :: s) as [s Hs].
    { destruct members; cbn; by eexists. }
    fold print_member. change (λ m0 : bytes * jvalue, quote m0.1 ++ ":"%byte :: marshal m0.2) with print_member.
    rewrite Hs, skip_space_head by done. rewrite bool_decide_eq_false_2 by done. rewrite <-Hs.
    cbn [need] in Hf. rewrite parse_members_back by (done || lia). done.
Qed.

Lemma need_items_bound items :
  Forall (λ v, S (need v) ≤ 2 * length (marshal v)) items →
  foldr (λ x n, S (need x `max` n)) 0 items ≤ 2 * length (commas (marshal <$> items)).
Proof.
  induction 1 as [|x [|y items] Hx _ IH]; [done|cbn in *; lia|].
  rewrite !fmap_cons, commas_cons, <-fmap_cons, length_app. cbn [length].
  change (foldr _ 0 (x :: y :: items)) with (S (need x `max` foldr (λ x n, S (need x `max` n)) 0 (y :: items))).
  lia.
Qed.

Lemma need_members_bound members :
  Forall (λ m, S (need m.2) ≤ 2 * length (marshal m.2)) members →
  foldr (λ m n, S (need m.2 `max` n)) 0 members ≤ 2 * length (commas (print_member <$> members)).
Proof.
  induction 1 as [|x [|y members] Hx _ IH]; [done| |].
  - cbn [foldr fmap list_fmap commas]. unfold print_member. rewrite length_app. cbn [length]. lia.
  - rewrite !fmap_cons, commas_cons, <-fmap_cons, length_app. cbn [length].
    change (foldr _ 0 (x :: y :: members))
      with (S (need x.2 `max` foldr (λ m n, S (need m.2 `max` n)) 0 (y :: members))).
    unfold print_member at 1. rewrite length_app. cbn [length]. lia.
Qed.

Lemma need_bound v : printable v → S (need v) ≤ 2 * length (marshal v).
Proof.
  induction v as [|b|t|t|items IH|members IH] using jvalue_ind'; intros Hp;
    try (destruct (marshal_head _ Hp) as (c & s & -> & _); cbn [need length]; lia).
  - cbn [need marshal]. cbn [length]. rewrite length_app. cbn [length].
    assert (Forall (λ v, S (need v) ≤ 2 * length (marshal v)) items) as Hall.
    { clear -IH Hp. cbn [printable] in Hp. induction IH as [|x items Hx _ IHl]; [constructor|].
      destruct Hp. constructor; auto. }
    apply need_items_bound in Hall. lia.
  - cbn [need marshal]. cbn [length]. rewrite length_app. cbn [length].
    assert (Forall (λ m, S (need m.2) ≤ 2 * length (marshal m.2)) members) as Hall.
    { clear -IH Hp. cbn [printable] in Hp. induction IH as [|x members Hx _ IHl]; [constructor|].
      destruct Hp. constructor; auto. }
    apply need_members_bound in Hall. unfold print_member in Hall. lia.
Qed.

(** The next value of a stream that starts with a printed one. *)
Lemma decode_next_marshal v rest :
  printable v → (Z.of_nat (height v) ≤ maxDepth)%Z → stops rest →
  decode_next (marshal v ++ rest) = Some (clean v, rest).
Proof.
  intros Hp Hh Hr. unfold decode_next. apply value_parses_back; [done| |lia|done].
  pose proof (need_bound v Hp). rewrite length_app. lia.
Qed.

Lemma parse_document_marshal v :
  printable v → (Z.of_nat (height v) ≤ maxDepth)%Z → parse_document (marshal v) = Some (clean v).
Proof.
  intros Hp Hh. unfold parse_document. rewrite <-(app_nil_r (marshal v)).
  by rewrite decode_next_marshal.
Qed.

Lemma decode_next_line v :
  printable v → (Z.of_nat (height v) ≤ maxDepth)%Z →
  decode_next (encode_line v) = Some (clean v, [Byte.x0a]).
Proof. intros Hp Hh. by apply decode_next_marshal; [..|split; [done|set_solver]]. Qed.

Lemma printable_strings items : printable (JArray (JString <$> items)).
Proof. cbn. induction items; cbn; auto. Qed.

Lemma height_strings items : height (JArray (JString <$> items)) = 1.
Proof. cbn. f_equal. induction items; cbn; auto. Qed.

Lemma mapM_decode_strings items :
  mapM (λ item, decode_string item []) (JString <$> items) = Some items.
Proof. induction items as [|x items IH]; cbn; [done|]. by rewrite IH. Qed.

(** A slice of strings arrives with its invalid bytes replaced; nil stays
    nil. *)
Lemma unmarshal_marshal_strings items :
  unmarshal_strings (marshal_strings items) = Some (fmap (M := list) sanitize <$> items).
Proof.
  destruct items as [items|]; [|done]. unfold unmarshal_strings, marshal_strings.
  rewrite parse_document_marshal; [|apply printable_strings|rewrite height_strings; done].
  cbn [mbind option_bind clean]. rewrite <-list_fmap_compose.
  change (clean ∘ JString) with (JString ∘ sanitize). rewrite list_fmap_compose. cbn [set_slice].
  by rewrite mapM_decode_strings.
Qed.
