(* ===== verification/Base64.v ===== *)
(** * Unpadded base64 ([base64.RawURLEncoding], [base64.RawStdEncoding])

    [url] chooses the alphabet. Decoding skips carriage returns and line
    feeds, and does not look at the unused bits of the last character. *)

From S2P Require Import Prelude Text.

Definition base64_char (url : bool) (n : Z) : Byte.byte :=
  if bool_decide (n < 26)%Z then byte_of_Z (65 + n)
  else if bool_decide (n < 52)%Z then byte_of_Z (71 + n)
  else if bool_decide (n < 62)%Z then byte_of_Z (n - 4)
  else if bool_decide (n = 62)%Z then (if url then "-" else "+")%byte
  else (if url then "_" else "/")%byte.

Definition base64_value (url : bool) (c : Byte.byte) : option Z :=
  if in_range "A" "Z" c then Some (byte_to_Z c - 65)%Z
  else if in_range "a" "z" c then Some (byte_to_Z c - 71)%Z
  else if in_range "0" "9" c then Some (byte_to_Z c + 4)%Z
  else if bool_decide (c = (if url then "-" else "+")%byte) then Some 62%Z
  else if bool_decide (c = (if url then "_" else "/")%byte) then Some 63%Z
  else None.

Fixpoint base64_encode (url : bool) (s : bytes) : bytes :=
  match s with
  | [] => []
  | a :: s1 =>
      let a := byte_to_Z a in
      base64_char url (a / 4) ::
      match s1 with
      | [] => [base64_char url (a mod 4 * 16)]
      | b :: s2 =>
          let b := byte_to_Z b in
          base64_char url (a mod 4 * 16 + b / 16) ::
          match s2 with
          | [] => [base64_char url (b mod 16 * 4)]
          | c :: rest =>
              let c := byte_to_Z c in
              base64_char url (b mod 16 * 4 + c / 64) :: base64_char url (c mod 64)
              :: base64_encode url rest
          end
      end
  end.

Fixpoint base64_quanta (url : bool) (s : bytes) : option bytes :=
  match s with
  | [] => Some []
  | w :: s1 =>
      match s1 with
      | [] => None
      | x :: s2 =>
          w ← base64_value url w; x ← base64_value url x;
          let first := byte_of_Z (w * 4 + x / 16) in
          match s2 with
          | [] => Some [first]
          | y :: s3 =>
              y ← base64_value url y;
              let second := byte_of_Z (x mod 16 * 16 + y / 4) in
              match s3 with
              | [] => Some [first; second]
              | z :: rest =>
                  z ← base64_value url z;
                  rest ← base64_quanta url rest;
                  Some (first :: second :: byte_of_Z (y mod 4 * 64 + z) :: rest)
              end
          end
      end
  end.

Definition base64_decode (url : bool) (s : bytes) : option bytes :=
  base64_quanta url (filter (λ c, c ≠ Byte.x0d ∧ c ≠ Byte.x0a) s).

(** ** Lemmas *)

Lemma base64_value_char url n :
  (0 ≤ n < 64)%Z → base64_value url (base64_char url n) = Some n.
Proof.
  intros Hn. assert (∃ k, n = Z.of_nat k ∧ k < 64) as (k & -> & Hk) by (exists (Z.to_nat n); lia).
  clear Hn. do 64 (destruct k as [|k]; [by destruct url|]). lia.
Qed.

(** Characters that mean nothing special in a path or a query. *)
Definition unreserved (c : Byte.byte) : bool :=
  in_range "A" "Z" c || in_range "a" "z" c || in_range "0" "9" c
  || bool_decide (c = "-"%byte) || bool_decide (c = "_"%byte).

Lemma base64_char_unreserved n : (0 ≤ n < 64)%Z → unreserved (base64_char true n) = true.
Proof.
  intros Hn. assert (∃ k, n = Z.of_nat k ∧ k < 64) as (k & -> & Hk) by (exists (Z.to_nat n); lia).
  clear Hn. do 64 (destruct k as [|k]; [done|]). lia.
Qed.

Lemma base64_char_no_break url n :
  (0 ≤ n < 64)%Z → base64_char url n ≠ Byte.x0d ∧ base64_char url n ≠ Byte.x0a.
Proof.
  intros Hn. assert (∃ k, n = Z.of_nat k ∧ k < 64) as (k & -> & Hk) by (exists (Z.to_nat n); lia).
  clear Hn. do 64 (destruct k as [|k]; [by destruct url|]). lia.
Qed.

(** Induction by three bytes. *)
Lemma three_ind (P : bytes → Prop) :
  P [] → (∀ a, P [a]) → (∀ a b, P [a; b]) → (∀ a b c s, P s → P (a :: b :: c :: s)) → ∀ s, P s.
Proof.
  intros H0 H1 H2 H3. fix IH 1. intros [|a [|b [|c s]]]; [done|apply H1|apply H2|apply H3, IH].
Qed.

(** Six-bit groups of bytes. *)
Ltac sextets :=
  repeat match goal with
  | a : Byte.byte |- _ =>
      lazymatch goal with
      | _ : (0 ≤ byte_to_Z a < 256)%Z |- _ => fail
      | _ => pose proof (byte_to_Z_range a)
      end
  end.

Lemma base64_quanta_encode url s : base64_quanta url (base64_encode url s) = Some s.
Proof.
  induction s as [|a|a b|a b c s IH] using three_ind; [done|..]; sextets;
    cbn [base64_encode base64_quanta];
    rewrite !base64_value_char by zlia; cbn [mbind option_bind]; rewrite ?IH; cbn [mbind option_bind].
  all: repeat (f_equal; try (apply byte_eq; zlia)).
Qed.

Lemma base64_encode_chars url s (P : Byte.byte → Prop) :
  (∀ n, (0 ≤ n < 64)%Z → P (base64_char url n)) → Forall P (base64_encode url s).
Proof.
  intros HP. induction s as [|a|a b|a b c s IH] using three_ind; sextets; cbn [base64_encode];
    repeat constructor; try done; apply HP; zlia.
Qed.

Lemma base64_roundtrip url s : base64_decode url (base64_encode url s) = Some s.
Proof.
  unfold base64_decode. rewrite list_filter_all, base64_quanta_encode; [done|].
  apply base64_encode_chars. intros n. apply base64_char_no_break.
Qed.

Lemma base64_encode_nil url s : base64_encode url s = [] ↔ s = [].
Proof. by destruct s as [|a [|b [|c s]]]. Qed.
