(* ===== verification/PathClean.v ===== *)
(** * Slash-separated paths ([path.Clean], [path.IsAbs], [filepath.Join] on a
      system whose separator is the slash) *)

From S2P Require Import Prelude.

Definition SlashByte : Byte.byte := "/".

(** [strings.Split(s, sep)] for a one-byte separator. *)
Fixpoint split_on (sep : Byte.byte) (s : bytes) : list bytes :=
  match s with
  | [] => [[]]
  | c :: s =>
      if bool_decide (c = sep) then [] :: split_on sep s
      else match split_on sep s with
           | [] => [[c]]
           | seg :: segs => (c :: seg) :: segs
           end
  end.

(** [strings.Join(segs, sep)]. *)
Fixpoint join_with (sep : Byte.byte) (segs : list bytes) : bytes :=
  match segs with
  | [] => []
  | [s] => s
  | s :: segs => s ++ sep :: join_with sep segs
  end.

Definition Dot : bytes := ⟦"."⟧.
Definition DotDot : bytes := ⟦".."⟧.

(** One path element, on the stack of the elements kept so far. *)
Definition clean_step (rooted : bool) (stack : list bytes) (seg : bytes) : list bytes :=
  if bool_decide (seg = [] ∨ seg = Dot) then stack
  else if bool_decide (seg = DotDot) then
    match stack with
    | top :: below => if bool_decide (top = DotDot) then DotDot :: stack else below
    | [] => if rooted then [] else [DotDot]
    end
  else seg :: stack.

Definition clean_segs (rooted : bool) (segs : list bytes) : list bytes :=
  reverse (foldl (clean_step rooted) [] segs).

Definition path_IsAbs (p : bytes) : bool := bool_decide (head p = Some SlashByte).

Definition path_Clean (p : bytes) : bytes :=
  if bool_decide (p = []) then Dot
  else
    let rooted := path_IsAbs p in
    let segs := clean_segs rooted (split_on SlashByte p) in
    if rooted then SlashByte :: join_with SlashByte segs
    else if bool_decide (segs = []) then Dot
    else join_with SlashByte segs.

(** [filepath.Join(a, b)]. *)
Definition path_Join (a b : bytes) : bytes :=
  if bool_decide (a = []) then if bool_decide (b = []) then [] else path_Clean b
  else path_Clean (a ++ SlashByte :: b).

Example path_Clean_examples :
  path_Clean ⟦"a//b/./c/../d"⟧ = ⟦"a/b/d"⟧ ∧ path_Clean ⟦"/../x/"⟧ = ⟦"/x"⟧
  ∧ path_Clean ⟦"../../x"⟧ = ⟦"../../x"⟧ ∧ path_Clean ⟦"a/.."⟧ = ⟦"."⟧
  ∧ path_Clean [] = ⟦"."⟧ ∧ path_Clean ⟦"/"⟧ = ⟦"/"⟧
  ∧ path_Join ⟦"/opt/m"⟧ ⟦"lib/x.so"⟧ = ⟦"/opt/m/lib/x.so"⟧.
Proof. by vm_compute. Qed.

(** ** Lemmas *)

Lemma split_on_cons sep s : ∃ seg segs, split_on sep s = seg :: segs.
Proof.
  induction s as [|c s (seg & segs & IH)]; cbn; [eauto|].
  case_bool_decide; [eauto|]. rewrite IH. eauto.
Qed.

Lemma split_on_app sep a b :
  split_on sep (a ++ sep :: b) = split_on sep a ++ split_on sep b.
Proof.
  induction a as [|c a IH]; cbn; [by rewrite bool_decide_eq_true_2|].
  rewrite IH. case_bool_decide; [done|].
  destruct (split_on_cons sep a) as (seg & segs & ->). done.
Qed.

Lemma split_on_none sep s : sep ∉ s → split_on sep s = [s].
Proof.
  induction s as [|c s IH]; intros Hs; cbn; [done|].
  apply not_elem_of_cons in Hs as [Hc Hs]. rewrite bool_decide_eq_false_2 by congruence.
  by rewrite IH.
Qed.

Lemma join_split sep s : join_with sep (split_on sep s) = s.
Proof.
  induction s as [|c s IH]; [done|]. cbn.
  destruct (split_on_cons sep s) as (seg & segs & E). rewrite E in *.
  case_bool_decide as Hc; [by rewrite Hc, <-IH|]. rewrite <-IH. by destruct segs.
Qed.

Lemma split_join sep segs :
  segs ≠ [] → Forall (λ s, sep ∉ s) segs → split_on sep (join_with sep segs) = segs.
Proof.
  intros Hne Hall. induction Hall as [|s segs Hs Hall IH]; [done|].
  destruct segs as [|s' segs]; [by apply split_on_none|].
  change (join_with sep (s :: s' :: segs)) with (s ++ sep :: join_with sep (s' :: segs)).
  by rewrite split_on_app, split_on_none, IH.
Qed.

Lemma split_on_no_sep sep s : Forall (λ seg, sep ∉ seg) (split_on sep s).
Proof.
  induction s as [|c s IH]; cbn; [repeat constructor; set_solver|].
  case_bool_decide as Hc; [constructor; [set_solver|done]|].
  destruct (split_on_cons sep s) as (seg & segs & E). rewrite E in *.
  apply Forall_cons in IH as [? ?]. constructor; [|done]. set_solver.
Qed.

(** An ordinary path element. *)
Definition normal (seg : bytes) : Prop := seg ≠ [] ∧ seg ≠ Dot ∧ seg ≠ DotDot.

#[global] Instance normal_dec seg : Decision (normal seg).
Proof. unfold normal. apply _. Defined.

Lemma clean_step_normal rooted stack seg : normal seg → clean_step rooted stack seg = seg :: stack.
Proof.
  intros (? & ? & ?). unfold clean_step. by rewrite !bool_decide_eq_false_2 by tauto.
Qed.

Lemma clean_segs_app rooted a b :
  Forall normal b → clean_segs rooted (a ++ b) = clean_segs rooted a ++ b.
Proof.
  intros Hb. unfold clean_segs. rewrite foldl_app.
  generalize (foldl (clean_step rooted) [] a). intros stack.
  revert stack. induction Hb as [|seg b Hseg _ IH]; intros stack; cbn [foldl]; [by rewrite app_nil_r|].
  rewrite clean_step_normal, IH, reverse_cons by done. by rewrite <-app_assoc.
Qed.

(** The elements kept: some [..] at the start of a relative path, then
    ordinary ones. *)
Lemma clean_segs_shape rooted segs :
  ∃ up rest, clean_segs rooted segs = replicate up DotDot ++ rest ∧ Forall normal rest
    ∧ (rooted = true → up = 0).
Proof.
  unfold clean_segs. induction segs as [|seg l (up & rest & E & Hn & Hr)] using rev_ind.
  { by exists 0, []. }
  rewrite foldl_snoc.
  apply (f_equal reverse) in E. rewrite reverse_involutive in E. rewrite E.
  unfold clean_step. rewrite reverse_app.
  case_bool_decide as H1; [exists up, rest; by rewrite reverse_app, !reverse_involutive|].
  case_bool_decide as H2.
  - destruct rest as [|x rest _] using rev_ind.
    + cbn [reverse rev_append app]. rewrite reverse_replicate.
      destruct up as [|up]; cbn [replicate].
      * destruct rooted; [by exists 0, []|]. exists 1, []. by split_and!.
      * rewrite bool_decide_eq_true_2 by done. exists (S (S up)), []. split_and!; [|done|].
        -- by rewrite app_nil_r, <-(reverse_replicate (S (S up))).
        -- intros Hroot. by specialize (Hr Hroot).
    + rewrite reverse_app, reverse_singleton. cbn [app]. apply Forall_app in Hn as [Hn Hx].
      apply Forall_cons in Hx as [(_ & _ & Hx) _]. rewrite bool_decide_eq_false_2 by done.
      exists up, rest. split_and!; [|done..]. by rewrite reverse_app, !reverse_involutive.
  - exists up, (rest ++ [seg]). split_and!; [|apply Forall_app; split; [done|]|done].
    + by rewrite reverse_cons, reverse_app, !reverse_involutive, app_assoc.
    + constructor; [|done]. unfold normal. naive_solver.
Qed.

Lemma clean_segs_Forall (P : bytes → Prop) rooted segs :
  P DotDot → Forall P segs → Forall P (clean_segs rooted segs).
Proof.
  intros HP Hall. apply Forall_reverse.
  assert (∀ stack, Forall P stack → Forall P (foldl (clean_step rooted) stack segs)) as H; [|by apply H].
  induction Hall as [|seg segs Hseg _ IH]; intros stack Hs; cbn [foldl]; [done|]. apply IH.
  unfold clean_step. repeat case_bool_decide; [done| |by constructor].
  destruct Hs as [|top below Htop Hs]; [destruct rooted; by repeat constructor|].
  case_bool_decide; [by repeat constructor|done].
Qed.

Lemma join_with_app sep a b :
  a ≠ [] → b ≠ [] → join_with sep (a ++ b) = join_with sep a ++ sep :: join_with sep b.
Proof.
  intros Ha Hb. induction a as [|s a IH]; [done|]. destruct a as [|s' a].
  - cbn [app]. by destruct b.
  - change (join_with sep ((s :: s' :: a) ++ b)) with (s ++ sep :: join_with sep ((s' :: a) ++ b)).
    rewrite IH by done. change (join_with sep (s :: s' :: a)) with (s ++ sep :: join_with sep (s' :: a)).
    by rewrite <-app_assoc.
Qed.

Lemma DotDot_no_slash : SlashByte ∉ DotDot.
Proof. apply (bool_decide_unpack _). by vm_compute. Qed.

(** The elements kept are not empty, not [.] and have no slash. *)
Lemma clean_segs_elements rooted p :
  Forall (λ s, s ≠ [] ∧ s ≠ Dot ∧ SlashByte ∉ s) (clean_segs rooted (split_on SlashByte p)).
Proof.
  rewrite !Forall_and.
  destruct (clean_segs_shape rooted (split_on SlashByte p)) as (up & rest & E & Hrest & _).
  split_and!; [| |apply clean_segs_Forall; [apply DotDot_no_slash|apply split_on_no_sep]];
    rewrite E; apply Forall_app; (split; [by apply Forall_replicate|]);
    (eapply Forall_impl; [done|]); by intros ? (? & ? & ?).
Qed.

Lemma join_with_split sep segs s :
  segs ≠ [] → Forall (λ s, sep ∉ s) segs → join_with sep segs = s → segs = split_on sep s.
Proof. intros ?? <-. by rewrite split_join. Qed.

(** A relative path of ordinary elements is appended below [dir]. *)
Lemma path_Join_below dir p :
  dir ≠ [] → p ≠ [] → Forall normal (split_on SlashByte p) →
  path_Join dir p =
    (if bool_decide (path_Clean dir = Dot) then p
     else if bool_decide (path_Clean dir = [SlashByte]) then SlashByte :: p
     else path_Clean dir ++ SlashByte :: p).
Proof.
  intros Hdir Hp Hn. unfold path_Join. rewrite bool_decide_eq_false_2 by done.
  unfold path_Clean. rewrite (bool_decide_eq_false_2 (dir = [])) by done.
  rewrite (bool_decide_eq_false_2 (dir ++ _ = [])) by (by destruct dir).
  assert (path_IsAbs (dir ++ SlashByte :: p) = path_IsAbs dir) as -> by (by destruct dir).
  rewrite split_on_app, clean_segs_app by done.
  assert (split_on SlashByte p ≠ []) as Hsp by (destruct (split_on_cons SlashByte p) as (?&?&->); done).
  pose proof (clean_segs_elements (path_IsAbs dir) dir) as Hall.
  destruct (path_IsAbs dir); destruct (clean_segs _ (split_on SlashByte dir)) as [|s segs];
    try (rewrite app_nil_l, join_split);
    try (apply Forall_and in Hall as [H1 [H2 Hsep]%Forall_and]; rewrite join_with_app, join_split by done).
  - done.
  - rewrite !bool_decide_eq_false_2; [done|..|done]. intros [= Hj].
    apply Forall_cons in H1 as [H1 _]. by destruct s, segs.
  - rewrite (bool_decide_eq_false_2 (split_on _ p = [])) by done. done.
  - rewrite (bool_decide_eq_false_2 (s :: segs = [])), (bool_decide_eq_false_2 (_ ++ _ = [])) by done.
    rewrite !bool_decide_eq_false_2; [done|..].
    + intros [= -> _]%join_with_split; [|done..]. by apply Forall_cons in H1 as [? _].
    + intros [= -> _]%join_with_split; [|done..]. by apply Forall_cons in H2 as [? _].
Qed.
