(* ===== verification/Modules.v ===== *)
(** * The module catalog ([module.go])

    Manifests of optional extensions, their validation, the registry of
    linked modules, discovery on disk and the integrity check. The file
    system is a snapshot [FileSystem]; the SHA-256 digest and the text of
    JSON errors are parameters. The separator of the platform is the slash. *)

From S2P Require Import Prelude Errors Engine Effects Text Utf8 Json PathClean DriverName.

Definition ModuleManifestFilename : bytes := ⟦"kvlite-module.json"⟧.
Definition ModuleManifestVersion : Z := 1.
Definition ModuleManifestMultiKindVersion : Z := 2.
Definition ModuleABIVersion : Z := 1.

Definition ModuleKindEngine : bytes := ⟦"engine"⟧.
Definition ModuleKindTransport : bytes := ⟦"transport"⟧.

Definition canonicalModuleKind (kind : bytes) : bytes :=
  if bool_decide (kind = ⟦"driver"⟧) then ModuleKindEngine
  else if bool_decide (kind = ⟦"extension"⟧) then ModuleKindTransport
  else kind.

Definition ModuleArtifactCShared : bytes := ⟦"c-shared"⟧.
Definition ModuleArtifactExecutable : bytes := ⟦"executable"⟧.
Definition ModuleArtifactNative : bytes := ⟦"native-module"⟧.

Record ModuleDependency := mkDependency { dep_Name : bytes; dep_ModuleABI : Z }.

Record ModuleArtifact := mkArtifact {
  art_Platform : bytes;
  art_Kind : bytes;
  art_Path : bytes;
  art_SHA256 : bytes;
  art_Symbol : bytes
}.

Record ModuleManifest := mkManifest {
  man_SchemaVersion : Z;
  man_Name : bytes;
  man_Kind : bytes;
  man_Kinds : list bytes;
  man_Version : bytes;
  man_ModuleABI : Z;
  man_Driver : bytes;
  man_Capabilities : list bytes;
  man_Dependencies : list ModuleDependency;
  man_Artifacts : list ModuleArtifact;
  man_License : bytes
}.

Record Module_ := mkModule {
  mod_Manifest : ModuleManifest;
  mod_Directory : bytes;
  mod_ManifestPath : bytes;
  mod_Linked : bool
}.

#[global] Instance ModuleDependency_eq_dec : EqDecision ModuleDependency.
Proof. solve_decision. Defined.
#[global] Instance ModuleArtifact_eq_dec : EqDecision ModuleArtifact.
Proof. solve_decision. Defined.
#[global] Instance ModuleManifest_eq_dec : EqDecision ModuleManifest.
Proof. solve_decision. Defined.

Definition set_kind (m : ModuleManifest) (kind : bytes) : ModuleManifest :=
  mkManifest (man_SchemaVersion m) (man_Name m) kind (man_Kinds m) (man_Version m)
    (man_ModuleABI m) (man_Driver m) (man_Capabilities m) (man_Dependencies m)
    (man_Artifacts m) (man_License m).

Definition ProvidedKinds (m : ModuleManifest) : list bytes :=
  if bool_decide (man_SchemaVersion m = ModuleManifestVersion)
  then [canonicalModuleKind (man_Kind m)] else man_Kinds m.

Definition Provides (m : ModuleManifest) (kind : bytes) : bool :=
  existsb (λ provided, bool_decide (provided = kind)) (ProvidedKinds m).

(** ** The file system *)

Inductive fsError := FsNotExist | FsOther (e : GoError).

(** [fs_Open]: the error of [os.Open], or what copying the file yields and
    what [Close] reports. *)
Record FileSystem := mkFS {
  fs_ReadFile : bytes → fsError + bytes;
  fs_Open : bytes → fsError + (GoError + bytes) * option GoError;
  fs_IsDir : bytes → fsError + bool;
  fs_ReadDir : bytes → fsError + list (bytes * bool)
}.

Section modules.
Context {GT : GoText} (FS : FileSystem) (sha256 : bytes → bytes)
  (json_error : bytes → bytes) (GOOS_GOARCH : bytes).
Implicit Types (m manifest : ModuleManifest) (artifact : ModuleArtifact) (module : Module_).

(** ** Validation *)

Definition invalid_manifest (detail : bytes) : GoError := errorf ErrModuleManifestInvalid detail.

Definition unicodeWhitespace (c : Byte.byte) : bool :=
  bool_decide (c ∈ [" "; Byte.x09; Byte.x0a; Byte.x0d; Byte.x0b; Byte.x0c]%byte).

Definition validModulePlatform (platform : bytes) : bool :=
  negb (bool_decide (platform = [])) && bool_decide (platform = strings_ToLower platform)
  && bool_decide (length (filter (λ c, c = "-"%byte) platform) = 1)
  && forallb (λ c, in_range "a" "z" c || in_range "0" "9" c || bool_decide (c = "-"%byte)) platform.

Definition safeModuleRelativePath (value : bytes) : bool :=
  if bool_decide (value = []) || bool_decide ("\"%byte ∈ value) || path_IsAbs value then false
  else
    let clean := path_Clean value in
    negb (bool_decide (clean = Dot)) && negb (bool_decide (clean = DotDot))
    && negb (strings_HasPrefix clean ⟦"../"⟧) && bool_decide (clean = value).

Definition validateModuleArtifact artifact : result unit :=
  let path := strconv_Quote (art_Path artifact) in
  _ ← refuse (negb (validModulePlatform (art_Platform artifact)))
        (ENew (⟦"artifact platform "⟧ ++ strconv_Quote (art_Platform artifact) ++ ⟦" is invalid"⟧));
  _ ← refuse (negb (bool_decide (art_Kind artifact ∈ [ModuleArtifactCShared;
                ModuleArtifactExecutable; ModuleArtifactNative])))
        (ENew (⟦"artifact kind "⟧ ++ strconv_Quote (art_Kind artifact) ++ ⟦" is unsupported"⟧));
  _ ← refuse (negb (safeModuleRelativePath (art_Path artifact)))
        (ENew (⟦"artifact path "⟧ ++ path ++ ⟦" must be a relative slash-separated path"⟧));
  _ ← refuse (negb (bool_decide (art_SHA256 artifact = []))
              && (negb (bool_decide (length (art_SHA256 artifact) = 64))
                  || negb (forallb (λ c, bool_decide (is_Some (hex_value c))) (art_SHA256 artifact))))
        (ENew (⟦"artifact "⟧ ++ path ++ ⟦" has an invalid SHA-256 checksum"⟧));
  refuse (bool_decide (art_Kind artifact = ModuleArtifactNative)
          && bool_decide (strings_TrimSpace (art_Symbol artifact) = []))
    (ENew (⟦"native module artifact "⟧ ++ path ++ ⟦" must name its initialization symbol"⟧)).

(** The loops of [Validate] carry what they have seen. *)
Fixpoint validate_kinds (name : bytes) (kinds seen : list bytes) : result unit :=
  match kinds with
  | [] => Ok tt
  | kind :: kinds =>
      _ ← refuse (bool_decide (kind ≠ ModuleKindEngine ∧ kind ≠ ModuleKindTransport))
            (invalid_manifest (⟦"module "⟧ ++ strconv_Quote name ++ ⟦" has unsupported kind "⟧
                               ++ strconv_Quote kind));
      _ ← refuse (bool_decide (kind ∈ seen))
            (invalid_manifest (⟦"module "⟧ ++ strconv_Quote name ++ ⟦" declares kind "⟧
                               ++ strconv_Quote kind ++ ⟦" more than once"⟧));
      validate_kinds name kinds (kind :: seen)
  end.

Definition is_canonical (name : bytes) : bool :=
  bool_decide (normalizeModuleName name = Ok name).

Fixpoint validate_tokens (name label : bytes) (values seen : list bytes) : result unit :=
  match values with
  | [] => Ok tt
  | value :: values =>
      _ ← refuse (negb (is_canonical value))
            (invalid_manifest (⟦"module "⟧ ++ strconv_Quote name ++ ⟦" has invalid "⟧ ++ label
                               ++ ⟦" "⟧ ++ strconv_Quote value));
      _ ← refuse (bool_decide (value ∈ seen))
            (invalid_manifest (⟦"module "⟧ ++ strconv_Quote name ++ ⟦" declares "⟧ ++ label
                               ++ ⟦" "⟧ ++ strconv_Quote value ++ ⟦" more than once"⟧));
      validate_tokens name label values (value :: seen)
  end.

Definition validateModuleTokens (name label : bytes) (values : list bytes) : result unit :=
  validate_tokens name label values [].

Fixpoint validate_dependencies (name : bytes) (deps : list ModuleDependency) (seen : list bytes)
    : result unit :=
  match deps with
  | [] => Ok tt
  | dep :: deps =>
      let quoted := strconv_Quote (dep_Name dep) in
      _ ← refuse (negb (is_canonical (dep_Name dep)))
            (invalid_manifest (⟦"module "⟧ ++ strconv_Quote name ++ ⟦" has invalid dependency "⟧
                               ++ quoted));
      _ ← refuse (bool_decide (dep_Name dep = name))
            (invalid_manifest (⟦"module "⟧ ++ strconv_Quote name ++ ⟦" cannot depend on itself"⟧));
      _ ← refuse (bool_decide (dep_ModuleABI dep ≠ 0%Z ∧ dep_ModuleABI dep ≠ ModuleABIVersion))
            (errorf ErrModuleIncompatible (⟦"module "⟧ ++ strconv_Quote name ++ ⟦" dependency "⟧
               ++ quoted ++ ⟦" requires module ABI "⟧ ++ format_int (dep_ModuleABI dep)));
      _ ← refuse (bool_decide (dep_Name dep ∈ seen))
            (invalid_manifest (⟦"module "⟧ ++ strconv_Quote name ++ ⟦" declares dependency "⟧
                               ++ quoted ++ ⟦" more than once"⟧));
      validate_dependencies name deps (dep_Name dep :: seen)
  end.

(** The key of an artifact: its platform and kind around a zero byte. *)
Definition artifact_key artifact : bytes := art_Platform artifact ++ [Byte.x00] ++ art_Kind artifact.

Fixpoint validate_artifacts (name : bytes) (artifacts : list ModuleArtifact) (seen : list bytes)
    : result unit :=
  match artifacts with
  | [] => Ok tt
  | artifact :: artifacts =>
      _ ← match validateModuleArtifact artifact with
          | Err e => Err (invalid_manifest (⟦"module "⟧ ++ strconv_Quote name ++ ⟦": "⟧
                                            ++ error_text e))
          | r => r
          end;
      _ ← refuse (bool_decide (artifact_key artifact ∈ seen))
            (invalid_manifest (⟦"module "⟧ ++ strconv_Quote name ++ ⟦" lists more than one "⟧
               ++ art_Kind artifact ++ ⟦" artifact for "⟧ ++ art_Platform artifact));
      validate_artifacts name artifacts (artifact_key artifact :: seen)
  end.

Definition validate_driver manifest : result unit :=
  let quoted := strconv_Quote (man_Name manifest) in
  if Provides manifest ModuleKindEngine then
    match ParseDriverName (man_Driver manifest) with
    | Err e => Err (invalid_manifest (⟦"module "⟧ ++ quoted ++ ⟦": "⟧ ++ error_text e))
    | Panic => Panic
    | Ok canonical =>
        refuse (bool_decide (man_Driver manifest ≠ canonical))
          (invalid_manifest (⟦"module "⟧ ++ quoted ++ ⟦" driver "⟧
             ++ strconv_Quote (man_Driver manifest) ++ ⟦" must be canonical "⟧
             ++ strconv_Quote canonical))
    end
  else refuse (bool_decide (man_Driver manifest ≠ []))
         (invalid_manifest (⟦"transport module "⟧ ++ quoted ++ ⟦" cannot select driver "⟧
                            ++ strconv_Quote (man_Driver manifest))).

Definition Validate manifest : result unit :=
  let name := man_Name manifest in
  let quoted := strconv_Quote name in
  let v1 := bool_decide (man_SchemaVersion manifest = ModuleManifestVersion) in
  _ ← refuse (negb v1 && bool_decide (man_SchemaVersion manifest ≠ ModuleManifestMultiKindVersion))
        (invalid_manifest (⟦"module "⟧ ++ quoted ++ ⟦" uses unsupported schema version "⟧
                           ++ format_int (man_SchemaVersion manifest)));
  canonicalName ← normalizeModuleName name;
  _ ← refuse (bool_decide (name ≠ canonicalName))
        (invalid_manifest (⟦"module name "⟧ ++ quoted ++ ⟦" must be canonical "⟧
                           ++ strconv_Quote canonicalName));
  _ ← (if v1
       then refuse (bool_decide (man_Kind manifest = [] ∨ man_Kinds manifest ≠ []))
              (invalid_manifest (⟦"v1 module "⟧ ++ quoted ++ ⟦" requires only a singular kind"⟧))
       else refuse (bool_decide (man_Kind manifest ≠ [] ∨ man_Kinds manifest = []))
              (invalid_manifest (⟦"v2 module "⟧ ++ quoted ++ ⟦" requires kinds and no singular kind"⟧)));
  _ ← validate_kinds name (ProvidedKinds manifest) [];
  _ ← refuse (bool_decide (strings_TrimSpace (man_Version manifest) = [])
              || existsb unicodeWhitespace (man_Version manifest))
        (invalid_manifest (⟦"module "⟧ ++ quoted ++ ⟦" must provide a non-whitespace version"⟧));
  _ ← refuse (bool_decide (man_ModuleABI manifest ≠ ModuleABIVersion))
        (errorf ErrModuleIncompatible (⟦"module "⟧ ++ quoted ++ ⟦" requires module ABI "⟧
           ++ format_int (man_ModuleABI manifest) ++ ⟦", host supports "⟧
           ++ format_int ModuleABIVersion));
  _ ← refuse (bool_decide (strings_TrimSpace (man_License manifest) = []))
        (invalid_manifest (⟦"module "⟧ ++ quoted ++ ⟦" must declare a license"⟧));
  _ ← validate_driver manifest;
  _ ← validateModuleTokens name ⟦"capability"⟧ (man_Capabilities manifest);
  _ ← validate_dependencies name (man_Dependencies manifest) [];
  validate_artifacts name (man_Artifacts manifest) [].

(** ** Artifacts *)

Definition moduleArtifactKindAllowed (kind : bytes) (wanted : list bytes) : bool :=
  bool_decide (wanted = []) || bool_decide (kind ∈ wanted).

Definition ArtifactForCurrentPlatform module (kinds : list bytes) : result ModuleArtifact :=
  match list_find (λ artifact, art_Platform artifact = GOOS_GOARCH
                     ∧ moduleArtifactKindAllowed (art_Kind artifact) kinds = true)
          (man_Artifacts (mod_Manifest module)) with
  | Some (_, artifact) => Ok artifact
  | None => Err (errorf ErrModuleArtifactMissing
              (⟦"module "⟧ ++ strconv_Quote (man_Name (mod_Manifest module))
               ++ ⟦" has no artifact for "⟧ ++ GOOS_GOARCH))
  end.

Definition ArtifactPath module artifact : result bytes :=
  if bool_decide (mod_Directory module = [])
  then Err (errorf ErrModuleArtifactMissing
         (⟦"linked module "⟧ ++ strconv_Quote (man_Name (mod_Manifest module))
          ++ ⟦" has no on-disk artifact"⟧))
  else _ ← validateModuleArtifact artifact;
       Ok (path_Join (mod_Directory module) (art_Path artifact)).

Fixpoint verify_artifacts module (artifacts : list ModuleArtifact) : result unit :=
  match artifacts with
  | [] => Ok tt
  | artifact :: artifacts =>
      artifactPath ← ArtifactPath module artifact;
      let quoted := strconv_Quote artifactPath in
      data ← match fs_Open FS artifactPath with
             | inl FsNotExist => Err (errorf ErrModuleArtifactMissing quoted)
             | inl (FsOther e) => Err (wrapf (⟦"kvlite: read module artifact "⟧ ++ quoted ++ ⟦": "⟧) e)
             | inr (inl copyErr, _) =>
                 Err (wrapf (⟦"kvlite: hash module artifact "⟧ ++ quoted ++ ⟦": "⟧) copyErr)
             | inr (inr _, Some closeErr) =>
                 Err (wrapf (⟦"kvlite: close module artifact "⟧ ++ quoted ++ ⟦": "⟧) closeErr)
             | inr (inr data, None) => Ok data
             end;
      _ ← refuse (bool_decide (art_SHA256 artifact = []))
            (errorf ErrModuleIntegrity (quoted ++ ⟦" has no SHA-256 checksum"⟧));
      _ ← refuse (negb (strings_EqualFold (sha256 data) (art_SHA256 artifact)))
            (errorf ErrModuleIntegrity quoted);
      verify_artifacts module artifacts
  end.

Definition Verify module : result unit :=
  if mod_Linked module then Ok tt
  else if bool_decide (man_Artifacts (mod_Manifest module) = [])
  then Err (errorf ErrModuleArtifactMissing
         (⟦"module "⟧ ++ strconv_Quote (man_Name (mod_Manifest module))
          ++ ⟦" declares no packaged artifacts"⟧))
  else verify_artifacts module (man_Artifacts (mod_Manifest module)).

(** ** Linked modules *)

(** [linkedModuleRegistry] is a map from names to manifests. *)
Definition RegisterLinkedModule manifest (registry : gmap bytes ModuleManifest)
    : result (gmap bytes ModuleManifest) :=
  let manifest := set_kind manifest (canonicalModuleKind (man_Kind manifest)) in
  _ ← Validate manifest;
  if bool_decide (is_Some (registry !! man_Name manifest))
  then Err (errorf ErrModuleConflict (strconv_Quote (man_Name manifest)))
  else Ok (<[man_Name manifest := manifest]> registry).

(** [MustRegisterLinkedModule] panics where the registration fails. *)
Definition MustRegisterLinkedModule manifest (registry : gmap bytes ModuleManifest)
    : result (gmap bytes ModuleManifest) :=
  match RegisterLinkedModule manifest registry with Err _ => Panic | r => r end.

Definition linked_module manifest : Module_ := mkModule manifest [] [] true.

Definition module_le (a b : Module_) : Prop :=
  bytes_le (man_Name (mod_Manifest a)) (man_Name (mod_Manifest b)).

#[global] Instance module_le_dec : RelDecision module_le.
Proof. intros a b. unfold module_le. apply _. Defined.

Definition sort_modules : list Module_ → list Module_ := merge_sort module_le.

Definition LinkedModules (registry : gmap bytes ModuleManifest) : list Module_ :=
  sort_modules (linked_module <$> (map_to_list registry).*2).

Definition LinkedModule (name : bytes) (registry : gmap bytes ModuleManifest) : result Module_ :=
  canonical ← normalizeModuleName name;
  match registry !! canonical with
  | Some manifest => Ok (linked_module manifest)
  | None => Err (errorf ErrModuleNotInstalled (strconv_Quote canonical))
  end.
End modules.

(** ** Discovery *)

(** The environment variables the catalog reads, empty when unset. *)
Record ModuleEnv := mkModuleEnv {
  KVLITE_MODULE_PATH : bytes;
  KVLITE_HOME : bytes;
  KVLITE_SYSTEM_MODULE_PATH : bytes
}.

Section discovery.
Context {GT : GoText} (FS : FileSystem) (sha256 : bytes → bytes)
  (json_error : bytes → bytes) (GOOS_GOARCH : bytes).

(** [filepath.SplitList]. *)
Definition split_list (paths : bytes) : list bytes :=
  if bool_decide (paths = []) then [] else split_on ":" paths.

Fixpoint unique_paths (paths seen : list bytes) : list bytes :=
  match paths with
  | [] => []
  | candidate :: paths =>
      let candidate := strings_TrimSpace candidate in
      if bool_decide (candidate = []) then unique_paths paths seen
      else
        let candidate := path_Clean candidate in
        if bool_decide (candidate ∈ seen) then unique_paths paths seen
        else candidate :: unique_paths paths (candidate :: seen)
  end.

Definition uniqueModulePaths (paths : list bytes) : list bytes := unique_paths paths [].

Definition DefaultModulePaths (env : ModuleEnv) : list bytes :=
  let home := strings_TrimSpace (KVLITE_HOME env) in
  uniqueModulePaths
    (split_list (KVLITE_MODULE_PATH env)
     ++ (if bool_decide (home = []) then []
         else [path_Join home ⟦"modules"⟧; path_Join home ⟦"drivers"⟧])
     ++ split_list (KVLITE_SYSTEM_MODULE_PATH env)).

(** *** Manifests on disk *)

Definition empty_manifest : ModuleManifest := mkManifest 0 [] [] [] [] 0 [] [] [] [] [].

Definition dependency_fields : list (bytes * (jvalue → ModuleDependency → option ModuleDependency)) :=
  [(⟦"name"⟧, set_string (λ t d, mkDependency t (dep_ModuleABI d)));
   (⟦"module_abi"⟧, set_int (λ z d, mkDependency (dep_Name d) z))].

Definition artifact_fields : list (bytes * (jvalue → ModuleArtifact → option ModuleArtifact)) :=
  [(⟦"platform"⟧, set_string (λ t a, mkArtifact t (art_Kind a) (art_Path a) (art_SHA256 a) (art_Symbol a)));
   (⟦"kind"⟧, set_string (λ t a, mkArtifact (art_Platform a) t (art_Path a) (art_SHA256 a) (art_Symbol a)));
   (⟦"path"⟧, set_string (λ t a, mkArtifact (art_Platform a) (art_Kind a) t (art_SHA256 a) (art_Symbol a)));
   (⟦"sha256"⟧, set_string (λ t a, mkArtifact (art_Platform a) (art_Kind a) (art_Path a) t (art_Symbol a)));
   (⟦"symbol"⟧, set_string (λ t a, mkArtifact (art_Platform a) (art_Kind a) (art_Path a) (art_SHA256 a) t))].

Definition manifest_fields : list (bytes * (jvalue → ModuleManifest → option ModuleManifest)) :=
  let strings f := set_slice [] decode_string (λ l, f (default [] l)) in
  [(⟦"schema_version"⟧, set_int (λ z '(mkManifest _ n k ks v a d c dp ar l), mkManifest z n k ks v a d c dp ar l));
   (⟦"name"⟧, set_string (λ t '(mkManifest s _ k ks v a d c dp ar l), mkManifest s t k ks v a d c dp ar l));
   (⟦"kind"⟧, set_string (λ t '(mkManifest s n _ ks v a d c dp ar l), mkManifest s n t ks v a d c dp ar l));
   (⟦"kinds"⟧, strings (λ x '(mkManifest s n k _ v a d c dp ar l), mkManifest s n k x v a d c dp ar l));
   (⟦"version"⟧, set_string (λ t '(mkManifest s n k ks _ a d c dp ar l), mkManifest s n k ks t a d c dp ar l));
   (⟦"module_abi"⟧, set_int (λ z '(mkManifest s n k ks v _ d c dp ar l), mkManifest s n k ks v z d c dp ar l));
   (⟦"driver"⟧, set_string (λ t '(mkManifest s n k ks v a _ c dp ar l), mkManifest s n k ks v a t c dp ar l));
   (⟦"capabilities"⟧, strings (λ x '(mkManifest s n k ks v a d _ dp ar l), mkManifest s n k ks v a d x dp ar l));
   (⟦"dependencies"⟧, set_slice (mkDependency [] 0) (set_struct true dependency_fields)
      (λ x '(mkManifest s n k ks v a d c _ ar l), mkManifest s n k ks v a d c (default [] x) ar l));
   (⟦"artifacts"⟧, set_slice (mkArtifact [] [] [] [] []) (set_struct true artifact_fields)
      (λ x '(mkManifest s n k ks v a d c dp _ l), mkManifest s n k ks v a d c dp (default [] x) l));
   (⟦"license"⟧, set_string (λ t '(mkManifest s n k ks v a d c dp ar _), mkManifest s n k ks v a d c dp ar t))].

(** The two [Decode] calls: one value with known fields, then the end. *)
Definition decode_manifest (manifestPath data : bytes) : result ModuleManifest :=
  let quoted := strconv_Quote manifestPath in
  match (decoded ← decode_next data;
         manifest ← set_struct true manifest_fields decoded.1 empty_manifest;
         Some (manifest, decoded.2)) with
  | None => Err (invalid_manifest (quoted ++ ⟦": "⟧ ++ json_error data))
  | Some (manifest, rest) =>
      if bool_decide (skip_space rest = []) then Ok manifest
      else Err (invalid_manifest (quoted ++ ⟦" contains multiple JSON values"⟧))
  end.

(** [Ok None] when the directory has no manifest. *)
Definition readModuleAt (directory : bytes) : result (option Module_) :=
  let manifestPath := path_Join directory ModuleManifestFilename in
  match fs_ReadFile FS manifestPath with
  | inl FsNotExist => Ok None
  | inl (FsOther e) =>
      Err (wrapf (⟦"kvlite: read module manifest "⟧ ++ strconv_Quote manifestPath ++ ⟦": "⟧) e)
  | inr data =>
      manifest ← decode_manifest manifestPath data;
      let manifest := set_kind manifest (canonicalModuleKind (man_Kind manifest)) in
      match Validate manifest with
      | Ok _ => Ok (Some (mkModule manifest directory manifestPath false))
      | Err e => Err (EWrap2 ErrModuleManifestInvalid
                        (⟦": "⟧ ++ strconv_Quote manifestPath ++ ⟦": "⟧) e)
      | Panic => Panic
      end
  end.

Definition read_dir (path : bytes) : result (list (bytes * bool)) :=
  match fs_ReadDir FS path with
  | inl (FsOther e) => Err (wrapf (⟦"kvlite: read module path "⟧ ++ strconv_Quote path ++ ⟦": "⟧) e)
  | inl FsNotExist =>
      Err (wrapf (⟦"kvlite: read module path "⟧ ++ strconv_Quote path ++ ⟦": "⟧)
             (EExternal ⟦"file does not exist"⟧))
  | inr entries => Ok entries
  end.

(** The modules among the sub-directories of [root], given what a
    sub-directory without a manifest yields. *)
Fixpoint read_children (nested : bytes → bytes → result (list Module_)) (root : bytes)
    (entries : list (bytes * bool)) : result (list Module_) :=
  match entries with
  | [] => Ok []
  | (name, is_dir) :: entries =>
      if is_dir then
        let child := path_Join root name in
        module ← readModuleAt child;
        found ← match module with
                | Some module => Ok [module]
                | None => nested name child
                end;
        modules ← read_children nested root entries;
        Ok (found ++ modules)
      else read_children nested root entries
  end.

Definition discoverModulesAt (root : bytes) : result (list Module_) :=
  if bool_decide (strings_TrimSpace root = []) then Ok []
  else
    let root := path_Clean root in
    match fs_IsDir FS root with
    | inl FsNotExist => Ok []
    | inl (FsOther e) =>
        Err (wrapf (⟦"kvlite: inspect module path "⟧ ++ strconv_Quote root ++ ⟦": "⟧) e)
    | inr false =>
        Err (invalid_manifest (⟦"module path "⟧ ++ strconv_Quote root ++ ⟦" is not a directory"⟧))
    | inr true =>
        module ← readModuleAt root;
        match module with
        | Some module => Ok [module]
        | None =>
            entries ← read_dir root;
            read_children (λ name child,
              if bool_decide (name ≠ ⟦"drivers"⟧ ∧ name ≠ ⟦"modules"⟧) then Ok []
              else nested ← read_dir child; read_children (λ _ _, Ok []) child nested)
              root entries
        end
    end.

(** The inner loop of [DiscoverModules]: one name, one module. *)
Fixpoint add_modules (items : list Module_) (modules : gmap bytes Module_)
    : result (gmap bytes Module_) :=
  match items with
  | [] => Ok modules
  | item :: items =>
      let name := man_Name (mod_Manifest item) in
      match modules !! name with
      | Some previous =>
          Err (errorf ErrModuleConflict (⟦"module "⟧ ++ strconv_Quote name ++ ⟦" appears in both "⟧
                 ++ strconv_Quote (mod_ManifestPath previous) ++ ⟦" and "⟧
                 ++ strconv_Quote (mod_ManifestPath item)))
      | None => add_modules items (<[name := item]> modules)
      end
  end.

Fixpoint add_roots (roots : list bytes) (modules : gmap bytes Module_) : result (gmap bytes Module_) :=
  match roots with
  | [] => Ok modules
  | root :: roots =>
      items ← discoverModulesAt root;
      modules ← add_modules items modules;
      add_roots roots modules
  end.

Definition DiscoverModules (env : ModuleEnv) (paths : list bytes) : result (list Module_) :=
  let paths := if bool_decide (paths = []) then DefaultModulePaths env else paths in
  modules ← add_roots (uniqueModulePaths paths) ∅;
  Ok (sort_modules (map_to_list modules).*2).

Definition FindInstalledModule (env : ModuleEnv) (name : bytes) (paths : list bytes)
    : result Module_ :=
  canonical ← normalizeModuleName name;
  modules ← DiscoverModules env paths;
  match list_find (λ item, man_Name (mod_Manifest item) = canonical) modules with
  | Some (_, item) => Ok item
  | None => Err (errorf ErrModuleNotInstalled (strconv_Quote canonical))
  end.

Definition ResolveModule (env : ModuleEnv) (registry : gmap bytes ModuleManifest) (name : bytes)
    (paths : list bytes) : result Module_ :=
  match FindInstalledModule env name paths with
  | Ok installed => Ok installed
  | Err e => if errors_Is e ErrModuleNotInstalled then LinkedModule name registry else Err e
  | Panic => Panic
  end.

Definition ResolveModuleExecutable (env : ModuleEnv) (registry : gmap bytes ModuleManifest)
    (name : bytes) (paths : list bytes) : result (Module_ * ModuleArtifact) :=
  module ← ResolveModule env registry name paths;
  let quoted := strconv_Quote (man_Name (mod_Manifest module)) in
  if mod_Linked module
  then Err (errorf ErrModuleNoExecutable (⟦"module "⟧ ++ quoted ++ ⟦" is linked into this process"⟧))
  else
    match ArtifactForCurrentPlatform GOOS_GOARCH module [ModuleArtifactExecutable] with
    | Err _ => Err (errorf ErrModuleNoExecutable (⟦"module "⟧ ++ quoted))
    | Panic => Panic
    | Ok artifact => _ ← Verify FS sha256 module; Ok (module, artifact)
    end.
End discovery.
