(* ===== verification/ModuleProps.v ===== *)
(** * Properties of the module catalog *)

From S2P Require Import Prelude Errors Engine Effects Text Utf8 Json PathClean DriverName Modules.

(** Takes a chain of checks that succeeded apart. *)
Ltac checks H :=
  repeat match type of H with
  | (_ ≫= _) = Ok _ =>
      let a := fresh "r" in let Ha := fresh "Hc" in
      apply result_bind_Ok in H as (a & Ha & H);
      lazymatch type of a with unit => destruct a | _ => idtac end
  | refuse _ _ = Ok _ => apply refuse_Ok in H
  end.

Section props.
Context {GT : GoText}.
Implicit Types (m : ModuleManifest) (artifact : ModuleArtifact) (module : Module_).

(** ** Artifacts of a valid manifest *)

Lemma validate_artifacts_Ok name artifacts seen :
  validate_artifacts name artifacts seen = Ok tt →
  Forall (λ a, validateModuleArtifact a = Ok tt) artifacts
  ∧ NoDup (artifact_key <$> artifacts)
  ∧ ∀ a, a ∈ artifacts → artifact_key a ∉ seen.
Proof.
  revert seen. induction artifacts as [|a artifacts IH]; intros seen H.
  { split_and!; [done|constructor|set_solver]. }
  cbn [validate_artifacts] in H. checks H. apply refuse_Ok in Hc0.
  apply bool_decide_eq_false in Hc0. destruct (IH _ H) as (Hall & Hnd & Hseen).
  split_and!.
  - constructor; [|done]. destruct (validateModuleArtifact a) as [[]| |]; done.
  - rewrite fmap_cons. constructor; [|done]. intros (b & Hk & Hb)%list_elem_of_fmap.
    apply (Hseen b Hb). rewrite <-Hk. set_solver.
  - intros b [-> |Hb]%elem_of_cons; [done|]. specialize (Hseen b Hb). set_solver.
Qed.

Lemma Validate_Ok m :
  Validate m = Ok tt →
  normalizeModuleName (man_Name m) = Ok (man_Name m)
  ∧ validate_artifacts (man_Name m) (man_Artifacts m) [] = Ok tt.
Proof.
  intros H. unfold Validate in H. cbn zeta in H. checks H.
  split; [|done]. apply refuse_Ok, bool_decide_eq_false in Hc1.
  rewrite Hc0. f_equal. symmetry. by apply dec_stable.
Qed.

(** ** Paths *)

Lemma safe_path_normal value :
  safeModuleRelativePath value = true →
  Forall normal (split_on SlashByte value) ∧ path_IsAbs value = false.
Proof.
  unfold safeModuleRelativePath.
  destruct (bool_decide (value = []) || bool_decide ("\"%byte ∈ value) || path_IsAbs value) eqn:Hb;
    [done|].
  apply orb_false_iff in Hb as [[Hne _]%orb_false_iff Habs]. apply bool_decide_eq_false in Hne.
  intros [[[Hdot Hdd]%andb_prop Hpre]%andb_prop Heq%bool_decide_eq_true]%andb_prop.
  apply negb_true_iff, bool_decide_eq_false in Hdot, Hdd. apply negb_true_iff in Hpre.
  split; [|done]. unfold path_Clean in *. rewrite bool_decide_eq_false_2 in * by done.
  rewrite Habs in *. destruct (clean_segs_shape false (split_on SlashByte value))
    as (up & rest & Hs & Hn & _). rewrite Hs in *. case_bool_decide as Hnil; [done|].
  assert (Forall (λ s, SlashByte ∉ s) (replicate up DotDot ++ rest)) as Hsep.
  { rewrite <-Hs. apply clean_segs_Forall; [apply DotDot_no_slash|apply split_on_no_sep]. }
  rewrite <-Heq, split_join by done.
  destruct up as [|up]; [done|exfalso]. cbn [replicate app] in *.
  destruct (replicate up DotDot ++ rest) as [|s segs] eqn:E; [done|].
  unfold strings_HasPrefix in Hpre. apply bool_decide_eq_false in Hpre. by apply Hpre.
Qed.

Lemma validateModuleArtifact_Ok artifact :
  validateModuleArtifact artifact = Ok tt →
  validModulePlatform (art_Platform artifact) = true
  ∧ safeModuleRelativePath (art_Path artifact) = true.
Proof.
  unfold validateModuleArtifact. cbn zeta. intros H. checks H.
  apply refuse_Ok, negb_false_iff in Hc, Hc1. done.
Qed.

Section artifacts.
Context (FS : FileSystem) (sha256 : bytes → bytes) (GOOS_GOARCH : bytes).

(** In a valid manifest, the host's choice of an artifact by platform and
    kind is unambiguous: the artifact of this platform and kind is the one
    returned, wherever it is listed. *)
Theorem artifact_choice_unambiguous module artifact :
  Validate (mod_Manifest module) = Ok tt →
  artifact ∈ man_Artifacts (mod_Manifest module) →
  art_Platform artifact = GOOS_GOARCH →
  ArtifactForCurrentPlatform GOOS_GOARCH module [art_Kind artifact] = Ok artifact.
Proof.
  intros [_ (Hall & Hnd & _)%validate_artifacts_Ok]%Validate_Ok Hin Hplat.
  unfold ArtifactForCurrentPlatform.
  destruct (list_find _ _) as [[i other]|] eqn:E.
  - apply list_find_Some in E as (Hi & [Hp Hk] & _). f_equal.
    assert (art_Kind other = art_Kind artifact) as Hk'.
    { revert Hk. unfold moduleArtifactKindAllowed. rewrite bool_decide_eq_false_2 by done.
      intros Hk%bool_decide_eq_true. by apply list_elem_of_singleton in Hk. }
    apply list_elem_of_lookup_1 in Hin as [j Hj].
    enough (i = j) by congruence.
    eapply NoDup_lookup; [done|by rewrite list_lookup_fmap, Hi|].
    rewrite list_lookup_fmap, Hj. cbn. unfold artifact_key. congruence.
  - apply list_find_None in E. rewrite Forall_forall in E.
    exfalso. apply (E _ Hin). split; [done|]. unfold moduleArtifactKindAllowed.
    rewrite (bool_decide_eq_true_2 (art_Kind artifact ∈ _)) by set_solver. apply orb_true_r.
Qed.

(** C27: A module never reaches outside its directory: the path of an artifact
    the validation accepts is the cleaned module directory with the
    artifact's own path below it, and no element of that path is empty,
    [.] or [..]. *)
Theorem artifact_path_confined module artifact :
  mod_Directory module ≠ [] → validateModuleArtifact artifact = Ok tt →
  let root := path_Clean (mod_Directory module) in
  ArtifactPath module artifact =
    Ok (if bool_decide (root = Dot) then art_Path artifact
        else if bool_decide (root = [SlashByte]) then SlashByte :: art_Path artifact
        else root ++ SlashByte :: art_Path artifact)
  ∧ Forall normal (split_on SlashByte (art_Path artifact)).
Proof.
  intros Hdir Hv root. pose proof (validateModuleArtifact_Ok _ Hv) as [_ Hsafe].
  destruct (safe_path_normal _ Hsafe) as [Hn _]. split; [|done].
  unfold ArtifactPath. rewrite bool_decide_eq_false_2, Hv by done. cbn.
  rewrite path_Join_below; [done..| |done].
  intros E. by rewrite E in Hsafe.
Qed.

(** What [Verify] accepts of one artifact. *)
Definition intact module artifact : Prop :=
  ∃ artifactPath data, ArtifactPath module artifact = Ok artifactPath
    ∧ fs_Open FS artifactPath = inr (inr data, None)
    ∧ art_SHA256 artifact ≠ []
    ∧ strings_EqualFold (sha256 data) (art_SHA256 artifact) = true.

Lemma verify_artifacts_Ok module artifacts :
  verify_artifacts FS sha256 module artifacts = Ok tt ↔ Forall (intact module) artifacts.
Proof.
  induction artifacts as [|artifact artifacts IH]; [done|].
  rewrite Forall_cons, <-IH. cbn [verify_artifacts]. cbn zeta. split.
  - intros H. checks H.
    destruct (fs_Open FS r) as [[]|[[] []]] eqn:Ho; try discriminate. simplify_eq.
    apply refuse_Ok in Hc1, Hc2. apply bool_decide_eq_false in Hc1. apply negb_false_iff in Hc2.
    split; [|done]. by exists r, r0.
  - intros [(p & data & -> & Ho & Hne & Heq) H]. cbn. rewrite Ho. cbn.
    by rewrite bool_decide_eq_false_2, Heq.
Qed.

(** [Verify] succeeds exactly on a linked module and on an installed one
    with artifacts, every one of which could be read and has the SHA-256
    digest its manifest records. *)
Theorem verify_exact module :
  Verify FS sha256 module = Ok tt ↔
  mod_Linked module = true
  ∨ man_Artifacts (mod_Manifest module) ≠ [] ∧ Forall (intact module) (man_Artifacts (mod_Manifest module)).
Proof.
  unfold Verify. destruct (mod_Linked module); [by split; [left|]|].
  case_bool_decide as Hnil; [split; [done|by intros [?|[? _]]]|].
  rewrite verify_artifacts_Ok. naive_solver.
Qed.
End artifacts.

(** ** Discovery *)

Section discovery.
Context (FS : FileSystem) (json_error : bytes → bytes).
Implicit Types (items : list Module_) (modules : gmap bytes Module_) (roots paths : list bytes).

Definition module_name module : bytes := man_Name (mod_Manifest module).

Lemma add_modules_Ok items modules found :
  (∀ name module, modules !! name = Some module → module_name module = name) →
  add_modules items modules = Ok found →
  (∀ name module, found !! name = Some module → module_name module = name)
  ∧ (∀ module, (∃ name, found !! name = Some module) ↔
       module ∈ items ∨ ∃ name, modules !! name = Some module).
Proof.
  revert modules. induction items as [|item items IH]; intros modules Hwf.
  { intros [= <-]. split; [done|]. set_solver. }
  cbn [add_modules]. fold (module_name item).
  destruct (modules !! module_name item) as [previous|] eqn:E; [done|]. intros H.
  apply IH in H as [Hwf' Hin].
  - split; [done|]. intros module. rewrite Hin, elem_of_cons. split.
    + intros [?|[name Hm]]; [by auto|].
      apply lookup_insert_Some in Hm as [[_ ->]|[_ ?]]; eauto.
    + intros [[-> |?]|[name Hm]]; [|by auto|].
      * right. exists (module_name item). by rewrite lookup_insert_eq.
      * right. exists name. rewrite lookup_insert_ne; [done|]. congruence.
  - intros name module [[<- <-]|[_ ?]]%lookup_insert_Some; eauto.
Qed.

(** The modules of the roots. *)
Definition installed_at roots module : Prop :=
  ∃ root items, root ∈ roots ∧ discoverModulesAt FS json_error root = Ok items ∧ module ∈ items.

Lemma add_roots_Ok roots modules found :
  (∀ name module, modules !! name = Some module → module_name module = name) →
  add_roots FS json_error roots modules = Ok found →
  (∀ name module, found !! name = Some module → module_name module = name)
  ∧ (∀ module, (∃ name, found !! name = Some module) ↔
       installed_at roots module ∨ ∃ name, modules !! name = Some module).
Proof.
  revert modules. induction roots as [|root roots IH]; intros modules Hwf.
  { intros [= <-]. split; [done|]. unfold installed_at. set_solver. }
  cbn [add_roots]. intros H. checks H.
  apply add_modules_Ok in Hc0 as [Hwf' Hin]; [|done].
  apply IH in H as [Hwf'' Hin']; [|done]. split; [done|].
  intros module. rewrite Hin', Hin. split.
  - intros [(root' & items & ? & ? & ?)|[?|?]]; [left|left|by right].
    + exists root', items. by rewrite elem_of_cons; auto.
    + exists root, r. by rewrite elem_of_cons; auto.
  - intros [(root' & items & [-> |?]%elem_of_cons & Hd & ?)|?]; [|left; by exists root', items|auto].
    rewrite Hc in Hd. injection Hd as ->. auto.
Qed.

#[local] Instance module_le_total : Total module_le.
Proof. intros a b. unfold module_le. apply total, _. Qed.

#[local] Instance module_le_trans : Transitive module_le.
Proof. intros a b c. unfold module_le. apply transitivity. Qed.

(** The catalog [DiscoverModules] returns is sorted by name, has one module
    per name, and holds exactly the modules found at the searched roots. *)
Theorem discovery_exact env paths found :
  DiscoverModules FS json_error env paths = Ok found →
  let roots := uniqueModulePaths (if bool_decide (paths = []) then DefaultModulePaths env else paths) in
  StronglySorted module_le found
  ∧ NoDup (module_name <$> found)
  ∧ ∀ module, module ∈ found ↔ installed_at roots module.
Proof.
  intros H roots. unfold DiscoverModules in H. cbn zeta in H. checks H.
  fold roots in Hc. injection H as <-.
  apply add_roots_Ok in Hc as [Hwf Hin]; [|by intros ??; rewrite lookup_empty].
  split_and!.
  - by apply (StronglySorted_merge_sort module_le).
  - unfold sort_modules. rewrite merge_sort_Permutation.
    replace (module_name <$> (map_to_list r).*2) with (map_to_list r).*1.
    { apply NoDup_fst_map_to_list. }
    rewrite <-list_fmap_compose. apply list_fmap_ext. intros i [name module] Hi.
    apply list_elem_of_lookup_2, elem_of_map_to_list in Hi. symmetry. by apply Hwf.
  - intros module. unfold sort_modules. rewrite merge_sort_Permutation, list_elem_of_fmap.
    split.
    + intros ([name m] & -> & Hm%elem_of_map_to_list).
      destruct (proj1 (Hin m)) as [?|[? He]]; [by exists name|done|by rewrite lookup_empty in He].
    + intros Hm. destruct (proj2 (Hin module)) as [name Hm']; [by left|].
      exists (name, module). by rewrite elem_of_map_to_list.
Qed.

Lemma add_modules_total items modules :
  (∃ found, add_modules items modules = Ok found)
  ∨ ∃ e, add_modules items modules = Err e ∧ errors_Is e ErrModuleConflict = true.
Proof.
  revert modules. induction items as [|item items IH]; intros modules; [by eauto|].
  cbn [add_modules]. destruct (modules !! _); [|apply IH]. right. by eexists.
Qed.

Lemma add_roots_total roots modules :
  Forall (λ root, ∃ items, discoverModulesAt FS json_error root = Ok items) roots →
  (∃ found, add_roots FS json_error roots modules = Ok found)
  ∨ ∃ e, add_roots FS json_error roots modules = Err e ∧ errors_Is e ErrModuleConflict = true.
Proof.
  intros Hall. revert modules.
  induction Hall as [|root roots [items Hi] _ IH]; intros modules; [by eauto|].
  cbn [add_roots]. rewrite Hi. cbn.
  destruct (add_modules_total items modules) as [[found ->]|(e & -> & He)]; cbn; [apply IH|eauto].
Qed.

(** Two different modules with one name at the searched roots, in whatever
    order, are never resolved by precedence: discovery fails with
    [ErrModuleConflict], also when one root is the user's and the other the
    system's. *)
Theorem duplicate_name_refused env paths a b :
  let roots := uniqueModulePaths (if bool_decide (paths = []) then DefaultModulePaths env else paths) in
  Forall (λ root, ∃ items, discoverModulesAt FS json_error root = Ok items) roots →
  installed_at roots a → installed_at roots b → a ≠ b → module_name a = module_name b →
  ∃ e, DiscoverModules FS json_error env paths = Err e ∧ errors_Is e ErrModuleConflict = true.
Proof.
  intros roots Hall Ha Hb Hab Hname. unfold DiscoverModules. cbn zeta. fold roots.
  destruct (add_roots_total roots ∅ Hall) as [[found Hf]|(e & -> & He)]; [exfalso|cbn; eauto].
  apply add_roots_Ok in Hf as [Hwf Hin]; [|by intros ??; rewrite lookup_empty].
  destruct (proj2 (Hin a)) as [na Hna]; [by left|]. destruct (proj2 (Hin b)) as [nb Hnb]; [by left|].
  apply Hab. pose proof (Hwf _ _ Hna). pose proof (Hwf _ _ Hnb). congruence.
Qed.
End discovery.

(** ** Linked modules *)

(** A registration that succeeds can be looked up, changes no other name,
    and cannot be replaced: a second valid manifest of that name is refused
    with [ErrModuleConflict]. *)
Theorem linked_registration manifest registry registry' :
  RegisterLinkedModule manifest registry = Ok registry' →
  let name := man_Name manifest in
  LinkedModule name registry' =
    Ok (linked_module (set_kind manifest (canonicalModuleKind (man_Kind manifest))))
  ∧ (∀ other, other ≠ name → registry' !! other = registry !! other)
  ∧ ∀ m, man_Name m = name → Validate (set_kind m (canonicalModuleKind (man_Kind m))) = Ok tt →
      ∃ e, RegisterLinkedModule m registry' = Err e ∧ errors_Is e ErrModuleConflict = true.
Proof.
  intros H. cbn zeta. unfold RegisterLinkedModule in H. checks H.
  destruct (Validate_Ok _ Hc) as [Hn _]. case_bool_decide; [done|]. simplify_eq.
  cbn [set_kind man_Name] in *. split_and!.
  - unfold LinkedModule. rewrite Hn. unfold mbind, result_bind.
    by rewrite lookup_insert_eq.
  - intros other Hne. by rewrite lookup_insert_ne.
  - intros m Hm Hv. unfold RegisterLinkedModule. rewrite Hv. unfold mbind, result_bind.
    cbn [set_kind man_Name]. rewrite Hm, lookup_insert_eq, bool_decide_eq_true_2 by done.
    by eexists.
Qed.
End props.

(** ** Witnesses *)

Module example.
#[local] Existing Instance ascii_GoText.

Definition text : bytes :=
  ⟦"{'schema_version':1,'name':'bolt','kind':'driver','version':'1.0','module_abi':1,'driver':'boltdb','license':'MIT','artifacts':[{'platform':'linux-amd64','kind':'executable','path':'bin/kv','sha256':'0000000000000000000000000000000000000000000000000000000000000000'}]}"⟧.

(** Quotes are written as apostrophes above. *)
Definition json : bytes := (λ c, if bool_decide (c = "'"%byte) then Byte.x22 else c) <$> text.

Definition files : FileSystem := {|
  fs_ReadFile := λ p, if bool_decide (p ∈ [⟦"/u/bolt/kvlite-module.json"⟧; ⟦"/s/bolt/kvlite-module.json"⟧])
                      then inr json else inl FsNotExist;
  fs_Open := λ _, inr (inr [], None);
  fs_IsDir := λ _, inr true;
  fs_ReadDir := λ _, inr [(⟦"bolt"⟧, true); (⟦"notes"⟧, false)]
|}.

Definition env : ModuleEnv := mkModuleEnv ⟦"/u"⟧ [] ⟦"/s"⟧.

Definition digest (_ : bytes) : bytes := replicate 64 "0"%byte.

Definition found (root : bytes) : list Module_ :=
  match discoverModulesAt files id root with Ok items => items | _ => [] end.

Definition module (root : bytes) : Module_ :=
  default (mkModule empty_manifest [] [] true) (head (found root)).

Definition artifact : ModuleArtifact :=
  default (mkArtifact [] [] [] [] []) (head (man_Artifacts (mod_Manifest (module ⟦"/u"⟧)))).
End example.

Section witnesses.
#[local] Existing Instance ascii_GoText.

Lemma artifact_choice_unambiguous_witness :
  ArtifactForCurrentPlatform ⟦"linux-amd64"⟧ (example.module ⟦"/u"⟧) [art_Kind example.artifact]
  = Ok example.artifact.
Proof.
  apply (artifact_choice_unambiguous ⟦"linux-amd64"⟧ (example.module ⟦"/u"⟧) example.artifact);
    [by vm_compute|vm_compute; constructor|by vm_compute].
Defined.

Lemma artifact_path_confined_witness :
  ArtifactPath (example.module ⟦"/u"⟧) example.artifact = Ok ⟦"/u/bolt/bin/kv"⟧.
Proof.
  assert (mod_Directory (example.module ⟦"/u"⟧) ≠ []) as H by (by vm_compute).
  destruct (artifact_path_confined (example.module ⟦"/u"⟧) example.artifact H) as [-> _]; by vm_compute.
Defined.

Lemma discovery_exact_witness :
  DiscoverModules example.files id example.env [⟦"/u"⟧] = Ok [example.module ⟦"/u"⟧]
  ∧ NoDup (module_name <$> [example.module ⟦"/u"⟧]).
Proof.
  assert (DiscoverModules example.files id example.env [⟦"/u"⟧] = Ok [example.module ⟦"/u"⟧]) as H
    by (by vm_compute).
  split; [done|]. by apply (discovery_exact example.files id example.env [⟦"/u"⟧] _ H).
Defined.

(** The default search of a user and a system installation of one module. *)
Lemma duplicate_name_refused_witness :
  ∃ e, DiscoverModules example.files id example.env [] = Err e ∧ errors_Is e ErrModuleConflict = true.
Proof.
  apply (duplicate_name_refused example.files id example.env []
           (example.module ⟦"/u"⟧) (example.module ⟦"/s"⟧)).
  - change (uniqueModulePaths _) with [⟦"/u"⟧; ⟦"/s"⟧].
    repeat constructor; eexists; by vm_compute.
  - exists ⟦"/u"⟧, [example.module ⟦"/u"⟧]. split_and!; [|by vm_compute|constructor].
    apply (bool_decide_unpack _). by vm_compute.
  - exists ⟦"/s"⟧, [example.module ⟦"/s"⟧]. split_and!; [|by vm_compute|constructor].
    apply (bool_decide_unpack _). by vm_compute.
  - by vm_compute.
  - by vm_compute.
Defined.

Lemma linked_registration_witness :
  ∃ registry, RegisterLinkedModule (mod_Manifest (example.module ⟦"/u"⟧)) ∅ = Ok registry
    ∧ LinkedModule ⟦"bolt"⟧ registry = Ok (linked_module (mod_Manifest (example.module ⟦"/u"⟧))).
Proof.
  assert (match RegisterLinkedModule (mod_Manifest (example.module ⟦"/u"⟧)) ∅ with
          | Ok _ => true | _ => false end = true) as H by (by vm_compute).
  destruct (RegisterLinkedModule _ ∅) as [registry| |] eqn:E; [|done..].
  exists registry. split; [done|].
  destruct (linked_registration _ _ _ E) as [Hl _].
  change (man_Name _) with ⟦"bolt"⟧ in Hl. rewrite Hl. by vm_compute.
Defined.
End witnesses.
