(* ===== verification/Backend.v ===== *)
(** * Drivers and the backend manifest ([backend.go], [backend_manifest.go])

    The registry of linked drivers, how [Open] finds a driver or a module
    that provides one, and the manifest that pins a database directory to
    the driver that created it. The code that touches the database directory
    is a program over the calls it makes to the operating system, so that it
    can be run alone and interleaved with another process; opening and
    closing a storage engine are calls too, which may change the directory.
    The loaders of packaged modules are parameters. *)

From S2P Require Import Prelude Errors Engine Effects Envelope Text Utf8 Json PathClean DriverName MemDriver DB Modules.

(** ** Calls to the operating system

    All of them concern the database directory or the manifest in it. *)

Record directory := mkDir { dir_exists : bool; dir_files : gmap bytes bytes }.

Definition backendManifestFile : bytes := ⟦"KVLITE-MANIFEST.json"⟧.
Definition backendManifestVersion : Z := 1.

(** What [os.OpenFile] with [O_CREATE|O_EXCL] reports. *)
Inductive createReport := Created | AlreadyExists | CreateFailed (e : GoError).

Section calls.
Context {E : Type}.

Inductive osOp :=
  | OsMkdirAll
  | OsReadFile
  | OsReadDir
  | OsCreate
  | OsWrite (data : bytes)
  | OsSync
  | StorageOpen (open : directory → (GoError + E) * directory)
  | StorageClose (storage : E).

Definition osResp (o : osOp) : Type :=
  match o with
  | OsMkdirAll | OsSync => option GoError
  | OsReadFile => fsError + bytes
  | OsReadDir => GoError + list bytes
  | OsCreate => createReport
  | OsWrite _ => nat * option GoError
  | StorageOpen _ => GoError + E
  | StorageClose _ => unit
  end.

Inductive osProg (A : Type) :=
  | OsRet (a : A)
  | OsCall (o : osOp) (k : osResp o → osProg A).
Arguments OsRet {A}.
Arguments OsCall {A}.

Fixpoint osProg_bind {A B} (f : A → osProg B) (p : osProg A) : osProg B :=
  match p with
  | OsRet a => f a
  | OsCall o k => OsCall o (λ r, osProg_bind f (k r))
  end.

Definition OM (A : Type) : Type := osProg (result A).

#[global] Instance OM_ret : MRet OM := λ A a, OsRet (Ok a).
#[global] Instance OM_bind : MBind OM := λ A B f m,
  osProg_bind (λ r, match r with
                    | Ok a => f a
                    | Err e => OsRet (Err e)
                    | Panic => OsRet Panic
                    end) m.

Definition os_call (o : osOp) : OM (osResp o) := OsCall o (λ r, OsRet (Ok r)).
Definition os_throw {A} (e : GoError) : OM A := OsRet (Err e).
Definition os_lift {A} (r : result A) : OM A := OsRet r.

(** [if err != nil { return fmt.Errorf(prefix + "%w", err) }]. *)
Definition os_check (prefix : bytes) (err : option GoError) : OM unit :=
  match err with Some e => os_throw (wrapf prefix e) | None => mret tt end.

(** [err := f()] with [err] inspected by the caller. *)
Definition os_attempt {A} (m : OM A) : OM (GoError + A) :=
  osProg_bind (λ r, OsRet (match r with
                           | Ok a => Ok (inr a)
                           | Err e => Ok (inl e)
                           | Panic => Panic
                           end)) m.
End calls.
Arguments osOp : clear implicits.
Arguments osProg : clear implicits.
Arguments OM : clear implicits.
Arguments OsRet {E A}.
Arguments OsCall {E A}.

(** ** Drivers *)

Record DriverOptions := mkDriverOptions {
  opt_BlockCacheSize : Z;
  opt_WriteBufferSize : Z;
  opt_MaxWriteBuffers : Z;
  opt_MaxBackgroundJobs : Z;
  (** [RecordExpired] at a clock reading *)
  opt_RecordExpired : Z → bytes → bool
}.

Record DriverInfo := mkDriverInfo {
  info_Driver : bytes;
  info_Backend : bytes;
  info_Implementation : bytes;
  info_Format : bytes;
  info_Version : bytes;
  info_Available : bool;
  info_PhysicalTTLCompacts : bool
}.

#[global] Instance DriverInfo_eq_dec : EqDecision DriverInfo.
Proof. solve_decision. Defined.

Record Driver (E : Type) := mkDriver {
  drv_Info : DriverInfo;
  drv_Available : option GoError;
  drv_Open : DriverOptions → directory → (GoError + E) * directory
}.
Arguments mkDriver {E}.
Arguments drv_Info {E}.
Arguments drv_Available {E}.
Arguments drv_Open {E}.

(** [reg_driver = None] is a nil driver. *)
Record registeredDriver (E : Type) := mkRegistered {
  reg_driver : option (Driver E);
  reg_info : DriverInfo
}.
Arguments mkRegistered {E}.
Arguments reg_driver {E}.
Arguments reg_info {E}.

Definition set_names (info : DriverInfo) (name : bytes) : DriverInfo :=
  mkDriverInfo name name (info_Implementation info) (info_Format info) (info_Version info)
    (info_Available info) (info_PhysicalTTLCompacts info).

Definition set_available (info : DriverInfo) (available : bool) : DriverInfo :=
  mkDriverInfo (info_Driver info) (info_Backend info) (info_Implementation info)
    (info_Format info) (info_Version info) available (info_PhysicalTTLCompacts info).

Section registry.
Context {GT : GoText} {E : Type}.
Implicit Types (registry : gmap bytes (registeredDriver E)) (driver : Driver E) (name : bytes).

Definition RegisterDriver (driver : option (Driver E)) registry
    : result (gmap bytes (registeredDriver E)) :=
  match driver with
  | None => Err (errorf ErrInvalidArgument ⟦"storage driver is required"⟧)
  | Some driver =>
      let info := drv_Info driver in
      let name := if bool_decide (info_Driver info = []) then info_Backend info
                  else info_Driver info in
      canonical ← normalizeDriverName name;
      _ ← refuse (bool_decide (strings_TrimSpace (info_Implementation info) = [])
                  || bool_decide (strings_TrimSpace (info_Format info) = [])
                  || bool_decide (strings_TrimSpace (info_Version info) = []))
            (errorf ErrInvalidArgument (⟦"driver "⟧ ++ strconv_Quote canonical
               ++ ⟦" must provide implementation, format, and version metadata"⟧));
      if bool_decide (is_Some (registry !! canonical))
      then Err (errorf ErrInvalidArgument (⟦"storage driver "⟧ ++ strconv_Quote canonical
                  ++ ⟦" is already registered"⟧))
      else Ok (<[canonical := mkRegistered (Some driver) (set_names info canonical)]> registry)
  end.

Definition MustRegisterDriver (driver : option (Driver E)) registry
    : result (gmap bytes (registeredDriver E)) :=
  match RegisterDriver driver registry with Err _ => Panic | r => r end.

(** The metadata of an entry with its current availability. *)
Definition listed_info (registered : registeredDriver E) : result DriverInfo :=
  match reg_driver registered with
  | None => Panic
  | Some driver => Ok (set_available (reg_info registered) (bool_decide (drv_Available driver = None)))
  end.

Definition Drivers registry : result (list DriverInfo) :=
  mapM (λ name, match registry !! name with
                | Some registered => listed_info registered
                | None => Panic
                end) (merge_sort bytes_le (map_to_list registry).*1).

Definition registeredDriverFor registry name : result (bytes * registeredDriver E) :=
  canonical ← normalizeDriverName name;
  match registry !! canonical with
  | Some registered => Ok (canonical, registered)
  | None => Err (errorf ErrDriverNotInstalled (strconv_Quote canonical))
  end.

Definition DriverInfoFor registry name : result DriverInfo :=
  found ← registeredDriverFor registry name;
  listed_info found.2.

Definition Backends registry : result (list DriverInfo) := Drivers registry.

Definition BackendInfoFor registry (backend : bytes) : result DriverInfo :=
  DriverInfoFor registry backend.

Definition DefaultDriver registry : result bytes :=
  match registeredDriverFor registry DriverRocksDB with
  | Ok _ => Ok DriverRocksDB
  | _ =>
      infos ← Drivers registry;
      match filter (λ info, info_Driver info ≠ DriverMemory) infos with
      | [info] => Ok (info_Driver info)
      | [] => Ok DriverMemory
      | _ => Ok DriverRocksDB
      end
  end.
End registry.

(** ** The built-in driver *)

Definition memoryDriver : Driver memoryDriverEngine := {|
  drv_Info := mkDriverInfo DriverMemory DriverMemory ⟦"memory"⟧ ⟦"memory-v1"⟧ ⟦"v1.0.0"⟧ false false;
  drv_Available := None;
  drv_Open := λ _ d, (inr memoryDriver_Open, d)
|}.

Definition memory_module : ModuleManifest :=
  mkManifest ModuleManifestVersion DriverMemory ModuleKindEngine [] ⟦"v0.1.0"⟧ ModuleABIVersion
    DriverMemory [⟦"embedded-storage"⟧; ⟦"ephemeral"⟧] [] [] ⟦"Apache-2.0"⟧.

(** The [init] function of the memory driver. *)
Definition memory_init {GT : GoText}
    (registry : gmap bytes (registeredDriver memoryDriverEngine))
    (linked : gmap bytes ModuleManifest)
    : result (gmap bytes (registeredDriver memoryDriverEngine) * gmap bytes ModuleManifest) :=
  registry ← MustRegisterDriver (Some memoryDriver) registry;
  linked ← MustRegisterLinkedModule memory_module linked;
  Ok (registry, linked).

(** ** The manifest of a database directory *)

Record backendManifest := mkBackendManifest {
  bm_KVLiteFormatVersion : Z;
  bm_Backend : bytes;
  bm_Driver : bytes;
  bm_DriverFormat : bytes;
  bm_DriverVersion : bytes
}.

#[global] Instance backendManifest_eq_dec : EqDecision backendManifest.
Proof. solve_decision. Defined.

Definition backend_manifest_value (m : backendManifest) : jvalue :=
  JObject [(⟦"kvlite_format_version"⟧, JInt (bm_KVLiteFormatVersion m));
           (⟦"backend"⟧, JString (bm_Backend m));
           (⟦"driver"⟧, JString (bm_Driver m));
           (⟦"driver_format"⟧, JString (bm_DriverFormat m));
           (⟦"driver_version"⟧, JString (bm_DriverVersion m))].

Definition backend_manifest_fields : list (bytes * (jvalue → backendManifest → option backendManifest)) :=
  [(⟦"kvlite_format_version"⟧, set_int (λ z '(mkBackendManifest _ b d f v), mkBackendManifest z b d f v));
   (⟦"backend"⟧, set_string (λ t '(mkBackendManifest z _ d f v), mkBackendManifest z t d f v));
   (⟦"driver"⟧, set_string (λ t '(mkBackendManifest z b _ f v), mkBackendManifest z b t f v));
   (⟦"driver_format"⟧, set_string (λ t '(mkBackendManifest z b d _ v), mkBackendManifest z b d t v));
   (⟦"driver_version"⟧, set_string (λ t '(mkBackendManifest z b d f _), mkBackendManifest z b d f t))].

Section backend.
Context {GT : GoText} {E : Type} (json_error : bytes → bytes) (path : bytes).
Implicit Types (driver : registeredDriver E) (manifest : backendManifest).

(** The two [Decode] calls of [readBackendManifest]. *)
Definition decode_backend_manifest (data : bytes) : result backendManifest :=
  match (decoded ← decode_next data;
         manifest ← set_struct true backend_manifest_fields decoded.1
                      (mkBackendManifest 0 [] [] [] []);
         Some (manifest, decoded.2)) with
  | None => Err (errorf ErrBackendManifestInvalid (json_error data))
  | Some (manifest, rest) =>
      if bool_decide (skip_space rest = []) then Ok manifest
      else Err (errorf ErrBackendManifestInvalid ⟦"multiple JSON values"⟧)
  end.

(** [None] when there is no manifest. *)
Definition readBackendManifest : OM E (option backendManifest) :=
  r ← os_call OsReadFile;
  match r with
  | inl FsNotExist => mret None
  | inl (FsOther e) => os_throw (wrapf ⟦"kvlite: read backend manifest: "⟧ e)
  | inr data => manifest ← os_lift (decode_backend_manifest data); mret (Some manifest)
  end.

Definition validateBackendManifest manifest driver : result unit :=
  let info := reg_info driver in
  _ ← refuse (bool_decide (bm_KVLiteFormatVersion manifest ≠ backendManifestVersion)
              || bool_decide (bm_Backend manifest = []) || bool_decide (bm_Driver manifest = [])
              || bool_decide (bm_DriverFormat manifest = [])
              || bool_decide (bm_DriverVersion manifest = []))
        (errorf ErrBackendManifestInvalid (⟦"expected format version "⟧
                                           ++ format_int backendManifestVersion));
  refuse (bool_decide (bm_Backend manifest ≠ info_Backend info)
          || bool_decide (bm_Driver manifest ≠ info_Implementation info)
          || bool_decide (bm_DriverFormat manifest ≠ info_Format info))
    (errorf ErrBackendMismatch
       (⟦"path was initialized for backend "⟧ ++ strconv_Quote (bm_Backend manifest)
        ++ ⟦" ("⟧ ++ bm_Driver manifest ++ ⟦" format "⟧ ++ bm_DriverFormat manifest
        ++ ⟦"), requested "⟧ ++ strconv_Quote (info_Backend info)
        ++ ⟦" ("⟧ ++ info_Implementation info ++ ⟦" format "⟧ ++ info_Format info ++ ⟦")"⟧)).

Definition driver_manifest driver : backendManifest :=
  mkBackendManifest backendManifestVersion (info_Backend (reg_info driver))
    (info_Implementation (reg_info driver)) (info_Format (reg_info driver))
    (info_Version (reg_info driver)).

Definition createBackendManifest driver : OM E unit :=
  let data := encode_line (backend_manifest_value (driver_manifest driver)) in
  r ← os_call OsCreate;
  match r with
  | AlreadyExists =>
      existing ← readBackendManifest;
      match existing with
      | None => os_throw (errorf ErrBackendManifestInvalid
                            ⟦"manifest disappeared while opening the database"⟧)
      | Some existing => os_lift (validateBackendManifest existing driver)
      end
  | CreateFailed e => os_throw (wrapf ⟦"kvlite: create backend manifest: "⟧ e)
  | Created =>
      report ← os_call (OsWrite data);
      _ ← os_check ⟦"kvlite: write backend manifest: "⟧ report.2;
      if bool_decide (report.1 ≠ length data)
      then os_throw (wrapf ⟦"kvlite: write backend manifest: "⟧ ioErrShortWrite)
      else synced ← os_call OsSync;
           os_check ⟦"kvlite: sync backend manifest: "⟧ synced
  end.

Definition manifest_missing driver : GoError :=
  errorf ErrBackendManifestMissing
    (strconv_Quote path ++ ⟦" is non-empty and has no "⟧ ++ backendManifestFile
     ++ ⟦"; migrate it into a new KVLite directory instead of selecting "⟧
     ++ strconv_Quote (info_Backend (reg_info driver))).

Definition list_directory : OM E (list bytes) :=
  r ← os_call OsReadDir;
  match r with
  | inl e => os_throw (wrapf ⟦"kvlite: inspect database directory: "⟧ e)
  | inr entries => mret entries
  end.

(** The result tells whether to write the manifest of a legacy directory. *)
Definition prepareBackendManifest driver (allowLegacyRocksDB : bool) : OM E bool :=
  made ← os_call OsMkdirAll;
  _ ← os_check ⟦"kvlite: create database directory: "⟧ made;
  found ← readBackendManifest;
  match found with
  | Some manifest => _ ← os_lift (validateBackendManifest manifest driver); mret false
  | None =>
      entries ← list_directory;
      if bool_decide (entries = []) then _ ← createBackendManifest driver; mret false
      else if allowLegacyRocksDB then mret true
      else os_throw (manifest_missing driver)
  end.

Definition createBackendManifestIfNotExists (fromModule : registeredDriver E) : OM E unit :=
  found ← readBackendManifest;
  match found with
  | Some _ => mret tt
  | None =>
      entries ← list_directory;
      if bool_decide (entries = []) then createBackendManifest fromModule
      else os_throw (manifest_missing fromModule)
  end.
End backend.

(** ** Opening *)

(** What the process knows of drivers and modules. *)
Record Host (E : Type) := mkHost {
  host_drivers : gmap bytes (registeredDriver E);
  host_linked : gmap bytes ModuleManifest;
  host_env : ModuleEnv
}.
Arguments mkHost {E}.
Arguments host_drivers {E}.
Arguments host_linked {E}.
Arguments host_env {E}.

Definition driverOptions {X Y} (cfg : config X Y) : DriverOptions :=
  mkDriverOptions (cfg_blockCacheSize cfg) (cfg_writeBufferSize cfg) (cfg_maxWriteBuffers cfg)
    (cfg_maxBackgroundJobs cfg) (λ now record, envelopeExpired record now).

Definition NativeInitSymbol : bytes := ⟦"kvlite_module_init_v1"⟧.

Section opening.
Context {GT : GoText} {E X Y : Type} (FS : FileSystem) (sha256 : bytes → bytes)
  (json_error : bytes → bytes) (GOOS_GOARCH : bytes) (host : Host E)
  (openModuleDriver openNativeModuleDriver :
     Module_ → DriverOptions → directory → (GoError + E) * directory).
Implicit Types (name : bytes) (modules : list Module_) (cfg : config X Y).

(** [selectDriverModule], with the module selected so far. *)
Fixpoint select_driver name modules (selected : option Module_) : result (option Module_) :=
  match modules with
  | [] => Ok selected
  | module :: modules =>
      let manifest := mod_Manifest module in
      if negb (Provides manifest ModuleKindEngine) || bool_decide (man_Driver manifest ≠ name)
      then select_driver name modules selected
      else match selected with
           | Some first =>
               Err (errorf ErrModuleConflict
                      (⟦"driver "⟧ ++ strconv_Quote name ++ ⟦" is provided by both "⟧
                       ++ strconv_Quote (man_Name (mod_Manifest first)) ++ ⟦" and "⟧
                       ++ strconv_Quote (man_Name manifest)))
           | None => select_driver name modules (Some module)
           end
  end.

Definition resolveModuleForDriver name : result Module_ :=
  installed ← DiscoverModules FS json_error (host_env host) [];
  found ← select_driver name installed None;
  match found with
  | Some module => Ok module
  | None =>
      found ← select_driver name (LinkedModules (host_linked host)) None;
      match found with
      | Some module => Ok module
      | None => Err (errorf ErrModuleNotInstalled (⟦"driver "⟧ ++ strconv_Quote name))
      end
  end.

Definition not_loaded name (detail : bytes) : GoError :=
  errorf ErrDriverNotLoaded (⟦"installed driver "⟧ ++ strconv_Quote name ++ detail).

Definition no_adapter name (err : GoError) : GoError :=
  not_loaded name (⟦" is available, but this binary did not load its adapter: "⟧ ++ error_text err).

(** [r] with its error replaced. *)
Definition or_fail {A} (r : result A) (wrap : GoError → GoError) : result A :=
  match r with Err e => Err (wrap e) | _ => r end.

Definition resolveLinkedDriverOrReportModule name : result (bytes * registeredDriver E) :=
  match registeredDriverFor (host_drivers host) name with
  | Err err =>
      if negb (errors_Is err ErrDriverNotInstalled) then Err err
      else match resolveModuleForDriver name with
           | Err moduleErr => if negb (errors_Is moduleErr ErrModuleNotInstalled)
                              then Err moduleErr else Err err
           | Panic => Panic
           | Ok module =>
               _ ← or_fail (ArtifactForCurrentPlatform GOOS_GOARCH module
                              [ModuleArtifactCShared; ModuleArtifactExecutable]) (no_adapter name);
               Err (not_loaded name (⟦" has a runtime module at "⟧ ++ man_Name (mod_Manifest module)
                                     ++ ⟦" that is not linked into this process"⟧))
           end
  | r => r
  end.

Definition cannot_load name (err : GoError) : GoError :=
  not_loaded name (⟦" cannot be loaded: "⟧ ++ error_text err).

Definition resolveModuleDriver name : result Module_ :=
  module ← resolveModuleForDriver name;
  _ ← or_fail (ArtifactForCurrentPlatform GOOS_GOARCH module [ModuleArtifactCShared])
        (no_adapter name);
  _ ← or_fail (Verify FS sha256 module) (cannot_load name);
  Ok module.

Definition resolveNativeModuleDriver name : result Module_ :=
  module ← resolveModuleForDriver name;
  artifact ← or_fail (ArtifactForCurrentPlatform GOOS_GOARCH module [ModuleArtifactNative])
    (λ err, not_loaded name (⟦" has no native-module artifact for this platform: "⟧
                             ++ error_text err));
  _ ← refuse (bool_decide (art_Symbol artifact ≠ NativeInitSymbol))
        (errorf ErrModuleIncompatible
           (⟦"native module "⟧ ++ strconv_Quote (man_Name (mod_Manifest module))
            ++ ⟦" names initialization symbol "⟧ ++ strconv_Quote (art_Symbol artifact)
            ++ ⟦", want "⟧ ++ strconv_Quote NativeInitSymbol));
  _ ← or_fail (Verify FS sha256 module) (cannot_load name);
  Ok module.

Definition driverFromModule (module : Module_) : result (registeredDriver E) :=
  let manifest := mod_Manifest module in
  driver ← normalizeDriverName (man_Driver manifest);
  let trimmed := strings_TrimSpace (man_Version manifest) in
  let version := if bool_decide (trimmed = []) then ⟦"unknown"⟧ else trimmed in
  Ok (mkRegistered None
        (mkDriverInfo driver driver (man_Name manifest) version version true false)).

(** [Open] of a driver, a loader or a module: an engine or an error. *)
Definition open_storage (open : directory → (GoError + E) * directory) : OM E E :=
  r ← os_call (StorageOpen open);
  match r with inl e => os_throw e | inr storage => mret storage end.

(** [if err := f(); err != nil { _ = storage.Close(); return err }]. *)
Definition or_close {A} (storage : E) (m : OM E A) : OM E A :=
  r ← os_attempt m;
  match r with
  | inl e => _ ← os_call (StorageClose storage); os_throw e
  | inr a => mret a
  end.

Definition open_linked (path : bytes) cfg name (registered : registeredDriver E) : OM E (E * bytes) :=
  match reg_driver registered with
  | None => OsRet Panic
  | Some driver =>
      _ ← os_check (⟦"kvlite: open driver "⟧ ++ strconv_Quote name ++ ⟦": "⟧) (drv_Available driver);
      legacyManifest ← prepareBackendManifest json_error path registered
        (negb (cfg_driverExplicit cfg) && bool_decide (name = DriverRocksDB));
      storage ← open_storage (drv_Open driver (driverOptions cfg));
      _ ← (if legacyManifest : bool
           then or_close storage (createBackendManifest json_error registered)
           else mret tt);
      mret (storage, name)
  end.

Definition open_module (path : bytes) cfg (module : Module_) : OM E (E * bytes) :=
  fromModule ← os_lift (driverFromModule module);
  storage ← open_storage (openModuleDriver module (driverOptions cfg));
  _ ← or_close storage (createBackendManifestIfNotExists json_error path fromModule);
  mret (storage, info_Driver (reg_info fromModule)).

Definition open_native (path : bytes) cfg (module : Module_) : OM E (E * bytes) :=
  fromModule ← os_lift (driverFromModule module);
  storage ← open_storage (openNativeModuleDriver module (driverOptions cfg));
  _ ← or_close storage (made ← os_call OsMkdirAll;
                        os_check ⟦"kvlite: create database directory: "⟧ made);
  _ ← or_close storage (createBackendManifestIfNotExists json_error path fromModule);
  mret (storage, info_Driver (reg_info fromModule)).

Definition openConfiguredEngine (path : bytes) cfg : OM E (E * bytes) :=
  match resolveLinkedDriverOrReportModule (cfg_driver cfg) with
  | Ok (name, registered) => open_linked path cfg name registered
  | Panic => OsRet Panic
  | Err err =>
      if negb (errors_Is err ErrDriverNotInstalled) && negb (errors_Is err ErrDriverNotLoaded)
      then os_throw err
      else match resolveModuleDriver (cfg_driver cfg) with
           | Ok module => open_module path cfg module
           | Panic => OsRet Panic
           | Err moduleErr =>
               match resolveNativeModuleDriver (cfg_driver cfg) with
               | Ok module => open_native path cfg module
               | Panic => OsRet Panic
               | Err nativeErr =>
                   if negb (errors_Is nativeErr ErrModuleNotInstalled) then os_throw nativeErr
                   else if negb (errors_Is moduleErr ErrModuleNotInstalled) then os_throw moduleErr
                   else os_throw (errorf ErrDriverNotInstalled (strconv_Quote (cfg_driver cfg)))
               end
           end
  end.

Definition Open (path : bytes) (json : Codec X Y) (options : list (option (@Option X Y)))
    : OM E (DB E * config X Y) :=
  if bool_decide (path = [])
  then os_throw (errorf ErrInvalidArgument ⟦"database path is required"⟧)
  else cfg ← os_lift (buildConfig json options);
       opened ← openConfiguredEngine path cfg;
       mret (newDB opened.1 opened.2, cfg).
End opening.

(** ** Executing the calls

    [exec d o r d']: the call [o] may report [r] and leave [d']. Every call
    to the operating system may fail, a write may be short. *)

Section exec.
Context {E : Type} (close : E → directory → directory).

Definition manifest_of (d : directory) : option bytes := dir_files d !! backendManifestFile.

Definition set_manifest (d : directory) (content : bytes) : directory :=
  mkDir (dir_exists d) (<[backendManifestFile := content]> (dir_files d)).

Definition exec (d : directory) (o : osOp E) : osResp o → directory → Prop :=
  match o with
  | OsMkdirAll => λ err d',
      d' = match err with None => mkDir true (dir_files d) | Some _ => d end
  | OsReadFile => λ r d', d' = d ∧
      match r with
      | inr content => manifest_of d = Some content
      | inl FsNotExist => manifest_of d = None
      | inl (FsOther _) => True
      end
  | OsReadDir => λ r d', d' = d ∧
      match r with
      | inr entries => dir_exists d = true ∧ entries = (map_to_list (dir_files d)).*1
      | inl _ => True
      end
  | OsCreate => λ r d',
      match r with
      | Created => dir_exists d = true ∧ manifest_of d = None ∧ d' = set_manifest d []
      | AlreadyExists => is_Some (manifest_of d) ∧ d' = d
      | CreateFailed _ => d' = d
      end
  | OsWrite data => λ '(n, err) d',
      n ≤ length data ∧ (n < length data → is_Some err) ∧ d' = set_manifest d (take n data)
  | OsSync => λ _ d', d' = d
  | StorageOpen f => λ r d', (r, d') = f d
  | StorageClose storage => λ _ d', d' = close storage d
  end.

(** The calls when nothing fails. *)
Definition perform (o : osOp E) (d : directory) : osResp o * directory :=
  match o with
  | OsMkdirAll => (None, mkDir true (dir_files d))
  | OsReadFile =>
      (match manifest_of d with Some content => inr content | None => inl FsNotExist end, d)
  | OsReadDir => (if dir_exists d then inr (map_to_list (dir_files d)).*1
                  else inl (EExternal ⟦"no such file or directory"⟧), d)
  | OsCreate =>
      match manifest_of d with
      | Some _ => (AlreadyExists, d)
      | None => if dir_exists d then (Created, set_manifest d [])
                else (CreateFailed (EExternal ⟦"no such file or directory"⟧), d)
      end
  | OsWrite data => ((length data, None), set_manifest d data)
  | OsSync => (None, d)
  | StorageOpen f => f d
  | StorageClose storage => (tt, close storage d)
  end.

Fixpoint os_run {A} (p : osProg E A) (d : directory) : A * directory :=
  match p with
  | OsRet a => (a, d)
  | OsCall o k => let '(r, d') := perform o d in os_run (k r) d'
  end.

Lemma perform_exec o d : exec d o (perform o d).1 (perform o d).2.
Proof.
  destruct o; cbn [perform exec fst snd]; try done.
  - by destruct (manifest_of d).
  - by destruct (dir_exists d).
  - destruct (manifest_of d) eqn:?; [done|]. by destruct (dir_exists d).
  - rewrite take_ge by lia. split_and!; [lia|lia|done].
  - by destruct (open d).
Qed.
End exec.
