(* ===== verification/BackendProps.v ===== *)
(** * Properties of the drivers and of the backend manifest

    The manifest is read back as it was written, a directory stays with its
    driver, and two processes that open one directory at the same time
    cannot both succeed with different drivers. *)

From S2P Require Import Prelude Errors Engine Effects Envelope Text Utf8 Json JsonProps PathClean DriverName MemDriver DB Modules Backend.

Section manifest.
Context {GT : GoText} {E : Type} (json_error : bytes → bytes) (path : bytes)
  (close : E → directory → directory).
Implicit Types (driver : registeredDriver E).

(** ** Writing and reading a manifest *)

Definition clean_manifest (m : backendManifest) : backendManifest :=
  mkBackendManifest (bm_KVLiteFormatVersion m) (sanitize (bm_Backend m)) (sanitize (bm_Driver m))
    (sanitize (bm_DriverFormat m)) (sanitize (bm_DriverVersion m)).

Definition manifest_data driver : bytes :=
  encode_line (backend_manifest_value (driver_manifest driver)).

Lemma decode_manifest_data driver :
  decode_backend_manifest json_error (manifest_data driver) = Ok (clean_manifest (driver_manifest driver)).
Proof.
  unfold decode_backend_manifest, manifest_data.
  rewrite decode_next_line; [|by split; [exists backendManifestVersion|]|done].
  reflexivity.
Qed.

Lemma decode_empty : ∀ m, decode_backend_manifest json_error [] ≠ Ok m.
Proof. done. Qed.

(** The metadata of a driver that a manifest can hold: text without invalid
    bytes, none of it empty. *)
Definition storable (text : bytes) : Prop := text ≠ [] ∧ sanitize text = text.

Definition well_described driver : Prop :=
  let info := reg_info driver in
  storable (info_Backend info) ∧ storable (info_Implementation info)
  ∧ storable (info_Format info) ∧ storable (info_Version info).

(** What two drivers share when one may open what the other created. *)
Definition same_storage driver driver' : Prop :=
  info_Backend (reg_info driver) = info_Backend (reg_info driver')
  ∧ info_Implementation (reg_info driver) = info_Implementation (reg_info driver')
  ∧ info_Format (reg_info driver) = info_Format (reg_info driver').

#[global] Instance same_storage_dec driver driver' : Decision (same_storage driver driver').
Proof. unfold same_storage. apply _. Defined.

Lemma clean_described driver :
  well_described driver → clean_manifest (driver_manifest driver) = driver_manifest driver.
Proof.
  intros ([_ H1] & [_ H2] & [_ H3] & [_ H4]). unfold clean_manifest, driver_manifest.
  cbn [bm_KVLiteFormatVersion bm_Backend bm_Driver bm_DriverFormat bm_DriverVersion].
  by rewrite H1, H2, H3, H4.
Qed.

Lemma validate_described driver driver' :
  well_described driver →
  ∃ e, validateBackendManifest (driver_manifest driver) driver'
         = refuse (negb (bool_decide (same_storage driver driver'))) e
       ∧ errors_Is e ErrBackendMismatch = true.
Proof.
  intros ([H1 _] & [H2 _] & [H3 _] & [H4 _]). unfold validateBackendManifest, driver_manifest.
  cbn [bm_KVLiteFormatVersion bm_Backend bm_Driver bm_DriverFormat bm_DriverVersion].
  rewrite !(bool_decide_eq_false_2 (_ = [])) by done.
  eexists. split.
  - change (bool_decide (backendManifestVersion ≠ backendManifestVersion)) with false.
    cbn [orb refuse mbind result_bind].
    f_equal. unfold same_storage.
    repeat case_bool_decide; naive_solver.
  - done.
Qed.

(** ** Running without faults *)

Lemma os_run_bind {A B} (m : OM E A) (f : A → OM E B) d :
  os_run close (m ≫= f) d =
    let '(r, d') := os_run close m d in
    match r with Ok a => os_run close (f a) d' | Err e => (Err e, d') | Panic => (Panic, d') end.
Proof.
  unfold mbind, OM_bind. revert d. induction m as [r|o k IH]; intros d; cbn.
  - by destruct r.
  - destruct (perform close o d) as [r d']. apply IH.
Qed.

Lemma run_read d :
  os_run close (readBackendManifest json_error) d =
    (match manifest_of d with
     | None => Ok None
     | Some data => m ← decode_backend_manifest json_error data; Ok (Some m)
     end, d).
Proof.
  unfold readBackendManifest. rewrite os_run_bind. cbn [os_call os_run perform].
  destruct (manifest_of d) as [data|]; [|done]. rewrite os_run_bind. cbn [os_lift os_run].
  by destruct (decode_backend_manifest _ _).
Qed.

Lemma run_create driver d :
  dir_exists d = true → manifest_of d = None →
  os_run close (createBackendManifest json_error driver) d = (Ok tt, set_manifest d (manifest_data driver)).
Proof.
  intros Hd Hm. unfold createBackendManifest. fold (manifest_data driver).
  generalize (manifest_data driver). intros data.
  rewrite os_run_bind. cbn [os_call os_run perform]. rewrite Hm, Hd, os_run_bind.
  cbn [os_call os_run perform]. rewrite os_run_bind. cbn [os_check os_run snd fst mret OM_ret].
  rewrite bool_decide_eq_false_2 by (intros H; by apply H).
  unfold set_manifest. cbn [dir_exists dir_files]. rewrite insert_insert_eq. done.
Qed.

Lemma run_prepare driver allowLegacy d :
  os_run close (prepareBackendManifest json_error path driver allowLegacy) d =
    let d := mkDir true (dir_files d) in
    match manifest_of d with
    | Some data =>
        (m ← decode_backend_manifest json_error data;
         _ ← validateBackendManifest m driver; Ok false, d)
    | None =>
        if bool_decide (dir_files d = ∅) then (Ok false, set_manifest d (manifest_data driver))
        else if allowLegacy then (Ok true, d) else (Err (manifest_missing path driver), d)
    end.
Proof.
  unfold prepareBackendManifest. rewrite os_run_bind. cbn [os_call os_run perform].
  rewrite os_run_bind. cbn [os_check os_run mret OM_ret].
  set (d' := mkDir true (dir_files d)). rewrite os_run_bind, run_read.
  destruct (manifest_of d') as [data|] eqn:Hm.
  - destruct (decode_backend_manifest json_error data) as [m| |]; [|done..].
    cbn [mbind result_bind]. rewrite os_run_bind. cbn [os_lift os_run].
    by destruct (validateBackendManifest m driver).
  - rewrite os_run_bind. unfold list_directory. rewrite os_run_bind.
    cbn [os_call os_run perform mret OM_ret]. cbn [dir_exists d' os_run].
    change (os_run close (mret ?l) d') with (Ok l, d').
    assert ((map_to_list (dir_files d')).*1 = [] ↔ dir_files d' = ∅) as Hiff.
    { rewrite <-map_to_list_empty_iff. by destruct (map_to_list (dir_files d')). }
    do 2 case_bool_decide; try tauto; [by rewrite os_run_bind, run_create|by destruct allowLegacy].
Qed.

(** ** Reopening *)

Definition pinned_directory driver : directory :=
  mkDir true {[ backendManifestFile := manifest_data driver ]}.

Lemma run_first driver allowLegacy d :
  dir_files d = ∅ →
  os_run close (prepareBackendManifest json_error path driver allowLegacy) d
  = (Ok false, pinned_directory driver).
Proof.
  intros Hempty. rewrite run_prepare. unfold manifest_of, set_manifest, pinned_directory.
  cbn [dir_files]. by rewrite Hempty.
Qed.

Lemma run_again driver driver' allowLegacy :
  well_described driver →
  os_run close (prepareBackendManifest json_error path driver' allowLegacy) (pinned_directory driver)
  = (_ ← validateBackendManifest (driver_manifest driver) driver'; Ok false, pinned_directory driver).
Proof.
  intros Hd. rewrite run_prepare. unfold manifest_of, pinned_directory. cbn [dir_files].
  by rewrite lookup_singleton_eq, decode_manifest_data, clean_described.
Qed.


(** ** Two processes *)

(** Every interleaving of the calls of two programs on one directory. *)
Inductive interleave {A B} : directory → osProg E A → osProg E B → A → B → Prop :=
  | il_done d a b : interleave d (OsRet a) (OsRet b) a b
  | il_left d o k q r d' a b :
      exec close d o r d' → interleave d' (k r) q a b → interleave d (OsCall o k) q a b
  | il_right d p o k r d' a b :
      exec close d o r d' → interleave d' p (k r) a b → interleave d p (OsCall o k) a b.

(** Running one after the other is one of them. *)
Lemma interleave_sequence {A B} (p : osProg E A) (q : osProg E B) d a d' b d'' :
  os_run close p d = (a, d') → os_run close q d' = (b, d'') → interleave d p q a b.
Proof.
  assert (∀ (q : osProg E B) d, os_run close q d = (b, d'') → interleave d (OsRet a) q a b) as Hq.
  { clear. intros q. induction q as [b'|o k IH]; intros d H; cbn in H; [simplify_eq; constructor|].
    pose proof (perform_exec close o d) as He. destruct (perform close o d) as [r d1].
    eapply il_right; [exact He|]. by apply IH. }
  revert d. induction p as [a'|o k IH]; intros d Hp Hrun; cbn in Hp; [simplify_eq; by apply Hq|].
  pose proof (perform_exec close o d) as He. destruct (perform close o d) as [r d1].
  eapply il_left; [exact He|]. by apply IH.
Qed.

(** A manifest [driver] takes for its own. *)
Definition accepts driver (data : bytes) : Prop :=
  ∃ m, decode_backend_manifest json_error data = Ok m ∧ validateBackendManifest m driver = Ok tt.

Implicit Types (p q : osProg E (result bool)).

(** The protocol of one process, by what has become of the manifest file:
    [settled]: it holds [data] and nobody changes it any more;
    [waits]: another process has created it and not written it yet;
    [written]: this process has written [data];
    [creates]: this process has created it and not written it yet;
    [absent]: it does not exist. A program ends well only if its driver
    accepts what the file holds. *)

Fixpoint settled driver (data : bytes) p : Prop :=
  match p with
  | OsRet r => r = Ok false → accepts driver data
  | OsCall o k => ∀ d r d', exec close d o r d' → manifest_of d = Some data →
      manifest_of d' = Some data ∧ settled driver data (k r)
  end.

Fixpoint waits driver p : Prop :=
  (∀ data, settled driver data p)
  ∧ match p with
    | OsRet _ => True
    | OsCall o k => ∀ d r d', exec close d o r d' → manifest_of d = Some [] →
        manifest_of d' = Some [] ∧ waits driver (k r)
    end.

Fixpoint written driver (data : bytes) p : Prop :=
  match p with
  | OsRet r => r = Ok false → data = manifest_data driver
  | OsCall o k => ∀ d r d', exec close d o r d' → manifest_of d = Some data →
      manifest_of d' = Some data ∧ written driver data (k r)
  end.

Fixpoint creates driver p : Prop :=
  match p with
  | OsRet r => r ≠ Ok false
  | OsCall o k => ∀ d r d', exec close d o r d' → manifest_of d = Some [] →
      (manifest_of d' = Some [] ∧ creates driver (k r))
      ∨ ∃ data, manifest_of d' = Some data ∧ written driver data (k r)
  end.

Fixpoint absent driver p : Prop :=
  waits driver p
  ∧ match p with
    | OsRet _ => True
    | OsCall o k => ∀ d r d', exec close d o r d' → manifest_of d = None →
        (manifest_of d' = None ∧ absent driver (k r))
        ∨ manifest_of d' = Some [] ∧ creates driver (k r)
    end.

(** One process in a state of the file, the other in the matching one. *)
Inductive protocol driver driver' d p q : Prop :=
  | pr_absent : manifest_of d = None → absent driver p → absent driver' q → protocol driver driver' d p q
  | pr_settled data : manifest_of d = Some data → settled driver data p → settled driver' data q →
      protocol driver driver' d p q
  | pr_creates : manifest_of d = Some [] → creates driver p → waits driver' q → protocol driver driver' d p q
  | pr_written data : manifest_of d = Some data → written driver data p → settled driver' data q →
      protocol driver driver' d p q
  | pr_creates' : manifest_of d = Some [] → waits driver p → creates driver' q → protocol driver driver' d p q
  | pr_written' data : manifest_of d = Some data → settled driver data p → written driver' data q →
      protocol driver driver' d p q.

Lemma waits_settled driver data p : waits driver p → settled driver data p.
Proof. destruct p; by intros [H _]. Qed.

Lemma absent_waits driver p : absent driver p → waits driver p.
Proof. destruct p; by intros [H _]. Qed.

Lemma waits_fails driver r : waits driver (OsRet r) → r ≠ Ok false.
Proof. intros [H _] ->. by destruct (H [] eq_refl) as (m & Hm%decode_empty & _). Qed.

Lemma protocol_sym driver driver' d p q : protocol driver driver' d p q → protocol driver' driver d q p.
Proof. destruct 1; by econstructor. Qed.

(** A call of the first process keeps to the protocol. *)
Lemma protocol_call driver driver' d d' o k r q :
  protocol driver driver' d (OsCall o k) q → exec close d o r d' → protocol driver driver' d' (k r) q.
Proof.
  intros [Hd Hp Hq|data Hd Hp Hq|Hd Hp Hq|data Hd Hp Hq|Hd Hp Hq|data Hd Hp Hq] He.
  - destruct Hp as [_ Hp]. destruct (Hp _ _ _ He Hd) as [[]|[]].
    + by apply pr_absent.
    + apply pr_creates; auto using absent_waits.
  - destruct (Hp _ _ _ He Hd). by eapply pr_settled.
  - destruct (Hp _ _ _ He Hd) as [[]|(data & ? & ?)]; [by apply pr_creates|].
    eapply pr_written; eauto using waits_settled.
  - destruct (Hp _ _ _ He Hd). by eapply pr_written.
  - destruct Hp as [_ Hp]. destruct (Hp _ _ _ He Hd). by eapply pr_creates'.
  - destruct (Hp _ _ _ He Hd). by eapply pr_written'.
Qed.

Lemma protocol_agree driver driver' d p q a b :
  interleave d p q a b → protocol driver driver' d p q → a = Ok false → b = Ok false →
  ∃ data, (accepts driver data ∨ data = manifest_data driver)
          ∧ (accepts driver' data ∨ data = manifest_data driver')
          ∧ (accepts driver data ∨ accepts driver' data).
Proof.
  induction 1 as [d a b|d o k q r d' a b He _ IH|d p o k r d' a b He _ IH]; intros Hp -> ->.
  - destruct Hp as [_ Hp Hq|data _ Hp Hq|_ Hp _|data _ Hp Hq|_ _ Hp|data _ Hp Hq];
      try (exists data; by auto); [|done..].
    by apply absent_waits, waits_fails in Hp.
  - apply IH; [|done..]. by eapply protocol_call.
  - apply IH; [|done..]. apply protocol_sym. eapply protocol_call; [|done]. by apply protocol_sym.
Qed.

(** [prepareBackendManifest] keeps to the protocol. *)

Lemma settled_fails driver data r : r ≠ Ok false → settled driver data (OsRet r).
Proof. by intros ? ?. Qed.

Lemma waits_fails_2 driver r : r ≠ Ok false → waits driver (OsRet r).
Proof. intros Hr. split; [|done]. intros data. by apply settled_fails. Qed.

Lemma absent_fails driver r : r ≠ Ok false → absent driver (OsRet r).
Proof. intros Hr. split; [|done]. by apply waits_fails_2. Qed.

(** What follows a read of the manifest: an error ends the open, a content
    is decoded and validated. *)
Definition reads driver (k : fsError + bytes → osProg E (result bool)) : Prop :=
  (∀ e, ∃ r, k (inl (FsOther e)) = OsRet r ∧ r ≠ Ok false)
  ∧ ∀ content, ∃ r, k (inr content) = OsRet r ∧ (r = Ok false → accepts driver content).

Lemma settled_read driver data k : reads driver k → settled driver data (OsCall OsReadFile k).
Proof.
  intros [Hother Hdata] d r d' [-> Hr] Hd. split; [done|]. destruct r as [[|e]|content].
  - congruence.
  - destruct (Hother e) as (r & -> & ?). by apply settled_fails.
  - assert (content = data) as -> by congruence. by destruct (Hdata data) as (r & -> & ?).
Qed.

Lemma waits_read driver k : reads driver k → waits driver (OsCall OsReadFile k).
Proof.
  intros Hk. split; [intros data; by apply settled_read|]. destruct Hk as [Hother Hdata].
  intros d r d' [-> Hr] Hd. split; [done|]. destruct r as [[|e]|content].
  - congruence.
  - destruct (Hother e) as (r & -> & ?). by apply waits_fails_2.
  - assert (content = []) as -> by congruence. destruct (Hdata []) as (r & -> & Hr').
    apply waits_fails_2. intros (m & ?%decode_empty & _)%Hr'. done.
Qed.

Lemma absent_read driver k :
  reads driver k → absent driver (k (inl FsNotExist)) → absent driver (OsCall OsReadFile k).
Proof.
  intros Hk Hn. split; [by apply waits_read|]. destruct Hk as [Hother _].
  intros d r d' [-> Hr] Hd. left. split; [done|]. destruct r as [[|e]|content].
  - done.
  - destruct (Hother e) as (r & -> & ?). by apply absent_fails.
  - congruence.
Qed.

(** The reads of the two functions. *)
Ltac solve_reads :=
  split; [intros e; by eexists|];
  let c := fresh "content" in intros c;
  let m := fresh "m" in
  destruct (decode_backend_manifest json_error c) as [m| |] eqn:Hdecode;
    cbn [readBackendManifest prepareBackendManifest createBackendManifest os_call os_lift os_check
         osProg_bind mbind OM_bind mret OM_ret];
    try (rewrite Hdecode; cbn [os_lift osProg_bind mbind OM_bind mret OM_ret]); [|by eexists..];
  destruct (validateBackendManifest m _) as [[]| |] eqn:?; eexists; (split; [reflexivity|]);
  try done; intros _; by exists m.

(** A call that does not touch the manifest. *)
Definition neutral (o : osOp E) : Prop :=
  ∀ d r d', exec close d o r d' → manifest_of d' = manifest_of d.

Lemma absent_neutral driver o k :
  neutral o → (∀ r, absent driver (k r)) → absent driver (OsCall o k).
Proof.
  intros Ho Hk.
  assert (∀ data, settled driver data (OsCall o k)) as Hs.
  { intros data d r d' He Hd. rewrite (Ho _ _ _ He). auto using absent_waits, waits_settled. }
  split; [split; [done|]|]; intros d r d' He Hd; rewrite (Ho _ _ _ He); auto using absent_waits.
Qed.

(** [createBackendManifest] at the end of an open. *)
Lemma absent_create driver : absent driver (_ ← createBackendManifest json_error driver; mret false).
Proof.
  assert (∀ content, settled driver content (_ ← createBackendManifest json_error driver; mret false))
    as Hsettled.
  { intros content d [| |e] d'.
    - intros (_ & ? & _) ?. congruence.
    - intros [_ ->] ?. split; [done|]. apply settled_read. solve_reads.
    - by intros -> ?. }
  split; [split; [done|]|]; intros d [| |e] d'.
  - intros (_ & ? & _) ?. congruence.
  - intros [_ ->] ?. split; [done|]. apply waits_read. solve_reads.
  - intros -> ?. split; [done|]. by apply waits_fails_2.
  - intros (_ & _ & ->) _. right. split; [apply lookup_insert_eq|].
    unfold createBackendManifest. fold (manifest_data driver).
    remember (manifest_data driver) as data eqn:Hdata.
    intros d1 [n err] d2 (Hn & Hshort & ->) _. right. exists (take n data).
    split; [apply lookup_insert_eq|]. cbn -[length].
    destruct err as [e|]; [done|]. cbn -[length].
    assert (n = length data) as ->.
    { destruct (decide (n < length data)) as [H|]; [by destruct (Hshort H)|lia]. }
    rewrite bool_decide_eq_false_2 by (intros H; by apply H).
    intros d2 [e|] d3 -> ?; (split; [done|]); [done|].
    intros _. by rewrite take_ge, Hdata by lia.
  - intros [[? ?] _] ?. congruence.
  - intros -> ?. left. split; [done|]. by apply absent_fails.
Qed.

(** An open keeps to the protocol from its start. *)
Lemma absent_prepare driver allowLegacy :
  absent driver (prepareBackendManifest json_error path driver allowLegacy).
Proof.
  apply absent_neutral; [by intros d [e|] d' ->|]. intros [e|]; [by apply absent_fails|].
  apply absent_read; [solve_reads|].
  apply absent_neutral; [by intros d r d' [-> _]|]. intros [e|entries]; [by apply absent_fails|].
  cbn [os_lift osProg_bind mbind OM_bind mret OM_ret]. case_bool_decide; [apply absent_create|]. destruct allowLegacy; by apply absent_fails.
Qed.

Lemma accepts_written driver driver' :
  well_described driver → accepts driver' (manifest_data driver) → same_storage driver driver'.
Proof.
  intros Hd (m & Hm & Hv). rewrite decode_manifest_data, clean_described in Hm by done.
  injection Hm as <-. destruct (validate_described driver driver' Hd) as (e & He & _).
  rewrite He in Hv. by apply refuse_Ok, negb_false_iff, bool_decide_eq_true in Hv.
Qed.

Lemma accepts_same driver driver' data :
  accepts driver data → accepts driver' data → same_storage driver driver'.
Proof.
  intros (m & Hm & Hv) (m' & Hm' & Hv'). rewrite Hm in Hm'. injection Hm' as <-.
  unfold validateBackendManifest in Hv, Hv'. cbn zeta in Hv, Hv'.
  apply result_bind_Ok in Hv as (_ & _ & Hv), Hv' as (_ & _ & Hv').
  apply refuse_Ok in Hv, Hv'. rewrite !orb_false_iff, !bool_decide_eq_false in Hv, Hv'.
  destruct Hv as [[H1%dec_stable H2%dec_stable] H3%dec_stable].
  destruct Hv' as [[H1'%dec_stable H2'%dec_stable] H3'%dec_stable].
  unfold same_storage. by split_and!; congruence.
Qed.

End manifest.

(** ** The driver registry *)

Section registry.
Context {GT : GoText} {E : Type}.
Implicit Types (registry : gmap bytes (registeredDriver E)).

(** Every entry is filed under its canonical name and has a driver. *)
Definition entry_wf (name : bytes) (registered : registeredDriver E) : Prop :=
  info_Driver (reg_info registered) = name ∧ info_Backend (reg_info registered) = name
  ∧ normalizeDriverName name = Ok name ∧ is_Some (reg_driver registered).

Definition registry_wf registry : Prop := map_Forall entry_wf registry.

(** Registering a driver keeps the registry well-formed, files the driver
    under its canonical name and leaves every other name alone; a name that
    is taken is never overridden. *)
Theorem register_driver_exact driver registry :
  registry_wf registry →
  match RegisterDriver (Some driver) registry with
  | Ok registry' => ∃ name,
      registry !! name = None ∧ registry_wf registry'
      ∧ registeredDriverFor registry' name =
          Ok (name, mkRegistered (Some driver) (set_names (drv_Info driver) name))
      ∧ ∀ other, other ≠ name → registry' !! other = registry !! other
  | Err e => errors_Is e ErrInvalidArgument = true
  | Panic => False
  end.
Proof.
  intros Hwf. unfold RegisterDriver. cbn zeta.
  set (raw := if bool_decide _ then _ else _).
  pose proof (normalizeDriverName_Ok raw) as Hnorm.
  destruct (normalizeDriverName raw) as [name|e|] eqn:Hn.
  - destruct (Hnorm name eq_refl) as [Hne Hc].
    pose proof (normalizeDriverName_canonical name Hne Hc) as Hcanon.
    cbn [mbind result_bind]. destruct (_ || _); [done|]. cbn [refuse mbind result_bind].
    case_bool_decide as Hs; [done|]. exists name. apply eq_None_not_Some in Hs. split_and!.
    + done.
    + apply map_Forall_insert_2; [|done]. by split_and!.
    + unfold registeredDriverFor. rewrite Hcanon. cbn [mbind result_bind]. by rewrite lookup_insert_eq.
    + intros other Hother. by rewrite lookup_insert_ne.
  - unfold normalizeDriverName in Hn. cbn zeta in Hn. case_bool_decide; [by simplify_eq|].
    destruct (bad_character _ 0); by simplify_eq.
  - unfold normalizeDriverName in Hn. cbn zeta in Hn. case_bool_decide; [done|].
    by destruct (bad_character _ 0).
Qed.

(** What [Drivers] computes for one name. *)
Definition listed registry (name : bytes) : result DriverInfo :=
  match registry !! name with
  | Some registered => listed_info registered
  | None => Panic
  end.

Lemma mapM_listed registry names :
  registry_wf registry → Forall (λ name, is_Some (registry !! name)) names →
  ∃ infos, mapM (listed registry) names = Ok infos ∧ info_Driver <$> infos = names.
Proof.
  intros Hwf. induction 1 as [|name names [registered Hr] _ (infos & IH & Hi)]; [by exists []|].
  change (mapM (listed registry) (name :: names)) with
    (y ← listed registry name; k ← mapM (listed registry) names; mret (y :: k)).
  destruct (Hwf _ _ Hr) as (Hname & _ & _ & [driver Hd]).
  assert (∃ info, listed registry name = Ok info ∧ info_Driver info = name) as (info & -> & Hinfo).
  { unfold listed, listed_info. rewrite Hr, Hd. by eexists. }
  rewrite IH. exists (info :: infos). by rewrite fmap_cons, Hi, Hinfo.
Qed.

Lemma Drivers_names registry :
  registry_wf registry →
  ∃ infos, Drivers registry = Ok infos ∧ info_Driver <$> infos = merge_sort bytes_le (map_to_list registry).*1.
Proof.
  intros Hwf. apply mapM_listed; [done|]. rewrite Forall_forall. intros name.
  rewrite merge_sort_Permutation, list_elem_of_fmap.
  intros ([? registered] & -> & Hin%elem_of_map_to_list). by exists registered.
Qed.

Lemma filter_fmap {A B} (P : B → Prop) `{∀ b, Decision (P b)} (f : A → B) (l : list A) :
  filter P (f <$> l) = f <$> filter (λ a, P (f a)) l.
Proof.
  induction l as [|a l IH]; [done|]. rewrite fmap_cons, !filter_cons, IH. by case_decide.
Qed.

(** [DefaultDriver] is RocksDB when it is registered; otherwise the only
    driver besides the memory driver, the memory driver when there is no
    other, and RocksDB, whose open then fails, when there are several. *)
Theorem default_driver_exact registry :
  registry_wf registry →
  DefaultDriver registry =
    Ok (if decide (DriverRocksDB ∈ dom registry) then DriverRocksDB
        else match elements (dom registry ∖ {[ DriverMemory ]}) with
             | [] => DriverMemory
             | [name] => name
             | _ => DriverRocksDB
             end).
Proof.
  intros Hwf. unfold DefaultDriver, registeredDriverFor.
  change (normalizeDriverName DriverRocksDB) with (Ok DriverRocksDB : result bytes).
  cbn [mbind result_bind]. case_decide as Hrocks.
  { apply elem_of_dom in Hrocks as [registered ->]. done. }
  apply not_elem_of_dom in Hrocks as ->. destruct (Drivers_names registry Hwf) as (infos & -> & Hnames).
  cbn [mbind result_bind].
  assert (info_Driver <$> filter (λ info, info_Driver info ≠ DriverMemory) infos
          ≡ₚ elements (dom registry ∖ {[ DriverMemory ]})) as Hperm.
  { pose proof (filter_fmap (λ name : bytes, name ≠ DriverMemory) info_Driver infos) as <-.
    rewrite Hnames, merge_sort_Permutation. apply NoDup_Permutation.
    - apply NoDup_filter, NoDup_fst_map_to_list.
    - apply NoDup_elements.
    - intros name. rewrite list_elem_of_filter, elem_of_elements, elem_of_difference, elem_of_dom.
      rewrite not_elem_of_singleton, list_elem_of_fmap. split.
      + intros (? & [? registered] & -> & ?%elem_of_map_to_list). by split; [exists registered|].
      + intros [[registered ?] ?]. split; [done|]. exists (name, registered). by rewrite elem_of_map_to_list. }
  destruct (filter _ infos) as [|a [|b rest]].
  - apply Permutation_nil_l in Hperm. by rewrite <-Hperm.
  - apply Permutation_singleton_l in Hperm. by rewrite <-Hperm.
  - destruct (elements _) as [|x [|y l]]; [..|done].
    + by apply Permutation_nil_r in Hperm.
    + by apply Permutation_length in Hperm.
Qed.
End registry.

(** ** Packaged native modules *)

Section native.
Context {GT : GoText} {E X Y : Type} (FS : FileSystem) (sha256 : bytes → bytes)
  (json_error : bytes → bytes) (GOOS_GOARCH : bytes) (host : Host E)
  (openModuleDriver openNativeModuleDriver :
     Module_ → DriverOptions → directory → (GoError + E) * directory)
  (close : E → directory → directory).
Implicit Types (cfg : config X Y).

Lemma os_run_or_close {A} storage (m : OM E A) d a d' :
  os_run close m d = (Ok a, d') → os_run close (or_close storage m) d = (Ok a, d').
Proof.
  intros Hm. unfold or_close. rewrite os_run_bind.
  assert (os_run close (os_attempt m) d = (Ok (inr a), d')) as ->; [|done].
  revert d Hm. unfold os_attempt. induction m as [r|o k IH]; intros d Hm; cbn in *; [by simplify_eq|].
  destruct (perform close o d). by apply IH.
Qed.

(** A driver loaded from a native module opens a directory whatever backend
    its manifest names: the manifest is decoded but not compared with the
    driver, unlike for a linked driver. *)
Theorem native_open_ignores_manifest path cfg err moduleErr module fromModule storage d d' data m :
  resolveLinkedDriverOrReportModule FS json_error GOOS_GOARCH host (cfg_driver cfg) = Err err →
  errors_Is err ErrDriverNotInstalled = true ∨ errors_Is err ErrDriverNotLoaded = true →
  resolveModuleDriver FS sha256 json_error GOOS_GOARCH host (cfg_driver cfg) = Err moduleErr →
  resolveNativeModuleDriver FS sha256 json_error GOOS_GOARCH host (cfg_driver cfg) = Ok module →
  driverFromModule (E := E) module = Ok fromModule →
  openNativeModuleDriver module (driverOptions cfg) d = (inr storage, d') →
  manifest_of d' = Some data → decode_backend_manifest json_error data = Ok m →
  os_run close (openConfiguredEngine FS sha256 json_error GOOS_GOARCH host openModuleDriver
                  openNativeModuleDriver path cfg) d
  = (Ok (storage, info_Driver (reg_info fromModule)), mkDir true (dir_files d')).
Proof.
  intros Hlinked Herr Hmod Hnative Hfrom Hopen Hm Hdec.
  unfold openConfiguredEngine. rewrite Hlinked.
  assert (negb (errors_Is err ErrDriverNotInstalled) && negb (errors_Is err ErrDriverNotLoaded) = false)
    as -> by (by destruct Herr as [-> | ->]; rewrite ?andb_false_r).
  rewrite Hmod, Hnative. unfold open_native. rewrite os_run_bind. cbn [os_lift os_run]. rewrite Hfrom.
  rewrite os_run_bind. unfold open_storage. rewrite os_run_bind. cbn [os_call os_run perform].
  rewrite Hopen. cbn [mret OM_ret os_run].
  rewrite os_run_bind, (os_run_or_close _ _ _ tt (mkDir true (dir_files d'))) by done.
  rewrite os_run_bind, (os_run_or_close _ _ _ tt (mkDir true (dir_files d'))); [done|].
  unfold createBackendManifestIfNotExists. rewrite os_run_bind, run_read.
  unfold manifest_of in *. cbn [dir_files]. rewrite Hm, Hdec. done.
Qed.
End native.

(** ** Witnesses *)

Module backend_example.
#[local] Existing Instance ascii_GoText.

Definition memory : registeredDriver memoryDriverEngine :=
  mkRegistered (Some memoryDriver) (drv_Info memoryDriver).

Definition keep (_ : memoryDriverEngine) (d : directory) : directory := d.

Definition fresh : directory := mkDir false ∅.

(** A directory that LevelDB created. *)
Definition leveldb : registeredDriver unit :=
  mkRegistered None (mkDriverInfo DriverLevelDB DriverLevelDB ⟦"goleveldb"⟧ ⟦"sst"⟧ ⟦"v1"⟧ true false).
Definition leveldb_directory : directory :=
  mkDir true {[ backendManifestFile := manifest_data leveldb ]}.

(** A native module that provides BoltDB; quotes are written as apostrophes. *)
Definition text : bytes :=
  ⟦"{'schema_version':1,'name':'bolt','kind':'engine','version':'1.0','module_abi':1,'driver':'boltdb','license':'MIT','artifacts':[{'platform':'linux-amd64','kind':'native-module','path':'bolt.so','symbol':'kvlite_module_init_v1','sha256':'0000000000000000000000000000000000000000000000000000000000000000'}]}"⟧.
Definition json : bytes := (λ c, if bool_decide (c = "'"%byte) then Byte.x22 else c) <$> text.
Definition files : FileSystem := {|
  fs_ReadFile := λ p, if bool_decide (p = ⟦"/u/kvlite-module.json"⟧) then inr json else inl FsNotExist;
  fs_Open := λ _, inr (inr [], None);
  fs_IsDir := λ _, inr true;
  fs_ReadDir := λ _, inr []
|}.
Definition digest (_ : bytes) : bytes := replicate 64 "0"%byte.
Definition host : Host unit := mkHost ∅ ∅ (mkModuleEnv ⟦"/u"⟧ [] []).
Definition load (_ : Module_) (_ : DriverOptions) (d : directory) : (GoError + unit) * directory :=
  (inr tt, d).
Definition codec : Codec unit unit := mkCodec ⟦"json"⟧ (λ _, Ok []) (λ _ _, Ok (GoOther tt)).
Definition cfg : config unit unit :=
  mkConfig codec ∅ DriverBoltDB true 0 0 0 0.
End backend_example.

Section witnesses.
Import backend_example.
#[local] Existing Instance ascii_GoText.

Lemma memory_described : well_described memory.
Proof. repeat split; by vm_compute. Qed.



Lemma register_driver_exact_witness :
  ∃ registry, RegisterDriver (Some memoryDriver) ∅ = Ok registry ∧ registry_wf registry.
Proof.
  pose proof (register_driver_exact memoryDriver ∅ (map_Forall_empty _)) as H.
  assert (match RegisterDriver (Some memoryDriver) ∅ with Ok _ => true | _ => false end = true) as Hok
    by (by vm_compute).
  destruct (RegisterDriver (Some memoryDriver) ∅) as [registry| |]; [|done..].
  destruct H as (name & _ & ? & _). by exists registry.
Defined.

Lemma default_driver_exact_witness :
  ∃ registry, RegisterDriver (Some memoryDriver) ∅ = Ok registry
    ∧ DefaultDriver registry = Ok DriverMemory.
Proof.
  exists {[ DriverMemory := mkRegistered (Some memoryDriver) (set_names (drv_Info memoryDriver) DriverMemory) ]}.
  split; [done|]. rewrite default_driver_exact; [by vm_compute|].
  by apply map_Forall_singleton.
Defined.

Lemma native_open_ignores_manifest_witness :
  ∃ d, os_run (λ _ d, d) (openConfiguredEngine files digest id ⟦"linux-amd64"⟧ host load load ⟦"/db"⟧ cfg)
         leveldb_directory = (Ok (tt, DriverBoltDB), d).
Proof.
  eexists. etrans.
  - eapply (native_open_ignores_manifest files digest id ⟦"linux-amd64"⟧ host load load (λ _ d, d) ⟦"/db"⟧ cfg).
    + by vm_compute.
    + right. by vm_compute.
    + by vm_compute.
    + by vm_compute.
    + by vm_compute.
    + done.
    + apply lookup_singleton_eq.
    + apply decode_manifest_data.
  - by vm_compute.
Defined.
End witnesses.
