(* ===== verification/Http.v ===== *)
(** * The HTTP server ([extensions/http/http.go])

    Requests and responses as the handlers see them, what the server uses of
    [net/http] and [net/url] (headers, queries, the routes of a [ServeMux]),
    the bearer-token gate, the choice of a database by the driver header, and
    one program per handler over the effects of the database it serves.
    Time-outs and the listener are not modelled. *)

From S2P Require Import Prelude Errors Engine Effects Envelope Keys ListCodec Text Utf8 Json Base64 PathClean DriverName DB Collections Transport Modules Backend.

(** ** Requests and responses *)

(** Header names are in canonical form, as [net/http] stores them. *)
Record Request := mkRequest {
  req_Method : bytes;
  (** [URL.EscapedPath()] *)
  req_Path : bytes;
  req_RawQuery : bytes;
  req_Header : list (bytes * bytes);
  (** what reading the body yields *)
  req_Body : GoError + bytes
}.

Record Response := mkResponse {
  res_Status : Z;
  res_Header : list (bytes * bytes);
  res_Body : bytes
}.

Definition MethodGet : bytes := ⟦"GET"⟧.
Definition MethodHead : bytes := ⟦"HEAD"⟧.
Definition MethodPut : bytes := ⟦"PUT"⟧.
Definition MethodPost : bytes := ⟦"POST"⟧.
Definition MethodDelete : bytes := ⟦"DELETE"⟧.
Definition MethodConnect : bytes := ⟦"CONNECT"⟧.

Fixpoint canonical_from (upper : bool) (name : bytes) : bytes :=
  match name with
  | [] => []
  | c :: name => (if upper then upper_byte c else lower_byte c)
                 :: canonical_from (bool_decide (c = "-"%byte)) name
  end.

(** [textproto.CanonicalMIMEHeaderKey] on the names the program uses. *)
Definition canonical_key (name : bytes) : bytes := canonical_from true name.

(** [Header.Get]: the first value. *)
Definition header_get (name : bytes) (header : list (bytes * bytes)) : bytes :=
  match list_find (λ h, h.1 = canonical_key name) header with
  | Some (_, h) => h.2
  | None => []
  end.

(** [Header.Set] replaces every value. *)
Definition header_set (name value : bytes) (header : list (bytes * bytes)) : list (bytes * bytes) :=
  filter (λ h, h.1 ≠ canonical_key name) header ++ [(canonical_key name, value)].

(** [http.Error]. *)
Definition http_Error (header : list (bytes * bytes)) (message : bytes) (status : Z) : Response :=
  mkResponse status
    (header_set ⟦"X-Content-Type-Options"⟧ ⟦"nosniff"⟧
       (header_set ⟦"Content-Type"⟧ ⟦"text/plain; charset=utf-8"⟧ header))
    (message ++ [Byte.x0a]).

(** A response of a handler that set the content type and wrote [body]. *)
Definition http_OK (header : list (bytes * bytes)) (content_type body : bytes) : Response :=
  mkResponse 200 (header_set ⟦"Content-Type"⟧ content_type header) body.

(** ** Queries *)

(** [url.PathUnescape], and [url.QueryUnescape] with [plus]. *)
Fixpoint unescape (plus : bool) (s : bytes) : option bytes :=
  match s with
  | [] => Some []
  | c :: s =>
      if bool_decide (c = "%"%byte) then
        match s with
        | a :: b :: s =>
            hi ← hex_value a; lo ← hex_value b;
            rest ← unescape plus s; Some (byte_of_Z (16 * hi + lo) :: rest)
        | _ => None
        end
      else rest ← unescape plus s;
           Some ((if plus && bool_decide (c = "+"%byte) then " "%byte else c) :: rest)
  end.

(** [strings.Cut]. *)
Fixpoint cut (sep : Byte.byte) (s : bytes) : bytes * bytes :=
  match s with
  | [] => ([], [])
  | c :: s => if bool_decide (c = sep) then ([], s)
              else let '(before, after) := cut sep s in (c :: before, after)
  end.

(** One [name=value] piece of a query; malformed pieces are dropped. *)
Definition query_piece (piece : bytes) : list (bytes * bytes) :=
  if bool_decide (";"%byte ∈ piece) || bool_decide (piece = []) then []
  else let '(name, value) := cut "=" piece in
       match unescape true name, unescape true value with
       | Some name, Some value => [(name, value)]
       | _, _ => []
       end.

(** [URL.Query()]. *)
Definition url_Query (raw : bytes) : list (bytes * bytes) := split_on "&" raw ≫= query_piece.

(** [URL.Query().Get(name)]. *)
Definition query_get (name : bytes) (raw : bytes) : bytes :=
  match list_find (λ q, q.1 = name) (url_Query raw) with
  | Some (_, q) => q.2
  | None => []
  end.

(** ** Routes *)

Inductive endpoint :=
  | EpIndex | EpHealth | EpEntries | EpKv | EpLogical | EpScan | EpPush
  | EpSetAdd | EpSetRemove | EpHashDelete.

#[global] Instance endpoint_eq_dec : EqDecision endpoint.
Proof. solve_decision. Defined.

(** A pattern: a method, or any; literal segments, or [None] for [{key}]. *)
Record route := mkRoute {
  route_Method : option bytes;
  route_Segments : list (option bytes);
  route_Endpoint : endpoint
}.

Definition routes : list route :=
  let v1 := Some ⟦"v1"⟧ in
  [mkRoute (Some MethodGet) [v1] EpIndex;
   mkRoute (Some MethodGet) [v1; Some ⟦"health"⟧] EpHealth;
   mkRoute None [v1; Some ⟦"entries"⟧; None] EpEntries;
   mkRoute None [v1; Some ⟦"kv"⟧; None] EpKv;
   mkRoute (Some MethodPut) [v1; Some ⟦"logical"⟧; None] EpLogical;
   mkRoute (Some MethodGet) [v1; Some ⟦"scan"⟧] EpScan;
   mkRoute (Some MethodPost) [v1; Some ⟦"list"⟧; None; Some ⟦"push"⟧] EpPush;
   mkRoute (Some MethodPost) [v1; Some ⟦"set"⟧; Some ⟦"add"⟧] EpSetAdd;
   mkRoute (Some MethodPost) [v1; Some ⟦"set"⟧; Some ⟦"remove"⟧] EpSetRemove;
   mkRoute (Some MethodPost) [v1; Some ⟦"hash"⟧; Some ⟦"delete"⟧] EpHashDelete].

(** The segments of a path; the empty one after a final slash is a slash. *)
Definition path_segments (path : bytes) : list bytes :=
  (λ seg, if bool_decide (seg = []) then [SlashByte]
          else match unescape false seg with Some s => s | None => seg end)
    <$> split_on SlashByte (drop 1 path).

(** The values of the wildcards, when the segments match. *)
Fixpoint match_segments (pattern : list (option bytes)) (segs : list bytes) : option (list bytes) :=
  match pattern, segs with
  | [], [] => Some []
  | Some lit :: pattern, seg :: segs =>
      if bool_decide (seg = lit) then match_segments pattern segs else None
  | None :: pattern, seg :: segs =>
      if bool_decide (seg = [SlashByte]) then None
      else values ← match_segments pattern segs; Some (seg :: values)
  | _, _ => None
  end.

(** A pattern of method GET serves HEAD too. *)
Definition method_matches (pattern : option bytes) (method : bytes) : bool :=
  match pattern with
  | None => true
  | Some m => bool_decide (m = method)
              || (bool_decide (m = MethodGet) && bool_decide (method = MethodHead))
  end.

(** [cleanPath] of [net/http]: a final slash is kept. *)
Definition cleanPath (p : bytes) : bytes :=
  let p := if path_IsAbs p then p else SlashByte :: p in
  let np := path_Clean p in
  if bool_decide (last p = Some SlashByte) && negb (bool_decide (np = [SlashByte]))
  then np ++ [SlashByte] else np.

Inductive routing :=
  | Routed (ep : endpoint) (values : list bytes)
  | Redirect (location : bytes)
  | MethodNotAllowed (allow : list bytes)
  | NotFound.

Definition mux_route (method path rawQuery : bytes) : routing :=
  let clean := if bool_decide (method = MethodConnect) then path else cleanPath path in
  if bool_decide (clean ≠ path)
  then Redirect (clean ++ (if bool_decide (rawQuery = []) then [] else "?"%byte :: rawQuery))
  else
    let segs := path_segments path in
    let fits r := match_segments (route_Segments r) segs in
    match list_find (λ r, is_Some (fits r) ∧ method_matches (route_Method r) method = true) routes with
    | Some (_, r) => Routed (route_Endpoint r) (default [] (fits r))
    | None =>
        match filter (λ r, is_Some (fits r)) routes with
        | [] => NotFound
        | matching =>
            let methods := matching ≫= λ r, match route_Method r with Some m => [m] | None => [] end in
            MethodNotAllowed (sort_strings (methods ++ (if bool_decide (MethodGet ∈ methods)
                                                        then [MethodHead] else [])))
        end
    end.

(** [strings.Join(l, ", ")]. *)
Fixpoint comma_list (l : list bytes) : bytes :=
  match l with
  | [] => []
  | [x] => x
  | x :: l => x ++ ⟦", "⟧ ++ comma_list l
  end.

(** ** Options *)

Definition defaultMaxRequestBytes : Z := Z.shiftl 64 20.
Definition driverHeader : bytes := ⟦"X-KVLite-Driver"⟧.

Record Options := mkOptions {
  opt_ListenAddress : bytes;
  opt_BearerToken : bytes;
  opt_MaxRequestBytes : Z;
  (** in the order the map is iterated *)
  opt_DriverPaths : list (bytes * bytes);
  opt_RedisURL : bytes
}.

Definition Manifest : ModuleManifest :=
  mkManifest ModuleManifestVersion ⟦"http"⟧ ModuleKindTransport [] ⟦"v0.1.0"⟧ ModuleABIVersion []
    [⟦"http-client"⟧; ⟦"http-server"⟧; ⟦"remote-driver-selection"⟧] [] [] ⟦"Apache-2.0"⟧.

(** [MaxBytesReader] and [io.ReadAll]: [None] on an error. *)
Definition read_body (maxRequestBytes : Z) (request : Request) : option bytes :=
  match req_Body request with
  | inl _ => None
  | inr body => if bool_decide (Z.of_nat (length body) ≤ maxRequestBytes)%Z then Some body else None
  end.

Definition parseTTLQuery (raw : bytes) : result (list (option PutOption)) :=
  if bool_decide (raw = []) then Ok []
  else match parse_int 64 raw with
       | None => Err (ENew ⟦"ttl_seconds must be a non-negative integer"⟧)
       | Some seconds =>
           if bool_decide (seconds < 0)%Z
           then Err (ENew ⟦"ttl_seconds must be a non-negative integer"⟧)
           else if bool_decide (seconds = 0)%Z then Ok []
           else if bool_decide (Z.quot maxInt64 1000000000 < seconds)%Z
           then Err (ENew ⟦"ttl_seconds is too large"⟧)
           else Ok [Some (TTL (wrap64 (seconds * 1000000000)))]
       end.

(** ** Handlers *)

Section handlers.
Context {GT : GoText}.
Implicit Types (header : list (bytes * bytes)) (request : Request) (key : bytes).

(** [x, err := f(); if err != nil { failed(err); return }]. *)
Definition or_respond {A} (m : M A) (failed : GoError → Response) (k : A → M Response) : M Response :=
  r ← attempt m;
  match r with inl e => mret (failed e) | inr a => k a end.

Definition server_error header (e : GoError) : Response := http_Error header (error_text e) 500.
Definition no_content header : Response := mkResponse 204 header [].

Definition json_type : bytes := ⟦"application/json"⟧.

(** A JSON object with one integer. *)
Definition count_body (name : bytes) (n : Z) : bytes := encode_line (JObject [(name, JInt n)]).

Definition method_not_allowed header : Response :=
  http_Error (header_set ⟦"Allow"⟧ ⟦"GET, PUT, DELETE"⟧ header) ⟦"method not allowed"⟧ 405.

(** [/v1/kv/{key}]: the records of the storage layout. *)
Definition handleKV (maxRequestBytes : Z) header request (value : bytes) : M Response :=
  match base64_decode true value with
  | None => mret (http_Error header ⟦"invalid key"⟧ 400)
  | Some key =>
      if bool_decide (req_Method request = MethodGet) then
        or_respond (transport_Get key) (server_error header) (λ found,
          mret (match found with
                | None => http_Error header ⟦"not found"⟧ 404
                | Some value => http_OK header ⟦"application/octet-stream"⟧ value
                end))
      else if bool_decide (req_Method request = MethodPut) then
        match read_body maxRequestBytes request with
        | None => mret (http_Error header ⟦"invalid or oversized body"⟧ 413)
        | Some value =>
            or_respond (transport_Put key value) (server_error header) (λ _, mret (no_content header))
        end
      else if bool_decide (req_Method request = MethodDelete) then
        or_respond (transport_Delete key) (server_error header) (λ _, mret (no_content header))
      else mret (method_not_allowed header)
  end.

(** [PUT /v1/logical/{key}]. *)
Definition handleLogical (maxRequestBytes : Z) header request (value : bytes) : M Response :=
  match base64_decode true value with
  | None | Some [] => mret (http_Error header ⟦"invalid key"⟧ 400)
  | Some key =>
      match read_body maxRequestBytes request with
      | None => mret (http_Error header ⟦"invalid or oversized value"⟧ 413)
      | Some encoded =>
          match store_DecodeRecord encoded with
          | Panic => panic
          | Err _ => mret (http_Error header ⟦"invalid value envelope"⟧ 400)
          | Ok _ =>
              or_respond (store_DeleteLogicalKey key) (server_error header) (λ _,
              or_respond (store_Put (store_ValueKey key) encoded) (server_error header) (λ _,
                mret (no_content header)))
          end
      end
  end.

Definition scanItem (item : bytes * bytes) : jvalue :=
  JObject [(⟦"key"⟧, JString (base64_encode false item.1));
           (⟦"value"⟧, JString (base64_encode false item.2))].

(** [GET /v1/scan]. *)
Definition handleScan header request : M Response :=
  match base64_decode true (query_get ⟦"prefix"⟧ (req_RawQuery request)) with
  | None => mret (http_Error header ⟦"invalid prefix"⟧ 400)
  | Some pfx =>
      or_respond (transport_ScanPrefix pfx (λ item items, mret (items ++ [item])) [])
        (server_error header)
        (λ items, mret (http_OK header json_type (encode_line (JArray (scanItem <$> items)))))
  end.

(** [POST /v1/list/{key}/push]. *)
Definition handlePush (maxRequestBytes : Z) header request (value : bytes) : M Response :=
  match base64_decode true value with
  | None => mret (http_Error header ⟦"invalid key"⟧ 400)
  | Some key =>
      match read_body maxRequestBytes request with
      | None => mret (http_Error header ⟦"invalid or oversized body"⟧ 413)
      | Some data =>
          match decodeList data with
          | Panic => panic
          | Err e => mret (http_Error header (error_text e) 400)
          | Ok newItems =>
              or_respond (transport_PushList key newItems
                            (bool_decide (query_get ⟦"left"⟧ (req_RawQuery request) = ⟦"1"⟧)))
                (server_error header)
                (λ length, mret (http_OK header json_type (count_body ⟦"length"⟧ length)))
          end
      end
  end.

(** [None] on an error, [Some] of a list that is not nil otherwise. *)
Definition readStringItems (maxRequestBytes : Z) request : option (list bytes) :=
  data ← read_body maxRequestBytes request;
  items ← unmarshal_strings data;
  items.

(** The three endpoints that change the elements of a collection. *)
Definition handleItems (maxRequestBytes : Z) (what items_name reply : bytes)
    (operation : bytes → list bytes → M counted) header request : M Response :=
  match base64_decode true (query_get ⟦"name"⟧ (req_RawQuery request)) with
  | None => mret (http_Error header (⟦"invalid "⟧ ++ what ++ ⟦" name"⟧) 400)
  | Some name =>
      match readStringItems maxRequestBytes request with
      | None => mret (http_Error header (⟦"invalid or oversized "⟧ ++ items_name) 400)
      | Some items =>
          '(n, err) ← operation name items;
          mret (match err with
                | Some e => server_error header e
                | None => http_OK header json_type (count_body reply n)
                end)
      end
  end.

(** [/v1/entries/{key}]: JSON values under logical keys. *)
Definition handleJSONEntry (maxRequestBytes : Z) header request (value : bytes) : M Response :=
  match base64_decode true value with
  | None | Some [] => mret (http_Error header ⟦"invalid key"⟧ 400)
  | Some key =>
      if bool_decide (req_Method request = MethodGet) then
        or_respond (GetStoredValue key)
          (λ e, if errors_Is e ErrNotFound then http_Error header ⟦"not found"⟧ 404
                else http_Error header ⟦"invalid stored value"⟧ 500)
          (λ value,
             mret (if bool_decide (stored_Codec value ≠ ⟦"json"⟧)
                   then http_Error header ⟦"stored value is not JSON"⟧ 415
                   else
                     let header := header_set ⟦"Content-Type"⟧ json_type header in
                     mkResponse 200
                       (if bool_decide (0 < stored_ExpiresAt value)%Z
                        then header_set ⟦"X-KVLite-Expires-At"⟧ (format_int (stored_ExpiresAt value)) header
                        else header)
                       (stored_Payload value)))
      else if bool_decide (req_Method request = MethodPut) then
        let invalid := mret (http_Error header
          ⟦"request body must be valid JSON and within the size limit"⟧ 400) in
        match read_body maxRequestBytes request with
        | None => invalid
        | Some payload =>
            if negb (json_Valid payload) then invalid
            else match parseTTLQuery (query_get ⟦"ttl_seconds"⟧ (req_RawQuery request)) with
                 | Panic => panic
                 | Err e => mret (http_Error header (error_text e) 400)
                 | Ok putOptions =>
                     or_respond (PutStoredValue key ⟦"json"⟧ payload putOptions)
                       (server_error header) (λ _, mret (no_content header))
                 end
        end
      else if bool_decide (req_Method request = MethodDelete) then
        or_respond (DB.Delete key) (server_error header) (λ _, mret (no_content header))
      else mret (method_not_allowed header)
  end.

(** [GET /v1] of a database with the given backend. *)
Definition index_value (backend : bytes) (drivers : list DriverInfo) (redis : bytes) : jvalue :=
  let info i :=
    JObject [(⟦"driver"⟧, JString (info_Driver i)); (⟦"backend"⟧, JString (info_Backend i));
             (⟦"implementation"⟧, JString (info_Implementation i));
             (⟦"format"⟧, JString (info_Format i)); (⟦"version"⟧, JString (info_Version i));
             (⟦"available"⟧, JBool (info_Available i));
             (⟦"physical_ttl_compacts"⟧, JBool (info_PhysicalTTLCompacts i))] in
  JObject ([(⟦"protocol"⟧, JString ⟦"kvlite/1"⟧);
            (⟦"entries"⟧, JString ⟦"/v1/entries/{base64url-key}"⟧);
            (⟦"methods"⟧, JArray (JString <$> [⟦"GET"⟧; ⟦"PUT"⟧; ⟦"DELETE"⟧]));
            (⟦"driver"⟧, JString backend); (⟦"backend"⟧, JString backend);
            (⟦"drivers"⟧, JArray (info <$> drivers))]
           ++ (if bool_decide (redis = []) then [] else [(⟦"redis"⟧, JString redis)])).

Definition health_body : bytes :=
  [Byte.x7b; Byte.x22] ++ ⟦"status"⟧ ++ [Byte.x22; ":"%byte; Byte.x22] ++ ⟦"ok"⟧ ++ [Byte.x22; Byte.x7d].

(** The handler of an endpoint, once a database has been chosen. *)
Definition handle (maxRequestBytes : Z) (index : jvalue) header request (ep : endpoint)
    (values : list bytes) : M Response :=
  let value := default [] (head values) in
  match ep with
  | EpIndex => mret (http_OK header json_type (encode_line index))
  | EpHealth => mret (http_OK header json_type health_body)
  | EpEntries => handleJSONEntry maxRequestBytes header request value
  | EpKv => handleKV maxRequestBytes header request value
  | EpLogical => handleLogical maxRequestBytes header request value
  | EpScan => handleScan header request
  | EpPush => handlePush maxRequestBytes header request value
  | EpSetAdd => handleItems maxRequestBytes ⟦"set"⟧ ⟦"members"⟧ ⟦"added"⟧ SAdd header request
  | EpSetRemove => handleItems maxRequestBytes ⟦"set"⟧ ⟦"members"⟧ ⟦"removed"⟧ SRemove header request
  | EpHashDelete => handleItems maxRequestBytes ⟦"hash"⟧ ⟦"fields"⟧ ⟦"deleted"⟧ HDelete header request
  end.
End handlers.

(** ** The databases of a server *)

(** Each database is a world: the handle and the readings its clock gave. *)
Record sharedDatabases (E : Type) := mkShared {
  sh_default : bytes;
  sh_databases : gmap bytes (World E);
  sh_auxiliary : list bytes
}.
Arguments mkShared {E}.
Arguments sh_default {E}.
Arguments sh_databases {E}.
Arguments sh_auxiliary {E}.

Definition set_database {E} (shared : sharedDatabases E) (driver : bytes) (w : World E)
    : sharedDatabases E :=
  mkShared (sh_default shared) (<[driver := w]> (sh_databases shared)) (sh_auxiliary shared).

Record driverRouteError := mkRouteError {
  re_code : bytes;
  re_driver : bytes;
  re_available : list bytes;
  re_err : GoError
}.

Section server.
Context {GT : GoText} {E : Type} `{!Engine E} (registry : gmap bytes (registeredDriver E)).
Implicit Types (shared : sharedDatabases E) (request : Request).

Definition driverNames shared : list bytes :=
  merge_sort bytes_le (map_to_list (sh_databases shared)).*1.

Definition driverInfos shared : list DriverInfo :=
  driverNames shared ≫= λ name, match DriverInfoFor registry name with Ok info => [info] | _ => [] end.

Definition redisURL shared (backend configuredURL : bytes) : bytes :=
  if bool_decide (backend ≠ sh_default shared) then [] else configuredURL.

(** The driver a request selects, or the reason why it cannot be served;
    [None] is a run-time panic. *)
Definition resolve shared request : option (driverRouteError + bytes) :=
  let raw := header_get driverHeader (req_Header request) in
  let names := driverNames shared in
  match (if bool_decide (raw = []) then Ok (sh_default shared) else ParseDriverName raw) with
  | Ok driver =>
      match sh_databases shared !! driver with
      | Some _ => Some (inr driver)
      | None =>
          match DriverInfoFor registry driver with
          | Err err =>
              if errors_Is err ErrDriverNotInstalled
              then Some (inl (mkRouteError ⟦"driver_not_installed"⟧ driver names err))
              else Some (inl (mkRouteError ⟦"invalid_driver"⟧ driver names err))
          | Panic => None
          | Ok info =>
              if negb (info_Available info)
              then Some (inl (mkRouteError ⟦"driver_unavailable"⟧ driver names
                          (errorf ErrDriverUnavailable
                             (⟦"driver "⟧ ++ strconv_Quote driver ++ ⟦" cannot run in this server"⟧))))
              else Some (inl (mkRouteError ⟦"driver_not_exposed"⟧ driver names
                          (errorf ErrDriverNotExposed
                             (⟦"driver "⟧ ++ strconv_Quote driver
                              ++ ⟦" is installed but this server has no mapped database for it"⟧))))
          end
      end
  | Err err => Some (inl (mkRouteError ⟦"invalid_driver"⟧ raw names err))
  | Panic => None
  end.

Definition writeDriverRouteError (err : driverRouteError) : Response :=
  let status := if bool_decide (re_code err = ⟦"driver_not_installed"⟧) then 501%Z
                else if bool_decide (re_code err = ⟦"invalid_driver"⟧) then 400%Z else 409%Z in
  mkResponse status [(canonical_key ⟦"Content-Type"⟧, json_type)]
    (encode_line (JObject [(⟦"error"⟧,
       JObject ([(⟦"code"⟧, JString (re_code err))]
                ++ (if bool_decide (re_driver err = []) then []
                    else [(⟦"driver"⟧, JString (re_driver err))])
                ++ (if bool_decide (re_available err = []) then []
                    else [(⟦"available_drivers"⟧, JArray (JString <$> re_available err))])
                ++ [(⟦"message"⟧, JString (error_text (re_err err)))]))])).

(** The effect of [MaxRequestBytes <= 0]. *)
Definition maxRequestBytes (options : Options) : Z :=
  if bool_decide (opt_MaxRequestBytes options ≤ 0)%Z then defaultMaxRequestBytes
  else opt_MaxRequestBytes options.

(** [sharingAuth]: [true] when the request passes. *)
Definition sharingAuth (token : bytes) request : bool :=
  if bool_decide (token = []) then true
  else bool_decide (header_get ⟦"Authorization"⟧ (req_Header request) = ⟦"Bearer "⟧ ++ token).

Definition unauthorized : Response :=
  http_Error [(canonical_key ⟦"WWW-Authenticate"⟧, ⟦"Bearer"⟧)] ⟦"unauthorized"⟧ 401.

(** What the server decides before it touches a database: a response, or the
    database and the handler's program. [redirect_body] is the text
    [http.Redirect] writes. *)
Definition dispatch (redirect_body : bytes → bytes) (options : Options) shared request
    : option (Response + bytes * M Response) :=
  if negb (sharingAuth (opt_BearerToken options) request) then Some (inl unauthorized)
  else match mux_route (req_Method request) (req_Path request) (req_RawQuery request) with
       | Redirect location =>
           Some (inl (mkResponse 301 [(canonical_key ⟦"Location"⟧, location)] (redirect_body location)))
       | NotFound => Some (inl (http_Error [] ⟦"404 page not found"⟧ 404))
       | MethodNotAllowed allow =>
           Some (inl (http_Error [(canonical_key ⟦"Allow"⟧, comma_list allow)] ⟦"Method Not Allowed"⟧ 405))
       | Routed ep values =>
           match resolve shared request with
           | None => None
           | Some (inl err) => Some (inl (writeDriverRouteError err))
           | Some (inr driver) =>
               let backend := match sh_databases shared !! driver with
                              | Some w => db_backend (w_db w) | None => [] end in
               let index := index_value backend (driverInfos shared)
                              (redisURL shared backend (opt_RedisURL options)) in
               Some (inr (driver, handle (maxRequestBytes options) index
                                    [(canonical_key driverHeader, driver)] request ep values))
           end
       end.

(** One request: the response, or none when the handler panicked, and the
    databases afterwards. A response to HEAD has no body. *)
Definition serve_http (redirect_body : bytes → bytes) (env : Env) (options : Options) shared request
    : option Response * sharedDatabases E :=
  let answer response :=
    Some (if bool_decide (req_Method request = MethodHead)
          then mkResponse (res_Status response) (res_Header response) [] else response) in
  match dispatch redirect_body options shared request with
  | None => (None, shared)
  | Some (inl response) => (answer response, shared)
  | Some (inr (driver, program)) =>
      match sh_databases shared !! driver with
      | None => (None, shared)
      | Some w =>
          let '(r, w') := run env program w in
          (match r with Ok response => answer response | _ => None end, set_database shared driver w')
      end
  end.

(** ** Starting and stopping *)

(** [Close] of the auxiliary databases: all are closed, the first error is
    kept. *)
Fixpoint close_each (names : list bytes) (databases : gmap bytes (World E))
    : option GoError * gmap bytes (World E) :=
  match names with
  | [] => (None, databases)
  | name :: names =>
      match databases !! name with
      | None => close_each names databases
      | Some w =>
          let '(err, db) := DB.Close (w_db w) in
          let '(later, databases) := close_each names (<[name := mkWorld db (w_ticks w)]> databases) in
          (match err with Some _ => err | None => later end, databases)
      end
  end.

Definition closeAuxiliary shared : option GoError * sharedDatabases E :=
  let '(err, databases) := close_each (sh_auxiliary shared) (sh_databases shared) in
  (err, mkShared (sh_default shared) databases []).

(** [open path driver] is [kvlite.Open] with that driver, over the state [S]
    of the machine. An error closes what has been opened. *)
Fixpoint open_paths {S} (open : bytes → bytes → S → result (DB E) * S)
    (paths : list (bytes * bytes)) shared (s : S) : result unit * sharedDatabases E * S :=
  match paths with
  | [] => (Ok tt, shared, s)
  | (requestedDriver, path) :: paths =>
      let fail e := (Err e, (closeAuxiliary shared).2, s) in
      match ParseDriverName requestedDriver with
      | Panic => (Panic, shared, s)
      | Err e => fail e
      | Ok driver =>
          if bool_decide (path = [])
          then fail (errorf ErrInvalidArgument
                       (⟦"a path is required for shared driver "⟧ ++ strconv_Quote driver))
          else if bool_decide (is_Some (sh_databases shared !! driver))
          then fail (errorf ErrInvalidArgument
                       (⟦"shared driver "⟧ ++ strconv_Quote driver ++ ⟦" is already mapped"⟧))
          else
            let '(opened, s) := open path driver s in
            match opened with
            | Panic => (Panic, shared, s)
            | Err e => (Err e, (closeAuxiliary shared).2, s)
            | Ok auxiliary =>
                open_paths open paths
                  (mkShared (sh_default shared)
                     (<[driver := mkWorld auxiliary 0]> (sh_databases shared))
                     (sh_auxiliary shared ++ [driver])) s
            end
      end
  end.

Definition newSharedDatabases {S} (open : bytes → bytes → S → result (DB E) * S)
    (primary : World E) (options : Options) (s : S) : result unit * sharedDatabases E * S :=
  let primaryDriver := db_backend (w_db primary) in
  open_paths open (opt_DriverPaths options)
    (mkShared primaryDriver {[ primaryDriver := primary ]} []) s.

(** [Serve], less the goroutine it starts: [listen] is the outcome of
    [net.Listen]. A nil database is [None]. *)
Definition Serve {S} (open : bytes → bytes → S → result (DB E) * S) (listen : option GoError)
    (db : option (World E)) (options : Options) (s : S)
    : result unit * option (sharedDatabases E) * S :=
  match db with
  | None => (Err (errorf ErrInvalidArgument ⟦"database is required"⟧), None, s)
  | Some primary =>
      if bool_decide (db_backend (w_db primary) = BackendRemote)
      then (Err (errorf ErrInvalidArgument ⟦"a remote database cannot own an HTTP server"⟧), None, s)
      else
        let '(r, shared, s) := newSharedDatabases open primary options s in
        match r with
        | Ok _ =>
            match listen with
            | Some e => (Err (wrapf ⟦"kvlite: start sharing endpoint: "⟧ e),
                         Some (closeAuxiliary shared).2, s)
            | None => (Ok tt, Some shared, s)
            end
        | Err e => (Err e, Some shared, s)
        | Panic => (Panic, Some shared, s)
        end
  end.

(** [Server.Close]: [shutdown] is the outcome of [Shutdown], nil for
    [http.ErrServerClosed]. *)
Definition Server_Close (shutdown : option GoError) shared : option GoError * sharedDatabases E :=
  let '(closeErr, shared) := closeAuxiliary shared in
  (match shutdown with Some _ => shutdown | None => closeErr end, shared).
End server.

(** ** Lemmas *)

Lemma wp_or_respond {A} readings (p : M A) failed (k : A → M Response) Q m :
  wp readings p (λ r m', match r with
                         | Ok a => wp readings (k a) Q m'
                         | Err e => Q (Ok (failed e)) m'
                         | Panic => Q Panic m'
                         end) m →
  wp readings (or_respond p failed k) Q m.
Proof. intros H. apply wp_bind, wp_attempt. eapply wp_mono; [exact H|]. by intros [] ?. Qed.
