(* ===== verification/HttpClient.v ===== *)
(** * The HTTP client ([extensions/http/http.go])

    A storage engine that sends every operation to a server. The transport,
    [client.Do], is a parameter: it takes the context and the request and
    returns an error or the response, with the error that ends the reading of
    its body, if any, and the next state of the outside world. *)

From S2P Require Import Prelude Errors Engine Effects Envelope Keys ListCodec Text Utf8 Json Base64 PathClean DriverName DB Collections Transport Modules Backend Http.

(** [http.StatusText] of the codes the program uses. *)
Definition StatusText (code : Z) : bytes :=
  if bool_decide (code = 200%Z) then ⟦"OK"⟧
  else if bool_decide (code = 204%Z) then ⟦"No Content"⟧
  else if bool_decide (code = 301%Z) then ⟦"Moved Permanently"⟧
  else if bool_decide (code = 400%Z) then ⟦"Bad Request"⟧
  else if bool_decide (code = 401%Z) then ⟦"Unauthorized"⟧
  else if bool_decide (code = 404%Z) then ⟦"Not Found"⟧
  else if bool_decide (code = 405%Z) then ⟦"Method Not Allowed"⟧
  else if bool_decide (code = 409%Z) then ⟦"Conflict"⟧
  else if bool_decide (code = 413%Z) then ⟦"Request Entity Too Large"⟧
  else if bool_decide (code = 415%Z) then ⟦"Unsupported Media Type"⟧
  else if bool_decide (code = 500%Z) then ⟦"Internal Server Error"⟧
  else if bool_decide (code = 501%Z) then ⟦"Not Implemented"⟧
  else [].

(** What [strings.TrimRight] does with slashes, on the reversed text. *)
Fixpoint drop_while_slash (s : bytes) : bytes :=
  match s with
  | c :: s' => if bool_decide (c = SlashByte) then drop_while_slash s' else s
  | [] => []
  end.

(** ** Errors of the server *)

Record remotePayload := mkPayload {
  pl_Code : bytes;
  pl_Driver : bytes;
  pl_AvailableDrivers : list bytes;
  pl_Message : bytes
}.

Definition payload_fields : list (bytes * (jvalue → remotePayload → option remotePayload)) :=
  [(⟦"code"⟧, set_string (λ t p, mkPayload t (pl_Driver p) (pl_AvailableDrivers p) (pl_Message p)));
   (⟦"driver"⟧, set_string (λ t p, mkPayload (pl_Code p) t (pl_AvailableDrivers p) (pl_Message p)));
   (⟦"available_drivers"⟧, set_slice [] decode_string
      (λ l p, mkPayload (pl_Code p) (pl_Driver p) (default [] l) (pl_Message p)));
   (⟦"message"⟧, set_string (λ t p, mkPayload (pl_Code p) (pl_Driver p) (pl_AvailableDrivers p) t))].

(** [RemoteDriverError.Unwrap]. *)
Definition RemoteDriverError_Unwrap (code : bytes) : option sentinel :=
  if bool_decide (code = ⟦"driver_not_installed"⟧) then Some ErrDriverNotInstalled
  else if bool_decide (code = ⟦"driver_unavailable"⟧) then Some ErrDriverUnavailable
  else if bool_decide (code = ⟦"driver_not_exposed"⟧) then Some ErrDriverNotExposed
  else if bool_decide (code = ⟦"invalid_driver"⟧) then Some ErrInvalidArgument
  else None.

Section client.
Context {GT : GoText} (json_error base64_error : bytes → bytes).

Definition RemoteDriverError_Error (p : remotePayload) : bytes :=
  if bool_decide (pl_Message p ≠ [])
  then ⟦"kvlite: remote driver "⟧ ++ strconv_Quote (pl_Driver p) ++ ⟦" ("⟧ ++ pl_Code p ++ ⟦"): "⟧
       ++ pl_Message p
  else ⟦"kvlite: remote driver "⟧ ++ strconv_Quote (pl_Driver p) ++ ⟦" failed with "⟧ ++ pl_Code p.

Definition RemoteDriverError (p : remotePayload) : GoError :=
  ETyped (RemoteDriverError_Error p) (RemoteDriverError_Unwrap (pl_Code p)).

Definition remote_payload (body : bytes) : option remotePayload :=
  v ← parse_document body;
  set_struct false [(⟦"error"⟧, set_struct false payload_fields)] v (mkPayload [] [] [] []).

Definition remoteStatusError (response : Response) : GoError :=
  let body := take 4096 (res_Body response) in
  let message := strings_TrimSpace body in
  let plain := ENew (⟦"kvlite: remote returned "⟧ ++ format_int (res_Status response) ++ ⟦" "⟧
                     ++ StatusText (res_Status response) ++ ⟦": "⟧ ++ message) in
  match remote_payload body with
  | None => plain
  | Some p =>
      if bool_decide (pl_Code p = []) then plain
      else RemoteDriverError
             (if bool_decide (pl_Message p = [])
              then mkPayload (pl_Code p) (pl_Driver p) (pl_AvailableDrivers p) message else p)
  end.

Definition remoteMutationError (response : Response) (operation : bytes) : GoError :=
  if bool_decide (res_Status response = 404%Z)
  then errorf ErrModuleIncompatible
         (⟦"HTTP owner does not support atomic "⟧ ++ operation ++ ⟦"; upgrade its HTTP extension"⟧)
  else remoteStatusError response.

(** ** The engine *)

Record remoteEngine (S : Type) := mkRemote {
  rem_token : bytes;
  rem_driver : bytes;
  rem_world : S
}.
Arguments mkRemote {S}.
Arguments rem_token {S}.
Arguments rem_driver {S}.
Arguments rem_world {S}.

Context {S : Type} (Do : GoContext → Request → S → (GoError + Response * option GoError) * S).
Implicit Types (engine : remoteEngine S) (ctx : GoContext) (key : bytes).

(** The request for an endpoint below the base URL. *)
Definition new_request engine (method endpoint body : bytes) : Request :=
  let '(path, query) := cut "?" endpoint in
  let header := if bool_decide (rem_token engine = []) then []
                else header_set ⟦"Authorization"⟧ (⟦"Bearer "⟧ ++ rem_token engine) [] in
  let header := if bool_decide (rem_driver engine = []) then header
                else header_set driverHeader (rem_driver engine) header in
  mkRequest method path query header (inr body).

Definition request ctx (method endpoint body : bytes) engine
    : (GoError + Response * option GoError) * remoteEngine S :=
  let '(r, s) := Do ctx (new_request engine method endpoint body) (rem_world engine) in
  (r, mkRemote (rem_token engine) (rem_driver engine) s).

Definition remoteKeyPath key : bytes := ⟦"/v1/kv/"⟧ ++ base64_encode true key.

Definition remote_Get ctx key engine : (GoError + option bytes) * remoteEngine S :=
  let '(r, engine) := request ctx MethodGet (remoteKeyPath key) [] engine in
  (match r with
   | inl e => inl e
   | inr (response, broken) =>
       if bool_decide (res_Status response = 404%Z) then inr None
       else if bool_decide (res_Status response ≠ 200%Z) then inl (remoteStatusError response)
       else match broken with Some e => inl e | None => inr (Some (res_Body response)) end
   end, engine).

(** A request whose success is an empty response. *)
Definition expect_empty ctx (method endpoint body : bytes) (failed : Response → GoError) engine
    : option GoError * remoteEngine S :=
  let '(r, engine) := request ctx method endpoint body engine in
  (match r with
   | inl e => Some e
   | inr (response, _) =>
       if bool_decide (res_Status response ≠ 204%Z) then Some (failed response) else None
   end, engine).

Definition remote_Put ctx key (value : bytes) engine : option GoError * remoteEngine S :=
  expect_empty ctx MethodPut (remoteKeyPath key) value remoteStatusError engine.

Definition remote_Delete ctx key engine : option GoError * remoteEngine S :=
  expect_empty ctx MethodDelete (remoteKeyPath key) [] remoteStatusError engine.

(** [json.NewDecoder(body).Decode(&target)]. *)
Definition decode_body {A} (set : jvalue → A → option A) (zero : A) (response : Response)
    (broken : option GoError) : GoError + A :=
  match (decoded ← decode_next (res_Body response); set decoded.1 zero) with
  | Some a => inr a
  | None => inl (default (EExternal (json_error (res_Body response))) broken)
  end.

Definition item_fields : list (bytes * (jvalue → bytes * bytes → option (bytes * bytes))) :=
  [(⟦"key"⟧, set_string (λ t item, (t, item.2))); (⟦"value"⟧, set_string (λ t item, (item.1, t)))].

Definition decode_items (v : jvalue) (items : list (bytes * bytes)) : option (list (bytes * bytes)) :=
  set_slice ([], []) (set_struct false item_fields) (λ l _, default [] l) v items.

(** The records delivered to the callback before the first corrupt one. *)
Fixpoint deliver_items (items : list (bytes * bytes)) : list (bytes * bytes) * option GoError :=
  match items with
  | [] => ([], None)
  | (key, value) :: items =>
      match base64_decode false key, base64_decode false value with
      | None, _ => ([], Some (EExternal (base64_error key)))
      | _, None => ([], Some (EExternal (base64_error value)))
      | Some key, Some value =>
          let '(delivered, err) := deliver_items items in ((key, value) :: delivered, err)
      end
  end.

(** The alphabet of the prefix needs no escaping in a query. *)
Definition remote_ScanPrefix ctx (pfx : bytes) engine
    : (list (bytes * bytes) * option GoError) * remoteEngine S :=
  let '(r, engine) :=
    request ctx MethodGet (⟦"/v1/scan?prefix="⟧ ++ base64_encode true pfx) [] engine in
  (match r with
   | inl e => ([], Some e)
   | inr (response, broken) =>
       if bool_decide (res_Status response ≠ 200%Z) then ([], Some (remoteStatusError response))
       else match decode_body decode_items [] response broken with
            | inl e => ([], Some e)
            | inr items => deliver_items items
            end
   end, engine).

(** A request that is answered by an object with one count. *)
Definition expect_count ctx (endpoint body name operation : bytes) engine
    : (GoError + Z) * remoteEngine S :=
  let '(r, engine) := request ctx MethodPost endpoint body engine in
  (match r with
   | inl e => inl e
   | inr (response, broken) =>
       if bool_decide (res_Status response ≠ 200%Z) then inl (remoteMutationError response operation)
       else decode_body (set_struct false [(name, set_int (λ z _, z))]) 0%Z response broken
   end, engine).

Definition remote_PushList ctx key (items : list bytes) (left : bool) engine
    : (GoError + Z) * remoteEngine S :=
  expect_count ctx (⟦"/v1/list/"⟧ ++ base64_encode true key ++ ⟦"/push"⟧
                    ++ (if left then ⟦"?left=1"⟧ else []))
    (encodeList items) ⟦"length"⟧ ⟦"list push"⟧ engine.

(** A variadic call without arguments passes a nil slice. *)
Definition marshal_members (members : list bytes) : bytes :=
  marshal_strings (if bool_decide (members = []) then None else Some members).

Definition remote_AddSet ctx (name : bytes) (members : list bytes) engine
    : (GoError + Z) * remoteEngine S :=
  expect_count ctx (⟦"/v1/set/add?name="⟧ ++ base64_encode true name) (marshal_members members)
    ⟦"added"⟧ ⟦"set add"⟧ engine.

Definition remote_RemoveSet ctx (name : bytes) (members : list bytes) engine
    : (GoError + Z) * remoteEngine S :=
  expect_count ctx (⟦"/v1/set/remove?name="⟧ ++ base64_encode true name) (marshal_members members)
    ⟦"removed"⟧ ⟦"set remove"⟧ engine.

Definition remote_DeleteHashFields ctx (name : bytes) (fields : list bytes) engine
    : (GoError + Z) * remoteEngine S :=
  expect_count ctx (⟦"/v1/hash/delete?name="⟧ ++ base64_encode true name) (marshal_members fields)
    ⟦"deleted"⟧ ⟦"hash delete"⟧ engine.

Definition remote_ReplaceLogicalValue ctx key (encoded : bytes) engine : option GoError * remoteEngine S :=
  expect_empty ctx MethodPut (⟦"/v1/logical/"⟧ ++ base64_encode true key) encoded
    (λ response, remoteMutationError response ⟦"logical replacement"⟧) engine.

(** [Close] only drops idle connections. *)
Definition remote_Close engine : option GoError * remoteEngine S := (None, engine).

Definition remote_Engine : Engine (remoteEngine S) := {|
  engine_Get := remote_Get;
  engine_Put := remote_Put;
  engine_Delete := remote_Delete;
  engine_ScanPrefix := remote_ScanPrefix;
  engine_Close := remote_Close;
  engine_PushList := Some remote_PushList;
  engine_AddSet := Some remote_AddSet;
  engine_RemoveSet := Some remote_RemoveSet;
  engine_DeleteHashFields := Some remote_DeleteHashFields;
  engine_ReplaceLogicalValue := Some remote_ReplaceLogicalValue
|}.

(** ** Connecting *)

(** [parse_url] is [url.Parse] and yields the scheme and the host. The
    transport [Do] reaches the server of the URL. *)
Definition Connect {X Y} (parse_url : bytes → option (bytes * bytes)) (baseURL token driver : bytes)
    (json : Codec X Y) (options : list (option (@Option X Y))) (s : S)
    : result (DB (remoteEngine S) * config X Y) * S :=
  let invalid := (Err (errorf ErrInvalidArgument ⟦"valid remote http(s) URL is required"⟧), s) in
  let trimmed := reverse (drop_while_slash (reverse baseURL)) in
  match parse_url trimmed with
  | None => invalid
  | Some (scheme, host) =>
      if bool_decide (scheme ≠ ⟦"http"⟧ ∧ scheme ≠ ⟦"https"⟧) || bool_decide (host = []) then invalid
      else
        match (if bool_decide (driver = []) then Ok [] else ParseDriverName driver) with
        | Err e => (Err e, s)
        | Panic => (Panic, s)
        | Ok requestedDriver =>
            let selected := if bool_decide (driver = []) then BackendRemote else requestedDriver in
            let engine := mkRemote token requestedDriver s in
            if bool_decide (requestedDriver = [])
            then (@OpenWithEngine _ X Y GT (Some engine) selected json options, s)
            else
              let '(r, engine) := request Background MethodGet ⟦"/v1"⟧ [] engine in
              (match r with
               | inl e => Err e
               | inr (response, _) =>
                   if bool_decide (res_Status response ≠ 200%Z) then Err (remoteStatusError response)
                   else @OpenWithEngine _ X Y GT (Some engine) selected json options
               end, rem_world engine)
        end
  end.
End client.
Arguments mkRemote {S}.
Arguments rem_token {S}.
Arguments rem_driver {S}.
Arguments rem_world {S}.
