(* ===== verification/HttpProps.v ===== *)
(** * Properties of the HTTP extension

    The bearer gate, the isolation of databases, the routes the client uses,
    and that a client's engine behaves as the record map of the owner. *)

From S2P Require Import Prelude Errors Engine Effects Envelope Keys ListCodec Text Utf8 Json JsonProps Base64 PathClean DriverName MemDriver DB Collections Transport Modules Backend Http HttpClient.

(** ** Routing *)

Lemma unescape_unreserved plus s : Forall (λ c, unreserved c = true) s → unescape plus s = Some s.
Proof.
  induction 1 as [|c s Hc _ IH]; [done|]. cbn. rewrite IH.
  rewrite bool_decide_eq_false_2 by (by intros ->). cbn.
  rewrite (bool_decide_eq_false_2 (c = "+"%byte)) by (by intros ->). by rewrite andb_false_r.
Qed.

(** A path segment that needs no escaping. *)
Definition plain (seg : bytes) : Prop := seg ≠ [] ∧ Forall (λ c, unreserved c = true) seg.

#[local] Instance plain_dec seg : Decision (plain seg).
Proof. unfold plain. apply _. Defined.

Ltac decide_goal := apply (bool_decide_unpack _); vm_compute; exact I.

Lemma plain_facts seg : plain seg → normal seg ∧ SlashByte ∉ seg.
Proof.
  intros [Hne Hall]. rewrite Forall_forall in Hall. split; [split_and!; [done|..]|].
  - intros ->. by discriminate (Hall "."%byte ltac:(constructor)).
  - intros ->. by discriminate (Hall "."%byte ltac:(constructor)).
  - intros Hin. by discriminate (Hall _ Hin).
Qed.

Lemma plain_not_slash seg : plain seg → seg ≠ [SlashByte].
Proof. intros [_ H]%plain_facts ->. apply H. constructor. Qed.

Lemma plain_base64 s : s ≠ [] → plain (base64_encode true s).
Proof.
  intros Hs. split; [by rewrite base64_encode_nil|].
  apply base64_encode_chars, base64_char_unreserved.
Qed.

Definition path_of (segs : list bytes) : bytes := SlashByte :: join_with SlashByte segs.

Lemma clean_segs_normal rooted segs : Forall normal segs → clean_segs rooted segs = segs.
Proof. intros H. by apply (clean_segs_app rooted [] segs) in H. Qed.

Lemma last_join sep l : l ≠ [] → Forall (λ s, s ≠ [] ∧ sep ∉ s) l → last (join_with sep l) ≠ Some sep.
Proof.
  intros Hne Hall. induction Hall as [|s l [Hs Hsep] Hall IH]; [done|].
  destruct l as [|s' l].
  - cbn. rewrite last_Some. intros [l ->]. set_solver.
  - change (join_with sep (s :: s' :: l)) with (s ++ sep :: join_with sep (s' :: l)).
    specialize (IH ltac:(done)). rewrite last_app_cons, last_cons.
    destruct (last (join_with sep (s' :: l))) eqn:E; [done|].
    apply last_None in E. apply Forall_cons in Hall as [[? _] _]. by destruct s', l.
Qed.

Section paths.
Context (segs : list bytes).
Hypothesis some_segments : segs ≠ [].
Hypothesis plain_segments : Forall plain segs.

Lemma split_path : split_on SlashByte (join_with SlashByte segs) = segs.
Proof using some_segments plain_segments.
  apply split_join; [done|]. eapply Forall_impl; [done|]. intros s Hs. by apply plain_facts.
Qed.

Lemma path_of_clean : path_Clean (path_of segs) = path_of segs.
Proof using some_segments plain_segments.
  unfold path_Clean, path_of. rewrite bool_decide_eq_false_2 by done.
  change (path_IsAbs (SlashByte :: _)) with true. cbv beta iota zeta.
  change (split_on SlashByte (SlashByte :: ?s)) with ([] :: split_on SlashByte s). rewrite split_path.
  f_equal. f_equal. change ([] :: segs) with ([[]] ++ segs). rewrite clean_segs_app; [done|].
  eapply Forall_impl; [done|]. intros s Hs. by apply plain_facts.
Qed.

Lemma path_of_cleanPath : cleanPath (path_of segs) = path_of segs.
Proof using some_segments plain_segments.
  unfold cleanPath. change (path_IsAbs (path_of segs)) with true. cbv beta iota zeta.
  rewrite path_of_clean. rewrite (bool_decide_eq_false_2 (last _ = _)); [done|].
  unfold path_of. rewrite last_cons.
  pose proof (last_join SlashByte segs some_segments) as Hl.
  destruct (last (join_with SlashByte segs)) eqn:E.
  - apply Hl. eapply Forall_impl; [done|]. intros s [? Hs]. split; [done|]. by apply plain_facts.
  - apply last_None in E. destruct segs as [|s l]; [done|].
    apply Forall_cons in plain_segments as [[? _] _]. by destruct s, l.
Qed.

Lemma path_of_segments : path_segments (path_of segs) = segs.
Proof using some_segments plain_segments.
  unfold path_segments, path_of. rewrite skipn_cons, drop_0, split_path.
  clear some_segments. induction plain_segments as [|s l [Hs Hu] Hl IH]; [done|].
  by rewrite fmap_cons, IH, bool_decide_eq_false_2, unescape_unreserved.
Qed.

(** The first route whose pattern and method fit. *)
Lemma route_path method query pre r post values :
  routes = pre ++ r :: post →
  Forall (λ r, match_segments (route_Segments r) segs = None) pre →
  match_segments (route_Segments r) segs = Some values →
  method_matches (route_Method r) method = true →
  mux_route method (path_of segs) query = Routed (route_Endpoint r) values.
Proof using some_segments plain_segments.
  intros Hroutes Hpre Hr Hm. unfold mux_route. rewrite path_of_cleanPath, path_of_segments.
  rewrite (bool_decide_eq_false_2 (_ ≠ _)) by (case_bool_decide; intros Hn; by apply Hn).
  rewrite (proj2 (list_find_Some _ routes (length pre) r)); [by rewrite Hr|].
  split_and!.
  - rewrite Hroutes. by rewrite lookup_app_r, Nat.sub_diag by lia.
  - rewrite Hr. by exists values.
  - done.
  - intros j y Hj Hlt [[v Hv] _]. rewrite Hroutes, lookup_app_l in Hj by lia.
    rewrite Forall_forall in Hpre. apply list_elem_of_lookup_2, Hpre in Hj. congruence.
Qed.
End paths.

(** ** Endpoints and queries of the client *)

Lemma cut_none sep s : sep ∉ s → cut sep s = (s, []).
Proof.
  induction s as [|c s IH]; [done|]. intros [Hc Hs]%not_elem_of_cons. cbn.
  rewrite bool_decide_eq_false_2 by congruence. by rewrite IH.
Qed.

Lemma cut_app sep a b : sep ∉ a → cut sep (a ++ sep :: b) = (a, b).
Proof.
  induction a as [|c a IH]; intros Ha; cbn; [by rewrite bool_decide_eq_true_2|].
  apply not_elem_of_cons in Ha as [Hc Ha]. rewrite bool_decide_eq_false_2 by congruence.
  by rewrite IH.
Qed.

Lemma unreserved_not_in c s : unreserved c = false → Forall (λ c, unreserved c = true) s → c ∉ s.
Proof. intros Hc Hs Hin. rewrite Forall_forall in Hs. apply Hs in Hin. congruence. Qed.

(** A query of one plain pair is read back. *)
Lemma query_single name value :
  plain name → Forall (λ c, unreserved c = true) value →
  query_get name (name ++ "="%byte :: value) = value.
Proof.
  intros [Hne Hname] Hvalue.
  assert (∀ c, unreserved c = false → c ≠ "="%byte → c ∉ name ++ "="%byte :: value) as Hin.
  { intros c Hc Heq [Hin|[?|Hin]%elem_of_cons]%elem_of_app; [|done|];
      by eapply unreserved_not_in in Hin. }
  unfold query_get, url_Query. rewrite split_on_none by (by apply Hin).
  cbn [mbind list_bind]. rewrite app_nil_r. unfold query_piece.
  rewrite !bool_decide_eq_false_2; [|by destruct name|by apply Hin].
  cbn [orb]. rewrite cut_app by (by apply unreserved_not_in).
  rewrite !unescape_unreserved by done. cbn. by rewrite decide_True.
Qed.

Lemma kv_route method key :
  key ≠ [] → mux_route method (remoteKeyPath key) [] = Routed EpKv [base64_encode true key].
Proof.
  intros Hk%plain_base64. set (enc := base64_encode true key) in *.
  apply (route_path [⟦"v1"⟧; ⟦"kv"⟧; enc] ltac:(done)) with (pre := take 3 routes) (post := drop 4 routes)
    (r := mkRoute None [Some ⟦"v1"⟧; Some ⟦"kv"⟧; None] EpKv).
  - do 2 (constructor; [decide_goal|]). by constructor.
  - done.
  - by repeat constructor.
  - change (match_segments _ _) with (if bool_decide (enc = [SlashByte]) then None else Some [enc]).
    by rewrite bool_decide_eq_false_2 by (by apply plain_not_slash).
  - done.
Qed.

Lemma no_question s : plain s → "?"%byte ∉ s.
Proof. intros [_ Hs]. by apply unreserved_not_in. Qed.

(** ** The gate *)

Section gate.
Context {GT : GoText} {E : Type} `{!Engine E} (registry : gmap bytes (registeredDriver E))
  (redirect_body : bytes → bytes) (env : Env) (options : Options) (shared : sharedDatabases E).
Implicit Types (request : Request).

Definition without_token : Options :=
  mkOptions (opt_ListenAddress options) [] (opt_MaxRequestBytes options) (opt_DriverPaths options)
    (opt_RedisURL options).

(** C18: With a bearer token configured, a request without exactly that token is
    answered 401 and leaves every database as it was; a request with it is
    served as if there were no token. *)
Theorem bearer_gate request :
  opt_BearerToken options ≠ [] →
  let presented := header_get ⟦"Authorization"⟧ (req_Header request) in
  if decide (presented = ⟦"Bearer "⟧ ++ opt_BearerToken options)
  then serve_http registry redirect_body env options shared request
       = serve_http registry redirect_body env without_token shared request
  else ∃ response, serve_http registry redirect_body env options shared request = (Some response, shared)
       ∧ res_Status response = 401%Z.
Proof.
  intros Htoken presented. unfold serve_http, dispatch, sharingAuth.
  rewrite (bool_decide_eq_false_2 (opt_BearerToken options = [])) by done. fold presented.
  case_decide as Hp.
  - rewrite bool_decide_eq_true_2 by done. done.
  - rewrite bool_decide_eq_false_2 by done. cbn [negb]. eexists. split; [done|].
    by case_bool_decide.
Qed.

(** A request reaches at most one database, the one its driver header or the
    default selects: every other database is as it was. *)
Theorem request_confined request :
  let '(response, shared') := serve_http registry redirect_body env options shared request in
  (∀ driver, resolve registry shared request ≠ Some (inr driver) →
     sh_databases shared' !! driver = sh_databases shared !! driver)
  ∧ sh_default shared' = sh_default shared ∧ sh_auxiliary shared' = sh_auxiliary shared.
Proof.
  unfold serve_http. destruct (dispatch _ _ _ _ _) as [[r|[driver program]]|] eqn:Hd; [done| |done].
  destruct (sh_databases shared !! driver) as [w|] eqn:Hw; [|done].
  destruct (run env program w) as [r w']. split_and!; [|done..].
  intros other Hother. cbn. rewrite lookup_insert_ne; [done|]. intros ->. apply Hother.
  unfold dispatch in Hd. destruct (negb _); [done|].
  destruct (mux_route _ _ _); [|done..].
  destruct (resolve registry shared request) as [[]|]; [done| |done]. by injection Hd as -> _.
Qed.
End gate.

(** ** A client of the server *)

Section remote.
Context {GT : GoText} {E : Type} `{!Engine E} `{!LocalEngine E}
  (registry : gmap bytes (registeredDriver E)) (redirect_body : bytes → bytes)
  (json_error base64_error : bytes → bytes) (env : Env) (options : Options)
  (readings : Z → Prop) (driver : bytes).
Hypothesis live_requests : env_ctx env = Background.
Hypothesis clock_readings : ∀ n, readings (env_now env n).

(** A connection that delivers: a cancelled context is reported by the
    client, a panicking handler closes the connection. *)
Definition wire (ctx : GoContext) (request : Request) (shared : sharedDatabases E)
    : (GoError + Response * option GoError) * sharedDatabases E :=
  match ctx with
  | Some e => (inl e, shared)
  | None =>
      let '(r, shared) := serve_http registry redirect_body env options shared request in
      (match r with Some response => inr (response, None) | None => inl (ESentinel ioEOF) end, shared)
  end.

Implicit Types (m : gmap bytes bytes) (engine : remoteEngine (sharedDatabases E)) (key value : bytes).

(** The client presents the token, selects [driver], and the server's
    database of that driver is healthy and holds [m]. *)
Definition serving m engine : Prop :=
  (opt_BearerToken options = [] ∨ opt_BearerToken options = rem_token engine)
  ∧ (if bool_decide (rem_driver engine = []) then driver = sh_default (rem_world engine)
     else driver = rem_driver engine ∧ normalizeDriverName driver = Ok driver)
  ∧ ∃ w, sh_databases (rem_world engine) !! driver = Some w ∧ healthy w ∧ records w = m.

(** The header of a request of the client. *)
Definition client_header engine : list (bytes * bytes) :=
  req_Header (new_request engine [] [] []).

Lemma client_authorized engine :
  opt_BearerToken options = [] ∨ opt_BearerToken options = rem_token engine →
  ∀ request, req_Header request = client_header engine → sharingAuth (opt_BearerToken options) request = true.
Proof.
  intros Ht request Hh. unfold sharingAuth. case_bool_decide as Hn; [done|].
  destruct Ht as [?|Ht]; [done|]. rewrite Hh, Ht in *. apply bool_decide_eq_true_2.
  unfold client_header, new_request. cbn [cut req_Header].
  rewrite (bool_decide_eq_false_2 (rem_token engine = [])) by done.
  by case_bool_decide.
Qed.

Lemma client_driver engine :
  header_get driverHeader (client_header engine) = rem_driver engine.
Proof.
  unfold client_header, new_request. cbn [cut req_Header].
  case_bool_decide as Hd; case_bool_decide; [by rewrite Hd|by rewrite Hd|done|done].
Qed.

Lemma client_resolves m engine request :
  serving m engine → req_Header request = client_header engine →
  resolve registry (rem_world engine) request = Some (inr driver).
Proof.
  intros (_ & Hd & w & Hw & _) Hh. unfold resolve. rewrite Hh, client_driver.
  case_bool_decide as Hn; [by rewrite <-Hd, Hw|]. destruct Hd as [<- Hc].
  unfold ParseDriverName. by rewrite Hc, Hw.
Qed.

(** The header of a handler's response. *)
Abbreviation response_header := [(canonical_key driverHeader, driver)].

(** A request the routes send to [ep] is answered as the handler says. *)
Lemma request_handled method endpoint body path query ep values m engine
    (Q : Response → gmap bytes bytes → Prop) :
  serving m engine → method ≠ MethodHead → cut "?" endpoint = (path, query) →
  mux_route method path query = Routed ep values →
  (∀ index,
     wp readings (handle (maxRequestBytes options) index response_header
                    (mkRequest method path query (client_header engine) (inr body)) ep values)
        (λ r m', ∃ response, r = Ok response ∧ Q response m') m) →
  ∃ response m' engine',
    request wire Background method endpoint body engine = (inr (response, None), engine')
    ∧ Q response m' ∧ serving m' engine'.
Proof using live_requests clock_readings.
  intros Hs Hhead Hcut Hroute Hwp.
  set (req := mkRequest method path query (client_header engine) (inr body)).
  assert (new_request engine method endpoint body = req) as Hreq.
  { unfold new_request. by rewrite Hcut. }
  pose proof (client_resolves m engine req Hs eq_refl) as Hres.
  pose proof Hs as (Htok & Hd & w & Hw & Hh & Hm).
  pose proof (client_authorized engine Htok req eq_refl) as Hauth.
  unfold request, wire, Background. rewrite Hreq. unfold serve_http, dispatch.
  rewrite Hauth. cbn [negb]. change (req_Method req) with method.
  change (req_Path req) with path. change (req_RawQuery req) with query.
  rewrite Hroute, Hres, Hw. subst m. cbv beta iota zeta.
  rewrite (bool_decide_eq_false_2 (method = MethodHead)) by done.
  match goal with |- context [run env ?p w] => set (p' := p) end.
  destruct (wp_sound readings env p' (λ r m', ∃ response, r = Ok response ∧ Q response m') w)
    as [(response & Hr & HQ) Hh']; [done|done|done|apply Hwp|].
  destruct (run env p' w) as [r w']. cbn in *. subst r.
  exists response, (records w'). eexists. split_and!; [done..|].
  split_and!; [done| |]; cbn.
  - revert Hd. by case_bool_decide.
  - exists w'. by rewrite lookup_insert_eq.
Qed.

Lemma wp_transport_Get key m Q :
  Q (Ok (m !! key)) m → wp readings (transport_Get key) Q m.
Proof. intros H. unfold transport_Get. wp_step. apply wp_ensureOpen. by wp_steps. Qed.

Lemma wp_transport_Put key value m Q :
  Q (Ok tt) (<[key := value]> m) → wp readings (transport_Put key value) Q m.
Proof. intros H. unfold transport_Put. wp_step. apply wp_ensureOpen. by wp_steps. Qed.

Lemma wp_transport_Delete key m Q :
  Q (Ok tt) (delete key m) → wp readings (transport_Delete key) Q m.
Proof. intros H. unfold transport_Delete. wp_step. apply wp_ensureOpen. by wp_steps. Qed.

Lemma cut_kv key : key ≠ [] → cut "?" (remoteKeyPath key) = (remoteKeyPath key, []).
Proof.
  intros Hk%plain_base64. apply cut_none. intros [Hin|Hin]%elem_of_app.
  - revert Hin. change ("?"%byte ∉ ⟦"/v1/kv/"⟧). decide_goal.
  - by eapply no_question.
Qed.

(** Requests for one record. *)
Lemma kv_handled method key body m engine (Q : Response → gmap bytes bytes → Prop) :
  serving m engine → method ≠ MethodHead → key ≠ [] →
  (∀ req, req_Method req = method → req_Body req = inr body →
     wp readings (handleKV (maxRequestBytes options) response_header req (base64_encode true key))
        (λ r m', ∃ response, r = Ok response ∧ Q response m') m) →
  ∃ response m' engine',
    request wire Background method (remoteKeyPath key) body engine = (inr (response, None), engine')
    ∧ Q response m' ∧ serving m' engine'.
Proof using live_requests clock_readings.
  intros Hs Hm Hk Hwp.
  apply (request_handled method (remoteKeyPath key) body (remoteKeyPath key) [] EpKv
           [base64_encode true key] m engine Q); [done|done|by apply cut_kv|by apply kv_route|].
  intros index. by apply Hwp.
Qed.

Lemma remote_Get_serving m engine key :
  serving m engine → key ≠ [] →
  ∃ engine', remote_Get wire Background key engine = (inr (m !! key), engine') ∧ serving m engine'.
Proof using live_requests clock_readings.
  intros Hs Hk. unfold remote_Get.
  destruct (kv_handled MethodGet key [] m engine (λ response m', m' = m ∧
      response = match m !! key with
                 | None => http_Error response_header ⟦"not found"⟧ 404
                 | Some value => http_OK response_header ⟦"application/octet-stream"⟧ value
                 end)) as (response & m' & engine' & -> & [-> ->] & Hs'); [done|done|done| |].
  - intros req Hreq _. unfold handleKV. rewrite base64_roundtrip, Hreq.
    rewrite bool_decide_eq_true_2 by done. apply wp_or_respond, wp_transport_Get. wp_steps. eauto.
  - exists engine'. split; [|done]. by destruct (m !! key).
Qed.

Lemma remote_Put_serving m engine key value :
  serving m engine → key ≠ [] → (Z.of_nat (length value) ≤ maxRequestBytes options)%Z →
  ∃ engine', remote_Put wire Background key value engine = (None, engine')
             ∧ serving (<[key := value]> m) engine'.
Proof using live_requests clock_readings.
  intros Hs Hk Hlen. unfold remote_Put, expect_empty.
  destruct (kv_handled MethodPut key value m engine (λ response m', m' = <[key := value]> m ∧
      response = no_content response_header))
    as (response & m' & engine' & -> & [-> ->] & Hs'); [done|done|done| |by exists engine'].
  intros req Hreq Hbody. unfold handleKV, read_body. rewrite base64_roundtrip, Hreq, Hbody.
  change (bool_decide (MethodPut = MethodGet)) with false. cbv iota.
  rewrite !bool_decide_eq_true_2 by done.
  apply wp_or_respond, wp_transport_Put. wp_steps. eauto.
Qed.

Lemma remote_Delete_serving m engine key :
  serving m engine → key ≠ [] →
  ∃ engine', remote_Delete wire Background key engine = (None, engine') ∧ serving (delete key m) engine'.
Proof using live_requests clock_readings.
  intros Hs Hk. unfold remote_Delete, expect_empty.
  destruct (kv_handled MethodDelete key [] m engine (λ response m', m' = delete key m ∧
      response = no_content response_header))
    as (response & m' & engine' & -> & [-> ->] & Hs'); [done|done|done| |by exists engine'].
  intros req Hreq Hbody. unfold handleKV. rewrite base64_roundtrip, Hreq.
  change (bool_decide (MethodDelete = MethodGet)) with false.
  change (bool_decide (MethodDelete = MethodPut)) with false. cbv iota.
  rewrite bool_decide_eq_true_2 by done.
  apply wp_or_respond, wp_transport_Delete. wp_steps. eauto.
Qed.

(** *** Scans *)

Lemma wp_transport_Scan pfx m (Q : result (list (bytes * bytes)) → gmap bytes bytes → Prop) :
  (∀ items : list (bytes * bytes), items ≡ₚ matches m pfx → Q (Ok items) m) →
  wp readings (transport_ScanPrefix pfx (λ item items, mret (items ++ [item])) []) Q m.
Proof.
  intros HQ. unfold transport_ScanPrefix. wp_step. apply wp_ensureOpen. apply wp_scan.
  intros items Hp. specialize (HQ items Hp).
  assert (∀ l acc : list (bytes * bytes), wp readings (for_each l (λ item items, mret (items ++ [item])) acc)
                     (λ r m', r = Ok (acc ++ l) ∧ m' = m) m) as Hloop.
  { induction l as [|x l IH]; intros acc; [by rewrite app_nil_r|]. cbn [for_each]. wp_steps.
    eapply wp_mono; [apply IH|]. cbn. by rewrite <-app_assoc. }
  eapply wp_mono; [apply Hloop|]. by intros ? ? [-> ->].
Qed.

Lemma sanitize_base64 url s : sanitize (base64_encode url s) = base64_encode url s.
Proof.
  apply sanitize_ascii, base64_encode_chars. intros n Hn.
  assert (∃ k, n = Z.of_nat k ∧ k < 64) as (k & -> & Hk) by (exists (Z.to_nat n); lia).
  clear Hn. do 64 (destruct k as [|k]; [by destruct url|]). lia.
Qed.

Lemma clean_scanItem item : clean (scanItem item) = scanItem item.
Proof.
  unfold scanItem. cbn [clean fmap list_fmap fst snd]. by rewrite !sanitize_base64.
Qed.

Definition encoded_pair (item : bytes * bytes) : bytes * bytes :=
  (base64_encode false item.1, base64_encode false item.2).

Lemma decode_scan_items items :
  decode_items (JArray (scanItem <$> items)) [] = Some (encoded_pair <$> items).
Proof.
  unfold decode_items. cbn [set_slice].
  assert (mapM (λ item, set_struct false item_fields item ([], [])) (scanItem <$> items)
          = Some (encoded_pair <$> items)) as ->; [|done].
  apply mapM_Some_2. induction items as [|item items IH]; constructor; [|done].
  done.
Qed.

Lemma deliver_encoded items :
  deliver_items base64_error (encoded_pair <$> items) = (items, None).
Proof.
  induction items as [|[key value] items IH]; [done|]. rewrite fmap_cons. cbn [deliver_items encoded_pair fst snd].
  by rewrite !base64_roundtrip, IH.
Qed.

Lemma scan_document items :
  decode_next (encode_line (JArray (scanItem <$> items))) = Some (JArray (scanItem <$> items), [Byte.x0a]).
Proof.
  rewrite decode_next_line.
  - cbn [clean]. rewrite <-list_fmap_compose. do 3 f_equal. apply list_fmap_ext. intros. apply clean_scanItem.
  - cbn. induction items; [done|]. by split.
  - change (Z.of_nat (height (JArray (scanItem <$> items))) ≤ 10000)%Z. cbn [height].
    assert (foldr (λ x n, height x `max` n) 0 (scanItem <$> items) ≤ 1); [|lia].
    induction items as [|item items IH]; [cbn; lia|]. rewrite fmap_cons. cbn [foldr].
    change (height (scanItem item)) with 1. lia.
Qed.

Lemma scan_route query : mux_route MethodGet ⟦"/v1/scan"⟧ query = Routed EpScan [].
Proof. done. Qed.

Lemma remote_Scan_serving m engine pfx :
  serving m engine →
  ∃ items engine', remote_ScanPrefix json_error base64_error wire Background pfx engine
                   = ((items, None), engine')
    ∧ items ≡ₚ matches m pfx ∧ serving m engine'.
Proof using live_requests clock_readings.
  intros Hs. unfold remote_ScanPrefix.
  set (query := ⟦"prefix="⟧ ++ base64_encode true pfx).
  destruct (request_handled MethodGet (⟦"/v1/scan?prefix="⟧ ++ base64_encode true pfx) []
      ⟦"/v1/scan"⟧ query EpScan [] m engine (λ response m', m' = m ∧ ∃ items, items ≡ₚ matches m pfx
        ∧ response = http_OK response_header json_type (encode_line (JArray (scanItem <$> items)))))
    as (response & m' & engine' & -> & (-> & items & Hp & ->) & Hs'); [done|done| |apply scan_route| |].
  - change (⟦"/v1/scan?prefix="⟧ ++ base64_encode true pfx) with (⟦"/v1/scan"⟧ ++ "?"%byte :: query).
    apply cut_app. decide_goal.
  - intros index. cbn [handle]. unfold handleScan. cbn [req_RawQuery].
    change query with (⟦"prefix"⟧ ++ "="%byte :: base64_encode true pfx).
    rewrite (query_single ⟦"prefix"⟧); [|decide_goal|apply base64_encode_chars, base64_char_unreserved].
    rewrite base64_roundtrip. apply wp_or_respond, wp_transport_Scan. intros items Hp. wp_steps. eauto 6.
  - exists items, engine'. split_and!; [|done..]. unfold decode_body. cbn [res_Status http_OK res_Body].
    rewrite scan_document. cbn [mbind option_bind fst]. rewrite decode_scan_items, deliver_encoded. done.
Qed.

(** *** Counted operations *)

Lemma decode_count name n :
  sanitize name = name → (minInt64 ≤ n ≤ maxInt64)%Z →
  ∀ header, decode_body json_error (set_struct false [(name, set_int (λ z _, z))]) 0%Z
              (http_OK header json_type (count_body name n)) None = inr n.
Proof.
  intros Hname Hn header. unfold decode_body, count_body. cbn [res_Body http_OK].
  rewrite decode_next_line; [|by split; [exists n|]|done].
  cbn [clean fmap list_fmap fst snd mbind option_bind JInt]. rewrite Hname.
  cbn [set_struct set_members]. unfold find_field. cbn [list_find].
  rewrite decide_True by done. cbn [set_int snd].
  by rewrite parse_format_int by (unfold minInt64, maxInt64 in Hn; lia).
Qed.

Lemma count_handled endpoint path query ep values body name operation m engine
    (Q : Z → gmap bytes bytes → Prop) :
  serving m engine → cut "?" endpoint = (path, query) →
  mux_route MethodPost path query = Routed ep values → sanitize name = name →
  (∀ index, wp readings (handle (maxRequestBytes options) index response_header
                (mkRequest MethodPost path query (client_header engine) (inr body)) ep values)
     (λ r m', ∃ n, r = Ok (http_OK response_header json_type (count_body name n))
                   ∧ (minInt64 ≤ n ≤ maxInt64)%Z ∧ Q n m') m) →
  ∃ n m' engine', expect_count json_error wire Background endpoint body name operation engine
                  = (inr n, engine')
    ∧ Q n m' ∧ serving m' engine'.
Proof using live_requests clock_readings.
  intros Hs Hcut Hroute Hname Hwp. unfold expect_count.
  destruct (request_handled MethodPost endpoint body path query ep values m engine
      (λ response m', ∃ n, response = http_OK response_header json_type (count_body name n)
                   ∧ (minInt64 ≤ n ≤ maxInt64)%Z ∧ Q n m'))
    as (response & m' & engine' & -> & (n & -> & Hn & HQ) & Hs'); [done|done|done|done| |].
  - intros index. eapply wp_mono; [apply Hwp|]. intros r m' (n & -> & Hn & HQ).
    eexists. split; [done|]. by exists n.
  - exists n, m', engine'. split_and!; [|done..]. change (res_Status _) with 200%Z.
    rewrite bool_decide_eq_false_2 by (by intros []). by rewrite decode_count.
Qed.

Lemma push_route key query :
  key ≠ [] →
  mux_route MethodPost (path_of [⟦"v1"⟧; ⟦"list"⟧; base64_encode true key; ⟦"push"⟧]) query
  = Routed EpPush [base64_encode true key].
Proof.
  intros Hk%plain_base64. set (enc := base64_encode true key) in *.
  apply (route_path [⟦"v1"⟧; ⟦"list"⟧; enc; ⟦"push"⟧] ltac:(done)) with (pre := take 6 routes)
    (post := drop 7 routes)
    (r := mkRoute (Some MethodPost) [Some ⟦"v1"⟧; Some ⟦"list"⟧; None; Some ⟦"push"⟧] EpPush).
  - do 2 (constructor; [decide_goal|]). constructor; [done|]. constructor; [decide_goal|constructor].
  - done.
  - by repeat constructor.
  - change (match_segments _ _) with (if bool_decide (enc = [SlashByte]) then None else Some [enc]).
    by rewrite bool_decide_eq_false_2 by (by apply plain_not_slash).
  - done.
Qed.

Lemma remote_Push_serving key items left m engine (Q : Z → gmap bytes bytes → Prop) :
  serving m engine → key ≠ [] → list_encodable items →
  (Z.of_nat (length (encodeList items)) ≤ maxRequestBytes options)%Z →
  wp readings (transport_PushList key items left)
     (λ r m', ∃ n, r = Ok n ∧ (minInt64 ≤ n ≤ maxInt64)%Z ∧ Q n m') m →
  ∃ n m' engine', remote_PushList json_error wire Background key items left engine = (inr n, engine')
    ∧ Q n m' ∧ serving m' engine'.
Proof using live_requests clock_readings.
  intros Hs Hk Henc Hlen Hwp. unfold remote_PushList.
  set (path := path_of [⟦"v1"⟧; ⟦"list"⟧; base64_encode true key; ⟦"push"⟧]).
  assert (∀ tail, ⟦"/v1/list/"⟧ ++ base64_encode true key ++ ⟦"/push"⟧ ++ tail = path ++ tail) as ->.
  { intros tail. by rewrite !(app_assoc _ _ tail). }
  apply (count_handled (path ++ if left then ⟦"?left=1"⟧ else []) path (if left then ⟦"left=1"⟧ else []) EpPush
           [base64_encode true key] (encodeList items) ⟦"length"⟧ ⟦"list push"⟧ m engine Q).
  - done.
  - assert ("?"%byte ∉ path) as Hpath.
    { change path with (⟦"/v1/list/"⟧ ++ base64_encode true key ++ ⟦"/push"⟧).
      rewrite !not_elem_of_app. split_and!; [decide_goal| |decide_goal].
      by apply no_question, plain_base64. }
    destruct left.
    + by apply (cut_app "?" path ⟦"left=1"⟧).
    + rewrite app_nil_r. by apply cut_none.
  - by apply push_route.
  - done.
  - intros index. cbn [handle head from_option id]. unfold handlePush, read_body. cbn [req_Body req_RawQuery].
    rewrite base64_roundtrip, bool_decide_eq_true_2, decode_encode_list by done.
    assert (bool_decide (query_get ⟦"left"⟧ (if left then ⟦"left=1"⟧ else []) = ⟦"1"⟧) = left) as ->
      by (by destruct left).
    apply wp_or_respond. eapply wp_mono; [exact Hwp|]. intros r m' (n & -> & Hn & HQ). wp_steps. eauto.
Qed.

(** The three operations on the elements of a collection: endpoint, names,
    the owner's operation. *)
Definition items_endpoint (path what items_name reply : bytes) (ep : endpoint)
    (operation : bytes → list bytes → M counted) : Prop :=
  (path, what, items_name, reply, ep) ∈
    [(⟦"/v1/set/add"⟧, ⟦"set"⟧, ⟦"members"⟧, ⟦"added"⟧, EpSetAdd);
     (⟦"/v1/set/remove"⟧, ⟦"set"⟧, ⟦"members"⟧, ⟦"removed"⟧, EpSetRemove);
     (⟦"/v1/hash/delete"⟧, ⟦"hash"⟧, ⟦"fields"⟧, ⟦"deleted"⟧, EpHashDelete)]
  ∧ ∀ max index header request,
      handle max index header request ep []
      = handleItems max what items_name reply operation header request.

Lemma items_handled path what items_name reply ep operation label name items m engine
    (Q : Z → gmap bytes bytes → Prop) :
  items_endpoint path what items_name reply ep operation →
  serving m engine → items ≠ [] →
  (Z.of_nat (length (marshal_members items)) ≤ maxRequestBytes options)%Z →
  wp readings (operation name (sanitize <$> items))
     (λ r m', ∃ n, r = Ok (n, None) ∧ (minInt64 ≤ n ≤ maxInt64)%Z ∧ Q n m') m →
  ∃ n m' engine',
    expect_count json_error wire Background (path ++ ⟦"?name="⟧ ++ base64_encode true name)
      (marshal_members items) reply label engine = (inr n, engine')
    ∧ Q n m' ∧ serving m' engine'.
Proof using live_requests clock_readings.
  intros [Hin Hhandle] Hs Hne Hlen Hwp. set (query := ⟦"name="⟧ ++ base64_encode true name).
  assert ("?"%byte ∉ path ∧ mux_route MethodPost path query = Routed ep [] ∧ sanitize reply = reply)
    as (Hpath & Hroute & Hreply).
  { apply elem_of_cons in Hin as [[= -> -> -> -> ->]|Hin]; [split; [decide_goal|done]|].
    apply elem_of_cons in Hin as [[= -> -> -> -> ->]|Hin]; [split; [decide_goal|done]|].
    apply list_elem_of_singleton in Hin as [= -> -> -> -> ->]. split; [decide_goal|done]. }
  apply (count_handled _ path query ep [] (marshal_members items) reply label m engine Q).
  - done.
  - by apply (cut_app "?" path query).
  - done.
  - done.
  - intros index. rewrite Hhandle. unfold handleItems, readStringItems, read_body.
    cbn [req_RawQuery req_Body]. change query with (⟦"name"⟧ ++ "="%byte :: base64_encode true name).
    rewrite query_single; [|decide_goal|apply base64_encode_chars, base64_char_unreserved].
    rewrite base64_roundtrip, bool_decide_eq_true_2 by done. cbn [mbind option_bind].
    unfold marshal_members. rewrite bool_decide_eq_false_2, unmarshal_marshal_strings by done.
    cbn [fmap option_fmap option_map mbind option_bind]. wp_step.
    eapply wp_mono; [exact Hwp|]. intros r m' (n & -> & Hn & HQ). wp_steps. eauto.
Qed.

(** ** The owner's map, through the client *)

(** C8: Through a connection to a healthy owner, the client's engine is the
    owner's record map: a read yields the owner's record, a write within the
    size limit and a delete change exactly that record, a scan delivers the
    owner's records under the prefix, each once; and the owner's database
    holds the result. *)
Theorem remote_engine_is_owner_map m engine :
  serving m engine →
  (∀ key, key ≠ [] → ∃ engine',
     remote_Get wire Background key engine = (inr (m !! key), engine') ∧ serving m engine')
  ∧ (∀ key value, key ≠ [] → (Z.of_nat (length value) ≤ maxRequestBytes options)%Z → ∃ engine',
     remote_Put wire Background key value engine = (None, engine') ∧ serving (<[key := value]> m) engine')
  ∧ (∀ key, key ≠ [] → ∃ engine',
     remote_Delete wire Background key engine = (None, engine') ∧ serving (delete key m) engine')
  ∧ (∀ pfx, ∃ items engine',
     remote_ScanPrefix json_error base64_error wire Background pfx engine = ((items, None), engine')
     ∧ items ≡ₚ matches m pfx ∧ serving m engine').
Proof using live_requests clock_readings.
  intros Hs. split_and!; intros; eauto using remote_Get_serving, remote_Put_serving,
    remote_Delete_serving, remote_Scan_serving.
Qed.

(** C26: The owner-side operations of the client run the owner's own operation:
    whatever a push establishes of the count it returns and of the records,
    the push through the client establishes of the owner's database. Set and
    hash operations pass their elements as JSON strings: the owner's
    operation gets them with every byte that is not valid UTF-8 replaced. *)
Theorem remote_operations_run_at_owner m engine (Q : Z → gmap bytes bytes → Prop) :
  serving m engine →
  (∀ key items left, key ≠ [] → list_encodable items →
     (Z.of_nat (length (encodeList items)) ≤ maxRequestBytes options)%Z →
     wp readings (transport_PushList key items left)
        (λ r m', ∃ n, r = Ok n ∧ (minInt64 ≤ n ≤ maxInt64)%Z ∧ Q n m') m →
     ∃ n m' engine', remote_PushList json_error wire Background key items left engine = (inr n, engine')
       ∧ Q n m' ∧ serving m' engine')
  ∧ (∀ name items, items ≠ [] → (Z.of_nat (length (marshal_members items)) ≤ maxRequestBytes options)%Z →
     let counts (p : M counted) := wp readings p
        (λ r m', ∃ n, r = Ok (n, None) ∧ (minInt64 ≤ n ≤ maxInt64)%Z ∧ Q n m') m in
     let answers (r : (GoError + Z) * remoteEngine (sharedDatabases E)) :=
        ∃ n m' engine', r = (inr n, engine') ∧ Q n m' ∧ serving m' engine' in
     (counts (SAdd name (sanitize <$> items)) →
        answers (remote_AddSet json_error wire Background name items engine))
     ∧ (counts (SRemove name (sanitize <$> items)) →
        answers (remote_RemoveSet json_error wire Background name items engine))
     ∧ (counts (HDelete name (sanitize <$> items)) →
        answers (remote_DeleteHashFields json_error wire Background name items engine))).
Proof using live_requests clock_readings.
  intros Hs. split; [intros; by eapply remote_Push_serving|].
  intros name items Hne Hlen counts answers. split_and!; intros Hwp.
  - apply (items_handled ⟦"/v1/set/add"⟧ ⟦"set"⟧ ⟦"members"⟧ ⟦"added"⟧ EpSetAdd SAdd ⟦"set add"⟧ name items m engine Q);
      [split; [decide_goal|done]|done..].
  - apply (items_handled ⟦"/v1/set/remove"⟧ ⟦"set"⟧ ⟦"members"⟧ ⟦"removed"⟧ EpSetRemove SRemove
             ⟦"set remove"⟧ name items m engine Q);
      [split; [decide_goal|done]|done..].
  - apply (items_handled ⟦"/v1/hash/delete"⟧ ⟦"hash"⟧ ⟦"fields"⟧ ⟦"deleted"⟧ EpHashDelete HDelete
             ⟦"hash delete"⟧ name items m engine Q);
      [split; [decide_goal|done]|done..].
Qed.

(** *** Logical values *)

Lemma logical_route key :
  key ≠ [] →
  mux_route MethodPut (path_of [⟦"v1"⟧; ⟦"logical"⟧; base64_encode true key]) []
  = Routed EpLogical [base64_encode true key].
Proof.
  intros Hk%plain_base64. set (enc := base64_encode true key) in *.
  apply (route_path [⟦"v1"⟧; ⟦"logical"⟧; enc] ltac:(done)) with (pre := take 4 routes)
    (post := drop 5 routes) (r := mkRoute (Some MethodPut) [Some ⟦"v1"⟧; Some ⟦"logical"⟧; None] EpLogical).
  - do 2 (constructor; [decide_goal|]). by constructor.
  - done.
  - by repeat constructor.
  - change (match_segments _ _) with (if bool_decide (enc = [SlashByte]) then None else Some [enc]).
    by rewrite bool_decide_eq_false_2 by (by apply plain_not_slash).
  - done.
Qed.

(** Replacing a logical value through the client leaves the owner with the
    new record and no other record of that key, as a local write does, in one
    request. *)
Theorem remote_replace_exact m engine key encoded v :
  serving m engine → key ≠ [] → short key → unmarshalEnvelope encoded = Ok v →
  (Z.of_nat (length encoded) ≤ maxRequestBytes options)%Z →
  ∃ engine', remote_ReplaceLogicalValue wire Background key encoded engine = (None, engine')
    ∧ serving (<[valueKey key := encoded]> (without key m)) engine'.
Proof using live_requests clock_readings.
  intros Hs Hk Hshort Hv Hlen. unfold remote_ReplaceLogicalValue, expect_empty.
  set (path := path_of [⟦"v1"⟧; ⟦"logical"⟧; base64_encode true key]).
  destruct (request_handled MethodPut path encoded path [] EpLogical [base64_encode true key] m engine
      (λ response m', m' = <[valueKey key := encoded]> (without key m)
                      ∧ response = no_content response_header))
    as (response & m' & engine' & Hr & [-> ->] & Hs'); [done|done| |by apply logical_route| |].
  - apply cut_none. change path with (⟦"/v1/logical/"⟧ ++ base64_encode true key).
    rewrite not_elem_of_app. split; [decide_goal|]. by apply no_question, plain_base64.
  - intros index. cbn [handle head from_option id]. unfold handleLogical, read_body. cbn [req_Body].
    rewrite base64_roundtrip, bool_decide_eq_true_2 by done. destruct key as [|c key]; [done|].
    cbn [store_DecodeRecord store_DeleteLogicalKey store_Put store_ValueKey dbProtocol].
    unfold protocol_DecodeRecord. rewrite Hv. unfold protocol_DeleteLogicalKey.
    apply wp_or_respond. wp_step. apply wp_ensureOpen. apply wp_deleteLogicalKey; [done|]. intros b _.
    apply wp_or_respond, wp_transport_Put. wp_steps. eauto.
  - exists engine'. split; [|done].
    change (⟦"/v1/logical/"⟧ ++ base64_encode true key) with path. by rewrite Hr.
Qed.

(** The client sends a call without members as [null], which the owner
    refuses: the remote operation fails where the owner's own one counts
    zero and succeeds. *)
Theorem remote_add_without_members_fails m engine name :
  serving m engine →
  (∃ e engine', remote_AddSet json_error wire Background name [] engine = (inl e, engine')
                ∧ serving m engine')
  ∧ wp readings (SAdd name []) (λ r m', r = Ok (0%Z, None) ∧ m' = m) m.
Proof using live_requests clock_readings.
  intros Hs. split.
  - unfold remote_AddSet, expect_count. set (query := ⟦"name="⟧ ++ base64_encode true name).
    destruct (request_handled MethodPost (⟦"/v1/set/add?name="⟧ ++ base64_encode true name)
        (marshal_members []) ⟦"/v1/set/add"⟧ query EpSetAdd [] m engine
        (λ response m', m' = m ∧ res_Status response = 400%Z))
      as (response & m' & engine' & -> & [-> Hst] & Hs'); [done|done| |done| |].
    + apply (cut_app "?" ⟦"/v1/set/add"⟧ query). decide_goal.
    + intros index. cbn [handle]. unfold handleItems. cbn [req_RawQuery].
      change query with (⟦"name"⟧ ++ "="%byte :: base64_encode true name).
      rewrite query_single; [|decide_goal|apply base64_encode_chars, base64_char_unreserved].
      rewrite base64_roundtrip. unfold readStringItems, read_body. cbn [req_Body].
      case_bool_decide; by eexists.
    + rewrite Hst. change (bool_decide (400%Z ≠ 200%Z)) with true. eauto.
  - unfold SAdd, when_open, owner_side. wp_steps. apply wp_ensureOpen. by wp_steps.
Qed.
End remote.

(** ** Witnesses *)

Module http_example.
#[local] Existing Instance ascii_GoText.

Definition token : bytes := ⟦"s3cret"⟧.
Definition options : Options := mkOptions [] token 0 [] [].
Definition env : Env := mkEnv Background (λ _, 5%Z).
Definition any (_ : Z) : Prop := True.
Definition shared : sharedDatabases memoryDriverEngine :=
  mkShared DriverMemory {[ DriverMemory := mkWorld (newDB memoryDriver_Open DriverMemory) 0 ]} [].
Definition engine : remoteEngine (sharedDatabases memoryDriverEngine) := mkRemote token [] shared.

Lemma engine_serving : serving options DriverMemory ∅ engine.
Proof.
  split_and!; [by right|done|]. exists (mkWorld (newDB memoryDriver_Open DriverMemory) 0).
  split_and!; [apply lookup_singleton_eq|done..].
Qed.
End http_example.

Section witnesses.
Import http_example.
#[local] Existing Instance ascii_GoText.

Lemma bearer_gate_witness :
  ∃ response, serve_http ∅ id env options shared (mkRequest MethodGet ⟦"/v1"⟧ [] [] (inr [])) = (Some response, shared)
    ∧ res_Status response = 401%Z.
Proof.
  assert (opt_BearerToken options ≠ []) as H by done.
  pose proof (bearer_gate ∅ id env options shared (mkRequest MethodGet ⟦"/v1"⟧ [] [] (inr [])) H) as Hg.
  cbv zeta in Hg. rewrite decide_False in Hg by done. exact Hg.
Defined.

Lemma remote_engine_is_owner_map_witness :
  ∃ engine', remote_Put (wire ∅ id env options) Background ⟦"k"⟧ ⟦"v"⟧ engine = (None, engine')
    ∧ serving options DriverMemory {[ ⟦"k"⟧ := ⟦"v"⟧ ]} engine'.
Proof.
  destruct (remote_engine_is_owner_map ∅ id id id env options any DriverMemory eq_refl (λ _, I) ∅ engine
              engine_serving) as (_ & Hput & _).
  by apply (Hput ⟦"k"⟧ ⟦"v"⟧).
Defined.

Lemma remote_operations_run_at_owner_witness :
  ∃ n m engine', remote_AddSet id (wire ∅ id env options) Background ⟦"s"⟧ [⟦"x"⟧] engine = (inr n, engine')
    ∧ n = 1%Z ∧ serving options DriverMemory m engine'.
Proof.
  destruct (remote_operations_run_at_owner ∅ id id env options any DriverMemory eq_refl (λ _, I) ∅ engine
              (λ n _, n = 1%Z) engine_serving) as [_ Hsets].
  destruct (Hsets ⟦"s"⟧ [⟦"x"⟧]) as (Hadd & _); [done|by vm_compute|]. apply Hadd.
  change (sanitize <$> [⟦"x"⟧]) with [⟦"x"⟧]. unfold SAdd, when_open, owner_side. wp_steps.
  apply wp_ensureOpen. wp_steps. cbn [errors_Is]. rewrite bool_decide_eq_true_2 by done.
  cbn [count_loop SAdd_step]. unfold SAdd_step. wp_steps. rewrite lookup_empty. wp_steps.
  exists 1%Z. by split_and!.
Defined.

Lemma remote_replace_exact_witness :
  ∃ engine', remote_ReplaceLogicalValue (wire ∅ id env options) Background ⟦"k"⟧
               (envelopeMagic ++ replicate 10 Byte.x00) engine = (None, engine').
Proof.
  destruct (remote_replace_exact ∅ id env options any DriverMemory eq_refl (λ _, I) ∅ engine ⟦"k"⟧
              (envelopeMagic ++ replicate 10 Byte.x00) (mkEnvelope 0 [] []) engine_serving) as (engine' & H & _);
    [done|by vm_compute|by vm_compute|by vm_compute|]. by exists engine'.
Defined.

Lemma remote_add_without_members_fails_witness :
  ∃ e engine', remote_AddSet id (wire ∅ id env options) Background ⟦"s"⟧ [] engine = (inl e, engine').
Proof.
  destruct (remote_add_without_members_fails ∅ id id env options any DriverMemory eq_refl (λ _, I) ∅ engine
              ⟦"s"⟧ engine_serving) as [(e & engine' & H & _) _].
  by exists e, engine'.
Defined.
End witnesses.
