(* ===== verification/HttpServerProps.v ===== *)
(** * Starting and stopping the HTTP server

    The databases a server opens itself are closed when it cannot start and
    when it stops; the database it was given never is. *)

From S2P Require Import Prelude Errors Engine Effects Text DriverName MemDriver DB Modules Backend Http.

Section lifecycle.
Context {GT : GoText} {E : Type} `{!Engine E} {S : Type} (open : bytes → bytes → S → result (DB E) * S).
Implicit Types (shared : sharedDatabases E) (databases : gmap bytes (World E)).

Definition is_closed (w : World E) : Prop := db_closed (w_db w) = true.

Lemma Close_closed (db : DB E) : db_closed (DB.Close db).2 = true.
Proof.
  unfold DB.Close. destruct (db_closed db) eqn:H; [done|]. by destruct (guarded_Close _).
Qed.

Lemma close_each_spec names databases name :
  (close_each names databases).2 !! name =
  match databases !! name with
  | None => None
  | Some w => (close_each names databases).2 !! name
  end
  ∧ (name ∉ names → (close_each names databases).2 !! name = databases !! name)
  ∧ ∀ w, (close_each names databases).2 !! name = Some w →
      name ∈ names ∨ (∃ w', databases !! name = Some w' ∧ is_closed w') → is_closed w.
Proof.
  revert databases. induction names as [|n names IH]; intros databases.
  { cbn. split_and!; [by destruct (databases !! name)|done|].
    intros w Hw [?%not_elem_of_nil|(w' & Hw' & ?)]; [done|congruence]. }
  cbn [close_each]. destruct (databases !! n) as [wn|] eqn:Hn.
  - destruct (DB.Close (w_db wn)) as [err db] eqn:Hc.
    assert (db_closed db = true) as Hclosed by (change db with (err, db).2; rewrite <-Hc; apply Close_closed).
    specialize (IH (<[n := mkWorld db (w_ticks wn)]> databases)).
    destruct (close_each names _) as [later databases'] eqn:Hrest. cbn [snd] in *.
    destruct IH as (H1 & H2 & H3). split_and!.
    + destruct (databases !! name) eqn:Hname; [done|].
      rewrite lookup_insert_ne in H1 by congruence. by rewrite Hname in H1.
    + intros [Hne Hnot]%not_elem_of_cons. by rewrite H2, lookup_insert_ne by congruence.
    + intros w Hw Hor. apply H3; [done|]. destruct (decide (name = n)) as [->|Hne].
      * right. eexists. split; [apply lookup_insert_eq|done].
      * rewrite lookup_insert_ne by done. destruct Hor as [[?|?]%elem_of_cons|?]; [done|auto..].
  - destruct (IH databases) as (H1 & H2 & H3). split_and!; [done|set_solver|].
    intros w Hw [[->|?]%elem_of_cons|?]; [|auto..]. rewrite Hn in H1. congruence.
Qed.

(** Every database but [primary] is among the auxiliary ones. *)
Definition tracked primary shared : Prop :=
  ∀ name, name ≠ primary → is_Some (sh_databases shared !! name) → name ∈ sh_auxiliary shared.

(** Only [primary], as it was given, may be open. *)
Definition all_released primary (w : World E) shared : Prop :=
  sh_databases shared !! primary = Some w
  ∧ ∀ name w', name ≠ primary → sh_databases shared !! name = Some w' → is_closed w'.

Lemma closeAuxiliary_released primary w shared :
  tracked primary shared → primary ∉ sh_auxiliary shared → sh_databases shared !! primary = Some w →
  all_released primary w (closeAuxiliary shared).2.
Proof.
  intros Ht Hp Hw. unfold closeAuxiliary.
  pose proof (close_each_spec (sh_auxiliary shared) (sh_databases shared)) as Hspec.
  destruct (close_each _ _) as [err databases]. cbn [snd sh_databases] in *. split.
  - destruct (Hspec primary) as (_ & H & _). etrans; [by apply H|done].
  - intros name w' Hne Hw'. change (databases !! name = Some w') in Hw'. destruct (Hspec name) as (H1 & _ & H3). apply (H3 w'); [done|].
    left. apply Ht; [done|]. destruct (sh_databases shared !! name); [done|]. congruence.
Qed.

Lemma open_paths_tracked primary w paths shared s r shared' s' :
  tracked primary shared → primary ∉ sh_auxiliary shared → sh_databases shared !! primary = Some w →
  open_paths open paths shared s = (r, shared', s') →
  match r with
  | Ok _ => tracked primary shared' ∧ primary ∉ sh_auxiliary shared' ∧ sh_databases shared' !! primary = Some w
  | Err _ => all_released primary w shared'
  | Panic => True
  end.
Proof.
  revert shared s. induction paths as [|[requested path] paths IH]; intros shared s Ht Hp Hw; cbn [open_paths].
  { by intros [= <- <- <-]. }
  pose proof (closeAuxiliary_released primary w shared Ht Hp Hw) as Hrel.
  destruct (ParseDriverName requested) as [driver|e|]; [|by intros [= <- <- <-]..].
  case_bool_decide; [by intros [= <- <- <-]|]. case_bool_decide as Hs; [by intros [= <- <- <-]|].
  destruct (open path driver s) as [[db|e|] s1]; [|by intros [= <- <- <-]..].
  assert (driver ≠ primary) as Hne by (intros ->; apply Hs; by rewrite Hw).
  apply IH; cbn.
  - intros name Hname Hsome. cbn. apply elem_of_app. destruct (decide (name = driver)) as [->|].
    + right. constructor.
    + left. apply Ht; [done|]. cbn in Hsome. by rewrite lookup_insert_ne in Hsome.
  - rewrite elem_of_app, list_elem_of_singleton. intros [?|?]; congruence.
  - by rewrite lookup_insert_ne.
Qed.

(** When the server cannot start, because a path, a driver, an open or the
    listener fails, every database it had opened is closed again and the
    caller's own database is left as it was. *)
Theorem failed_start_releases listen (primary : World E) options s e shared s' :
  Serve open listen (Some primary) options s = (Err e, Some shared, s') →
  all_released (db_backend (w_db primary)) primary shared.
Proof.
  unfold Serve. case_bool_decide; [done|]. unfold newSharedDatabases.
  destruct (open_paths _ _ _ _) as [[r shared1] s1] eqn:Ho.
  apply (open_paths_tracked (db_backend (w_db primary)) primary) in Ho.
  - destruct r as [[]|e'|]; [|by intros [= <- <- <-]|done].
    destruct Ho as (Ht & Hp & Hw). destruct listen as [e'|]; [|done]. intros [= <- <- <-].
    by apply closeAuxiliary_released.
  - intros name Hne [w Hw]. cbn in Hw. by rewrite lookup_singleton_ne in Hw.
  - apply not_elem_of_nil.
  - apply lookup_singleton_eq.
Qed.

(** Stopping a server that started closes the databases it opened and leaves
    the caller's open. *)
Theorem server_close_releases listen (primary : World E) options s shared s' shutdown :
  Serve open listen (Some primary) options s = (Ok tt, Some shared, s') →
  all_released (db_backend (w_db primary)) primary (Server_Close shutdown shared).2.
Proof.
  unfold Serve. case_bool_decide; [done|]. unfold newSharedDatabases.
  destruct (open_paths _ _ _ _) as [[r shared1] s1] eqn:Ho.
  apply (open_paths_tracked (db_backend (w_db primary)) primary) in Ho.
  - destruct r as [[]|e'|]; [|done..]. destruct Ho as (Ht & Hp & Hw).
    destruct listen; [done|]. intros [= <- <-]. unfold Server_Close.
    pose proof (closeAuxiliary_released _ _ _ Ht Hp Hw) as Hrel. by destruct (closeAuxiliary shared1).
  - intros name Hne [w Hw]. cbn in Hw. by rewrite lookup_singleton_ne in Hw.
  - apply not_elem_of_nil.
  - apply lookup_singleton_eq.
Qed.
End lifecycle.

(** ** Witnesses *)

Module start_example.
#[local] Existing Instance ascii_GoText.

Definition primary : World memoryDriverEngine := mkWorld (newDB memoryDriver_Open DriverMemory) 0.

(** Opening succeeds, and counts. *)
Definition open (_ driver : bytes) (n : nat) : result (DB memoryDriverEngine) * nat :=
  (Ok (newDB memoryDriver_Open driver), S n).
Definition options : Options := mkOptions [] [] 0 [(DriverBoltDB, ⟦"/b"⟧); (DriverLMDB, ⟦"/l"⟧)] [].
End start_example.

Section witnesses.
Import start_example.
#[local] Existing Instance ascii_GoText.

Lemma failed_start_releases_witness :
  ∃ e shared, Serve open (Some (EExternal ⟦"address in use"⟧)) (Some primary) options 0
              = (Err e, Some shared, 2)
    ∧ all_released DriverMemory primary shared.
Proof.
  eexists _, _. split; [reflexivity|].
  apply (failed_start_releases open (Some (EExternal ⟦"address in use"⟧)) primary options 0 _ _ 2 eq_refl).
Defined.

Lemma server_close_releases_witness :
  ∃ shared, Serve open None (Some primary) options 0 = (Ok tt, Some shared, 2)
    ∧ all_released DriverMemory primary (Server_Close None shared).2.
Proof.
  eexists. split; [reflexivity|].
  apply (server_close_releases open None primary options 0 _ 2 None eq_refl).
Defined.
End witnesses.
