(* ===== verification/PathMatch.v ===== *)
(** * Shell patterns: [path.Match] of the Go standard library

    [KEYS] and [SCAN] select keys with it. The functions follow the library's
    own split of a pattern into chunks between stars; [None] is
    [path.ErrBadPattern]. *)

From S2P Require Import Prelude Utf8.

(** ** Patterns *)

Definition Star : Byte.byte := "*".
Definition Slash : Byte.byte := "/".
Definition Backslash : Byte.byte := "\".
Definition OpenBracket : Byte.byte := "[".
Definition CloseBracket : Byte.byte := "]".
Definition Caret : Byte.byte := "^".
Definition Dash : Byte.byte := "-".
Definition Question : Byte.byte := "?".

(** [getEsc]: a possibly escaped rune of a character class. *)
Definition getEsc (chunk : bytes) : option (Z * bytes) :=
  match chunk with
  | [] => None
  | c :: chunk' =>
      if bool_decide (c = Dash ∨ c = CloseBracket) then None
      else
        let chunk := if bool_decide (c = Backslash) then chunk' else chunk in
        let '(r, n) := DecodeRune chunk in
        if bool_decide (n = 0 ∨ (r = RuneError ∧ n = 1) ∨ drop n chunk = []) then None
        else Some (r, drop n chunk)
  end.

(** The ranges of a character class up to its closing bracket: whether rune
    [r] is in one, and the rest of the chunk. *)
Fixpoint match_ranges (fuel : nat) (r : Z) (nrange : nat) (matched : bool) (chunk : bytes)
    : option (bool * bytes) :=
  match fuel with
  | O => None
  | S fuel =>
      if bool_decide (head chunk = Some CloseBracket ∧ 0 < nrange) then Some (matched, tail chunk)
      else
        '(lo, chunk) ← getEsc chunk;
        '(hi, chunk) ← (if bool_decide (head chunk = Some Dash) then getEsc (tail chunk)
                        else Some (lo, chunk));
        match_ranges fuel r (S nrange) (matched || bool_decide (lo ≤ r ≤ hi)%Z) chunk
  end.

(** [matchChunk]: matches a star-free chunk against a prefix of [s]. The
    outer [None] is a bad pattern; [Some None] is no match; [Some (Some t)]
    leaves [t]. [failed] keeps checking the syntax after a mismatch. *)
Fixpoint match_chunk (fuel : nat) (failed : bool) (chunk s : bytes) : option (option bytes) :=
  match fuel with
  | O => None
  | S fuel =>
      match chunk with
      | [] => Some (if failed then None else Some s)
      | c :: chunk =>
          let failed := failed || bool_decide (s = []) in
          if bool_decide (c = OpenBracket) then
            let '(r, s) := if failed then (0%Z, s)
                           else let '(r, n) := DecodeRune s in (r, drop n s) in
            let negated := bool_decide (head chunk = Some Caret) in
            let chunk := if negated then tail chunk else chunk in
            '(matched, chunk) ← match_ranges (S (length chunk)) r 0 false chunk;
            match_chunk fuel (failed || eqb matched negated) chunk s
          else if bool_decide (c = Question) then
            if failed then match_chunk fuel true chunk s
            else match_chunk fuel (bool_decide (head s = Some Slash)) chunk
                   (drop (DecodeRune s).2 s)
          else
            '(c, chunk) ← (if bool_decide (c = Backslash)
                           then match chunk with [] => None | c :: chunk => Some (c, chunk) end
                           else Some (c, chunk));
            if failed : bool then match_chunk fuel true chunk s
            else match_chunk fuel (bool_decide (head s ≠ Some c)) chunk (tail s)
      end
  end.

Definition matchChunk (chunk s : bytes) : option (option bytes) :=
  match_chunk (S (length chunk)) false chunk s.

Fixpoint skip_stars (pattern : bytes) : bool * bytes :=
  match pattern with
  | c :: rest => if bool_decide (c = Star) then (true, (skip_stars rest).2)
                 else (false, pattern)
  | [] => (false, [])
  end.

(** The chunk up to the next star outside brackets. *)
Fixpoint chunk_until_star (inrange : bool) (pattern : bytes) : bytes * bytes :=
  match pattern with
  | [] => ([], [])
  | c :: rest =>
      if bool_decide (c = Backslash) then
        match rest with
        | d :: rest => let '(chunk, rest) := chunk_until_star inrange rest in
                       (c :: d :: chunk, rest)
        | [] => ([c], [])
        end
      else if bool_decide (c = Star) && negb inrange then ([], pattern)
      else
        let inrange := if bool_decide (c = OpenBracket) then true
                       else if bool_decide (c = CloseBracket) then false else inrange in
        let '(chunk, rest) := chunk_until_star inrange rest in (c :: chunk, rest)
  end.

Definition scanChunk (pattern : bytes) : bool * bytes * bytes :=
  let '(star, pattern) := skip_stars pattern in
  let '(chunk, rest) := chunk_until_star false pattern in
  (star, chunk, rest).

(** The search after a star: the first suffix of [name], skipping one byte or
    more but no slash, that the chunk matches. *)
Fixpoint star_search (chunk : bytes) (last : bool) (name : bytes) : option (option bytes) :=
  match name with
  | [] => Some None
  | c :: name =>
      if bool_decide (c = Slash) then Some None
      else
        r ← matchChunk chunk name;
        match r with
        | Some t => if last && bool_decide (t ≠ []) then star_search chunk last name
                    else Some (Some t)
        | None => star_search chunk last name
        end
  end.

(** The syntax check of the rest of a pattern after a mismatch. *)
Fixpoint check_rest (fuel : nat) (pattern : bytes) : option unit :=
  match fuel, pattern with
  | _, [] => Some ()
  | O, _ => None
  | S fuel, _ =>
      let '(_, chunk, rest) := scanChunk pattern in
      _ ← matchChunk chunk []; check_rest fuel rest
  end.

Fixpoint match_fuel (fuel : nat) (pattern name : bytes) : option bool :=
  match fuel, pattern with
  | _, [] => Some (bool_decide (name = []))
  | O, _ => None
  | S fuel, _ =>
      let '(star, chunk, rest) := scanChunk pattern in
      if star && bool_decide (chunk = []) then Some (bool_decide (Slash ∉ name))
      else
        let mismatch := _ ← check_rest (length rest) rest; Some false in
        r ← matchChunk chunk name;
        match r with
        | Some t =>
            if bool_decide (t = [] ∨ rest ≠ []) then match_fuel fuel rest t
            else if star : bool then
              s ← star_search chunk true name;
              match s with Some t => match_fuel fuel rest t | None => mismatch end
            else mismatch
        | None =>
            if star : bool then
              s ← star_search chunk (bool_decide (rest = [])) name;
              match s with Some t => match_fuel fuel rest t | None => mismatch end
            else mismatch
        end
  end.

Definition path_Match (pattern name : bytes) : option bool :=
  match_fuel (length pattern) pattern name.

Example path_Match_examples :
  path_Match ⟦"user:*"⟧ ⟦"user:17"⟧ = Some true
  ∧ path_Match ⟦"a*c*e"⟧ ⟦"abcde"⟧ = Some true
  ∧ path_Match ⟦"h[ae-g]?lo"⟧ ⟦"hfllo"⟧ = Some true
  ∧ path_Match ⟦"h[^a]llo"⟧ ⟦"hallo"⟧ = Some false
  ∧ path_Match ⟦"a\*b"⟧ ⟦"a*b"⟧ = Some true
  ∧ path_Match ⟦"["⟧ ⟦"x"⟧ = None
  ∧ path_Match ⟦"*"⟧ ⟦"a/b"⟧ = Some false.
Proof. by vm_compute. Qed.
