(* ===== verification/RedisServer.v ===== *)
(** * Key-space commands, dispatch and sessions
      ([extensions/redis/redis_commands.go], end;
       [extensions/redis/redis_server.go])

    The order in which Go ranges over a map is unspecified: it is the
    parameter [map_range]. One command runs between [Lock] and [Unlock] of
    the protocol mutex: a command is one program here, and a critical section
    in [Calls]. *)

From S2P Require Import Prelude Errors Engine Effects Envelope Keys ListCodec Text DriverName DB Collections Transport Resp RedisStorage RedisStrings RedisCollections PathMatch.

Class MapRange := {
  map_range : gset bytes → list bytes;
  map_range_perm : ∀ s, map_range s ≡ₚ elements s
}.

Program Definition elements_MapRange : MapRange := {| map_range := elements |}.
Next Obligation. done. Qed.

Record redisSession := mkSession { authed : bool; session_id : Z; proto : Z }.

Section server.
Context {store : ProtocolStore} {GT : GoText} {MR : MapRange}.
Implicit Types (args : list bytes) (key value : bytes).

(** ** The key space *)

Definition redisLogicalKeys : M (list bytes) :=
  records ← store_Collect [];
  let candidates : gset bytes := list_to_set (omap (λ kv, store_LogicalKey kv.1) records) in
  keys ← for_each (map_range candidates)
    (λ key keys,
       typ ← redisType key;
       mret (if bool_decide (typ ≠ redisTypeNone) then keys ++ [key] else keys)) [];
  mret (sort_strings keys).

Definition redisPatternMatch (pattern value : bytes) : bool :=
  bool_decide (path_Match pattern value = Some true).

Definition redisKeysCommand args : M respValue :=
  match args with
  | [_; pattern] => catching (
      keys ← redisLogicalKeys;
      mret (respArrayValues
              (respBulkString <$> filter (λ key, redisPatternMatch pattern key = true) keys)))
  | _ => mret redisSyntaxError
  end.

(** The option loop of [SCAN]: [inl] is the reply of an early return. *)
Fixpoint parseScanOptions (pattern : bytes) (count : Z) args : respValue + bytes * Z :=
  match args with
  | [] => inr (pattern, count)
  | arg :: rest =>
      let name := strings_ToUpper arg in
      if bool_decide (name = ⟦"MATCH"⟧) then
        match rest with
        | [] => inl redisSyntaxError
        | pattern :: rest => parseScanOptions pattern count rest
        end
      else if bool_decide (name = ⟦"COUNT"⟧) then
        match rest with
        | [] => inl redisSyntaxError
        | arg :: rest =>
            match redisParseNonNegative arg with
            | Ok count => parseScanOptions pattern
                            (if bool_decide (count = 0%Z) then 10%Z else count) rest
            | Err e => inl (redisErrorReply (Some e))
            | Panic => inl redisSyntaxError
            end
        end
      else if bool_decide (name = ⟦"TYPE"⟧) then
        match rest with
        | [] => inl redisSyntaxError
        | _ :: rest => parseScanOptions pattern count rest
        end
      else inl redisSyntaxError
  end.

(** One page of the filtered keys. A negative capacity in [make] and a bad
    slice bound are run-time panics. *)
Definition scan_page (filtered : list bytes) (cursor count : Z) : result respValue :=
  let len := Z.of_nat (length filtered) in
  if bool_decide (len ≤ cursor)%Z
  then Ok (respArrayValues [respBulkString ⟦"0"⟧; respArrayValues []])
  else
    let last := wrap64 (cursor + count) in
    let last := if bool_decide (len < last)%Z then len else last in
    let next := if bool_decide (last < len)%Z then last else 0%Z in
    if bool_decide (wrap64 (last - cursor) < 0 ∨ last < cursor)%Z then Panic
    else Ok (respArrayValues
               [respBulkString (format_int next);
                respArrayValues (respBulkString <$>
                  slice (Z.to_nat cursor) (Z.to_nat last) filtered)]).

Definition redisScan args : M respValue :=
  match args with
  | _ :: cursor :: rest =>
      match redisParseNonNegative cursor with
      | Ok cursor =>
          match parseScanOptions ⟦"*"⟧ 10 rest with
          | inl reply => mret reply
          | inr (pattern, count) => catching (
              keys ← redisLogicalKeys;
              lift (scan_page (filter (λ key, redisPatternMatch pattern key = true) keys)
                      cursor count))
          end
      | Err e => mret (redisErrorReply (Some e))
      | Panic => panic
      end
  | _ => mret redisSyntaxError
  end.

Definition redisDBSize args : M respValue :=
  match args with
  | [_] => catching (
      keys ← redisLogicalKeys; mret (respIntegerValue (Z.of_nat (length keys))))
  | _ => mret redisSyntaxError
  end.

Definition redisFlush args : M respValue :=
  if bool_decide (2 < length args) then mret redisSyntaxError
  else catching (
    records ← store_Collect [];
    _ ← for_each records.*1 (λ storageKey _, store_Delete storageKey) tt;
    mret (respSimpleString ⟦"OK"⟧)).

(** ** Sessions *)

Definition wrongPass : respValue :=
  respErrorString ⟦"WRONGPASS invalid username-password pair or user is disabled."⟧.

Definition noAuth : respValue := respErrorString ⟦"NOAUTH Authentication required."⟧.

Definition redisAuth args (password : bytes) (session : redisSession)
    : respValue * redisSession :=
  if bool_decide (password = [])
  then (respErrorString ⟦"ERR AUTH called without any password configured"⟧, session)
  else
    match match args with
          | [_; supplied] | [_; _; supplied] => Some supplied
          | _ => None
          end with
    | None => (redisSyntaxError, session)
    | Some supplied =>
        if bool_decide (supplied = password)
        then (respSimpleString ⟦"OK"⟧, mkSession true (session_id session) (proto session))
        else (wrongPass, session)
    end.

(** The option loop of [HELLO]: [inl] is the reply of an early return. The
    session may be authenticated before a later option fails. *)
Fixpoint helloOptions (password : bytes) args (session : redisSession)
    : (respValue + unit) * redisSession :=
  match args with
  | [] => (inr (), session)
  | arg :: rest =>
      let name := strings_ToUpper arg in
      if bool_decide (name = ⟦"AUTH"⟧) then
        match rest with
        | _ :: supplied :: rest =>
            if bool_decide (password = [] ∨ supplied ≠ password) then (inl wrongPass, session)
            else helloOptions password rest
                   (mkSession true (session_id session) (proto session))
        | _ => (inl redisSyntaxError, session)
        end
      else if bool_decide (name = ⟦"SETNAME"⟧) then
        match rest with
        | _ :: rest => helloOptions password rest session
        | [] => (inl redisSyntaxError, session)
        end
      else (inl redisSyntaxError, session)
  end.

Definition helloItems (session : redisSession) : list respValue :=
  [respBulkString ⟦"server"⟧; respBulkString ⟦"kvlite"⟧;
   respBulkString ⟦"version"⟧; respBulkString ⟦"0.1.0"⟧;
   respBulkString ⟦"proto"⟧; respIntegerValue 2;
   respBulkString ⟦"id"⟧; respIntegerValue (wrap64 (session_id session));
   respBulkString ⟦"mode"⟧; respBulkString ⟦"standalone"⟧;
   respBulkString ⟦"role"⟧; respBulkString ⟦"master"⟧;
   respBulkString ⟦"modules"⟧; respArrayValues []].

Definition redisHello args (password : bytes) (session : redisSession)
    : respValue * redisSession :=
  match args with
  | [] => (redisSyntaxError, session)
  | _ :: rest =>
      let version := match rest with version :: _ => version | [] => ⟦"2"⟧ end in
      if bool_decide (version ≠ ⟦"2"⟧ ∧ version ≠ ⟦"3"⟧)
      then (respErrorString ⟦"NOPROTO unsupported RESP version"⟧, session)
      else
        match helloOptions password (tail rest) session with
        | (inl reply, session) => (reply, session)
        | (inr _, session) =>
            if bool_decide (password ≠ [] ∧ authed session = false) then (noAuth, session)
            else if bool_decide (version = ⟦"3"⟧)
            then (respMapValues (helloItems session),
                  mkSession (authed session) (session_id session) 3)
            else (respArrayValues (helloItems session),
                  mkSession (authed session) (session_id session) 2)
        end
  end.

Definition redisClient args (session : redisSession) : respValue :=
  match args with
  | _ :: sub :: rest =>
      let name := strings_ToUpper sub in
      if bool_decide (name = ⟦"ID"⟧) then
        if bool_decide (rest = []) then respIntegerValue (wrap64 (session_id session))
        else redisSyntaxError
      else if bool_decide (name ∈ [⟦"SETNAME"⟧; ⟦"SETINFO"⟧; ⟦"NO-EVICT"⟧; ⟦"REPLY"⟧;
                                   ⟦"PAUSE"⟧; ⟦"UNPAUSE"⟧; ⟦"TRACKING"⟧; ⟦"CACHING"⟧])
      then respSimpleString ⟦"OK"⟧
      else respErrorString (⟦"ERR unknown subcommand '"⟧ ++ name ++ ⟦"'"⟧)
  | _ => redisSyntaxError
  end.

Definition redisCommandInfo args : respValue := respArrayValues [].

Definition redisConfig args : respValue :=
  match args with
  | _ :: sub :: _ =>
      if strings_EqualFold sub ⟦"GET"⟧ then respArrayValues []
      else respSimpleString ⟦"OK"⟧
  | _ => redisSyntaxError
  end.

Definition redisInfo args : respValue :=
  if bool_decide (2 < length args) then redisSyntaxError
  else respBulkString
    (⟦"# Server"⟧ ++ CRLF ++ ⟦"redis_version:7.2.0"⟧ ++ CRLF ++
     ⟦"redis_mode:standalone"⟧ ++ CRLF ++ CRLF ++ ⟦"# KVLite"⟧ ++ CRLF ++
     ⟦"kvlite_version:0.1.0"⟧ ++ CRLF).

Definition redisPing args : respValue :=
  match args with
  | [_] => respSimpleString ⟦"PONG"⟧
  | [_; message] => respBulkBytes message
  | _ => redisSyntaxError
  end.

Definition redisTime : M respValue :=
  t ← store_Now;
  mret (respArrayValues
          [respBulkString (format_int (t `div` 1000000000));
           respBulkString (format_int ((t mod 1000000000) `quot` 1000))]).

(** ** Dispatch *)

(** The command table after authentication. *)
Definition redisCommand (command : bytes) args (session : redisSession) : M respValue :=
  let named name := bool_decide (command = name) in
  if named ⟦"PING"⟧ then mret (redisPing args)
  else if named ⟦"ECHO"⟧ then
    mret (match args with [_; message] => respBulkBytes message | _ => redisSyntaxError end)
  else if named ⟦"HELLO"⟧ then mret redisSyntaxError
  else if named ⟦"SELECT"⟧ then
    mret (match args with
          | [_; index] => if bool_decide (index = ⟦"0"⟧) then respSimpleString ⟦"OK"⟧
                          else respErrorString ⟦"ERR DB index is out of range"⟧
          | _ => respErrorString ⟦"ERR DB index is out of range"⟧
          end)
  else if named ⟦"CLIENT"⟧ then mret (redisClient args session)
  else if named ⟦"COMMAND"⟧ then mret (redisCommandInfo args)
  else if named ⟦"ROLE"⟧ then
    mret (respArrayValues [respBulkString ⟦"master"⟧; respArrayValues []])
  else if named ⟦"READONLY"⟧ || named ⟦"READWRITE"⟧ then mret (respSimpleString ⟦"OK"⟧)
  else if named ⟦"GET"⟧ then redisGet args
  else if named ⟦"SET"⟧ then redisSet args
  else if named ⟦"SETNX"⟧ then redisSetNX args
  else if named ⟦"SETEX"⟧ then redisSetEX args false
  else if named ⟦"PSETEX"⟧ then redisSetEX args true
  else if named ⟦"GETSET"⟧ then redisGetSet args
  else if named ⟦"GETDEL"⟧ then redisGetDel args
  else if named ⟦"GETEX"⟧ then redisGetEx args
  else if named ⟦"MGET"⟧ then redisMGet args
  else if named ⟦"MSET"⟧ then redisMSet args
  else if named ⟦"MSETNX"⟧ then redisMSetNX args
  else if named ⟦"STRLEN"⟧ then redisStrLen args
  else if named ⟦"APPEND"⟧ then redisAppend args
  else if named ⟦"INCR"⟧ then redisIncrementCommand args 1
  else if named ⟦"INCRBY"⟧ then redisIncrementByCommand args false
  else if named ⟦"DECR"⟧ then redisIncrementCommand args (-1)
  else if named ⟦"DECRBY"⟧ then redisIncrementByCommand args true
  else if named ⟦"DEL"⟧ || named ⟦"UNLINK"⟧ then redisDelete args
  else if named ⟦"EXISTS"⟧ then redisExists args
  else if named ⟦"TYPE"⟧ then redisTypeCommand args
  else if named ⟦"EXPIRE"⟧ || named ⟦"PEXPIRE"⟧ || named ⟦"EXPIREAT"⟧ || named ⟦"PEXPIREAT"⟧
  then redisExpireCommand args command
  else if named ⟦"TTL"⟧ || named ⟦"PTTL"⟧ then redisTTLCommand args command
  else if named ⟦"PERSIST"⟧ then redisPersistCommand args
  else if named ⟦"HSET"⟧ || named ⟦"HMSET"⟧ then redisHSet args
  else if named ⟦"HGET"⟧ then redisHGet args
  else if named ⟦"HMGET"⟧ then redisHMGet args
  else if named ⟦"HGETALL"⟧ then redisHGetAll args
  else if named ⟦"HDEL"⟧ then redisHDel args
  else if named ⟦"HEXISTS"⟧ then redisHExists args
  else if named ⟦"HLEN"⟧ then redisHLen args
  else if named ⟦"HKEYS"⟧ then redisHKeys args
  else if named ⟦"HVALS"⟧ then redisHVals args
  else if named ⟦"HINCRBY"⟧ then redisHIncrBy args
  else if named ⟦"SADD"⟧ then redisSAdd args
  else if named ⟦"SREM"⟧ then redisSRem args
  else if named ⟦"SISMEMBER"⟧ then redisSIsMember args
  else if named ⟦"SMISMEMBER"⟧ then redisSMIsMember args
  else if named ⟦"SMEMBERS"⟧ then redisSMembers args
  else if named ⟦"SCARD"⟧ then redisSCard args
  else if named ⟦"LPUSH"⟧ || named ⟦"RPUSH"⟧ then redisPush args (named ⟦"LPUSH"⟧)
  else if named ⟦"LPUSHX"⟧ || named ⟦"RPUSHX"⟧ then redisPushX args (named ⟦"LPUSHX"⟧)
  else if named ⟦"LRANGE"⟧ then redisLRange args
  else if named ⟦"LLEN"⟧ then redisLLen args
  else if named ⟦"LPOP"⟧ || named ⟦"RPOP"⟧ then redisPop args (named ⟦"LPOP"⟧)
  else if named ⟦"LTRIM"⟧ then redisLTrim args
  else if named ⟦"SCAN"⟧ then redisScan args
  else if named ⟦"KEYS"⟧ then redisKeysCommand args
  else if named ⟦"DBSIZE"⟧ then redisDBSize args
  else if named ⟦"FLUSHDB"⟧ || named ⟦"FLUSHALL"⟧ then redisFlush args
  else if named ⟦"CONFIG"⟧ then mret (redisConfig args)
  else if named ⟦"INFO"⟧ then mret (redisInfo args)
  else if named ⟦"TIME"⟧ then redisTime
  else mret (respErrorString (⟦"ERR unknown command '"⟧ ++ command ++ ⟦"'"⟧)).

(** The reply, whether the connection ends, and the session afterwards. *)
Definition redisDispatch args (password : bytes) (session : redisSession)
    : M (respValue * bool * redisSession) :=
  match args with
  | [] => panic
  | arg :: _ =>
      let command := strings_ToUpper arg in
      if bool_decide (command = ⟦"HELLO"⟧) then
        let '(reply, session) := redisHello args password session in
        mret (reply, false, session)
      else if bool_decide (command = ⟦"AUTH"⟧) then
        let '(reply, session) := redisAuth args password session in
        mret (reply, false, session)
      else if bool_decide (command = ⟦"QUIT"⟧)
      then mret (respSimpleString ⟦"OK"⟧, true, session)
      else if bool_decide (password ≠ [] ∧ authed session = false)
      then mret (noAuth, false, session)
      else reply ← redisCommand command args session; mret (reply, false, session)
  end.

(** ** Connections *)

(** The argument loop of [redisCommandArgs]. *)
Fixpoint commandArgs (items : list respValue) : result (list bytes) :=
  match items with
  | [] => Ok []
  | item :: items =>
      if resp_null item then Err (ENew ⟦"null command argument"⟧)
      else
        let k := resp_kind item in
        match (if bool_decide (k = respBulk ∨ k = respSimple) then Some (resp_data item)
               else if bool_decide (k = respInteger) then Some (format_int (resp_value item))
               else None) with
        | None => Err (ENew ⟦"command arguments must be strings"⟧)
        | Some arg =>
            match commandArgs items with
            | Ok args => Ok (arg :: args)
            | Err e => Err e
            | Panic => Panic
            end
        end
  end.

Definition redisCommandArgs (request : respValue) : result (list bytes) :=
  if bool_decide (resp_kind request ≠ respArray ∨ resp_null request = true
                  ∨ length (resp_items request) = 0)
  then Err (ENew ⟦"expected a non-empty command array"⟧)
  else commandArgs (resp_items request).

(** [serveRedisConnection] on the bytes a client sends before its connection
    ends with [ending]: the replies flushed to it, in order. The loop makes
    at most one turn per byte; a session ends at a read error, a reply that
    cannot be written, or [QUIT]. *)
Fixpoint serve_loop (ending : GoError) (fuel : nat) (password : bytes)
    (session : redisSession) (input : bytes) : M (list bytes) :=
  match fuel with
  | O => mret []
  | S fuel =>
      match readRESP ending input with
      | Ok (request, input) =>
          match redisCommandArgs request with
          | Err e =>
              match writeRESP (respErrorString (⟦"ERR "⟧ ++ error_text e)) with
              | (_, Some _) => mret []
              | (out, None) =>
                  outs ← serve_loop ending fuel password session input; mret (out :: outs)
              end
          | Ok args =>
              '(reply, quit, session) ← redisDispatch args password session;
              match writeRESP reply with
              | (_, Some _) => mret []
              | (out, None) =>
                  if quit : bool then mret [out]
                  else outs ← serve_loop ending fuel password session input;
                       mret (out :: outs)
              end
          | Panic => panic
          end
      | Err _ => mret []
      | Panic => panic
      end
  end.

Definition serveRedisConnection (ending : GoError) (password : bytes) (session : redisSession)
    (input : bytes) : M (list bytes) :=
  serve_loop ending (S (length input)) password session input.
End server.

(** The session [acceptLoop] creates for the [id]-th connection. *)
Definition newSession (password : bytes) (id : Z) : redisSession :=
  mkSession (bool_decide (password = [])) id 2.
