(* ===== verification/Calls.v ===== *)
(** * The operations of a shared handle with their locks

    Each method of [db.go] and [collections.go], each Redis command and each
    HTTP handler as the [call] a goroutine executes: what it does before it
    takes a mutex, and the section it holds it for. A method whose code takes
    no mutex is [unlocked]. With the locks forgotten every call is the
    sequential definition of the same operation. *)

From S2P Require Import Prelude Errors Engine Effects Locks Serial Envelope Keys ListCodec Text DriverName DB Collections Transport Resp RedisStorage RedisStrings RedisCollections Json Base64 Http PathMatch RedisServer.

(** ** [db.go] *)

Definition call_PutStoredValue (key codec value : bytes) (options : list (option PutOption))
    : call (result unit) :=
  if bool_decide (key = []) then Return (Err keyRequired)
  else if bool_decide (codec = [])
  then Return (Err (errorf ErrInvalidArgument ⟦"codec is required"⟧))
  else checking ensureOpen (λ _,
    holding protocolMu
      (cfg ← lift (applyPutOptions (mkPutConfig 0) options);
       encoded ← encodePayload codec value (put_ttl cfg);
       replaceLogicalValue key encoded)).

Definition call_GetStoredValue (key : bytes) : call (result StoredValue) :=
  if bool_decide (key = []) then Return (Err keyRequired)
  else checking ensureOpen (λ _,
    holding protocolMu
      (let storageKey := valueKey key in
       data ← map_err (wrapf ⟦"kvlite: get: "⟧) (engineGet storageKey);
       match data with
       | None => throw ErrNotFound
       | Some data =>
           value ← lift (unmarshalEnvelope data);
           expired ← isExpired (env_expiresAt value);
           if expired : bool then
             _ ← ignore (engineDelete storageKey);
             throw ErrNotFound
           else mret (mkStored (env_codec value) (env_payload value) (env_expiresAt value))
       end)).

Definition call_Has (key : bytes) : call (result bool) :=
  if bool_decide (key = []) then Return (Err keyRequired)
  else checking ensureOpen (λ _,
    holding protocolMu
      (let storageKey := valueKey key in
       data ← engineGet storageKey;
       match data with
       | None => mret false
       | Some data =>
           value ← lift (unmarshalEnvelope data);
           expired ← isExpired (env_expiresAt value);
           if expired : bool then
             _ ← ignore (engineDelete storageKey);
             mret false
           else mret true
       end)).

Definition call_Delete (key : bytes) : call (result unit) :=
  if bool_decide (key = []) then Return (Err keyRequired)
  else checking ensureOpen (λ _,
    holding protocolMu
      (_ ← map_err (wrapf ⟦"kvlite: delete: "⟧) (deleteLogicalKey key);
       mret tt)).

(** ** [collections.go] *)

Definition call_when_open (body : call (result counted)) : call (result counted) :=
  checking (attempt ensureOpen) (λ o,
    match o with
    | inl e => Return (Ok (0%Z, Some e))
    | inr _ => body
    end).

(** The owner-side operation is tried before the mutex is taken. *)
Definition call_owner_side (remote : M Z) (unsupported : sentinel) (local : M counted)
    : call (result counted) :=
  checking (attempt remote) (λ r,
    match r with
    | inr n => Return (Ok (n, None))
    | inl e => if errors_Is e unsupported then holding protocolMu local
               else Return (Ok (0%Z, Some e))
    end).

Definition call_HDelete (name : bytes) (fields : list bytes) : call (result counted) :=
  call_when_open
    (call_owner_side (engineDeleteHashFields name fields) errAtomicHashDeleteUnsupported
       (count_loop (HDelete_step name) fields 0)).

Definition call_SAdd (name : bytes) (members : list bytes) : call (result counted) :=
  call_when_open
    (call_owner_side (engineAddSet name members) errAtomicSetAddUnsupported
       (count_loop (SAdd_step name) members 0)).

Definition call_SRemove (name : bytes) (members : list bytes) : call (result counted) :=
  call_when_open
    (call_owner_side (engineRemoveSet name members) errAtomicSetRemoveUnsupported
       (count_loop (SRemove_step name) members 0)).

(** The one section of [collectionMu]. *)
Definition call_pushEncodedList (key : bytes) (encoded : list bytes) (onLeft : bool)
    : call (result Z) :=
  checking (attempt (enginePushList key encoded onLeft)) (λ r,
    match r with
    | inr length => Return (Ok length)
    | inl e =>
        if errors_Is e errAtomicListPushUnsupported then
          holding collectionMu
            (items ← readList key;
             let items := if onLeft then encoded ++ items else items ++ encoded in
             _ ← writeList key items;
             mret (Z.of_nat (length items)))
        else Return (Err e)
    end).

Section typed.
Context {X Y : Type} (cfg : config X Y).
Implicit Types (value : goValue X) (target : goTarget Y).

Definition call_Put (key : bytes) value (options : list (option PutOption)) : call (result unit) :=
  if bool_decide (key = []) then Return (Err keyRequired)
  else checking ensureOpen (λ _,
    holding protocolMu
      (encoded ← encodeValue cfg value options;
       replaceLogicalValue key encoded)).

Definition call_get (storageKey : bytes) target : call (result (goValue X)) :=
  checking ensureOpen (λ _,
    holding protocolMu
      (data ← map_err (wrapf ⟦"kvlite: get: "⟧) (engineGet storageKey);
       match data with
       | None => throw ErrNotFound
       | Some data =>
           r ← attempt (decode cfg data target);
           match r with
           | inr v => mret v
           | inl e =>
               _ ← (if errors_Is e ErrNotFound then ignore (engineDelete storageKey)
                    else mret tt);
               throw e
           end
       end)).

Definition call_Get (key : bytes) target : call (result (goValue X)) :=
  if bool_decide (key = []) then Return (Err keyRequired)
  else call_get (valueKey key) target.

Definition call_HGet (name field : bytes) target : call (result (goValue X)) :=
  call_get (namespacedKey kindHash name field) target.

(** [HSet], [HGetAll], [SContains], [SMembers] and [LRange] take no mutex. *)
Definition call_HSet (name field : bytes) value (options : list (option PutOption))
    : call (result unit) :=
  unlocked (HSet cfg name field value options).

Definition call_HGetAll (name : bytes) (elem : option (goTarget Y))
    : call (result (gmap bytes (goValue X))) :=
  unlocked (HGetAll cfg name elem).

Definition call_LRange (name : bytes) (start stop : Z) (elem : option (goTarget Y))
    : call (result (list (goValue X))) :=
  unlocked (LRange cfg name start stop elem).

Definition call_push (name : bytes) (onLeft : bool) (values : list (goValue X)) : call (result Z) :=
  checking ensureOpen (λ _,
    checking (lift (encode_values cfg values)) (λ encoded,
      call_pushEncodedList (listKey name) encoded onLeft)).
End typed.

Definition call_SContains (name member : bytes) : call (result bool) :=
  unlocked (SContains name member).

Definition call_SMembers (name : bytes) : call (result (list bytes * option GoError)) :=
  unlocked (SMembers name).

(** ** [transport.go] *)

(** [store.Lock(); ...; store.Unlock()]. *)
Definition between_locks {A} (body : prog A) : call A := holding protocolMu body.

Definition call_transport_PushList (key : bytes) (items : list bytes) (onLeft : bool)
    : call (result Z) :=
  checking ensureOpen (λ _, call_pushEncodedList key items onLeft).

(** ** Redis commands *)

Section server.
Context {GT : GoText} {MR : MapRange}.
Implicit Types (header : list (bytes * bytes)) (request : Request) (key : bytes).

Definition call_redisDispatch (args : list bytes) (password : bytes) (session : redisSession)
    : call (result (respValue * bool * redisSession)) :=
  between_locks (redisDispatch args password session).

(** ** HTTP handlers *)

(** [x, err := f(); if err != nil { failed(err); return }], [f] a method that
    may take a mutex of its own. *)
Definition call_or_respond {A} (c : call (result A)) (failed : GoError → Response)
    (done : A → Response) : call (result Response) :=
  call_bind (λ r, Return (match r with
                          | Ok a => Ok (done a)
                          | Err e => Ok (failed e)
                          | Panic => Panic
                          end)) c.

Definition call_handleKV (maxRequestBytes : Z) header request (value : bytes)
    : call (result Response) :=
  match base64_decode true value with
  | None => Return (Ok (http_Error header ⟦"invalid key"⟧ 400))
  | Some key =>
      if bool_decide (req_Method request = MethodGet) then
        call_or_respond (between_locks (transport_Get key)) (server_error header) (λ found,
          match found with
          | None => http_Error header ⟦"not found"⟧ 404
          | Some value => http_OK header ⟦"application/octet-stream"⟧ value
          end)
      else if bool_decide (req_Method request = MethodPut) then
        match read_body maxRequestBytes request with
        | None => Return (Ok (http_Error header ⟦"invalid or oversized body"⟧ 413))
        | Some value =>
            call_or_respond (unlocked (transport_Put key value)) (server_error header)
              (λ _, no_content header)
        end
      else if bool_decide (req_Method request = MethodDelete) then
        call_or_respond (unlocked (transport_Delete key)) (server_error header)
          (λ _, no_content header)
      else Return (Ok (method_not_allowed header))
  end.

Definition call_handleLogical (maxRequestBytes : Z) header request (value : bytes)
    : call (result Response) :=
  match base64_decode true value with
  | None | Some [] => Return (Ok (http_Error header ⟦"invalid key"⟧ 400))
  | Some key =>
      match read_body maxRequestBytes request with
      | None => Return (Ok (http_Error header ⟦"invalid or oversized value"⟧ 413))
      | Some encoded =>
          match store_DecodeRecord encoded with
          | Panic => Return Panic
          | Err _ => Return (Ok (http_Error header ⟦"invalid value envelope"⟧ 400))
          | Ok _ =>
              between_locks
                (or_respond (store_DeleteLogicalKey key) (server_error header) (λ _,
                 or_respond (store_Put (store_ValueKey key) encoded) (server_error header) (λ _,
                   mret (no_content header))))
          end
      end
  end.

Definition call_handlePush (maxRequestBytes : Z) header request (value : bytes)
    : call (result Response) :=
  match base64_decode true value with
  | None => Return (Ok (http_Error header ⟦"invalid key"⟧ 400))
  | Some key =>
      match read_body maxRequestBytes request with
      | None => Return (Ok (http_Error header ⟦"invalid or oversized body"⟧ 413))
      | Some data =>
          match decodeList data with
          | Panic => Return Panic
          | Err e => Return (Ok (http_Error header (error_text e) 400))
          | Ok newItems =>
              call_or_respond
                (call_transport_PushList key newItems
                   (bool_decide (query_get ⟦"left"⟧ (req_RawQuery request) = ⟦"1"⟧)))
                (server_error header)
                (λ length, http_OK header json_type (count_body ⟦"length"⟧ length))
          end
      end
  end.

Definition call_handleItems (maxRequestBytes : Z) (what items_name reply : bytes)
    (operation : bytes → list bytes → call (result counted)) header request
    : call (result Response) :=
  match base64_decode true (query_get ⟦"name"⟧ (req_RawQuery request)) with
  | None => Return (Ok (http_Error header (⟦"invalid "⟧ ++ what ++ ⟦" name"⟧) 400))
  | Some name =>
      match readStringItems maxRequestBytes request with
      | None => Return (Ok (http_Error header (⟦"invalid or oversized "⟧ ++ items_name) 400))
      | Some items =>
          call_bind (λ r, Return (match r with
                                  | Ok (n, Some e) => Ok (server_error header e)
                                  | Ok (n, None) => Ok (http_OK header json_type (count_body reply n))
                                  | Err e => Err e
                                  | Panic => Panic
                                  end)) (operation name items)
      end
  end.

Definition call_handleJSONEntry (maxRequestBytes : Z) header request (value : bytes)
    : call (result Response) :=
  match base64_decode true value with
  | None | Some [] => Return (Ok (http_Error header ⟦"invalid key"⟧ 400))
  | Some key =>
      if bool_decide (req_Method request = MethodGet) then
        call_or_respond (call_GetStoredValue key)
          (λ e, if errors_Is e ErrNotFound then http_Error header ⟦"not found"⟧ 404
                else http_Error header ⟦"invalid stored value"⟧ 500)
          (λ value,
             if bool_decide (stored_Codec value ≠ ⟦"json"⟧)
             then http_Error header ⟦"stored value is not JSON"⟧ 415
             else
               let header := header_set ⟦"Content-Type"⟧ json_type header in
               mkResponse 200
                 (if bool_decide (0 < stored_ExpiresAt value)%Z
                  then header_set ⟦"X-KVLite-Expires-At"⟧ (format_int (stored_ExpiresAt value)) header
                  else header)
                 (stored_Payload value))
      else if bool_decide (req_Method request = MethodPut) then
        let invalid := Return (Ok (http_Error header
          ⟦"request body must be valid JSON and within the size limit"⟧ 400)) in
        match read_body maxRequestBytes request with
        | None => invalid
        | Some payload =>
            if negb (json_Valid payload) then invalid
            else match parseTTLQuery (query_get ⟦"ttl_seconds"⟧ (req_RawQuery request)) with
                 | Panic => Return Panic
                 | Err e => Return (Ok (http_Error header (error_text e) 400))
                 | Ok putOptions =>
                     call_or_respond (call_PutStoredValue key ⟦"json"⟧ payload putOptions)
                       (server_error header) (λ _, no_content header)
                 end
        end
      else if bool_decide (req_Method request = MethodDelete) then
        call_or_respond (call_Delete key) (server_error header) (λ _, no_content header)
      else Return (Ok (method_not_allowed header))
  end.

Definition call_handle (maxRequestBytes : Z) (index : jvalue) header request (ep : endpoint)
    (values : list bytes) : call (result Response) :=
  let value := default [] (head values) in
  match ep with
  | EpIndex => Return (Ok (http_OK header json_type (encode_line index)))
  | EpHealth => Return (Ok (http_OK header json_type health_body))
  | EpEntries => call_handleJSONEntry maxRequestBytes header request value
  | EpKv => call_handleKV maxRequestBytes header request value
  | EpLogical => call_handleLogical maxRequestBytes header request value
  | EpScan => unlocked (handleScan header request)
  | EpPush => call_handlePush maxRequestBytes header request value
  | EpSetAdd =>
      call_handleItems maxRequestBytes ⟦"set"⟧ ⟦"members"⟧ ⟦"added"⟧ call_SAdd header request
  | EpSetRemove =>
      call_handleItems maxRequestBytes ⟦"set"⟧ ⟦"members"⟧ ⟦"removed"⟧ call_SRemove header request
  | EpHashDelete =>
      call_handleItems maxRequestBytes ⟦"hash"⟧ ⟦"fields"⟧ ⟦"deleted"⟧ call_HDelete header request
  end.
End server.

(** ** The calls with their locks forgotten *)

Lemma erase_map {A B} (f : A → B) (c : call A) (p : prog A) :
  erase c ≡p p → erase (call_bind (λ a, Return (f a)) c) ≡p prog_bind (λ a, Ret (f a)) p.
Proof. intros Hc. rewrite erase_bind. by rewrite Hc. Qed.

Lemma erase_or_respond {A} (c : call (result A)) (p : M A) failed done :
  erase c ≡p p →
  erase (call_or_respond c failed done) ≡p or_respond p failed (λ a, mret (done a)).
Proof.
  intros Hc. unfold call_or_respond, or_respond, attempt, mbind, M_bind.
  rewrite (erase_map _ c p Hc), prog_bind_assoc. f_equiv. by intros [].
Qed.

Create HintDb erasure.
#[export] Hint Resolve erase_holding erase_unlocked : erasure.

(** Walk over the guards of a method to its section. *)
Ltac erase_call :=
  repeat first
    [ reflexivity
    | solve [eauto with erasure]
    | apply erase_or_respond
    | apply erase_checking; intros ?
    | progress (intros; cbv zeta)
    | case_match ].

Lemma erase_PutStoredValue key codec value options :
  erase (call_PutStoredValue key codec value options) ≡p PutStoredValue key codec value options.
Proof. unfold call_PutStoredValue, PutStoredValue. erase_call. Qed.

Lemma erase_GetStoredValue key : erase (call_GetStoredValue key) ≡p GetStoredValue key.
Proof. unfold call_GetStoredValue, GetStoredValue. erase_call. Qed.

Lemma erase_Has key : erase (call_Has key) ≡p Has key.
Proof. unfold call_Has, Has. erase_call. Qed.

Lemma erase_Delete key : erase (call_Delete key) ≡p DB.Delete key.
Proof. unfold call_Delete, DB.Delete. erase_call. Qed.

Lemma erase_when_open c p : erase c ≡p p → erase (call_when_open c) ≡p when_open p.
Proof. intros Hc. unfold call_when_open, when_open. erase_call. Qed.

Lemma erase_owner_side remote unsupported local :
  erase (call_owner_side remote unsupported local) ≡p owner_side remote unsupported local.
Proof. unfold call_owner_side, owner_side. erase_call. Qed.

#[export] Hint Resolve erase_PutStoredValue erase_GetStoredValue erase_Delete
  erase_when_open erase_owner_side : erasure.

Lemma erase_HDelete name fields : erase (call_HDelete name fields) ≡p HDelete name fields.
Proof. unfold call_HDelete, HDelete. eauto with erasure. Qed.

Lemma erase_SAdd name members : erase (call_SAdd name members) ≡p SAdd name members.
Proof. unfold call_SAdd, SAdd. eauto with erasure. Qed.

Lemma erase_SRemove name members : erase (call_SRemove name members) ≡p SRemove name members.
Proof. unfold call_SRemove, SRemove. eauto with erasure. Qed.

Lemma erase_pushEncodedList key encoded onLeft :
  erase (call_pushEncodedList key encoded onLeft) ≡p pushEncodedList key encoded onLeft.
Proof. unfold call_pushEncodedList, pushEncodedList. erase_call. Qed.

#[export] Hint Resolve erase_HDelete erase_SAdd erase_SRemove erase_pushEncodedList : erasure.

Lemma erase_transport_PushList key items onLeft :
  erase (call_transport_PushList key items onLeft) ≡p transport_PushList key items onLeft.
Proof. unfold call_transport_PushList, transport_PushList. erase_call. Qed.

#[export] Hint Resolve erase_transport_PushList : erasure.

Section erase_typed.
Context {X Y : Type} (cfg : config X Y).

Lemma erase_Put key value options :
  erase (call_Put cfg key value options) ≡p Put cfg key value options.
Proof. unfold call_Put, Put. erase_call. Qed.

Lemma erase_get storageKey target : erase (call_get cfg storageKey target) ≡p get cfg storageKey target.
Proof. unfold call_get, get. erase_call. Qed.

Lemma erase_Get key target : erase (call_Get cfg key target) ≡p Get cfg key target.
Proof. unfold call_Get, Get. case_match; [reflexivity|apply erase_get]. Qed.

Lemma erase_push name onLeft values :
  erase (call_push cfg name onLeft values) ≡p push cfg name onLeft values.
Proof. unfold call_push, push. erase_call. Qed.
End erase_typed.

#[export] Hint Resolve erase_Put erase_get erase_Get erase_push : erasure.

Section erase_http.
Context {GT : GoText} {MR : MapRange}.
Implicit Types (header : list (bytes * bytes)) (request : Request).

Lemma erase_handleKV maxRequestBytes header request value :
  erase (call_handleKV maxRequestBytes header request value)
  ≡p handleKV maxRequestBytes header request value.
Proof. unfold call_handleKV, handleKV, between_locks. erase_call. Qed.

Lemma erase_handleLogical maxRequestBytes header request value :
  erase (call_handleLogical maxRequestBytes header request value)
  ≡p handleLogical maxRequestBytes header request value.
Proof. unfold call_handleLogical, handleLogical, between_locks. erase_call. Qed.

Lemma erase_handlePush maxRequestBytes header request value :
  erase (call_handlePush maxRequestBytes header request value)
  ≡p handlePush maxRequestBytes header request value.
Proof. unfold call_handlePush, handlePush. erase_call. Qed.

Lemma erase_handleItems maxRequestBytes what items_name reply c operation header request :
  (∀ name items, erase (c name items) ≡p operation name items) →
  erase (call_handleItems maxRequestBytes what items_name reply c header request)
  ≡p handleItems maxRequestBytes what items_name reply operation header request.
Proof.
  intros Hc. unfold call_handleItems, handleItems. case_match; [|reflexivity].
  case_match; [|reflexivity]. rewrite erase_map by apply Hc. unfold mbind, M_bind. f_equiv.
  by intros [[n [e|]]| |].
Qed.

Lemma erase_handleJSONEntry maxRequestBytes header request value :
  erase (call_handleJSONEntry maxRequestBytes header request value)
  ≡p handleJSONEntry maxRequestBytes header request value.
Proof. unfold call_handleJSONEntry, handleJSONEntry. erase_call. Qed.

Lemma erase_handle maxRequestBytes index header request ep values :
  erase (call_handle maxRequestBytes index header request ep values)
  ≡p Http.handle maxRequestBytes index header request ep values.
Proof.
  destruct ep; cbn -[handleScan]; try reflexivity;
    auto using erase_handleJSONEntry, erase_handleKV, erase_handleLogical, erase_handlePush,
      erase_unlocked, erase_handleItems, erase_SAdd, erase_SRemove, erase_HDelete.
Qed.
End erase_http.
