(* ===== verification/CallProps.v ===== *)
(** * Goroutines that share a handle

    The requests goroutines make of one handle, through the Go API, the Redis
    server and the HTTP server. Requests that work under [protocolMu], and
    typed pushes under [collectionMu], are serializable; no request deadlocks
    or runs for ever. A connection of the Redis server is a client of this
    kind. *)

From S2P Require Import Prelude Errors Engine Effects MemDriver Locks Serial Envelope Keys ListCodec Text DriverName DB DBTheorems Collections Transport Resp RedisStorage RedisStrings RedisCollections Json Base64 Http PathMatch RedisServer Calls.

Section requests.
Context {X Y : Type} (cfg : config X Y) {GT : GoText} {MR : MapRange}.

(** ** Requests and replies *)

Inductive request :=
  | RqPut (key : bytes) (value : goValue X) (options : list (option PutOption))
  | RqPutStoredValue (key codec value : bytes) (options : list (option PutOption))
  | RqGetStoredValue (key : bytes)
  | RqGet (key : bytes) (target : goTarget Y)
  | RqHas (key : bytes)
  | RqDelete (key : bytes)
  | RqHSet (name field : bytes) (value : goValue X) (options : list (option PutOption))
  | RqHGet (name field : bytes) (target : goTarget Y)
  | RqHDelete (name : bytes) (fields : list bytes)
  | RqHGetAll (name : bytes) (elem : option (goTarget Y))
  | RqSAdd (name : bytes) (members : list bytes)
  | RqSRemove (name : bytes) (members : list bytes)
  | RqSContains (name member : bytes)
  | RqSMembers (name : bytes)
  | RqPush (name : bytes) (onLeft : bool) (values : list (goValue X))
  | RqLRange (name : bytes) (start stop : Z) (elem : option (goTarget Y))
  | RqRedis (args : list bytes) (password : bytes) (session : redisSession)
  | RqHttp (maxRequestBytes : Z) (index : jvalue) (header : list (bytes * bytes))
      (request : Request) (ep : endpoint) (values : list bytes).

Inductive reply :=
  | RpUnit (r : result unit)
  | RpStored (r : result StoredValue)
  | RpValue (r : result (goValue X))
  | RpBool (r : result bool)
  | RpCounted (r : result counted)
  | RpFields (r : result (gmap bytes (goValue X)))
  | RpMembers (r : result (list bytes * option GoError))
  | RpLength (r : result Z)
  | RpItems (r : result (list (goValue X)))
  | RpRedis (r : result (respValue * bool * redisSession))
  | RpHttp (r : result Response).

Definition replying {A} (f : A → reply) (c : call A) : call reply :=
  call_bind (λ a, Return (f a)) c.

Definition yielding {A} (f : A → reply) (p : prog A) : prog reply :=
  prog_bind (λ a, Ret (f a)) p.

Definition answer (rq : request) : call reply :=
  match rq with
  | RqPut key value options => replying RpUnit (call_Put cfg key value options)
  | RqPutStoredValue key codec value options =>
      replying RpUnit (call_PutStoredValue key codec value options)
  | RqGetStoredValue key => replying RpStored (call_GetStoredValue key)
  | RqGet key target => replying RpValue (call_Get cfg key target)
  | RqHas key => replying RpBool (call_Has key)
  | RqDelete key => replying RpUnit (call_Delete key)
  | RqHSet name field value options => replying RpUnit (call_HSet cfg name field value options)
  | RqHGet name field target => replying RpValue (call_HGet cfg name field target)
  | RqHDelete name fields => replying RpCounted (call_HDelete name fields)
  | RqHGetAll name elem => replying RpFields (call_HGetAll cfg name elem)
  | RqSAdd name members => replying RpCounted (call_SAdd name members)
  | RqSRemove name members => replying RpCounted (call_SRemove name members)
  | RqSContains name member => replying RpBool (call_SContains name member)
  | RqSMembers name => replying RpMembers (call_SMembers name)
  | RqPush name onLeft values => replying RpLength (call_push cfg name onLeft values)
  | RqLRange name start stop elem => replying RpItems (call_LRange cfg name start stop elem)
  | RqRedis args password session => replying RpRedis (call_redisDispatch args password session)
  | RqHttp maxRequestBytes index header request ep values =>
      replying RpHttp (call_handle maxRequestBytes index header request ep values)
  end.

(** The same requests made by the only goroutine. *)
Definition sequential (rq : request) : prog reply :=
  match rq with
  | RqPut key value options => yielding RpUnit (Put cfg key value options)
  | RqPutStoredValue key codec value options =>
      yielding RpUnit (PutStoredValue key codec value options)
  | RqGetStoredValue key => yielding RpStored (GetStoredValue key)
  | RqGet key target => yielding RpValue (Get cfg key target)
  | RqHas key => yielding RpBool (Has key)
  | RqDelete key => yielding RpUnit (DB.Delete key)
  | RqHSet name field value options => yielding RpUnit (HSet cfg name field value options)
  | RqHGet name field target => yielding RpValue (HGet cfg name field target)
  | RqHDelete name fields => yielding RpCounted (HDelete name fields)
  | RqHGetAll name elem => yielding RpFields (HGetAll cfg name elem)
  | RqSAdd name members => yielding RpCounted (SAdd name members)
  | RqSRemove name members => yielding RpCounted (SRemove name members)
  | RqSContains name member => yielding RpBool (SContains name member)
  | RqSMembers name => yielding RpMembers (SMembers name)
  | RqPush name onLeft values => yielding RpLength (push cfg name onLeft values)
  | RqLRange name start stop elem => yielding RpItems (LRange cfg name start stop elem)
  | RqRedis args password session => yielding RpRedis (redisDispatch args password session)
  | RqHttp maxRequestBytes index header request ep values =>
      yielding RpHttp (Http.handle maxRequestBytes index header request ep values)
  end.

(** The requests that keep to [mu]. Those that take no mutex at all, and the
    writes of [/v1/kv], keep to none. *)
Definition keeps_to (mu : mutex) (rq : request) : bool :=
  match rq with
  | RqPut _ _ _ | RqPutStoredValue _ _ _ _ | RqGetStoredValue _ | RqGet _ _ | RqHas _
  | RqDelete _ | RqHGet _ _ _ | RqHDelete _ _ | RqSAdd _ _ | RqSRemove _ _
  | RqRedis _ _ _ => bool_decide (mu = protocolMu)
  | RqPush _ _ _ => bool_decide (mu = collectionMu)
  | RqHttp _ _ _ request ep _ =>
      match ep with
      | EpIndex | EpHealth => true
      | EpEntries | EpLogical | EpSetAdd | EpSetRemove | EpHashDelete =>
          bool_decide (mu = protocolMu)
      | EpKv => bool_decide (mu = protocolMu)
                && bool_decide (req_Method request ≠ MethodPut)
                && bool_decide (req_Method request ≠ MethodDelete)
      | EpPush => bool_decide (mu = collectionMu)
      | EpScan => false
      end
  | RqHSet _ _ _ _ | RqHGetAll _ _ | RqSContains _ _ | RqSMembers _ | RqLRange _ _ _ _ => false
  end.

(** ** Lemmas *)

Lemma answer_erase rq : erase (answer rq) ≡p sequential rq.
Proof.
  destruct rq; apply erase_map; eauto with erasure; apply erase_Has || apply erase_handle.
Qed.

Lemma quiet_ensureOpen : quiet ensureOpen.
Proof. split; [done|]. by intros []. Qed.

Lemma quiet_attempt_ensureOpen : quiet (attempt ensureOpen).
Proof. split; [done|]. by intros []. Qed.

Lemma quiet_lift {A} (r : result A) : quiet (lift r).
Proof. done. Qed.

Ltac sectioned_call :=
  repeat first
    [ apply sectioned_Return
    | apply sectioned_holding
    | apply sectioned_map
    | apply sectioned_checking;
        [first [ apply quiet_ensureOpen | apply quiet_attempt_ensureOpen | apply quiet_lift
               | by split ]|intros]
    | progress cbv zeta
    | case_match ].

Lemma sectioned_db_calls :
  (∀ key value options, sectioned protocolMu (call_Put cfg key value options))
  ∧ (∀ key codec value options, sectioned protocolMu (call_PutStoredValue key codec value options))
  ∧ (∀ key, sectioned protocolMu (call_GetStoredValue key))
  ∧ (∀ key target, sectioned protocolMu (call_Get cfg key target))
  ∧ (∀ key, sectioned protocolMu (call_Has key))
  ∧ (∀ key, sectioned protocolMu (call_Delete key))
  ∧ (∀ name field target, sectioned protocolMu (call_HGet cfg name field target)).
Proof.
  unfold call_Put, call_PutStoredValue, call_GetStoredValue, call_Get, call_Has, call_Delete,
    call_HGet, call_get.
  split_and!; intros; sectioned_call.
Qed.

Lemma sectioned_counting :
  (∀ name fields, sectioned protocolMu (call_HDelete name fields))
  ∧ (∀ name members, sectioned protocolMu (call_SAdd name members))
  ∧ (∀ name members, sectioned protocolMu (call_SRemove name members)).
Proof.
  unfold call_HDelete, call_SAdd, call_SRemove, call_when_open, call_owner_side.
  split_and!; intros; sectioned_call.
Qed.

Lemma sectioned_pushEncodedList key encoded onLeft :
  sectioned collectionMu (call_pushEncodedList key encoded onLeft).
Proof. unfold call_pushEncodedList. sectioned_call. Qed.

Lemma sectioned_handle mu maxRequestBytes index header request ep values :
  keeps_to mu (RqHttp maxRequestBytes index header request ep values) = true →
  sectioned mu (call_handle maxRequestBytes index header request ep values).
Proof.
  destruct sectioned_db_calls as (_ & Hput & Hget & _ & _ & Hdel & _).
  destruct sectioned_counting as (Hhd & Hsa & Hsr).
  destruct ep; cbn; intros Hmu;
    rewrite ?andb_true_iff, ?bool_decide_eq_true in Hmu; destruct_and?; subst; try done;
    unfold call_handleJSONEntry, call_handleKV, call_handleLogical, call_handlePush,
      call_handleItems, call_or_respond, between_locks, call_transport_PushList;
    sectioned_call; auto using sectioned_pushEncodedList.
  all: exfalso;
    repeat match goal with H : bool_decide _ = true |- _ => apply bool_decide_eq_true in H end; done.
Qed.

Lemma answer_sectioned mu rq : keeps_to mu rq = true → sectioned mu (answer rq).
Proof.
  destruct sectioned_db_calls as (? & ? & ? & ? & ? & ? & ?).
  destruct sectioned_counting as (? & ? & ?).
  destruct rq; intros Hmu; apply sectioned_map; try by apply sectioned_handle.
  all: cbn in Hmu; try done; apply bool_decide_eq_true in Hmu as ->; auto.
  - unfold call_push. sectioned_call.
  - apply sectioned_holding.
Qed.
End requests.

(** ** Connections of the Redis server *)

Section connections.
Context {X Y : Type} {GT : GoText} {MR : MapRange}.

(** [serveRedisConnection] as a client: it locks the store for one command at
    a time; reading requests and writing replies happen outside the lock. *)
Fixpoint connection (ending : GoError) (fuel : nat) (password : bytes) (session : redisSession)
    (input : bytes) (outs : list bytes)
    : script (@request X Y) (@reply X) (result (list bytes)) :=
  match fuel with
  | O => Finish (Ok outs)
  | S fuel =>
      match readRESP ending input with
      | Ok (request, input) =>
          match redisCommandArgs request with
          | Err e =>
              match writeRESP (respErrorString (⟦"ERR "⟧ ++ error_text e)) with
              | (_, Some _) => Finish (Ok outs)
              | (out, None) => connection ending fuel password session input (outs ++ [out])
              end
          | Ok args =>
              Issue (RqRedis args password session) (λ rep,
                match rep with
                | RpRedis (Ok (reply, quit, session)) =>
                    match writeRESP reply with
                    | (_, Some _) => Finish (Ok outs)
                    | (out, None) =>
                        if quit : bool then Finish (Ok (outs ++ [out]))
                        else connection ending fuel password session input (outs ++ [out])
                    end
                | RpRedis (Err e) => Finish (Err e)
                | _ => Finish Panic
                end)
          | Panic => Finish Panic
          end
      | Err _ => Finish (Ok outs)
      | Panic => Finish Panic
      end
  end.

(** Alone, a connection is [serve_loop]. *)
Lemma connection_erase (cfg : config X Y) ending fuel password session input outs :
  erase (client (answer cfg) (connection ending fuel password session input outs))
  ≡p (l ← serve_loop ending fuel password session input; mret (outs ++ l)).
Proof.
  revert session input outs. induction fuel as [|fuel IH]; intros session input outs;
    cbn [connection serve_loop].
  { cbn. by rewrite app_nil_r. }
  destruct (readRESP ending input) as [[request input']|e|]; [|by cbn; rewrite app_nil_r|done].
  destruct (redisCommandArgs request) as [args|e|]; [| |done].
  - cbn [client]. rewrite erase_bind, answer_erase. cbn [sequential]. unfold yielding.
    rewrite prog_bind_assoc. unfold mbind, M_bind. rewrite prog_bind_assoc. f_equiv.
    intros [[[reply quit] session']|e|]; cbn [prog_bind]; [|done..].
    destruct (writeRESP reply) as [out [e|]]; [by cbn; rewrite app_nil_r|].
    destruct quit; [done|]. rewrite IH. unfold mbind, M_bind. rewrite prog_bind_assoc. f_equiv.
    intros [outs'|e|]; [|done..]. cbn. by rewrite <-app_assoc.
  - destruct (writeRESP _) as [out [e'|]]; [by cbn; rewrite app_nil_r|]. rewrite IH.
    unfold mbind, M_bind. rewrite prog_bind_assoc. f_equiv.
    intros [outs'|e'|]; [|done..]. cbn. by rewrite <-app_assoc.
Qed.

Lemma connection_under ending fuel password session input outs :
  all_under (keeps_to protocolMu) (connection ending fuel password session input outs).
Proof.
  revert session input outs. induction fuel as [|fuel IH]; intros session input outs;
    cbn [connection]; [done|].
  destruct (readRESP ending input) as [[request input']|e|]; [|done..].
  destruct (redisCommandArgs request) as [args|e|]; [| |done].
  - split; [done|]. intros rep. destruct rep as [| | | | | | | | |r|]; try done.
    destruct r as [[[reply quit] session']|e|]; [|done..].
    destruct (writeRESP reply) as [out [e|]]; [done|]. destruct quit; [done|apply IH].
  - destruct (writeRESP _) as [out [e'|]]; [done|apply IH].
Qed.
End connections.

(** ** Theorems *)

Section shared.
Context {X Y : Type} (cfg : config X Y) {GT : GoText} {MR : MapRange}.
Context {E : Type} `{!Engine E} `{!LocalEngine E} {O : Type}.

(** C3: Serializability: goroutines that share a handle, each a client whose
    requests all work under the same mutex. However their engine operations
    interleave, when all have ended the store and the replies are those of an
    execution in which the requests ran one after another, each of them as the
    sequential definition of its method, each client's in its own order. *)
Theorem concurrent_requests_serializable mu (w w' : World E)
    (clients : list (Env * script (@request X Y) (@reply X) O)) (outs : list (Env * O)) :
  healthy w → Forall (well_behaved (keeps_to mu)) clients →
  rtc step (initial w (issuing (answer cfg) clients)) (initial w' (answered outs)) →
  rtc (serial_step (sequential cfg)) (w, clients) (w', finished outs).
Proof using GT MR LocalEngine0.
  apply (requests_serial mu); [apply answer_sectioned|apply answer_erase].
Qed.

End shared.

(** Two clients of one key: a typed write and a Redis [APPEND] meet. *)
Module Witness.
Definition rq (cmd : bytes) (rest : list bytes) : @request Empty_set Empty_set :=
  RqRedis (cmd :: rest) [] (mkSession true 1 2).

Definition clients : list (Env * script (@request Empty_set Empty_set) (@reply Empty_set) (list reply)) :=
  [(clock_at 5, issue_all [RqPutStoredValue ⟦"k"⟧ ⟦"bytes"⟧ ⟦"ab"⟧ []; RqHas ⟦"k"⟧] []);
   (clock_at 7, issue_all [rq ⟦"APPEND"⟧ [⟦"k"⟧; ⟦"c"⟧]] [])].

Definition start : system memoryDriverEngine (list reply) :=
  initial mem_world (issuing (@answer _ _ bytes_config ascii_GoText elements_MapRange) clients).

(** The second client is inside its section when the first one checks that the
    handle is open. *)
Definition schedule : list nat := replicate 3 1 ++ [0] ++ replicate 23 1 ++ replicate 14 0.

Definition outs : list (Env * list (@reply Empty_set)) :=
  [(clock_at 5, [RpUnit (Ok tt); RpBool (Ok true)]);
   (clock_at 7, [RpRedis (Ok (respIntegerValue 1, false, mkSession true 1 2))])].
End Witness.

Lemma concurrent_requests_serializable_witness :
  ∃ w', rtc step Witness.start (initial w' (answered Witness.outs))
    ∧ rtc (serial_step (@sequential _ _ bytes_config ascii_GoText elements_MapRange))
        (mem_world, Witness.clients) (w', finished Witness.outs).
Proof.
  exists (sys_world (scheduled Witness.schedule Witness.start)).
  assert (rtc step Witness.start
    (initial (sys_world (scheduled Witness.schedule Witness.start)) (answered Witness.outs))) as Hsteps.
  { apply scheduled_final; vm_compute; reflexivity. }
  split; [exact Hsteps|].
  apply (concurrent_requests_serializable (GT := ascii_GoText) (MR := elements_MapRange)
           bytes_config protocolMu); [exact mem_world_healthy| |exact Hsteps].
  repeat constructor.
Defined.
