(* ===== verification/RedisModel.v ===== *)
(** * The abstract Redis database

    What a Redis client sees of the record map at an instant: a partial
    function from keys to strings, hashes, sets and lists ([view]). The
    invariant [redis_ok] says that records decode and that a logical key has
    one representation; [redisType] is shown to compute the type of the view
    and to remove only records that are no longer visible. *)

From S2P Require Import Prelude Errors Engine Effects Envelope Keys ListCodec Text DriverName DB DBTheorems Collections Transport Resp RedisStorage.

Implicit Types (m : gmap bytes bytes) (key : bytes).

(** ** Visible records *)

Definition decode_live (t : Z) (data : bytes) : option envelope :=
  match unmarshalEnvelope data with
  | Ok v => if expired_at (env_expiresAt v) t then None else Some v
  | _ => None
  end.

Definition ttl_of m key : option Z := (λ d, wrap64 (be_get d)) <$> m !! collectionTTLKey key.

Definition ttl_dead m (t : Z) key : bool :=
  match ttl_of m key with
  | Some e => bool_decide (e ≤ unixNano t)%Z
  | None => false
  end.

Definition string_of m (t : Z) key : option envelope := m !! valueKey key ≫= decode_live t.

Definition hash_of m (t : Z) key : gmap bytes bytes :=
  list_to_map (omap (λ kv, (λ v, (drop (length (namespacePrefix kindHash key)) kv.1,
                                  env_payload v)) <$> decode_live t kv.2)
                 (matches m (namespacePrefix kindHash key))).

Definition list_items m key : list bytes :=
  match m !! listKey key with
  | Some d => match decodeList d with Ok items => items | _ => [] end
  | None => []
  end.

Definition item_payload (item : bytes) : bytes :=
  match unmarshalEnvelope item with Ok v => env_payload v | _ => [] end.

Definition list_of m key : list bytes := item_payload <$> list_items m key.

(** The value of a key. *)
Inductive robj :=
  | OString (v : envelope)
  | OHash (fields : gmap bytes bytes)
  | OSet (members : gset bytes)
  | OList (items : list bytes).

Definition collection_view m (t : Z) key : option robj :=
  if bool_decide (hash_of m t key ≠ ∅) then Some (OHash (hash_of m t key))
  else if bool_decide (set_of m key ≠ ∅) then Some (OSet (set_of m key))
  else if bool_decide (list_of m key ≠ []) then Some (OList (list_of m key))
  else None.

Definition view m (t : Z) key : option robj :=
  if ttl_dead m t key then None
  else match string_of m t key with
       | Some v => Some (OString v)
       | None => collection_view m t key
       end.

Definition type_of (o : option robj) : redisTyp :=
  match o with
  | None => redisTypeNone
  | Some (OString _) => redisTypeString
  | Some (OHash _) => redisTypeHash
  | Some (OSet _) => redisTypeSet
  | Some (OList _) => redisTypeList
  end.

(** ** The invariant *)

Definition kind_of (s : shape) : option redisTyp :=
  match s with
  | SValue _ => Some redisTypeString
  | SHash _ _ => Some redisTypeHash
  | SSet _ _ => Some redisTypeSet
  | SList _ => Some redisTypeList
  | STTL _ => None
  end.

(** Every record of [key], its expiry record apart, is of kind [typ]. *)
Definition rep m key (typ : redisTyp) : Prop :=
  ∀ s, logical_key s = key → is_Some (m !! storage_key s) →
    kind_of s = None ∨ kind_of s = Some typ.

(** What a record must look like, by its shape. *)
Definition record_ok (s : shape) (data : bytes) : Prop :=
  match s with
  | SValue _ | SHash _ _ => ∃ v, unmarshalEnvelope data = Ok v
  | SSet _ _ => True
  | SList _ => ∃ items, decodeList data = Ok items
      ∧ Forall (λ item, ∃ v, unmarshalEnvelope item = Ok v ∧ env_expiresAt v = 0%Z) items
  | STTL _ => length data = 8
  end.

(** One representation, well-formed records, and no separate expiry record
    next to a scalar, which carries its own. *)
Definition key_ok m key : Prop :=
  (∃ typ, rep m key typ)
  ∧ (∀ s data, logical_key s = key → m !! storage_key s = Some data → record_ok s data)
  ∧ (is_Some (m !! valueKey key) → m !! collectionTTLKey key = None).

Definition redis_ok m : Prop := ∀ key, short key → key_ok m key.

(** ** Frames

    The view of a key and its part of the invariant depend on the key's own
    records only. *)

Definition agree key m m' : Prop := ∀ sk, owns key sk = true → m' !! sk = m !! sk.

Definition same_elsewhere key m m' : Prop := ∀ sk, owns key sk = false → m' !! sk = m !! sk.

Lemma owns_shape key s : short key → logical_key s = key → owns key (storage_key s) = true.
Proof. intros Hs <-. rewrite owns_storage_key by done. by apply bool_decide_eq_true. Qed.

Lemma agree_shape key m m' s :
  short key → agree key m m' → logical_key s = key →
  m' !! storage_key s = m !! storage_key s.
Proof. intros Hs Ha Hk. by apply Ha, owns_shape. Qed.

Lemma same_elsewhere_agree key key' m m' :
  short key → short key' → key ≠ key' → same_elsewhere key m m' → agree key' m m'.
Proof.
  intros Hs Hs' Hne H sk Ho. apply H. unfold owns in *.
  apply bool_decide_eq_true in Ho. apply bool_decide_eq_false. congruence.
Qed.

Lemma lookup_hash_of m t key f :
  hash_of m t key !! f = env_payload <$> (m !! namespacedKey kindHash key f ≫= decode_live t).
Proof.
  unfold hash_of. set (pfx := namespacePrefix kindHash key).
  set (l := omap _ (matches m pfx)).
  assert (∀ g p, (g, p) ∈ l ↔ ∃ v d, m !! namespacedKey kindHash key g = Some d
    ∧ decode_live t d = Some v ∧ env_payload v = p) as Hl.
  { intros g p. unfold l. rewrite list_elem_of_omap. split.
    - intros ([k d] & [Hm Hp]%elem_of_matches & He).
      apply has_prefix_namespace in Hp as [h ->]. cbn [fst snd] in He. unfold pfx in He.
      rewrite drop_namespaced in He. destruct (decode_live t d) eqn:Hd; [|done].
      simplify_eq/=. eauto.
    - intros (v & d & Hm & Hd & <-). exists (namespacedKey kindHash key g, d).
      split; [apply elem_of_matches; split; [done|apply has_prefix_namespace; eauto]|].
      cbn [fst snd].
      unfold pfx. by rewrite drop_namespaced, Hd. }
  assert (NoDup l.*1) as Hnd.
  { unfold l. pose proof (scan_members_NoDup m kindHash key _ ltac:(reflexivity)) as Hnd.
    fold pfx in Hnd. clear Hl l. induction (matches m pfx) as [|[k d] ms IH]; [constructor|].
    rewrite fmap_cons in Hnd. apply NoDup_cons in Hnd as [Hk Hnd].
    cbn [omap list_omap fst snd]. destruct (decode_live t d) as [v|]; cbn [fmap option_fmap option_map];
      [|by apply IH].
    rewrite fmap_cons. constructor; [|by apply IH]. intros Hin. apply Hk.
    apply list_elem_of_fmap in Hin as ([g p] & Hg & Hin).
    apply list_elem_of_omap in Hin as ([k2 d2] & Hin & He).
    cbn [fst snd] in *. destruct (decode_live t d2); [|done]. simplify_eq/=.
    apply list_elem_of_fmap. by exists (k2, d2). }
  destruct (m !! namespacedKey kindHash key f ≫= decode_live t) as [v|] eqn:He; cbn.
  - apply elem_of_list_to_map; [done|]. apply Hl.
    destruct (m !! namespacedKey kindHash key f) eqn:Hm; [|done]. eauto.
  - apply not_elem_of_list_to_map. intros ([g p] & -> & Hin)%list_elem_of_fmap.
    apply Hl in Hin as (v & d & Hm & Hd & _). cbn [fst] in He.
    rewrite Hm in He. cbn in He. congruence.
Qed.

(** The collection part of the view depends on the collection records. *)
Lemma collection_view_same key m m' t :
  (∀ s, logical_key s = key → kind_of s ∈ [Some redisTypeHash; Some redisTypeSet; Some redisTypeList] →
    m' !! storage_key s = m !! storage_key s) →
  collection_view m' t key = collection_view m t key.
Proof.
  intros Hl.
  assert (hash_of m' t key = hash_of m t key) as Hh.
  { apply map_eq. intros f. rewrite !lookup_hash_of.
    by rewrite (Hl (SHash key f) eq_refl (ltac:(set_solver)) : m' !! namespacedKey kindHash key f = _). }
  assert (set_of m' key = set_of m key) as Hset.
  { apply set_eq. intros x. rewrite !elem_of_set_of.
    by rewrite (Hl (SSet key x) eq_refl (ltac:(set_solver)) : m' !! namespacedKey kindSet key x = _). }
  unfold collection_view, list_of, list_items.
  by rewrite Hh, Hset, (Hl (SList key) eq_refl (ltac:(set_solver)) : m' !! listKey key = _).
Qed.

Lemma view_agree key m m' t : short key → agree key m m' → view m' t key = view m t key.
Proof.
  intros Hs Ha.
  pose proof (λ s, agree_shape key m m' s Hs Ha) as Hl.
  pose proof (Hl (STTL key) eq_refl) as Httl. pose proof (Hl (SValue key) eq_refl) as Hval.
  cbn [storage_key] in *. unfold view, ttl_dead, ttl_of, string_of.
  by rewrite (collection_view_same key m) by auto; rewrite Httl, Hval.
Qed.

Lemma key_ok_agree key m m' : short key → agree key m m' → key_ok m key → key_ok m' key.
Proof.
  intros Hs Ha ([typ Hrep] & Hok & Hnt). split_and!.
  - exists typ. intros s Hk Hsome. rewrite (agree_shape key m) in Hsome by done. auto.
  - intros s data Hk Hd. rewrite (agree_shape key m) in Hd by done. auto.
  - pose proof (agree_shape key m m' (SValue key) Hs Ha eq_refl) as Hv.
    pose proof (agree_shape key m m' (STTL key) Hs Ha eq_refl) as Ht.
    cbn [storage_key] in Hv, Ht. by rewrite Hv, Ht.
Qed.

(** A step that touches only the records of [key] keeps the invariant when it
    keeps that key's part of it, and the view of every other key. *)
Lemma redis_ok_step key m m' :
  redis_ok m → short key → same_elsewhere key m m' → key_ok m' key → redis_ok m'.
Proof.
  intros Hm Hs He Hk key' Hs'. destruct (decide (key = key')) as [<-|Hne]; [done|].
  apply (key_ok_agree key' m); auto. by apply (same_elsewhere_agree key).
Qed.

Lemma view_elsewhere key key' m m' t :
  short key → short key' → key ≠ key' → same_elsewhere key m m' →
  view m' t key' = view m t key'.
Proof. intros. apply view_agree; [done|]. by apply (same_elsewhere_agree key). Qed.

(** ** Programs over the store *)

Section store_steps.
Context (readings : Z → Prop).

Lemma wp_store_Get k m Q : Q (Ok (m !! k)) m → wp readings (store_Get k) Q m.
Proof. done. Qed.

Lemma wp_store_Put k v m Q : Q (Ok tt) (<[k := v]> m) → wp readings (store_Put k v) Q m.
Proof. done. Qed.

Lemma wp_store_Delete k m Q : Q (Ok tt) (delete k m) → wp readings (store_Delete k) Q m.
Proof. done. Qed.

Lemma wp_store_ScanPrefix {S} pfx (callback : bytes * bytes → S → M S) s m
    (Q : result S → gmap bytes bytes → Prop) :
  (∀ items : list (bytes * bytes), items ≡ₚ matches m pfx →
    wp readings (for_each items callback s) Q m) →
  wp readings (store_ScanPrefix pfx callback s) Q m.
Proof. intros H. apply wp_bind. cbn -[engineScan]. by apply wp_scan. Qed.

Lemma wp_decodeRecord data v m Q :
  unmarshalEnvelope data = Ok v →
  Q (Ok (mkStored (env_codec v) (env_payload v) (env_expiresAt v))) m →
  wp readings (decodeRecord data) Q m.
Proof. intros Hd HQ. cbn. unfold protocol_DecodeRecord. by rewrite Hd. Qed.

Lemma wp_redisDeleteRaw key m Q :
  short key →
  (∀ b : bool, (b = true ↔ ∃ sk v, m !! sk = Some v ∧ owns key sk = true) →
    Q (Ok b) (without key m)) →
  wp readings (redisDeleteRaw key) Q m.
Proof. intros Hs HQ. apply wp_bind. cbn. by apply wp_deleteLogicalKey. Qed.

Lemma wp_store_delete_loop keys m (Q : result unit → gmap bytes bytes → Prop) :
  Q (Ok tt) (filter (λ kv, kv.1 ∉ keys) m) →
  wp readings (for_each keys (λ k _, store_Delete k) tt) Q m.
Proof. by apply wp_delete_loop. Qed.
End store_steps.

Lemma wp_store_Now t m Q : Q (Ok t) m → wp (at_time t) store_Now Q m.
Proof. intros HQ t' ->. done. Qed.

Lemma wp_recordExpired t e m Q :
  Q (Ok (expired_at e t)) m → wp (at_time t) (recordExpired e) Q m.
Proof.
  intros HQ. unfold recordExpired. case_bool_decide as He.
  - apply wp_bind, wp_store_Now. cbn.
    rewrite (bool_decide_ext _ (0 < e ∧ e ≤ unixNano t)%Z) by tauto. done.
  - cbn. unfold expired_at in HQ. by rewrite bool_decide_eq_false_2 in HQ by tauto.
Qed.

(** The key layout of [dbProtocol]. *)
Ltac store_names :=
  change (@store_ValueKey dbProtocol) with valueKey in *;
  change (@store_HashKey dbProtocol) with (namespacedKey kindHash) in *;
  change (@store_HashPrefix dbProtocol) with (namespacePrefix kindHash) in *;
  change (@store_SetKey dbProtocol) with (namespacedKey kindSet) in *;
  change (@store_SetPrefix dbProtocol) with (namespacePrefix kindSet) in *;
  change (@store_ListKey dbProtocol) with listKey in *;
  change (@store_CollectionTTLKey dbProtocol) with collectionTTLKey in *;
  change (@store_EncodeRecord dbProtocol) with marshalEnvelope in *;
  change (@store_EncodeList dbProtocol) with encodeList in *;
  change (@store_DecodeList dbProtocol) with decodeList in *.

(** One step of a Redis program. *)
Ltac rd_step :=
  first
  [ wp_step
  | lazymatch goal with
    | |- wp _ (store_Get _) _ _ => apply wp_store_Get
    | |- wp _ (store_Put _ _) _ _ => apply wp_store_Put
    | |- wp _ (store_Delete _) _ _ => apply wp_store_Delete
    | |- wp _ store_Now _ _ => apply wp_store_Now
    | |- wp _ (recordExpired _) _ _ => apply wp_recordExpired
    end ].
Ltac rd_steps := repeat (rd_step; cbv beta iota).

(** ** Removal of invisible records *)

Definition dead_field (t : Z) key (sk : bytes) (data : bytes) : bool :=
  has_prefix (namespacePrefix kindHash key) sk && bool_decide (decode_live t data = None).

Definition drop_dead m (t : Z) key : gmap bytes bytes :=
  filter (λ kv, dead_field t key kv.1 kv.2 = false) m.

(** No record but possibly the expiry record is left. *)
Definition blank m key : Prop :=
  ∀ s, logical_key s = key → is_Some (kind_of s) → m !! storage_key s = None.

Definition pruned m (t : Z) key m' : Prop :=
  m' ⊆ m ∧ same_elsewhere key m m'
  ∧ match view m t key with
    | None => blank m' key
    | Some (OHash _) => m' = drop_dead m t key
    | Some _ => m' = m
    end.

Lemma decode_live_expired t data v :
  unmarshalEnvelope data = Ok v →
  decode_live t data = if expired_at (env_expiresAt v) t then None else Some v.
Proof. intros H. unfold decode_live. by rewrite H. Qed.

Lemma lookup_drop_dead m t key sk :
  drop_dead m t key !! sk =
  match m !! sk with
  | Some d => if dead_field t key sk d then None else Some d
  | None => None
  end.
Proof.
  unfold drop_dead. rewrite map_lookup_filter. destruct (m !! sk) as [d|]; [|done]. cbn.
  destruct (dead_field t key sk d) eqn:E.
  - by rewrite option_guard_False by (cbn; congruence).
  - by rewrite option_guard_True by done.
Qed.

(** The scan of [redisType] over the hash fields. *)
Lemma wp_hash_loop t items dead found m (Q : result (list bytes * bool) → gmap bytes bytes → Prop) :
  Forall (λ kv : bytes * bytes, ∃ v, unmarshalEnvelope kv.2 = Ok v) items →
  (∀ dead' found',
    (∀ k, k ∈ dead' ↔ k ∈ dead ∨ ∃ d, (k, d) ∈ items ∧ decode_live t d = None) →
    (found' = true ↔ found = true ∨ ∃ k d, (k, d) ∈ items ∧ decode_live t d ≠ None) →
    Q (Ok (dead', found')) m) →
  wp (at_time t) (for_each items
    (λ kv '(hashKeys, hashFound),
       value ← decodeRecord kv.2;
       expired ← recordExpired (stored_ExpiresAt value);
       if expired : bool then mret (hashKeys ++ [kv.1], hashFound)
       else mret (hashKeys, true)) (dead, found)) Q m.
Proof.
  intros H. revert dead found. induction H as [|[k d] items [v Hv] Hall IH];
    intros dead found HQ; cbn [for_each].
  - rd_steps. apply HQ; intros; set_solver.
  - rd_steps. eapply wp_decodeRecord; [done|]. rd_steps. cbn [stored_ExpiresAt fst].
    pose proof (decode_live_expired t d v Hv) as Hd.
    destruct (expired_at (env_expiresAt v) t); rd_steps.
    + apply IH. intros dead' found' H1 H2. apply HQ.
      * intros k'. rewrite H1, elem_of_app, list_elem_of_singleton.
        setoid_rewrite elem_of_cons. naive_solver.
      * rewrite H2. setoid_rewrite elem_of_cons. naive_solver.
    + apply IH. intros dead' found' H1 H2. apply HQ.
      * intros k'. rewrite H1. setoid_rewrite elem_of_cons. naive_solver.
      * rewrite H2. setoid_rewrite elem_of_cons. split; [|naive_solver].
        intros _. right. exists k, d. rewrite Hd. auto.
Qed.

Lemma hash_of_nonempty m t key :
  hash_of m t key ≠ ∅ ↔ ∃ f d, m !! namespacedKey kindHash key f = Some d
                               ∧ decode_live t d ≠ None.
Proof.
  split.
  - intros [f [p Hp]]%map_choose. rewrite lookup_hash_of in Hp.
    destruct (m !! namespacedKey kindHash key f) as [d|] eqn:Hm; [|done]. cbn in Hp.
    exists f, d. split; [done|]. by destruct (decode_live t d).
  - intros (f & d & Hm & Hd) He. assert (hash_of m t key !! f = None) as Hn by by rewrite He.
    rewrite lookup_hash_of, Hm in Hn. cbn in Hn. by destruct (decode_live t d).
Qed.

Lemma wp_probe_hash t key m Q :
  (∀ f d, m !! namespacedKey kindHash key f = Some d → ∃ v, unmarshalEnvelope d = Ok v) →
  (∀ dead found,
    (∀ k, k ∈ dead ↔ ∃ d, m !! k = Some d ∧ dead_field t key k d = true) →
    (found = true ↔ hash_of m t key ≠ ∅) → Q (Ok (dead, found)) m) →
  wp (at_time t) (probe_hash key) Q m.
Proof.
  intros Hdec HQ. apply wp_store_ScanPrefix. intros items Hp.
  assert (∀ k d, (k, d) ∈ items ↔ m !! k = Some d
    ∧ has_prefix (namespacePrefix kindHash key) k = true) as Hin.
  { intros. rewrite Hp. apply elem_of_matches. }
  apply wp_hash_loop.
  - apply Forall_forall. intros [k d] [Hm Hpf]%Hin.
    apply has_prefix_namespace in Hpf as [f ->]. cbn. eauto.
  - intros dead found Hd Hf. apply HQ.
    + intros k. rewrite Hd. unfold dead_field. setoid_rewrite Hin.
      setoid_rewrite andb_true_iff. setoid_rewrite bool_decide_eq_true. set_solver.
    + rewrite Hf, hash_of_nonempty. setoid_rewrite Hin. split.
      * intros [?|(k & d & [Hm Hpf] & Hl)]; [done|].
        apply has_prefix_namespace in Hpf as [f ->]. eauto.
      * intros (f & d & Hm & Hl). right. exists (namespacedKey kindHash key f), d.
        rewrite has_prefix_namespace. eauto.
Qed.

Lemma set_of_nonempty m key :
  set_of m key ≠ ∅ ↔ ∃ x, is_Some (m !! namespacedKey kindSet key x).
Proof.
  setoid_rewrite <-elem_of_set_of. split.
  - intros [x Hx]%set_choose_L. eauto.
  - intros [x Hx]. set_solver.
Qed.

Lemma wp_probe_set t key m Q :
  Q (Ok (bool_decide (set_of m key ≠ ∅))) m → wp (at_time t) (probe_set key) Q m.
Proof.
  intros HQ. apply wp_store_ScanPrefix. intros items Hp.
  change (store_SetPrefix key) with (namespacePrefix kindSet key) in Hp.
  assert (∀ items b, wp (at_time t) (for_each (A:=bytes * bytes) items (λ _ _, mret true) b)
    (λ r m', r = Ok (b || bool_decide (items ≠ [])) ∧ m' = m) m) as Hloop.
  { clear. induction items as [|kv items IH]; intros b; cbn [for_each]; rd_steps.
    - by rewrite orb_false_r.
    - eapply wp_mono; [apply IH|]. cbn. intros r m' [-> ->]. by rewrite orb_true_r. }
  eapply wp_mono; [apply Hloop|]. cbn. intros r m' [-> ->].
  rewrite (bool_decide_ext _ (set_of m key ≠ ∅)); [done|].
  rewrite set_of_nonempty. split.
  - destruct items as [|[k v] items]; [done|]. intros _.
    assert ((k, v) ∈ matches m (namespacePrefix kindSet key)) as Hin
      by (rewrite <-Hp; left).
    apply elem_of_matches in Hin as [Hm [x ->]%has_prefix_namespace]. eauto.
  - intros [x [v Hv]] ->. apply Permutation_nil in Hp.
    assert ((namespacedKey kindSet key x, v) ∈ matches m (namespacePrefix kindSet key)) as Hin.
    { apply elem_of_matches. rewrite has_prefix_namespace. eauto. }
    rewrite Hp in Hin. by apply elem_of_nil in Hin.
Qed.

(** *** Consequences of the invariant for one key *)

Lemma rep_other m key typ s :
  rep m key typ → logical_key s = key → is_Some (kind_of s) → kind_of s ≠ Some typ →
  m !! storage_key s = None.
Proof.
  intros Hr Hk [k Hkind] Hne. destruct (m !! storage_key s) eqn:E; [|done].
  destruct (Hr s Hk) as [H|H]; [by eexists|congruence|congruence].
Qed.

Lemma blank_without key m : short key → blank (without key m) key.
Proof.
  intros Hs s Hk _. rewrite lookup_without. by rewrite owns_shape.
Qed.

Lemma without_subseteq key m : without key m ⊆ m.
Proof. apply map_filter_subseteq. Qed.

Lemma without_elsewhere key m : same_elsewhere key m (without key m).
Proof. intros sk Ho. by rewrite lookup_without, Ho. Qed.

Lemma blank_value m key : blank m key → m !! valueKey key = None.
Proof. intros Hb. by apply (Hb (SValue key)); [|eexists]. Qed.

Lemma blank_list m key : blank m key → m !! listKey key = None.
Proof. intros Hb. by apply (Hb (SList key)); [|eexists]. Qed.

Lemma list_of_None m key : m !! listKey key = None → list_of m key = [].
Proof. unfold list_of, list_items. by intros ->. Qed.

Lemma set_of_None m key :
  (∀ x, m !! namespacedKey kindSet key x = None) → set_of m key = ∅.
Proof.
  intros H. apply dec_stable. rewrite set_of_nonempty. intros [x Hx].
  rewrite H in Hx. by destruct Hx.
Qed.

Lemma hash_of_None m t key :
  (∀ f, m !! namespacedKey kindHash key f = None) → hash_of m t key = ∅.
Proof.
  intros H. apply dec_stable. rewrite hash_of_nonempty. intros (f & d & Hm & _).
  by rewrite H in Hm.
Qed.

Lemma blank_set_of m key : blank m key → set_of m key = ∅.
Proof. intros Hb. apply set_of_None. intros x. by apply (Hb (SSet key x)); [|eexists]. Qed.

Lemma blank_hash_of m t key : blank m key → hash_of m t key = ∅.
Proof. intros Hb. apply hash_of_None. intros f. by apply (Hb (SHash key f)); [|eexists]. Qed.

Lemma blank_collection_view m t key : blank m key → collection_view m t key = None.
Proof.
  intros Hb. unfold collection_view.
  rewrite blank_hash_of, blank_set_of, list_of_None by auto using blank_list.
  by rewrite !bool_decide_eq_false_2 by auto.
Qed.

Lemma blank_view m t key : blank m key → view m t key = None.
Proof.
  intros Hb. unfold view, string_of. rewrite blank_value, blank_collection_view by done.
  by destruct (ttl_dead m t key).
Qed.

Lemma rep_set_of m key typ : rep m key typ → typ ≠ redisTypeSet → set_of m key = ∅.
Proof.
  intros Hr Hne. apply set_of_None. intros x.
  apply (rep_other m key typ (SSet key x)); cbn; [done..|by eexists|congruence].
Qed.

Lemma rep_list_of m key typ : rep m key typ → typ ≠ redisTypeList → list_of m key = [].
Proof.
  intros Hr Hne. apply list_of_None.
  apply (rep_other m key typ (SList key)); cbn; [done..|by eexists|congruence].
Qed.

Lemma rep_hash_of m t key typ : rep m key typ → typ ≠ redisTypeHash → hash_of m t key = ∅.
Proof.
  intros Hr Hne. apply hash_of_None. intros f.
  apply (rep_other m key typ (SHash key f)); cbn; [done..|by eexists|congruence].
Qed.

Lemma key_ok_subseteq m m' key : m' ⊆ m → key_ok m key → key_ok m' key.
Proof.
  intros Hsub ([typ Hr] & Hok & Hnt). split_and!.
  - exists typ. intros s Hk [d Hd]. apply Hr; [done|]. exists d.
    by apply (lookup_weaken m').
  - intros s d Hk Hd. apply Hok; [done|]. by apply (lookup_weaken m').
  - intros [d Hd]. eapply lookup_weaken_None; [|exact Hsub]. apply Hnt. exists d.
    by apply (lookup_weaken m').
Qed.

Lemma redis_ok_subseteq m m' : m' ⊆ m → redis_ok m → redis_ok m'.
Proof. intros Hsub Hm key Hs. by apply (key_ok_subseteq m), Hm. Qed.

Lemma drop_dead_subseteq m t key : drop_dead m t key ⊆ m.
Proof. apply map_filter_subseteq. Qed.

Lemma drop_dead_elsewhere m t key : short key → same_elsewhere key m (drop_dead m t key).
Proof.
  intros Hs sk Ho. rewrite lookup_drop_dead. destruct (m !! sk) as [d|]; [|done].
  unfold dead_field. destruct (has_prefix (namespacePrefix kindHash key) sk) eqn:Hp; [|done].
  apply has_prefix_namespace in Hp as [f ->].
  pose proof (owns_shape key (SHash key f) Hs eq_refl) as H. cbn [storage_key] in H.
  congruence.
Qed.

Lemma filter_dead m t key (dead : list bytes) :
  (∀ k, k ∈ dead ↔ ∃ d, m !! k = Some d ∧ dead_field t key k d = true) →
  filter (λ kv, kv.1 ∉ dead) m = drop_dead m t key.
Proof.
  intros Hd. apply map_eq. intros k. rewrite lookup_drop_dead. apply option_eq. intros v.
  rewrite map_lookup_filter_Some. cbn. rewrite Hd.
  destruct (m !! k) as [d|]; [|by split; [intros [? _]|]].
  destruct (dead_field t key k d) eqn:E; (split; [intros [Hv Hn]|intros Hv]).
  - destruct Hn. eauto.
  - done.
  - done.
  - split; [done|]. intros (d' & ? & ?). congruence.
Qed.

Lemma wp_probe_list t key m Q :
  short key →
  (∀ d, m !! listKey key = Some d → record_ok (SList key) d) →
  (list_of m key ≠ [] → Q (Ok redisTypeList) m) →
  (∀ m', m' = m ∧ m !! listKey key = None ∨ m' = without key m → list_of m key = [] →
    Q (Ok redisTypeNone) m') →
  wp (at_time t) (probe_list key) Q m.
Proof.
  intros Hs Hok HQ1 HQ2. unfold probe_list, list_of, list_items in *. rd_steps.
  change (store_ListKey key) with (listKey key).
  destruct (m !! listKey key) as [d|] eqn:Hd; [|rd_steps; by apply HQ2; auto].
  destruct (Hok d eq_refl) as (items & Hitems & _). rd_steps.
  change (store_DecodeList d) with (decodeList d). rewrite Hitems in *.
  case_bool_decide as Hne; rd_steps.
  - apply HQ1. by destruct items.
  - apply wp_redisDeleteRaw; [done|]. intros b _. rd_steps. apply HQ2; [auto|].
    by subst items.
Qed.

Lemma hash_of_drop_dead m t key : hash_of (drop_dead m t key) t key = hash_of m t key.
Proof.
  apply map_eq. intros f. rewrite !lookup_hash_of, lookup_drop_dead.
  destruct (m !! namespacedKey kindHash key f) as [d|]; [|done].
  unfold dead_field. rewrite namespaced_has_prefix. cbn [andb].
  case_bool_decide as Hd; [|done]. cbn. by rewrite Hd.
Qed.

Lemma lookup_drop_dead_other m t key s :
  (∀ f, s ≠ SHash key f) → short key → short (logical_key s) →
  drop_dead m t key !! storage_key s = m !! storage_key s.
Proof.
  intros Hne Hs Hs'. rewrite lookup_drop_dead. destruct (m !! storage_key s) as [d|]; [|done].
  unfold dead_field.
  destruct (has_prefix (namespacePrefix kindHash key) (storage_key s)) eqn:Hp; [|done].
  apply has_prefix_namespace in Hp as [f Hf].
  by apply (storage_key_inj s (SHash key f)) in Hf as ->; [destruct (Hne f)|..].
Qed.

(** With no live field left, the fields that remain after the deletions are
    none. *)
Lemma drop_dead_no_hash m t key f :
  hash_of m t key = ∅ → drop_dead m t key !! namespacedKey kindHash key f = None.
Proof.
  intros He. rewrite lookup_drop_dead.
  destruct (m !! namespacedKey kindHash key f) as [d|] eqn:Hm; [|done].
  unfold dead_field. rewrite namespaced_has_prefix. cbn [andb].
  case_bool_decide as Hd; [done|]. exfalso.
  apply (proj2 (hash_of_nonempty m t key)); eauto.
Qed.

(** [collections_pruned]: the state after the collection probes. *)
Definition collections_pruned m (t : Z) key m' : Prop :=
  m' ⊆ m ∧ same_elsewhere key m m'
  ∧ match collection_view m t key with
    | None => blank m' key
    | Some (OHash _) => m' = drop_dead m t key
    | Some _ => m' = m
    end.

(** Probing a key that has just been removed finds nothing. *)
Lemma wp_probe_removed t key m0 m Q :
  short key → m0 = without key m →
  (∀ m', m' ⊆ m → same_elsewhere key m m' → blank m' key → Q (Ok redisTypeNone) m') →
  wp (at_time t)
    (setFound ← probe_set key;
     if setFound : bool then mret redisTypeSet else probe_list key) Q m0.
Proof.
  intros Hs -> HQ. pose proof (blank_without key m Hs) as Hb.
  rd_steps. apply wp_probe_set. rewrite bool_decide_eq_false_2 by auto using blank_set_of.
  rd_steps. apply wp_probe_list; [done|..].
  - intros d Hm. by rewrite blank_list in Hm.
  - rewrite list_of_None by auto using blank_list. done.
  - intros m' Hm' _. assert (m' ⊆ without key m ∧ same_elsewhere key (without key m) m'
      ∧ blank m' key) as (Hsub & He & Hb').
    { destruct Hm' as [[-> _]| ->]; split_and!;
        auto using blank_without, without_subseteq, without_elsewhere. done. }
    apply HQ; [by etrans; [|apply without_subseteq]| |done].
    intros sk Ho. rewrite He by done. by apply without_elsewhere.
Qed.

Lemma wp_probe_collections t key m Q :
  short key → key_ok m key → m !! valueKey key = None →
  (∀ m', collections_pruned m t key m' → Q (Ok (type_of (collection_view m t key))) m') →
  wp (at_time t) (probe_collections key) Q m.
Proof.
  intros Hs ([typ Hrep] & Hok & _) Hval HQ. unfold probe_collections, collections_pruned in *.
  wp_step. apply wp_probe_hash; [intros f d Hm; by apply (Hok (SHash key f) d)|].
  intros dead found Hdead Hfound. wp_step. apply wp_store_delete_loop.
  rewrite (filter_dead m t key) by done. unfold collection_view in *.
  destruct found.
  { rewrite bool_decide_eq_true_2 in HQ by (by apply Hfound). rd_steps. apply HQ.
    split_and!; [apply drop_dead_subseteq|by apply drop_dead_elsewhere|done]. }
  assert (hash_of m t key = ∅) as Hh.
  { apply dec_stable. intros Hne%Hfound. done. }
  rewrite (bool_decide_eq_false_2 (hash_of m t key ≠ ∅)) in HQ by auto.
  destruct dead as [|k0 dead]; [rewrite (bool_decide_eq_false_2 ([] ≠ [])) by auto
    |rewrite (bool_decide_eq_true_2 (k0 :: dead ≠ [])) by done].
  2:{ destruct (proj1 (Hdead k0) ltac:(left)) as (d0 & Hm0 & [Hp0 _]%andb_prop).
    apply has_prefix_namespace in Hp0 as [f0 ->].
    assert (typ = redisTypeHash) as ->.
    { destruct (Hrep (SHash key f0) eq_refl) as [?|?]; [by eexists|done|].
      cbn in *. congruence. }
    rewrite (rep_set_of m key redisTypeHash), (rep_list_of m key redisTypeHash) in HQ by done.
    rewrite (bool_decide_eq_false_2 (∅ ≠ ∅)), (bool_decide_eq_false_2 ([] ≠ [])) in HQ by auto.
    rd_step. rd_step. apply wp_redisDeleteRaw; [done|]. intros b _. cbv beta iota. rd_step.
    eapply wp_probe_removed; [done..|]. intros m' Hsub He Hb. apply HQ. split_and!; [|..|done].
    + etrans; [exact Hsub|apply drop_dead_subseteq].
    + intros sk Ho. rewrite He by done. by apply drop_dead_elsewhere. }
  assert (drop_dead m t key = m) as Hdd.
  { apply map_eq. intros k. rewrite lookup_drop_dead.
    destruct (m !! k) as [d|] eqn:Hm; [|done].
    destruct (dead_field t key k d) eqn:E; [|done].
    exfalso. eapply (not_elem_of_nil (A:=bytes) k), Hdead. eauto. }
  rewrite Hdd. rd_steps. apply wp_probe_set.
  destruct (bool_decide (set_of m key ≠ ∅)) eqn:Hset; rd_steps; [by apply HQ; split_and!|].
  apply bool_decide_eq_false in Hset.
  apply wp_probe_list; [done|intros d Hm; by apply (Hok (SList key))|..].
  { intros Hl. rewrite bool_decide_eq_true_2 in HQ by done. by apply HQ; split_and!. }
  intros m' Hm' Hl. rewrite bool_decide_eq_false_2 in HQ by auto. apply HQ.
  destruct Hm' as [[-> Hnone]| ->]; [|split_and!;
    auto using blank_without, without_subseteq, without_elsewhere].
  split_and!; [done..|]. intros s Hk Hkind.
  destruct s; cbn [logical_key storage_key] in Hk |- *; subst; try done; [..|by destruct Hkind].
  - rewrite <-Hdd. by apply drop_dead_no_hash.
  - apply eq_None_not_Some. intros Hx. apply Hset, set_of_nonempty. eauto.
Qed.

(** ** [redisType] *)

Lemma wp_redisMetadataExpiry readings key m Q :
  key_ok m key → Q (Ok (ttl_of m key)) m → wp readings (redisMetadataExpiry key) Q m.
Proof.
  intros (_ & Hok & _) HQ. unfold redisMetadataExpiry, ttl_of in *. wp_step. apply wp_store_Get.
  change (store_CollectionTTLKey key) with (collectionTTLKey key).
  destruct (m !! collectionTTLKey key) as [d|] eqn:Hd; rd_steps; [|done].
  rewrite bool_decide_eq_false_2 by (intros Hne; by apply Hne, (Hok (STTL key) d)).
  by rd_steps.
Qed.

Lemma wp_redisKeyExpired t key m Q :
  short key → key_ok m key →
  Q (Ok (ttl_dead m t key)) (if ttl_dead m t key then without key m else m) →
  wp (at_time t) (redisKeyExpired key) Q m.
Proof.
  intros Hs Hok HQ. unfold redisKeyExpired, ttl_dead in *. wp_step.
  apply wp_redisMetadataExpiry; [done|]. destruct (ttl_of m key) as [e|]; [|by rd_steps].
  rd_steps. rewrite (bool_decide_ext _ (¬ (e ≤ unixNano t)%Z)) by lia.
  rewrite bool_decide_not. case_bool_decide; cbn [negb]; rd_steps; [|done].
  apply wp_redisDeleteRaw; [done|]. intros b _. by rd_steps.
Qed.

Lemma wp_probe_string t key m Q :
  key_ok m key →
  Q (Ok (bool_decide (is_Some (string_of m t key))))
    (if decide (is_Some (string_of m t key)) then m else delete (valueKey key) m) →
  wp (at_time t) (probe_string key) Q m.
Proof.
  intros (_ & Hok & _) HQ. unfold probe_string, string_of in *. wp_step. apply wp_store_Get.
  change (store_ValueKey key) with (valueKey key).
  destruct (m !! valueKey key) as [d|] eqn:Hd; cbn [mbind option_bind] in *.
  - destruct (Hok (SValue key) d eq_refl Hd) as [v Hv]. wp_step.
    eapply wp_decodeRecord; [done|]. rd_steps.
    rewrite (decode_live_expired t d v Hv) in HQ. cbn [stored_ExpiresAt].
    by destruct (expired_at (env_expiresAt v) t); rd_steps.
  - rewrite delete_id in HQ by done. by rd_steps.
Qed.

(** A key with a scalar record has nothing else. *)
Lemma blank_delete_value m key d :
  short key → key_ok m key → m !! valueKey key = Some d →
  blank (delete (valueKey key) m) key ∧ ∀ t, collection_view m t key = None.
Proof.
  intros Hs [[typ Hrep] _] Hd.
  assert (typ = redisTypeString) as ->.
  { destruct (Hrep (SValue key) eq_refl) as [H|H]; [by eexists|done|]. cbn in H. congruence. }
  split.
  - intros s Hk Hkind. destruct (decide (storage_key s = valueKey key)) as [->|Hne].
    { apply lookup_delete_eq. }
    rewrite lookup_delete_ne by done. apply (rep_other m key redisTypeString); [done..|].
    destruct s; cbn in *; congruence.
  - intros t. unfold collection_view.
    rewrite (rep_hash_of m t key redisTypeString), (rep_set_of m key redisTypeString),
      (rep_list_of m key redisTypeString) by done.
    by rewrite !bool_decide_eq_false_2 by auto.
Qed.

Lemma delete_value_elsewhere key m :
  short key → same_elsewhere key m (delete (valueKey key) m).
Proof.
  intros Hs sk Ho. apply lookup_delete_ne. intros <-.
  pose proof (owns_shape key (SValue key) Hs eq_refl) as H. cbn [storage_key] in H. congruence.
Qed.

Lemma wp_redisType t key m Q :
  redis_ok m → short key →
  (∀ m', pruned m t key m' → Q (Ok (type_of (view m t key))) m') →
  wp (at_time t) (redisType key) Q m.
Proof.
  intros Hm Hs HQ. unfold redisType, pruned, view in *. wp_step.
  apply wp_redisKeyExpired; [done|by apply Hm|]. destruct (ttl_dead m t key); cbv iota in *.
  { rd_steps. apply HQ. auto using without_subseteq, without_elsewhere, blank_without. }
  wp_step. apply wp_probe_string; [by apply Hm|].
  destruct (string_of m t key) as [v|] eqn:Hv.
  { rewrite bool_decide_eq_true_2 by by eexists. rewrite decide_True by by eexists.
    rd_steps. by apply HQ. }
  rewrite bool_decide_eq_false_2, decide_False by by intros []. cbv iota.
  destruct (m !! valueKey key) as [d|] eqn:Hd; [|rewrite delete_id by done;
    by apply wp_probe_collections; [|apply Hm|..]].
  destruct (blank_delete_value m key d) as [Hb Hcv]; [done|by apply Hm|done|].
  rewrite Hcv in *. assert (delete (valueKey key) m ⊆ m) as Hsub by apply delete_subseteq.
  apply wp_probe_collections; [done|by eapply key_ok_subseteq, Hm|apply lookup_delete_eq|].
  intros m' (Hsub' & He & Hb'). rewrite blank_collection_view in * by done.
  apply HQ. split_and!; [by etrans| |done].
  intros sk Ho. rewrite He by done. by apply delete_value_elsewhere.
Qed.

(** Pruning keeps the invariant and every view. *)
Lemma pruned_ok m t key m' : redis_ok m → pruned m t key m' → redis_ok m'.
Proof. intros Hm (Hsub & _). by eapply redis_ok_subseteq. Qed.

Lemma pruned_view m t key m' key' :
  short key → short key' → pruned m t key m' → view m' t key' = view m t key'.
Proof.
  intros Hs Hs' (Hsub & He & Hv). destruct (decide (key = key')) as [<-|Hne];
    [|by apply (view_elsewhere key)].
  destruct (view m t key) as [[v|h|x|l]|] eqn:Ev; subst; [done| |done..|by apply blank_view].
  rewrite <-Ev. unfold view, ttl_dead, ttl_of, string_of.
  pose proof (λ s, lookup_drop_dead_other m t key s) as Hl.
  rewrite (Hl (STTL key) (ltac:(done)) Hs Hs : drop_dead m t key !! collectionTTLKey key = _).
  rewrite (Hl (SValue key) (ltac:(done)) Hs Hs : drop_dead m t key !! valueKey key = _).
  unfold collection_view, list_of, list_items. rewrite hash_of_drop_dead.
  rewrite (Hl (SList key) (ltac:(done)) Hs Hs : drop_dead m t key !! listKey key = _).
  assert (set_of (drop_dead m t key) key = set_of m key) as ->; [|done].
  apply set_eq. intros x. rewrite !elem_of_set_of.
  by rewrite (Hl (SSet key x) (ltac:(done)) Hs Hs : drop_dead m t key !! namespacedKey _ _ x = _).
Qed.
