(* ===== verification/RedisTheorems.v ===== *)
(** * Redis string and key commands refine the abstract database

    Each command is related to an operation on the view of its key; the
    records of every other key are untouched. The clock shows one instant
    [t] during a command. *)

From S2P Require Import Prelude Errors Engine Effects MemDriver Envelope Keys ListCodec Text DriverName DB DBTheorems Collections Transport Resp RedisStorage RedisStrings RedisModel.

Implicit Types (m : gmap bytes bytes) (key value : bytes).

Definition same_views (t : Z) m m' : Prop := ∀ key, short key → view m' t key = view m t key.

Lemma pruned_same_views m t key m' : short key → pruned m t key m' → same_views t m m'.
Proof. intros Hs Hp key' Hs'. by apply (pruned_view m t key). Qed.

Lemma pruned_elsewhere m t key m' : pruned m t key m' → same_elsewhere key m m'.
Proof. by intros (_ & ? & _). Qed.

Lemma same_elsewhere_trans key m1 m2 m3 :
  same_elsewhere key m1 m2 → same_elsewhere key m2 m3 → same_elsewhere key m1 m3.
Proof. intros H1 H2 sk Ho. by rewrite H2, H1. Qed.

(** ** Helper programs *)

Lemma string_of_inv m t key v :
  string_of m t key = Some v →
  ∃ d, m !! valueKey key = Some d ∧ unmarshalEnvelope d = Ok v
    ∧ expired_at (env_expiresAt v) t = false.
Proof.
  unfold string_of. destruct (m !! valueKey key) as [d|] eqn:Hd; [|done]. cbn.
  unfold decode_live. destruct (unmarshalEnvelope d) as [v'| |] eqn:Hv; try done.
  destruct (expired_at (env_expiresAt v') t) eqn:He; [done|]. intros [= ->]. eauto.
Qed.

Lemma view_string m t key v :
  view m t key = Some (OString v) → string_of m t key = Some v ∧ ttl_dead m t key = false.
Proof.
  unfold view, collection_view. destruct (ttl_dead m t key); [done|].
  destruct (string_of m t key); [naive_solver|]. by repeat case_bool_decide.
Qed.

(** The reply payload of a string read. *)
Definition string_result (o : option robj) : result (option bytes) :=
  match o with
  | None => Ok None
  | Some (OString v) => Ok (Some (env_payload v))
  | Some _ => Err (wrongType (type_of o))
  end.

Lemma wp_redisString t key m Q :
  redis_ok m → short key →
  (∀ m', pruned m t key m' → Q (string_result (view m t key)) m') →
  wp (at_time t) (redisString key) Q m.
Proof.
  intros Hm Hs HQ. unfold redisString. wp_step. apply wp_redisType; [done..|].
  intros m' Hp. specialize (HQ m' Hp). destruct Hp as (_ & _ & Hp).
  destruct (view m t key) as [[v|h|x|l]|] eqn:Hv; cbn [type_of string_result] in *;
    [|by rd_steps..].
  subst m'. apply view_string in Hv as [(d & Hd & Hu & He)%string_of_inv _].
  wp_step. apply wp_store_Get. change (store_ValueKey key) with (valueKey key).
  rewrite Hd. wp_step. eapply wp_decodeRecord; [done|]. rd_steps. cbn [stored_ExpiresAt].
  rewrite He. by rd_steps.
Qed.

(** The expiry [putPayload] stores at time [t]. *)
Definition expiry_at (t ttl : Z) : Z :=
  if bool_decide (0 < ttl)%Z then unixNano (t + ttl) else 0%Z.

Lemma expiry_at_range t ttl : (minInt64 ≤ expiry_at t ttl ≤ maxInt64)%Z.
Proof.
  unfold expiry_at. case_bool_decide; [apply wrap64_range|unfold minInt64, maxInt64; lia].
Qed.

Lemma wp_putPayload t k codec payload ttl m Q :
  (Z.of_nat (length codec) ≤ 65535)%Z →
  (∀ d, unmarshalEnvelope d = Ok (mkEnvelope (expiry_at t ttl) codec payload) →
    Q (Ok tt) (<[k := d]> m)) →
  wp (at_time t) (putPayload k codec payload ttl) Q m.
Proof.
  intros Hc HQ. unfold putPayload. wp_step.
  assert (wp (at_time t)
    (if bool_decide (0 < ttl)%Z then t0 ← store_Now; mret (unixNano (t0 + ttl))
     else mret 0%Z : M Z)
    (λ r m', r = Ok (expiry_at t ttl) ∧ m' = m) m) as H.
  { unfold expiry_at. by case_bool_decide; rd_steps. }
  eapply wp_mono; [exact H|]. cbn beta iota. intros r m' [-> ->]. rd_steps.
  change (store_EncodeRecord codec payload) with (marshalEnvelope codec payload).
  rewrite marshalEnvelope_ok by done. rd_steps. apply HQ.
  eapply unmarshal_marshal; [apply expiry_at_range|by apply marshalEnvelope_ok].
Qed.

(** A string record alone makes a key a string. *)
Lemma view_fresh_string key m t d v :
  short key → m !! valueKey key = Some d → unmarshalEnvelope d = Ok v →
  m !! collectionTTLKey key = None →
  view m t key = if expired_at (env_expiresAt v) t then collection_view m t key
                 else Some (OString v).
Proof.
  intros Hs Hd Hv Ht. unfold view, ttl_dead, ttl_of, string_of. rewrite Ht, Hd. cbn.
  rewrite (decode_live_expired t d v Hv). by destruct (expired_at _ _).
Qed.

Lemma key_ok_blank key m :
  blank m key → (∀ d, m !! collectionTTLKey key = Some d → length d = 8) → key_ok m key.
Proof.
  intros Hb Httl. split_and!.
  - exists redisTypeNone. intros s Hk [x Hx]. destruct (kind_of s) eqn:E; [|auto].
    rewrite Hb in Hx by (done || by eexists). done.
  - intros s d Hk Hd. destruct s; cbn in Hk; subst; try by rewrite Hb in Hd by (done || by eexists).
    by apply Httl.
  - rewrite blank_value by done. by intros [].
Qed.

(** Nothing but a scalar record. *)
Definition scalar_only m key : Prop :=
  ∀ s, logical_key s = key → is_Some (kind_of s) → s ≠ SValue key →
    m !! storage_key s = None.

Lemma blank_scalar_only m key : blank m key → scalar_only m key.
Proof. intros Hb s Hk Hkind _. by apply Hb. Qed.

Lemma scalar_only_without m key : short key → scalar_only (without key m) key.
Proof. intros. by apply blank_scalar_only, blank_without. Qed.

Lemma scalar_only_string m t key v :
  key_ok m key → string_of m t key = Some v → scalar_only m key.
Proof.
  intros ([typ Hrep] & _ & _) (d & Hd & _)%string_of_inv s Hk Hkind Hne.
  assert (typ = redisTypeString) as ->.
  { destruct (Hrep (SValue key) eq_refl) as [H|H]; [by eexists|done|]. cbn in H. congruence. }
  apply (rep_other m key redisTypeString); [done..|].
  destruct s; cbn in *; congruence.
Qed.

Lemma key_ok_scalar key m d v :
  short key → scalar_only m key → unmarshalEnvelope d = Ok v →
  m !! collectionTTLKey key = None →
  key_ok (<[valueKey key := d]> m) key.
Proof.
  intros Hs Hb Hv Httl.
  assert (∀ s, logical_key s = key → s ≠ SValue key →
    <[valueKey key := d]> m !! storage_key s = None) as Hother.
  { intros s Hk Hne. rewrite lookup_insert_ne.
    - destruct (kind_of s) eqn:E; [by apply Hb|]. destruct s; try done. cbn in Hk. by subst.
    - intros Heq. apply Hne. symmetry. by apply storage_key_inj; [..|rewrite Hk|]. }
  split_and!.
  - exists redisTypeString. intros s Hk [x Hx].
    destruct s; cbn in Hk; subst; cbn [kind_of]; auto;
      rewrite Hother in Hx by done; done.
  - intros s x Hk Hx. destruct s; cbn in Hk; subst; try by rewrite Hother in Hx.
    cbn in Hx. rewrite lookup_insert_eq in Hx. simplify_eq. by exists v.
  - intros _. by apply (Hother (STTL key)).
Qed.

Lemma insert_elsewhere key s m d :
  short key → logical_key s = key → same_elsewhere key m (<[storage_key s := d]> m).
Proof.
  intros Hs Hk sk Ho. apply lookup_insert_ne. intros <-.
  rewrite owns_shape in Ho; done.
Qed.

Lemma delete_elsewhere key s m :
  short key → logical_key s = key → same_elsewhere key m (delete (storage_key s) m).
Proof.
  intros Hs Hk sk Ho. apply lookup_delete_ne. intros <-.
  rewrite owns_shape in Ho; done.
Qed.

(** What writing a string leaves: the key holds [value] until [expiresAt]
    (0 for ever), or nothing when that time has passed. *)
Definition written (t : Z) key codec value (expiresAt : Z) m m' : Prop :=
  redis_ok m' ∧ same_elsewhere key m m'
  ∧ ∀ t', (0 ≤ t' ≤ maxInt64)%Z →
    view m' t' key =
      if bool_decide (0 < expiresAt ∧ (expiresAt ≤ t ∨ expiresAt ≤ t'))%Z then None
      else Some (OString (mkEnvelope (Z.max 0 expiresAt) codec value)).

(** Storing a scalar record in a key without other records. *)
Lemma scalar_stored key m0 m d v :
  redis_ok m0 → short key → same_elsewhere key m0 m → scalar_only m key →
  m !! collectionTTLKey key = None → unmarshalEnvelope d = Ok v →
  redis_ok (<[valueKey key := d]> m) ∧ same_elsewhere key m0 (<[valueKey key := d]> m)
  ∧ ∀ t, view (<[valueKey key := d]> m) t key =
      if expired_at (env_expiresAt v) t then None else Some (OString v).
Proof.
  intros Hm Hs He Hb Httl Hv.
  assert (same_elsewhere key m0 (<[valueKey key := d]> m)) as He'.
  { eapply same_elsewhere_trans; [done|]. by apply (insert_elsewhere key (SValue key)). }
  assert (key_ok (<[valueKey key := d]> m) key) as Hok by by eapply key_ok_scalar.
  split_and!; [by eapply redis_ok_step|done|]. intros t.
  rewrite (view_fresh_string key _ t d v); [|done|apply lookup_insert_eq
    |done|by rewrite lookup_insert_ne].
  destruct (expired_at (env_expiresAt v) t); [|done].
  by destruct (blank_delete_value (<[valueKey key := d]> m) key d) as [_ Hcv];
    [done..|apply lookup_insert_eq|].
Qed.

Lemma removed_ok key m0 m :
  redis_ok m0 → short key → same_elsewhere key m0 m →
  redis_ok (without key m) ∧ same_elsewhere key m0 (without key m)
  ∧ ∀ t, view (without key m) t key = None.
Proof.
  intros Hm Hs He. assert (same_elsewhere key m0 (without key m)) as He'.
  { eapply same_elsewhere_trans; [done|apply without_elsewhere]. }
  split_and!; [|done|intros t; by apply blank_view, blank_without].
  eapply redis_ok_step; [done..|]. apply key_ok_blank; [by apply blank_without|].
  intros d Hd. pose proof (lookup_without key m (collectionTTLKey key)) as H.
  rewrite Hd, (owns_shape key (STTL key) Hs eq_refl : owns key (collectionTTLKey key) = true) in H.
  done.
Qed.

Lemma wp_redisWriteStringWithCodec t key value codec expiresAt m0 m Q :
  redis_ok m0 → short key → same_elsewhere key m0 m → scalar_only m key →
  (m !! collectionTTLKey key = None ∨ (expiresAt ≤ 0)%Z) →
  (Z.of_nat (length codec) ≤ 65535)%Z → (0 ≤ t ≤ maxInt64)%Z → (expiresAt ≤ maxInt64)%Z →
  (∀ m', written t key codec value expiresAt m0 m' → Q (Ok tt) m') →
  wp (at_time t) (redisWriteStringWithCodec key value codec expiresAt) Q m.
Proof.
  intros Hm Hs He Hb Httl Hc Ht Hmax HQ. unfold redisWriteStringWithCodec. store_names.
  case_bool_decide as Hpos.
  - wp_step. apply wp_putPayload; [done|]. intros d Hd. rd_steps. apply HQ.
    rewrite delete_insert_ne by done.
    edestruct (scalar_stored key m0 (delete (collectionTTLKey key) m) d) as (? & ? & Hv);
      [done|done|..|exact Hd|].
    + eapply same_elsewhere_trans; [done|]. by apply (delete_elsewhere key (STTL key)).
    + intros s Hk Hkind Hne. apply lookup_delete_None. right. by apply Hb.
    + apply lookup_delete_eq.
    + split_and!; [done..|]. intros t' Ht'. rewrite Hv. cbn. unfold expiry_at, expired_at.
      rewrite (bool_decide_eq_false_2 (0 < 0)%Z), !bool_decide_eq_false_2 by lia.
      by rewrite Z.max_l by lia.
  - destruct Httl as [Httl|?]; [|lia]. rd_steps. unfold saturate64.
    rewrite Z.min_l, Z.max_r by (unfold maxInt64, minInt64 in *; lia).
    case_bool_decide as Hdur.
    + wp_step. apply wp_redisDeleteRaw; [done|]. intros b _. rd_steps. apply HQ.
      destruct (removed_ok key m0 m) as (? & ? & Hv); [done..|].
      split_and!; [done..|]. intros t' Ht'. by rewrite Hv, bool_decide_eq_true_2 by lia.
    + apply wp_putPayload; [done|]. intros d Hd. apply HQ.
      destruct (scalar_stored key m0 m d _ Hm Hs He Hb Httl Hd) as (? & ? & Hv).
      split_and!; [done..|]. intros t' Ht'. rewrite Hv. cbn. unfold expiry_at, expired_at.
      rewrite (bool_decide_eq_true_2 (0 < expiresAt - t)%Z) by lia.
      replace (t + (expiresAt - t))%Z with expiresAt by lia.
      rewrite !unixNano_id by (unfold maxInt64 in *; lia).
      rewrite (bool_decide_ext (0 < expiresAt ∧ (expiresAt ≤ t ∨ expiresAt ≤ t'))%Z
        (0 < expiresAt ∧ expiresAt ≤ t')%Z) by lia.
      by rewrite Z.max_r by lia.
Qed.

(** The expiry a client sees. *)
Definition expiry_view m (t : Z) key : option Z :=
  match view m t key with
  | None => None
  | Some (OString v) => if bool_decide (0 < env_expiresAt v)%Z then Some (env_expiresAt v) else None
  | Some _ => ttl_of m key
  end.

Lemma pruned_ttl m t key m' :
  short key → pruned m t key m' → view m t key ≠ None → ttl_of m' key = ttl_of m key.
Proof.
  intros Hs (_ & _ & Hp) Hne. destruct (view m t key) as [[v|h|x|l]|]; subst; try done.
  unfold ttl_of. by rewrite (lookup_drop_dead_other m t key (STTL key) (ltac:(done)) Hs Hs :
    drop_dead m t key !! collectionTTLKey key = _).
Qed.

Lemma wp_redisExpiry t key m Q :
  redis_ok m → short key →
  (∀ m', pruned m t key m' → Q (Ok (expiry_view m t key)) m') →
  wp (at_time t) (redisExpiry key) Q m.
Proof.
  intros Hm Hs HQ. unfold redisExpiry, expiry_view in *. wp_step. apply wp_redisType; [done..|].
  intros m' Hp. specialize (HQ m' Hp). pose proof (pruned_ok _ _ _ _ Hm Hp key Hs) as Hok.
  pose proof (pruned_ttl m t key m' Hs Hp) as Httl. destruct Hp as (_ & _ & Hp).
  destruct (view m t key) as [[v|h|x|l]|] eqn:Hv; cbn [type_of] in *.
  - subst m'. apply view_string in Hv as [(d & Hd & Hu & He)%string_of_inv _].
    wp_step. apply wp_store_Get. store_names. rewrite Hd. wp_step.
    eapply wp_decodeRecord; [done|]. rd_steps. cbn [stored_ExpiresAt].
    by case_bool_decide; rd_steps.
  - apply wp_redisMetadataExpiry; [done|]. by rewrite Httl.
  - apply wp_redisMetadataExpiry; [done|]. by rewrite Httl.
  - apply wp_redisMetadataExpiry; [done|]. by rewrite Httl.
  - by rd_steps.
Qed.

(** Pruning twice, as commands that ask for the type again do. *)
Lemma pruned_again m t key m1 m2 :
  redis_ok m → short key → pruned m t key m1 → pruned m1 t key m2 → pruned m t key m2.
Proof.
  intros Hm Hs Hp1 Hp2. pose proof (pruned_view m t key m1 key Hs Hs Hp1) as Hv.
  pose proof Hp1 as (Hs1 & He1 & H1). destruct Hp2 as (Hs2 & He2 & H2).
  rewrite Hv in H2. split_and!; [by etrans|by eapply same_elsewhere_trans|].
  destruct (view m t key) as [[v|h|x|l]|]; subst; try done.
  apply map_eq. intros sk. rewrite !lookup_drop_dead.
  destruct (m !! sk) as [d|]; [|done]. by destruct (dead_field t key sk d) eqn:E; [|rewrite E].
Qed.

Lemma wp_catching readings (body : M respValue) m Q :
  wp readings body (λ r m', Q (match r with
                               | Ok reply => Ok reply
                               | Err e => Ok (redisErrorReply (Some e))
                               | Panic => Panic
                               end) m') m →
  wp readings (catching body) Q m.
Proof.
  intros H. unfold catching. apply wp_bind, wp_attempt. eapply wp_mono; [exact H|].
  by intros [] ?.
Qed.

Definition wrongTypeReply : respValue := respErrorString (sentinel_text errRedisWrongType).

Lemma wrongType_reply typ : redisErrorReply (Some (wrongType typ)) = wrongTypeReply.
Proof. done. Qed.

(** *** Reading *)

Definition get_reply (o : option robj) : respValue :=
  match o with
  | None => respNil
  | Some (OString v) => respBulkBytes (env_payload v)
  | Some _ => wrongTypeReply
  end.

Lemma wp_redisGet t cmd key m Q :
  redis_ok m → short key →
  (∀ m', pruned m t key m' → Q (Ok (get_reply (view m t key))) m') →
  wp (at_time t) (redisGet [cmd; key]) Q m.
Proof.
  intros Hm Hs HQ. apply wp_catching. wp_step. apply wp_redisString; [done..|].
  intros m' Hp. specialize (HQ m' Hp). unfold string_result.
  by destruct (view m t key) as [[]|]; rd_steps.
Qed.

(** *** Counters *)

(** The number a key holds: 0 when it is absent, none when it is not a
    decimal integer. *)
Definition counter_of (o : option robj) : option Z :=
  match o with
  | None => Some 0%Z
  | Some (OString v) => parse_big (env_payload v)
  | Some _ => None
  end.

(** Preconditions of a string write after pruning. *)
Lemma pruned_scalar m t key m' :
  redis_ok m → short key → pruned m t key m' →
  type_of (view m t key) = redisTypeNone ∨ type_of (view m t key) = redisTypeString →
  scalar_only m' key
  ∧ (view m t key = None ∨ m' !! collectionTTLKey key = None).
Proof.
  intros Hm Hs (Hsub & He & Hp) Htyp. destruct (view m t key) as [[v|h|x|l]|] eqn:Hv;
    cbn in Htyp; try by destruct Htyp.
  - subst m'. apply view_string in Hv as [Hstr _].
    split; [eapply scalar_only_string; [by apply Hm|done]|]. right.
    apply string_of_inv in Hstr as (d & Hd & _). apply (Hm key Hs). by eexists.
  - split; [by apply blank_scalar_only|auto].
Qed.

Lemma expiry_view_bound m t key : redis_ok m → short key →
  (default 0 (expiry_view m t key) ≤ maxInt64)%Z.
Proof.
  intros Hm Hs. unfold expiry_view, ttl_of.
  destruct (view m t key) as [[v|h|x|l]|] eqn:Hv; cbn; [|..|unfold maxInt64; lia].
  - case_bool_decide; cbn; [|unfold maxInt64; lia].
    apply view_string in Hv as [(d & _ & Hu & _)%string_of_inv _].
    by apply unmarshal_expiry_range in Hu as [_ ?].
  - destruct (m !! collectionTTLKey key); cbn; [apply wrap64_range|unfold maxInt64; lia].
  - destruct (m !! collectionTTLKey key); cbn; [apply wrap64_range|unfold maxInt64; lia].
  - destruct (m !! collectionTTLKey key); cbn; [apply wrap64_range|unfold maxInt64; lia].
Qed.

Definition overflowReply : respValue :=
  respErrorString ⟦"ERR increment or decrement would overflow"⟧.
Definition notIntegerReply : respValue :=
  respErrorString ⟦"ERR value is not an integer or out of range"⟧.

(** The outcome of a counter command on the view [o] of its key. *)
Definition incr_outcome (t : Z) key (delta : Z) m (r : result respValue) m' : Prop :=
  let o := view m t key in
  match counter_of o with
  | Some n =>
      if isInt64 (n + delta)
      then r = Ok (respIntegerValue (n + delta))
           ∧ written t key bytesCodec (format_int (n + delta))
               (default 0%Z (expiry_view m t key)) m m'
      else r = Ok overflowReply ∧ pruned m t key m'
  | None =>
      r = Ok (if bool_decide (type_of o = redisTypeString) then notIntegerReply
              else wrongTypeReply)
      ∧ pruned m t key m'
  end.

Lemma wp_redisIncrementBig t key delta m :
  redis_ok m → short key → (0 ≤ t ≤ maxInt64)%Z →
  wp (at_time t) (redisIncrementBig key delta) (incr_outcome t key delta m) m.
Proof.
  intros Hm Hs Ht. apply wp_catching. wp_step. apply wp_redisString; [done..|].
  intros m1 Hp. unfold incr_outcome, string_result, counter_of.
  pose proof (pruned_scalar m t key m1 Hm Hs Hp) as Hsc.
  destruct (view m t key) as [[v|h|x|l]|] eqn:Hv; cbn [type_of] in *;
    [|by rd_steps; rewrite bool_decide_eq_false_2 by done..|].
  1: destruct (parse_big (env_payload v)) as [n|];
    [|by rd_steps; rewrite bool_decide_eq_true_2 by done].
  all: cbn zeta beta iota; destruct (isInt64 _) eqn:Hi; cbn [negb]; [|by rd_steps].
  all: wp_step; apply wp_redisExpiry; [by eapply pruned_ok|done|]; intros m2 Hp2.
  all: pose proof (pruned_again m t key m1 m2 Hm Hs Hp Hp2) as Hp12.
  all: assert (expiry_view m1 t key = expiry_view m t key) as Hev
    by (unfold expiry_view; rewrite (pruned_view m t key m1 key), Hv by done; done).
  all: wp_step; destruct (pruned_scalar m t key m2 Hm Hs Hp12) as [Hso Htt];
    [by rewrite Hv; auto|].
  all: apply (wp_redisWriteStringWithCodec t key _ _ _ m); try done;
    [by apply (pruned_elsewhere m t)|rewrite Hev
    |rewrite Hev; by apply expiry_view_bound|].
  all: try (intros m' Hw; rd_steps; by rewrite <-Hev).
  - destruct Htt as [?|?]; [congruence|auto].
  - right. unfold expiry_view. by rewrite Hv.
Qed.

(** *** Writing *)

(** The options of a [SET] at time [t] parse to [opts]. *)
Definition options_parse `{GT : GoText} (t : Z) (args : list bytes) (opts : redisSetOptions) : Prop :=
  ∀ m, wp (at_time t) (redisSetOptions_parse args) (λ r m', r = Ok opts ∧ m' = m) m.

(** The outcome of [SET key value options]. *)
Definition set_outcome (t : Z) key value (opts : redisSetOptions) m (r : result respValue) m'
    : Prop :=
  let o := view m t key in
  let present := bool_decide (o ≠ None) in
  if opt_nx opts && present || opt_xx opts && negb present
  then r = Ok respNil ∧ pruned m t key m'
  else if opt_get opts && bool_decide (type_of o ∉ [redisTypeNone; redisTypeString])
  then r = Ok wrongTypeReply ∧ pruned m t key m'
  else
    r = Ok (if opt_get opts then get_reply o else respSimpleString ⟦"OK"⟧)
    ∧ written t key bytesCodec value
        (if opt_keepTTL opts && present && negb (opt_hasExpiry opts)
         then default 0%Z (expiry_view m t key) else opt_expiresAt opts) m m'.

Lemma view_present m t key :
  bool_decide (type_of (view m t key) ≠ redisTypeNone) = bool_decide (view m t key ≠ None).
Proof. apply bool_decide_ext. by destruct (view m t key) as [[]|]. Qed.

Lemma wp_redisDeleteAndWriteString t key value expiresAt m0 m Q :
  redis_ok m0 → short key → same_elsewhere key m0 m → (0 ≤ t ≤ maxInt64)%Z →
  (expiresAt ≤ maxInt64)%Z →
  (∀ m', written t key bytesCodec value expiresAt m0 m' → Q (Ok tt) m') →
  wp (at_time t) (redisDeleteAndWriteString key value expiresAt) Q m.
Proof.
  intros Hm Hs He Ht Hmax HQ. unfold redisDeleteAndWriteString. wp_step.
  apply wp_redisDeleteRaw; [done|]. intros b _.
  apply (wp_redisWriteStringWithCodec t key value bytesCodec expiresAt m0);
    auto using scalar_only_without.
  - eapply same_elsewhere_trans; [done|apply without_elsewhere].
  - left. rewrite lookup_without.
    by rewrite (owns_shape key (STTL key) Hs eq_refl : owns key (collectionTTLKey key) = true).
  - vm_compute. done.
Qed.

Lemma pruned_expiry_view m t key m' :
  short key → pruned m t key m' → expiry_view m' t key = expiry_view m t key.
Proof.
  intros Hs Hp. unfold expiry_view. rewrite (pruned_view m t key m' key) by done.
  destruct (view m t key) as [[]|] eqn:Hv; try done;
    by rewrite (pruned_ttl m t key m') by (done || by rewrite Hv).
Qed.

(** The old value a [SET ... GET] reads. *)
Lemma wp_set_old t key (get : bool) m m1 Q :
  redis_ok m → short key → pruned m t key m1 →
  (∀ m2, pruned m t key m2 →
     Q (if get && bool_decide (type_of (view m t key) ∉ [redisTypeNone; redisTypeString])
        then Err (wrongType (type_of (view m t key)))
        else Ok (if get then get_reply (view m t key) else respNil)) m2) →
  wp (at_time t) (if get && bool_decide (view m t key ≠ None)
    then oldValue ← redisString key; mret (bulk_or_nil oldValue)
    else mret respNil : M respValue) Q m1.
Proof.
  intros Hm Hs Hp1 HQ. destruct get; cbn [andb] in *; [|by rd_steps; apply HQ].
  pose proof (pruned_view m t key m1 key Hs Hs Hp1) as Hv1.
  destruct (view m t key) as [o|] eqn:Hv;
    [rewrite bool_decide_eq_true_2 by done|by rd_steps; apply HQ].
  wp_step. apply wp_redisString; [by eapply pruned_ok|done|]. intros m2 Hp2.
  specialize (HQ m2 (pruned_again m t key m1 m2 Hm Hs Hp1 Hp2)). rewrite Hv1.
  by destruct o; rd_steps.
Qed.

(** The expiry [SET ... KEEPTTL] keeps. *)
Lemma wp_set_keep t key (keep : bool) expiresAt m m2 Q :
  redis_ok m → short key → pruned m t key m2 →
  (∀ m3, pruned m t key m3 →
     Q (Ok (if keep then default 0%Z (expiry_view m t key) else expiresAt)) m3) →
  wp (at_time t) (if keep then expiry ← redisExpiry key; mret (default 0%Z expiry)
                  else mret expiresAt : M Z) Q m2.
Proof.
  intros Hm Hs Hp2 HQ. destruct keep; [|by rd_steps; apply HQ].
  wp_step. apply wp_redisExpiry; [by eapply pruned_ok|done|]. intros m3 Hp3.
  specialize (HQ m3 (pruned_again m t key m2 m3 Hm Hs Hp2 Hp3)).
  rewrite (pruned_expiry_view m t key m2) by done. by rd_steps.
Qed.

Lemma wp_redisSet `{GT : GoText} t cmd key value rest opts m :
  redis_ok m → short key → (0 ≤ t ≤ maxInt64)%Z → (opt_expiresAt opts ≤ maxInt64)%Z →
  options_parse t (cmd :: key :: value :: rest) opts →
  wp (at_time t) (redisSet (cmd :: key :: value :: rest)) (set_outcome t key value opts m) m.
Proof.
  intros Hm Hs Ht Hmax Hopts. apply wp_catching. wp_step.
  eapply wp_mono; [apply Hopts|]. cbn beta. intros r ? [-> ->]. cbv beta iota.
  wp_step. apply wp_redisType; [done..|]. intros m1 Hp1. rewrite view_present.
  unfold set_outcome. set (present := bool_decide (view m t key ≠ None)).
  destruct (opt_nx opts && present); cbn [orb]; [by rd_steps|].
  destruct (opt_xx opts && negb present); [by rd_steps|].
  wp_step. apply (wp_set_old t key _ m); [done..|]. intros m2 Hp2.
  destruct (opt_get opts && bool_decide _) eqn:Hg; [done|]. cbv beta iota.
  wp_step. apply (wp_set_keep t key _ _ m); [done..|]. intros m3 Hp3. wp_step.
  apply (wp_redisDeleteAndWriteString t key value _ m); [done|done| |done| |].
  - by apply (pruned_elsewhere m t).
  - destruct (_ && _ && _); [by apply expiry_view_bound|done].
  - intros m' Hw. by destruct (opt_get opts); rd_steps.
Qed.

(** *** Expiry arithmetic *)

Definition unit_of (command : bytes) : Z :=
  if strings_HasPrefix command ⟦"P"⟧ then time_Millisecond else time_Second.

Lemma unit_cases command : unit_of command = 1000000%Z ∨ unit_of command = 1000000000%Z.
Proof. unfold unit_of. destruct (strings_HasPrefix command ⟦"P"⟧); auto. Qed.

Lemma quot_range amount unit :
  unit = 1000000%Z ∨ unit = 1000000000%Z →
  (redisMaxInt64 `quot` unit < amount ∨ amount < redisMinInt64 `quot` unit)%Z
  ↔ isInt64 (amount * unit) = false.
Proof.
  intros Hu. unfold isInt64. rewrite bool_decide_eq_false.
  unfold redisMaxInt64, redisMinInt64, maxInt64, minInt64.
  destruct Hu as [-> | ->].
  - change ((2 ^ 63 - 1) `quot` 1000000)%Z with 9223372036854%Z.
    change ((- 2 ^ 63) `quot` 1000000)%Z with (-9223372036854)%Z. lia.
  - change ((2 ^ 63 - 1) `quot` 1000000000)%Z with 9223372036%Z.
    change ((- 2 ^ 63) `quot` 1000000000)%Z with (-9223372036)%Z. lia.
Qed.

(** [redisExpiryFromCommand] without machine arithmetic. *)
Lemma redisExpiryFromCommand_exact now command amount :
  (minInt64 ≤ now ≤ maxInt64)%Z →
  redisExpiryFromCommand now command amount =
  let delta := (amount * unit_of command)%Z in
  let target := if strings_HasSuffix command ⟦"AT"⟧ then delta else (now + delta)%Z in
  if isInt64 delta && isInt64 target then Ok target else Err invalidExpire.
Proof.
  intros Hnow. unfold redisExpiryFromCommand. fold (unit_of command).
  rewrite (bool_decide_ext _ _ (quot_range amount _ (unit_cases command))).
  cbn zeta. set (delta := (amount * unit_of command)%Z).
  destruct (isInt64 delta) eqn:Hd; cbn [andb];
    [rewrite bool_decide_eq_false_2 by done|by rewrite bool_decide_eq_true_2].
  apply bool_decide_eq_true in Hd. rewrite (wrap64_id delta) by done.
  destruct (strings_HasSuffix command ⟦"AT"⟧).
  { by rewrite (proj2 (bool_decide_eq_true _) Hd : isInt64 delta = true). }
  unfold unixNano. rewrite (wrap64_id now) by done.
  unfold isInt64, redisMaxInt64, redisMinInt64, minInt64, maxInt64 in *.
  destruct (decide (0 < delta)%Z) as [Hpos|Hneg].
  - rewrite wrap64_id by (unfold minInt64, maxInt64; lia).
    rewrite (bool_decide_eq_false_2 (delta < 0 ∧ _)%Z) by lia.
    do 2 case_bool_decide; try lia; try done.
    rewrite wrap64_id by (unfold minInt64, maxInt64; lia). done.
  - rewrite (bool_decide_eq_false_2 (0 < delta ∧ _)%Z) by lia.
    destruct (decide (delta < 0)%Z).
    + rewrite wrap64_id by (unfold minInt64, maxInt64; lia).
      do 2 case_bool_decide; try lia; try done.
      rewrite wrap64_id by (unfold minInt64, maxInt64; lia). done.
    + rewrite (bool_decide_eq_false_2 (delta < 0 ∧ _)%Z) by lia.
      rewrite bool_decide_eq_true_2 by lia.
      rewrite wrap64_id by (unfold minInt64, maxInt64; lia). done.
Qed.

(** *** Expiry of a key *)

(** An expiry record on a key that holds a collection. *)
Lemma collection_expires key m t e :
  redis_ok m → short key → (minInt64 ≤ e ≤ maxInt64)%Z →
  m !! valueKey key = None →
  let m' := <[collectionTTLKey key := encodeRedisExpiry e]> m in
  redis_ok m' ∧ same_elsewhere key m m' ∧ ttl_of m' key = Some e
  ∧ view m' t key = if bool_decide (e ≤ unixNano t)%Z then None else collection_view m t key.
Proof.
  intros Hm Hs He Hval m'.
  assert (same_elsewhere key m m') as Hels by by apply (insert_elsewhere key (STTL key)).
  assert (∀ s, s ≠ STTL key → short (logical_key s) → m' !! storage_key s = m !! storage_key s)
    as Hsame.
  { intros s Hne Hsh. apply lookup_insert_ne. intros Heq. apply Hne. symmetry.
    by apply storage_key_inj. }
  assert (m' !! valueKey key = None) as Hval' by by unfold m'; rewrite lookup_insert_ne.
  assert (ttl_of m' key = Some e) as Httl.
  { unfold ttl_of, m'. rewrite lookup_insert_eq. cbn. f_equal. by apply be_int64_roundtrip. }
  split_and!; [|done|done|].
  - eapply redis_ok_step; [done..|]. destruct (Hm key Hs) as ([typ Hrep] & Hok & _).
    split_and!.
    + exists typ. intros s Hk Hx. destruct (decide (kind_of s = None)); [auto|].
      apply Hrep; [done|]. rewrite <-Hsame by (by intros -> || by rewrite Hk). done.
    + intros s d Hk Hd. destruct (kind_of s) eqn:Ek.
      * apply Hok; [done|]. rewrite <-Hsame by (by intros -> || by rewrite Hk). done.
      * destruct s; try done. cbn in Hk. subst. cbn in Hd.
        unfold m' in Hd. rewrite lookup_insert_eq in Hd. simplify_eq. apply be_put_length.
    + intros [d Hd]. by rewrite Hval' in Hd.
  - unfold view, ttl_dead. rewrite Httl. case_bool_decide; [done|].
    unfold string_of. rewrite Hval'. cbn. apply collection_view_same.
    intros s Hk Hkind. apply Hsame; [|by rewrite Hk]. intros ->. set_solver.
Qed.

Lemma unmarshal_codec_length d v :
  unmarshalEnvelope d = Ok v → (Z.of_nat (length (env_codec v)) ≤ 65535)%Z.
Proof.
  intros Hv%marshal_unmarshal. unfold marshalEnvelope in Hv. case_bool_decide; [done|lia].
Qed.

Definition with_expiry (e : Z) (o : robj) : robj :=
  match o with
  | OString v => OString (mkEnvelope e (env_codec v) (env_payload v))
  | _ => o
  end.

(** The outcome of giving a key the expiry [e]. *)
Definition expire_outcome (t : Z) key (e : Z) m (r : result bool) m' : Prop :=
  match view m t key with
  | None => r = Ok false ∧ pruned m t key m'
  | Some o =>
      r = Ok true ∧ redis_ok m' ∧ same_elsewhere key m m'
      ∧ (∀ t', (0 ≤ t' ≤ maxInt64)%Z → (e ≤ t ∨ e ≤ t')%Z → view m' t' key = None)
      ∧ ((t < e)%Z → view m' t key = Some (with_expiry e o) ∧ expiry_view m' t key = Some e)
  end.

(** A visible collection has no scalar record, and is what the collection
    records say. *)
Lemma view_collection m t key o :
  redis_ok m → short key → view m t key = Some o → (∀ v, o ≠ OString v) →
  m !! valueKey key = None ∧ collection_view m t key = Some o ∧ ttl_dead m t key = false.
Proof.
  intros Hm Hs Hv Hne. unfold view in Hv. destruct (ttl_dead m t key); [done|].
  destruct (string_of m t key) as [v|]; [by simplify_eq; destruct (Hne v)|].
  split_and!; [|done..]. destruct (m !! valueKey key) as [d|] eqn:Hd; [|done].
  destruct (blank_delete_value m key d Hs (Hm key Hs) Hd) as [_ Hcv].
  by rewrite Hcv in Hv.
Qed.

Lemma wp_redisSetExpiry t key e m :
  redis_ok m → short key → (0 ≤ t ≤ maxInt64)%Z → (minInt64 ≤ e ≤ maxInt64)%Z →
  wp (at_time t) (redisSetExpiry key e) (expire_outcome t key e m) m.
Proof.
  intros Hm Hs Ht He. unfold redisSetExpiry. wp_step. apply wp_redisType; [done..|].
  intros m1 Hp. pose proof (pruned_ok _ _ _ _ Hm Hp) as Hm1.
  pose proof (pruned_elsewhere _ _ _ _ Hp) as Hels.
  pose proof (pruned_view m t key m1 key Hs Hs Hp) as Hv1.
  unfold expire_outcome. destruct (view m t key) as [o|] eqn:Hv; [|by rd_steps].
  rewrite bool_decide_eq_false_2 by by destruct o. rd_steps.
  rewrite unixNano_id by done. case_bool_decide as Hpast.
  { wp_step. apply wp_redisDeleteRaw; [done|]. intros b _. rd_steps.
    destruct (removed_ok key m m1) as (? & ? & Hnone); [done..|].
    split_and!; [done..|by intros; apply Hnone|lia]. }
  destruct o as [v|h|x|l]; cbn [type_of];
    [rewrite bool_decide_eq_true_2 by done|rewrite bool_decide_eq_false_2 by done..].
  { pose proof Hv1 as [Hstr _]%view_string.
    destruct (pruned_scalar m t key m1 Hm Hs Hp) as [Hso [?|Htt]]; [by rewrite Hv; auto|congruence|].
    apply string_of_inv in Hstr as (d & Hd & Hu & Hx). wp_step. apply wp_store_Get. store_names.
    rewrite Hd. wp_step. eapply wp_decodeRecord; [done|]. wp_step. cbn [stored_Payload stored_Codec].
    apply (wp_redisWriteStringWithCodec t key _ _ e m); auto;
      [by eapply unmarshal_codec_length|lia|].
    intros m' (Hok & Hels' & Hview). rd_steps. store_names.
    assert (m' !! collectionTTLKey key = None) as Hnt.
    { apply (Hok key Hs). specialize (Hview t Ht).
      rewrite bool_decide_eq_false_2 in Hview by lia.
      apply view_string in Hview as [(d' & Hd' & _)%string_of_inv _]. by eexists. }
    rewrite delete_id by done. split_and!; [done..| |].
    - intros t' Ht' Hor. rewrite Hview, bool_decide_eq_true_2 by lia. done.
    - intros _. pose proof (Hview t Ht) as Hvt. rewrite bool_decide_eq_false_2 in Hvt by lia.
      rewrite Z.max_r in Hvt by lia. split; [done|]. unfold expiry_view. rewrite Hvt.
      cbn. by rewrite bool_decide_eq_true_2 by lia. }
  all: destruct (view_collection m1 t key _ Hm1 Hs Hv1) as (Hval & Hcv & _); [done|].
  all: rd_steps; store_names.
  all: split_and!; [done|by eapply (collection_expires key m1 t)
    |eapply same_elsewhere_trans; [done|by eapply (collection_expires key m1 t)]| |].
  all: try (intros t' Ht' Hor; destruct (collection_expires key m1 t' e) as (_ & _ & _ & ->);
    [done..|]; rewrite unixNano_id, bool_decide_eq_true_2 by (done || lia); done).
  all: intros _; destruct (collection_expires key m1 t e) as (_ & _ & Httl & Hvw); [done..|];
    rewrite unixNano_id, bool_decide_eq_false_2, Hcv in Hvw by (done || lia);
    split; [done|]; unfold expiry_view; by rewrite Hvw.
Qed.
