(* ===== verification/RedisStringProps.v ===== *)
(** * Properties of the Redis string, key and expiry commands *)

From S2P Require Import Prelude Errors Engine Effects MemDriver Envelope Keys ListCodec Text DriverName DB DBTheorems Collections Transport Resp RedisStorage RedisStrings RedisModel RedisTheorems.

Implicit Types (m : gmap bytes bytes) (key value cmd arg : bytes).

Lemma redis_ok_empty : redis_ok ∅.
Proof.
  intros key Hs. apply key_ok_blank; [|by intros d; rewrite lookup_empty].
  intros s _ _. apply lookup_empty.
Qed.

(** The deadline of a visible key lies ahead. *)
Lemma expiry_view_ahead m t key e :
  redis_ok m → short key → (0 ≤ t ≤ maxInt64)%Z → expiry_view m t key = Some e → (t < e)%Z.
Proof.
  intros Hm Hs Ht. unfold expiry_view. destruct (view m t key) as [[v|h|x|l]|] eqn:Hv; [|..|done].
  { apply view_string in Hv as [(d & _ & _ & Hx)%string_of_inv _].
    case_bool_decide; [|done]. intros [= <-]. unfold expired_at in Hx.
    apply bool_decide_eq_false in Hx. rewrite unixNano_id in Hx by done. lia. }
  all: destruct (view_collection m t key _ Hm Hs Hv) as (_ & _ & Hd); [done|];
    intros Httl; unfold ttl_dead in Hd; rewrite Httl, unixNano_id in Hd by done;
    apply bool_decide_eq_false in Hd; lia.
Qed.

Definition ttl_reply m (t : Z) key (unit : Z) : Z :=
  match view m t key, expiry_view m t key with
  | None, _ => -2
  | Some _, None => -1
  | Some _, Some e => Z.max 1 ((e - t) `quot` unit)
  end.

Lemma wp_redisTTLCommand t cmd key command m Q :
  redis_ok m → short key → (0 ≤ t ≤ maxInt64)%Z →
  (∀ m', pruned m t key m' →
    Q (Ok (respIntegerValue (ttl_reply m t key
       (if bool_decide (command = ⟦"PTTL"⟧) then time_Millisecond else time_Second)))) m') →
  wp (at_time t) (redisTTLCommand [cmd; key] command) Q m.
Proof.
  intros Hm Hs Ht HQ. apply wp_catching. wp_step. apply wp_redisExpiry; [done..|].
  intros m1 Hp. pose proof (expiry_view_ahead m t key) as Hahead. unfold ttl_reply in HQ.
  destruct (expiry_view m t key) as [e|] eqn:He; cbv beta iota.
  - rd_steps. cbn zeta. specialize (Hahead e Hm Hs Ht eq_refl). rewrite (unixNano_id t) by done.
    pose proof (expiry_view_bound m t key Hm Hs) as Hb. rewrite He in Hb. cbn in Hb.
    rewrite wrap64_id by (unfold minInt64, maxInt64 in *; lia).
    rewrite bool_decide_eq_false_2 by lia. rd_steps. specialize (HQ m1 Hp).
    unfold expiry_view in He. by destruct (view m t key).
  - wp_step. apply wp_redisType; [by eapply pruned_ok|done|]. intros m2 Hp2. rd_steps.
    specialize (HQ m2 (pruned_again m t key m1 m2 Hm Hs Hp Hp2)).
    rewrite (pruned_view m t key m1 key) by done.
    destruct (view m t key) as [[]|]; done.
Qed.

(** ** Deletion *)

Definition has_record m key : bool := existsb (λ kv, owns key kv.1) (map_to_list m).

Lemma has_record_spec m key :
  has_record m key = true ↔ ∃ sk v, m !! sk = Some v ∧ owns key sk = true.
Proof.
  unfold has_record. rewrite existsb_exists. split.
  - intros ([sk v] & Hin & Ho). apply list_elem_of_In, elem_of_map_to_list in Hin. eauto.
  - intros (sk & v & Hm & Ho). exists (sk, v). split; [|done].
    by apply list_elem_of_In, elem_of_map_to_list.
Qed.

Definition owned_by_some (keys : list bytes) (sk : bytes) : bool :=
  existsb (λ key, owns key sk) keys.

(** The keys of [keys] that own a record. *)
Definition existing m (keys : list bytes) : gset bytes :=
  filter (λ key, has_record m key = true) (list_to_set keys).

Lemma has_record_without m key key' :
  short key → short key' →
  has_record (without key m) key' = has_record m key' && bool_decide (key ≠ key').
Proof.
  intros Hs Hs'. apply eq_bool_prop_intro. rewrite andb_True, bool_decide_spec, !Is_true_true,
    !has_record_spec. split.
  - intros (sk & v & Hm & Ho). rewrite lookup_without in Hm.
    destruct (owns key sk) eqn:Hk; [done|]. split; [eauto|]. intros ->. congruence.
  - intros [(sk & v & Hm & Ho) Hne]. exists sk, v. rewrite lookup_without.
    unfold owns in *. apply bool_decide_eq_true in Ho.
    by rewrite bool_decide_eq_false_2 by congruence; rewrite bool_decide_eq_true_2.
Qed.

Lemma elem_of_existing_without m key keys key' :
  short key → Forall short keys →
  key' ∈ existing (without key m) keys ↔ key' ∈ existing m keys ∧ key ≠ key'.
Proof.
  intros Hk Hs. unfold existing. rewrite !elem_of_filter, !elem_of_list_to_set.
  rewrite Forall_forall in Hs. split.
  - intros [Hr Hin]. rewrite has_record_without in Hr by auto.
    apply andb_prop in Hr as [? ?%bool_decide_eq_true]. auto.
  - intros [[Hr Hin] Hne]. rewrite has_record_without by auto.
    by rewrite Hr, bool_decide_eq_true_2.
Qed.

Lemma size_existing_cons m key keys :
  short key → Forall short keys →
  size (existing m (key :: keys))
  = size (existing (without key m) keys) + (if has_record m key then 1 else 0).
Proof.
  intros Hk Hs. pose proof (λ k, elem_of_existing_without m key keys k Hk Hs) as Hex.
  destruct (has_record m key) eqn:Hr.
  - assert (existing m (key :: keys) = {[key]} ∪ existing (without key m) keys) as ->.
    { apply set_eq. intros k. rewrite elem_of_union, elem_of_singleton, Hex.
      unfold existing. rewrite !elem_of_filter, !elem_of_list_to_set, elem_of_cons.
      clear -Hr. destruct (decide (key = k)) as [<-|]; intuition congruence. }
    rewrite size_union, size_singleton by (rewrite disjoint_singleton_l, Hex; tauto). lia.
  - assert (existing m (key :: keys) = existing (without key m) keys) as ->; [|lia].
    apply set_eq. intros k. rewrite Hex. unfold existing.
    rewrite !elem_of_filter, !elem_of_list_to_set, elem_of_cons.
    clear -Hr. destruct (decide (key = k)) as [<-|]; intuition congruence.
Qed.

Lemma wp_delete_count readings keys n m Q :
  Forall short keys → (0 ≤ n)%Z → (n + Z.of_nat (length keys) ≤ maxInt64)%Z →
  (∀ m', (∀ sk, m' !! sk = if owned_by_some keys sk then None else m !! sk) →
    Q (Ok (n + Z.of_nat (size (existing m keys)))%Z) m') →
  wp readings (for_each keys
    (λ key count, deleted ← redisDeleteRaw key;
       mret (if deleted : bool then wrap64 (count + 1) else count)) n) Q m.
Proof.
  intros Hs. revert n m.
  induction Hs as [|key keys Hk Hs IH]; intros n m Hn Hmax HQ; cbn [for_each].
  - rd_steps. assert (existing m [] = ∅) as He
      by (apply set_eq; intros k; unfold existing; rewrite elem_of_filter; set_solver).
    replace n with (n + Z.of_nat (size (existing m [])))%Z by (rewrite He, size_empty; lia).
    by apply HQ.
  - rewrite length_cons in Hmax. rd_steps. apply wp_redisDeleteRaw; [done|].
    intros b Hb. rd_steps. assert (b = has_record m key) as ->.
    { apply eq_bool_prop_intro. rewrite !Is_true_true, has_record_spec. done. }
    pose proof (size_existing_cons m key keys Hk Hs) as Hsize.
    rewrite wrap64_id by (unfold minInt64; lia).
    apply IH; [destruct (has_record m key); lia..|]. intros m' Hm'.
    replace ((if has_record m key then n + 1 else n)
             + Z.of_nat (size (existing (without key m) keys)))%Z
      with (n + Z.of_nat (size (existing m (key :: keys))))%Z
      by (rewrite Hsize; destruct (has_record m key); lia).
    apply HQ. intros sk. rewrite Hm', lookup_without. unfold owned_by_some. cbn [existsb].
    by destruct (owns key sk), (existsb (λ key0, owns key0 sk) keys).
Qed.

(** ** Properties *)

(** [TYPE] and every command that asks for the type see the abstract
    database: the program returns the type of the key's value at the present
    instant, and whatever records it removes on the way were invisible (no
    view of any key changes, records of other keys are untouched). *)
Theorem redis_type_refines t key :
  short key →
  triple (at_time t) redis_ok (redisType key)
    (λ m r m', r = Ok (type_of (view m t key))
       ∧ redis_ok m' ∧ m' ⊆ m ∧ same_elsewhere key m m' ∧ same_views t m m').
Proof.
  intros Hs. apply triple_intro. intros m Hm. apply wp_redisType; [done..|].
  intros m' Hp. split_and!; [done|by eapply pruned_ok|by destruct Hp| |].
  - by eapply pruned_elsewhere.
  - by apply (pruned_same_views m t key).
Qed.

Lemma redis_type_refines_witness :
  redis_ok ∅ ∧ short ⟦"k"⟧
  ∧ triple (at_time 5) redis_ok (redisType ⟦"k"⟧)
      (λ m r m', r = Ok (type_of (view m 5 ⟦"k"⟧))
         ∧ redis_ok m' ∧ m' ⊆ m ∧ same_elsewhere ⟦"k"⟧ m m' ∧ same_views 5 m m').
Proof.
  split; [apply redis_ok_empty|]. split; [vm_compute; reflexivity|].
  apply redis_type_refines. vm_compute; reflexivity.
Defined.

(** [GET] returns the payload of a visible string, nil for a key that is
    absent or expired, and a WRONGTYPE error for a hash, set or list; it
    changes no view. *)
Theorem redis_get_refines t cmd key :
  short key →
  triple (at_time t) redis_ok (redisGet [cmd; key])
    (λ m r m', r = Ok (get_reply (view m t key))
       ∧ redis_ok m' ∧ same_elsewhere key m m' ∧ same_views t m m').
Proof.
  intros Hs. apply triple_intro. intros m Hm. apply wp_redisGet; [done..|].
  intros m' Hp. split_and!; [done|by eapply pruned_ok|by eapply pruned_elsewhere|].
  by apply (pruned_same_views m t key).
Qed.

Lemma redis_get_refines_witness :
  redis_ok ∅ ∧ short ⟦"k"⟧
  ∧ triple (at_time 5) redis_ok (redisGet [⟦"GET"⟧; ⟦"k"⟧])
      (λ m r m', r = Ok (get_reply (view m 5 ⟦"k"⟧))
         ∧ redis_ok m' ∧ same_elsewhere ⟦"k"⟧ m m' ∧ same_views 5 m m').
Proof.
  split; [apply redis_ok_empty|]. split; [vm_compute; reflexivity|].
  apply redis_get_refines. vm_compute; reflexivity.
Defined.

(** C6: [SET key value options] honours NX, XX, GET, KEEPTTL and the expiry
    options: it either leaves every view as it was (NX on a present key, XX
    on an absent one, GET on a key of another type), or stores the value
    until exactly the requested or kept deadline, replacing whatever the key
    held; no other key's records change. *)
Theorem redis_set_refines {GT : GoText} t cmd key value rest opts :
  short key → (0 ≤ t ≤ maxInt64)%Z → (opt_expiresAt opts ≤ maxInt64)%Z →
  options_parse t (cmd :: key :: value :: rest) opts →
  triple (at_time t) redis_ok (redisSet (cmd :: key :: value :: rest))
    (set_outcome t key value opts).
Proof. intros. apply triple_intro. intros m Hm. by apply wp_redisSet. Qed.

Lemma redis_set_refines_witness :
  let args := [⟦"SET"⟧; ⟦"k"⟧; ⟦"v"⟧; ⟦"px"⟧; ⟦"250"⟧; ⟦"NX"⟧] in
  let opts := mkSetOptions 250001000 true true false false false in
  short ⟦"k"⟧ ∧ options_parse (GT := ascii_GoText) 1000 args opts
  ∧ triple (at_time 1000) redis_ok (redisSet (GT := ascii_GoText) args)
      (set_outcome 1000 ⟦"k"⟧ ⟦"v"⟧ opts).
Proof.
  intros args opts.
  assert (options_parse (GT := ascii_GoText) 1000 args opts) as Hopts.
  { intros m t' ->. by vm_compute. }
  split; [vm_compute; reflexivity|]. split; [exact Hopts|].
  apply (redis_set_refines (GT := ascii_GoText));
    [vm_compute; reflexivity|vm_compute; split; discriminate|vm_compute; discriminate|exact Hopts].
Defined.

(** C11: Counters never wrap: [INCRBY], [DECRBY], [INCR] and [DECR] store and
    return the exact sum when it fits a 64-bit integer and keep the key's
    deadline; otherwise, or when the key does not hold an integer, they
    return an error and no view changes. The negated [DECRBY] argument does
    not overflow either. *)
Theorem redis_counter_exact t cmd key arg delta :
  short key → (0 ≤ t ≤ maxInt64)%Z → parse_int 64 arg = Some delta →
  triple (at_time t) redis_ok (redisIncrementByCommand [cmd; key; arg] false)
    (incr_outcome t key delta)
  ∧ triple (at_time t) redis_ok (redisIncrementByCommand [cmd; key; arg] true)
      (incr_outcome t key (- delta))
  ∧ triple (at_time t) redis_ok (redisIncrementCommand [cmd; key] 1) (incr_outcome t key 1)
  ∧ triple (at_time t) redis_ok (redisIncrementCommand [cmd; key] (-1))
      (incr_outcome t key (-1)).
Proof.
  intros Hs Ht Harg. unfold redisIncrementByCommand, redisParseInt. rewrite Harg.
  split_and!; apply triple_intro; intros m Hm; by apply wp_redisIncrementBig.
Qed.

Lemma redis_counter_exact_witness :
  short ⟦"n"⟧ ∧ parse_int 64 ⟦"-9223372036854775808"⟧ = Some minInt64
  ∧ triple (at_time 0) redis_ok
      (redisIncrementByCommand [⟦"DECRBY"⟧; ⟦"n"⟧; ⟦"-9223372036854775808"⟧] true)
      (incr_outcome 0 ⟦"n"⟧ (- minInt64)).
Proof.
  split; [vm_compute; reflexivity|]. split; [vm_compute; reflexivity|].
  apply (redis_counter_exact 0 ⟦"DECRBY"⟧ ⟦"n"⟧ ⟦"-9223372036854775808"⟧ minInt64);
    [vm_compute; reflexivity|vm_compute; split; discriminate|vm_compute; reflexivity].
Defined.

(** The deadline arithmetic of [EXPIRE], [PEXPIRE], [EXPIREAT], [PEXPIREAT]
    and [GETEX] is exact: for every amount the result is the mathematical
    deadline when the offset and the deadline fit a 64-bit nanosecond clock,
    and an error otherwise; no intermediate product or sum wraps. *)
Theorem expiry_arithmetic_exact now command amount :
  (minInt64 ≤ now ≤ maxInt64)%Z →
  redisExpiryFromCommand now command amount =
  let delta := (amount * unit_of command)%Z in
  let target := if strings_HasSuffix command ⟦"AT"⟧ then delta else (now + delta)%Z in
  if isInt64 delta && isInt64 target then Ok target else Err invalidExpire.
Proof. apply redisExpiryFromCommand_exact. Qed.

Lemma expiry_arithmetic_exact_witness :
  (minInt64 ≤ 1000 ≤ maxInt64)%Z
  ∧ redisExpiryFromCommand 1000 ⟦"PEXPIRE"⟧ 9223372036854 = Ok 9223372036854001000%Z
  ∧ redisExpiryFromCommand 1000 ⟦"EXPIRE"⟧ 9223372037 = Err invalidExpire.
Proof.
  split; [vm_compute; split; discriminate|].
  split; (rewrite expiry_arithmetic_exact;
    [vm_compute; reflexivity|vm_compute; split; discriminate]).
Defined.

(** [EXPIRE] and its variants: on an absent key they do nothing and reply 0;
    on a present key they reply 1, the key keeps its value until exactly the
    deadline and is gone from then on (at once when the deadline is not
    ahead), and the deadline is what [TTL] reports; other keys are
    untouched. *)
Theorem redis_expire_refines t cmd key arg amount command e :
  short key → (0 ≤ t ≤ maxInt64)%Z → parse_int 64 arg = Some amount →
  redisExpiryFromCommand t command amount = Ok e →
  triple (at_time t) redis_ok (redisExpireCommand [cmd; key; arg] command)
    (λ m r m', ∃ b, r = Ok (one_or_zero b) ∧ expire_outcome t key e m (Ok b) m').
Proof.
  intros Hs Ht Harg He. apply triple_intro. intros m Hm. apply wp_catching. wp_step.
  unfold redisParseInt. rewrite Harg. rd_steps. rewrite He. rd_steps.
  eapply wp_mono; [apply wp_redisSetExpiry; [done..|]|].
  - rewrite redisExpiryFromCommand_exact in He by (unfold minInt64, maxInt64 in *; lia).
    cbn zeta in He. destruct (_ && _) eqn:Hi; [|done].
    apply andb_prop in Hi as [_ Hi]. apply Ok_inj in He as <-. by apply bool_decide_eq_true in Hi.
  - intros r m' Ho. unfold expire_outcome in *.
    destruct (view m t key); destruct Ho as [-> Ho]; rd_steps; eauto.
Qed.

Lemma redis_expire_refines_witness :
  short ⟦"k"⟧ ∧ redisExpiryFromCommand 7 ⟦"EXPIRE"⟧ 2 = Ok 2000000007%Z
  ∧ triple (at_time 7) redis_ok (redisExpireCommand [⟦"EXPIRE"⟧; ⟦"k"⟧; ⟦"2"⟧] ⟦"EXPIRE"⟧)
      (λ m r m', ∃ b, r = Ok (one_or_zero b)
         ∧ expire_outcome 7 ⟦"k"⟧ 2000000007 m (Ok b) m').
Proof.
  split; [vm_compute; reflexivity|]. split; [vm_compute; reflexivity|].
  apply (redis_expire_refines 7 ⟦"EXPIRE"⟧ ⟦"k"⟧ ⟦"2"⟧ 2 ⟦"EXPIRE"⟧ 2000000007);
    [vm_compute; reflexivity|vm_compute; split; discriminate
    |vm_compute; reflexivity|vm_compute; reflexivity].
Defined.

(** [TTL] and [PTTL] reply -2 for an absent or expired key, -1 for a key
    without a deadline, and otherwise the remaining whole units, at least 1;
    the subtraction never wraps and no view changes. *)
Theorem redis_ttl_refines t cmd key command :
  short key → (0 ≤ t ≤ maxInt64)%Z →
  triple (at_time t) redis_ok (redisTTLCommand [cmd; key] command)
    (λ m r m', r = Ok (respIntegerValue (ttl_reply m t key
         (if bool_decide (command = ⟦"PTTL"⟧) then time_Millisecond else time_Second)))
       ∧ redis_ok m' ∧ same_elsewhere key m m' ∧ same_views t m m').
Proof.
  intros Hs Ht. apply triple_intro. intros m Hm. apply wp_redisTTLCommand; [done..|].
  intros m' Hp. split_and!; [done|by eapply pruned_ok|by eapply pruned_elsewhere|].
  by apply (pruned_same_views m t key).
Qed.

Lemma redis_ttl_refines_witness :
  short ⟦"k"⟧
  ∧ triple (at_time 7) redis_ok (redisTTLCommand [⟦"PTTL"⟧; ⟦"k"⟧] ⟦"PTTL"⟧)
      (λ m r m', r = Ok (respIntegerValue (ttl_reply m 7 ⟦"k"⟧
           (if bool_decide (⟦"PTTL"⟧ = ⟦"PTTL"⟧) then time_Millisecond else time_Second)))
         ∧ redis_ok m' ∧ same_elsewhere ⟦"k"⟧ m m' ∧ same_views 7 m m').
Proof.
  split; [vm_compute; reflexivity|].
  apply redis_ttl_refines; [vm_compute; reflexivity|vm_compute; split; discriminate].
Defined.

(** [DEL] removes every record of every named key, whatever its type, and no
    other record; it replies the number of distinct named keys that owned a
    record (a key named twice counts once). *)
Theorem redis_del_counts cmd key keys :
  Forall short (key :: keys) → (Z.of_nat (length (key :: keys)) ≤ maxInt64)%Z →
  triple (λ _, True) (λ _, True) (redisDelete (cmd :: key :: keys))
    (λ m r m',
       r = Ok (respIntegerValue (Z.of_nat (size (existing m (key :: keys)))))
       ∧ ∀ sk, m' !! sk = if owned_by_some (key :: keys) sk then None else m !! sk).
Proof.
  intros Hs Hlen. apply triple_intro. intros m _. apply wp_catching. wp_step.
  apply wp_delete_count; [done|lia|lia|]. intros m' Hm'. by rd_steps.
Qed.

Lemma redis_del_counts_witness :
  Forall short [⟦"a"⟧; ⟦"b"⟧; ⟦"a"⟧]
  ∧ triple (λ _, True) (λ _, True) (redisDelete [⟦"DEL"⟧; ⟦"a"⟧; ⟦"b"⟧; ⟦"a"⟧])
      (λ m r m',
         r = Ok (respIntegerValue (Z.of_nat (size (existing m [⟦"a"⟧; ⟦"b"⟧; ⟦"a"⟧]))))
         ∧ ∀ sk, m' !! sk = if owned_by_some [⟦"a"⟧; ⟦"b"⟧; ⟦"a"⟧] sk then None else m !! sk).
Proof.
  split; [repeat constructor|]. apply redis_del_counts; [repeat constructor|].
  vm_compute. discriminate.
Defined.
