(* ===== verification/RedisCollProps.v ===== *)
(** * Redis hash, set and list commands refine the abstract database *)

From S2P Require Import Prelude Errors Engine Effects MemDriver Envelope Keys ListCodec Text DriverName DB DBTheorems Collections Transport Resp RedisStorage RedisStrings RedisCollections RedisModel RedisTheorems RedisStringProps.

Implicit Types (m : gmap bytes bytes) (key value cmd arg field : bytes).

(** Decides the comparisons of type constants in the goal. *)
Ltac decide_types :=
  repeat match goal with
  | |- context [@bool_decide ?P ?D] =>
      let b := eval vm_compute in (@bool_decide P D) in
      lazymatch b with true => idtac | false => idtac end;
      change (@bool_decide P D) with b
  end; cbv iota.

(** ** Keys that hold one kind of collection *)

(** Apart from the expiry record, [key] has records of kind [typ] only. *)
Definition only (typ : redisTyp) m key : Prop :=
  ∀ s, logical_key s = key → is_Some (kind_of s) → kind_of s ≠ Some typ →
    m !! storage_key s = None.

Lemma blank_only typ m key : blank m key → only typ m key.
Proof. intros Hb s Hk Hkind _. by apply Hb. Qed.

Lemma only_rep typ m key : only typ m key → rep m key typ.
Proof.
  intros Ho s Hk [d Hd]. destruct (kind_of s) as [typ'|] eqn:E; [|auto].
  destruct (decide (typ' = typ)) as [->|Hne]; [auto|].
  rewrite Ho in Hd; [done..|by rewrite E; eexists|rewrite E; congruence].
Qed.

Lemma rep_only typ m key : rep m key typ → only typ m key.
Proof. intros Hr s Hk Hkind Hne. by apply (rep_other m key typ). Qed.

(** The only kind of record a visible value allows. *)
Lemma view_rep m t key o :
  redis_ok m → short key → view m t key = Some o → rep m key (type_of (Some o)).
Proof.
  intros Hm Hs Hv. destruct (Hm key Hs) as ([typ Hr] & _ & _).
  assert (typ = type_of (Some o)) as <-; [|done].
  destruct o as [v|h|x|l].
  - apply view_string in Hv as [(d & Hd & _)%string_of_inv _].
    destruct (Hr (SValue key) eq_refl) as [H|H]; [by eexists|done|cbn in H |- *; congruence].
  - destruct (view_collection m t key _ Hm Hs Hv) as (_ & Hcv & _); [done|].
    unfold collection_view in Hcv. repeat case_bool_decide; simplify_eq.
    destruct (proj1 (hash_of_nonempty m t key)) as (f & d & Hd & _); [done|].
    destruct (Hr (SHash key f) eq_refl) as [H'|H']; [by eexists|done|cbn in H' |- *; congruence].
  - destruct (view_collection m t key _ Hm Hs Hv) as (_ & Hcv & _); [done|].
    unfold collection_view in Hcv. repeat case_bool_decide; simplify_eq.
    destruct (proj1 (set_of_nonempty m key)) as (y & Hd); [done|].
    destruct (Hr (SSet key y) eq_refl) as [H'|H']; [done|done|cbn in H' |- *; congruence].
  - destruct (view_collection m t key _ Hm Hs Hv) as (_ & Hcv & _); [done|].
    unfold collection_view in Hcv. repeat case_bool_decide; simplify_eq.
    destruct (Hr (SList key) eq_refl) as [H'|H']; [|done|cbn in H' |- *; congruence].
    cbn. unfold list_of, list_items in *. by destruct (m !! listKey key); [eexists|].
Qed.

Lemma only_value typ m key :
  only typ m key → typ ≠ redisTypeString → m !! valueKey key = None.
Proof. intros Ho Hne. apply (Ho (SValue key)); cbn; [done|by eexists|congruence]. Qed.

Lemma only_hash typ m t key : only typ m key → typ ≠ redisTypeHash → hash_of m t key = ∅.
Proof. intros Ho Hne. eapply rep_hash_of; [by apply only_rep|done]. Qed.

Lemma only_set typ m key : only typ m key → typ ≠ redisTypeSet → set_of m key = ∅.
Proof. intros Ho Hne. eapply rep_set_of; [by apply only_rep|done]. Qed.

Lemma only_subseteq typ m m' key : m' ⊆ m → only typ m key → only typ m' key.
Proof.
  intros Hsub Ho s Hk Hkind Hne. eapply lookup_weaken_None; [|exact Hsub]. by apply Ho.
Qed.

(** A change of one record of kind [typ] in such a key. *)
Section change.
Context (typ : redisTyp) (key : bytes) (s : shape) (m : gmap bytes bytes).
Hypothesis key_short : short key.
Hypothesis at_key : logical_key s = key.
Hypothesis of_kind : kind_of s = Some typ.
Hypothesis not_string : typ ≠ redisTypeString.
Hypothesis only_typ : only typ m key.
Hypothesis ok : key_ok m key.

Lemma other_record s' d :
  s' ≠ s → logical_key s' = key → <[storage_key s := d]> m !! storage_key s' = m !! storage_key s'.
Proof using key_short at_key.
  intros Hne Hk. apply lookup_insert_ne. intros Heq. apply Hne. symmetry.
  apply storage_key_inj; [by rewrite at_key|by rewrite Hk|done].
Qed.

Lemma insert_only d : only typ (<[storage_key s := d]> m) key.
Proof using key_short at_key of_kind only_typ.
  intros s' Hk Hkind Hne. rewrite other_record; [by apply only_typ| |done].
  intros ->. congruence.
Qed.

Lemma insert_key_ok d : record_ok s d → key_ok (<[storage_key s := d]> m) key.
Proof using key_short at_key of_kind only_typ ok not_string.
  intros Hd. destruct ok as (_ & Hrec & _). split_and!.
  - exists typ. apply only_rep, insert_only.
  - intros s' d' Hk Hd'. destruct (decide (storage_key s' = storage_key s)) as [Heq|Hne].
    + rewrite Heq, lookup_insert_eq in Hd'. injection Hd' as <-.
      assert (s' = s) as ->; [|done].
      apply storage_key_inj; [by rewrite Hk|by rewrite at_key|done].
    + rewrite lookup_insert_ne in Hd' by done. by apply Hrec.
  - intros [d' Hd']. pose proof (only_value typ _ key (insert_only d) not_string). congruence.
Qed.

Lemma insert_ttl d : ttl_of (<[storage_key s := d]> m) key = ttl_of m key.
Proof using key_short at_key of_kind.
  unfold ttl_of. pose proof (other_record (STTL key) d) as H. cbn [storage_key] in H.
  rewrite H; [done| |done]. intros <-. done.
Qed.
End change.

(** ** Hashes *)

(** A deadline that is absent or ahead. *)
Definition ahead (t : Z) (e : option Z) : Prop :=
  match e with Some e => (unixNano t < e)%Z | None => True end.

Lemma ttl_dead_ahead m t key : ttl_dead m t key = false ↔ ahead t (ttl_of m key).
Proof.
  unfold ttl_dead, ahead. destruct (ttl_of m key); [|done].
  rewrite bool_decide_eq_false. lia.
Qed.

(** During a hash command: [key] holds the fields [h], all of them live, with
    deadline [e], and the other keys are as in [m0]. *)
Definition hash_state (t : Z) key m0 (e : option Z) (h : gmap bytes bytes) m : Prop :=
  key_ok m key ∧ same_elsewhere key m0 m ∧ only redisTypeHash m key
  ∧ (ttl_of m key = e ∧ ahead t e)
  ∧ ∀ f, match m !! namespacedKey kindHash key f with
         | Some d => ∃ v, decode_live t d = Some v ∧ h !! f = Some (env_payload v)
         | None => h !! f = None
         end.

Lemma hash_state_of t key m0 e h m : hash_state t key m0 e h m → hash_of m t key = h.
Proof.
  intros (_ & _ & _ & _ & Hf). apply map_eq. intros f. rewrite lookup_hash_of.
  specialize (Hf f). destruct (m !! namespacedKey kindHash key f) as [d|]; cbn; [|done].
  destruct Hf as (v & -> & ->). done.
Qed.

Lemma hash_state_view t key m0 e h m :
  hash_state t key m0 e h m → view m t key = if decide (h = ∅) then None else Some (OHash h).
Proof.
  intros Hst. pose proof (hash_state_of _ _ _ _ _ _ Hst) as Hh.
  destruct Hst as (Hok & He & Ho & [<- Ht%ttl_dead_ahead] & Hf).
  unfold view, string_of, collection_view.
  rewrite Ht, (only_value redisTypeHash m key) by done. cbn.
  rewrite Hh, (only_set redisTypeHash m key) by done.
  rewrite list_of_None by (apply (Ho (SList key)); cbn; [done|by eexists|congruence]).
  case_decide; [by rewrite !bool_decide_eq_false_2 by auto|].
  by rewrite bool_decide_eq_true_2.
Qed.

Lemma hash_state_put t key m0 e h m f v d :
  short key → hash_state t key m0 e h m →
  unmarshalEnvelope d = Ok (mkEnvelope 0 bytesCodec v) →
  hash_state t key m0 e (<[f := v]> h) (<[namespacedKey kindHash key f := d]> m).
Proof.
  intros Hs (Hok & He & Ho & [Ht Ha] & Hf) Hd.
  change (namespacedKey kindHash key f) with (storage_key (SHash key f)).
  split_and!.
  - apply (insert_key_ok redisTypeHash); try done. by eexists.
  - eapply same_elsewhere_trans; [done|by apply insert_elsewhere].
  - by apply insert_only.
  - by rewrite (insert_ttl redisTypeHash).
  - done.
  - intros g. cbn [storage_key]. destruct (decide (f = g)) as [<-|Hne].
    + rewrite !lookup_insert_eq. exists (mkEnvelope 0 bytesCodec v).
      rewrite (decode_live_expired t d _ Hd). done.
    + rewrite !lookup_insert_ne; [apply Hf|done|]. intros ?%namespacedKey_inj. done.
Qed.

(** The state a hash write starts from, once a stale expiry record is gone. *)
Lemma hash_state_start t key m m1 :
  redis_ok m → short key → pruned m t key m1 →
  match view m t key with
  | None => hash_state t key m None ∅ (delete (collectionTTLKey key) m1)
  | Some (OHash h) => hash_state t key m (ttl_of m key) h m1
  | Some _ => True
  end.
Proof.
  intros Hm Hs Hp. pose proof (pruned_ok _ _ _ _ Hm Hp) as Hm1.
  pose proof (pruned_elsewhere _ _ _ _ Hp) as Hels.
  pose proof (pruned_view m t key m1 key Hs Hs Hp) as Hv1. pose proof Hp as Hp0.
  destruct Hp as (_ & _ & Hp).
  destruct (view m t key) as [[v|h|x|l]|] eqn:Hv; try done.
  - pose proof (view_rep m1 t key _ Hm1 Hs Hv1) as Hr.
    destruct (view_collection m1 t key _ Hm1 Hs Hv1) as (_ & Hcv & Ht); [done|].
    unfold collection_view in Hcv. case_bool_decide; [|by repeat case_bool_decide].
    injection Hcv as Hh.
    assert (ttl_of m1 key = ttl_of m key) as Httl
      by (apply (pruned_ttl m t key m1 Hs Hp0); by rewrite Hv).
    split_and!; auto using rep_only; [by rewrite <-Httl; apply ttl_dead_ahead|]. intros f. pose proof (lookup_hash_of m1 t key f) as Hl. rewrite Hh in Hl.
    destruct (m1 !! namespacedKey kindHash key f) as [d|] eqn:Hd; [|by rewrite Hl].
    cbn in Hl. rewrite Hp, lookup_drop_dead in Hd.
    destruct (m !! namespacedKey kindHash key f) as [d'|]; [|done].
    unfold dead_field in Hd. rewrite namespaced_has_prefix in Hd. cbn [andb] in Hd.
    case_bool_decide as Hdl; [done|]. simplify_eq.
    destruct (decode_live t d) as [v|]; [|done]. eauto.
  - assert (blank (delete (collectionTTLKey key) m1) key) as Hb.
    { intros s Hk Hkind. apply lookup_delete_None. right. by apply Hp. }
    split_and!.
    + apply key_ok_blank; [done|]. by rewrite lookup_delete_eq.
    + eapply same_elsewhere_trans; [done|]. by apply (delete_elsewhere key (STTL key)).
    + by apply blank_only.
    + unfold ttl_of. by rewrite lookup_delete_eq.
    + done.
    + intros f. rewrite (Hb (SHash key f) eq_refl (ltac:(by eexists)) :
        _ !! namespacedKey kindHash key f = None). done.
Qed.

Definition hset_all (h : gmap bytes bytes) (fvs : list (bytes * bytes)) : gmap bytes bytes :=
  foldl (λ h fv, <[fv.1 := fv.2]> h) h fvs.

Lemma wp_hset_loop t key m0 e fvs n h m Q :
  short key → hash_state t key m0 e h m →
  (0 ≤ n)%Z → (n + Z.of_nat (length fvs) ≤ maxInt64)%Z →
  (∀ m', hash_state t key m0 e (hset_all h fvs) m' →
    Q (Ok (n + Z.of_nat (size (hset_all h fvs)) - Z.of_nat (size h))%Z) m') →
  wp (at_time t) (for_each fvs
    (λ fv added,
       let storageKey := store_HashKey key fv.1 in
       data ← store_Get storageKey;
       let added := match data with Some _ => added | None => wrap64 (added + 1) end in
       _ ← putPayload storageKey bytesCodec fv.2 0;
       mret added) n) Q m.
Proof.
  intros Hs. revert n h m.
  induction fvs as [|[f v] fvs IH]; intros n h m Hst Hn Hmax HQ; cbn [for_each].
  - rd_steps. cbn in *. replace n with (n + Z.of_nat (size h) - Z.of_nat (size h))%Z by lia. auto.
  - rewrite length_cons in Hmax. cbn zeta. cbn [fst snd]. store_names. rd_steps.
    apply wp_putPayload; [vm_compute; done|]. intros d Hd. rd_steps.
    pose proof (hash_state_put t key m0 e h m f v d Hs Hst Hd) as Hst'.
    assert (size (<[f := v]> h) = size h + (if decide (is_Some (h !! f)) then 0 else 1)) as Hsz.
    { destruct (h !! f) as [x|] eqn:Hx.
      - rewrite map_size_insert_Some by by eexists. by rewrite decide_True by by eexists.
      - rewrite map_size_insert_None by done. rewrite decide_False by by intros []. lia. }
    destruct Hst as (_ & _ & _ & _ & Hf). specialize (Hf f).
    rewrite wrap64_id by (unfold minInt64; lia).
    assert (match m !! namespacedKey kindHash key f with Some _ => n | None => n + 1 end
            = n + Z.of_nat (size (<[f := v]> h)) - Z.of_nat (size h))%Z as ->.
    { rewrite Hsz. destruct (m !! namespacedKey kindHash key f).
      - destruct Hf as (? & _ & Hf). rewrite decide_True by by eexists. lia.
      - rewrite decide_False by (rewrite Hf; by intros []). lia. }
    apply (IH _ (<[f := v]> h)); [done|rewrite Hsz; case_decide; lia..|].
    intros m' Hm'. cbn in HQ. specialize (HQ m' Hm').
    replace (n + Z.of_nat (size (<[f := v]> h)) - Z.of_nat (size h) +
      Z.of_nat (size (hset_all (<[f := v]> h) fvs)) - Z.of_nat (size (<[f := v]> h)))%Z
      with (n + Z.of_nat (size (hset_all (<[f := v]> h) fvs)) - Z.of_nat (size h))%Z by lia.
    done.
Qed.

Lemma hash_state_ok t key m0 e h m :
  redis_ok m0 → short key → hash_state t key m0 e h m → redis_ok m.
Proof. intros Hm Hs (Hok & He & _). by eapply redis_ok_step. Qed.

Lemma hset_all_nonempty h fv fvs : hset_all h (fv :: fvs) ≠ ∅.
Proof.
  cbn. generalize (<[fv.1 := fv.2]> h), (insert_non_empty h fv.1 fv.2). clear h fv.
  induction fvs as [|fv fvs IH]; intros h Hh; [done|]. cbn. apply IH, insert_non_empty.
Qed.

(** The fields and the deadline a hash write starts from. *)
Definition hash_before m (t : Z) key : option (gmap bytes bytes * option Z) :=
  match view m t key with
  | None => Some (∅, None)
  | Some (OHash h) => Some (h, ttl_of m key)
  | Some _ => None
  end.

Definition hset_outcome (t : Z) key (fvs : list (bytes * bytes)) m (r : result respValue) m'
    : Prop :=
  match hash_before m t key with
  | None => r = Ok wrongTypeReply ∧ pruned m t key m'
  | Some (h, e) =>
      let h' := hset_all h fvs in
      r = Ok (respIntegerValue (Z.of_nat (size h') - Z.of_nat (size h)))
      ∧ redis_ok m' ∧ same_elsewhere key m m'
      ∧ view m' t key = Some (OHash h') ∧ expiry_view m' t key = e
  end.

Lemma hset_done t key m0 e h fv fvs m :
  redis_ok m0 → short key → hash_state t key m0 e (hset_all h (fv :: fvs)) m →
  redis_ok m ∧ same_elsewhere key m0 m
  ∧ view m t key = Some (OHash (hset_all h (fv :: fvs))) ∧ expiry_view m t key = e.
Proof.
  intros Hm Hs Hst. pose proof (hash_state_view _ _ _ _ _ _ Hst) as Hv.
  rewrite decide_False in Hv by apply hset_all_nonempty. split_and!; [| |done|].
  - by eapply hash_state_ok.
  - by destruct Hst as (_ & ? & _).
  - unfold expiry_view. rewrite Hv. by destruct Hst as (_ & _ & _ & [? _] & _).
Qed.

Lemma wp_redisHSet t cmd key fv fvs rest m :
  redis_ok m → short key → pairs rest = Some (fv :: fvs) →
  (Z.of_nat (length (fv :: fvs)) ≤ maxInt64)%Z →
  wp (at_time t) (redisHSet (cmd :: key :: rest)) (hset_outcome t key (fv :: fvs) m) m.
Proof.
  intros Hm Hs Hrest Hlen. destruct rest as [|a rest]; [done|].
  unfold redisHSet. rewrite Hrest. apply wp_catching. wp_step.
  apply wp_redisType; [done..|]. intros m1 Hp.
  pose proof (hash_state_start t key m m1 Hm Hs Hp) as Hst.
  unfold hset_outcome, hash_before.
  destruct (view m t key) as [[v|h|x|l]|] eqn:Hv; cbn [type_of]; decide_types; rd_steps; try done.
  - eapply wp_hset_loop; [done|exact Hst|lia|lia|]. intros m' Hst'. rd_steps.
    split; [done|by apply hset_done].
  - store_names. eapply wp_hset_loop; [done|exact Hst|lia|lia|]. intros m' Hst'. rd_steps.
    split; [done|by apply hset_done].
Qed.

(** The field a client reads. *)
Definition field_result (o : option robj) field : result (option bytes) :=
  match o with
  | None => Ok None
  | Some (OHash h) => Ok (h !! field)
  | Some _ => Err (wrongType (type_of o))
  end.

Lemma wp_redisHashField t key field m Q :
  redis_ok m → short key →
  (∀ m', pruned m t key m' → Q (field_result (view m t key) field) m') →
  wp (at_time t) (redisHashField key field) Q m.
Proof.
  intros Hm Hs HQ. unfold redisHashField. wp_step. apply wp_redisType; [done..|].
  intros m1 Hp. specialize (HQ m1 Hp). pose proof (hash_state_start t key m m1 Hm Hs Hp) as Hst.
  destruct (view m t key) as [[v|h|x|l]|]; cbn [type_of field_result] in *; [by rd_steps| |by rd_steps..].
  cbn zeta. store_names. wp_step. apply wp_store_Get.
  destruct Hst as (_ & _ & _ & _ & Hf). specialize (Hf field).
  destruct (m1 !! namespacedKey kindHash key field) as [d|]; [|rd_steps; by rewrite <-Hf].
  destruct Hf as (v & Hl & Hh). rewrite Hh in HQ. unfold decode_live in Hl.
  destruct (unmarshalEnvelope d) as [v'| |] eqn:Hu; try done.
  destruct (expired_at (env_expiresAt v') t) eqn:Hx; [done|]. simplify_eq.
  wp_step. eapply wp_decodeRecord; [done|]. rd_steps. cbn [stored_ExpiresAt]. rewrite Hx.
  by rd_steps.
Qed.

(** ** Sets *)

Definition set_state (t : Z) key m0 (e : option Z) (x : gset bytes) m : Prop :=
  key_ok m key ∧ same_elsewhere key m0 m ∧ only redisTypeSet m key
  ∧ (ttl_of m key = e ∧ ahead t e) ∧ set_of m key = x.

Lemma set_state_view t key m0 e x m :
  set_state t key m0 e x m → view m t key = if decide (x = ∅) then None else Some (OSet x).
Proof.
  intros (Hok & He & Ho & [<- Ht%ttl_dead_ahead] & Hx).
  unfold view, string_of, collection_view.
  rewrite Ht, (only_value redisTypeSet m key), (only_hash redisTypeSet m t key) by done. cbn.
  rewrite Hx.
  rewrite list_of_None by (apply (Ho (SList key)); cbn; [done|by eexists|congruence]).
  case_decide; [by rewrite !bool_decide_eq_false_2 by auto|].
  by rewrite (bool_decide_eq_false_2 (∅ ≠ ∅)), bool_decide_eq_true_2 by auto.
Qed.

Lemma set_state_ok t key m0 e x m :
  redis_ok m0 → short key → set_state t key m0 e x m → redis_ok m.
Proof. intros Hm Hs (Hok & He & _). by eapply redis_ok_step. Qed.

Lemma set_state_put t key m0 e x m y d :
  short key → set_state t key m0 e x m →
  set_state t key m0 e ({[y]} ∪ x) (<[namespacedKey kindSet key y := d]> m).
Proof.
  intros Hs (Hok & He & Ho & [Ht Ha] & Hx).
  change (namespacedKey kindSet key y) with (storage_key (SSet key y)). split_and!.
  - by apply (insert_key_ok redisTypeSet).
  - eapply same_elsewhere_trans; [done|by apply insert_elsewhere].
  - by apply insert_only.
  - by rewrite (insert_ttl redisTypeSet).
  - done.
  - cbn [storage_key]. by rewrite set_of_insert, Hx.
Qed.

(** Removing records of the one kind a key holds. *)
Lemma only_delete_ok typ key s m :
  short key → logical_key s = key → is_Some (kind_of s) → only typ m key → key_ok m key →
  only typ (delete (storage_key s) m) key ∧ key_ok (delete (storage_key s) m) key
  ∧ ttl_of (delete (storage_key s) m) key = ttl_of m key.
Proof.
  intros Hs Hk Hkind Ho Hok. assert (delete (storage_key s) m ⊆ m) as Hsub by apply delete_subseteq.
  split_and!; [by eapply only_subseteq|by eapply key_ok_subseteq|].
  unfold ttl_of. rewrite lookup_delete_ne; [done|]. intros Heq.
  apply (storage_key_inj s (STTL key)) in Heq as ->; [by destruct Hkind|by rewrite Hk|done].
Qed.

Lemma set_state_delete t key m0 e x m y :
  short key → set_state t key m0 e x m →
  set_state t key m0 e (x ∖ {[y]}) (delete (namespacedKey kindSet key y) m).
Proof.
  intros Hs (Hok & He & Ho & [Ht Ha] & Hx).
  destruct (only_delete_ok redisTypeSet key (SSet key y) m) as (Ho' & Hok' & Ht');
    [done|done|by eexists|done|done|]. cbn [storage_key] in *. split_and!.
  - done.
  - eapply same_elsewhere_trans; [done|by apply (delete_elsewhere key (SSet key y))].
  - done.
  - by rewrite Ht'.
  - done.
  - by rewrite set_of_delete, Hx.
Qed.

Lemma set_state_start t key m m1 :
  redis_ok m → short key → pruned m t key m1 →
  match view m t key with
  | None => set_state t key m None ∅ (delete (collectionTTLKey key) m1)
  | Some (OSet x) => set_state t key m (ttl_of m key) x m1
  | Some _ => True
  end.
Proof.
  intros Hm Hs Hp. pose proof (pruned_ok _ _ _ _ Hm Hp) as Hm1.
  pose proof (pruned_elsewhere _ _ _ _ Hp) as Hels. destruct Hp as (_ & _ & Hp).
  destruct (view m t key) as [[v|h|x|l]|] eqn:Hv; try done.
  - subst m1. pose proof (view_rep m t key _ Hm Hs Hv) as Hr.
    destruct (view_collection m t key _ Hm Hs Hv) as (_ & Hcv & Ht); [done|].
    assert (set_of m key = x) as Hx
      by (unfold collection_view in Hcv; repeat case_bool_decide; by simplify_eq).
    split_and!; auto using rep_only. by apply ttl_dead_ahead.
  - assert (blank (delete (collectionTTLKey key) m1) key) as Hb.
    { intros s Hk Hkind. apply lookup_delete_None. right. by apply Hp. }
    split_and!.
    + apply key_ok_blank; [done|]. by rewrite lookup_delete_eq.
    + eapply same_elsewhere_trans; [done|]. by apply (delete_elsewhere key (STTL key)).
    + by apply blank_only.
    + unfold ttl_of. by rewrite lookup_delete_eq.
    + done.
    + by apply blank_set_of.
Qed.

Lemma wp_redis_sadd_loop t key m0 e members n x m Q :
  short key → set_state t key m0 e x m →
  (0 ≤ n)%Z → (n + Z.of_nat (length members) ≤ maxInt64)%Z →
  (∀ m', set_state t key m0 e (x ∪ list_to_set members) m' →
    Q (Ok (n + Z.of_nat (size (x ∪ list_to_set members)) - Z.of_nat (size x))%Z) m') →
  wp (at_time t) (for_each members
    (λ member added,
       let storageKey := store_SetKey key member in
       data ← store_Get storageKey;
       match data with
       | Some _ => mret added
       | None => _ ← store_Put storageKey [Byte.x01]; mret (wrap64 (added + 1))
       end) n) Q m.
Proof.
  intros Hs. revert n x m.
  induction members as [|y members IH]; intros n x m Hst Hn Hmax HQ; cbn [for_each].
  - rd_steps. cbn in HQ. rewrite union_empty_r_L in HQ. specialize (HQ m Hst).
    by replace (n + Z.of_nat (size x) - Z.of_nat (size x))%Z with n in HQ by lia.
  - rewrite length_cons in Hmax. cbn zeta. store_names. rd_steps.
    assert (y ∈ x ↔ is_Some (m !! namespacedKey kindSet key y)) as Hy.
    { destruct Hst as (_ & _ & _ & _ & <-). apply elem_of_set_of. }
    cbn in HQ. destruct (m !! namespacedKey kindSet key y) eqn:Hd; rd_steps.
    + assert (y ∈ x) as Hin by (apply Hy; by eexists).
      replace (x ∪ ({[y]} ∪ list_to_set members)) with (x ∪ list_to_set members) in HQ
        by (clear -Hin; set_solver).
      by eapply IH; [done|lia|lia|].
    + assert (y ∉ x) as Hnin by (rewrite Hy; by intros []).
      rewrite wrap64_id by (unfold minInt64; lia).
      eapply IH; [by apply set_state_put|lia|lia|]. intros m' Hst'.
      replace ({[y]} ∪ x ∪ list_to_set members) with (x ∪ ({[y]} ∪ list_to_set members)) in *
        by (clear; set_solver).
      specialize (HQ m' Hst').
      rewrite (size_union {[y]} x), size_singleton by (clear -Hnin; set_solver).
      replace (n + 1 + _ - _)%Z with (n + Z.of_nat (size (x ∪ ({[y]} ∪ list_to_set members)))
        - Z.of_nat (size x))%Z by lia. done.
Qed.

Definition set_before m (t : Z) key : option (gset bytes * option Z) :=
  match view m t key with
  | None => Some (∅, None)
  | Some (OSet x) => Some (x, ttl_of m key)
  | Some _ => None
  end.

(** A key whose value is the set [x] (absent when [x] is empty). *)
Definition set_view (x : gset bytes) : option robj := if decide (x = ∅) then None else Some (OSet x).

Definition sadd_outcome (t : Z) key (members : list bytes) m (r : result respValue) m' : Prop :=
  match set_before m t key with
  | None => r = Ok wrongTypeReply ∧ pruned m t key m'
  | Some (x, e) =>
      let x' := x ∪ list_to_set members in
      r = Ok (respIntegerValue (Z.of_nat (size x') - Z.of_nat (size x)))
      ∧ redis_ok m' ∧ same_elsewhere key m m'
      ∧ view m' t key = Some (OSet x') ∧ expiry_view m' t key = e
  end.

Lemma wp_redisSAdd t cmd key y members m :
  redis_ok m → short key → (Z.of_nat (length (y :: members)) ≤ maxInt64)%Z →
  wp (at_time t) (redisSAdd (cmd :: key :: y :: members))
    (sadd_outcome t key (y :: members) m) m.
Proof.
  intros Hm Hs Hlen. apply wp_catching. wp_step.
  apply wp_redisType; [done..|]. intros m1 Hp.
  pose proof (set_state_start t key m m1 Hm Hs Hp) as Hst.
  unfold sadd_outcome, set_before.
  assert (∀ x e m', set_state t key m e (x ∪ list_to_set (y :: members)) m' →
    redis_ok m' ∧ same_elsewhere key m m'
    ∧ view m' t key = Some (OSet (x ∪ list_to_set (y :: members))) ∧ expiry_view m' t key = e) as Hdone.
  { intros x e m' Hst'. pose proof (set_state_view _ _ _ _ _ _ Hst') as Hv.
    rewrite decide_False in Hv by (cbn; clear; set_solver).
    split_and!; [by eapply set_state_ok|by destruct Hst' as (_ & ? & _)|done|].
    unfold expiry_view. rewrite Hv. by destruct Hst' as (_ & _ & _ & [? _] & _). }
  destruct (view m t key) as [[v|h|x|l]|] eqn:Hv; cbn [type_of]; decide_types; rd_steps; try done.
  - eapply wp_redis_sadd_loop; [done|exact Hst|lia|lia|]. intros m' Hst'. rd_steps.
    split; [done|by apply Hdone].
  - store_names. eapply wp_redis_sadd_loop; [done|exact Hst|lia|lia|]. intros m' Hst'. rd_steps.
    split; [done|by apply Hdone].
Qed.

(** *** Reading and removing members *)

Definition members_result (o : option robj) : result (option (list bytes)) :=
  match o with
  | None => Ok None
  | Some (OSet x) => Ok (Some (sort_strings (elements x)))
  | Some _ => Err (wrongType (type_of o))
  end.

Lemma wp_collect_members t (pfx : bytes) items acc m (Q : result (list bytes) → gmap bytes bytes → Prop) :
  Q (Ok (acc ++ ((λ kv : bytes * bytes, drop (length pfx) kv.1) <$> items))) m →
  wp (at_time t) (for_each items
    (λ kv members, mret (members ++ [drop (length pfx) kv.1])) acc) Q m.
Proof.
  revert acc. induction items as [|kv items IH]; intros acc HQ; cbn [for_each]; rd_steps.
  - by rewrite app_nil_r in HQ.
  - apply IH. by rewrite <-app_assoc.
Qed.

Lemma wp_redisSetMembers t key m Q :
  redis_ok m → short key →
  (∀ m', pruned m t key m' → Q (members_result (view m t key)) m') →
  wp (at_time t) (redisSetMembers key) Q m.
Proof.
  intros Hm Hs HQ. unfold redisSetMembers. wp_step. apply wp_redisType; [done..|].
  intros m1 Hp. specialize (HQ m1 Hp). pose proof (set_state_start t key m m1 Hm Hs Hp) as Hst.
  destruct (view m t key) as [[v|h|x|l]|] eqn:Hv; cbn [type_of members_result] in *; try by rd_steps.
  pose proof (set_state_view _ _ _ _ _ _ Hst) as Hv1.
  pose proof (pruned_view m t key m1 key Hs Hs Hp) as Hv2. rewrite Hv, Hv1 in Hv2.
  destruct (decide (x = ∅)) as [|Hne]; [done|]. clear Hv1 Hv2.
  destruct Hst as (_ & _ & _ & _ & Hx). cbn zeta. wp_step. apply wp_store_ScanPrefix.
  store_names. intros items Hitems. apply wp_collect_members. cbn [app].
  set (members := (λ kv : bytes * bytes, drop (length (namespacePrefix kindSet key)) kv.1) <$> items).
  assert (members ≡ₚ elements x) as Hperm.
  { apply NoDup_Permutation; [by eapply scan_members_NoDup|apply NoDup_elements|].
    intros y. unfold members. rewrite (elem_of_scan_members m1 kindSet key items y Hitems).
    by rewrite elem_of_elements, <-Hx, elem_of_set_of. }
  rewrite bool_decide_eq_false_2.
  - rd_steps. by rewrite (sort_strings_unique members (elements x)).
  - intros He. rewrite He in Hperm. apply Permutation_nil in Hperm.
    by apply elements_empty_inv in Hperm as ?%leibniz_equiv.
Qed.

Lemma wp_redis_srem_loop t key m0 e members n x m Q :
  short key → set_state t key m0 e x m →
  (0 ≤ n)%Z → (n + Z.of_nat (length members) ≤ maxInt64)%Z →
  (∀ m', set_state t key m0 e (x ∖ list_to_set members) m' →
    Q (Ok (n + Z.of_nat (size x) - Z.of_nat (size (x ∖ list_to_set members)))%Z) m') →
  wp (at_time t) (for_each members
    (λ member removed,
       let storageKey := store_SetKey key member in
       data ← store_Get storageKey;
       match data with
       | None => mret removed
       | Some _ => _ ← store_Delete storageKey; mret (wrap64 (removed + 1))
       end) n) Q m.
Proof.
  intros Hs. revert n x m.
  induction members as [|y members IH]; intros n x m Hst Hn Hmax HQ; cbn [for_each].
  - rd_steps. cbn in HQ. rewrite difference_empty_L in HQ. specialize (HQ m Hst).
    by replace (n + Z.of_nat (size x) - Z.of_nat (size x))%Z with n in HQ by lia.
  - rewrite length_cons in Hmax. cbn zeta. store_names. rd_steps.
    assert (y ∈ x ↔ is_Some (m !! namespacedKey kindSet key y)) as Hy.
    { destruct Hst as (_ & _ & _ & _ & <-). apply elem_of_set_of. }
    cbn in HQ. destruct (m !! namespacedKey kindSet key y) eqn:Hd; rd_steps.
    + assert (y ∈ x) as Hin by (apply Hy; by eexists).
      rewrite wrap64_id by (unfold minInt64; lia).
      eapply IH; [by apply set_state_delete|lia|lia|]. intros m' Hst'.
      replace (x ∖ {[y]} ∖ list_to_set members) with (x ∖ ({[y]} ∪ list_to_set members)) in *
        by (clear; set_solver).
      specialize (HQ m' Hst').
      assert (size x = S (size (x ∖ {[y]}))) as Hsz.
      { rewrite size_difference, size_singleton by (clear -Hin; set_solver).
        assert (size x ≠ 0); [|lia]. rewrite size_non_empty_iff. clear -Hin. set_solver. }
      replace (n + 1 + _ - _)%Z with (n + Z.of_nat (size x)
        - Z.of_nat (size (x ∖ ({[y]} ∪ list_to_set members))))%Z by lia. done.
    + assert (y ∉ x) as Hnin by (rewrite Hy; by intros []).
      replace (x ∖ ({[y]} ∪ list_to_set members)) with (x ∖ list_to_set members) in HQ
        by (clear -Hnin; set_solver).
      by eapply IH; [done|lia|lia|].
Qed.

Definition srem_outcome (t : Z) key (members : list bytes) m (r : result respValue) m' : Prop :=
  match set_before m t key with
  | None => r = Ok wrongTypeReply ∧ pruned m t key m'
  | Some (x, e) =>
      let x' := x ∖ list_to_set members in
      r = Ok (respIntegerValue (Z.of_nat (size x) - Z.of_nat (size x')))
      ∧ redis_ok m' ∧ same_elsewhere key m m' ∧ view m' t key = set_view x'
  end.

Lemma wp_redisSRem t cmd key y members m :
  redis_ok m → short key → (Z.of_nat (length (y :: members)) ≤ maxInt64)%Z →
  wp (at_time t) (redisSRem (cmd :: key :: y :: members))
    (srem_outcome t key (y :: members) m) m.
Proof.
  intros Hm Hs Hlen. apply wp_catching. wp_step.
  apply wp_redisType; [done..|]. intros m1 Hp.
  pose proof (set_state_start t key m m1 Hm Hs Hp) as Hst.
  pose proof (pruned_view m t key m1 key Hs Hs Hp) as Hv1.
  unfold srem_outcome, set_before.
  destruct (view m t key) as [[v|h|x|l]|] eqn:Hv; cbn [type_of]; rd_steps; try done.
  - eapply wp_redis_srem_loop; [done|exact Hst|lia|lia|]. intros m2 Hst2. rd_steps.
    pose proof (set_state_view _ _ _ _ _ _ Hst2) as Hv2.
    pose proof (set_state_ok _ _ _ _ _ _ Hm Hs Hst2) as Hok2.
    assert (same_elsewhere key m m2) as He2 by by destruct Hst2 as (_ & ? & _).
    set (x' := x ∖ list_to_set (y :: members)) in *. fold (set_view x') in Hv2.
    apply wp_redisSetMembers; [done..|]. intros m3 Hp3. rewrite Hv2.
    pose proof (pruned_ok _ _ _ _ Hok2 Hp3) as Hok3.
    assert (same_elsewhere key m m3) as He3
      by (eapply same_elsewhere_trans; [done|by eapply pruned_elsewhere]).
    pose proof (pruned_view m2 t key m3 key Hs Hs Hp3) as Hv3. rewrite Hv2 in Hv3.
    unfold set_view in *. destruct (decide (x' = ∅)) as [He|Hne]; cbn [members_result default].
    + rewrite bool_decide_eq_true_2 by done. rd_steps. apply wp_redisDeleteRaw; [done|].
      intros b _. rd_steps. destruct (removed_ok key m m3) as (? & ? & Hn); [done..|].
      split_and!; [done..|apply Hn].
    + rewrite bool_decide_eq_false_2; [by rd_steps|]. cbn. intros Hnil.
      assert (elements x' = []) as Hel.
      { apply Permutation_nil. by rewrite <-(sort_strings_perm (elements x')), Hnil. }
      by apply elements_empty_inv in Hel as ?%leibniz_equiv.
  - split_and!; [|by eapply pruned_ok|by eapply pruned_elsewhere|].
    + by rewrite empty_difference_L.
    + rewrite empty_difference_L. done.
Qed.
