(* ===== verification/RedisListProps.v ===== *)
(** * Redis list commands refine the abstract database *)

From S2P Require Import Prelude Errors Engine Effects MemDriver Envelope Keys ListCodec Text DriverName DB DBTheorems Collections Transport Resp RedisStorage RedisStrings RedisCollections RedisModel RedisTheorems RedisStringProps RedisCollProps.

Implicit Types (m : gmap bytes bytes) (key value cmd arg : bytes).

(** ** The in-place reversal of [LPUSH] *)

(** After [i] swaps the outer [i] elements on both sides are reversed. *)
Definition half_reversed (i : nat) (l0 l : list bytes) : Prop :=
  length l = length l0
  ∧ ∀ j, j < length l0 →
      l !! j = if decide (j < i ∨ length l0 - i ≤ j) then l0 !! (length l0 - 1 - j) else l0 !! j.

Lemma half_reversed_step i l0 l a b :
  S i ≤ length l0 `div` 2 → half_reversed i l0 l →
  l !! i = Some a → l !! (length l - i - 1) = Some b →
  half_reversed (S i) l0 (<[i := b]> (<[length l - i - 1 := a]> l)).
Proof.
  intros Hi [Hlen Hj] Ha Hb.
  assert (2 * S i ≤ length l0) as H2 by (pose proof (Nat.mul_div_le (length l0) 2); lia).
  split; [by rewrite !length_insert|]. intros j Hjl. rewrite Hlen in *.
  destruct (decide (j = i)) as [->|Hne1].
  { rewrite list_lookup_insert_eq by (rewrite length_insert; lia).
    rewrite decide_True by lia. rewrite <-Hb, Hj, decide_False by lia. f_equal. lia. }
  rewrite list_lookup_insert_ne by done.
  destruct (decide (j = length l0 - i - 1)) as [->|Hne2].
  { rewrite list_lookup_insert_eq by lia. rewrite decide_True by lia.
    rewrite <-Ha, Hj, decide_False by lia. f_equal. lia. }
  rewrite list_lookup_insert_ne by done. rewrite Hj by done.
  destruct (decide (j < i ∨ length l0 - i ≤ j)); [by rewrite decide_True by lia|].
  by rewrite decide_False by lia.
Qed.

Lemma swap_ends_reverse_from n i l0 l :
  i + n = length l0 `div` 2 → half_reversed i l0 l → swap_ends n i l = reverse l0.
Proof.
  revert i l. induction n as [|n IH]; intros i l Hi Hh; cbn [swap_ends].
  - destruct Hh as [Hlen Hj]. pose proof (Nat.div_mod (length l0) 2 ltac:(lia)) as Hdm.
    pose proof (Nat.mod_upper_bound (length l0) 2 ltac:(lia)) as Hub.
    apply list_eq. intros j. destruct (decide (j < length l0)) as [Hjl|Hjl].
    + rewrite Hj, reverse_lookup by done. case_decide; [f_equal; lia|].
      f_equal. lia.
    + rewrite !lookup_ge_None_2; [done|rewrite length_reverse; lia|lia].
  - destruct Hh as [Hlen Hj].
    assert (2 * S i ≤ length l0) as H2 by (pose proof (Nat.mul_div_le (length l0) 2); lia).
    destruct (lookup_lt_is_Some_2 l i) as [a Ha]; [lia|].
    destruct (lookup_lt_is_Some_2 l (length l - i - 1)) as [b Hb]; [lia|].
    rewrite Ha, Hb. apply IH; [lia|]. apply half_reversed_step; [lia|by split|done..].
Qed.

Lemma swap_ends_reverse l : swap_ends (length l `div` 2) 0 l = reverse l.
Proof.
  apply swap_ends_reverse_from; [done|]. split; [done|]. intros j Hj.
  by rewrite decide_False by lia.
Qed.

(** ** The list record *)

(** An item as the push commands store it. *)
Definition good_item (item : bytes) : Prop :=
  ∃ v, unmarshalEnvelope item = Ok v ∧ env_expiresAt v = 0%Z.

(** During a list command: [key] holds the encoded [items]. *)
Definition list_state (t : Z) key m0 (e : option Z) (items : list bytes) m : Prop :=
  key_ok m key ∧ same_elsewhere key m0 m ∧ only redisTypeList m key
  ∧ (ttl_of m key = e ∧ ahead t e)
  ∧ (m !! listKey key = if decide (items = []) then None else Some (encodeList items))
  ∧ Forall good_item items ∧ list_encodable items.

Definition list_view (l : list bytes) : option robj :=
  match l with [] => None | _ => Some (OList l) end.

Lemma list_state_view t key m0 e items m :
  list_state t key m0 e items m → view m t key = list_view (item_payload <$> items).
Proof.
  intros (Hok & He & Ho & [<- Ht%ttl_dead_ahead] & Hl & _ & Henc).
  unfold view, string_of, collection_view.
  rewrite Ht, (only_value redisTypeList m key), (only_hash redisTypeList m t key),
    (only_set redisTypeList m key) by done. cbn [mbind option_bind].
  rewrite !(bool_decide_eq_false_2 (∅ ≠ ∅)) by auto.
  assert (list_of m key = item_payload <$> items) as ->.
  { unfold list_of, list_items. rewrite Hl. case_decide; [by subst|].
    by rewrite decode_encode_list. }
  by destruct items.
Qed.

Lemma list_state_ok t key m0 e items m :
  redis_ok m0 → short key → list_state t key m0 e items m → redis_ok m.
Proof. intros Hm Hs (Hok & He & _). by eapply redis_ok_step. Qed.

Lemma list_state_start t key m m1 :
  redis_ok m → short key → pruned m t key m1 →
  match view m t key with
  | None => list_state t key m None [] (delete (collectionTTLKey key) m1)
  | Some (OList l) => ∃ items, l = item_payload <$> items ∧ items ≠ []
      ∧ list_state t key m (ttl_of m key) items m1
  | Some _ => True
  end.
Proof.
  intros Hm Hs Hp. pose proof (pruned_ok _ _ _ _ Hm Hp) as Hm1.
  pose proof (pruned_elsewhere _ _ _ _ Hp) as Hels. destruct Hp as (_ & _ & Hp).
  destruct (view m t key) as [[v|h|x|l]|] eqn:Hv; try done.
  - subst m1. pose proof (view_rep m t key _ Hm Hs Hv) as Hr.
    destruct (view_collection m t key _ Hm Hs Hv) as (_ & Hcv & Ht); [done|].
    assert (list_of m key = l ∧ l ≠ []) as [Hl Hne].
    { unfold collection_view in Hcv. repeat case_bool_decide; by simplify_eq. }
    unfold list_of, list_items in Hl.
    destruct (m !! listKey key) as [d|] eqn:Hd; [|by subst l].
    destruct (proj1 (proj2 (Hm key Hs)) (SList key) d eq_refl Hd) as (items & Hdec & Hall).
    rewrite Hdec in Hl. destruct (encode_decode_list d items Hdec) as [<- Henc].
    assert (items ≠ []) as Hni by (intros ->; by subst l).
    exists items. split; [done|]. split; [done|]. split_and!; auto using rep_only.
    + by apply ttl_dead_ahead.
    + by rewrite decide_False.
  - assert (blank (delete (collectionTTLKey key) m1) key) as Hb.
    { intros s Hk Hkind. apply lookup_delete_None. right. by apply Hp. }
    split_and!.
    + apply key_ok_blank; [done|]. by rewrite lookup_delete_eq.
    + eapply same_elsewhere_trans; [done|]. by apply (delete_elsewhere key (STTL key)).
    + by apply blank_only.
    + unfold ttl_of. by rewrite lookup_delete_eq.
    + done.
    + by apply blank_list.
    + constructor.
    + split; [simpl; lia|constructor].
Qed.

Lemma list_state_write t key m0 e items m items' :
  short key → list_state t key m0 e items m →
  items' ≠ [] → Forall good_item items' → list_encodable items' →
  list_state t key m0 e items' (<[listKey key := encodeList items']> m).
Proof.
  intros Hs (Hok & He & Ho & [Ht Ha] & Hl & _ & _) Hne Hgood Henc.
  change (listKey key) with (storage_key (SList key)). split_and!; try done.
  - apply (insert_key_ok redisTypeList); try done.
    exists items'. by rewrite decode_encode_list.
  - eapply same_elsewhere_trans; [done|by apply insert_elsewhere].
  - by apply insert_only.
  - by rewrite (insert_ttl redisTypeList).
  - cbn [storage_key]. by rewrite lookup_insert_eq, decide_False.
Qed.

(** ** Programs *)

Lemma wp_redisItemPayload readings item now m Q :
  good_item item → Q (Ok (Some (item_payload item))) m →
  wp readings (redisItemPayload item now) Q m.
Proof.
  intros (v & Hv & He) HQ. unfold redisItemPayload. wp_step. eapply wp_decodeRecord; [done|].
  cbn [stored_ExpiresAt stored_Payload]. rewrite He. unfold expired_at.
  rewrite bool_decide_eq_false_2 by lia. rd_steps. unfold item_payload in HQ. by rewrite Hv in HQ.
Qed.

Lemma wp_live_loop t items live changed m
    (Q : result (list bytes * bool) → gmap bytes bytes → Prop) :
  Forall good_item items → Q (Ok (live ++ items, changed)) m →
  wp (at_time t) (for_each items
    (λ item '(live, changed),
       t ← store_Now;
       payload ← redisItemPayload item t;
       match payload with
       | None => mret (live, true)
       | Some _ => mret (live ++ [item], changed)
       end) (live, changed)) Q m.
Proof.
  intros H. revert live. induction H as [|item items Hi Hall IH]; intros live HQ; cbn [for_each].
  - rd_steps. by rewrite app_nil_r in HQ.
  - rd_steps. apply wp_redisItemPayload; [done|]. rd_steps. apply IH. by rewrite <-app_assoc.
Qed.

(** The items of a visible list, none of which can have expired. *)
Lemma wp_redisListValues t key m m0 e items Q :
  redis_ok m → short key → list_state t key m0 e items m → items ≠ [] →
  Q (Ok (Some items)) m → wp (at_time t) (redisListValues key) Q m.
Proof.
  intros Hm Hs Hst Hne HQ. unfold redisListValues, redisList. wp_step. wp_step.
  apply wp_redisType; [done..|]. intros m1 Hp.
  pose proof (list_state_view _ _ _ _ _ _ Hst) as Hv. destruct Hp as (_ & _ & Hp). rewrite Hv in *.
  destruct items as [|i items]; [done|]. cbn [fmap list_fmap list_view type_of] in *. subst m1.
  destruct Hst as (_ & _ & _ & _ & Hl & Hgood & Henc). rewrite decide_False in Hl by done.
  wp_step. apply wp_store_Get. store_names. rewrite Hl. rd_steps. rewrite decode_encode_list by done.
  rd_steps. apply wp_live_loop; [done|]. rd_steps. by rewrite bool_decide_eq_false_2.
Qed.

Lemma wp_redisListValues_other t key m Q :
  redis_ok m → short key → (∀ l, view m t key ≠ Some (OList l)) →
  (∀ m', pruned m t key m' →
    Q (match view m t key with None => Ok None | o => Err (wrongType (type_of o)) end) m') →
  wp (at_time t) (redisListValues key) Q m.
Proof.
  intros Hm Hs Hne HQ. unfold redisListValues, redisList. wp_step. wp_step.
  apply wp_redisType; [done..|]. intros m1 Hp. specialize (HQ m1 Hp).
  destruct (view m t key) as [[v|h|x|l]|] eqn:Hv; cbn [type_of]; try by rd_steps.
  by destruct (Hne l).
Qed.

Lemma wp_encode_loop readings values acc m (Q : result (list bytes) → gmap bytes bytes → Prop) :
  (∀ encoded, Forall2 (λ item v, unmarshalEnvelope item = Ok (mkEnvelope 0 bytesCodec v)
                                 ∧ length item = 19 + length v) encoded values →
     Q (Ok (acc ++ encoded)) m) →
  wp readings (for_each values
    (λ value encoded, item ← encodeRecord bytesCodec value 0; mret (encoded ++ [item])) acc) Q m.
Proof.
  revert acc. induction values as [|v values IH]; intros acc HQ; cbn [for_each].
  - rd_steps. specialize (HQ [] ltac:(constructor)). by rewrite app_nil_r in HQ.
  - rd_steps. unfold encodeRecord at 1. store_names. rd_steps.
    assert (Z.of_nat (length bytesCodec) ≤ 65535)%Z as Hc by by vm_compute.
    rewrite marshalEnvelope_ok by done. rd_steps. apply IH. intros encoded Hall.
    rewrite <-app_assoc. apply HQ. constructor; [|done]. split.
    + eapply unmarshal_marshal; [|by apply marshalEnvelope_ok]. unfold minInt64, maxInt64. lia.
    + rewrite !length_app, !be_put_length. done.
Qed.

Lemma wp_redisWriteList t key items m Q :
  short key → (items = [] → Q (Ok tt) (without key m)) →
  (items ≠ [] → Q (Ok tt) (<[listKey key := encodeList items]> m)) →
  wp (at_time t) (redisWriteList key items) Q m.
Proof.
  intros Hs H1 H2. unfold redisWriteList. case_bool_decide as He; rd_steps; [|by apply H2].
  apply wp_redisDeleteRaw; [done|]. intros b _. rd_steps. auto.
Qed.

(** *** Pushing *)

Definition list_before m (t : Z) key : option (list bytes * option Z) :=
  match view m t key with
  | None => Some ([], None)
  | Some (OList l) => Some (l, ttl_of m key)
  | Some _ => None
  end.

Definition push_outcome (t : Z) key (values : list bytes) (onLeft onlyIfExists : bool)
    m (r : result respValue) m' : Prop :=
  match list_before m t key with
  | None => r = Ok wrongTypeReply ∧ pruned m t key m'
  | Some (l, e) =>
      if onlyIfExists && bool_decide (l = []) then r = Ok (respIntegerValue 0) ∧ pruned m t key m'
      else
        let l' := if onLeft then reverse values ++ l else l ++ values in
        r = Ok (respIntegerValue (Z.of_nat (length l')))
        ∧ redis_ok m' ∧ same_elsewhere key m m'
        ∧ view m' t key = Some (OList l') ∧ expiry_view m' t key = e
  end.

(** Lists and values the 32-bit fields of a list record can describe. *)
Definition push_fits (l values : list bytes) : Prop :=
  (Z.of_nat (length l + length values) < 2 ^ 32)%Z
  ∧ Forall (λ v, Z.of_nat (length v) < 2 ^ 31)%Z values.

Lemma pushed_items items encoded values (onLeft : bool) :
  Forall good_item items → list_encodable items →
  Forall2 (λ item v, unmarshalEnvelope item = Ok (mkEnvelope 0 bytesCodec v)
                     ∧ length item = 19 + length v) encoded values →
  push_fits (item_payload <$> items) values →
  let items' := if onLeft then reverse encoded ++ items else items ++ encoded in
  Forall good_item items' ∧ list_encodable items'
  ∧ item_payload <$> items' = (if onLeft then reverse values ++ (item_payload <$> items)
                               else (item_payload <$> items) ++ values).
Proof.
  intros Hgood [Henc1 Henc2] Hall [Hfit Hval]. rewrite length_fmap in Hfit.
  pose proof (Forall2_length _ _ _ Hall) as Hlen.
  assert (Forall good_item encoded ∧ Forall (λ i, Z.of_nat (length i) < 2 ^ 32)%Z encoded
          ∧ item_payload <$> encoded = values) as (Hg & He & Hp).
  { clear -Hall Hval. induction Hall as [|i v encoded values [Hi Hl] Hall IH]; [done|].
    apply Forall_cons in Hval as [Hv Hval]. destruct (IH Hval) as (? & ? & ?).
    split_and!; [constructor; [by eexists|done]|constructor; [lia|done]|].
    cbn. unfold item_payload at 1. rewrite Hi. cbn. by f_equal. }
  cbn zeta. unfold list_encodable. destruct onLeft; rewrite !Forall_app, fmap_app, length_app.
  - rewrite length_reverse, !Forall_reverse, fmap_reverse, Hp. split_and!; auto; lia.
  - rewrite Hp. split_and!; auto; lia.
Qed.

Lemma push_done t key m0 e items m l' :
  redis_ok m0 → short key → list_state t key m0 e items m → item_payload <$> items = l' → l' ≠ [] →
  redis_ok m ∧ same_elsewhere key m0 m ∧ view m t key = Some (OList l') ∧ expiry_view m t key = e.
Proof.
  intros Hm Hs Hst Hl Hne. pose proof (list_state_view _ _ _ _ _ _ Hst) as Hv.
  rewrite Hl in Hv. destruct l' as [|a l']; [done|]. cbn [list_view] in Hv.
  split_and!; [by eapply list_state_ok|by destruct Hst as (_ & ? & _)|done|].
  unfold expiry_view. rewrite Hv. by destruct Hst as (_ & _ & _ & [? _] & _).
Qed.

Lemma app_values_nonempty (onLeft : bool) (l : list bytes) y values :
  (if onLeft then reverse (y :: values) ++ l else l ++ y :: values) ≠ [].
Proof.
  destruct onLeft; intros H; apply (f_equal length) in H;
    rewrite length_app, ?length_reverse in H; cbn in H; lia.
Qed.

(** What writing the pushed list leaves. *)
Lemma push_result t key m e items m2 encoded y values (onLeft : bool) :
  redis_ok m → short key → list_state t key m e items m2 →
  Forall2 (λ item v, unmarshalEnvelope item = Ok (mkEnvelope 0 bytesCodec v)
                     ∧ length item = 19 + length v) encoded (y :: values) →
  push_fits (item_payload <$> items) (y :: values) →
  let items' := if onLeft then reverse encoded ++ items else items ++ encoded in
  let l := item_payload <$> items in
  let l' := if onLeft then reverse (y :: values) ++ l else l ++ y :: values in
  let m' := <[listKey key := encodeList items']> m2 in
  items' ≠ [] ∧ length items' = length l'
  ∧ redis_ok m' ∧ same_elsewhere key m m'
  ∧ view m' t key = Some (OList l') ∧ expiry_view m' t key = e.
Proof.
  intros Hm Hs Hst Hall Hfit items' l l' m'.
  destruct (pushed_items items encoded (y :: values) onLeft) as (Hg & He & Hpl);
    [by destruct Hst as (_ & _ & _ & _ & _ & ? & ?)..|done|done|].
  fold items' in Hg, He, Hpl. change (item_payload <$> items' = l') in Hpl.
  assert (items' ≠ []) as Hne'.
  { intros Hnil. rewrite Hnil in Hpl. symmetry in Hpl. by apply app_values_nonempty in Hpl. }
  pose proof (list_state_write _ _ _ _ _ _ items' Hs Hst Hne' Hg He) as Hst'.
  split; [done|]. split; [by rewrite <-Hpl, length_fmap|].
  eapply push_done; [done..|apply app_values_nonempty].
Qed.

Lemma wp_redisPushValues t key y values (onLeft onlyIfExists : bool) m :
  redis_ok m → short key → push_fits (list_of m key) (y :: values) →
  wp (at_time t) (redisPushValues key (y :: values) onLeft onlyIfExists)
    (push_outcome t key (y :: values) onLeft onlyIfExists m) m.
Proof.
  intros Hm Hs Hfit. apply wp_catching. wp_step. apply wp_redisType; [done..|]. intros m1 Hp.
  pose proof (pruned_ok _ _ _ _ Hm Hp) as Hm1.
  pose proof (pruned_view m t key m1 key Hs Hs Hp) as Hv1.
  pose proof (list_state_start t key m m1 Hm Hs Hp) as Hst.
  unfold push_outcome, list_before.
  destruct (view m t key) as [[v|h|x|l]|] eqn:Hv; cbn [type_of]; decide_types; rd_steps; try done.
  - destruct Hst as (items & -> & Hne & Hst). rewrite andb_false_r.
    rewrite (bool_decide_eq_false_2 (_ <$> items = [])) by (by destruct items).
    rewrite andb_false_r. wp_step. eapply wp_redisListValues; [done..|]. cbv beta iota.
    rewrite (bool_decide_eq_false_2 (Some items = None)), andb_false_r by done.
    wp_step. apply wp_encode_loop. intros encoded Hall. cbn [app default from_option id]. rd_steps.
    rewrite swap_ends_reverse.
    assert (list_of m key = item_payload <$> items) as Hlo.
    { destruct (view_collection m t key _ Hm Hs Hv) as (_ & Hcv & _); [done|].
      unfold collection_view in Hcv. repeat case_bool_decide; by simplify_eq. }
    rewrite Hlo in Hfit.
    destruct (push_result t key m (ttl_of m key) items m1 encoded y values onLeft) as (Hne' & -> & Hdone);
      [done..|]. by apply wp_redisWriteList; [| |intros _; rd_steps].
  - destruct onlyIfExists; cbn [andb]; decide_types; [by rd_steps|]. wp_step.
    apply wp_redisListValues_other; [done..|by rewrite Hv1|]. rewrite Hv1. intros m2 Hp2.
    cbv beta iota. wp_step. apply wp_encode_loop. intros encoded Hall.
    cbn [app default from_option id]. rd_steps. rewrite swap_ends_reverse.
    pose proof (list_state_start t key m m2 Hm Hs (pruned_again m t key m1 m2 Hm Hs Hp Hp2)) as Hst2.
    rewrite Hv in Hst2.
    edestruct (push_result t key m None [] _ encoded y values onLeft Hm Hs Hst2) as (Hne' & Hlen & Hdone);
      [done|by destruct Hfit as [? ?]; split; [cbn in *; lia|]|].
    cbn [app fmap list_fmap] in Hne', Hlen, Hdone. rewrite Hlen.
    apply wp_redisWriteList; [done|done|]. intros _. decide_types. rd_steps. store_names.
    by rewrite delete_insert_ne.
Qed.

(** *** Popping *)

(** The elements a pop removes and leaves. *)
Definition pop_split (onLeft : bool) (n : nat) (l : list bytes) : list bytes * list bytes :=
  if onLeft then (take n l, drop n l) else (drop (length l - n) l, take (length l - n) l).

Definition pop_reply (counted : bool) (removed : list bytes) : respValue :=
  if counted then respArrayValues (respBulkBytes <$> removed)
  else bulk_or_nil (head removed).

(** The outcome of popping [count] elements; [counted] is the form with an
    explicit count. *)
Definition pop_outcome (t : Z) key (onLeft counted : bool) (count : Z)
    m (r : result respValue) m' : Prop :=
  match view m t key with
  | None => r = Ok (if counted then respArrayValues [] else respNil) ∧ pruned m t key m'
  | Some (OList l) =>
      let '(removed, rest) := pop_split onLeft (Z.to_nat (Z.min count (Z.of_nat (length l)))) l in
      r = Ok (pop_reply counted removed)
      ∧ redis_ok m' ∧ same_elsewhere key m m' ∧ view m' t key = list_view rest
      ∧ (rest ≠ [] → expiry_view m' t key = ttl_of m key)
  | Some _ => r = Ok wrongTypeReply ∧ pruned m t key m'
  end.

Lemma wp_redisListReply t items now m Q :
  Forall good_item items →
  Q (Ok (respArrayValues (respBulkBytes <$> (item_payload <$> items)))) m →
  wp (at_time t) (redisListReply items now) Q m.
Proof.
  intros Hall HQ. unfold redisListReply. wp_step.
  assert (∀ acc (Q : result (list respValue) → gmap bytes bytes → Prop),
    Q (Ok (acc ++ (respBulkBytes <$> (item_payload <$> items)))) m →
    wp (at_time t) (for_each items
      (λ item replies, payload ← redisItemPayload item now;
         match payload with
         | Some payload => mret (replies ++ [respBulkBytes payload])
         | None => mret replies
         end) acc) Q m) as Hloop.
  { clear HQ Q. induction Hall as [|item items Hi Hall IH]; intros acc Q HQ; cbn [for_each].
    - rd_steps. by rewrite app_nil_r in HQ.
    - rd_steps. apply wp_redisItemPayload; [done|]. rd_steps. apply IH. by rewrite <-app_assoc. }
  apply Hloop. by rd_steps.
Qed.

(** The state after the remaining items have been written back. *)
Lemma rest_written t key m e items m1 rest :
  redis_ok m → short key → list_state t key m e items m1 → Forall good_item rest →
  list_encodable rest →
  let m' := if decide (rest = []) then without key m1 else <[listKey key := encodeList rest]> m1 in
  redis_ok m' ∧ same_elsewhere key m m' ∧ view m' t key = list_view (item_payload <$> rest)
  ∧ (item_payload <$> rest ≠ [] → expiry_view m' t key = e).
Proof.
  intros Hm Hs Hst Hg He. case_decide as Hr.
  - subst rest. destruct (removed_ok key m m1) as (? & ? & Hn);
      [done|done|by destruct Hst as (_ & ? & _)|]. by split_and!.
  - pose proof (list_state_write _ _ _ _ _ _ rest Hs Hst Hr Hg He) as Hst'.
    destruct (push_done t key m e rest _ _ Hm Hs Hst' eq_refl) as (? & ? & Hv & ?);
      [by destruct rest|]. split_and!; [done..| |done]. rewrite Hv. by destruct rest.
Qed.

Lemma pop_split_fmap {onLeft n} (items removed rest : list bytes) :
  pop_split onLeft n items = (removed, rest) →
  pop_split onLeft n (item_payload <$> items) = (item_payload <$> removed, item_payload <$> rest).
Proof.
  unfold pop_split. destruct onLeft; intros [= <- <-];
    by rewrite ?length_fmap, fmap_take, fmap_drop.
Qed.

Lemma pop_split_Forall {onLeft n} (P : bytes → Prop) items removed rest :
  pop_split onLeft n items = (removed, rest) → Forall P items →
  Forall P removed ∧ Forall P rest ∧ length rest ≤ length items.
Proof.
  unfold pop_split. destruct onLeft; intros [= <- <-] H;
    rewrite ?length_take, ?length_drop; (split; [|split; [|lia]]);
    auto using Forall_take, Forall_drop.
Qed.

(** Removing [n] elements: none when [n] is 0, some when [n] is positive and
    the list is not empty. *)
Lemma pop_split_0 onLeft items : pop_split onLeft 0 items = ([], items).
Proof.
  unfold pop_split. destruct onLeft; [done|]. by rewrite Nat.sub_0_r, drop_all, take_ge.
Qed.

Lemma pop_split_1 onLeft items removed rest :
  items ≠ [] → pop_split onLeft 1 items = (removed, rest) → removed ≠ [].
Proof.
  intros Hne. destruct items as [|i items]; [done|]. unfold pop_split.
  destruct onLeft; intros [= <- <-]; [done|]. intros Hd%(f_equal length).
  rewrite length_drop in Hd. cbn in Hd. lia.
Qed.

Lemma wp_redisPopReply t (arg : option bytes) removed m Q :
  Forall good_item removed → (arg = None → removed ≠ []) →
  Q (Ok (pop_reply (negb (bool_decide (arg = None))) (item_payload <$> removed))) m →
  wp (at_time t) (redisPopReply arg removed t) Q m.
Proof.
  intros Hg Hne HQ. destruct arg as [arg|]; cbn [redisPopReply].
  - apply wp_redisListReply; [done|]. by rewrite bool_decide_eq_false_2 in HQ.
  - destruct removed as [|item removed]; [by destruct Hne|]. apply Forall_cons in Hg as [Hi _].
    wp_step. apply wp_redisItemPayload; [done|]. by rd_steps.
Qed.

Lemma wp_redisPopKey t key (arg : option bytes) (onLeft : bool) (count : Z) m :
  redis_ok m → short key → redisPopCount arg = Ok count →
  (0 ≤ count)%Z → (arg = None → count = 1%Z) →
  wp (at_time t) (redisPopKey key arg onLeft)
    (pop_outcome t key onLeft (negb (bool_decide (arg = None))) count m) m.
Proof.
  intros Hm Hs Hcount Hpos Hone. apply wp_catching. wp_step. unfold pop_outcome.
  destruct (view m t key) as [[v|h|x|l]|] eqn:Hv.
  1,2,3,5: apply wp_redisListValues_other; [done..|by rewrite Hv|];
    rewrite Hv; intros m1 Hp; rd_steps; (split; [|done]); try done;
    by destruct (bool_decide (arg = None)).
  assert (pruned m t key m) as Hp by (split_and!; [done..|by rewrite Hv]).
  pose proof (list_state_start t key m m Hm Hs Hp) as Hst. rewrite Hv in Hst.
  destruct Hst as (items & -> & Hne & Hst).
  eapply wp_redisListValues; [done..|]. cbv beta iota. rd_steps. rewrite Hcount. rd_steps.
  rewrite length_fmap. set (n := Z.to_nat (Z.min count (Z.of_nat (length items)))). cbn zeta.
  fold (pop_split onLeft n items).
  destruct (pop_split onLeft n items) as [removed rest] eqn:Hsplit.
  rewrite (pop_split_fmap items removed rest Hsplit).
  assert (Forall good_item items ∧ list_encodable items) as [Hg [He1 He2]]
    by by destruct Hst as (_ & _ & _ & _ & _ & ? & ?).
  destruct (pop_split_Forall good_item _ _ _ Hsplit Hg) as (Hg1 & Hg2 & Hlen).
  destruct (pop_split_Forall _ _ _ _ Hsplit He2) as (_ & He3 & _).
  destruct (bool_decide (arg ≠ None ∧ count = 0%Z)) eqn:Hzero.
  - apply bool_decide_eq_true in Hzero as [Harg ->].
    assert (n = 0) as Hn by (unfold n; lia). rewrite Hn, pop_split_0 in Hsplit. simplify_eq.
    rd_steps. rewrite bool_decide_eq_false_2 by done. split; [done|].
    destruct (push_done t key m _ rest m _ Hm Hs Hst eq_refl) as (? & ? & Hv' & Hx);
      [by destruct rest|]. split_and!; [done..| |done]. rewrite Hv'. by destruct rest.
  - destruct (rest_written t key m _ items m rest Hm Hs Hst Hg2) as (Hok & Hels & Hview & Hexp);
      [split; [lia|done]|].
    assert (arg = None → removed ≠ []) as Hrne.
    { intros ->. apply (pop_split_1 onLeft items removed rest Hne). rewrite <-Hsplit.
      f_equal. unfold n. rewrite Hone by done. destruct items; [done|]. cbn [length]. lia. }
    wp_step. apply wp_redisWriteList; [done|..]; intros Hr; rd_steps;
      apply wp_redisPopReply; try done;
      rewrite ?decide_True, ?decide_False in * by done; by split_and!.
Qed.

(** ** Properties *)

(** [HSET] and [HMSET] write exactly the given fields of a hash (a later
    pair wins), reply the number of fields that are new, keep the hash's
    deadline, start a new hash without a stale deadline, and refuse a key of
    another type without touching any view; other keys are untouched. *)
Theorem redis_hset_refines t cmd key fv fvs rest :
  short key → pairs rest = Some (fv :: fvs) → (Z.of_nat (length (fv :: fvs)) ≤ maxInt64)%Z →
  triple (at_time t) redis_ok (redisHSet (cmd :: key :: rest)) (hset_outcome t key (fv :: fvs)).
Proof. intros. apply triple_intro. intros m Hm. by apply wp_redisHSet. Qed.

Lemma redis_hset_refines_witness :
  short ⟦"h"⟧
  ∧ pairs [⟦"f"⟧; ⟦"1"⟧; ⟦"g"⟧; ⟦"2"⟧] = Some [(⟦"f"⟧, ⟦"1"⟧); (⟦"g"⟧, ⟦"2"⟧)]
  ∧ triple (at_time 3) redis_ok (redisHSet [⟦"HSET"⟧; ⟦"h"⟧; ⟦"f"⟧; ⟦"1"⟧; ⟦"g"⟧; ⟦"2"⟧])
      (hset_outcome 3 ⟦"h"⟧ [(⟦"f"⟧, ⟦"1"⟧); (⟦"g"⟧, ⟦"2"⟧)]).
Proof.
  split; [vm_compute; reflexivity|]. split; [reflexivity|].
  apply redis_hset_refines; [vm_compute; reflexivity|reflexivity|vm_compute; discriminate].
Defined.

(** [HGET] reads one field of a visible hash: its value, nil when the field
    or the key is absent, an error for a key of another type; it changes no
    view. *)
Theorem redis_hget_refines t cmd key field :
  short key →
  triple (at_time t) redis_ok (redisHGet [cmd; key; field])
    (λ m r m', r = Ok (match field_result (view m t key) field with
                       | Ok value => bulk_or_nil value
                       | _ => wrongTypeReply
                       end)
       ∧ redis_ok m' ∧ same_elsewhere key m m' ∧ same_views t m m').
Proof.
  intros Hs. apply triple_intro. intros m Hm. apply wp_catching. wp_step.
  apply wp_redisHashField; [done..|]. intros m' Hp.
  assert (redis_ok m' ∧ same_elsewhere key m m' ∧ same_views t m m') as Hrest
    by (split_and!; [by eapply pruned_ok|by eapply pruned_elsewhere|by apply (pruned_same_views m t key)]).
  unfold field_result. by destruct (view m t key) as [[]|]; rd_steps.
Qed.

Lemma redis_hget_refines_witness :
  short ⟦"h"⟧
  ∧ triple (at_time 3) redis_ok (redisHGet [⟦"HGET"⟧; ⟦"h"⟧; ⟦"f"⟧])
      (λ m r m', r = Ok (match field_result (view m 3 ⟦"h"⟧) ⟦"f"⟧ with
                         | Ok value => bulk_or_nil value
                         | _ => wrongTypeReply
                         end)
         ∧ redis_ok m' ∧ same_elsewhere ⟦"h"⟧ m m' ∧ same_views 3 m m').
Proof. split; [vm_compute; reflexivity|]. apply redis_hget_refines. vm_compute; reflexivity. Defined.

(** [SADD] is set union and [SREM] set difference on the visible set: the
    replies count exactly the members that were added or removed, a set that
    becomes empty disappears together with its deadline, a key of another
    type is refused, and other keys are untouched. *)
Theorem redis_set_commands_refine t cmd key y members :
  short key → (Z.of_nat (length (y :: members)) ≤ maxInt64)%Z →
  triple (at_time t) redis_ok (redisSAdd (cmd :: key :: y :: members))
    (sadd_outcome t key (y :: members))
  ∧ triple (at_time t) redis_ok (redisSRem (cmd :: key :: y :: members))
      (srem_outcome t key (y :: members)).
Proof.
  intros. split; apply triple_intro; intros m Hm; [by apply wp_redisSAdd|by apply wp_redisSRem].
Qed.

Lemma redis_set_commands_refine_witness :
  short ⟦"s"⟧
  ∧ triple (at_time 3) redis_ok (redisSRem [⟦"SREM"⟧; ⟦"s"⟧; ⟦"a"⟧; ⟦"a"⟧])
      (srem_outcome 3 ⟦"s"⟧ [⟦"a"⟧; ⟦"a"⟧]).
Proof.
  split; [vm_compute; reflexivity|].
  apply (redis_set_commands_refine 3 ⟦"SREM"⟧ ⟦"s"⟧ ⟦"a"⟧ [⟦"a"⟧]);
    [vm_compute; reflexivity|vm_compute; discriminate].
Defined.

(** C28: [LPUSH], [RPUSH] and their X variants: values pushed on the right are
    appended in order, values pushed on the left end up reversed in front;
    the reply is the new length; the deadline of an existing list is kept and
    a new list starts without one; LPUSHX and RPUSHX leave an absent key
    absent; a key of another type is refused. *)
Theorem redis_push_refines t key y values (onLeft onlyIfExists : bool) :
  short key →
  triple (at_time t) (λ m, redis_ok m ∧ push_fits (list_of m key) (y :: values))
    (redisPushValues key (y :: values) onLeft onlyIfExists)
    (push_outcome t key (y :: values) onLeft onlyIfExists).
Proof. intros. apply triple_intro. intros m [Hm Hfit]. by apply wp_redisPushValues. Qed.

Lemma redis_push_refines_witness :
  short ⟦"l"⟧ ∧ push_fits (list_of ∅ ⟦"l"⟧) [⟦"a"⟧; ⟦"b"⟧]
  ∧ triple (at_time 3) (λ m, redis_ok m ∧ push_fits (list_of m ⟦"l"⟧) [⟦"a"⟧; ⟦"b"⟧])
      (redisPushValues ⟦"l"⟧ [⟦"a"⟧; ⟦"b"⟧] true false)
      (push_outcome 3 ⟦"l"⟧ [⟦"a"⟧; ⟦"b"⟧] true false).
Proof.
  split; [vm_compute; reflexivity|]. split; [split; [reflexivity|repeat constructor]|].
  apply redis_push_refines. vm_compute; reflexivity.
Defined.

(** [LPOP] and [RPOP], with and without a count: the elements come off the
    chosen end, at most as many as asked, the rest stays in order with its
    deadline, an emptied list disappears, an absent key gives nil (or an
    empty array), a key of another type is refused; the pop never panics. *)
Theorem redis_pop_refines t key (arg : option bytes) (onLeft : bool) (count : Z) :
  short key → redisPopCount arg = Ok count → (0 ≤ count)%Z → (arg = None → count = 1%Z) →
  triple (at_time t) redis_ok (redisPopKey key arg onLeft)
    (pop_outcome t key onLeft (negb (bool_decide (arg = None))) count).
Proof. intros. apply triple_intro. intros m Hm. by apply wp_redisPopKey. Qed.

Lemma redis_pop_refines_witness :
  short ⟦"l"⟧ ∧ redisPopCount (Some ⟦"3"⟧) = Ok 3%Z
  ∧ triple (at_time 3) redis_ok (redisPopKey ⟦"l"⟧ (Some ⟦"3"⟧) false)
      (pop_outcome 3 ⟦"l"⟧ false true 3).
Proof.
  split; [vm_compute; reflexivity|]. split; [vm_compute; reflexivity|].
  apply (redis_pop_refines 3 ⟦"l"⟧ (Some ⟦"3"⟧) false 3);
    [vm_compute; reflexivity|vm_compute; reflexivity|discriminate|discriminate].
Defined.
