(* ===== verification/RedisKeyspaceProps.v ===== *)
(** * Properties of the key-space commands and of [SCAN]

    [KEYS], [SCAN], [DBSIZE], [FLUSHDB] and [FLUSHALL] against the abstract
    database: the logical keys they enumerate are the keys with a view, and
    following the cursors of [SCAN] visits each of them once. *)

From S2P Require Import Prelude Errors Engine Effects MemDriver Envelope Keys ListCodec Text DriverName DB DBTheorems Collections Transport Resp RedisStorage RedisStrings RedisCollections PathMatch RedisServer RedisModel RedisTheorems RedisStringProps.

Implicit Types (m : gmap bytes bytes) (key cmd arg : bytes).

(** ** The visible keys *)

Definition logical_keys m : gset bytes := list_to_set (omap (λ kv, logicalKeyFromStorage kv.1) (map_to_list m)).

Definition visible m (t : Z) : gset bytes := filter (λ key, view m t key ≠ None) (logical_keys m).

(** Every logical key in the store has a length that fits its encoding. *)
Definition keys_short m : Prop := ∀ key, key ∈ logical_keys m → short key.

Lemma elem_of_logical_keys m key :
  key ∈ logical_keys m ↔ ∃ sk, is_Some (m !! sk) ∧ owns key sk = true.
Proof.
  unfold logical_keys, owns. rewrite elem_of_list_to_set, list_elem_of_omap. split.
  - intros ([sk v] & Hin & Hk). apply elem_of_map_to_list in Hin. exists sk.
    split; [by eexists|by apply bool_decide_eq_true].
  - intros (sk & [v Hm] & Hk%bool_decide_eq_true). exists (sk, v).
    by rewrite elem_of_map_to_list.
Qed.

Lemma view_logical m t key : short key → view m t key ≠ None → key ∈ logical_keys m.
Proof.
  intros Hs Hv. apply dec_stable. rewrite elem_of_logical_keys. intros Hno.
  apply Hv, blank_view. intros s Hk _. apply eq_None_not_Some. intros Hm. apply Hno.
  exists (storage_key s). split; [done|]. by apply owns_shape.
Qed.

Lemma elem_of_visible m t key : short key → key ∈ visible m t ↔ view m t key ≠ None.
Proof.
  intros Hs. unfold visible. rewrite elem_of_filter. split; [by intros []|].
  intros Hv. split; [done|]. by apply (view_logical m t).
Qed.

Lemma logical_keys_subseteq m m' : m' ⊆ m → logical_keys m' ⊆ logical_keys m.
Proof.
  intros Hsub key. rewrite !elem_of_logical_keys. intros (sk & [v Hm] & Ho).
  exists sk. split; [|done]. exists v. by eapply lookup_weaken.
Qed.

Lemma matches_nil m : matches m [] = map_to_list m.
Proof.
  unfold matches. induction (map_to_list m) as [|[k v] l IH]; [done|].
  rewrite filter_cons_True by done. by rewrite IH.
Qed.

Lemma wp_store_Collect_all t m (Q : result (list (bytes * bytes)) → gmap bytes bytes → Prop) :
  (∀ items, items ≡ₚ map_to_list m → Q (Ok items) m) → wp (at_time t) (store_Collect []) Q m.
Proof.
  intros HQ. apply wp_store_ScanPrefix. intros items Hp.
  eapply wp_mono; [apply (wp_for_each _ items _ (λ don s m', s = don ∧ m' = m))|].
  - done.
  - intros don x rest s m' _ [-> ->]. rd_steps. eauto.
  - intros r m' (s & -> & -> & ->). apply HQ. by rewrite Hp, matches_nil.
Qed.

Lemma filter_view_perm m t (l : list bytes) (s : gset bytes) :
  l ≡ₚ elements s →
  filter (λ key, view m t key ≠ None) l ≡ₚ elements (filter (λ key, view m t key ≠ None) s).
Proof.
  intros Hp. apply NoDup_Permutation.
  - apply NoDup_filter. rewrite Hp. apply NoDup_elements.
  - apply NoDup_elements.
  - intros key. rewrite list_elem_of_filter, elem_of_elements, elem_of_filter, Hp. 
    by rewrite elem_of_elements.
Qed.

Lemma type_of_None o : type_of o ≠ redisTypeNone ↔ o ≠ None.
Proof. by destruct o as [[]|]. Qed.

(** [redisLogicalKeys] lists the visible keys in order; what it removes on
    the way is invisible. *)
Lemma wp_redisLogicalKeys {MR : MapRange} t m Q :
  redis_ok m → keys_short m →
  (∀ m', redis_ok m' → m' ⊆ m → same_views t m m' →
    Q (Ok (sort_strings (elements (visible m t)))) m') →
  wp (at_time t) redisLogicalKeys Q m.
Proof.
  intros Hm Hks HQ. unfold redisLogicalKeys. wp_step. apply wp_store_Collect_all.
  intros items Hitems. cbn zeta. set (cands := list_to_set _).
  assert (cands = logical_keys m) as Hc.
  { apply set_eq. intros key. unfold cands, logical_keys. by rewrite Hitems. }
  pose proof (map_range_perm cands) as Hr. wp_step.
  eapply wp_mono; [apply (wp_for_each _ _ _ (λ don s m', s = filter (λ key, view m t key ≠ None) don
    ∧ redis_ok m' ∧ m' ⊆ m ∧ same_views t m m'))|].
  - done.
  - intros don key rest s m' Hl (-> & Hok & Hsub & Hsame).
    assert (short key) as Hs.
    { apply Hks. rewrite <-Hc, <-elem_of_elements, <-Hr, Hl. set_solver. }
    wp_step. apply wp_redisType; [done..|]. intros m2 Hp. rd_steps.
    eexists. split; [done|]. split_and!.
    + rewrite filter_app, (bool_decide_ext _ (view m t key ≠ None))
        by (rewrite type_of_None, Hsame; done).
      case_bool_decide as Hv; [by rewrite filter_cons_True|].
      rewrite filter_cons_False by auto. by rewrite app_nil_r.
    + by eapply pruned_ok.
    + etrans; [|exact Hsub]. by destruct Hp.
    + intros key' Hs'. rewrite (pruned_view m' t key m2) by done. by apply Hsame.
  - intros r m' (s & -> & -> & Hok & Hsub & Hsame). rd_steps.
    erewrite sort_strings_unique; [by apply HQ|]. unfold visible. rewrite <-Hc.
    by apply filter_view_perm.
Qed.

Lemma visible_same m m' t :
  keys_short m → m' ⊆ m → same_views t m m' → visible m' t = visible m t ∧ keys_short m'.
Proof.
  intros Hks Hsub Hsame. pose proof (logical_keys_subseteq m m' Hsub) as Hl.
  assert (keys_short m') as Hks' by (intros key Hin; auto).
  split; [|done]. apply set_eq. intros key. split.
  - intros Hin. assert (short key) as Hs by (apply Hks'; unfold visible in Hin; set_solver).
    apply elem_of_visible; [done|]. rewrite <-Hsame by done. by apply elem_of_visible.
  - intros Hin. assert (short key) as Hs by (apply Hks; unfold visible in Hin; set_solver).
    apply elem_of_visible; [done|]. rewrite Hsame by done. by apply elem_of_visible.
Qed.

Lemma keys_short_empty : keys_short ∅.
Proof.
  intros key (sk & [v Hv] & _)%elem_of_logical_keys. by rewrite lookup_empty in Hv.
Qed.

(** ** Pages *)

(** What a client reads from a reply of [SCAN]: the next cursor and the keys
    of the page. *)
Definition scan_reply (reply : respValue) : option (Z * list bytes) :=
  match resp_items reply with
  | [next; page] => (λ z, (z, resp_data <$> resp_items page)) <$> parse_int 64 (resp_data next)
  | _ => None
  end.

(** The page of [filtered] at [cursor], and the cursor after it. *)
Definition page_at (filtered : list bytes) (cursor count : nat) : nat * list bytes :=
  let last := min (length filtered) (cursor + count) in
  (if bool_decide (last < length filtered) then last else 0, slice cursor last filtered).

Lemma scan_page_exact filtered (cursor count : nat) :
  0 < count → (Z.of_nat (length filtered + count) ≤ maxInt64)%Z →
  ∃ reply, scan_page filtered (Z.of_nat cursor) (Z.of_nat count) = Ok reply
    ∧ scan_reply reply = Some (Z.of_nat (page_at filtered cursor count).1,
                               (page_at filtered cursor count).2).
Proof.
  intros Hc Hb. unfold scan_page, page_at. cbn zeta.
  assert (∀ l : list bytes, resp_data <$> (respBulkString <$> l) = l) as Hpage.
  { intros l. rewrite <-list_fmap_compose. apply list_fmap_id. }
  case_bool_decide as Hcur.
  - eexists. split; [done|]. unfold scan_reply. cbn -[parse_int slice].
    replace (length filtered `min` (cursor + count)) with (length filtered) by lia.
    rewrite bool_decide_eq_false_2 by lia. unfold slice.
    by rewrite drop_ge, take_nil by lia.
  - rewrite (wrap64_id (Z.of_nat cursor + Z.of_nat count)) by (unfold minInt64, maxInt64 in *; lia).
    set (last := length filtered `min` (cursor + count)).
    assert ((if bool_decide (Z.of_nat (length filtered) < Z.of_nat cursor + Z.of_nat count)%Z
             then Z.of_nat (length filtered) else (Z.of_nat cursor + Z.of_nat count)%Z)
            = Z.of_nat last) as -> by (case_bool_decide; lia).
    rewrite bool_decide_eq_false_2
      by (rewrite wrap64_id by (unfold minInt64, maxInt64 in *; lia); lia).
    eexists. split; [done|]. unfold scan_reply. cbn -[parse_int slice].
    rewrite parse_format_int, !Nat2Z.id, Hpage.
    + cbn -[slice]. do 2 f_equal. do 2 case_bool_decide; lia.
    + case_bool_decide; unfold maxInt64 in Hb; lia.
Qed.

Lemma sorted_filter (P : bytes → Prop) `{!∀ key, Decision (P key)} (l : list bytes) :
  Sorted bytes_le l → Sorted bytes_le (filter P l).
Proof.
  intros Hs%Sorted_StronglySorted; [|apply _]. apply StronglySorted_Sorted.
  induction Hs as [|key l Hs IH Hall]; [constructor|]. rewrite filter_cons.
  case_decide; [|done]. constructor; [done|]. rewrite Forall_forall in *.
  intros x [_ Hx]%list_elem_of_filter. by apply Hall.
Qed.

(** Following the cursors from [cursor] on. *)
Lemma page_step (filtered : list bytes) (cursor count : nat) :
  0 < count → cursor ≤ length filtered →
  let '(next, page) := page_at filtered cursor count in
  if bool_decide (next = 0) then page = drop cursor filtered
  else cursor < next ≤ length filtered ∧ page ++ drop next filtered = drop cursor filtered.
Proof.
  intros Hc Hcur. unfold page_at. cbn zeta.
  set (last := length filtered `min` (cursor + count)).
  destruct (bool_decide (last < length filtered)) eqn:Hl.
  - apply bool_decide_eq_true in Hl. rewrite bool_decide_eq_false_2 by lia.
    split; [lia|]. apply slice_app_drop. lia.
  - apply bool_decide_eq_false in Hl. rewrite bool_decide_eq_true_2 by done.
    rewrite <-(slice_app_drop cursor last) by lia. rewrite drop_ge by lia.
    by rewrite app_nil_r.
Qed.

(** A client that repeats [SCAN] with the same options until the cursor is
    zero again. *)
Fixpoint scan_client {GT : GoText} {MR : MapRange} (fuel : nat) (cmd : bytes) (options : list bytes)
    (cursor : Z) : M (option (list bytes)) :=
  match fuel with
  | O => mret None
  | S fuel =>
      reply ← redisScan (cmd :: format_int cursor :: options);
      match scan_reply reply with
      | Some (next, page) =>
          if bool_decide (next = 0%Z) then mret (Some page)
          else rest ← scan_client fuel cmd options next; mret (app page <$> rest)
      | None => mret None
      end
  end.

Definition matching (pattern : bytes) m (t : Z) : list bytes :=
  filter (λ key, redisPatternMatch pattern key = true) (sort_strings (elements (visible m t))).

(** The stores on which a scan with [count] keys to a page does not overflow
    a cursor and ends within [fuel] pages. *)
Definition scannable (t : Z) (count fuel : nat) m : Prop :=
  redis_ok m ∧ keys_short m ∧ size (visible m t) < fuel
  ∧ (Z.of_nat (size (visible m t) + count) ≤ maxInt64)%Z.

Lemma length_matching pattern m t : length (matching pattern m t) ≤ size (visible m t).
Proof.
  unfold matching. etrans; [apply length_filter|].
  by rewrite sort_strings_perm.
Qed.

Lemma wp_redisScan {GT : GoText} {MR : MapRange} t cmd options pattern (count cursor : nat) m Q :
  parseScanOptions ⟦"*"⟧ 10 options = inr (pattern, Z.of_nat count) → 0 < count →
  redis_ok m → keys_short m →
  (Z.of_nat (size (visible m t) + count) ≤ maxInt64)%Z → cursor ≤ size (visible m t) →
  (∀ reply m', redis_ok m' → m' ⊆ m → same_views t m m' →
     scan_reply reply = Some (Z.of_nat (page_at (matching pattern m t) cursor count).1,
                              (page_at (matching pattern m t) cursor count).2) →
     Q (Ok reply) m') →
  wp (at_time t) (redisScan (cmd :: format_int (Z.of_nat cursor) :: options)) Q m.
Proof.
  intros Hopt Hc Hm Hks Hb Hcur HQ. unfold redisScan, redisParseNonNegative, redisParseInt.
  rewrite parse_format_int by (unfold maxInt64 in Hb; lia).
  rewrite bool_decide_eq_false_2 by lia. rewrite Hopt. apply wp_catching. wp_step.
  apply wp_redisLogicalKeys; [done..|]. intros m' Hok Hsub Hsame. rd_steps.
  pose proof (length_matching pattern m t).
  destruct (scan_page_exact (matching pattern m t) cursor count) as (reply & Hp & Hr); [done|lia|].
  unfold matching in Hp. rewrite Hp. by apply HQ.
Qed.

Lemma wp_scan_client {GT : GoText} {MR : MapRange} t cmd options pattern (count : nat) fuel
    (cursor : nat) m0 m :
  parseScanOptions ⟦"*"⟧ 10 options = inr (pattern, Z.of_nat count) → 0 < count →
  keys_short m0 → redis_ok m → m ⊆ m0 → same_views t m0 m →
  (Z.of_nat (size (visible m0 t) + count) ≤ maxInt64)%Z →
  cursor ≤ length (matching pattern m0 t) → length (matching pattern m0 t) < fuel + cursor →
  wp (at_time t) (scan_client fuel cmd options (Z.of_nat cursor))
    (λ r m', r = Ok (Some (drop cursor (matching pattern m0 t)))
       ∧ redis_ok m' ∧ m' ⊆ m0 ∧ same_views t m0 m') m.
Proof.
  intros Hopt Hc Hks. revert cursor m.
  induction fuel as [|fuel IH]; intros cursor m Hm Hsub Hsame Hb Hcur Hfuel; [lia|].
  destruct (visible_same m0 m t Hks Hsub Hsame) as [Hvis Hks'].
  pose proof (length_matching pattern m0 t).
  cbn [scan_client]. wp_step. eapply wp_redisScan; [done..|by rewrite Hvis|rewrite Hvis; lia|].
  intros reply m' Hok' Hsub' Hsame' Hr. rewrite Hr. unfold matching in *. rewrite Hvis.
  fold (matching pattern m0 t) in *.
  pose proof (page_step (matching pattern m0 t) cursor count Hc Hcur) as Hstep.
  destruct (page_at (matching pattern m0 t) cursor count) as [next page]. cbn [fst snd] in *.
  assert (m' ⊆ m0) by by etrans. assert (same_views t m0 m') as Hs0.
  { intros key Hs. rewrite Hsame' by done. by apply Hsame. }
  rewrite (bool_decide_ext _ (next = 0)) by lia.
  case_bool_decide as Hn; [by rd_steps; subst page|]. destruct Hstep as [Hlt Happ].
  wp_step. eapply wp_mono; [apply (IH next); [done..|lia|lia]|].
  intros r m2 (-> & ?). rd_steps. cbn [fmap option_fmap option_map]. by rewrite Happ.
Qed.

(** ** Patterns *)

(** A byte that stands for itself in a pattern. *)
Definition plain (c : Byte.byte) : Prop := c ∉ [Star; Question; OpenBracket; Backslash].

Lemma match_chunk_failed fuel chunk s :
  Forall plain chunk → length chunk < fuel → match_chunk fuel true chunk s = Some None.
Proof.
  intros Hp. revert fuel. induction Hp as [|c chunk Hc Hp IH]; intros [|fuel] Hf; cbn [length] in Hf;
    [lia|done|lia|]. unfold plain in Hc. cbn [match_chunk orb].
  rewrite !bool_decide_eq_false_2 by set_solver. cbn. apply IH. lia.
Qed.

Lemma match_chunk_plain fuel chunk s :
  Forall plain chunk → length chunk < fuel →
  match_chunk fuel false chunk s =
  Some (if bool_decide (take (length chunk) s = chunk) then Some (drop (length chunk) s) else None).
Proof.
  intros Hp. revert fuel s. induction Hp as [|c chunk Hc Hp IH]; intros [|fuel] s Hf;
    cbn [length] in Hf; [lia| |lia|].
  { cbn. by rewrite drop_0. }
  unfold plain in Hc. cbn [match_chunk orb].
  rewrite (bool_decide_eq_false_2 (c = OpenBracket)), (bool_decide_eq_false_2 (c = Question)),
    (bool_decide_eq_false_2 (c = Backslash)) by set_solver.
  destruct s as [|d s]; cbn [length take drop head tail].
  { rewrite bool_decide_eq_true_2 by done. cbn. rewrite match_chunk_failed by (done || lia). done. }
  rewrite bool_decide_eq_false_2 by done. cbn [mbind option_bind].
  destruct (decide (d = c)) as [->|Hne].
  - rewrite bool_decide_eq_false_2 by auto. rewrite IH by lia.
    by rewrite (bool_decide_ext (c :: _ = c :: _) (take (length chunk) s = chunk))
      by (split; congruence).
  - rewrite bool_decide_eq_true_2 by congruence. rewrite match_chunk_failed by (done || lia).
    by rewrite bool_decide_eq_false_2 by congruence.
Qed.

Lemma scanChunk_plain chunk : Forall plain chunk → scanChunk chunk = (false, chunk, []).
Proof.
  intros Hp. unfold scanChunk.
  assert (skip_stars chunk = (false, chunk)) as ->.
  { destruct Hp as [|c chunk Hc Hp]; [done|]. unfold plain in Hc. cbn.
    by rewrite bool_decide_eq_false_2 by set_solver. }
  assert (∀ b, chunk_until_star b chunk = (chunk, [])) as H; [|by rewrite H].
  induction Hp as [|c chunk Hc Hp IH]; intros b; [done|]. unfold plain in Hc. cbn.
  rewrite (bool_decide_eq_false_2 (c = Backslash)), (bool_decide_eq_false_2 (c = Star)) by set_solver.
  cbn. by rewrite IH.
Qed.

(** ** Properties *)

(** C29: A client that starts [SCAN] at cursor 0 and follows the cursors until
    they return to 0 receives every visible key that matches the pattern
    exactly once, in order, within one page per key plus one; no key changes
    its view. The bounds keep the cursor below [maxInt64]. *)
Theorem scan_visits_every_key_once {GT : GoText} {MR : MapRange} t cmd options pattern (count fuel : nat) :
  parseScanOptions ⟦"*"⟧ 10 options = inr (pattern, Z.of_nat count) → 0 < count →
  triple (at_time t) (scannable t count fuel) (scan_client fuel cmd options 0)
    (λ m r m', ∃ keys, r = Ok (Some keys) ∧ Sorted bytes_le keys ∧ NoDup keys
       ∧ (∀ key, short key → key ∈ keys ↔ view m t key ≠ None ∧ redisPatternMatch pattern key = true)
       ∧ redis_ok m' ∧ same_views t m m').
Proof.
  intros Hopt Hc. apply triple_intro. intros m (Hm & Hks & Hfuel & Hb).
  pose proof (length_matching pattern m t) as Hl. eapply wp_mono.
  - eapply (wp_scan_client t cmd options pattern count fuel 0 m m); [done..|lia|lia].
  - intros r m' (-> & Hok & _ & Hsame). rewrite drop_0. eexists. split; [done|]. split_and!.
    + apply sorted_filter, sort_strings_sorted.
    + apply NoDup_filter. rewrite sort_strings_perm. apply NoDup_elements.
    + intros key Hs. unfold matching. rewrite list_elem_of_filter, sort_strings_perm, elem_of_elements.
      rewrite elem_of_visible by done. tauto.
    + done.
    + done.
Qed.

Lemma scan_visits_every_key_once_witness :
  parseScanOptions (GT := ascii_GoText) ⟦"*"⟧ 10 [⟦"count"⟧; ⟦"2"⟧; ⟦"MATCH"⟧; ⟦"user:?"⟧]
    = inr (⟦"user:?"⟧, Z.of_nat 2)
  ∧ scannable 5 2 1 ∅
  ∧ triple (at_time 5) (scannable 5 2 9)
      (scan_client (GT := ascii_GoText) (MR := elements_MapRange) 9 ⟦"SCAN"⟧
         [⟦"count"⟧; ⟦"2"⟧; ⟦"MATCH"⟧; ⟦"user:?"⟧] 0)
      (λ m r m', ∃ keys, r = Ok (Some keys) ∧ Sorted bytes_le keys ∧ NoDup keys
         ∧ (∀ key, short key → key ∈ keys ↔
              view m 5 key ≠ None ∧ redisPatternMatch ⟦"user:?"⟧ key = true)
         ∧ redis_ok m' ∧ same_views 5 m m').
Proof.
  split; [vm_compute; reflexivity|]. split.
  - split; [exact redis_ok_empty|]. split; [exact keys_short_empty|].
    split; [apply Nat.ltb_lt; vm_compute; reflexivity|vm_compute; discriminate].
  - apply (@scan_visits_every_key_once ascii_GoText elements_MapRange 5 ⟦"SCAN"⟧
      [⟦"count"⟧; ⟦"2"⟧; ⟦"MATCH"⟧; ⟦"user:?"⟧] ⟦"user:?"⟧ 2 9);
      [vm_compute; reflexivity|apply Nat.ltb_lt; reflexivity].
Defined.

(** [KEYS] replies the visible keys that match, in order and without
    repetition, and [DBSIZE] replies how many keys are visible. *)
Theorem keys_and_dbsize_exact {GT : GoText} {MR : MapRange} t cmd pattern :
  triple (at_time t) (λ m, redis_ok m ∧ keys_short m)
    (keys ← redisKeysCommand [cmd; pattern]; n ← redisDBSize [cmd]; mret (keys, n))
    (λ m r m', ∃ keys,
       r = Ok (respArrayValues (respBulkString <$> keys),
               respIntegerValue (Z.of_nat (size (visible m t))))
       ∧ Sorted bytes_le keys ∧ NoDup keys
       ∧ (∀ key, short key → key ∈ keys ↔ view m t key ≠ None ∧ redisPatternMatch pattern key = true)
       ∧ (∀ key, short key → key ∈ visible m t ↔ view m t key ≠ None)
       ∧ redis_ok m' ∧ same_views t m m').
Proof.
  apply triple_intro. intros m [Hm Hks]. wp_step. apply wp_catching. wp_step.
  apply wp_redisLogicalKeys; [done..|]. intros m1 Hok Hsub Hsame. rd_steps.
  destruct (visible_same m m1 t Hks Hsub Hsame) as [Hvis Hks1].
  apply wp_catching. wp_step. apply wp_redisLogicalKeys; [done..|].
  intros m2 Hok2 Hsub2 Hsame2. rd_steps. rewrite Hvis. fold (matching pattern m t).
  exists (matching pattern m t). split_and!.
  - by rewrite sort_strings_perm.
  - apply sorted_filter, sort_strings_sorted.
  - apply NoDup_filter. rewrite sort_strings_perm. apply NoDup_elements.
  - intros key Hs. unfold matching. rewrite list_elem_of_filter, sort_strings_perm, elem_of_elements.
    rewrite elem_of_visible by done. tauto.
  - intros key Hs. by apply elem_of_visible.
  - done.
  - intros key Hs. rewrite Hsame2 by done. by apply Hsame.
Qed.

(** [FLUSHDB] and [FLUSHALL] remove every record of the store, whatever it
    holds. *)
Theorem flush_empties_store t cmd (mode : list bytes) :
  length mode ≤ 1 →
  triple (at_time t) (λ _, True) (redisFlush (cmd :: mode))
    (λ m r m', r = Ok (respSimpleString ⟦"OK"⟧) ∧ m' = ∅).
Proof.
  intros Hmode. apply triple_intro. intros m _. unfold redisFlush.
  rewrite bool_decide_eq_false_2 by (cbn; lia). apply wp_catching. wp_step.
  apply wp_store_Collect_all. intros items Hitems. wp_step. apply wp_store_delete_loop. rd_steps.
  split; [done|]. apply map_empty. intros k. apply map_lookup_filter_None. right.
  intros v Hm Hk. apply Hk. apply list_elem_of_fmap. exists (k, v). split; [done|].
  by rewrite Hitems, elem_of_map_to_list.
Qed.

Lemma flush_empties_store_witness :
  length [⟦"ASYNC"⟧] ≤ 1
  ∧ triple (at_time 5) (λ _, True) (redisFlush [⟦"FLUSHALL"⟧; ⟦"ASYNC"⟧])
      (λ m r m', r = Ok (respSimpleString ⟦"OK"⟧) ∧ m' = ∅).
Proof.
  split; [apply Nat.leb_le; reflexivity|].
  apply (flush_empties_store 5 ⟦"FLUSHALL"⟧ [⟦"ASYNC"⟧]); apply Nat.leb_le; reflexivity.
Defined.

(** A page request whose cursor and count add up past [maxInt64] wraps to a
    negative end and panics, although both numbers are accepted. *)
Theorem scan_cursor_overflow_panics filtered cursor count :
  (0 ≤ cursor < Z.of_nat (length filtered))%Z → (0 ≤ count ≤ maxInt64)%Z →
  (maxInt64 < cursor + count)%Z → (Z.of_nat (length filtered) ≤ maxInt64)%Z →
  scan_page filtered cursor count = Panic.
Proof.
  intros Hcur Hc Hover Hlen. unfold scan_page. cbn zeta.
  rewrite bool_decide_eq_false_2 by lia.
  assert (wrap64 (cursor + count) = cursor + count - 2 ^ 64)%Z as ->.
  { rewrite <-(wrap64_id (cursor + count - 2 ^ 64)) by (unfold minInt64, maxInt64 in *; lia).
    unfold wrap64. f_equal. rewrite <-(Z_mod_plus_full _ (-1)). f_equal. lia. }
  unfold maxInt64 in *.
  rewrite (bool_decide_eq_false_2 (_ < _ - _)%Z) by lia. by rewrite bool_decide_eq_true_2 by lia.
Qed.

Lemma scan_cursor_overflow_panics_witness :
  scan_page [⟦"a"⟧; ⟦"b"⟧] 1 maxInt64 = Panic.
Proof. apply scan_cursor_overflow_panics; vm_compute; try split; (reflexivity || discriminate). Defined.

(** A pattern without special characters selects the one key it spells. *)
Theorem literal_pattern_exact pattern key :
  Forall plain pattern → redisPatternMatch pattern key = bool_decide (pattern = key).
Proof.
  intros Hp. unfold redisPatternMatch, path_Match. apply bool_decide_ext.
  destruct pattern as [|c pattern]; [by destruct key|].
  change (length (c :: pattern)) with (S (length pattern)). cbn [match_fuel].
  rewrite scanChunk_plain by done. cbn [andb]. unfold matchChunk.
  rewrite match_chunk_plain by (done || lia). cbn [mbind option_bind].
  case_bool_decide as Ht; [|split; [done|]; intros <-; by rewrite firstn_all in Ht].
  destruct (decide (drop (length (c :: pattern)) key = [])) as [He|Hne].
  - rewrite bool_decide_eq_true_2 by auto. rewrite He.
    assert (c :: pattern = key) as Hk.
    { rewrite <-(take_drop (length (c :: pattern)) key), Ht, He. by rewrite app_nil_r. }
    by destruct (length pattern).
  - rewrite bool_decide_eq_false_2 by tauto. split; [done|]. intros <-. by rewrite drop_all in Hne.
Qed.

Lemma literal_pattern_exact_witness :
  redisPatternMatch ⟦"user:1"⟧ ⟦"user:1"⟧ = bool_decide (⟦"user:1"⟧ = ⟦"user:1"⟧).
Proof.
  apply literal_pattern_exact. apply (bool_decide_unpack (Forall plain ⟦"user:1"⟧)).
  vm_compute. exact I.
Defined.

(** The pattern [*], the default of [SCAN] and the usual argument of [KEYS],
    selects only the keys without a slash. *)
Theorem star_pattern_hides_slashes key :
  redisPatternMatch ⟦"*"⟧ key = bool_decide (Slash ∉ key).
Proof.
  unfold redisPatternMatch, path_Match. cbn. by destruct (bool_decide (Slash ∉ key)).
Qed.
