(* ===== verification/RedisShrink.v ===== *)
(** * Redis commands that only remove records

    Reads of the Redis server prune what has expired; they write nothing.
    [shrinks p]: whatever the clock shows at each reading, the records after
    [p] are among those before. *)

From S2P Require Import Prelude Errors Engine Effects Envelope Keys ListCodec Text DriverName DB DBTheorems Collections Transport Resp RedisStorage RedisStrings RedisCollections PathMatch RedisServer RedisModel RedisTheorems.

Implicit Types (m : gmap bytes bytes) (key value : bytes).

(** A clock that may show anything at each reading. *)
Definition any : Z → Prop := λ _, True.

(** ** Programs that only remove records *)

Definition shrinks {A} (p : prog A) : Prop := ∀ m, wp any p (λ _ m', m' ⊆ m) m.

Lemma wp_shrinks {A} (p : prog A) m (Q : A → gmap bytes bytes → Prop) :
  shrinks p → (∀ a m', m' ⊆ m → Q a m') → wp any p Q m.
Proof. intros Hp HQ. eapply wp_mono; [apply Hp|]. auto. Qed.

Lemma shrinks_bind {A B} (p : M A) (f : A → M B) :
  shrinks p → (∀ a, shrinks (f a)) → shrinks (p ≫= f).
Proof.
  intros Hp Hf m. apply wp_bind, (wp_shrinks p); [done|]. intros [a| |] m' Hsub; [|done..].
  apply (wp_shrinks (f a)); [done|]. intros r m'' Hsub'. by etrans.
Qed.

Lemma shrinks_Ret {A} (a : A) : shrinks (Ret a).
Proof. intros m. cbn. reflexivity. Qed.

Lemma shrinks_mret {A} (a : A) : shrinks (mret a : M A).
Proof. intros m. cbn. reflexivity. Qed.

Lemma shrinks_lift {A} (r : result A) : shrinks (lift r).
Proof. intros m. cbn. reflexivity. Qed.

Lemma shrinks_throw {A} e : shrinks (throw (A := A) e).
Proof. intros m. cbn. reflexivity. Qed.

Lemma shrinks_panic {A} : shrinks (panic (A := A)).
Proof. intros m. cbn. reflexivity. Qed.

Lemma shrinks_attempt {A} (p : M A) : shrinks p → shrinks (attempt p).
Proof. intros Hp m. apply wp_attempt. by apply wp_shrinks. Qed.

Lemma shrinks_ignore {A} (p : M A) : shrinks p → shrinks (ignore p).
Proof. intros Hp. apply shrinks_bind; [by apply shrinks_attempt|]. intros. apply shrinks_mret. Qed.

Lemma shrinks_catching body : shrinks body → shrinks (catching body).
Proof. intros Hp m. apply wp_catching. by apply wp_shrinks. Qed.

Lemma shrinks_for_each {A S} (l : list A) (body : A → S → M S) s :
  (∀ x s, shrinks (body x s)) → shrinks (for_each l body s).
Proof.
  intros Hb. revert s. induction l as [|x l IH]; intros s; cbn; [apply shrinks_mret|].
  by apply shrinks_bind.
Qed.

Lemma shrinks_Get k : shrinks (store_Get k).
Proof. intros m. apply wp_store_Get. reflexivity. Qed.

Lemma shrinks_Delete k : shrinks (store_Delete k).
Proof. intros m. apply wp_store_Delete, delete_subseteq. Qed.

Lemma wp_Now m Q : (∀ t, Q (Ok t) m) → wp any store_Now Q m.
Proof. intros HQ t _. apply HQ. Qed.

Lemma shrinks_Now : shrinks store_Now.
Proof. intros m. apply wp_Now. reflexivity. Qed.

Lemma shrinks_ScanPrefix {S} pfx (callback : bytes * bytes → S → M S) s :
  (∀ kv s, shrinks (callback kv s)) → shrinks (store_ScanPrefix pfx callback s).
Proof. intros Hc m. apply wp_store_ScanPrefix. intros items _. by apply shrinks_for_each. Qed.

Lemma shrinks_engine key pfx :
  shrinks ensureOpen ∧ shrinks (engineGet key) ∧ shrinks (engineDelete key)
  ∧ shrinks (engineScanAll pfx).
Proof.
  split_and!; intros m; cbn; [reflexivity|reflexivity|apply delete_subseteq|].
  intros items _. reflexivity.
Qed.

Create HintDb shrink.
#[export] Hint Resolve shrinks_Ret shrinks_mret shrinks_lift shrinks_throw shrinks_panic
  shrinks_Get shrinks_Delete shrinks_Now : shrink.

(** Walk over a program that only removes. *)
Ltac shrink :=
  repeat first
    [ solve [eauto with shrink]
    | apply shrinks_for_each
    | apply shrinks_ScanPrefix
    | apply shrinks_ignore
    | apply shrinks_attempt
    | apply shrinks_catching
    | apply shrinks_bind
    | progress (intros; cbv zeta beta)
    | case_match ].

Lemma shrinks_DeleteRaw key : shrinks (redisDeleteRaw key).
Proof.
  pose proof (λ key pfx, proj1 (shrinks_engine key pfx)) as Ho.
  pose proof (λ key pfx, proj2 (shrinks_engine key pfx)) as He.
  apply shrinks_bind; [by apply (Ho [] [])|]. intros _. unfold deleteLogicalKey, delete_keys.
  shrink; first [ apply (He _ []) | apply (He [] _) ].
Qed.

Lemma wp_recordExpired_any e m Q : (∀ b, Q (Ok b) m) → wp any (recordExpired e) Q m.
Proof.
  intros HQ. unfold recordExpired. case_bool_decide; [|apply HQ].
  apply wp_bind, wp_Now. intros t. apply HQ.
Qed.

Lemma shrinks_recordExpired e : shrinks (recordExpired e).
Proof. unfold recordExpired. shrink. Qed.
#[export] Hint Resolve shrinks_DeleteRaw shrinks_recordExpired : shrink.

Lemma shrinks_redisType key : shrinks (redisType key).
Proof.
  unfold redisType, redisKeyExpired, redisMetadataExpiry, probe_string, probe_collections,
    probe_hash, probe_set, probe_list, decodeRecord.
  shrink.
Qed.
#[export] Hint Resolve shrinks_redisType : shrink.

Lemma shrinks_readers key field :
  shrinks (redisString key) ∧ shrinks (redisExpiry key) ∧ shrinks (redisHashField key field)
  ∧ shrinks (redisHashEntries key) ∧ shrinks (redisSetMembers key) ∧ shrinks (redisList key).
Proof.
  unfold redisString, redisExpiry, redisMetadataExpiry, redisHashField, redisHashEntries,
    redisSetMembers, redisList, store_Collect, decodeRecord.
  split_and!; shrink.
Qed.

Lemma shrinks_redisString key : shrinks (redisString key).
Proof. apply (shrinks_readers key []). Qed.
Lemma shrinks_redisExpiry key : shrinks (redisExpiry key).
Proof. apply (shrinks_readers key []). Qed.
Lemma shrinks_redisHashField key field : shrinks (redisHashField key field).
Proof. apply (shrinks_readers key field). Qed.
Lemma shrinks_redisHashEntries key : shrinks (redisHashEntries key).
Proof. apply (shrinks_readers key []). Qed.
Lemma shrinks_redisSetMembers key : shrinks (redisSetMembers key).
Proof. apply (shrinks_readers key []). Qed.
#[export] Hint Resolve shrinks_redisString shrinks_redisExpiry shrinks_redisHashField
  shrinks_redisHashEntries shrinks_redisSetMembers : shrink.

(** The commands that read or remove. *)
Lemma shrinks_commands args :
  shrinks (redisGet args) ∧ shrinks (redisGetDel args) ∧ shrinks (redisMGet args)
  ∧ shrinks (redisStrLen args) ∧ shrinks (redisDelete args) ∧ shrinks (redisExists args)
  ∧ shrinks (redisTypeCommand args) ∧ shrinks (redisHGet args) ∧ shrinks (redisHMGet args)
  ∧ shrinks (redisHGetAll args) ∧ shrinks (redisHDel args) ∧ shrinks (redisHExists args)
  ∧ shrinks (redisHLen args) ∧ shrinks (redisHKeys args) ∧ shrinks (redisHVals args)
  ∧ shrinks (redisSRem args) ∧ shrinks (redisSIsMember args) ∧ shrinks (redisSMembers args)
  ∧ shrinks (redisSCard args) ∧ shrinks (redisFlush args).
Proof.
  unfold redisGet, redisGetDel, redisMGet, redisStrLen, redisDelete, redisExists,
    redisTypeCommand, redisHGet, redisHMGet, redisHGetAll, redisHDel, redisHExists, redisHLen,
    redisHKeys, redisHVals, redisSRem, redisSIsMember, redisSMembers, redisSCard, redisFlush,
    store_Collect, decodeRecord.
  split_and!; shrink.
Qed.

Lemma shrinks_members_loop name key members items : shrinks (members_loop name key members items).
Proof.
  revert items. induction members as [|member members IH]; intros items; cbn [members_loop];
    [shrink|].
  apply shrinks_bind; [apply shrinks_commands|]. intros reply. case_bool_decide; shrink.
Qed.

Lemma shrinks_redisSMIsMember args : shrinks (redisSMIsMember args).
Proof. unfold redisSMIsMember. repeat case_match; auto using shrinks_members_loop with shrink. Qed.

Lemma shrinks_redisTTLCommand args command : shrinks (redisTTLCommand args command).
Proof. unfold redisTTLCommand. shrink. Qed.

Lemma shrinks_keyspace `{GT : GoText} {MR : MapRange} args :
  shrinks (redisScan args) ∧ shrinks (redisKeysCommand args) ∧ shrinks (redisDBSize args).
Proof.
  unfold redisScan, redisKeysCommand, redisDBSize, redisLogicalKeys, store_Collect.
  split_and!; shrink.
Qed.
