(* ===== verification/RedisTyped.v ===== *)
(** * Type tests and writes of the Redis server, under any clock

    [sound]: every logical key has one representation, its records decode,
    and no list is so long that its 32-bit count would wrap. What a type test
    establishes of a key holds however the clock moves, which is what the
    string and expiry commands need to keep the map [sound]. *)

From S2P Require Import Prelude Errors Engine Effects MemDriver Envelope Keys ListCodec Text DriverName DB DBTheorems Collections Transport Resp RedisStorage RedisStrings RedisCollections PathMatch RedisServer RedisModel RedisTheorems RedisCollProps RedisListProps RedisShrink.

Implicit Types (m : gmap bytes bytes) (key value : bytes).

(** Room for [n] more items in every list. *)
Definition lists_fit (n : nat) m : Prop :=
  ∀ key d items, short key → m !! listKey key = Some d → decodeList d = Ok items →
    (Z.of_nat (length items + n) < 2 ^ 32)%Z.

Definition sound (n : nat) m : Prop := redis_ok m ∧ lists_fit n m.

Lemma sound_subseteq n m m' : m' ⊆ m → sound n m → sound n m'.
Proof.
  intros Hsub [Hok Hfit]. split; [by eapply redis_ok_subseteq|].
  intros key d items Hs Hd. apply (Hfit key d items Hs). by eapply lookup_weaken.
Qed.

Lemma sound_le n n' m : n' ≤ n → sound n m → sound n' m.
Proof.
  intros Hle [Hok Hfit]. split; [done|]. intros key d items Hs Hd Hdec.
  specialize (Hfit key d items Hs Hd Hdec). lia.
Qed.

(** ** What a type test establishes *)

(** The records of [key] agree with the type [redisType] has returned. *)
Definition fits (typ : redisTyp) m key : Prop :=
  match typ with
  | redisTypeNone => blank m key
  | _ => only typ m key
         ∧ ∃ s, logical_key s = key ∧ kind_of s = Some typ ∧ is_Some (m !! storage_key s)
  end.

Lemma fits_only typ m key : typ ≠ redisTypeNone → fits typ m key → only typ m key.
Proof. destruct typ; [done|by intros _ [? _]..]. Qed.

Lemma fits_none_or typ typ' m key :
  typ = redisTypeNone ∨ typ = typ' → fits typ m key → only typ' m key.
Proof.
  intros [-> | ->] Hf; [by apply blank_only|]. destruct typ'; [by apply blank_only|by destruct Hf..].
Qed.

(** A key with a record of kind [typ] has no record of another kind. *)
Lemma key_ok_fits typ m key s :
  key_ok m key → typ ≠ redisTypeNone → logical_key s = key → kind_of s = Some typ →
  is_Some (m !! storage_key s) → fits typ m key.
Proof.
  intros ([typ' Hr] & _ & _) Hne Hk Hkind Hs.
  assert (typ' = typ) as ->; [|destruct typ; [done|by split; [apply rep_only|exists s]..]].
  destruct (Hr s Hk Hs) as [H|H]; congruence.
Qed.

Lemma blank_subseteq m m' key : m' ⊆ m → blank m key → blank m' key.
Proof.
  intros Hsub Hb s Hk Hkind. eapply lookup_weaken_None; [|exact Hsub]. by apply Hb.
Qed.

(** The scan of [probe_hash]: it keeps the keys of the expired fields apart,
    and says whether there is another. *)
Lemma wp_probe_hash_any key m (Q : result (list bytes * bool) → gmap bytes bytes → Prop) :
  (∀ dead found, (∀ k, k ∈ dead → ∃ f, k = namespacedKey kindHash key f) →
     (found = true → ∃ f, is_Some (m !! namespacedKey kindHash key f)
                         ∧ namespacedKey kindHash key f ∉ dead) →
     (found = false → ∀ f, is_Some (m !! namespacedKey kindHash key f) →
                         namespacedKey kindHash key f ∈ dead) →
     Q (Ok (dead, found)) m) →
  (∀ e, Q (Err e) m) → (Q Panic m) →
  wp any (probe_hash key) Q m.
Proof.
  intros HQ HE HP. apply wp_store_ScanPrefix. store_names. intros items Hperm.
  assert (∀ k d, (k, d) ∈ items ↔ m !! k = Some d ∧ ∃ f, k = namespacedKey kindHash key f) as Hin.
  { intros k d. rewrite Hperm, elem_of_matches, has_prefix_namespace. done. }
  assert (NoDup items.*1) as Hnd by (rewrite Hperm; apply matches_NoDup).
  set (body := λ (kv : bytes * bytes) '(hashKeys, hashFound), _).
  assert (∀ rest don dead found,
    items = don ++ rest →
    (∀ k, k ∈ dead → k ∈ don.*1) →
    (found = true → ∃ k, k ∈ don.*1 ∧ k ∉ dead) →
    (found = false → ∀ k, k ∈ don.*1 → k ∈ dead) →
    wp any (for_each rest body (dead, found)) Q m) as H.
  { induction rest as [|[k d] rest IH]; intros don dead found Hsplit Hdead Ht Hf; cbn [for_each].
    - rewrite app_nil_r in Hsplit. subst don.
      assert (∀ k, k ∈ items.*1 ↔ ∃ f, k = namespacedKey kindHash key f ∧ is_Some (m !! k)) as Hk.
      { intros k. rewrite list_elem_of_fmap. split.
        - intros ([k' d'] & -> & [Hd [f ->]]%Hin). cbn. eauto.
        - intros (f & -> & d' & Hd). exists (namespacedKey kindHash key f, d'). rewrite Hin. eauto. }
      apply HQ.
      + intros k Hkd%Hdead. apply Hk in Hkd as (f & -> & _). eauto.
      + intros Hfound. destruct (Ht Hfound) as (k & Hk' & Hnot).
        apply Hk in Hk' as (f & -> & Hs). eauto.
      + intros Hfound f Hs. apply (Hf Hfound), Hk. eauto.
    - apply wp_bind. unfold body at 1. cbn [snd fst]. unfold decodeRecord. rd_steps.
      destruct (store_DecodeRecord d) as [value| |]; cbn [wp]; [|apply HE|apply HP].
      apply wp_bind, wp_recordExpired_any. intros gone. cbn iota beta.
      assert (k ∉ don.*1) as Hnew.
      { rewrite Hsplit, fmap_app, fmap_cons in Hnd. apply NoDup_app in Hnd as (_ & Hnd & _).
        intros Hk. apply (Hnd k Hk). by left. }
      assert (∀ k', k' ∈ (don ++ [(k, d)]).*1 ↔ k' ∈ don.*1 ∨ k' = k) as Hdon.
      { intros k'. rewrite fmap_app. cbn. set_solver. }
      destruct gone; rd_steps; apply (IH (don ++ [(k, d)])); try by rewrite <-app_assoc.
      + intros k'. rewrite Hdon, elem_of_app, list_elem_of_singleton. naive_solver.
      + intros Hfound. destruct (Ht Hfound) as (k' & Hk' & Hnot). exists k'. rewrite Hdon.
        split; [by left|]. rewrite elem_of_app, list_elem_of_singleton. naive_solver.
      + intros Hfound k'. rewrite Hdon, elem_of_app, list_elem_of_singleton. naive_solver.
      + intros k'. rewrite Hdon. auto.
      + intros _. exists k. rewrite Hdon. naive_solver.
      + done. }
  apply (H items []); [done|..]; set_solver.
Qed.

Lemma wp_DeleteRaw_any key m Q :
  short key → (∀ b, Q (Ok b) (without key m)) → wp any (redisDeleteRaw key) Q m.
Proof. intros Hs HQ. apply wp_redisDeleteRaw; auto. Qed.

Lemma wp_redisKeyExpired_any key m (Q : result bool → gmap bytes bytes → Prop) :
  short key → (∀ r m', m' ⊆ m → (r = Ok true → blank m' key) → Q r m') →
  wp any (redisKeyExpired key) Q m.
Proof.
  intros Hs HQ. unfold redisKeyExpired, redisMetadataExpiry. rd_steps.
  destruct (m !! _) as [d|]; [|rd_steps; by apply HQ].
  case_bool_decide; rd_steps; [by apply HQ|]. apply wp_Now. intros t.
  case_bool_decide; rd_steps; [by apply HQ|]. apply wp_DeleteRaw_any; [done|]. intros b. rd_steps.
  apply HQ; [apply without_subseteq|]. intros _. by apply blank_without.
Qed.

Lemma wp_probe_string_any key m (Q : result bool → gmap bytes bytes → Prop) :
  (∀ r m', m' ⊆ m → (r = Ok true → is_Some (m' !! valueKey key)) →
     (r = Ok false → m' !! valueKey key = None) → Q r m') →
  wp any (probe_string key) Q m.
Proof.
  intros HQ. unfold probe_string, decodeRecord. rd_steps. store_names.
  destruct (m !! valueKey key) as [d|] eqn:Hd; [|rd_steps; by apply HQ].
  rd_steps. destruct (store_DecodeRecord d); cbn [wp lift]; [|by apply HQ..].
  apply wp_bind, wp_recordExpired_any. intros [|]; rd_steps; apply HQ; try done.
  - apply delete_subseteq.
  - intros _. apply lookup_delete_eq.
Qed.

(** Nothing but the list record and the set members can be left of a key
    without a scalar and without hash fields. *)
Lemma blank_from m key :
  m !! valueKey key = None → (∀ f, m !! namespacedKey kindHash key f = None) →
  (∀ x, m !! namespacedKey kindSet key x = None) → m !! listKey key = None → blank m key.
Proof.
  intros Hv Hh Hx Hl s Hk [k Hkind]. destruct s; cbn in Hk; subst;
  [done|apply Hh|apply Hx|done|done].
Qed.

Lemma wp_probe_set_list_any key m (Q : result redisTyp → gmap bytes bytes → Prop) :
  short key → key_ok m key → m !! valueKey key = None →
  (∀ f, m !! namespacedKey kindHash key f = None) →
  (∀ r m', m' ⊆ m → (∀ typ, r = Ok typ → fits typ m' key) → Q r m') →
  wp any (probe_set key)
    (λ r m', match r with
             | Ok setFound =>
                 wp any (if setFound : bool then (mret redisTypeSet : M redisTyp) else probe_list key) Q m'
             | Err e => Q (Err e) m'
             | Panic => Q Panic m'
             end) m.
Proof.
  intros Hs Hok Hv Hh HQ. apply wp_store_ScanPrefix. store_names. intros items Hperm.
  assert (∀ x, is_Some (m !! namespacedKey kindSet key x) ↔ ∃ d, (namespacedKey kindSet key x, d) ∈ items) as Hin.
  { intros x. split; intros [d Hd]; exists d.
    - rewrite Hperm. apply elem_of_matches. split; [done|]. apply has_prefix_namespace. eauto.
    - rewrite Hperm in Hd. by apply elem_of_matches in Hd as [? _]. }
  assert (∀ l : list (bytes * bytes), wp any (for_each l (λ _ _, mret true) true)
            (λ r m', r = Ok true ∧ m' = m) m) as Htrue.
  { induction l as [|x l IH]; cbn [for_each]; rd_steps; done. }
  destruct items as [|[k d] items]; cbn [for_each]; rd_steps.
  - assert (∀ x, m !! namespacedKey kindSet key x = None) as Hx.
    { intros x. apply eq_None_not_Some. rewrite Hin. intros [d Hd]. set_solver. }
    unfold probe_list. rd_steps. store_names.
    destruct (m !! listKey key) as [d|] eqn:Hd.
    + rd_steps. destruct (decodeList d) as [l| |]; cbn [wp lift]; [|by apply HQ..].
      case_bool_decide; rd_steps.
      * apply HQ; [done|]. intros typ [= <-].
        by apply (key_ok_fits _ m key (SList key)); cbn; [..|rewrite Hd].
      * apply wp_DeleteRaw_any; [done|]. intros b. rd_steps.
        apply HQ; [apply without_subseteq|]. intros typ [= <-]. by apply blank_without.
    + rd_steps. apply HQ; [done|]. intros typ [= <-]. by apply blank_from.
  - eapply wp_mono; [apply Htrue|]. intros r m' [-> ->]. rd_steps.
    apply HQ; [done|]. intros typ [= <-].
    assert ((k, d) ∈ matches m (namespacePrefix kindSet key)) as [Hd Hpf]%elem_of_matches
      by (rewrite <-Hperm; by left).
    apply has_prefix_namespace in Hpf as [x ->].
    apply (key_ok_fits _ m key (SSet key x)); [done..|]. by exists d.
Qed.

Lemma wp_probe_collections_any key m (Q : result redisTyp → gmap bytes bytes → Prop) :
  short key → key_ok m key → m !! valueKey key = None →
  (∀ r m', m' ⊆ m → (∀ typ, r = Ok typ → fits typ m' key) → Q r m') →
  wp any (probe_collections key) Q m.
Proof.
  intros Hs Hok Hv HQ. unfold probe_collections. wp_step.
  apply wp_probe_hash_any; [|intros; by apply HQ|by apply HQ].
  intros dead found Hdead Ht Hf. cbn beta iota. wp_step. apply wp_store_delete_loop.
  set (m1 := filter _ m).
  assert (m1 ⊆ m) as Hsub by apply map_filter_subseteq.
  assert (key_ok m1 key) as Hok1 by by eapply key_ok_subseteq.
  assert (m1 !! valueKey key = None) as Hv1 by by eapply lookup_weaken_None.
  destruct found; rd_steps.
  - destruct (Ht eq_refl) as (f & [d Hd] & Hnot). apply HQ; [done|]. intros typ [= <-].
    apply (key_ok_fits _ m1 key (SHash key f)); [done..|]. exists d. cbn.
    by apply map_lookup_filter_Some.
  - assert (∀ f, m1 !! namespacedKey kindHash key f = None) as Hh.
    { intros f. apply map_lookup_filter_None. destruct (m !! namespacedKey kindHash key f) as [d|] eqn:Hd;
        [right|by left]. intros d' Hd' Hnot. apply Hnot. by apply (Hf eq_refl). }
    case_bool_decide; rd_steps.
    + apply wp_DeleteRaw_any; [done|]. intros b. rd_steps. pose proof (without_subseteq key m1) as Hsub2.
      apply wp_probe_set_list_any; [done|by eapply key_ok_subseteq|by eapply lookup_weaken_None|..].
      * intros f. by eapply lookup_weaken_None.
      * intros r m' Hsub'. apply HQ. do 2 (etrans; [eassumption|]). done.
    + apply wp_probe_set_list_any; [done..|]. intros r m' Hsub'. apply HQ. by etrans.
Qed.

Lemma wp_redisType_any key m Q :
  short key → key_ok m key →
  (∀ r m', m' ⊆ m → (∀ typ, r = Ok typ → fits typ m' key) → Q r m') →
  wp any (redisType key) Q m.
Proof.
  intros Hs Hok HQ. unfold redisType. wp_step. apply wp_redisKeyExpired_any; [done|].
  intros [expired| |] m1 Hsub Hb; [|by apply HQ..].
  destruct expired; rd_steps; [apply HQ; [done|]; intros typ [= <-]; by apply Hb|].
  apply wp_probe_string_any. intros [found| |] m2 Hsub2 Ht Hf; [|by apply HQ; [etrans|]..].
  assert (m2 ⊆ m) as Hsub' by by etrans.
  assert (key_ok m2 key) as Hok2 by by eapply key_ok_subseteq.
  destruct found; rd_steps.
  - apply HQ; [done|]. intros typ [= <-].
    apply (key_ok_fits _ m2 key (SValue key)); [done..|]. by apply Ht.
  - apply wp_probe_collections_any; [done..|by apply Hf|]. intros r m' Hsub3. apply HQ. by etrans.
Qed.

(** ** Writes *)

Lemma sound_insert n key s d m :
  sound n m → short key → logical_key s = key → (∀ name, s ≠ SList name) →
  key_ok (<[storage_key s := d]> m) key → sound n (<[storage_key s := d]> m).
Proof.
  intros [Hok Hfit] Hs Hk Hne Hkey. split.
  - eapply redis_ok_step; [done..|by apply insert_elsewhere|done].
  - intros key' d' items Hs' Hd'. rewrite lookup_insert_ne in Hd'; [by apply Hfit with key'|].
    intros Heq. apply (Hne key'). apply (storage_key_inj s (SList key')); [by rewrite Hk|done..].
Qed.

Lemma wp_putPayload_any k codec payload ttl m Q :
  (Z.of_nat (length codec) ≤ 65535)%Z →
  (∀ d v, unmarshalEnvelope d = Ok v → Q (Ok tt) (<[k := d]> m)) →
  wp any (putPayload k codec payload ttl) Q m.
Proof.
  intros Hc HQ. unfold putPayload. wp_step.
  assert (∀ e, (minInt64 ≤ e ≤ maxInt64)%Z →
    wp any (encoded ← lift (store_EncodeRecord codec payload e); store_Put k encoded) Q m) as H.
  { intros e He. rd_steps. change (store_EncodeRecord codec payload) with (marshalEnvelope codec payload).
    rewrite marshalEnvelope_ok by done. rd_steps. eapply HQ.
    eapply unmarshal_marshal; [exact He|by apply marshalEnvelope_ok]. }
  case_bool_decide.
  - wp_step. apply wp_Now. intros t. wp_step. apply H, wrap64_range.
  - wp_step. apply H. unfold minInt64, maxInt64. lia.
Qed.

Lemma wp_WriteString_any n key payload codec expiresAt m Q :
  sound n m → short key → (Z.of_nat (length codec) ≤ 65535)%Z →
  only redisTypeString m key → ((0 < expiresAt)%Z → m !! collectionTTLKey key = None) →
  (∀ r m', sound n m' → only redisTypeString m' key → same_elsewhere key m m' → Q r m') →
  wp any (redisWriteStringWithCodec key payload codec expiresAt) Q m.
Proof.
  intros Hm Hs Hc Ho Httl HQ.
  assert (∀ m1 d v, m1 ⊆ m → same_elsewhere key m m1 → m1 !! collectionTTLKey key = None →
    unmarshalEnvelope d = Ok v → Q (Ok tt) (<[valueKey key := d]> m1)) as Hput.
  { intros m1 d v Hsub Hels Ht Hd.
    assert (only redisTypeString m1 key) as Ho1 by by eapply only_subseteq.
    assert (scalar_only m1 key) as Hsc.
    { intros s Hk Hkind Hne. apply Ho1; [done..|]. destruct s; cbn in *; congruence. }
    change (valueKey key) with (storage_key (SValue key)). apply HQ.
    - eapply sound_insert; [by eapply sound_subseteq|done..|]. by eapply key_ok_scalar.
    - intros s Hk Hkind Hne. rewrite other_record with (key := key); [by apply Ho1|done..| |done].
      intros ->. by apply Hne.
    - eapply same_elsewhere_trans; [done|]. by apply insert_elsewhere. }
  unfold redisWriteStringWithCodec. store_names. case_bool_decide as He.
  - wp_step. apply wp_putPayload_any; [done|]. intros d v Hd. rd_steps.
    assert (valueKey key ≠ collectionTTLKey key) as Hne.
    { intros H. by apply (storage_key_inj (SValue key) (STTL key)) in H. }
    rewrite delete_insert_ne by done.
    apply (Hput _ d v); [apply delete_subseteq|by apply (delete_elsewhere key (STTL key))| |done].
    apply lookup_delete_eq.
  - wp_step. apply wp_Now. intros t. cbv zeta. case_bool_decide; rd_steps.
    + apply wp_DeleteRaw_any; [done|]. intros b. rd_steps. apply HQ.
      * eapply sound_subseteq; [apply without_subseteq|done].
      * eapply only_subseteq; [apply without_subseteq|done].
      * apply without_elsewhere.
    + apply wp_putPayload_any; [done|]. intros d v Hd. apply (Hput m d v); [done| |apply Httl; lia|done].
      by intros sk _.
Qed.

Lemma bytesCodec_short : (Z.of_nat (length bytesCodec) ≤ 65535)%Z.
Proof. by vm_compute. Qed.

(** After the key has been deleted anything may be written. *)
Lemma wp_WriteString_without n key payload expiresAt m Q :
  sound n m → short key → (∀ r m', sound n m' → Q r m') →
  wp any (redisWriteString key payload expiresAt) Q (without key m).
Proof.
  intros Hm Hs HQ. apply (wp_WriteString_any n); try done.
  - eapply sound_subseteq; [apply without_subseteq|done].
  - by apply blank_only, blank_without.
  - intros _. rewrite lookup_without. by rewrite (owns_shape key (STTL key) Hs eq_refl : owns key (collectionTTLKey key) = true).
  - auto.
Qed.

Lemma sound_key n m key : sound n m → short key → key_ok m key.
Proof. intros [Hok _] Hs. by apply Hok. Qed.

Lemma wp_redisString_any n key m Q :
  sound n m → short key →
  (∀ r m', m' ⊆ m → (∀ o, r = Ok o → only redisTypeString m' key) → Q r m') →
  wp any (redisString key) Q m.
Proof.
  intros Hm Hs HQ. unfold redisString. wp_step.
  apply wp_redisType_any; [done|by eapply sound_key|].
  intros [typ| |] m1 Hsub Hf; [|by apply HQ..]. specialize (Hf typ eq_refl).
  destruct typ; [rd_steps; apply HQ; [done|]; intros; by apply blank_only| |rd_steps; by apply HQ..].
  apply (wp_shrinks (A := result (option bytes))).
  - unfold decodeRecord. shrink.
  - intros r m' Hsub'. apply HQ; [by etrans|]. intros o _.
    eapply only_subseteq; [done|]. by apply (fits_only redisTypeString).
Qed.

(** An expiry read from a key that is no collection is the scalar's own: the
    key has no expiry record. *)
Lemma wp_redisExpiry_any n key m Q :
  sound n m → short key → only redisTypeString m key →
  (∀ r m', m' ⊆ m → (∀ e, r = Ok (Some e) → m' !! collectionTTLKey key = None) → Q r m') →
  wp any (redisExpiry key) Q m.
Proof.
  intros Hm Hs Ho HQ. unfold redisExpiry. wp_step.
  apply wp_redisType_any; [done|by eapply sound_key|].
  intros [typ| |] m1 Hsub Hf; [|by apply HQ..]. specialize (Hf typ eq_refl).
  assert (typ ≠ redisTypeNone → typ ≠ redisTypeString → False) as Hother.
  { intros Hn Hst. assert (∃ s, logical_key s = key ∧ kind_of s = Some typ ∧ is_Some (m1 !! storage_key s))
      as (s & Hk & Hkind & [d Hd]) by (destruct typ; [done|by destruct Hf..]).
    assert (m !! storage_key s = None) as Hnone by (apply Ho; [done|by rewrite Hkind|congruence]).
    pose proof (lookup_weaken _ _ _ _ Hd Hsub). congruence. }
  destruct typ; [rd_steps; by apply HQ| |by destruct Hother..].
  rd_steps. destruct Hf as [_ (s & Hk & Hkind & Hd)].
  assert (m1 !! collectionTTLKey key = None) as Ht.
  { apply (key_ok_subseteq m m1 key Hsub (sound_key n m key Hm Hs)).
    destruct s; cbn in Hk, Hkind; simplify_eq. done. }
  apply (wp_shrinks (A := result (option Z))).
  - unfold decodeRecord. shrink.
  - intros r m' Hsub'. apply HQ; [by etrans|]. intros e _. by eapply lookup_weaken_None.
Qed.

(** ** Commands on strings *)

Definition keeps {A} (n : nat) (p : prog A) : Prop :=
  ∀ m, sound n m → wp any p (λ _ m', sound n m') m.

Lemma keeps_shrinks {A} n (p : prog A) : shrinks p → keeps n p.
Proof. intros Hp m Hm. apply wp_shrinks; [done|]. intros a m' Hsub. by eapply sound_subseteq. Qed.

Lemma keeps_mret {A} n (a : A) : keeps n (mret a : M A).
Proof. apply keeps_shrinks, shrinks_mret. Qed.

Lemma keeps_bind {A B} n (p : M A) (f : A → M B) :
  keeps n p → (∀ a, keeps n (f a)) → keeps n (p ≫= f).
Proof.
  intros Hp Hf m Hm. apply wp_bind. eapply wp_mono; [by apply Hp|].
  intros [a| |] m' Hm'; [by apply Hf|done..].
Qed.

Lemma keeps_catching n body : keeps n body → keeps n (catching body).
Proof. intros Hp m Hm. apply wp_catching. eapply wp_mono; [by apply Hp|]. by intros [] ?. Qed.

Lemma keeps_for_each {A S} n (l : list A) (body : A → S → M S) s :
  (∀ x s, x ∈ l → keeps n (body x s)) → keeps n (for_each l body s).
Proof.
  revert s. induction l as [|x l IH]; intros s Hb; cbn.
  - apply keeps_shrinks. shrink.
  - apply keeps_bind; [apply Hb; by left|]. intros s'. apply IH. intros. apply Hb. by right.
Qed.

(** Deleting a key and writing it anew. *)
Lemma keeps_rewrite {A} n key value expiresAt (k : M A) :
  short key → keeps n k →
  keeps n (_ ← redisDeleteRaw key; _ ← redisWriteString key value expiresAt; k).
Proof.
  intros Hs Hk m Hm. wp_step. apply wp_DeleteRaw_any; [done|]. intros b. cbv beta iota. wp_step.
  eapply wp_WriteString_without; [done..|]. intros [u| |] m' Hm'; [by apply Hk|done..].
Qed.

Lemma keeps_redisDeleteAndWriteString n key value expiresAt :
  short key → keeps n (redisDeleteAndWriteString key value expiresAt).
Proof.
  intros Hs m Hm. unfold redisDeleteAndWriteString. wp_step. apply wp_DeleteRaw_any; [done|].
  intros b. cbv beta iota. by apply (wp_WriteString_without n).
Qed.

Lemma shrinks_setOptionExpiry name amount : shrinks (setOptionExpiry name amount).
Proof. unfold setOptionExpiry. shrink. Qed.

Lemma shrinks_parseSetOptions `{GT : GoText} args options : shrinks (parseSetOptions options args).
Proof.
  revert options. induction args as [args IH] using (induction_ltof1 _ (@length bytes)).
  unfold ltof in IH. intros [expiresAt hasExpiry nx xx get keepTTL].
  destruct args as [|arg rest]; cbn [parseSetOptions]; [shrink|].
  repeat first [ case_bool_decide | case_match ]; subst; try (shrink; fail);
    try (apply IH; cbn; lia).
  apply shrinks_bind; [shrink|]. intros amount.
  apply shrinks_bind; [apply shrinks_setOptionExpiry|]. intros e. apply IH. cbn. lia.
Qed.

Lemma keeps_redisSet `{GT : GoText} n args : Forall short args → keeps n (redisSet args).
Proof.
  intros Hs. unfold redisSet. destruct args as [|cmd [|key [|value rest]]];
    try apply keeps_mret.
  assert (short key) as Hkey by (rewrite !Forall_cons in Hs; tauto).
  apply keeps_catching, keeps_bind; [apply keeps_shrinks, shrinks_parseSetOptions|]. intros options.
  apply keeps_bind; [apply keeps_shrinks; shrink|]. intros typ. cbv zeta.
  case_match; [apply keeps_shrinks; shrink|]. case_match; [apply keeps_shrinks; shrink|].
  apply keeps_bind; [apply keeps_shrinks; shrink|]. intros old.
  apply keeps_bind; [apply keeps_shrinks; shrink|]. intros expiresAt.
  apply keeps_bind; [by apply keeps_redisDeleteAndWriteString|]. intros _.
  apply keeps_shrinks; shrink.
Qed.

Lemma keeps_redisSetEX n args milliseconds : Forall short args → keeps n (redisSetEX args milliseconds).
Proof.
  intros Hs. unfold redisSetEX. destruct args as [|cmd [|key [|arg [|value [|]]]]];
    try apply keeps_mret.
  assert (short key) as Hkey by (rewrite !Forall_cons in Hs; tauto).
  apply keeps_catching. case_match; [|apply keeps_shrinks; shrink..]. cbv zeta.
  case_bool_decide; [apply keeps_shrinks; shrink|].
  apply keeps_bind; [apply keeps_shrinks; shrink|]. intros t. cbv zeta.
  case_bool_decide; [apply keeps_shrinks; shrink|].
  apply keeps_rewrite; [done|]. apply keeps_shrinks; shrink.
Qed.

Lemma keeps_redisGetSet n args : Forall short args → keeps n (redisGetSet args).
Proof.
  intros Hs. unfold redisGetSet. destruct args as [|cmd [|key [|value [|]]]];
    try apply keeps_mret.
  assert (short key) as Hkey by (rewrite !Forall_cons in Hs; tauto).
  apply keeps_catching, keeps_bind; [apply keeps_shrinks; shrink|]. intros old.
  apply keeps_rewrite; [done|]. apply keeps_shrinks; shrink.
Qed.

Lemma keeps_redisSetNX n args : Forall short args → keeps n (redisSetNX args).
Proof.
  intros Hs. unfold redisSetNX. destruct args as [|cmd [|key [|value [|]]]];
    try apply keeps_mret.
  assert (short key) as Hkey by (rewrite !Forall_cons in Hs; tauto).
  apply keeps_catching. intros m Hm. wp_step.
  apply wp_redisType_any; [done|by eapply sound_key|]. intros [typ| |] m1 Hsub Hf; cbv beta iota;
    [|by eapply sound_subseteq..].
  assert (sound n m1) as Hm1 by by eapply sound_subseteq.
  case_bool_decide as Ht; rd_steps; [done|].
  apply (wp_WriteString_any n); [done..| | |].
  - apply blank_only. specialize (Hf typ eq_refl). by destruct (decide (typ = redisTypeNone)) as [->|].
  - lia.
  - intros [] m' Hm' _ _; by rd_steps.
Qed.

(** A rewrite of the string a key holds, with its own deadline. *)
Lemma wp_string_update {A} n key value' (k : M A) m :
  sound n m → short key → only redisTypeString m key → keeps n k →
  wp any (expiry ← redisExpiry key;
          _ ← redisWriteString key value' (default 0%Z expiry); k) (λ _ m', sound n m') m.
Proof.
  intros Hm Hs Ho Hk. wp_step. eapply wp_redisExpiry_any; [done..|].
  intros [expiry| |] m1 Hsub Ht; cbv beta iota; [|by eapply sound_subseteq..].
  wp_step. apply (wp_WriteString_any n); [by eapply sound_subseteq|done|apply bytesCodec_short|..].
  - by eapply only_subseteq.
  - destruct expiry as [e|]; cbn; [|lia]. intros _. by apply (Ht e).
  - intros [] m' Hm' _ _; cbv beta iota; [by apply Hk|done..].
Qed.

Lemma keeps_redisIncrementBig n key delta : short key → keeps n (redisIncrementBig key delta).
Proof.
  intros Hs. apply keeps_catching. intros m Hm. wp_step. eapply wp_redisString_any; [done..|].
  intros [value| |] m1 Hsub Ho; cbv beta iota zeta; [|by eapply sound_subseteq..].
  assert (sound n m1) as Hm1 by by eapply sound_subseteq.
  match goal with |- wp _ (match ?x with _ => _ end) _ _ => destruct x end; [|by rd_steps].
  case_match; [by rd_steps|].
  apply wp_string_update; [done..|by eapply Ho|]. apply keeps_shrinks; shrink.
Qed.

Lemma keeps_redisAppend n args : Forall short args → keeps n (redisAppend args).
Proof.
  intros Hs. unfold redisAppend. destruct args as [|cmd [|key [|suffix [|]]]];
    try apply keeps_mret.
  assert (short key) as Hkey by (rewrite !Forall_cons in Hs; tauto).
  apply keeps_catching. intros m Hm. wp_step. eapply wp_redisString_any; [done..|].
  intros [value| |] m1 Hsub Ho; cbv beta iota zeta; [|by eapply sound_subseteq..].
  apply wp_string_update; [by eapply sound_subseteq|done|by eapply Ho|]. apply keeps_shrinks; shrink.
Qed.

Lemma keeps_increments n args delta decrement :
  Forall short args →
  keeps n (redisIncrementCommand args delta) ∧ keeps n (redisIncrementByCommand args decrement).
Proof.
  intros Hs. unfold redisIncrementCommand, redisIncrementByCommand, redisIncrement. split.
  - repeat case_match; try apply keeps_mret; subst.
    apply keeps_redisIncrementBig. rewrite !Forall_cons in Hs. tauto.
  - repeat case_match; try apply keeps_mret; subst;
      first [ apply keeps_shrinks, shrinks_panic
            | apply keeps_redisIncrementBig; rewrite !Forall_cons in Hs; tauto ].
Qed.

(** *** Several keys at once *)

Lemma pairs_short l kvs : pairs l = Some kvs → Forall short l → Forall (λ kv, short kv.1) kvs.
Proof.
  revert kvs. induction l as [l IH] using (induction_ltof1 _ (@length bytes)). unfold ltof in IH.
  destruct l as [|k [|v l]]; intros kvs; cbn; [by intros [= <-]|done|].
  destruct (pairs l) as [kvs'|] eqn:Hp; cbn; [|done]. intros [= <-] Hs.
  rewrite !Forall_cons in Hs. constructor; [tauto|]. eapply IH; [|done|tauto]. cbn. lia.
Qed.

Lemma keeps_redisMSet n args : Forall short args → keeps n (redisMSet args).
Proof.
  intros Hs. unfold redisMSet. destruct args as [|cmd [|key rest]];
    try apply keeps_mret.
  destruct (pairs _) as [kvs|] eqn:Hp; [|apply keeps_shrinks; shrink].
  apply Forall_cons in Hs as [_ Hs]. pose proof (pairs_short _ _ Hp Hs) as Hkvs.
  apply keeps_catching, keeps_bind; [|intros _; apply keeps_shrinks; shrink].
  apply keeps_for_each. intros kv u Hin. rewrite Forall_forall in Hkvs.
  by apply keeps_redisDeleteAndWriteString, Hkvs.
Qed.

Lemma wp_any_exists n keys m (Q : result bool → gmap bytes bytes → Prop) :
  sound n m → Forall short keys →
  (∀ r m', m' ⊆ m → (r = Ok false → Forall (blank m') keys) → Q r m') →
  wp any (any_exists keys) Q m.
Proof.
  intros Hm Hs. revert m Q Hm. induction Hs as [|key keys Hk Hs IH]; intros m Q Hm HQ; cbn [any_exists].
  { rd_steps. by apply HQ. }
  wp_step. apply wp_redisType_any; [done|by eapply sound_key|].
  intros [typ| |] m1 Hsub Hf; cbv beta iota; [|by apply HQ..].
  case_bool_decide as Ht; [rd_steps; by apply HQ|].
  apply IH; [by eapply sound_subseteq|]. intros r m' Hsub' Hb. apply HQ; [by etrans|].
  intros ->. constructor; [|by apply Hb]. eapply blank_subseteq; [done|].
  specialize (Hf typ eq_refl). by destruct (decide (typ = redisTypeNone)) as [->|].
Qed.

(** Keys without a collection stay so while one of them is written. *)
Lemma only_elsewhere typ key key' m m' :
  short key → short key' → key ≠ key' → same_elsewhere key m m' → only typ m key' → only typ m' key'.
Proof.
  intros Hs Hs' Hne Hels Ho s Hk Hkind Hkne.
  rewrite (agree_shape key' m m' s Hs'); [by apply Ho| |done].
  by apply (same_elsewhere_agree key).
Qed.

Lemma keeps_redisMSetNX n args : Forall short args → keeps n (redisMSetNX args).
Proof.
  intros Hs. unfold redisMSetNX. destruct args as [|cmd [|key rest]];
    try apply keeps_mret.
  destruct (pairs _) as [kvs|] eqn:Hp; [|apply keeps_shrinks; shrink].
  apply Forall_cons in Hs as [_ Hs]. pose proof (pairs_short _ _ Hp Hs) as Hkvs.
  apply keeps_catching. intros m Hm. wp_step.
  apply (wp_any_exists n); [done|by apply Forall_fmap|].
  intros [found| |] m1 Hsub Hb; cbv beta iota; [|by eapply sound_subseteq..].
  assert (sound n m1) as Hm1 by by eapply sound_subseteq.
  destruct found; [by rd_steps|]. wp_step. clear Hsub. specialize (Hb eq_refl).
  assert (Forall (λ kv, only redisTypeString m1 kv.1) kvs) as Ho.
  { rewrite Forall_fmap in Hb. eapply Forall_impl; [exact Hb|]. intros kv. apply blank_only. }
  clear Hb Hp. revert m1 Hm1 Ho. induction kvs as [|[k v] kvs IH]; intros m1 Hm1 Ho; cbn [for_each].
  { by rd_steps. }
  apply Forall_cons in Hkvs as [Hk Hkvs]. apply Forall_cons in Ho as [Hok Ho].
  wp_step. apply (wp_WriteString_any n); [done..|lia|].
  intros [u| |] m2 Hm2 Hok2 Hels; cbv beta iota; [|done..]. destruct u. apply IH; [done..|].
  rewrite Forall_forall in Ho, Hkvs |- *. intros [k' v'] Hin. cbn.
  destruct (decide (k = k')) as [->|Hne]; [done|].
  eapply only_elsewhere; [exact Hk|by apply (Hkvs (k', v'))|done|done|by apply (Ho (k', v'))].
Qed.

(** *** Deadlines *)

Lemma decoded_codec data (value : StoredValue) :
  store_DecodeRecord data = Ok value → (Z.of_nat (length (stored_Codec value)) ≤ 65535)%Z.
Proof.
  change (store_DecodeRecord data) with (protocol_DecodeRecord data). unfold protocol_DecodeRecord.
  destruct (unmarshalEnvelope data) as [v| |] eqn:Hv; [|done..]. intros [= <-]. cbn.
  apply marshal_unmarshal in Hv. unfold marshalEnvelope in Hv. case_bool_decide; [done|lia].
Qed.

Lemma fits_string_ttl n m key :
  sound n m → short key → fits redisTypeString m key → m !! collectionTTLKey key = None.
Proof.
  intros Hm Hs [_ (s & Hk & Hkind & Hd)]. apply (sound_key n m key Hm Hs).
  destruct s; cbn in Hk, Hkind; simplify_eq. done.
Qed.

#[global] Instance shape_eq_dec : EqDecision shape.
Proof. solve_decision. Defined.

(** An expiry record beside a collection. *)
Lemma sound_ttl n m key typ d :
  sound n m → short key → only typ m key → typ ≠ redisTypeString → length d = 8 →
  sound n (<[collectionTTLKey key := d]> m).
Proof.
  intros Hm Hs Ho Hne Hd. change (collectionTTLKey key) with (storage_key (STTL key)).
  eapply sound_insert; [done..|]. destruct (sound_key n m key Hm Hs) as (_ & Hrec & _).
  assert (∀ s, logical_key s = key → s ≠ STTL key →
    <[storage_key (STTL key) := d]> m !! storage_key s = m !! storage_key s) as Hother.
  { intros s Hk Hne'. apply lookup_insert_ne. intros Heq. apply Hne'. symmetry.
    apply storage_key_inj; [done|by rewrite Hk|done]. }
  split_and!.
  - exists typ. apply only_rep. intros s Hk Hkind Hkne. rewrite Hother; [by apply Ho|done|].
    intros ->. by destruct Hkind.
  - intros s d' Hk Hd'. destruct (decide (s = STTL key)) as [->|Hne'].
    + rewrite lookup_insert_eq in Hd'. by injection Hd' as <-.
    + rewrite Hother in Hd' by done. by apply Hrec.
  - pose proof (Hother (SValue key) eq_refl ltac:(done)) as Hv. cbn [storage_key] in *.
    rewrite Hv, (only_value typ m key) by done. by intros [].
Qed.

Lemma keeps_redisSetExpiry n key expiresAt : short key → keeps n (redisSetExpiry key expiresAt).
Proof.
  intros Hs m Hm. unfold redisSetExpiry. wp_step.
  apply wp_redisType_any; [done|by eapply sound_key|].
  intros [typ| |] m1 Hsub Hf; cbv beta iota; [|by eapply sound_subseteq..].
  assert (sound n m1) as Hm1 by by eapply sound_subseteq. specialize (Hf typ eq_refl).
  case_bool_decide as Hn; [by rd_steps|]. wp_step. apply wp_Now. intros t.
  case_bool_decide; [rd_steps; apply wp_DeleteRaw_any; [done|]; intros b; rd_steps;
    eapply sound_subseteq; [apply without_subseteq|done]|].
  case_bool_decide as Hst.
  - subst typ. rd_steps. destruct (m1 !! _) as [d|] eqn:Hd; [|by rd_steps].
    unfold decodeRecord. rd_steps. destruct (store_DecodeRecord d) as [value| |] eqn:Hv; [|done..].
    wp_step. apply (wp_WriteString_any n); [done|done|by eapply decoded_codec|..].
    + by apply (fits_only redisTypeString).
    + intros _. by eapply fits_string_ttl.
    + intros [] m' Hm' _ _; rd_steps; [|done..]. eapply sound_subseteq; [apply delete_subseteq|done].
  - rd_steps. eapply sound_ttl; [done|done|by apply fits_only|done|]. apply be_put_length.
Qed.

(** A valid string written over the string of a key, without a deadline. *)
Lemma keeps_redisPersist n key : short key → keeps n (redisPersist key).
Proof.
  intros Hs m Hm. unfold redisPersist. wp_step.
  apply (wp_shrinks (redisType key)); [shrink|].
  intros [typ| |] m1 Hsub; cbv beta iota; [|by eapply sound_subseteq..].
  assert (sound n m1) as Hm1 by by eapply sound_subseteq.
  case_bool_decide; [by rd_steps|]. wp_step. apply (wp_shrinks (redisExpiry key)); [shrink|].
  intros [expiry| |] m2 Hsub2; cbv beta iota; [|by eapply sound_subseteq..].
  assert (sound n m2) as Hm2 by by eapply sound_subseteq.
  destruct expiry; [|by rd_steps]. case_bool_decide.
  - rd_steps. store_names. destruct (m2 !! valueKey key) as [d|] eqn:Hd; [|by rd_steps].
    unfold decodeRecord. rd_steps. destruct (store_DecodeRecord d) as [value| |] eqn:Hv; [|done..].
    assert (fits redisTypeString m2 key) as Hf.
    { apply (key_ok_fits _ m2 key (SValue key)); [by eapply sound_key|done..|]. by exists d. }
    wp_step. apply wp_putPayload_any; [by eapply decoded_codec|]. intros d' v' Hd'. rd_steps.
    change (valueKey key) with (storage_key (SValue key)). eapply sound_insert; [done..|].
    eapply key_ok_scalar; [done| |done|by eapply fits_string_ttl].
    intros s Hk Hkind Hne. apply (proj1 Hf); [done..|]. destruct s; cbn in *; congruence.
  - rd_steps. eapply sound_subseteq; [apply delete_subseteq|done].
Qed.

Lemma keeps_redisPersistCommand n args : Forall short args → keeps n (redisPersistCommand args).
Proof.
  intros Hs. unfold redisPersistCommand. destruct args as [|cmd [|key [|]]]; try apply keeps_mret.
  apply keeps_catching, keeps_bind; [|intros; apply keeps_mret].
  apply keeps_redisPersist. rewrite !Forall_cons in Hs. tauto.
Qed.

Lemma keeps_redisExpireCommand n args command :
  Forall short args → keeps n (redisExpireCommand args command).
Proof.
  intros Hs. unfold redisExpireCommand. destruct args as [|cmd [|key [|arg [|]]]]; try apply keeps_mret.
  apply keeps_catching. do 3 (apply keeps_bind; [apply keeps_shrinks; shrink|]; intros).
  apply keeps_bind; [|intros; apply keeps_mret].
  apply keeps_redisSetExpiry. rewrite !Forall_cons in Hs. tauto.
Qed.

Lemma keeps_redisGetEx `{GT : GoText} n args : Forall short args → keeps n (redisGetEx args).
Proof.
  intros Hs. unfold redisGetEx. destruct args as [|cmd [|key options]]; try apply keeps_mret.
  assert (short key) as Hkey by (rewrite !Forall_cons in Hs; tauto).
  apply keeps_catching, keeps_bind; [apply keeps_shrinks; shrink|]. intros value.
  assert (∀ v e, keeps n (_ ← redisSetExpiry key e; mret (respBulkBytes v))) as Hexp.
  { intros v e. apply keeps_bind; [by apply keeps_redisSetExpiry|]. intros; apply keeps_mret. }
  repeat first [ apply keeps_mret | apply Hexp | case_match
               | apply keeps_shrinks, shrinks_throw
               | apply keeps_bind; [by apply keeps_redisPersist|intros]
               | apply keeps_bind; [apply keeps_shrinks, shrinks_Now|intros] ].
Qed.
