(* ===== verification/RedisInvariant.v ===== *)
(** * Redis commands keep the record map well typed

    Most commands only remove records ([shrinks]); the others write one kind
    of record into a key they have just found to hold that kind or none. So
    every command keeps the map [sound], whatever the clock shows between its
    steps. *)

From S2P Require Import Prelude Errors Engine Effects MemDriver Envelope Keys ListCodec Text DriverName DB DBTheorems Collections Transport Resp RedisStorage RedisStrings RedisCollections PathMatch RedisServer RedisModel RedisTheorems RedisCollProps RedisListProps RedisShrink RedisTyped.

Implicit Types (m : gmap bytes bytes) (key value : bytes).

(** ** Commands on collections *)

(** One more record of the kind a key holds. *)
Lemma sound_put n key s typ d m :
  sound n m → short key → logical_key s = key → kind_of s = Some typ → typ ≠ redisTypeString →
  (∀ name, s ≠ SList name) → only typ m key → record_ok s d →
  sound n (<[storage_key s := d]> m) ∧ only typ (<[storage_key s := d]> m) key.
Proof.
  intros Hm Hs Hk Hkind Hne Hnl Ho Hd. split; [|by apply insert_only].
  eapply sound_insert; [done..|]. apply (insert_key_ok typ); try done. by eapply sound_key.
Qed.

(** A loop that keeps the map sound and [key] of one kind. *)
Lemma keeps_loop {A S} n typ key (l : list A) (body : A → S → M S) s m
    (Q : result S → gmap bytes bytes → Prop) :
  sound n m → only typ m key →
  (∀ x s m, x ∈ l → sound n m → only typ m key →
     wp any (body x s) (λ _ m', sound n m' ∧ only typ m' key) m) →
  (∀ r m', sound n m' → only typ m' key → Q r m') →
  wp any (for_each l body s) Q m.
Proof.
  intros Hm Ho Hb HQ. revert s m Hm Ho Hb. induction l as [|x l IH]; intros s m Hm Ho Hb; cbn [for_each].
  { by apply HQ. }
  wp_step. eapply wp_mono; [apply Hb; [by left|done..]|].
  intros [s'| |] m' [Hm' Ho']; cbv beta iota; [|by apply HQ..].
  apply IH; [done..|]. intros. apply Hb; [by right|done..].
Qed.

(** The type test a collection write starts with. *)
Lemma wp_type_for {A} n key typ (body : redisTyp → M A) m :
  sound n m → short key → typ ≠ redisTypeNone →
  (∀ found m', sound n m' → only typ m' key → wp any (body found) (λ _ m', sound n m') m') →
  wp any (found ← redisType key;
          if bool_decide (found ≠ redisTypeNone ∧ found ≠ typ) then throw (wrongType found)
          else body found) (λ _ m', sound n m') m.
Proof.
  intros Hm Hs Hne Hb. wp_step. apply wp_redisType_any; [done|by eapply sound_key|].
  intros [found| |] m1 Hsub Hf; cbv beta iota; [|by eapply sound_subseteq..].
  assert (sound n m1) as Hm1 by by eapply sound_subseteq. specialize (Hf found eq_refl).
  case_bool_decide as Hft; [by rd_steps|]. apply Hb; [done|].
  eapply fits_none_or; [|exact Hf].
  destruct (decide (found = redisTypeNone)); [by left|]. right. apply dec_stable. tauto.
Qed.

Lemma sound_delete n m typ key k :
  sound n m → only typ m key → sound n (delete k m) ∧ only typ (delete k m) key.
Proof.
  intros Hm Ho. split; [eapply sound_subseteq|eapply only_subseteq]; try apply delete_subseteq; done.
Qed.

(** The expiry record a fresh collection must not inherit. *)
Lemma wp_drop_ttl n key typ (fresh : bool) m (Q : result unit → gmap bytes bytes → Prop) :
  sound n m → only typ m key → (∀ m', sound n m' → only typ m' key → Q (Ok tt) m') →
  wp any (if fresh then ignore (store_Delete (store_CollectionTTLKey key)) else (mret tt : M unit)) Q m.
Proof.
  intros Hm Ho HQ. destruct fresh; rd_steps; [|by apply HQ].
  destruct (sound_delete n m typ key (store_CollectionTTLKey key) Hm Ho). by apply HQ.
Qed.

Lemma wp_put_field n key field payload m :
  sound n m → short key → only redisTypeHash m key →
  wp any (putPayload (store_HashKey key field) bytesCodec payload 0)
    (λ _ m', sound n m' ∧ only redisTypeHash m' key) m.
Proof.
  intros Hm Hs Ho. store_names. apply wp_putPayload_any; [apply bytesCodec_short|]. intros d v Hd.
  apply (sound_put n key (SHash key field)); try done. by exists v.
Qed.

Lemma keeps_redisHSet n args : Forall short args → keeps n (redisHSet args).
Proof.
  intros Hs. unfold redisHSet. destruct args as [|cmd [|key [|arg rest]]]; try apply keeps_mret.
  assert (short key) as Hkey by (rewrite !Forall_cons in Hs; tauto).
  destruct (pairs _) as [fvs|]; [|apply keeps_mret]. apply keeps_catching. intros m Hm.
  apply (wp_type_for n key redisTypeHash); [done..|]. intros found m1 Hm1 Ho1. wp_step.
  eapply wp_drop_ttl; [done..|]. intros m2 Hm2 Ho2. cbv beta iota. wp_step.
  eapply (keeps_loop n redisTypeHash key); [done..| |].
  - intros fv added m3 _ Hm3 Ho3. rd_steps. eapply wp_mono; [by apply wp_put_field|].
    intros [] m4 [Hm4 Ho4]; by rd_steps.
  - intros [] m3 Hm3 _; by rd_steps.
Qed.

Lemma keeps_redisHIncrBy n args : Forall short args → keeps n (redisHIncrBy args).
Proof.
  intros Hs. unfold redisHIncrBy. destruct args as [|cmd [|key [|field [|arg [|]]]]]; try apply keeps_mret.
  assert (short key) as Hkey by (rewrite !Forall_cons in Hs; tauto).
  apply keeps_catching, keeps_bind; [apply keeps_shrinks; shrink|]. intros delta m Hm.
  apply (wp_type_for n key redisTypeHash); [done..|]. intros found m1 Hm1 Ho1. wp_step.
  apply (wp_shrinks (redisHashField key field)); [shrink|].
  intros [value| |] m2 Hsub; cbv beta iota zeta; [|by eapply sound_subseteq..].
  assert (sound n m2) as Hm2 by by eapply sound_subseteq.
  match goal with |- wp _ (match ?x with _ => _ end) _ _ => destruct x end; [|by rd_steps].
  case_match; [by rd_steps|]. wp_step.
  eapply wp_mono; [apply (wp_put_field n); [done|done|by eapply only_subseteq]|].
  intros [] m3 [Hm3 _]; by rd_steps.
Qed.

Lemma keeps_redisSAdd n args : Forall short args → keeps n (redisSAdd args).
Proof.
  intros Hs. unfold redisSAdd. destruct args as [|cmd [|key [|y members]]]; try apply keeps_mret.
  assert (short key) as Hkey by (rewrite !Forall_cons in Hs; tauto).
  apply keeps_catching. intros m Hm.
  apply (wp_type_for n key redisTypeSet); [done..|]. intros found m1 Hm1 Ho1. wp_step.
  eapply wp_drop_ttl; [done..|]. intros m2 Hm2 Ho2. cbv beta iota. wp_step.
  eapply (keeps_loop n redisTypeSet key); [done..| |].
  - intros member added m3 _ Hm3 Ho3. rd_steps. destruct (m3 !! _); rd_steps; [done|]. store_names.
    by apply (sound_put n key (SSet key member)).
  - intros [] m3 Hm3 _; by rd_steps.
Qed.

(** *** Lists *)

Lemma wp_live_loop_any items live changed m
    (Q : result (list bytes * bool) → gmap bytes bytes → Prop) :
  Forall good_item items → Q (Ok (live ++ items, changed)) m →
  wp any (for_each items
    (λ item '(live, changed),
       t ← store_Now;
       payload ← redisItemPayload item t;
       match payload with
       | None => mret (live, true)
       | Some _ => mret (live ++ [item], changed)
       end) (live, changed)) Q m.
Proof.
  intros H. revert live. induction H as [|item items Hi Hall IH]; intros live HQ; cbn [for_each].
  - rd_steps. by rewrite app_nil_r in HQ.
  - do 2 wp_step. apply wp_Now. intros t. cbv beta iota. wp_step.
    apply wp_redisItemPayload; [done|]. rd_steps. apply IH. by rewrite <-app_assoc.
Qed.

(** The items a list command works on. *)
Definition list_found (n : nat) m key (found : option (list bytes)) : Prop :=
  let items := default [] found in
  only redisTypeList m key ∧ Forall good_item items ∧ list_encodable items
  ∧ (Z.of_nat (length items + n) < 2 ^ 32)%Z.

Lemma wp_redisListValues_any n key m Q :
  sound n m → (Z.of_nat n < 2 ^ 32)%Z → short key →
  (∀ r m', m' ⊆ m → (∀ found, r = Ok found → list_found n m' key found) → Q r m') →
  wp any (redisListValues key) Q m.
Proof.
  intros Hm Hn Hs HQ. unfold redisListValues, redisList. do 2 wp_step.
  apply wp_redisType_any; [done|by eapply sound_key|].
  intros [typ| |] m1 Hsub Hf; cbv beta iota; [|by apply HQ..]. specialize (Hf typ eq_refl).
  assert (sound n m1) as Hm1 by by eapply sound_subseteq.
  assert (only redisTypeList m1 key → list_found n m1 key None) as Hnone.
  { intros Ho. split_and!; cbn; [done|constructor|by split; [cbn; lia|constructor]|lia]. }
  destruct typ; [rd_steps; apply HQ; [done|]; intros found [= <-]; by apply Hnone, blank_only
                |rd_steps; by apply HQ..|].
  pose proof (fits_only redisTypeList m1 key ltac:(done) Hf) as Ho.
  rd_steps. store_names. destruct (m1 !! listKey key) as [d|] eqn:Hd; rd_steps.
  2:{ apply HQ; [done|]. intros found [= <-]. by apply Hnone. }
  destruct (proj1 (proj2 (sound_key n m1 key Hm1 Hs)) (SList key) d eq_refl Hd) as (items & Hdec & Hgood).
  rewrite Hdec. rd_steps. apply wp_live_loop_any; [done|]. rd_steps.
  destruct (encode_decode_list d items Hdec) as [_ Henc].
  pose proof (proj2 Hm1 key d items Hs Hd Hdec) as Hfit.
  case_bool_decide; rd_steps; (apply HQ; [done|]); intros found [= <-]; [by apply Hnone|].
  by split_and!.
Qed.

Lemma wp_redisWriteList_any n key items m Q :
  sound n m → short key → only redisTypeList m key →
  Forall good_item items → list_encodable items → (Z.of_nat (length items + n) < 2 ^ 32)%Z →
  (∀ m', sound n m' → Q (Ok tt) m') →
  wp any (redisWriteList key items) Q m.
Proof.
  intros Hm Hs Ho Hgood Henc Hfit HQ. unfold redisWriteList. case_bool_decide; rd_steps.
  - apply wp_DeleteRaw_any; [done|]. intros b. rd_steps. apply HQ.
    eapply sound_subseteq; [apply without_subseteq|done].
  - apply HQ. store_names. pose proof Hm as [Hok Hfits]. split.
    + change (listKey key) with (storage_key (SList key)).
      eapply redis_ok_step; [done..|by apply insert_elsewhere|].
      apply (insert_key_ok redisTypeList); [done..|by apply Hok|].
      exists items. by rewrite decode_encode_list.
    + intros key' d' items' Hs' Hd' Hdec. destruct (decide (key' = key)) as [->|Hne].
      * rewrite lookup_insert_eq in Hd'. injection Hd' as <-.
        rewrite decode_encode_list in Hdec by done. by injection Hdec as <-.
      * rewrite lookup_insert_ne in Hd'; [by eapply Hfits|]. intros Heq. apply Hne.
        by apply (storage_key_inj (SList key) (SList key')) in Heq; [congruence|..].
Qed.

Lemma Forall_sublist {A} (P : A → Prop) (l k : list A) : sublist l k → Forall P k → Forall P l.
Proof.
  intros Hsub Hk. induction Hsub; rewrite ?Forall_cons in *; [done|naive_solver..].
Qed.

(** Some of the items of a list. *)
Lemma list_found_sublist n m key found items :
  list_found n m key found → sublist items (default [] found) →
  Forall good_item items ∧ list_encodable items ∧ (Z.of_nat (length items + n) < 2 ^ 32)%Z.
Proof.
  intros (_ & Hgood & [Hlen Hitems] & Hfit) Hsub. pose proof (sublist_length _ _ Hsub).
  split_and!; [by eapply Forall_sublist|split; [lia|by eapply Forall_sublist]|lia].
Qed.

Lemma shrinks_redisItemPayload item now : shrinks (redisItemPayload item now).
Proof. unfold redisItemPayload, decodeRecord. shrink. Qed.

Lemma shrinks_redisListReply items now : shrinks (redisListReply items now).
Proof. unfold redisListReply. shrink; auto using shrinks_redisItemPayload. Qed.

Lemma shrinks_redisPopReply arg removed now : shrinks (redisPopReply arg removed now).
Proof.
  unfold redisPopReply. repeat case_match; auto using shrinks_redisListReply with shrink.
  apply shrinks_bind; [apply shrinks_redisItemPayload|]. intros. shrink.
Qed.

(** The list commands: a look at the items, then possibly a write. *)
Lemma keeps_list {A} n key (body : option (list bytes) → M A) :
  (Z.of_nat n < 2 ^ 32)%Z → short key →
  (∀ found m, sound n m → list_found n m key found → wp any (body found) (λ _ m', sound n m') m) →
  keeps n (found ← redisListValues key; body found).
Proof.
  intros Hn Hs Hb m Hm. wp_step. eapply wp_redisListValues_any; [done..|].
  intros [found| |] m1 Hsub Hf; cbv beta iota; [|by eapply sound_subseteq..].
  apply Hb; [by eapply sound_subseteq|by apply Hf].
Qed.

Lemma keeps_readers_list n args :
  (Z.of_nat n < 2 ^ 32)%Z → Forall short args → keeps n (redisLRange args) ∧ keeps n (redisLLen args).
Proof.
  intros Hn Hs. unfold redisLRange, redisLLen. split.
  - destruct args as [|cmd [|key [|start [|stop [|]]]]]; try apply keeps_mret.
    apply keeps_catching. do 2 (apply keeps_bind; [apply keeps_shrinks; shrink|]; intros).
    apply keeps_list; [done|rewrite !Forall_cons in Hs; tauto|]. intros found m Hm _. cbv zeta.
    apply (keeps_shrinks n); [|done]. case_match. case_match. case_match; [|shrink].
    apply shrinks_bind; [shrink|]. intros. apply shrinks_redisListReply.
  - destruct args as [|cmd [|key [|]]]; try apply keeps_mret.
    apply keeps_catching, keeps_list; [done|rewrite !Forall_cons in Hs; tauto|].
    intros found m Hm _. by rd_steps.
Qed.

Lemma keeps_redisPopKey n key arg onLeft :
  (Z.of_nat n < 2 ^ 32)%Z → short key → keeps n (redisPopKey key arg onLeft).
Proof.
  intros Hn Hs. apply keeps_catching, keeps_list; [done..|]. intros found m Hm Hf.
  destruct found as [items|]; [|by rd_steps]. wp_step. cbn [wp lift].
  destruct (redisPopCount arg); [|done..]. case_bool_decide; [by rd_steps|]. cbv zeta.
  match goal with |- wp _ (let '(_, _) := ?x in _) _ _ => destruct x as [removed items'] eqn:Hsplit end.
  assert (sublist items' items) as Hsub.
  { destruct onLeft; simplify_eq; [apply sublist_drop|apply sublist_take]. }
  destruct (list_found_sublist n m key _ _ Hf Hsub) as (Hgood & Henc & Hfit).
  wp_step. eapply wp_redisWriteList_any; [done|done|apply Hf|done..|]. intros m' Hm'. cbv beta iota.
  apply (keeps_shrinks n); [|done]. apply shrinks_bind; [shrink|]. intros. apply shrinks_redisPopReply.
Qed.

Lemma keeps_redisPop n args onLeft :
  (Z.of_nat n < 2 ^ 32)%Z → Forall short args → keeps n (redisPop args onLeft).
Proof.
  intros Hn Hs. unfold redisPop. repeat case_match; try apply keeps_mret; subst;
    (apply keeps_redisPopKey; [done|]); rewrite !Forall_cons in Hs; tauto.
Qed.

Lemma keeps_redisLTrim n args :
  (Z.of_nat n < 2 ^ 32)%Z → Forall short args → keeps n (redisLTrim args).
Proof.
  intros Hn Hs. unfold redisLTrim. destruct args as [|cmd [|key [|start [|stop [|]]]]]; try apply keeps_mret.
  assert (short key) as Hkey by (rewrite !Forall_cons in Hs; tauto).
  apply keeps_catching. do 2 (apply keeps_bind; [apply keeps_shrinks; shrink|]; intros).
  apply keeps_list; [done..|]. intros found m Hm Hf. cbv zeta.
  match goal with |- context [normalizeRange ?a ?b ?c] => destruct (normalizeRange a b c) as [[first last] ok] end.
  destruct ok; [|apply (keeps_shrinks n); [shrink|done]]. wp_step.
  destruct (list_found_sublist n m key found (range_slice (default [] found) first last) Hf)
    as (Hgood & Henc & Hfit).
  { unfold range_slice, slice. etrans; [apply sublist_take|apply sublist_drop]. }
  eapply wp_redisWriteList_any; [done|done|apply Hf|done..|]. intros m' Hm'. by rd_steps.
Qed.

(** A push uses up room for the values it adds. *)
Lemma keeps_redisPushValues n key values onLeft onlyIfExists m :
  (Z.of_nat (n + length values) < 2 ^ 32)%Z → short key →
  Forall (λ v, Z.of_nat (length v) < 2 ^ 31)%Z values → sound (n + length values) m →
  wp any (redisPushValues key values onLeft onlyIfExists) (λ _ m', sound n m') m.
Proof.
  intros Hn Hs Hval Hm. apply wp_catching.
  eapply wp_mono with (λ (r : result respValue) m', sound n m'); [|by intros [] ?].
  assert (∀ m', sound (n + length values) m' → sound n m') as Hless by (intros m'; apply sound_le; lia).
  wp_step. apply (wp_shrinks (redisType key)); [shrink|].
  intros [typ| |] m1 Hsub; cbv beta iota; [|by apply Hless; eapply sound_subseteq..].
  assert (sound (n + length values) m1) as Hm1 by by eapply sound_subseteq.
  case_bool_decide; [by rd_steps; apply Hless|]. case_match; [by rd_steps; apply Hless|].
  wp_step. eapply wp_redisListValues_any; [done|done|done|].
  intros [found| |] m2 Hsub2 Hf; cbv beta iota; [|by apply Hless; eapply sound_subseteq..].
  specialize (Hf found eq_refl) as (Ho & Hgood & Henc & Hfit).
  assert (sound (n + length values) m2) as Hm2 by by eapply sound_subseteq.
  case_match; [by rd_steps; apply Hless|]. wp_step. apply wp_encode_loop. intros encoded Hall.
  cbn [app]. cbv beta iota zeta. pose proof (Forall2_length _ _ _ Hall) as Hlen. wp_step.
  destruct (pushed_items (default [] found) encoded values onLeft) as (Hgood' & Henc' & _);
    [done|done|done| |].
  { split; [rewrite length_fmap; lia|done]. }
  rewrite swap_ends_reverse. eapply (wp_redisWriteList_any n); [by apply Hless|done..| |].
  - destruct onLeft; rewrite length_app, ?length_reverse; lia.
  - intros m3 Hm3. rd_steps. case_bool_decide; rd_steps; [|done].
    eapply sound_subseteq; [apply delete_subseteq|done].
Qed.

Lemma redisPush_keeps n args onLeft :
  Forall (λ a, Z.of_nat (length a) < 2 ^ 31)%Z args → (Z.of_nat (n + length args) < 2 ^ 32)%Z →
  (∀ m, sound (n + length args) m → wp any (redisPush args onLeft) (λ _ m', sound n m') m)
  ∧ (∀ m, sound (n + length args) m → wp any (redisPushX args onLeft) (λ _ m', sound n m') m).
Proof.
  intros Hs Hn. unfold redisPush, redisPushX.
  destruct args as [|cmd [|key [|y values]]];
    try (split; intros m Hm; rd_steps; by eapply sound_le, Hm; lia).
  rewrite !Forall_cons in Hs. destruct Hs as (_ & Hkey & Hy & Hvalues).
  cbn [length] in Hn.
  split; intros m Hm; (apply keeps_redisPushValues;
    [cbn [length]; lia|unfold short; lia|by constructor|eapply sound_le, Hm; cbn [length]; lia]).
Qed.

Section dispatch.
Context {GT : GoText} {MR : MapRange}.

Lemma redisCommand_keeps n command args session m :
  Forall (λ a, Z.of_nat (length a) < 2 ^ 31)%Z args → (Z.of_nat (n + length args) < 2 ^ 32)%Z →
  sound (n + length args) m →
  wp any (redisCommand command args session) (λ _ m', sound n m') m.
Proof.
  intros Hmod Hn Hm.
  assert (Forall short args) as Hs.
  { eapply Forall_impl; [exact Hmod|]. intros a Ha. unfold short. cbn in Ha. lia. }
  assert (Z.of_nat n < 2 ^ 32)%Z as Hn' by lia.
  assert (sound n m) as Hless by (eapply sound_le, Hm; lia).
  destruct (shrinks_commands args) as (?&?&?&?&?&?&?&?&?&?&?&?&?&?&?&?&?&?&?&?).
  destruct (shrinks_keyspace args) as (?&?&?). destruct (keeps_readers_list n args Hn' Hs) as [Hlr Hll].
  assert (shrinks redisTime) by (unfold redisTime; shrink).
  pose proof (λ d b, proj1 (keeps_increments n args d b Hs)).
  pose proof (λ d b, proj2 (keeps_increments n args d b Hs)).
  pose proof (λ l, proj1 (redisPush_keeps n args l Hmod Hn)) as Hpush.
  pose proof (λ l, proj2 (redisPush_keeps n args l Hmod Hn)) as Hpushx.
  unfold redisCommand. cbv zeta.
  repeat match goal with |- wp _ (if ?b then _ else _) _ _ => destruct b end;
    first [ by rd_steps
          | by apply (keeps_shrinks n); [auto using shrinks_redisSMIsMember, shrinks_redisTTLCommand|]
          | by apply Hpush | by apply Hpushx | by apply Hlr | by apply Hll
          | by apply keeps_redisSet | by apply keeps_redisSetNX | by apply keeps_redisSetEX
          | by apply keeps_redisGetSet | by apply keeps_redisGetEx | by apply keeps_redisMSet
          | by apply keeps_redisMSetNX | by apply keeps_redisAppend
          | by match goal with H : Z → bool → keeps n _ |- _ => apply (H _ false) end
          | by match goal with H : Z → ∀ b, keeps n _ |- _ => apply (H 0%Z) end
          | by apply keeps_redisExpireCommand | by apply keeps_redisPersistCommand
          | by apply keeps_redisHSet | by apply keeps_redisHIncrBy | by apply keeps_redisSAdd
          | by apply keeps_redisPop | by apply keeps_redisLTrim ].
Qed.
Lemma redisDispatch_keeps n args password session m :
  Forall (λ a, Z.of_nat (length a) < 2 ^ 31)%Z args → (Z.of_nat (n + length args) < 2 ^ 32)%Z →
  sound (n + length args) m →
  wp any (redisDispatch args password session) (λ _ m', sound n m') m.
Proof.
  intros Hmod Hn Hm. assert (sound n m) as Hless by (eapply sound_le, Hm; lia).
  unfold redisDispatch. destruct args as [|arg rest]; [done|]. cbv zeta.
  repeat case_match; try done. wp_step.
  eapply wp_mono; [by apply redisCommand_keeps|]. intros [] m' Hm'; by rd_steps.
Qed.
End dispatch.

(** C5: Type preservation: every Redis command, on any arguments below 2 GiB,
    leaves every key with one representation, with records that decode and
    with no expiry record beside a scalar, whatever the clock shows at each of
    its readings. A list has room for [n] more items afterwards when it had
    room for them and the arguments before. *)
Theorem redis_commands_keep_types {GT : GoText} {MR : MapRange} n args password session :
  Forall (λ a, Z.of_nat (length a) < 2 ^ 31)%Z args → (Z.of_nat (n + length args) < 2 ^ 32)%Z →
  triple any (sound (n + length args)) (redisDispatch args password session)
    (λ _ _ m', sound n m').
Proof. intros Hmod Hn. apply triple_intro. intros m Hm. by apply redisDispatch_keeps. Qed.

Lemma sound_empty n : (Z.of_nat n < 2 ^ 32)%Z → sound n ∅.
Proof.
  intros Hn. split; [|intros key d items _ Hd; by rewrite lookup_empty in Hd].
  intros key Hs. apply key_ok_blank; [intros s _ _; apply lookup_empty|].
  intros d. by rewrite lookup_empty.
Qed.

Lemma redis_commands_keep_types_witness :
  let args := [⟦"RPUSH"⟧; ⟦"l"⟧; ⟦"a"⟧; ⟦"b"⟧] in
  sound (100 + length args) ∅
  ∧ triple any (sound (100 + length args))
      (redisDispatch (GT := ascii_GoText) (MR := elements_MapRange) args [] (mkSession true 1 2))
      (λ _ _ m', sound 100 m').
Proof.
  cbv zeta. split; [apply sound_empty; vm_compute; reflexivity|].
  apply (redis_commands_keep_types (GT := ascii_GoText) (MR := elements_MapRange) 100);
    [repeat constructor; vm_compute; reflexivity|vm_compute; reflexivity].
Defined.
