(* ===== verification/ConcurrentProps.v ===== *)
(** * What concurrent clients can rely on

    Serializability turns the sequential theorems into theorems about shared
    handles: the Go methods that work under [protocolMu] and the Redis
    commands keep the record map well typed together, and concurrent counter
    commands lose no update. *)

From S2P Require Import Prelude Errors Engine Effects MemDriver Locks Serial Envelope Keys ListCodec Text DriverName DB DBTheorems Collections Transport Resp RedisStorage RedisStrings RedisCollections Json Base64 Http PathMatch RedisServer Calls CallProps RedisModel RedisTheorems RedisCollProps RedisListProps RedisShrink RedisTyped RedisInvariant.

Implicit Types (m : gmap bytes bytes) (key : bytes).

(** ** The Go methods and the typing of the store *)

Lemma shrinks_map_err {A} wrap (p : M A) : shrinks p → shrinks (map_err wrap p).
Proof. intros Hp m. apply wp_map_err. by apply wp_shrinks. Qed.

Lemma shrinks_nowTime : shrinks nowTime.
Proof. intros m t _. cbn. reflexivity. Qed.

Lemma shrinks_ensureOpen : shrinks ensureOpen.
Proof. apply (shrinks_engine [] []). Qed.

Lemma shrinks_engineGet key : shrinks (engineGet key).
Proof. apply (shrinks_engine key []). Qed.

Lemma shrinks_engineDelete key : shrinks (engineDelete key).
Proof. apply (shrinks_engine key []). Qed.

Lemma shrinks_isExpired e : shrinks (isExpired e).
Proof.
  unfold isExpired. case_bool_decide; [|apply shrinks_mret].
  apply shrinks_bind; [apply shrinks_nowTime|]. intros. apply shrinks_mret.
Qed.

Lemma shrinks_deleteLogicalKey key : shrinks (deleteLogicalKey key).
Proof.
  unfold deleteLogicalKey, delete_keys. pose proof (λ key pfx, proj2 (shrinks_engine key pfx)) as He.
  shrink; first [ apply (He _ []) | apply (He [] _) ].
Qed.

#[export] Hint Resolve shrinks_nowTime shrinks_ensureOpen shrinks_engineGet shrinks_engineDelete
  shrinks_isExpired shrinks_deleteLogicalKey : shrink.

Ltac shrink_db := repeat first [ apply shrinks_map_err | progress shrink ].

Lemma shrinks_gets key : shrinks (GetStoredValue key) ∧ shrinks (Has key) ∧ shrinks (DB.Delete key).
Proof. unfold GetStoredValue, Has, DB.Delete. split_and!; shrink_db. Qed.

Lemma shrinks_count_loop step items n : (∀ item, shrinks (step item)) → shrinks (count_loop step items n).
Proof.
  intros Hs. revert n. induction items as [|item items IH]; intros n; cbn [count_loop]; shrink.
Qed.

Lemma shrinks_counted name items :
  shrinks (HDelete name items) ∧ shrinks (SRemove name items).
Proof.
  unfold HDelete, SRemove, when_open, owner_side.
  assert (∀ o k, inert o = true → (∀ r, shrinks (k r)) → shrinks (Step (A := result Z) o k)) as Hstep.
  { intros o k Ho Hk m. destruct o; try done; cbn; apply Hk. }
  split; shrink; try (apply Hstep; [done|intros r; apply shrinks_Ret]);
    apply shrinks_count_loop; intros; unfold HDelete_step, SRemove_step; shrink.
Qed.

Section typed.
Context {X Y : Type} (cfg : config X Y).

Lemma shrinks_get storageKey target : shrinks (get cfg storageKey target).
Proof. unfold get, decode. shrink_db. Qed.

(** A scalar write keeps the map sound: it replaces every record of the key
    by one envelope. *)
Lemma keeps_replaceLogicalValue n key encoded v :
  short key → unmarshalEnvelope encoded = Ok v → keeps n (replaceLogicalValue key encoded).
Proof.
  intros Hs Hv m Hm. apply wp_replaceLogicalValue; [done|].
  change (valueKey key) with (storage_key (SValue key)).
  eapply sound_insert; [eapply sound_subseteq; [apply without_subseteq|done]|done..|].
  eapply key_ok_scalar; [done| |done|].
  - by apply scalar_only_without.
  - rewrite lookup_without.
    by rewrite (owns_shape key (STTL key) Hs eq_refl : owns key (collectionTTLKey key) = true).
Qed.

(** An envelope the handle has just encoded. *)
Lemma wp_fresh_envelope codec payload ttl m (Q : result bytes → gmap bytes bytes → Prop) :
  (∀ e, Q (Err e) m) → (∀ data v, unmarshalEnvelope data = Ok v → Q (Ok data) m) →
  wp any (expiresAt ← expiryFor ttl; lift (marshalEnvelope codec payload expiresAt)) Q m.
Proof.
  intros HE HQ. wp_step. apply wp_expiryFor. intros e He. wp_steps.
  destruct (marshalEnvelope codec payload e) as [data|err|] eqn:Hd; [|by apply HE|].
  - eapply HQ, unmarshal_marshal; [|exact Hd].
    by eapply expiry_of_range.
  - unfold marshalEnvelope in Hd. by case_bool_decide.
Qed.

Lemma keeps_PutStoredValue n key codec value options :
  short key → keeps n (PutStoredValue key codec value options).
Proof.
  intros Hs. unfold PutStoredValue. do 2 (case_bool_decide; [apply keeps_shrinks; shrink|]).
  apply keeps_bind; [apply keeps_shrinks; shrink|]. intros _.
  apply keeps_bind; [apply keeps_shrinks; shrink|]. intros pc m Hm. wp_step.
  apply wp_fresh_envelope; [done|]. intros data v Hv. by eapply keeps_replaceLogicalValue.
Qed.

Lemma keeps_Put n key value options : short key → keeps n (Put cfg key value options).
Proof.
  intros Hs. unfold Put, encodeValue. case_bool_decide; [apply keeps_shrinks; shrink|].
  apply keeps_bind; [apply keeps_shrinks; shrink|]. intros _ m Hm. do 2 wp_step. cbn [wp lift].
  destruct (applyPutOptions _ options) as [pc| |]; [|done..]. wp_step. cbn [wp lift].
  destruct (codec_Marshal _ value) as [payload| |]; [|done..].
  apply wp_fresh_envelope; [done|]. intros data v Hv. by eapply keeps_replaceLogicalValue.
Qed.
End typed.

(** ** Requests that keep the types *)

Section requests.
Context {X Y : Type} (cfg : config X Y) {GT : GoText} {MR : MapRange}.

(** Scalar writes and reads and removals of the Go API, and every Redis
    command, with arguments of sensible size. [SAdd] and the methods that take
    no mutex are not among them. *)
Definition typed_request (rq : @request X Y) : Prop :=
  match rq with
  | RqPut key _ _ | RqPutStoredValue key _ _ _ => short key
  | RqGetStoredValue _ | RqGet _ _ | RqHas _ | RqDelete _ | RqHGet _ _ _ | RqHDelete _ _
  | RqSRemove _ _ => True
  | RqRedis args _ _ => Forall (λ a, Z.of_nat (length a) < 2 ^ 31)%Z args
  | _ => False
  end.

(** How many list items a request may add. *)
Definition cost (rq : @request X Y) : nat :=
  match rq with RqRedis args _ _ => length args | _ => 0 end.

Lemma typed_request_keeps n rq m :
  typed_request rq → (Z.of_nat (n + cost rq) < 2 ^ 32)%Z → sound (n + cost rq) m →
  wp any (sequential cfg rq) (λ _ m', sound n m') m.
Proof.
  intros Hrq Hn Hm. assert (sound n m) as Hless by (eapply sound_le, Hm; lia).
  assert (∀ A (p : M A) (f : result A → @reply X), keeps n p →
    wp any (yielding f p) (λ _ m', sound n m') m) as Hkeeps.
  { intros A p f Hp. apply wp_prog_bind. eapply wp_mono; [by apply Hp|done]. }
  destruct rq; try done; cbn [sequential typed_request cost] in *;
    try (apply Hkeeps; first [ by apply keeps_Put | by apply keeps_PutStoredValue
      | apply keeps_shrinks; first
          [ apply shrinks_gets | apply shrinks_counted | apply shrinks_get
          | unfold Get; case_bool_decide; [apply shrinks_throw|apply shrinks_get] ] ]).
  apply wp_prog_bind. eapply wp_mono; [by apply redisDispatch_keeps|done].
Qed.

(** A client that adds at most [n] list items. *)
Fixpoint within {O} (n : nat) (sc : script (@request X Y) (@reply X) O) : Prop :=
  match sc with
  | Finish _ => True
  | Issue rq k => typed_request rq ∧ cost rq ≤ n ∧ ∀ rep, within (n - cost rq) (k rep)
  end.

Context {E : Type} `{!Engine E} `{!LocalEngine E} {O : Type}.
Implicit Types (clients : list (Env * script (@request X Y) (@reply X) O)) (w : World E).

Definition background clients : Prop := Forall (λ es, env_ctx es.1 = Background) clients.

Lemma serial_sound w clients w' clients' ns :
  rtc (serial_step (sequential cfg)) (w, clients) (w', clients') →
  background clients → Forall2 (λ es n, within n es.2) clients ns → healthy w →
  (Z.of_nat (sum_list ns) < 2 ^ 32)%Z → sound (sum_list ns) (records w) →
  sound 0 (records w').
Proof using GT MR LocalEngine0.
  intros Hsteps. remember (w, clients) as a eqn:Ea. remember (w', clients') as b eqn:Eb.
  revert w clients ns Ea. induction Hsteps as [a|a b c Hab _ IH]; intros w clients ns -> Hctx Hin Hw Hn Hm.
  { simplify_eq. eapply sound_le, Hm. lia. }
  inversion Hab as [i env rq k rep ? w1 ? Hi Hrun]; simplify_eq.
  destruct (Forall2_lookup_l _ _ _ _ _ Hin Hi) as (n & Hni & Hwithin). cbn in Hwithin.
  destruct Hwithin as (Hrq & Hcost & Hk).
  pose proof (proj1 (Forall_lookup _ _) Hctx i _ Hi) as Henv. cbn in Henv.
  set (ns' := <[i := n - cost rq]> ns).
  assert (sum_list ns = sum_list ns' + cost rq) as Hsum.
  { unfold ns'. rewrite <-(take_drop_middle ns i n Hni) at 1.
    rewrite insert_take_drop by by eapply lookup_lt_Some.
    rewrite !sum_list_with_app. cbn. lia. }
  destruct (wp_sound any env (sequential cfg rq) (λ _ m', sound (sum_list ns') m') w) as [Hm1 Hw1];
    [done|done|done| |].
  { apply typed_request_keeps; [done|lia|by rewrite <-Hsum]. }
  rewrite Hrun in Hm1, Hw1. cbn in Hm1, Hw1.
  apply (IH eq_refl w1 (<[i := (env, k rep)]> clients) ns'); [done| | |done|lia|done].
  - by apply Forall_insert.
  - apply Forall2_insert; [done|]. apply Hk.
Qed.
End requests.

(** ** Counters *)

Section counters.
Context {X Y : Type} (cfg : config X Y) {GT : GoText} {MR : MapRange}.
Context {E : Type} `{!Engine E} `{!LocalEngine E}.

(** [key] counts [c], for ever: it holds [c] or, for 0, nothing. *)
Definition counter m key (c : Z) : Prop :=
  ∀ t, (0 ≤ t ≤ maxInt64)%Z → counter_of (view m t key) = Some c ∧ expiry_view m t key = None.

Definition incr_request key (arg : bytes) : @request X Y :=
  RqRedis [⟦"INCRBY"⟧; key; arg] [] (newSession [] 1).

Lemma incr_dispatch key arg :
  redisDispatch [⟦"INCRBY"⟧; key; arg] [] (newSession [] 1)
  = (reply ← redisIncrementByCommand [⟦"INCRBY"⟧; key; arg] false;
     mret (reply, false, newSession [] 1)).
Proof. reflexivity. Qed.

Lemma wp_incr_request t key arg delta c m :
  (0 ≤ t ≤ maxInt64)%Z → short key → parse_int 64 arg = Some delta →
  redis_ok m → counter m key c → isInt64 (c + delta) = true →
  wp (at_time t) (sequential cfg (incr_request key arg))
    (λ _ m', redis_ok m' ∧ counter m' key (c + delta)) m.
Proof.
  intros Ht Hs Harg Hm Hc Hfit. apply wp_prog_bind. rewrite incr_dispatch. wp_step.
  unfold redisIncrementByCommand, redisParseInt, redisIncrement. rewrite Harg.
  eapply wp_mono; [by apply wp_redisIncrementBig|]. intros r m' Hout. unfold incr_outcome in Hout.
  destruct (Hc t Ht) as [Hcv He]. rewrite Hcv, Hfit, He in Hout. destruct Hout as [-> (Hm' & _ & Hview)].
  rd_steps. cbn [wp]. split; [done|]. intros t' Ht'. unfold expiry_view. rewrite (Hview t' Ht').
  rewrite bool_decide_eq_false_2 by (cbn; lia). cbn [counter_of env_payload env_expiresAt].
  by rewrite parse_format_big.
Qed.

(** A client is a time and the increments it makes, each an argument and its
    value. *)
Definition incr_script key (increments : list (bytes * Z)) (reps : list (@reply X))
    : script (@request X Y) (@reply X) (list reply) :=
  issue_all (incr_request key <$> increments.*1) reps.

Definition incr_client key (client : Z * list (bytes * Z)) : Env * script (@request X Y) (@reply X) (list reply) :=
  (clock_at client.1, incr_script key client.2 []).

Definition valid_client (client : Z * list (bytes * Z)) : Prop :=
  (0 ≤ client.1 ≤ maxInt64)%Z ∧ Forall (λ ad, parse_int 64 ad.1 = Some ad.2) client.2.

Definition zsum (l : list Z) : Z := foldr Z.add 0%Z l.

Definition total (clients : list (Z * list (bytes * Z))) : Z :=
  zsum (zsum ∘ fmap snd ∘ snd <$> clients).

(** What the counter can move by at most. *)
Definition reach (clients : list (Z * list (bytes * Z))) : Z :=
  zsum (zsum ∘ fmap (Z.abs ∘ snd) ∘ snd <$> clients).

Lemma zsum_insert (f : Z * list (bytes * Z) → Z) clients i x y :
  clients !! i = Some x →
  zsum (f <$> clients) = (zsum (f <$> <[i := y]> clients) + f x - f y)%Z.
Proof.
  revert i. induction clients as [|z clients IH]; intros [|i] Hi; [done|done|..].
  - injection Hi as ->. cbn. lia.
  - specialize (IH i Hi). change (<[S i := y]> (z :: clients)) with (z :: <[i := y]> clients).
    rewrite !fmap_cons. unfold zsum in *. cbn [foldr] in *. lia.
Qed.

Lemma zsum_nonneg (f : Z * list (bytes * Z) → Z) clients :
  (∀ x, (0 ≤ f x)%Z) → (0 ≤ zsum (f <$> clients))%Z.
Proof.
  intros Hf. induction clients as [|x clients IH]; [done|].
  rewrite fmap_cons. unfold zsum in *. cbn [foldr]. specialize (Hf x). lia.
Qed.

Lemma abs_sum_nonneg (l : list (bytes * Z)) : (0 ≤ zsum (Z.abs ∘ snd <$> l))%Z.
Proof.
  induction l as [|x l IH]; [done|]. rewrite fmap_cons. unfold zsum in *. cbn [foldr compose]. lia.
Qed.

Definition running key (client : Z * list (bytes * Z)) (es : Env * script (@request X Y) (@reply X) (list reply)) : Prop :=
  ∃ reps, es = (clock_at client.1, incr_script key client.2 reps).

Lemma serial_increments key (w w' : World E) ss ss' clients c :
  rtc (serial_step (sequential cfg)) (w, ss) (w', ss') →
  short key → healthy w → Forall2 (running key) clients ss → Forall valid_client clients →
  redis_ok (records w) → counter (records w) key c → (Z.abs c + reach clients ≤ maxInt64)%Z →
  ∃ clients' c', Forall2 (running key) clients' ss' ∧ redis_ok (records w')
    ∧ counter (records w') key c' ∧ (c' + total clients' = c + total clients)%Z.
Proof using GT MR LocalEngine0.
  intros Hsteps Hs. remember (w, ss) as a eqn:Ea. remember (w', ss') as b eqn:Eb.
  revert w ss clients c Ea.
  induction Hsteps as [a|a b d Hab _ IH]; intros w ss clients c -> Hw Hrun Hval Hm Hc Hfit.
  { simplify_eq. by exists clients, c. }
  inversion Hab as [i env rq k rep ? w1 ? Hi Hstep]; simplify_eq.
  destruct (Forall2_lookup_r _ _ _ _ _ Hrun Hi) as ([t increments] & Hci & reps & Heq).
  destruct increments as [|[arg delta] rest]; [by simplify_eq/=|]. injection Heq as -> -> ->.
  cbn [fst snd] in *. pose proof (proj1 (Forall_lookup _ _) Hval i _ Hci) as [Ht Hargs]. cbn in Ht, Hargs.
  apply Forall_cons in Hargs as [Harg Hargs]. cbn in Harg.
  set (clients1 := <[i := (t, rest)]> clients).
  assert (reach clients = reach clients1 + Z.abs delta)%Z as Hreach.
  { unfold reach, clients1. rewrite (zsum_insert _ clients i _ (t, rest) Hci). cbn. lia. }
  assert (total clients = total clients1 + delta)%Z as Htotal.
  { unfold total, clients1. rewrite (zsum_insert _ clients i _ (t, rest) Hci). cbn. lia. }
  assert (0 ≤ reach clients1)%Z as Hpos.
  { apply zsum_nonneg. intros x. cbn. apply abs_sum_nonneg. }
  destruct (wp_sound (at_time t) (clock_at t) (sequential cfg (incr_request key arg))
    (λ _ m', redis_ok m' ∧ counter m' key (c + delta)) w) as [[Hm1 Hc1] Hw1]; [done|done|done| |].
  { apply wp_incr_request; try done. unfold isInt64. apply bool_decide_eq_true.
    unfold minInt64, maxInt64 in *. lia. }
  rewrite Hstep in Hm1, Hc1, Hw1. cbn in Hm1, Hc1, Hw1.
  destruct (IH eq_refl w1 (<[i := _]> ss) clients1 (c + delta)%Z eq_refl)
    as (clients' & c' & Hrun' & Hm' & Hc' & Hsum); [done| | |done|done|lia|].
  - apply Forall2_insert; [done|]. by exists (reps ++ [rep]).
  - by apply Forall_insert.
  - exists clients', c'. split_and!; [done..|lia].
Qed.
End counters.

(** ** Theorems *)

Section theorems.
Context {X Y : Type} (cfg : config X Y) {GT : GoText} {MR : MapRange}.
Context {E : Type} `{!Engine E} `{!LocalEngine E}.

Lemma within_under {O} n (sc : script (@request X Y) (@reply X) O) :
  within n sc → all_under (keeps_to protocolMu) sc.
Proof.
  revert n. induction sc as [o|rq k IH]; intros n; cbn; [done|]. intros (Hrq & _ & Hk).
  split; [by destruct rq|]. intros rep. by eapply IH.
Qed.

(** C9: Each logical key keeps one representation under concurrency: clients that
    mix Redis commands with the scalar methods, reads and removals of the Go
    API share a handle. Whenever no mutex is held, at the end and between
    requests, every key has records of one kind, they decode, and no expiry
    record stands beside a scalar, whatever the clocks of the clients show. *)
Theorem concurrent_clients_keep_types {O} (w : World E) s
    (clients : list (Env * script (@request X Y) (@reply X) O)) ns :
  healthy w → background clients → Forall2 (λ es n, within n es.2) clients ns →
  (Z.of_nat (sum_list ns) < 2 ^ 32)%Z → sound (sum_list ns) (records w) →
  rtc step (initial w (issuing (answer cfg) clients)) s → sys_held s = ∅ →
  healthy (sys_world s) ∧ sound 0 (records (sys_world s)).
Proof using GT MR LocalEngine0.
  intros Hw Hctx Hin Hn Hm Hsteps Hheld.
  destruct (requests_serial_at_rest protocolMu (answer cfg) (sequential cfg) (keeps_to protocolMu)
    (answer_sectioned cfg protocolMu) (answer_erase cfg) w clients s) as [Hw' [ss Hss]]; try done.
  - unfold background in Hctx. rewrite Forall_lookup in Hctx |- *. intros i es Hi.
    destruct (Forall2_lookup_l _ _ _ _ _ Hin Hi) as (n & _ & Hwithin).
    split; [by eapply Hctx|]. by eapply within_under.
  - split; [done|]. by eapply serial_sound.
Qed.

(** C10: No lost updates: any number of clients increment one counter through the
    Redis server at the same time, each as often as it likes. If the counter
    cannot leave the 64-bit range, it ends at its first value plus all
    increments, in every interleaving. *)
Theorem concurrent_increments_exact (w w' : World E) key clients c outs :
  short key → healthy w → redis_ok (records w) → counter (records w) key c →
  Forall valid_client clients → (Z.abs c + reach clients ≤ maxInt64)%Z →
  rtc step (initial w (issuing (answer cfg) (incr_client key <$> clients)))
    (initial w' (answered outs)) →
  redis_ok (records w') ∧ counter (records w') key (c + total clients).
Proof using GT MR LocalEngine0.
  intros Hs Hw Hm Hc Hval Hfit Hsteps.
  assert (∀ l reps, all_under (keeps_to protocolMu) (incr_script (X := X) (Y := Y) key l reps)) as Hunder.
  { induction l as [|[arg delta] l IH]; intros reps; [done|]. split; [done|]. intros rep. apply IH. }
  apply (requests_serial protocolMu (answer cfg) (sequential cfg) (keeps_to protocolMu)
    (answer_sectioned cfg protocolMu) (answer_erase cfg)) in Hsteps; [|done|].
  2:{ apply Forall_fmap, Forall_forall. intros client _. split; [done|apply Hunder]. }
  destruct (serial_increments cfg key w w' _ _ clients c Hsteps Hs Hw) as (clients' & c' & Hrun & Hm' & Hc' & Hsum);
    [|done..|].
  { apply Forall2_fmap_r, Forall_Forall2_diag, Forall_forall. intros client _. by exists []. }
  split; [done|]. assert (total clients' = 0%Z) as Hzero; [|by replace (c + total clients)%Z with c' by lia].
  clear -Hrun. revert clients' Hrun. unfold finished.
  induction outs as [|eo outs IH]; intros clients' Hrun; rewrite ?fmap_cons in Hrun;
    inversion Hrun as [|[t l] ? clients1 ? [reps Heq] Hrun1]; subst; [done|].
  destruct l as [|[arg delta] l]; [|by inversion Heq].
  specialize (IH _ Hrun1). unfold total, zsum in *. rewrite fmap_cons. cbn [foldr]. by rewrite IH.
Qed.
End theorems.

Module CounterWitness.
Definition key : bytes := ⟦"n"⟧.
Definition clients : list (Z * list (bytes * Z)) :=
  [(5, [(⟦"40"⟧, 40); (⟦"-1"⟧, -1)]); (9, [(⟦"3"⟧, 3)])]%Z.
Definition start : system memoryDriverEngine (list (@reply Empty_set)) :=
  initial mem_world (issuing (@answer _ _ bytes_config ascii_GoText elements_MapRange)
                       (incr_client key <$> clients)).
End CounterWitness.

Lemma concurrent_clients_keep_types_witness :
  let s := scheduled Witness.schedule Witness.start in
  rtc step Witness.start s ∧ sys_held s = ∅ ∧ healthy (sys_world s) ∧ sound 0 (records (sys_world s)).
Proof.
  cbv zeta.
  assert (rtc step Witness.start (scheduled Witness.schedule Witness.start)) as Hsteps
    by (apply scheduled_steps; vm_compute; reflexivity).
  assert (sys_held (scheduled Witness.schedule Witness.start) = ∅) as Hheld
    by (apply (bool_decide_unpack _); vm_compute; exact I).
  split; [exact Hsteps|]. split; [exact Hheld|].
  apply (concurrent_clients_keep_types (GT := ascii_GoText) (MR := elements_MapRange) bytes_config
           mem_world _ Witness.clients [0; 3]);
    [exact mem_world_healthy|repeat constructor| |vm_compute; reflexivity
    |apply (sound_empty 3); vm_compute; reflexivity|exact Hsteps|exact Hheld].
  constructor; [|constructor; [|constructor]].
  - cbn. split_and!; [vm_compute; reflexivity|lia|]. intros _. split_and!; [exact I|lia|]. intros _. exact I.
  - cbn. split_and!; [repeat constructor; vm_compute; reflexivity|lia|]. intros _. exact I.
Defined.

Lemma concurrent_increments_exact_witness :
  let schedule := replicate 26 1 ++ replicate 36 0 in
  let w' := sys_world (scheduled schedule CounterWitness.start) in
  redis_ok (records w') ∧ counter (records w') CounterWitness.key 42.
Proof.
  cbv zeta. set (schedule := replicate 26 1 ++ replicate 36 0).
  set (reply_of n := RpRedis (X := Empty_set) (Ok (respIntegerValue n, false, newSession [] 1))).
  apply (concurrent_increments_exact (GT := ascii_GoText) (MR := elements_MapRange) bytes_config
           mem_world _ CounterWitness.key CounterWitness.clients 0
           [(clock_at 5, [reply_of 43; reply_of 42]%Z); (clock_at 9, [reply_of 3]%Z)]).
  - vm_compute. reflexivity.
  - exact mem_world_healthy.
  - apply (sound_empty 0). vm_compute. reflexivity.
  - intros t _. split; reflexivity.
  - repeat constructor; vm_compute; first [reflexivity|discriminate].
  - vm_compute. discriminate.
  - apply scheduled_final; vm_compute; reflexivity.
Defined.
