(* ===== verification/Races.v ===== *)
(** * Races between the two mutexes, and with methods that take none

    Serializability stops at the requests that keep to one mutex. Executions
    here, of two requests each, end as no serial execution does: a list push
    of the Go API against one of the Redis server, which hold different
    mutexes, and an unlocked [HSet] against a read that removes an expired
    field. *)

From S2P Require Import Prelude Errors Engine Effects MemDriver Locks Serial Envelope Keys ListCodec Text DriverName DB DBTheorems Collections Transport Resp RedisStorage RedisStrings RedisCollections Json Base64 Http PathMatch RedisServer Calls CallProps.

#[local] Existing Instance ascii_GoText.
#[local] Existing Instance elements_MapRange.

Abbreviation bytes_request := (@request Empty_set Empty_set).
Abbreviation bytes_reply := (@reply Empty_set).

(** One request of each of two clients, at one time. *)
Definition pair_of (env : Env) (rq1 rq2 : bytes_request)
    : list (Env * script bytes_request bytes_reply (list bytes_reply)) :=
  [(env, issue_all [rq1] []); (env, issue_all [rq2] [])].

Definition together (env : Env) (rq1 rq2 : bytes_request) (w : World memoryDriverEngine)
    : system memoryDriverEngine (list bytes_reply) :=
  initial w (issuing (answer bytes_config) (pair_of env rq1 rq2)).

Module Push.
Definition l : bytes := ⟦"l"⟧.
(** [RPUSH l a] and [db.RPush(ctx, l, b)]. *)
Definition redis : bytes_request := RqRedis [⟦"RPUSH"⟧; l; ⟦"a"⟧] [] (newSession [] 1).
Definition typed : bytes_request := RqPush l false [GoBytes ⟦"b"⟧].
Definition start := together (clock_at 5) redis typed mem_world.
End Push.

Module Field.
Definition h : bytes := ⟦"h"⟧.
Definition f : bytes := ⟦"f"⟧.
(** A field that has expired, and its record. *)
Definition expired : World memoryDriverEngine :=
  (run (clock_at 5) (HSet bytes_config h f (GoBytes ⟦"old"⟧) [Some (TTL 10)]) mem_world).2.
Definition record : bytes := namespacedKey kindHash h f.
Definition read : bytes_request := RqHGet h f (TargetBytes false).
Definition write : bytes_request := RqHSet h f (GoBytes ⟦"new"⟧) [].
Definition start := together (clock_at 100) read write expired.
End Field.

(** The items of a list record. *)
Definition list_at (w : World memoryDriverEngine) (name : bytes) : option (list bytes) :=
  data ← records w !! listKey name;
  match decodeList data with Ok items => Some items | _ => None end.

(** C32: Two list pushes that both succeed keep one value: [RPUSH] of the Redis
    server holds [protocolMu] and [RPush] of the Go API holds [collectionMu],
    so the two read-modify-write cycles on the one list record overlap. Both
    report length 1, the list ends with the Redis value alone, and no serial
    execution gives these replies. *)
Theorem list_pushes_lose_update :
  ∃ w' rep1 rep2,
    rtc step Push.start (initial w' (answered [(clock_at 5, [rep1]); (clock_at 5, [rep2])]))
    ∧ rep1 = RpRedis (Ok (respIntegerValue 1, false, newSession [] 1))
    ∧ rep2 = RpLength (Ok 1%Z)
    ∧ (length <$> list_at w' Push.l) = Some 1
    ∧ ∀ w'', ¬ rtc (serial_step (sequential bytes_config))
                 (mem_world, pair_of (clock_at 5) Push.redis Push.typed)
                 (w'', finished [(clock_at 5, [rep1]); (clock_at 5, [rep2])]).
Proof.
  set (schedule := replicate 21 0 ++ replicate 6 1 ++ replicate 5 0).
  exists (sys_world (scheduled schedule Push.start)). do 2 eexists. split_and!.
  - apply scheduled_final; [vm_compute; reflexivity..|].
    vm_compute (sys_go _). reflexivity.
  - reflexivity.
  - reflexivity.
  - vm_compute. reflexivity.
  - intros w'' [H|H]%serial_two; apply (f_equal fst) in H; vm_compute in H; discriminate H.
Qed.

(** A write that succeeds is lost: a read that finds a hash field expired
    removes it under [protocolMu], and [HSet] takes no mutex. When the write
    falls between the look and the removal, it reports success and the field
    is gone; in every serial execution with these replies the field is there. *)
Theorem expired_read_loses_write :
  ∃ w' rep1,
    rtc step Field.start
      (initial w' (answered [(clock_at 100, [rep1]); (clock_at 100, [RpUnit (Ok tt)])]))
    ∧ rep1 = RpValue (Err (ESentinel ErrNotFound))
    ∧ records w' !! Field.record = None
    ∧ ∀ w'', rtc (serial_step (sequential bytes_config))
                 (Field.expired, pair_of (clock_at 100) Field.read Field.write)
                 (w'', finished [(clock_at 100, [rep1]); (clock_at 100, [RpUnit (Ok tt)])]) →
             is_Some (records w'' !! Field.record).
Proof.
  set (schedule := [0; 0; 0; 0; 1; 1; 0; 0]).
  exists (sys_world (scheduled schedule Field.start)). eexists. split_and!.
  - apply scheduled_final; [vm_compute; reflexivity..|].
    vm_compute (sys_go _). reflexivity.
  - reflexivity.
  - apply (bool_decide_unpack _). vm_compute. exact I.
  - intros w'' [H|H]%serial_two.
    + apply (f_equal snd) in H. cbn [snd] in H. rewrite <-H.
      apply (bool_decide_unpack _). vm_compute. exact I.
    + apply (f_equal (snd ∘ fst)) in H. vm_compute in H. discriminate H.
Qed.
