(* ===== verification/RedisSessionProps.v ===== *)
(** * Properties of sessions and connections

    The password gate, the request loop of a connection and its framing. *)

From S2P Require Import Prelude Errors Engine Effects MemDriver Envelope Keys ListCodec Text DriverName DB DBTheorems Collections Transport Resp RedisStorage RedisStrings RedisCollections PathMatch RedisServer.

Section sessions.
Context {GT : GoText} {MR : MapRange}.
Implicit Types (args : list bytes) (password input : bytes) (session : redisSession).

(** ** The request loop *)

Lemma readRESP_shrinks ending input v rest :
  readRESP ending input = Ok (v, rest) → length rest < length input.
Proof.
  unfold readRESP. destruct input as [|c input]; [done|]. intros H.
  pose proof (readRESP_fuel_safe ending (S (length input)) c input ltac:(lia)) as Hs.
  cbn [length] in H. rewrite H in Hs. apply suffix_length in Hs. cbn. lia.
Qed.

Lemma readRESP_no_panic ending input : readRESP ending input ≠ Panic.
Proof.
  unfold readRESP. destruct input as [|c input]; [done|]. intros H.
  pose proof (readRESP_fuel_safe ending (S (length input)) c input ltac:(lia)) as Hs.
  cbn [length] in H. by rewrite H in Hs.
Qed.

Lemma commandArgs_no_panic items : commandArgs items ≠ Panic.
Proof.
  induction items as [|item items IH]; [done|]. cbn -[format_int].
  destruct (resp_null item); [done|]. case_match; [|done]. by destruct (commandArgs items).
Qed.

Lemma commandArgs_length items args : commandArgs items = Ok args → length args = length items.
Proof.
  revert args. induction items as [|item items IH]; intros args; cbn -[format_int]; [by intros [= <-]|].
  destruct (resp_null item); [done|]. case_match; [|done].
  destruct (commandArgs items) as [args'| |]; [|done..]. intros [= <-]. cbn. f_equal. by apply IH.
Qed.

Lemma redisCommandArgs_cases request :
  (∃ args, redisCommandArgs request = Ok args ∧ args ≠ [])
  ∨ ∃ e, redisCommandArgs request = Err e.
Proof.
  unfold redisCommandArgs. case_bool_decide as Hr; [by eauto|].
  destruct (commandArgs (resp_items request)) as [args|e|] eqn:Ha; [|by eauto|].
  - left. exists args. split; [done|]. intros ->. apply commandArgs_length in Ha.
    apply Hr. auto.
  - by apply commandArgs_no_panic in Ha.
Qed.

(** Programs that agree step by step. *)
Definition same_runs {A} (p q : prog A) : Prop :=
  ∀ (E : Type) (HE : Engine E) env (w : World E), run env p w = run env q w.

Lemma same_runs_bind {A B} (p : M A) (f g : A → M B) :
  (∀ a, same_runs (f a) (g a)) → same_runs (p ≫= f) (p ≫= g).
Proof.
  intros H E HE env w. unfold mbind, M_bind. rewrite !run_prog_bind.
  destruct (run env p w) as [[a|e|] w']; [apply H|done..].
Qed.

Lemma same_runs_bind_l {A B} (p q : M A) (f : A → M B) :
  same_runs p q → same_runs (p ≫= f) (q ≫= f).
Proof. intros H E HE env w. unfold mbind, M_bind. by rewrite !run_prog_bind, H. Qed.

Lemma serve_loop_fuel ending password fuel fuel' session input :
  length input < fuel → length input < fuel' →
  same_runs (serve_loop ending fuel password session input)
            (serve_loop ending fuel' password session input).
Proof.
  revert fuel' session input.
  induction fuel as [|fuel IH]; intros [|fuel'] session input Hf Hf'; [lia..|].
  cbn [serve_loop]. destruct (readRESP ending input) as [[request rest]| |] eqn:Hr; [|done..].
  pose proof (readRESP_shrinks ending input request rest Hr).
  assert (∀ session, same_runs (serve_loop ending fuel password session rest)
                               (serve_loop ending fuel' password session rest)) as Hrec
    by (intros; apply IH; lia).
  destruct (redisCommandArgs request) as [args|e|]; [..|done].
  - apply same_runs_bind. intros [[reply quit] session'].
    destruct (writeRESP reply) as [out [e|]]; [done|]. destruct quit; [done|].
    by apply same_runs_bind_l.
  - destruct (writeRESP _) as [out [e'|]]; [done|]. by apply same_runs_bind_l.
Qed.

(** ** The password gate *)

(** The password is an argument of an [AUTH] or [HELLO] request. *)
Definition presents password args : Prop :=
  match args with
  | [] => False
  | arg :: rest => (strings_ToUpper arg = ⟦"AUTH"⟧ ∨ strings_ToUpper arg = ⟦"HELLO"⟧)
                   ∧ password ∈ rest
  end.

(** The requests of an input, as argument lists. *)
Fixpoint requests (ending : GoError) (fuel : nat) input : list (list bytes) :=
  match fuel with
  | O => []
  | S fuel =>
      match readRESP ending input with
      | Ok (request, input) =>
          match redisCommandArgs request with
          | Ok args => args :: requests ending fuel input
          | _ => requests ending fuel input
          end
      | _ => []
      end
  end.

Lemma helloOptions_unauthed password args session :
  authed session = false → password ∉ args →
  authed (helloOptions password args session).2 = false.
Proof.
  revert session. induction args as [args IH] using (induction_ltof1 _ length).
  intros session Hs Hno. destruct args as [|arg rest]; [done|]. cbn -[str].
  case_bool_decide; [|case_bool_decide; [|done]].
  - destruct rest as [|user [|supplied rest]]; [done..|].
    rewrite bool_decide_eq_true_2 by (right; set_solver). done.
  - destruct rest as [|name rest]; [done|]. apply IH; [unfold ltof; cbn; lia|done|set_solver].
Qed.

Lemma redisHello_unauthed password cmd args session :
  password ≠ [] → authed session = false → password ∉ args →
  authed (redisHello (cmd :: args) password session).2 = false.
Proof.
  intros Hp Hs Hno. unfold redisHello. case_bool_decide; [done|].
  pose proof (helloOptions_unauthed password (tail args) session Hs) as Ho.
  destruct (helloOptions _ _ _) as [[reply|[]] session'] eqn:E; cbn [snd] in *.
  - apply Ho. destruct args; set_solver.
  - rewrite bool_decide_eq_true_2; [|split; [done|]]; apply Ho; destruct args; set_solver.
Qed.

Lemma redisAuth_unauthed password cmd args session :
  authed session = false → password ∉ args →
  authed (redisAuth (cmd :: args) password session).2 = false.
Proof.
  intros Hs Hno. unfold redisAuth. case_bool_decide; [done|].
  destruct args as [|a [|b [|c args]]]; try done;
    (rewrite bool_decide_eq_false_2 by set_solver); done.
Qed.

(** A request that does not present the password is answered without any
    store operation, and the session stays outside. *)
Lemma dispatch_inert password args session :
  password ≠ [] → authed session = false → args ≠ [] → ¬ presents password args →
  ∃ reply quit session', redisDispatch args password session = mret (reply, quit, session')
    ∧ authed session' = false.
Proof.
  intros Hp Hs Hne Hno. destruct args as [|arg rest]; [done|]. unfold redisDispatch.
  case_bool_decide as Hh; [|case_bool_decide as Ha; [|case_bool_decide; [by eauto|]]].
  - pose proof (redisHello_unauthed password arg rest session Hp Hs) as H.
    destruct (redisHello _ _ _) as [reply session']. exists reply, false, session'.
    split; [done|]. apply H. intros Hin. by apply Hno; split; [right|].
  - pose proof (redisAuth_unauthed password arg rest session Hs) as H.
    destruct (redisAuth _ _ _) as [reply session']. exists reply, false, session'.
    split; [done|]. apply H. intros Hin. by apply Hno; split; [left|].
  - rewrite bool_decide_eq_true_2 by done. eauto.
Qed.

Lemma serve_loop_inert ending password fuel session input :
  password ≠ [] → authed session = false →
  Forall (λ args, ¬ presents password args) (requests ending fuel input) →
  ∃ outs, same_runs (serve_loop ending fuel password session input) (Ret (Ok outs)).
Proof.
  intros Hp. revert session input. induction fuel as [|fuel IH]; intros session input Hs Hall.
  { by exists []. }
  cbn [serve_loop requests] in *.
  destruct (readRESP ending input) as [[request rest]|e|] eqn:Hr; [|by exists []|].
  2:{ by apply readRESP_no_panic in Hr. }
  destruct (redisCommandArgs_cases request) as [(args & Ha & Hne)|[e Ha]]; rewrite Ha in *.
  - apply Forall_cons in Hall as [Hno Hall].
    destruct (dispatch_inert password args session Hp Hs Hne Hno) as (reply & quit & s' & -> & Hs').
    cbn [mbind M_bind prog_bind mret M_ret].
    destruct (writeRESP reply) as [out [e|]]; [by exists []|]. destruct quit; [by exists [out]|].
    destruct (IH s' rest Hs' Hall) as [outs Houts]. exists (out :: outs).
    intros E HE env w. unfold mbind, M_bind. by rewrite run_prog_bind, Houts.
  - destruct (writeRESP _) as [out [e'|]]; [by exists []|].
    destruct (IH session rest Hs Hall) as [outs Houts]. exists (out :: outs).
    intros E HE env w. unfold mbind, M_bind. by rewrite run_prog_bind, Houts.
Qed.

(** ** Requests as clients send them *)

Definition request_of args : respValue := respArrayValues (respBulkBytes <$> args).

Lemma commandArgs_bulk args : commandArgs (sent <$> (respBulkBytes <$> args)) = Ok args.
Proof.
  induction args as [|arg args IH]; [done|]. rewrite !fmap_cons. cbn [commandArgs].
  rewrite IH. by rewrite bool_decide_eq_true_2 by auto.
Qed.

Lemma redisCommandArgs_request args :
  args ≠ [] → redisCommandArgs (sent (request_of args)) = Ok args.
Proof.
  intros Hne. unfold redisCommandArgs. rewrite bool_decide_eq_false_2.
  - unfold request_of. cbn [sent respArrayValues resp_items]. apply commandArgs_bulk.
  - destruct args; [done|]. cbn. naive_solver.
Qed.

Lemma sendable_request args :
  (Z.of_nat (length args) ≤ maxRESPArgs)%Z →
  Forall (λ arg, Z.of_nat (length arg) ≤ maxRESPBulk)%Z args →
  sendable (request_of args) = true.
Proof.
  intros Hl Hall. unfold request_of, respArrayValues. cbn [sendable].
  rewrite length_fmap. rewrite (bool_decide_eq_true_2 (_ ≤ maxRESPArgs)%Z) by done. cbn [andb].
  change (true && forallb (λ item, negb (resp_null item) && sendable item) (respBulkBytes <$> args) = true).
  cbn [andb]. apply forallb_forall. intros item Hin%list_elem_of_In.
  apply list_elem_of_fmap in Hin as (arg & -> & Hin). rewrite Forall_forall in Hall.
  change (bool_decide (Z.of_nat (length arg) ≤ maxRESPBulk)%Z = true).
  by apply bool_decide_eq_true, Hall.
Qed.
End sessions.

(** ** Properties *)

(** C4: On a server with a password, a connection that never sends that password
    as an argument of [AUTH] or [HELLO] is answered without a single
    operation on the store, over any engine and whatever else it sends: the
    world is unchanged and no request panics. *)
Theorem password_gate {GT : GoText} {MR : MapRange} ending password session input :
  password ≠ [] → authed session = false →
  Forall (λ args, ¬ presents password args) (requests ending (S (length input)) input) →
  ∃ outs, ∀ (E : Type) (HE : Engine E) env (w : World E),
    run env (serveRedisConnection ending password session input) w = (Ok outs, w).
Proof.
  intros Hp Hs Hall.
  destruct (serve_loop_inert ending password _ session input Hp Hs Hall) as [outs H].
  exists outs. intros E HE env w. apply H.
Qed.

Lemma password_gate_witness :
  let input := ⟦"AUTH guess"⟧ ++ CRLF ++ ⟦"SET k v"⟧ ++ CRLF ++ ⟦"HELLO 3"⟧ ++ CRLF in
  ∃ outs, ∀ (E : Type) (HE : Engine E) env (w : World E),
    run env (serveRedisConnection (GT := ascii_GoText) (MR := elements_MapRange)
      (ESentinel ioEOF) ⟦"secret"⟧ (newSession ⟦"secret"⟧ 1) input) w = (Ok outs, w).
Proof.
  intros input. apply (@password_gate ascii_GoText elements_MapRange);
    [discriminate|reflexivity|].
  vm_compute. repeat (apply List.Forall_cons || apply List.Forall_nil).
  - intros [_ Hin]. apply list_elem_of_In in Hin. destruct Hin as [Hin|[]]. discriminate Hin.
  - intros [_ Hin]. apply list_elem_of_In in Hin. 
    destruct Hin as [Hin|[Hin|[]]]; discriminate Hin.
  - intros [_ Hin]. apply list_elem_of_In in Hin. destruct Hin as [Hin|[]]. discriminate Hin.
Defined.

(** The request loop ends by itself: with more turns than the input has
    bytes, further turns change nothing. *)
Theorem serve_terminates {GT : GoText} {MR : MapRange} ending password session input fuel :
  length input < fuel →
  ∀ (E : Type) (HE : Engine E) env (w : World E),
    run env (serve_loop ending fuel password session input) w
    = run env (serveRedisConnection ending password session input) w.
Proof. intros Hf E HE env w. apply serve_loop_fuel; [done|lia]. Qed.

Lemma serve_terminates_witness :
  length (⟦"PING"⟧ ++ CRLF) < 40
  ∧ ∀ (E : Type) (HE : Engine E) env (w : World E),
      run env (serve_loop (GT := ascii_GoText) (MR := elements_MapRange)
        (ESentinel ioEOF) 40 [] (newSession [] 1) (⟦"PING"⟧ ++ CRLF)) w
      = run env (serveRedisConnection (GT := ascii_GoText) (MR := elements_MapRange)
        (ESentinel ioEOF) [] (newSession [] 1) (⟦"PING"⟧ ++ CRLF)) w.
Proof.
  split; [apply Nat.ltb_lt; reflexivity|].
  apply (@serve_terminates ascii_GoText elements_MapRange); apply Nat.ltb_lt; reflexivity.
Defined.

(** C16: A request sent as an array of bulk strings reaches the dispatcher with
    exactly its arguments, whatever bytes they hold; the reply is written,
    and the loop goes on with the bytes that follow the request, so pipelined
    requests are served one by one in order. *)
Theorem pipelined_requests {GT : GoText} {MR : MapRange} ending password session args input :
  args ≠ [] → (Z.of_nat (length args) ≤ maxRESPArgs)%Z →
  Forall (λ arg, Z.of_nat (length arg) ≤ maxRESPBulk)%Z args →
  ∃ request, writeRESP (request_of args) = (request, None)
    ∧ ∀ (E : Type) (HE : Engine E) env (w : World E),
        run env (serveRedisConnection ending password session (request ++ input)) w
        = run env ('(reply, quit, session) ← redisDispatch args password session;
                   match writeRESP reply with
                   | (_, Some _) => mret []
                   | (out, None) =>
                       if quit : bool then mret [out]
                       else outs ← serveRedisConnection ending password session input;
                            mret (out :: outs)
                   end) w.
Proof.
  intros Hne Hl Hall.
  destruct (write_read ending (request_of args) (sendable_request args Hl Hall))
    as (request & Hw & Hr).
  exists request. split; [done|]. intros E HE env w.
  assert (readRESP ending (request ++ input) = Ok (sent (request_of args), input)) as Hread.
  { apply Hr. rewrite length_app. lia. }
  pose proof (readRESP_shrinks _ _ _ _ Hread) as Hlen.
  unfold serveRedisConnection at 1. cbn [serve_loop]. rewrite Hread, redisCommandArgs_request by done.
  apply same_runs_bind. intros [[reply quit] session']. destruct (writeRESP reply) as [out [e|]]; [done|].
  destruct quit; [done|]. apply same_runs_bind_l, serve_loop_fuel; lia.
Qed.

Lemma pipelined_requests_witness :
  let serve := serveRedisConnection (GT := ascii_GoText) (MR := elements_MapRange)
                 (ESentinel ioEOF) [] in
  ∃ request, writeRESP (GT := ascii_GoText) (request_of [⟦"GET"⟧; CRLF]) = (request, None)
    ∧ ∀ (E : Type) (HE : Engine E) env (w : World E),
        run env (serve (newSession [] 1) (request ++ ⟦"QUIT"⟧ ++ CRLF)) w
        = run env ('(reply, quit, session) ←
                     redisDispatch (GT := ascii_GoText) (MR := elements_MapRange)
                       [⟦"GET"⟧; CRLF] [] (newSession [] 1);
                   match writeRESP (GT := ascii_GoText) reply with
                   | (_, Some _) => mret []
                   | (out, None) =>
                       if quit : bool then mret [out]
                       else outs ← serve session (⟦"QUIT"⟧ ++ CRLF); mret (out :: outs)
                   end) w.
Proof.
  intros serve. apply (@pipelined_requests ascii_GoText elements_MapRange);
    [discriminate|vm_compute; discriminate|].
  repeat (apply List.Forall_cons || apply List.Forall_nil); vm_compute; discriminate.
Defined.
