(* ===== verification/RedisLifecycle.v ===== *)
(** * The life of a Redis server ([extensions/redis/redis_server.go])

    The accept loop, the goroutine of each connection and [Close] run
    concurrently. Each is a thread with a program point; [step] executes one
    atomic action of one thread: a critical section of [mu], a send or
    receive on the semaphore channel, an operation on the wait group, the
    listener or a socket. [serveRedisConnection] is the program point
    [HServing]: what it does to the store is [serve_loop], and [connection]
    where clients share it. [redis_Serve] and [ServeRemote] start a server. *)

From S2P Require Import Prelude Errors Engine Effects Envelope Keys Text DriverName DB DBTheorems MemDriver Transport Resp Modules RedisServer.

Notation conn := nat (only parsing).

(** ** The module *)

Definition redis_Manifest : ModuleManifest :=
  mkManifest ModuleManifestVersion ⟦"redis"⟧ ModuleKindTransport [] ⟦"v0.1.0"⟧ ModuleABIVersion []
    [⟦"redis-resp2"⟧; ⟦"redis-server"⟧] [] [] ⟦"Apache-2.0"⟧.

(** The [init] function of the package. *)
Definition redis_init {GT : GoText} (linked : gmap bytes ModuleManifest)
    : result (gmap bytes ModuleManifest) :=
  MustRegisterLinkedModule redis_Manifest linked.

(** Linking the package cannot panic unless another module has its name. *)
Lemma redis_init_links {GT : GoText} linked :
  linked !! ⟦"redis"⟧ = None → redis_init linked = Ok (<[⟦"redis"⟧ := redis_Manifest]> linked).
Proof.
  intros Hl. unfold redis_init, MustRegisterLinkedModule, RegisterLinkedModule.
  change (Validate _) with (Ok tt). cbn -[lookup insert].
  rewrite bool_decide_eq_false_2; [reflexivity|]. by rewrite <- eq_None_not_Some.
Qed.

(** ** Threads *)

Inductive acceptPoint :=
  | ALoop                  (** at [listener.Accept] *)
  | AAccepted (c : conn)   (** before the semaphore *)
  | AAcquired (c : conn)   (** before [register] *)
  | ARegistered (c : conn) (** before the [go] statement *)
  | AStopped.

(** A connection's goroutine: serving, then its deferred calls, the last one
    deferred first. *)
Inductive handlerPoint :=
  | HServing (session : redisSession)
  | HRelease               (** [<-server.sem] *)
  | HClose                 (** [conn.Close] *)
  | HUnregister            (** [server.unregister] *)
  | HDone.                 (** [server.wg.Done] *)

(** The body that [once.Do] runs. *)
Inductive closePoint :=
  | CIdle
  | CLock                      (** [done] is closed *)
  | CListener (l : list conn)  (** [closed] is set, [l] is the snapshot *)
  | CConns (l : list conn)     (** the listener is closed, [l] is left *)
  | CWait                      (** at [wg.Wait] *)
  | CDone.

Record Server := mkServer {
  srv_done : bool;
  srv_listening : bool;
  srv_wg : nat;
  srv_closed : bool;
  srv_conns : gset conn;
  srv_sem : nat;
  srv_id : Z;
  srv_sockets : gset conn;  (** accepted and not closed by the server *)
  srv_accept : acceptPoint;
  srv_handlers : gmap conn handlerPoint;
  srv_closing : closePoint
}.

Record Options := mkOptions { ListenAddress : bytes; Password : bytes; MaxClients : Z }.

Definition started : Server :=
  {| srv_done := false; srv_listening := true; srv_wg := 1; srv_closed := false;
     srv_conns := ∅; srv_sem := 0; srv_id := 0; srv_sockets := ∅;
     srv_accept := ALoop; srv_handlers := ∅; srv_closing := CIdle |}.

(** The server [listen] returns; [tcp] says what [net.Listen] answers for an
    address. *)
Definition opened : Server :=
  {| srv_done := false; srv_listening := true; srv_wg := 0; srv_closed := false;
     srv_conns := ∅; srv_sem := 0; srv_id := 0; srv_sockets := ∅;
     srv_accept := AStopped; srv_handlers := ∅; srv_closing := CIdle |}.

Definition listen (tcp : bytes → option GoError) (options : Options) : result Server :=
  let address := if bool_decide (ListenAddress options = []) then ⟦"127.0.0.1:6379"⟧
                 else ListenAddress options in
  if bool_decide (MaxClients options < 0)%Z
  then Err (errorf ErrInvalidArgument ⟦"max clients cannot be negative"⟧)
  else match tcp address with
       | Some err => Err (wrapf ⟦"kvlite: start Redis endpoint: "⟧ err)
       | None => Ok opened
       end.

(** [server.wg.Add(1); go server.acceptLoop(...)]. *)
Definition go_acceptLoop (s : Server) : Server :=
  mkServer (srv_done s) (srv_listening s) (S (srv_wg s)) (srv_closed s) (srv_conns s) (srv_sem s)
    (srv_id s) (srv_sockets s) ALoop (srv_handlers s) (srv_closing s).

(** [Serve]; a nil database is [None]. *)
Definition redis_Serve {E} (tcp : bytes → option GoError) (db : option (DB E)) (options : Options)
    : result Server :=
  match db with
  | None => Err (errorf ErrInvalidArgument ⟦"database is required"⟧)
  | Some db =>
      if bool_decide (Backend db = BackendRemote)
      then Err (errorf ErrInvalidArgument ⟦"a remote database cannot own a Redis server"⟧)
      else server ← listen tcp options; Ok (go_acceptLoop server)
  end.

Definition ServeRemote {E} (tcp : bytes → option GoError) (db : option (DB E)) (options : Options)
    : result Server :=
  match db with
  | None => Err (errorf ErrInvalidArgument ⟦"database is required"⟧)
  | Some db =>
      if negb (IsRemote db)
      then Err (errorf ErrInvalidArgument
                  ⟦"ServeRemote requires a remote database from Connect (use Serve for an embedded owner)"⟧)
      else server ← listen tcp options; Ok (go_acceptLoop server)
  end.

(** ** Steps *)

Inductive label :=
  | LAccept (c : conn)    (** [Accept] returns a new connection *)
  | LAcceptRetry          (** [Accept] fails with a temporary error *)
  | LAcceptStop           (** [Accept] fails otherwise *)
  | LAcquire | LRegister | LSpawn
  | LServed (c : conn)    (** [serveRedisConnection] returns *)
  | LDeferred (c : conn)
  | LClose                (** the first call of [Close] *)
  | LClosing.

Section steps.
Context (options : Options).

(** [MaxClients] of zero leaves the semaphore nil. *)
Definition limited : bool := bool_decide (0 < MaxClients options)%Z.
Definition limit : nat := Z.to_nat (MaxClients options).

Definition set_accept (s : Server) (p : acceptPoint) : Server :=
  mkServer (srv_done s) (srv_listening s) (srv_wg s) (srv_closed s) (srv_conns s) (srv_sem s)
    (srv_id s) (srv_sockets s) p (srv_handlers s) (srv_closing s).

Definition set_wg (s : Server) (n : nat) : Server :=
  mkServer (srv_done s) (srv_listening s) n (srv_closed s) (srv_conns s) (srv_sem s)
    (srv_id s) (srv_sockets s) (srv_accept s) (srv_handlers s) (srv_closing s).

Definition set_sem (s : Server) (n : nat) : Server :=
  mkServer (srv_done s) (srv_listening s) (srv_wg s) (srv_closed s) (srv_conns s) n
    (srv_id s) (srv_sockets s) (srv_accept s) (srv_handlers s) (srv_closing s).

Definition set_sockets (s : Server) (x : gset conn) : Server :=
  mkServer (srv_done s) (srv_listening s) (srv_wg s) (srv_closed s) (srv_conns s) (srv_sem s)
    (srv_id s) x (srv_accept s) (srv_handlers s) (srv_closing s).

Definition set_conns (s : Server) (x : gset conn) : Server :=
  mkServer (srv_done s) (srv_listening s) (srv_wg s) (srv_closed s) x (srv_sem s)
    (srv_id s) (srv_sockets s) (srv_accept s) (srv_handlers s) (srv_closing s).

Definition set_handlers (s : Server) (h : gmap conn handlerPoint) : Server :=
  mkServer (srv_done s) (srv_listening s) (srv_wg s) (srv_closed s) (srv_conns s) (srv_sem s)
    (srv_id s) (srv_sockets s) (srv_accept s) h (srv_closing s).

Definition set_closing (s : Server) (p : closePoint) : Server :=
  mkServer (srv_done s) (srv_listening s) (srv_wg s) (srv_closed s) (srv_conns s) (srv_sem s)
    (srv_id s) (srv_sockets s) (srv_accept s) (srv_handlers s) p.

(** [defer server.wg.Done()] of the accept loop. *)
Definition stop_accepting (s : Server) : Server := set_wg (set_accept s AStopped) (srv_wg s - 1).

Definition register (c : conn) (s : Server) : bool * Server :=
  if srv_closed s then (false, s) else (true, set_conns s ({[c]} ∪ srv_conns s)).

Definition unregister (c : conn) (s : Server) : Server := set_conns s (srv_conns s ∖ {[c]}).

Definition acceptLoop (l : label) (s : Server) : option Server :=
  match srv_accept s, l with
  | ALoop, LAccept c =>
      if srv_listening s && bool_decide (c ∉ srv_sockets s ∧ srv_handlers s !! c = None
                                         ∧ c ∉ srv_conns s)
      then Some (set_accept (set_sockets s ({[c]} ∪ srv_sockets s)) (AAccepted c))
      else None
  | ALoop, LAcceptRetry => if srv_done s then None else Some s
  | ALoop, LAcceptStop => Some (stop_accepting s)
  | AAccepted c, LAcquire =>
      if limited then
        if bool_decide (srv_sem s < limit)
        then Some (set_accept (set_sem s (S (srv_sem s))) (AAcquired c))
        else Some (set_accept (set_sockets s (srv_sockets s ∖ {[c]})) ALoop)
      else Some (set_accept s (AAcquired c))
  | AAcquired c, LRegister =>
      match register c s with
      | (true, s) => Some (set_accept s (ARegistered c))
      | (false, s) =>
          let s := if limited then set_sem s (srv_sem s - 1) else s in
          Some (stop_accepting (set_sockets s (srv_sockets s ∖ {[c]})))
      end
  | ARegistered c, LSpawn =>
      let id := ((srv_id s + 1) mod 2 ^ 64)%Z in
      Some {| srv_done := srv_done s; srv_listening := srv_listening s;
              srv_wg := S (srv_wg s); srv_closed := srv_closed s; srv_conns := srv_conns s;
              srv_sem := srv_sem s; srv_id := id; srv_sockets := srv_sockets s;
              srv_accept := ALoop;
              srv_handlers := <[c := HServing (newSession (Password options) id)]> (srv_handlers s);
              srv_closing := srv_closing s |}
  | _, _ => None
  end.

(** The goroutine of connection [c]. *)
Definition handle (c : conn) (l : label) (s : Server) : option Server :=
  let goto p s := set_handlers s (<[c := p]> (srv_handlers s)) in
  match srv_handlers s !! c, l with
  | Some (HServing _), LServed _ => Some (goto (if limited then HRelease else HClose) s)
  | Some HRelease, LDeferred _ => Some (goto HClose (set_sem s (srv_sem s - 1)))
  | Some HClose, LDeferred _ => Some (goto HUnregister (set_sockets s (srv_sockets s ∖ {[c]})))
  | Some HUnregister, LDeferred _ => Some (goto HDone (unregister c s))
  | Some HDone, LDeferred _ =>
      Some (set_wg (set_handlers s (delete c (srv_handlers s))) (srv_wg s - 1))
  | _, _ => None
  end.

(** [Close]: later calls wait in [once.Do] and return. *)
Definition Close (l : label) (s : Server) : option Server :=
  match srv_closing s, l with
  | CIdle, LClose =>
      Some (mkServer true (srv_listening s) (srv_wg s) (srv_closed s) (srv_conns s) (srv_sem s)
              (srv_id s) (srv_sockets s) (srv_accept s) (srv_handlers s) CLock)
  | CLock, LClosing =>
      Some (mkServer (srv_done s) (srv_listening s) (srv_wg s) true (srv_conns s) (srv_sem s)
              (srv_id s) (srv_sockets s) (srv_accept s) (srv_handlers s)
              (CListener (elements (srv_conns s))))
  | CListener l, LClosing =>
      Some (mkServer (srv_done s) false (srv_wg s) (srv_closed s) (srv_conns s) (srv_sem s)
              (srv_id s) (srv_sockets s) (srv_accept s) (srv_handlers s) (CConns l))
  | CConns (c :: l), LClosing =>
      Some (set_closing (set_sockets s (srv_sockets s ∖ {[c]})) (CConns l))
  | CConns [], LClosing => Some (set_closing s CWait)
  | CWait, LClosing => if bool_decide (srv_wg s = 0) then Some (set_closing s CDone) else None
  | _, _ => None
  end.

Definition step (l : label) (s : Server) : option Server :=
  match l with
  | LAccept _ | LAcceptRetry | LAcceptStop | LAcquire | LRegister | LSpawn => acceptLoop l s
  | LServed c | LDeferred c => handle c l s
  | LClose | LClosing => Close l s
  end.

Inductive reachable : Server → Prop :=
  | reachable_start tcp s : listen tcp options = Ok s → reachable (go_acceptLoop s)
  | reachable_step s l s' : reachable s → step l s = Some s' → reachable s'.

End steps.

(** ** Counting threads *)

Definition total (f : handlerPoint → nat) (h : gmap conn handlerPoint) : nat :=
  map_fold (λ _ p n, f p + n) 0 h.

Lemma total_empty f : total f ∅ = 0.
Proof. apply map_fold_empty. Qed.

Lemma total_insert f h c p : h !! c = None → total f (<[c := p]> h) = f p + total f h.
Proof. intros H. apply (map_fold_insert_L (λ _ p n, f p + n)); [lia|done]. Qed.

Lemma total_delete f h c p : h !! c = Some p → total f h = f p + total f (delete c h).
Proof.
  intros H. rewrite <-(insert_delete_id h c p H) at 1. apply total_insert, lookup_delete_eq.
Qed.

Lemma total_update f h c p q :
  h !! c = Some p → total f (<[c := q]> h) + f p = total f h + f q.
Proof.
  intros H. rewrite <-insert_delete_eq, total_insert by apply lookup_delete_eq.
  rewrite (total_delete f h c p H). lia.
Qed.

Lemma total_zero f h c p : total f h = 0 → h !! c = Some p → f p = 0.
Proof. intros H0 H. rewrite (total_delete f h c p H) in H0. lia. Qed.

(** Goroutines that hold a slot of the semaphore. *)
Definition holds (p : handlerPoint) : nat :=
  match p with HServing _ | HRelease => 1 | _ => 0 end.

Definition serving (p : handlerPoint) : nat := match p with HServing _ => 1 | _ => 0 end.

Definition alive_one (p : handlerPoint) : nat := 1.

Lemma total_le f g h : (∀ p, f p ≤ g p) → total f h ≤ total g h.
Proof.
  intros Hle. induction h as [|c p h Hc IH] using map_ind; [by rewrite !total_empty|].
  rewrite !total_insert by done. specialize (Hle p). lia.
Qed.

Lemma total_alive_empty h : total alive_one h = 0 → h = ∅.
Proof.
  intros H. apply map_empty. intros c. apply eq_None_not_Some. intros [p Hp].
  by apply (total_zero _ _ _ _ H) in Hp.
Qed.

Definition accept_holds (a : acceptPoint) : nat :=
  match a with AAcquired _ | ARegistered _ => 1 | _ => 0 end.

Definition accept_alive (a : acceptPoint) : nat := match a with AStopped => 0 | _ => 1 end.

(** ** The invariant *)

(** The connection the accept loop works on. *)
Definition pending (a : acceptPoint) : option conn :=
  match a with AAccepted c | AAcquired c | ARegistered c => Some c | _ => None end.

(** Connections the server is responsible for: registered ones, up to their
    [unregister]. *)
Definition registered (s : Server) (c : conn) : Prop :=
  srv_accept s = ARegistered c
  ∨ ∃ p, srv_handlers s !! c = Some p ∧ p ≠ HDone.

(** How far [Close] has come: the connections it still has to close are in
    its list. *)
Definition closing_ok (s : Server) : Prop :=
  match srv_closing s with
  | CIdle => srv_closed s = false ∧ srv_listening s = true
  | CLock => srv_done s = true ∧ srv_closed s = false ∧ srv_listening s = true
  | CListener l => srv_done s = true ∧ srv_closed s = true ∧ srv_listening s = true
      ∧ ∀ c, c ∈ srv_conns s → c ∈ srv_sockets s → c ∈ l
  | CConns l => srv_done s = true ∧ srv_closed s = true ∧ srv_listening s = false
      ∧ ∀ c, c ∈ srv_conns s → c ∈ srv_sockets s → c ∈ l
  | CWait => srv_done s = true ∧ srv_closed s = true ∧ srv_listening s = false
      ∧ ∀ c, c ∈ srv_conns s → c ∉ srv_sockets s
  | CDone => srv_done s = true ∧ srv_closed s = true ∧ srv_listening s = false
      ∧ srv_wg s = 0
  end.

(** The other threads do not disturb [Close], as long as one is left. *)
Lemma closing_ok_step s s' :
  closing_ok s → srv_wg s ≠ 0 →
  srv_closing s' = srv_closing s → srv_done s' = srv_done s →
  srv_closed s' = srv_closed s → srv_listening s' = srv_listening s →
  (srv_closed s = true → ∀ c, c ∈ srv_conns s' → c ∈ srv_sockets s' →
     c ∈ srv_conns s ∧ c ∈ srv_sockets s) →
  closing_ok s'.
Proof.
  unfold closing_ok. intros H Hwg -> -> -> -> Hsub.
  destruct (srv_closing s); naive_solver.
Qed.

Record good (options : Options) (s : Server) : Prop := {
  good_sem : limited options = true → 
    srv_sem s = accept_holds (srv_accept s) + total holds (srv_handlers s)
    ∧ srv_sem s ≤ limit options;
  good_nil : limited options = false → srv_sem s = 0
    ∧ ∀ c, srv_handlers s !! c ≠ Some HRelease;
  good_wg : srv_wg s = accept_alive (srv_accept s) + total alive_one (srv_handlers s);
  good_conns : ∀ c, c ∈ srv_conns s ↔ registered s c;
  good_sockets : ∀ c, c ∈ srv_sockets s →
    pending (srv_accept s) = Some c
    ∨ ∃ p, srv_handlers s !! c = Some p ∧ p ≠ HDone ∧ p ≠ HUnregister;
  good_pending : ∀ c, pending (srv_accept s) = Some c → srv_handlers s !! c = None;
  good_closing : closing_ok s
}.

Lemma good_start options tcp s : listen tcp options = Ok s → good options (go_acceptLoop s).
Proof.
  unfold listen. case_bool_decide as Hn; [done|]. destruct (tcp _); [done|]. intros [= <-].
  split; cbn; try done.
  - intros Hl. rewrite total_empty. unfold limit. split; lia.
  - intros c. split; [set_solver|]. intros [|(p & Hp & _)]; [done|]. cbn in Hp.
    by rewrite lookup_empty in Hp.
Qed.

(** Splits a step's invariant; what it does not touch is closed at once. *)
Ltac good_split G :=
  let Hc := fresh "Hclosing" in
  destruct G as [Gsem Gnil Gwg Gconns Gsockets Gpending Hc]; unfold registered in *;
  cbn in *; split; unfold registered; cbn;
  [..|eapply closing_ok_step; [exact Hc|cbn; lia|reflexivity..|cbn]]; auto.

(** The counting parts and a set of connections that stays the same. *)
Ltac good_auto :=
  try match goal with
  | H : limited ?o = true → _ |- limited ?o = true → _ =>
      let Hl := fresh in intros Hl; try congruence; destruct (H Hl); split; lia
  | |- limited ?o = false → _ => by intros; congruence
  | H : ∀ c, c ∈ ?cs ↔ _ |- ∀ c, c ∈ ?cs ↔ _ =>
      intros ?; rewrite H; solve [split; (intros [|]; [discriminate|by right])]
  | |- _ = _ => lia
  | |- _ → ∀ c, _ ∈ _ → _ ∈ _ → _ ∈ _ ∧ _ ∈ _ => by set_solver
  | |- ∀ c, None = Some c → _ => done
  end.

Lemma good_accept options l s s' :
  good options s → acceptLoop options l s = Some s' → good options s'.
Proof.
  intros G. destruct s as [dn ls wg cl cs sm id sk ac hs cg]. unfold acceptLoop. cbn.
  destruct ac as [|c|c|c|], l; try done; cbn.
  - case_match eqn:Hn; [|done]. apply andb_prop in Hn as [_ Hn%bool_decide_eq_true].
    destruct Hn as (Hsk & Hh & Hc). intros [= <-]. good_split G; good_auto.
    + set_solver.
    + naive_solver.
  - destruct dn; [done|]. by intros [= <-].
  - intros [= <-]. good_split G; good_auto.
  - destruct (limited options) eqn:Hl; [case_bool_decide as Hs|]; intros [= <-];
      good_split G; good_auto.
    intros c' [Hin Hne]%elem_of_difference. destruct (Gsockets c' Hin); set_solver.
  - unfold register. cbn. destruct cl; intros [= <-]; destruct (limited options) eqn:Hl;
      good_split G; good_auto.
    1,2: intros c' [Hin Hne]%elem_of_difference; destruct (Gsockets c' Hin); set_solver.
    all: intros c'; rewrite elem_of_union, elem_of_singleton, Gconns; naive_solver.
  - intros [= <-]. assert (hs !! c = None) as Hh by by apply (good_pending _ _ G).
    good_split G; rewrite ?total_insert by done; cbn; good_auto.
    + intros Hl. destruct (Gnil Hl). split; [done|]. intros c'.
      destruct (decide (c = c')) as [<-|]; [by rewrite lookup_insert_eq|by rewrite lookup_insert_ne].
    + intros c'. rewrite Gconns. destruct (decide (c = c')) as [<-|].
      * rewrite lookup_insert_eq. naive_solver.
      * rewrite lookup_insert_ne by done. naive_solver.
    + intros c' Hin. right. destruct (Gsockets c' Hin) as [[= <-]|(p & Hp & Hd)].
      * rewrite lookup_insert_eq. naive_solver.
      * exists p. rewrite lookup_insert_ne by congruence. naive_solver.
Qed.

(** A goroutine moves to its next program point. *)
Lemma good_goto options c p q dn ls wg cl cs sm id sk ac hs cg cs' sm' sk' :
  good options (mkServer dn ls wg cl cs sm id sk ac hs cg) →
  hs !! c = Some p → p ≠ HDone →
  (limited options = true → sm' + holds p = sm + holds q ∧ sm' ≤ sm) →
  (limited options = false → sm' = sm ∧ q ≠ HRelease) →
  (∀ c', c' ∈ cs' ↔ c' ∈ cs ∧ (c' = c → q ≠ HDone)) →
  (∀ c', c' ∈ sk' → c' ∈ sk ∧ (c' = c → q ≠ HDone ∧ q ≠ HUnregister)) →
  good options (mkServer dn ls wg cl cs' sm' id sk' ac (<[c := q]> hs) cg).
Proof.
  intros G Hp Hpd Hsem Hnil Hcs Hsk.
  pose proof (total_update holds hs c p q Hp) as Hh.
  pose proof (total_update alive_one hs c p q Hp) as Ha.
  pose proof (total_delete alive_one hs c p Hp) as Hd. unfold alive_one in Ha, Hd. fold alive_one in Ha, Hd.
  assert (ac ≠ ARegistered c) as Hac.
  { intros ->. pose proof (good_pending _ _ G c eq_refl) as Hn. cbn in Hn. congruence. }
  good_split G.
  - intros Hl. destruct (Gsem Hl), (Hsem Hl). lia.
  - intros Hl. destruct (Gnil Hl) as [? Hr], (Hnil Hl) as [-> ?]. split; [done|]. intros c'.
    rewrite lookup_insert. case_decide; [congruence|apply Hr].
  - lia.
  - intros c'. rewrite Hcs, Gconns, lookup_insert. destruct (decide (c = c')) as [<-|Hne]; naive_solver.
  - intros c' [Hin Hq]%Hsk. rewrite lookup_insert. destruct (decide (c = c')) as [<-|Hne]; [|by auto].
    right. exists q. naive_solver.
  - intros c' Hpe. pose proof (Gpending c' Hpe) as Hn.
    rewrite lookup_insert_ne; [done|]. intros <-. congruence.
  - intros _ c' [Hc' _]%Hcs [Hs' _]%Hsk. done.
Qed.

Lemma good_handle options c l s s' :
  good options s → handle options c l s = Some s' → good options s'.
Proof.
  intros G. destruct s as [dn ls wg cl cs sm id sk ac hs cg]. unfold handle. cbn.
  destruct (hs !! c) as [p|] eqn:Hp; [|done].
  pose proof (total_delete holds hs c p Hp) as Hh.
  pose proof (good_sem _ _ G) as Hsm. pose proof (good_nil _ _ G) as Hni. cbn in Hsm, Hni.
  destruct p, l; try done; intros [= <-].
  - eapply (good_goto options c _ _ dn ls wg cl cs sm id sk ac hs cg); [done|done|done|..].
    + intros ->. cbn. lia.
    + by intros ->.
    + intros c'. destruct (limited options); naive_solver.
    + intros c'. destruct (limited options); naive_solver.
  - eapply (good_goto options c _ _ dn ls wg cl cs sm id sk ac hs cg); [done|done|done|..].
    + intros Hl. destruct (Hsm Hl). cbn in *. lia.
    + intros Hl. destruct (Hni Hl) as [_ Hr]. by destruct (Hr c).
    + naive_solver.
    + naive_solver.
  - eapply (good_goto options c _ _ dn ls wg cl cs sm id sk ac hs cg); [done|done|done|..].
    + cbn. lia.
    + done.
    + naive_solver.
    + set_solver.
  - eapply (good_goto options c _ _ dn ls wg cl cs sm id sk ac hs cg); [done|done|done|..].
    + cbn. lia.
    + done.
    + set_solver.
    + intros c' Hin. split; [done|]. intros ->. exfalso.
      destruct (good_sockets _ _ G c Hin) as [Hpe|(p & Hp' & ? & ?)]; cbn in *.
      * pose proof (good_pending _ _ G c Hpe) as Hn. cbn in Hn. congruence.
      * naive_solver.
  - pose proof (total_delete alive_one hs c _ Hp) as Ha. unfold alive_one in Ha at 2.
    assert (∀ c', delete c hs !! c' = if decide (c = c') then None else hs !! c') as Hl
      by (intros; apply lookup_delete).
    good_split G.
    + intros Hlim. destruct (Gsem Hlim). cbn in *. lia.
    + intros Hlim. destruct (Gnil Hlim). split; [done|]. intros c'. rewrite Hl. by case_decide.
    + lia.
    + intros c'. rewrite Gconns, Hl. case_decide; naive_solver.
    + intros c' [Hpe|Hex]%Gsockets; [by left|]. right. rewrite Hl. case_decide; naive_solver.
    + intros c' Hpe. rewrite Hl. case_decide; auto.
Qed.

Lemma good_Close options l s s' : good options s → Close l s = Some s' → good options s'.
Proof.
  intros [Gsem Gnil Gwg Gconns Gsockets Gpending Gclosing].
  destruct s as [dn ls wg cl cs sm id sk ac hs cg]. unfold Close, closing_ok in *. cbn in *.
  destruct cg as [| |todo|[|c todo]| |], l; try done;
    [..|case_bool_decide; [|done]]; intros [= <-]; split;
    unfold closing_ok, registered in *; cbn in *; auto; try (by destruct_and?; split_and!).
  - destruct Gclosing as (-> & _ & ->). split_and!; [done..|]. intros c Hc _.
    by apply elem_of_elements.
  - destruct Gclosing as (-> & -> & -> & Hl). split_and!; [done..|]. intros c Hc Hs.
    by apply (not_elem_of_nil c), Hl.
  - set_solver.
  - destruct Gclosing as (-> & -> & -> & Hl). split_and!; [done..|]. set_solver.
Qed.

Lemma reachable_good options s : reachable options s → good options s.
Proof.
  induction 1 as [tcp s Hs|s l s' _ IH Hs]; [by eapply good_start|].
  destruct l; cbn [step] in Hs;
    eauto using good_accept, good_handle, good_Close.
Qed.

(** ** Progress of [Close] *)

Definition handler_work (p : handlerPoint) : nat :=
  match p with HServing _ => 5 | HRelease => 4 | HClose => 3 | HUnregister => 2 | HDone => 1 end.

Definition accept_work (a : acceptPoint) : nat :=
  match a with AAccepted _ => 9 | AAcquired _ => 8 | ARegistered _ => 7 | ALoop => 1 | AStopped => 0 end.

Definition close_work (p : closePoint) : nat :=
  match p with CConns l => 2 + length l | CWait => 1 | _ => 0 end.

(** Steps left for the server's own threads. *)
Definition work (s : Server) : nat :=
  accept_work (srv_accept s) + total handler_work (srv_handlers s) + close_work (srv_closing s).

(** The listener is closed. *)
Definition shutting (s : Server) : bool :=
  match srv_closing s with CConns _ | CWait | CDone => true | _ => false end.

Lemma shutting_facts options s :
  good options s → shutting s = true →
  srv_done s = true ∧ srv_closed s = true ∧ srv_listening s = false.
Proof.
  intros G. pose proof (good_closing _ _ G) as H. unfold closing_ok in H. unfold shutting.
  destruct (srv_closing s); naive_solver.
Qed.

Lemma work_decreases options s l s' :
  good options s → shutting s = true → step options l s = Some s' →
  work s' < work s ∧ shutting s' = true.
Proof.
  intros G Hsh Hstep. destruct (shutting_facts options s G Hsh) as (Hdn & Hcl & Hls).
  pose proof (good_pending _ _ G) as Hpe.
  destruct s as [dn ls wg cl cs sm id sk ac hs cg]. unfold work. cbn -[shutting] in *. subst.
  destruct l; cbn [step] in Hstep.
  1-6: unfold acceptLoop, register in Hstep; cbn in Hstep;
    destruct ac; try done; cbn in Hstep; repeat case_match; simplify_eq; cbn -[shutting];
    try (rewrite total_insert by (by apply Hpe); cbn -[shutting]); (split; [lia|exact Hsh]).
  1-2: unfold handle in Hstep; cbn in Hstep;
    destruct (hs !! c) as [p|] eqn:Hp; [|done];
    destruct p; try done; simplify_eq; cbn -[shutting]; (split; [|exact Hsh]);
    try (rewrite (total_delete handler_work hs c _ Hp); cbn; lia);
    match goal with |- context [<[_ := ?q]> _] =>
      pose proof (total_update handler_work hs c _ q Hp) as Ht; cbn in Ht;
      try destruct (limited options); cbn in *; lia end.
  - unfold shutting, Close in *. cbn in *. by destruct cg as [| | |[]| |].
  - unfold Close in Hstep. cbn in Hstep. destruct cg as [| |todo|[|c todo]| |]; try done;
      repeat case_match; simplify_eq; cbn; (split; [lia|done]).
Qed.

(** Steps that need nothing from outside: no new connection, no client that
    hangs up. *)
Definition internal (l : label) (s : Server) : Prop :=
  match l with
  | LAccept _ | LAcceptRetry | LClose => False
  | LAcceptStop => srv_listening s = false
  | LServed c => c ∉ srv_sockets s
  | _ => True
  end.

Lemma internal_enabled options s :
  good options s → shutting s = true → srv_closing s ≠ CDone →
  ∃ l s', internal l s ∧ step options l s = Some s'.
Proof.
  intros G Hsh Hnd. destruct (shutting_facts options s G Hsh) as (Hdn & Hcl & Hls).
  pose proof (good_closing _ _ G) as Hcg. unfold closing_ok, shutting in *.
  destruct (srv_closing s) as [| |todo|todo| |] eqn:Hc; try done.
  { exists LClosing. cbn. unfold Close. rewrite Hc. destruct todo; eauto. }
  destruct (srv_accept s) as [|c|c|c|] eqn:Ha.
  - exists LAcceptStop. cbn. unfold acceptLoop. rewrite Ha. eauto.
  - exists LAcquire. cbn. unfold acceptLoop. rewrite Ha. repeat case_match; eauto.
  - exists LRegister. cbn. unfold acceptLoop, register. rewrite Ha, Hcl. eauto.
  - exists LSpawn. cbn. unfold acceptLoop. rewrite Ha. eauto.
  - destruct (decide (srv_handlers s = ∅)) as [He|(c & p & Hp)%map_choose].
    { exists LClosing. cbn. unfold Close. rewrite Hc. rewrite bool_decide_eq_true_2; [eauto|].
      by rewrite (good_wg _ _ G), Ha, He, total_empty. }
    destruct p as [session| | | |] eqn:Hpe.
    2-5: exists (LDeferred c); cbn; unfold handle; rewrite Hp; eauto.
    exists (LServed c). cbn. unfold handle. rewrite Hp. eexists. split; [|done].
    apply Hcg, (good_conns _ _ G). right. eauto.
Qed.

(** ** Runs *)

Fixpoint runs (options : Options) (labels : list label) (s : Server) : option Server :=
  match labels with
  | [] => Some s
  | l :: labels => s' ← step options l s; runs options labels s'
  end.

Lemma reachable_runs options labels s s' :
  reachable options s → runs options labels s = Some s' → reachable options s'.
Proof.
  revert s. induction labels as [|l labels IH]; intros s Hr; cbn; [by intros [= <-]|].
  destruct (step options l s) as [s1|] eqn:Hs; [|done]. apply IH.
  by apply (reachable_step options s l).
Qed.

(** A server for one client, with one connection served, one refused and one
    registered when [Close] runs. *)
Definition one_client : Options := mkOptions [] ⟦"secret"⟧ 1.

Definition after (labels : list label) : Server :=
  default started (runs one_client labels started).

Definition busy : list label := [LAccept 7; LAcquire; LRegister; LSpawn; LAccept 8; LAcquire].

Definition stopping : list label :=
  busy ++ [LServed 7; LDeferred 7; LAccept 9; LAcquire; LClose; LClosing; LRegister;
           LClosing; LClosing; LClosing].

Definition finish : list label :=
  [LDeferred 7; LDeferred 7; LDeferred 7; LClosing].

Lemma reachable_after labels :
  runs one_client labels started = Some (after labels) → reachable one_client (after labels).
Proof. apply reachable_runs. by apply (reachable_start one_client (λ _, None) opened). Qed.

(** ** Properties *)

(** C30: With a positive [MaxClients], at most that many connections are served
    at any time, and the semaphore counts exactly the slots in use. *)
Theorem max_clients_respected options s :
  reachable options s → (0 < MaxClients options)%Z →
  (Z.of_nat (total serving (srv_handlers s)) ≤ MaxClients options)%Z
  ∧ srv_sem s = accept_holds (srv_accept s) + total holds (srv_handlers s).
Proof.
  intros Hr Hm. apply reachable_good in Hr. destruct (good_sem _ _ Hr) as [-> Hle].
  { by apply bool_decide_eq_true. }
  split; [|done]. unfold limit in Hle.
  pose proof (total_le serving holds (srv_handlers s)) as Hs.
  specialize (Hs ltac:(intros []; cbn; lia)). lia.
Qed.

Lemma max_clients_respected_witness :
  let s := after busy in
  (Z.of_nat (total serving (srv_handlers s)) ≤ MaxClients one_client)%Z
  ∧ srv_sem s = accept_holds (srv_accept s) + total holds (srv_handlers s).
Proof.
  intros s. apply max_clients_respected; [|reflexivity].
  apply (reachable_after busy). vm_compute. reflexivity.
Defined.

(** When [Close] has returned, nothing of the server is left: the accept
    loop and every goroutine have ended, every accepted connection is closed
    and unregistered, and every semaphore slot is free. *)
Theorem close_leaves_nothing options s :
  reachable options s → srv_closing s = CDone →
  srv_accept s = AStopped ∧ srv_handlers s = ∅ ∧ srv_sockets s = ∅ ∧ srv_conns s = ∅
  ∧ srv_sem s = 0 ∧ srv_wg s = 0.
Proof.
  intros Hr Hd. apply reachable_good in Hr as G. pose proof (good_closing _ _ G) as Hc.
  unfold closing_ok in Hc. rewrite Hd in Hc. destruct Hc as (_ & _ & _ & Hwg).
  pose proof (good_wg _ _ G) as Hw. rewrite Hwg in Hw.
  assert (srv_handlers s = ∅) as Hh by (apply total_alive_empty; lia).
  assert (srv_accept s = AStopped) as Ha by (destruct (srv_accept s); cbn in Hw; try lia; done).
  split_and!; [done..| | | |done].
  - apply set_eq. intros c. split; [|set_solver]. intros [Hp|(p & Hp & _)]%(good_sockets _ _ G).
    + by rewrite Ha in Hp.
    + by rewrite Hh, lookup_empty in Hp.
  - apply set_eq. intros c. split; [|set_solver]. intros [Hp|(p & Hp & _)]%(good_conns _ _ G).
    + by rewrite Ha in Hp.
    + by rewrite Hh, lookup_empty in Hp.
  - destruct (limited options) eqn:Hl; [|by apply (good_nil _ _ G)].
    destruct (good_sem _ _ G Hl) as [-> _]. by rewrite Ha, Hh, total_empty.
Qed.

Lemma close_leaves_nothing_witness :
  let s := after (stopping ++ finish) in
  srv_accept s = AStopped ∧ srv_handlers s = ∅ ∧ srv_sockets s = ∅ ∧ srv_conns s = ∅
  ∧ srv_sem s = 0 ∧ srv_wg s = 0.
Proof.
  intros s. apply (close_leaves_nothing one_client); [|vm_compute; reflexivity].
  apply (reachable_after (stopping ++ finish)). vm_compute. reflexivity.
Defined.

(** C31: [Close] returns: once it has closed the listener, every step of any
    thread uses up the finite work left, and until it has returned some
    thread can step without help from a client, because every registered
    connection has been closed under its reader. *)
Theorem close_terminates options s :
  reachable options s → shutting s = true →
  (∀ l s', step options l s = Some s' → work s' < work s ∧ shutting s' = true)
  ∧ (srv_closing s ≠ CDone → ∃ l s', internal l s ∧ step options l s = Some s').
Proof.
  intros Hr Hsh. apply reachable_good in Hr as G. split.
  - intros l s'. by apply work_decreases.
  - by apply internal_enabled.
Qed.

Lemma close_terminates_witness :
  let s := after stopping in
  (∀ l s', step one_client l s = Some s' → work s' < work s ∧ shutting s' = true)
  ∧ (srv_closing s ≠ CDone → ∃ l s', internal l s ∧ step one_client l s = Some s').
Proof.
  intros s. apply close_terminates; [|vm_compute; reflexivity].
  apply (reachable_after stopping). vm_compute. reflexivity.
Defined.

(** After [Close] has set [closed], no further connection is ever served:
    the goroutines of a later state are among those of this one, apart from
    one connection that had been registered before. *)
Theorem no_connection_after_close options s l s' c :
  reachable options s → srv_closed s = true → step options l s = Some s' →
  is_Some (srv_handlers s' !! c) →
  is_Some (srv_handlers s !! c) ∨ c ∈ srv_conns s.
Proof.
  intros Hr Hcl Hstep Hc. apply reachable_good in Hr as G.
  assert (srv_handlers s' = srv_handlers s ∨ (∃ d p, srv_handlers s' = <[d := p]> (srv_handlers s)
    ∧ (is_Some (srv_handlers s !! d) ∨ srv_accept s = ARegistered d))
    ∨ ∃ d, srv_handlers s' = delete d (srv_handlers s)) as Hcase.
  { destruct l; cbn [step] in Hstep; unfold acceptLoop, handle, Close, register in Hstep;
      repeat case_match; simplify_eq; cbn; eauto 8. }
  destruct Hcase as [Heq|[(d & p & Heq & Hd)|[d Heq]]]; rewrite Heq in Hc; [by left| |].
  - rewrite lookup_insert in Hc. destruct (decide (d = c)) as [<-|]; [|by left].
    destruct Hd as [Hd|Hd]; [by left|]. right. apply (good_conns _ _ G). by left.
  - rewrite lookup_delete in Hc. destruct (decide (d = c)); [by destruct Hc|by left].
Qed.

Lemma no_connection_after_close_witness :
  is_Some (srv_handlers (after stopping) !! 7) ∨ 7 ∈ srv_conns (after stopping).
Proof.
  apply (no_connection_after_close one_client (after stopping) (LDeferred 7)
           (after (stopping ++ [LDeferred 7])));
    [apply (reachable_after stopping); vm_compute; reflexivity
    |vm_compute; reflexivity|vm_compute; reflexivity|].
  exists HUnregister. vm_compute. reflexivity.
Defined.

(** [Serve] takes a handle for remote by its backend name. A handle that
    [Connect] opened for a named driver reports that name, so [Serve] accepts
    it and serves multi-step commands over a transport, which its own error
    message rules out. *)
Theorem serve_accepts_named_remote {E} tcp (db : DB E) options s :
  IsRemote db = true → Backend db ≠ BackendRemote → listen tcp options = Ok s →
  redis_Serve tcp (Some db) options = Ok (go_acceptLoop s)
  ∧ ServeRemote tcp (Some db) options = Ok (go_acceptLoop s).
Proof.
  intros Hr Hb Hl. unfold redis_Serve, ServeRemote.
  by rewrite bool_decide_eq_false_2, Hr, Hl by done.
Qed.

(** A handle with the backend of a remote owner, as [OpenWithEngine] makes it. *)
Lemma serve_accepts_named_remote_witness :
  let db := mkDB (mkGuarded memoryDriver_Open false) DriverMemory true false in
  IsRemote db = true
  ∧ redis_Serve (λ _, None) (Some db) one_client = Ok (go_acceptLoop opened).
Proof.
  cbv zeta. split; [reflexivity|].
  apply (serve_accepts_named_remote (λ _, None)
           (mkDB (mkGuarded memoryDriver_Open false) DriverMemory true false) one_client opened);
    [reflexivity|discriminate|reflexivity].
Defined.
