(* ===== verification/CMemory.v ===== *)
(** * Memory shared with C code (cgo)

    The C interface and the module loaders exchange buffers with C code
    through [malloc] and [free]. The C heap is a map from pointers to blocks;
    0 is the null pointer. A program over it may also use the state of a
    loaded library; it stops without a result when the process crashes: on a
    Go panic, on a read outside of a block, on a double or a wild free. *)

From S2P Require Import Prelude Errors Engine Effects.

Record cstate (S : Type) := mkC {
  c_heap : gmap Z bytes;
  c_brk : Z;
  c_lib : S
}.
Arguments mkC {S}.
Arguments c_heap {S}.
Arguments c_brk {S}.
Arguments c_lib {S}.

Definition CM (S A : Type) : Type := cstate S → option (A * cstate S).

#[global] Instance CM_ret {S} : MRet (CM S) := λ A a st, Some (a, st).

#[global] Instance CM_bind {S} : MBind (CM S) := λ A B f p st,
  match p st with Some (a, st) => f a st | None => None end.

Definition crash {S A} : CM S A := λ _, None.

Definition get_lib {S} : CM S S := λ st, Some (c_lib st, st).
Definition put_lib {S} (s : S) : CM S unit := λ st, Some (tt, mkC (c_heap st) (c_brk st) s).

(** ** Allocation

    [C.malloc] of Go never returns null. *)

Definition C_malloc {S} (block : bytes) : CM S Z := λ st,
  Some (c_brk st, mkC (<[c_brk st := block]> (c_heap st)) (c_brk st + 1) (c_lib st)).

Definition C_free {S} (p : Z) : CM S unit := λ st,
  if bool_decide (p = 0)%Z then Some (tt, st)
  else match c_heap st !! p with
       | Some _ => Some (tt, mkC (delete p (c_heap st)) (c_brk st) (c_lib st))
       | None => None
       end.

(** The block at a pointer. *)
Definition C_block {S} (p : Z) : CM S bytes := λ st,
  match c_heap st !! p with Some block => Some (block, st) | None => None end.

Definition NUL : Byte.byte := Byte.x00.

(** [C.CString]: a copy with a terminating zero. *)
Definition C_CString {S} (s : bytes) : CM S Z := C_malloc (s ++ [NUL]).

(** The bytes before the first zero; [None] when there is none. *)
Fixpoint c_string (block : bytes) : option bytes :=
  match block with
  | [] => None
  | c :: block => if bool_decide (c = NUL) then Some [] else cons c <$> c_string block
  end.

(** [C.GoString]. *)
Definition C_GoString {S} (p : Z) : CM S bytes :=
  if bool_decide (p = 0)%Z then mret []
  else block ← C_block p;
       match c_string block with Some s => mret s | None => crash end.

(** [C.CBytes]. *)
Definition C_CBytes {S} (b : bytes) : CM S Z := C_malloc b.

(** The conversion [C.int(n)] of a size. *)
Definition c_int (n : Z) : Z := ((n + 2 ^ 31) mod 2 ^ 32 - 2 ^ 31)%Z.

(** [C.GoBytes(p, n)] with [n] a C [int]: a negative length panics. *)
Definition C_GoBytes {S} (p n : Z) : CM S bytes :=
  if bool_decide (n = 0)%Z then mret []
  else if bool_decide (n < 0)%Z then crash
  else block ← C_block p;
       if bool_decide (Z.of_nat (length block) < n)%Z then crash
       else mret (take (Z.to_nat n) block).

(** What a call into C code reports: its status, the error text it allocated
    ([None] when the output stays as it was) and its other outputs. *)
Record outcome (A : Type) := mkOutcome {
  out_status : Z;
  out_error : option Z;
  out_value : option A
}.
Arguments mkOutcome {A}.
Arguments out_status {A}.
Arguments out_error {A}.
Arguments out_value {A}.

(** The pointer and the length that stand for a Go slice in a call:
    [unsafe.Pointer(&b[0])], null for an empty one. The callee sees the
    memory from that address on. *)
Definition slice_pointer (b : bytes) : option bytes := if bool_decide (b = []) then None else Some b.
Definition slice_length (b : bytes) : Z := Z.of_nat (length b).

(** ** Reasoning

    [cwp p Q st]: from [st] the program ends, without a crash, in a result
    and a state that satisfy [Q]. *)

Definition cwp {S A} (p : CM S A) (Q : A → cstate S → Prop) (st : cstate S) : Prop :=
  match p st with Some (a, st) => Q a st | None => False end.

Definition heap_ok {S} (st : cstate S) : Prop :=
  (0 < c_brk st)%Z ∧ ∀ p, is_Some (c_heap st !! p) → (0 < p < c_brk st)%Z.

Section reasoning.
Context {S : Type}.
Implicit Types (st : cstate S) (h : gmap Z bytes) (s : S).

Lemma cwp_some {A} (p : CM S A) Q st :
  cwp p Q st ↔ ∃ a st', p st = Some (a, st') ∧ Q a st'.
Proof.
  unfold cwp. destruct (p st) as [[a st']|]; naive_solver.
Qed.

Lemma cwp_mono {A} (p : CM S A) P Q st : cwp p P st → (∀ a st', P a st' → Q a st') → cwp p Q st.
Proof. unfold cwp. destruct (p st) as [[a st']|]; auto. Qed.

Lemma cwp_bind {A B} (p : CM S A) (f : A → CM S B) Q st :
  cwp p (λ a, cwp (f a) Q) st → cwp (p ≫= f) Q st.
Proof. unfold cwp, mbind, CM_bind. by destruct (p st) as [[a st']|]. Qed.

Lemma cwp_ret {A} (a : A) Q st : Q a st → cwp (mret a) Q st.
Proof. done. Qed.

Lemma cwp_get_lib Q st : Q (c_lib st) st → cwp get_lib Q st.
Proof. done. Qed.

Lemma cwp_put_lib s Q st : Q tt (mkC (c_heap st) (c_brk st) s) → cwp (put_lib s) Q st.
Proof. done. Qed.

(** Allocation extends the heap by a block at a fresh, non-null pointer. *)
Lemma cwp_malloc block Q st :
  heap_ok st →
  (∀ p brk, let st' := mkC (<[p := block]> (c_heap st)) brk (c_lib st) in
     p ≠ 0%Z → c_heap st !! p = None → heap_ok st' → Q p st') →
  cwp (C_malloc block) Q st.
Proof.
  intros [Hb Hh] HQ. apply HQ; [lia| |].
  - destruct (c_heap st !! c_brk st) eqn:E; [|done].
    specialize (Hh (c_brk st) ltac:(by rewrite E)). lia.
  - split; cbn; [lia|]. intros p Hp. destruct (decide (p = c_brk st)) as [->|Hne]; [lia|].
    rewrite lookup_insert_ne in Hp by done. specialize (Hh p Hp). lia.
Qed.

Lemma cwp_CString t Q st :
  heap_ok st →
  (∀ p brk, let st' := mkC (<[p := t ++ [NUL]]> (c_heap st)) brk (c_lib st) in
     p ≠ 0%Z → c_heap st !! p = None → heap_ok st' → Q p st') →
  cwp (C_CString t) Q st.
Proof. apply cwp_malloc. Qed.

Lemma cwp_CBytes b Q st :
  heap_ok st →
  (∀ p brk, let st' := mkC (<[p := b]> (c_heap st)) brk (c_lib st) in
     p ≠ 0%Z → c_heap st !! p = None → heap_ok st' → Q p st') →
  cwp (C_CBytes b) Q st.
Proof. apply cwp_malloc. Qed.

Lemma heap_ok_delete p h brk s s' : heap_ok (mkC h brk s) → heap_ok (mkC (delete p h) brk s').
Proof.
  intros [Hb Hh]. split; [done|]. intros q Hq. apply Hh. cbn in *.
  destruct (decide (q = p)) as [->|Hne]; [by rewrite lookup_delete_eq in Hq; destruct Hq|].
  by rewrite lookup_delete_ne in Hq.
Qed.

Lemma heap_ok_lib h brk s s' : heap_ok (mkC h brk s) → heap_ok (mkC h brk s').
Proof. done. Qed.

(** Freeing the block allocated last restores the heap. *)
Lemma cwp_free_fresh p block h brk s Q :
  p ≠ 0%Z → h !! p = None → heap_ok (mkC (<[p := block]> h) brk s) →
  (heap_ok (mkC h brk s) → Q tt (mkC h brk s)) →
  cwp (C_free p) Q (mkC (<[p := block]> h) brk s).
Proof.
  intros Hp Hh Hok HQ. unfold cwp, C_free. rewrite bool_decide_eq_false_2 by done.
  cbn [c_heap c_brk c_lib]. rewrite lookup_insert_eq.
  pose proof (heap_ok_delete p _ _ _ s Hok) as Hd. rewrite delete_insert_id in Hd |- * by done. auto.
Qed.

Lemma cwp_free_null Q st : Q tt st → cwp (C_free 0) Q st.
Proof. done. Qed.

Lemma c_string_app t rest : ∃ u, c_string (t ++ NUL :: rest) = Some u.
Proof.
  induction t as [|c t [u IH]]; cbn [app c_string].
  - rewrite bool_decide_eq_true_2 by done. by exists [].
  - case_bool_decide; [by exists []|]. rewrite IH. by eexists.
Qed.

Lemma c_string_plain t : NUL ∉ t → c_string (t ++ [NUL]) = Some t.
Proof.
  induction t as [|c t IH]; intros Hn; cbn [app c_string].
  - by rewrite bool_decide_eq_true_2.
  - rewrite bool_decide_eq_false_2 by (intros ->; apply Hn; left).
    rewrite IH; [done|]. intros Hin. apply Hn. by right.
Qed.

(** A text made by [C.CString] is read back up to its first zero byte. *)
Lemma cwp_GoString p t h brk s Q :
  p ≠ 0%Z → h !! p = Some (t ++ [NUL]) →
  (∀ u, (NUL ∉ t → u = t) → Q u (mkC h brk s)) → cwp (C_GoString p) Q (mkC h brk s).
Proof.
  intros Hp Hh HQ. unfold cwp, C_GoString. rewrite bool_decide_eq_false_2 by done.
  unfold mbind, CM_bind, C_block. cbn [c_heap]. rewrite Hh.
  destruct (c_string_app t []) as [u Hu]. rewrite Hu. apply HQ.
  intros Hn. rewrite c_string_plain in Hu by done. congruence.
Qed.

Lemma c_int_small n : (0 ≤ n < 2 ^ 31)%Z → c_int n = n.
Proof. unfold c_int. intros Hn. rewrite Z.mod_small by lia. lia. Qed.

(** Reading back a buffer below 2 GiB. *)
Lemma cwp_GoBytes p b h brk s Q :
  h !! p = Some b → (slice_length b < 2 ^ 31)%Z →
  Q b (mkC h brk s) → cwp (C_GoBytes p (c_int (slice_length b))) Q (mkC h brk s).
Proof.
  unfold slice_length. intros Hh Hl HQ. rewrite c_int_small by lia.
  unfold cwp, C_GoBytes. case_bool_decide as Hz.
  - destruct b; [done|]. cbn in Hz. lia.
  - rewrite bool_decide_eq_false_2 by lia. unfold mbind, CM_bind, C_block. cbn [c_heap].
    rewrite Hh, bool_decide_eq_false_2 by lia. cbn. by rewrite Nat2Z.id, firstn_all.
Qed.

(** A buffer whose length does not fit a C [int] as a non-negative number
    cannot be read. *)
Lemma GoBytes_overflow p n st : (2 ^ 31 ≤ n < 2 ^ 32)%Z → C_GoBytes p (c_int n) st = None.
Proof.
  intros Hn. assert (c_int n < 0)%Z as Hneg by (unfold c_int; zlia).
  unfold C_GoBytes. rewrite bool_decide_eq_false_2 by lia. by rewrite bool_decide_eq_true_2.
Qed.
End reasoning.
