(* ===== verification/CApi.v ===== *)
(** * The C interface ([capi/main.go])

    The exported functions of the shared library: a table of open databases
    and a table of scan cursors, both addressed by 64-bit handles, and the
    conversion of C buffers. [open] stands for [kvlite.Open] with an explicit
    driver, [now] for the clock. *)

From S2P Require Import Prelude Errors Engine Effects MemDriver Envelope Keys ListCodec Text DriverName DB Collections Transport Modules Backend CMemory.

Definition statusOK : Z := 0.
Definition statusNotFound : Z := 1.
Definition statusInvalid : Z := 2.
Definition statusStorage : Z := 3.

Definition abiVersion : Z := 1.

Definition maxUint64 : Z := (2 ^ 64 - 1)%Z.

Record scanSnapshot := mkSnapshot {
  snap_keys : list bytes;
  snap_values : list bytes;
  snap_next : nat
}.

(** The state of the library: [databases], [cursors], the databases that left
    the table when they were closed, and what [open] works on. *)
Record capiState (E S : Type) := mkCapi {
  cap_databases : gmap Z (World E);
  cap_next : Z;
  cap_cursors : gmap Z scanSnapshot;
  cap_cursor_next : Z;
  cap_released : list (DB E);
  cap_outside : S
}.
Arguments mkCapi {E S}.
Arguments cap_databases {E S}.
Arguments cap_next {E S}.
Arguments cap_cursors {E S}.
Arguments cap_cursor_next {E S}.
Arguments cap_released {E S}.
Arguments cap_outside {E S}.

Definition ttlOption (seconds : Z) : GoError + option PutOption :=
  if bool_decide (seconds < 0)%Z
  then inl (errorf ErrInvalidArgument ⟦"ttl_seconds must be non-negative"⟧)
  else if bool_decide (seconds = 0)%Z then inr None
  else if bool_decide (Z.quot maxInt64 1000000000 < seconds)%Z
  then inl (errorf ErrInvalidArgument ⟦"ttl_seconds is too large"⟧)
  else inr (Some (TTL (wrap64 (seconds * 1000000000)))).

Section capi.
Context {GT : GoText} {E : Type} `{!Engine E} {S : Type}
  (registry : gmap bytes (registeredDriver E)) (open : bytes → bytes → S → result (DB E) * S)
  (now : nat → Z).

Abbreviation state := (capiState E S).
Abbreviation C := (CM state).
Implicit Types (handle cursor : Z) (out : bool).

Definition setError out (err : GoError) : C (option Z) :=
  if out then p ← C_CString (error_text err); mret (Some p) else mret None.

Definition statusFor {A} (err : option GoError) out : C (outcome A) :=
  match err with
  | None => mret (mkOutcome statusOK None None)
  | Some err =>
      text ← setError out err;
      mret (mkOutcome (if errors_Is err ErrNotFound then statusNotFound
                       else if errors_Is err ErrInvalidArgument then statusInvalid
                       else statusStorage) text None)
  end.

Definition invalid_handle handle : GoError :=
  errorf ErrInvalidArgument (⟦"invalid database handle "⟧ ++ format_int handle).

Definition invalid_cursor cursor : GoError :=
  errorf ErrInvalidArgument (⟦"invalid scan cursor "⟧ ++ format_int cursor).

Definition required (what : bytes) : GoError := errorf ErrInvalidArgument what.

Definition lookup_db handle out : C (option (World E) * option Z) :=
  s ← get_lib;
  match cap_databases s !! handle with
  | Some w => mret (Some w, None)
  | None => text ← setError out (invalid_handle handle); mret (None, text)
  end.

(** A pointer to readable memory, [None] when null, and a [size_t]. *)
Definition inputBytes (pointer : option bytes) (length : Z) : C (GoError + bytes) :=
  if bool_decide (maxInt64 < length)%Z then mret (inl (required ⟦"input is too large"⟧))
  else if bool_decide (length = 0)%Z then mret (inr [])
  else match pointer with
       | None => mret (inl (required ⟦"non-empty input has a nil pointer"⟧))
       | Some memory =>
           if bool_decide (Z.of_nat (List.length memory) < length)%Z then crash
           else mret (inr (take (Z.to_nat length) memory))
       end.

(** [db := lookup(...); if db == nil { return statusInvalid }]. *)
Definition with_database {A} handle out (k : World E → C (outcome A)) : C (outcome A) :=
  '(db, text) ← lookup_db handle out;
  match db with None => mret (mkOutcome statusInvalid text None) | Some w => k w end.

(** The conversion of an argument, and of one that must not be empty. *)
Definition with_input {A} (pointer : option bytes) (length : Z) out (k : bytes → C (outcome A))
    : C (outcome A) :=
  input ← inputBytes pointer length;
  match input with inl err => statusFor (Some err) out | inr b => k b end.

Definition with_key {A} (pointer : option bytes) (length : Z) out (k : bytes → C (outcome A))
    : C (outcome A) :=
  with_input pointer length out (λ key,
    if bool_decide (key = []) then statusFor (Some (required ⟦"key is required"⟧)) out else k key).

(** A method of the database [w] of a handle, with the background context. *)
Definition on_database {A} handle (w : World E) (p : M A) : C (GoError + A) :=
  let '(r, w) := run (mkEnv Background now) p w in
  s ← get_lib;
  _ ← put_lib (mkCapi (<[handle := w]> (cap_databases s)) (cap_next s) (cap_cursors s)
                 (cap_cursor_next s) (cap_released s) (cap_outside s));
  match r with Ok a => mret (inr a) | Err e => mret (inl e) | Panic => crash end.

Definition error_of {A} (r : GoError + A) : option GoError :=
  match r with inl e => Some e | inr _ => None end.

Definition kvlite_abi_version : C Z := mret abiVersion.

(** Adding an open database to the table. *)
Definition register_database (db : DB E) : C (outcome Z) :=
  s ← get_lib;
  let handle := cap_next s in
  _ ← put_lib (mkCapi (<[handle := mkWorld db 0]> (cap_databases s)) ((cap_next s + 1) mod 2 ^ 64)
                 (cap_cursors s) (cap_cursor_next s) (cap_released s) (cap_outside s));
  mret (mkOutcome statusOK None (Some handle)).

Definition call_open (path driver : bytes) : C (result (DB E)) :=
  s ← get_lib;
  let '(r, outside) := open path driver (cap_outside s) in
  _ ← put_lib (mkCapi (cap_databases s) (cap_next s) (cap_cursors s) (cap_cursor_next s)
                 (cap_released s) outside);
  mret r.

(** Strings are pointers into the C heap. *)
Definition kvlite_open (path : Z) (outHandle out : bool) : C (outcome Z) :=
  if bool_decide (path = 0)%Z || negb outHandle
  then statusFor (Some (required ⟦"path and output handle are required"⟧)) out
  else
    path ← C_GoString path;
    match DefaultDriver registry with
    | Ok driver =>
        db ← call_open path driver;
        match db with
        | Ok db => register_database db
        | Err err => statusFor (Some err) out
        | Panic => crash
        end
    | _ => crash
    end.

Definition openWithDriver (path driver : Z) (outHandle out : bool) : C (outcome Z) :=
  if bool_decide (path = 0)%Z || bool_decide (driver = 0)%Z || negb outHandle
  then statusFor (Some (required ⟦"path, driver, and output handle are required"⟧)) out
  else
    path ← C_GoString path;
    driver ← C_GoString driver;
    db ← call_open path driver;
    match db with
    | Ok db => register_database db
    | Err err => statusFor (Some err) out
    | Panic => crash
    end.

Definition kvlite_open_with_backend := openWithDriver.
Definition kvlite_open_with_driver := openWithDriver.

Definition kvlite_close handle out : C (outcome unit) :=
  s ← get_lib;
  match cap_databases s !! handle with
  | None => statusFor (Some (invalid_handle handle)) out
  | Some w =>
      let '(err, db) := Close (w_db w) in
      _ ← put_lib (mkCapi (delete handle (cap_databases s)) (cap_next s) (cap_cursors s)
                     (cap_cursor_next s) (cap_released s ++ [db]) (cap_outside s));
      statusFor err out
  end.

Definition kvlite_put handle (key : option bytes) (keyLength : Z) (value : option bytes)
    (valueLength ttlSeconds : Z) out : C (outcome unit) :=
  with_database handle out (λ w,
    with_key key keyLength out (λ keyBytes,
      with_input value valueLength out (λ valueBytes,
        match ttlOption ttlSeconds with
        | inl err => statusFor (Some err) out
        | inr ttl =>
            r ← on_database handle w
                  (PutBytes keyBytes valueBytes
                     (match ttl with Some _ => [ttl] | None => [] end));
            statusFor (error_of r) out
        end))).

(** A value is returned as a buffer of the caller. *)
Definition return_bytes (value : bytes) : C (outcome (Z * Z)) :=
  p ← C_CBytes value; mret (mkOutcome statusOK None (Some (p, slice_length value))).

Definition kvlite_get handle (key : option bytes) (keyLength : Z) (outValue outLength out : bool)
    : C (outcome (Z * Z)) :=
  with_database handle out (λ w,
    if negb outValue || negb outLength
    then statusFor (Some (required ⟦"output value and length are required"⟧)) out
    else with_key key keyLength out (λ keyBytes,
      r ← on_database handle w (GetBytes keyBytes);
      match r with inl err => statusFor (Some err) out | inr value => return_bytes value end)).

Definition kvlite_delete handle (key : option bytes) (keyLength : Z) out : C (outcome unit) :=
  with_database handle out (λ w,
    with_key key keyLength out (λ keyBytes,
      r ← on_database handle w (DB.Delete keyBytes); statusFor (error_of r) out)).

Definition kvlite_free (pointer : Z) : C unit := C_free pointer.

(** [rawStore]: the record view of a database, [db.Transport()]. *)
Definition rawStore {A} handle out (k : World E → C (outcome A)) : C (outcome A) :=
  with_database handle out k.

Definition kvlite_raw_put handle (key : option bytes) (keyLength : Z) (value : option bytes)
    (valueLength : Z) out : C (outcome unit) :=
  rawStore handle out (λ w,
    with_key key keyLength out (λ keyBytes,
      with_input value valueLength out (λ valueBytes,
        r ← on_database handle w (transport_Put keyBytes valueBytes);
        statusFor (error_of r) out))).

Definition kvlite_raw_get handle (key : option bytes) (keyLength : Z) (outValue outLength out : bool)
    : C (outcome (Z * Z)) :=
  rawStore handle out (λ w,
    if negb outValue || negb outLength
    then statusFor (Some (required ⟦"output value and length are required"⟧)) out
    else with_key key keyLength out (λ keyBytes,
      r ← on_database handle w (transport_Get keyBytes);
      match r with
      | inl err => statusFor (Some err) out
      | inr None => statusFor (Some (ESentinel ErrNotFound)) out
      | inr (Some value) => return_bytes value
      end)).

Definition kvlite_raw_delete handle (key : option bytes) (keyLength : Z) out : C (outcome unit) :=
  rawStore handle out (λ w,
    with_key key keyLength out (λ keyBytes,
      r ← on_database handle w (transport_Delete keyBytes); statusFor (error_of r) out)).

Definition kvlite_raw_scan_open handle (pfx : option bytes) (prefixLength : Z) (outCursor out : bool)
    : C (outcome Z) :=
  rawStore handle out (λ w,
    if negb outCursor then statusFor (Some (required ⟦"output cursor is required"⟧)) out
    else with_input pfx prefixLength out (λ prefixBytes,
      r ← on_database handle w
            (transport_ScanPrefix prefixBytes
               (λ '(key, value) snapshot,
                  mret (mkSnapshot (snap_keys snapshot ++ [key]) (snap_values snapshot ++ [value]) 0))
               (mkSnapshot [] [] 0));
      match r with
      | inl err => statusFor (Some err) out
      | inr snapshot =>
          s ← get_lib;
          let cursor := cap_cursor_next s in
          _ ← put_lib (mkCapi (cap_databases s) (cap_next s) (<[cursor := snapshot]> (cap_cursors s))
                         ((cap_cursor_next s + 1) mod 2 ^ 64) (cap_released s) (cap_outside s));
          mret (mkOutcome statusOK None (Some cursor))
      end)).

Definition lookupCursor cursor out : C (option scanSnapshot * option Z) :=
  s ← get_lib;
  match cap_cursors s !! cursor with
  | Some snapshot => mret (Some snapshot, None)
  | None => text ← setError out (invalid_cursor cursor); mret (None, text)
  end.

(** Exhaustion is [statusNotFound] without an error text. *)
Definition kvlite_raw_scan_next cursor (outKey outKeyLength outValue outValueLength out : bool)
    : C (outcome ((Z * Z) * (Z * Z))) :=
  '(found, text) ← lookupCursor cursor out;
  match found with
  | None => mret (mkOutcome statusInvalid text None)
  | Some snapshot =>
      if negb outKey || negb outKeyLength || negb outValue || negb outValueLength
      then statusFor (Some (required ⟦"output key, value, and lengths are required"⟧)) out
      else if bool_decide (length (snap_keys snapshot) ≤ snap_next snapshot)
      then mret (mkOutcome statusNotFound None None)
      else match snap_keys snapshot !! snap_next snapshot, snap_values snapshot !! snap_next snapshot with
           | Some key, Some value =>
               s ← get_lib;
               _ ← put_lib (mkCapi (cap_databases s) (cap_next s)
                     (<[cursor := mkSnapshot (snap_keys snapshot) (snap_values snapshot)
                                    (Datatypes.S (snap_next snapshot))]> (cap_cursors s))
                     (cap_cursor_next s) (cap_released s) (cap_outside s));
               k ← C_CBytes key;
               v ← C_CBytes value;
               mret (mkOutcome statusOK None (Some ((k, slice_length key), (v, slice_length value))))
           | _, _ => crash
           end
  end.

Definition kvlite_raw_scan_close cursor out : C (outcome unit) :=
  s ← get_lib;
  match cap_cursors s !! cursor with
  | None => statusFor (Some (invalid_cursor cursor)) out
  | Some _ =>
      _ ← put_lib (mkCapi (cap_databases s) (cap_next s) (delete cursor (cap_cursors s))
                     (cap_cursor_next s) (cap_released s) (cap_outside s));
      mret (mkOutcome statusOK None None)
  end.
End capi.
