(* ===== verification/ModuleLoader.v ===== *)
(** * Packaged drivers as shared libraries ([driver_module_loader.go])

    The table of functions resolved in a library, the Go methods that call
    them, and the storage engine on top. The dynamic linker is a parameter:
    [dlopen] gives the symbols of a library or the text of [dlerror]. *)

From S2P Require Import Prelude Errors Engine Effects MemDriver Envelope Keys ListCodec Text DriverName DB Collections Transport PathClean Modules Backend CMemory.

(** The functions of a library over its state; [None] is an unresolved
    symbol. [api_library] is the handle of the library, cleared by unload. *)
Record kvlite_module_api (S : Type) := mkApi {
  api_library : bool;
  api_abi_version : option (CM S Z);
  api_open_with_driver : option (Z → Z → bool → bool → CM S (outcome Z));
  api_open_with_backend : option (Z → Z → bool → bool → CM S (outcome Z));
  api_open : option (Z → bool → bool → CM S (outcome Z));
  api_close : option (Z → bool → CM S (outcome unit));
  api_free : option (Z → CM S unit);
  api_raw_put : option (Z → option bytes → Z → option bytes → Z → bool → CM S (outcome unit));
  api_raw_get : option (Z → option bytes → Z → bool → bool → bool → CM S (outcome (Z * Z)));
  api_raw_delete : option (Z → option bytes → Z → bool → CM S (outcome unit));
  api_raw_scan_open : option (Z → option bytes → Z → bool → bool → CM S (outcome Z));
  api_raw_scan_next :
    option (Z → bool → bool → bool → bool → bool → CM S (outcome ((Z * Z) * (Z * Z))));
  api_raw_scan_close : option (Z → bool → CM S (outcome unit))
}.
Arguments mkApi {S}.
Arguments api_library {S}.
Arguments api_abi_version {S}.
Arguments api_open_with_driver {S}.
Arguments api_open_with_backend {S}.
Arguments api_open {S}.
Arguments api_close {S}.
Arguments api_free {S}.
Arguments api_raw_put {S}.
Arguments api_raw_get {S}.
Arguments api_raw_delete {S}.
Arguments api_raw_scan_open {S}.
Arguments api_raw_scan_next {S}.
Arguments api_raw_scan_close {S}.

Record moduleDriverEngine (S : Type) := mkModuleEngine {
  eng_library : option (kvlite_module_api S);
  eng_handle : Z;
  eng_closed : bool
}.
Arguments mkModuleEngine {S}.
Arguments eng_library {S}.
Arguments eng_handle {S}.
Arguments eng_closed {S}.

(** [nativeModuleStatusError]; [message] is the text the library gave. *)
Definition nativeModuleStatusError (status : Z) (message operation : bytes) : option GoError :=
  if bool_decide (status = 0)%Z then None
  else
    let message := if bool_decide (message = [])
                   then ⟦"module "⟧ ++ operation ++ ⟦" failed with status "⟧ ++ format_int status
                   else message in
    Some (if bool_decide (status = 1)%Z then errorf ErrNotFound message
          else if bool_decide (status = 2)%Z then errorf ErrInvalidArgument message
          else errorf ErrDriverUnavailable message).

Section loader.
Context {GT : GoText} {S : Type} (dlopen : bytes → option bytes + kvlite_module_api S)
  (GOOS_GOARCH : bytes) (getenv : bytes → bytes).
Abbreviation C := (CM S).
Implicit Types (api library : kvlite_module_api S) (engine : moduleDriverEngine S).

(** ** The C shims *)

(** A message the C code allocates for an output that is not null. *)
Definition set_loader_error (message : bytes) : C (option Z) :=
  if bool_decide (message = []) then mret None else p ← C_CString message; mret (Some p).

Definition missing_symbol (symbol : bytes) : bytes :=
  ⟦"library is missing required symbol '"⟧ ++ symbol ++ ⟦"'"⟧.

(** The symbols every library must have, in the order they are resolved. *)
Definition required_symbols api : list (bytes * bool) :=
  let present {A} (f : option A) := bool_decide (is_Some f) in
  [(⟦"kvlite_abi_version"⟧, present (api_abi_version api));
   (⟦"kvlite_close"⟧, present (api_close api));
   (⟦"kvlite_raw_put"⟧, present (api_raw_put api));
   (⟦"kvlite_raw_get"⟧, present (api_raw_get api));
   (⟦"kvlite_raw_delete"⟧, present (api_raw_delete api));
   (⟦"kvlite_raw_scan_open"⟧, present (api_raw_scan_open api));
   (⟦"kvlite_raw_scan_next"⟧, present (api_raw_scan_next api));
   (⟦"kvlite_raw_scan_close"⟧, present (api_raw_scan_close api));
   (⟦"kvlite_free"⟧, present (api_free api))].

Definition has_open api : bool :=
  bool_decide (is_Some (api_open_with_driver api)) || bool_decide (is_Some (api_open_with_backend api))
  || bool_decide (is_Some (api_open api)).

(** [kvlite_module_load]: the table, or a status and a message. *)
Definition kvlite_module_load (path : Z) : C (outcome (kvlite_module_api S)) :=
  let failed message := text ← set_loader_error message; mret (mkOutcome 1 text None) in
  name ← C_GoString path;
  if bool_decide (name = []) then failed ⟦"library path is required"⟧
  else match dlopen name with
       | inl error => failed (default ⟦"dynamic loader error"⟧ error)
       | inr api =>
           match list_find (λ '(_, present), present = false) (required_symbols api) with
           | Some (_, (symbol, _)) => failed (missing_symbol symbol)
           | None => if has_open api then mret (mkOutcome 0 None (Some api))
                     else failed ⟦"library has no usable open() function"⟧
           end
       end.

(** A call through a pointer that may be null: status 1 and no output. *)
Definition through {F A} (f : option F) (call : F → C (outcome A)) : C (outcome A) :=
  match f with Some f => call f | None => mret (mkOutcome 1 None None) end.

Definition kvlite_module_open api (path driver : Z) : C (outcome Z) :=
  match api_open_with_driver api, api_open_with_backend api, api_open api with
  | Some f, _, _ => f path driver true true
  | None, Some f, _ => f path driver true true
  | None, None, Some f => f path true true
  | None, None, None =>
      text ← set_loader_error ⟦"library is missing a usable open function"⟧; mret (mkOutcome 1 text None)
  end.

Definition kvlite_module_free api (pointer : Z) : C unit :=
  match api_free api with
  | Some f => if bool_decide (pointer = 0)%Z then mret tt else f pointer
  | None => mret tt
  end.

Definition kvlite_module_unload api : kvlite_module_api S :=
  mkApi false (api_abi_version api) (api_open_with_driver api) (api_open_with_backend api)
    (api_open api) (api_close api) (api_free api) (api_raw_put api) (api_raw_get api)
    (api_raw_delete api) (api_raw_scan_open api) (api_raw_scan_next api) (api_raw_scan_close api).

(** ** The library in Go *)

(** [readCStringAndFree] of an output variable that starts as null. *)
Definition readCStringAndFree (pointer : option Z) : C bytes :=
  match pointer with
  | None => mret []
  | Some p => if bool_decide (p = 0)%Z then mret []
              else message ← C_GoString p; _ ← C_free p; mret message
  end.

(** The error of a finished call. *)
Definition status_error {A} (o : outcome A) (operation : bytes) : C (option GoError) :=
  message ← readCStringAndFree (out_error o);
  mret (nativeModuleStatusError (out_status o) message operation).

Definition intel_macos : GoError :=
  errorf ErrDriverNotLoaded
    ⟦"loading Go driver modules is not supported on Intel macOS; use a linked driver build (for example -tags kvlite_leveldb) or load the C ABI from a non-Go host"⟧.

Definition openModuleSharedLibrary (artifactPath : bytes) : C (GoError + kvlite_module_api S) :=
  if bool_decide (GOOS_GOARCH = ⟦"darwin-amd64"⟧) && bool_decide (getenv ⟦"KVLITE_ALLOW_INTEL_DLOPEN"⟧ = [])
  then mret (inl intel_macos)
  else
    cPath ← C_CString artifactPath;
    loaded ← kvlite_module_load cPath;
    r ← (if bool_decide (out_status loaded ≠ 0)%Z then
           message ← readCStringAndFree (out_error loaded);
           mret (inl (errorf ErrDriverNotLoaded
                        (if bool_decide (message = []) then ⟦"unable to load module shared library"⟧
                         else message)))
         else match out_value loaded with
              | None => crash
              | Some library =>
                  match api_abi_version library with
                  | None => mret (inl (ENew (⟦"kvlite: module ABI check failed: "⟧
                                             ++ ⟦"library is missing kvlite_abi_version"⟧)))
                  | Some f =>
                      result ← f;
                      let version := (result mod 2 ^ 32)%Z in
                      if bool_decide (version ≠ ModuleABIVersion)
                      then mret (inl (errorf ErrModuleIncompatible
                             (⟦"module ABI mismatch, expected "⟧ ++ format_int ModuleABIVersion
                              ++ ⟦" got "⟧ ++ format_int version)))
                      else mret (inr library)
                  end
              end);
    _ ← C_free cPath;
    mret r.

Definition library_open library (path driver : bytes) : C (GoError + Z) :=
  cPath ← C_CString path;
  cDriver ← C_CString driver;
  o ← kvlite_module_open library cPath cDriver;
  err ← status_error o ⟦"open"⟧;
  _ ← C_free cDriver;
  _ ← C_free cPath;
  mret (match err with Some e => inl e | None => inr (default 0%Z (out_value o)) end).

Definition library_close library (handle : Z) : C (option GoError) :=
  o ← through (api_close library) (λ f, f handle true);
  status_error o ⟦"close"⟧.

Definition library_put library (handle : Z) (key value : bytes) : C (option GoError) :=
  o ← through (api_raw_put library) (λ f,
        f handle (slice_pointer key) (slice_length key) (slice_pointer value) (slice_length value) true);
  status_error o ⟦"put"⟧.

(** The value variable starts as null and its length as 0. *)
Definition library_get library (handle : Z) (key : bytes) : C (GoError + bytes) :=
  o ← through (api_raw_get library) (λ f,
        f handle (slice_pointer key) (slice_length key) true true true);
  err ← status_error o ⟦"get"⟧;
  match err with
  | Some e => mret (inl e)
  | None =>
      let '(value, valueLength) := default (0, 0)%Z (out_value o) in
      if bool_decide (value = 0)%Z then mret (inr [])
      else if bool_decide (valueLength = 0)%Z
      then _ ← kvlite_module_free library value; mret (inr [])
      else result ← C_GoBytes value (c_int valueLength);
           _ ← kvlite_module_free library value;
           mret (inr result)
  end.

Definition library_delete library (handle : Z) (key : bytes) : C (option GoError) :=
  o ← through (api_raw_delete library) (λ f, f handle (slice_pointer key) (slice_length key) true);
  status_error o ⟦"delete"⟧.

Definition scan_close library (cursor : Z) : C (option GoError) :=
  o ← through (api_raw_scan_close library) (λ f, f cursor true);
  status_error o ⟦"scan close"⟧.

(** The loop over [kvlite_raw_scan_next]: the records read, or the error that
    ended it. [fuel] bounds the number of calls. *)
Fixpoint scan_records (fuel : nat) library (cursor : Z) (read : list (bytes * bytes))
    : C (GoError + list (bytes * bytes)) :=
  match fuel with
  | O => crash
  | Datatypes.S fuel =>
      o ← through (api_raw_scan_next library) (λ f, f cursor true true true true true);
      if bool_decide (out_status o = 1)%Z then mret (inr read)
      else
        err ← status_error o ⟦"scan next"⟧;
        match err with
        | Some e => mret (inl e)
        | None =>
            let '((cKey, cKeyLength), (cValue, cValueLength)) :=
              default ((0, 0), (0, 0))%Z (out_value o) in
            key ← C_GoBytes cKey (c_int cKeyLength);
            _ ← kvlite_module_free library cKey;
            value ← C_GoBytes cValue (c_int cValueLength);
            _ ← kvlite_module_free library cValue;
            scan_records fuel library cursor (read ++ [(key, value)])
        end
  end.

Definition library_scanPrefix (fuel : nat) library (handle : Z) (pfx : bytes)
    : C (GoError + list (bytes * bytes)) :=
  o ← through (api_raw_scan_open library) (λ f,
        f handle (slice_pointer pfx) (slice_length pfx) true true);
  if bool_decide (out_status o ≠ 0)%Z then
    err ← status_error o ⟦"scan open"⟧;
    match err with Some e => mret (inl e) | None => mret (inr []) end
  else
    let cursor := default 0%Z (out_value o) in
    r ← scan_records fuel library cursor [];
    match r with
    | inl e => _ ← scan_close library cursor; mret (inl e)
    | inr records =>
        err ← scan_close library cursor;
        mret (match err with Some e => inl e | None => inr records end)
    end.

(** ** The engine

    The context of a call is not used. A nil library is a run-time panic. *)

Definition with_library {A} engine (k : kvlite_module_api S → C A) : C A :=
  match eng_library engine with Some library => k library | None => crash end.

Definition module_Get (key : bytes) engine : C (GoError + option bytes) :=
  if bool_decide (key = []) then mret (inl (errorf ErrInvalidArgument ⟦"key is required"⟧))
  else if eng_closed engine then mret (inl (ESentinel ErrClosed))
  else
    data ← with_library engine (λ library, library_get library (eng_handle engine) key);
    mret (match data with
          | inl e => if errors_Is e ErrNotFound then inr None else inl e
          | inr data => inr (Some data)
          end).

Definition module_Put (key value : bytes) engine : C (option GoError) :=
  if eng_closed engine then mret (Some (ESentinel ErrClosed))
  else with_library engine (λ library, library_put library (eng_handle engine) key value).

Definition module_Delete (key : bytes) engine : C (option GoError) :=
  if eng_closed engine then mret (Some (ESentinel ErrClosed))
  else with_library engine (λ library, library_delete library (eng_handle engine) key).

(** The records delivered to the callback, and the error. *)
Definition module_ScanPrefix (fuel : nat) (pfx : bytes) engine
    : C (list (bytes * bytes) * option GoError) :=
  if eng_closed engine then mret ([], Some (ESentinel ErrClosed))
  else
    r ← with_library engine (λ library, library_scanPrefix fuel library (eng_handle engine) pfx);
    mret (match r with inl e => ([], Some e) | inr items => (items, None) end).

Definition module_Close engine : C (option GoError * moduleDriverEngine S) :=
  if eng_closed engine then mret (None, engine)
  else match eng_library engine with
       | None => mret (None, mkModuleEngine None (eng_handle engine) true)
       | Some library =>
           err ← library_close library (eng_handle engine);
           mret (err, mkModuleEngine (Some (kvlite_module_unload library)) (eng_handle engine) true)
       end.

(** [fmt.Errorf("kvlite: open module artifact: %w", err)]. *)
Definition openModuleDriverFromArtifact (path : bytes) (module : Module_)
    : C (GoError + moduleDriverEngine S) :=
  match ArtifactForCurrentPlatform GOOS_GOARCH module [ModuleArtifactCShared] with
  | Panic => crash
  | Err err => mret (inl (wrapf ⟦"kvlite: open module artifact: "⟧ err))
  | Ok artifact =>
      match ArtifactPath module artifact with
      | Panic => crash
      | Err err => mret (inl (wrapf ⟦"kvlite: module artifact path: "⟧ err))
      | Ok artifactPath =>
          opened ← openModuleSharedLibrary artifactPath;
          match opened with
          | inl err => mret (inl err)
          | inr library =>
              handle ← library_open library path (man_Driver (mod_Manifest module));
              mret (match handle with
                    | inl err => inl err
                    | inr handle => inr (mkModuleEngine (Some library) handle false)
                    end)
          end
      end
  end.
End loader.
