(* ===== verification/LoaderProps.v ===== *)
(** * Properties of the loader of shared libraries

    The interface between a loaded library and its host: [RecordLibrary]
    states what the record functions of a library do to its databases and to
    the shared heap. The engine of the loader is proved against it; the C
    interface of this repository is an instance. *)

From S2P Require Import Prelude Errors Engine Effects MemDriver Envelope Keys ListCodec Text DriverName DB Collections Transport PathClean Modules Backend CMemory CApi ModuleLoader.

(** The record functions of a library. *)
Record record_functions (S : Type) := mkFunctions {
  rf_put : Z → option bytes → Z → option bytes → Z → bool → CM S (outcome unit);
  rf_get : Z → option bytes → Z → bool → bool → bool → CM S (outcome (Z * Z));
  rf_delete : Z → option bytes → Z → bool → CM S (outcome unit);
  rf_scan_open : Z → option bytes → Z → bool → bool → CM S (outcome Z);
  rf_scan_next : Z → bool → bool → bool → bool → bool → CM S (outcome ((Z * Z) * (Z * Z)));
  rf_scan_close : Z → bool → CM S (outcome unit)
}.
Arguments mkFunctions {S}.
Arguments rf_put {S}.
Arguments rf_get {S}.
Arguments rf_delete {S}.
Arguments rf_scan_open {S}.
Arguments rf_scan_next {S}.
Arguments rf_scan_close {S}.

(** A Go slice, and one a C [int] can measure. *)
Definition fits (b : bytes) : Prop := (slice_length b ≤ maxInt64)%Z.
Definition small (b : bytes) : Prop := (slice_length b < 2 ^ 31)%Z.

(** ** The interface

    [serves s h m]: the handle [h] is an open database with the records [m].
    [at_cursor s c items]: the cursor [c] has still to deliver [items]. Every
    call leaves the heap as it was but for the buffers it returns, and leaves
    the other databases alone. *)

Class RecordLibrary {S : Type} (f : record_functions S) := {
  serves : S → Z → gmap bytes bytes → Prop;
  at_cursor : S → Z → list (bytes * bytes) → Prop;
  others (h : Z) (s s' : S) : Prop := ∀ h' m', h' ≠ h → serves s h' m' → serves s' h' m';
  lib_put st h m key value :
    heap_ok st → serves (c_lib st) h m → key ≠ [] → fits key → fits value →
    cwp (rf_put f h (slice_pointer key) (slice_length key) (slice_pointer value) (slice_length value) true)
      (λ o st', o = mkOutcome 0 None None ∧ c_heap st' = c_heap st ∧ heap_ok st'
        ∧ serves (c_lib st') h (<[key := value]> m) ∧ others h (c_lib st) (c_lib st')) st;
  lib_get st h m key :
    heap_ok st → serves (c_lib st) h m → key ≠ [] → fits key →
    cwp (rf_get f h (slice_pointer key) (slice_length key) true true true)
      (λ o st', (∃ p, p ≠ 0%Z ∧ c_heap st !! p = None ∧
         match m !! key with
         | Some v => o = mkOutcome 0 None (Some (p, slice_length v)) ∧ c_heap st' = <[p := v]> (c_heap st)
         | None => o = mkOutcome 1 (Some p) None ∧ ∃ t, c_heap st' = <[p := t ++ [NUL]]> (c_heap st)
         end)
        ∧ heap_ok st' ∧ serves (c_lib st') h m ∧ others h (c_lib st) (c_lib st')) st;
  lib_delete st h m key :
    heap_ok st → serves (c_lib st) h m → key ≠ [] → fits key →
    cwp (rf_delete f h (slice_pointer key) (slice_length key) true)
      (λ o st', o = mkOutcome 0 None None ∧ c_heap st' = c_heap st ∧ heap_ok st'
        ∧ serves (c_lib st') h (delete key m) ∧ others h (c_lib st) (c_lib st')) st;
  lib_scan_open st h m pfx :
    heap_ok st → serves (c_lib st) h m → fits pfx →
    cwp (rf_scan_open f h (slice_pointer pfx) (slice_length pfx) true true)
      (λ o st', ∃ c items, o = mkOutcome 0 None (Some c) ∧ items ≡ₚ matches m pfx
        ∧ at_cursor (c_lib st') c items ∧ c_heap st' = c_heap st ∧ heap_ok st'
        ∧ serves (c_lib st') h m ∧ others h (c_lib st) (c_lib st')) st;
  lib_scan_next st c items :
    heap_ok st → at_cursor (c_lib st) c items →
    cwp (rf_scan_next f c true true true true true)
      (λ o st', match items with
         | [] => o = mkOutcome 1 None None ∧ st' = st
         | (k, v) :: rest =>
             ∃ p q, o = mkOutcome 0 None (Some ((p, slice_length k), (q, slice_length v)))
               ∧ p ≠ 0%Z ∧ q ≠ 0%Z ∧ c_heap st !! p = None ∧ c_heap st !! q = None ∧ p ≠ q
               ∧ c_heap st' = <[p := k]> (<[q := v]> (c_heap st)) ∧ heap_ok st'
               ∧ at_cursor (c_lib st') c rest
               ∧ (∀ h m, serves (c_lib st) h m → serves (c_lib st') h m)
         end) st;
  lib_scan_close st c items :
    heap_ok st → at_cursor (c_lib st) c items →
    cwp (rf_scan_close f c true)
      (λ o st', o = mkOutcome 0 None None ∧ c_heap st' = c_heap st ∧ heap_ok st'
        ∧ (∀ h m, serves (c_lib st) h m → serves (c_lib st') h m)) st
}.

(** The table of a library that exports [f] and frees with [C.free]. *)
Definition exports {S} (api : kvlite_module_api S) (f : record_functions S) : Prop :=
  api_raw_put api = Some (rf_put f) ∧ api_raw_get api = Some (rf_get f)
  ∧ api_raw_delete api = Some (rf_delete f) ∧ api_raw_scan_open api = Some (rf_scan_open f)
  ∧ api_raw_scan_next api = Some (rf_scan_next f) ∧ api_raw_scan_close api = Some (rf_scan_close f)
  ∧ api_free api = Some C_free.

(** ** The engine of the loader *)

Section engine.
Context {S : Type} (f : record_functions S) `{!RecordLibrary f} (api : kvlite_module_api S).
Hypothesis api_exports : exports api f.
Implicit Types (st : cstate S) (engine : moduleDriverEngine S) (m : gmap bytes bytes) (key value pfx : bytes).

(** The engine is open on a handle that serves [m]. *)
Definition attached engine m st : Prop :=
  eng_library engine = Some api ∧ eng_closed engine = false
  ∧ heap_ok st ∧ serves (c_lib st) (eng_handle engine) m.

(** What an operation leaves: no buffer is lost, the other databases of the
    library are as they were, and this one holds [m]. *)
Definition leaves engine m st st' : Prop :=
  c_heap st' = c_heap st ∧ attached engine m st'
  ∧ others (eng_handle engine) (c_lib st) (c_lib st').

Lemma cwp_quiet {A} (v : option A) operation Q st :
  Q None st → cwp (status_error (mkOutcome 0 None v) operation) Q st.
Proof. done. Qed.

Lemma cwp_module_free p block h brk (s : S) Q :
  p ≠ 0%Z → h !! p = None → heap_ok (mkC (<[p := block]> h) brk s) →
  (heap_ok (mkC h brk s) → Q tt (mkC h brk s)) →
  cwp (kvlite_module_free api p) Q (mkC (<[p := block]> h) brk s).
Proof using api_exports.
  destruct api_exports as (_ & _ & _ & _ & _ & _ & Hf). intros Hp Hh Hok HQ.
  unfold kvlite_module_free. rewrite Hf, bool_decide_eq_false_2 by done. by apply cwp_free_fresh.
Qed.

(** A text the library allocated is read and freed. *)
Lemma cwp_read_and_free p t h brk (s : S) Q :
  p ≠ 0%Z → h !! p = None → heap_ok (mkC (<[p := t ++ [NUL]]> h) brk s) →
  (∀ u, heap_ok (mkC h brk s) → Q u (mkC h brk s)) →
  cwp (readCStringAndFree (Some p)) Q (mkC (<[p := t ++ [NUL]]> h) brk s).
Proof.
  intros Hp Hh Hok HQ. unfold readCStringAndFree. rewrite bool_decide_eq_false_2 by done.
  apply cwp_bind. eapply cwp_GoString; [done|by rewrite lookup_insert_eq|]. intros u _.
  apply cwp_bind. apply cwp_free_fresh; [done..|]. intros Hok'. by apply cwp_ret, HQ.
Qed.

Lemma module_Put_attached key value m engine st :
  attached engine m st → key ≠ [] → fits key → fits value →
  cwp (module_Put key value engine)
    (λ r st', r = None ∧ leaves engine (<[key := value]> m) st st') st.
Proof using api_exports.
  intros (Hl & Hc & Hok & Hs) Hk Hfk Hfv. unfold module_Put, with_library, library_put.
  rewrite Hc, Hl. destruct api_exports as (-> & _). apply cwp_bind.
  eapply cwp_mono; [by apply lib_put|]. intros o st' (-> & Hh & Hok' & Hs' & Ho).
  by apply cwp_quiet.
Qed.

Lemma module_Delete_attached key m engine st :
  attached engine m st → key ≠ [] → fits key →
  cwp (module_Delete key engine) (λ r st', r = None ∧ leaves engine (delete key m) st st') st.
Proof using api_exports.
  intros (Hl & Hc & Hok & Hs) Hk Hfk. unfold module_Delete, with_library, library_delete.
  rewrite Hc, Hl. destruct api_exports as (_ & _ & -> & _). apply cwp_bind.
  eapply cwp_mono; [by apply lib_delete|]. intros o st' (-> & Hh & Hok' & Hs' & Ho).
  by apply cwp_quiet.
Qed.

Lemma module_Get_attached key m engine st :
  attached engine m st → key ≠ [] → fits key → (∀ v, m !! key = Some v → small v) →
  cwp (module_Get key engine) (λ r st', r = inr (m !! key) ∧ leaves engine m st st') st.
Proof using api_exports.
  intros (Hl & Hc & Hok & Hs) Hk Hfk Hv. unfold module_Get, with_library, library_get.
  rewrite bool_decide_eq_false_2 by done. rewrite Hc, Hl.
  pose proof api_exports as (_ & -> & _). apply cwp_bind, cwp_bind.
  eapply cwp_mono; [by apply lib_get|]. intros o [h' brk s'] ((p & Hp & Hfr & Ho) & Hok' & Hs' & Hoth).
  cbn [c_heap c_lib] in *. apply cwp_bind. destruct (m !! key) as [v|].
  - destruct Ho as [-> ->]. apply cwp_quiet. cbn [out_value default id].
    rewrite bool_decide_eq_false_2 by done.
    case_bool_decide as Hz; apply cwp_bind.
    + apply cwp_module_free; [done..|]. intros Hok''. apply cwp_ret, cwp_ret.
      destruct v; [|unfold slice_length in Hz; cbn in Hz; lia]. done.
    + apply cwp_GoBytes; [by rewrite lookup_insert_eq|by apply Hv|]. apply cwp_bind.
      apply cwp_module_free; [done..|]. intros Hok''. by apply cwp_ret, cwp_ret.
  - destruct Ho as [-> [t ->]]. unfold status_error. apply cwp_bind.
    apply cwp_read_and_free; [done..|]. intros u Hok''. cbn [out_status]. apply cwp_ret.
    unfold nativeModuleStatusError. rewrite bool_decide_eq_false_2 by done.
    rewrite bool_decide_eq_true_2 by done. apply cwp_ret, cwp_ret. by rewrite errors_Is_errorf.
Qed.

(** The loop delivers what the cursor still has, in its order. *)
Lemma cwp_scan_records c : ∀ items fuel read st,
  heap_ok st → at_cursor (c_lib st) c items → Forall (λ kv, small kv.1 ∧ small kv.2) items →
  length items < fuel →
  cwp (scan_records fuel api c read)
    (λ r st', r = inr (read ++ items) ∧ at_cursor (c_lib st') c [] ∧ c_heap st' = c_heap st ∧ heap_ok st'
       ∧ ∀ h m, serves (c_lib st) h m → serves (c_lib st') h m) st.
Proof using api_exports.
  induction items as [|[k v] items IH]; intros [|fuel] read st Hok Hat Hsm Hf; cbn [length] in Hf;
    [lia| |lia|]; cbn [scan_records]; pose proof api_exports as (_ & _ & _ & _ & -> & _);
    apply cwp_bind; (eapply cwp_mono; [by apply lib_scan_next|]); cbn beta iota.
  - intros o st' [-> ->]. cbn [out_status]. rewrite bool_decide_eq_true_2 by done.
    apply cwp_ret. by rewrite app_nil_r.
  - intros o [h' brk s'] (p & q & -> & Hp & Hq & Hfp & Hfq & Hpq & Hh & Hok' & Hat' & Hsv).
    apply Forall_cons in Hsm as [[Hk Hv] Hsm]. cbn [c_heap c_lib fst snd out_status out_value] in *. subst h'.
    rewrite bool_decide_eq_false_2 by done. apply cwp_bind, cwp_quiet. cbn [default id].
    apply cwp_bind, cwp_GoBytes; [by rewrite lookup_insert_eq|done|].
    apply cwp_bind, cwp_module_free; [done| |done|]; [by rewrite lookup_insert_ne|]. intros Hok1.
    apply cwp_bind, cwp_GoBytes; [by rewrite lookup_insert_eq|done|].
    apply cwp_bind, cwp_module_free; [done..|]. intros Hok2.
    eapply cwp_mono; [apply (IH fuel); [done|done|done|lia]|]. cbn [c_heap c_lib].
    intros r st' (-> & Hat'' & Hh & Hok3 & Hsv'). rewrite <-app_assoc. naive_solver.
Qed.

Lemma module_Scan_attached pfx m engine st :
  attached engine m st → fits pfx →
  Forall (λ kv, small kv.1 ∧ small kv.2) (matches m pfx) →
  ∃ items, items ≡ₚ matches m pfx ∧
    ∀ fuel, length items < fuel →
    cwp (module_ScanPrefix fuel pfx engine)
      (λ r st', r = (items, None) ∧ leaves engine m st st') st.
Proof using api_exports.
  intros (Hl & Hc & Hok & Hs) Hf Hsm.
  pose proof (lib_scan_open st (eng_handle engine) m pfx Hok Hs Hf) as Hopen.
  apply cwp_some in Hopen as (o & st1 & Hrun & c & items & -> & Hperm & Hat & Hh1 & Hok1 & Hs1 & Hoth1).
  exists items. split; [done|]. intros fuel Hfuel.
  unfold module_ScanPrefix, with_library, library_scanPrefix. rewrite Hc, Hl.
  pose proof api_exports as (_ & _ & _ & Ho & _ & Hcl & _). apply cwp_bind, cwp_bind.
  rewrite Ho. apply cwp_some. eexists _, _. split; [exact Hrun|].
  cbn [out_status out_value default id]. rewrite bool_decide_eq_false_2 by (intros H; by apply H).
  apply cwp_bind. eapply cwp_mono; [apply (cwp_scan_records c items fuel [] st1); [done|done| |done]|].
  { by rewrite Hperm. }
  intros r st2 (-> & Hat2 & Hh2 & Hok2 & Hs2). unfold scan_close. rewrite Hcl. apply cwp_bind, cwp_bind.
  eapply cwp_mono; [by eapply lib_scan_close|]. intros o st3 (-> & Hh3 & Hok3 & Hs3).
  apply cwp_quiet, cwp_ret, cwp_ret. split; [done|]. split_and!; [congruence| |].
  - split_and!; auto.
  - intros h' m' Hne Hsv. auto.
Qed.

(** C22: A packaged driver is its library's record map. On an engine opened on a
    handle that serves [m], a read yields the record, a write and a delete
    change exactly that record, and a scan delivers the records under the
    prefix, each once, and ends. No call crashes, every buffer the library
    allocates is freed exactly once, and the library's other databases are as
    they were. Records that are read must be shorter than 2 GiB. *)
Theorem module_engine_is_library_map m engine st :
  attached engine m st →
  (∀ key, key ≠ [] → fits key → (∀ v, m !! key = Some v → small v) →
     cwp (module_Get key engine) (λ r st', r = inr (m !! key) ∧ leaves engine m st st') st)
  ∧ (∀ key value, key ≠ [] → fits key → fits value →
     cwp (module_Put key value engine) (λ r st', r = None ∧ leaves engine (<[key := value]> m) st st') st)
  ∧ (∀ key, key ≠ [] → fits key →
     cwp (module_Delete key engine) (λ r st', r = None ∧ leaves engine (delete key m) st st') st)
  ∧ (∀ pfx, fits pfx → Forall (λ kv, small kv.1 ∧ small kv.2) (matches m pfx) →
     ∃ items, items ≡ₚ matches m pfx ∧ ∀ fuel, length items < fuel →
       cwp (module_ScanPrefix fuel pfx engine) (λ r st', r = (items, None) ∧ leaves engine m st st') st).
Proof using api_exports.
  intros Ha. split_and!; auto using module_Get_attached, module_Put_attached, module_Delete_attached,
    module_Scan_attached.
Qed.
End engine.

(** ** The C interface is a record library *)

Section capi.
Context {E : Type} `{!Engine E} `{!LocalEngine E} {S : Type} (now : nat → Z).
Abbreviation state := (capiState E S).
Implicit Types (st : cstate state) (s : state) (w : World E) (m : gmap bytes bytes) (key value pfx : bytes).

Definition capi_functions : record_functions state := {|
  rf_put := kvlite_raw_put now;
  rf_get := kvlite_raw_get now;
  rf_delete := kvlite_raw_delete now;
  rf_scan_open := kvlite_raw_scan_open now;
  rf_scan_next := kvlite_raw_scan_next;
  rf_scan_close := kvlite_raw_scan_close
|}.

(** A handle of a healthy database. *)
Definition open_database s (h : Z) w : Prop := cap_databases s !! h = Some w ∧ healthy w.

Definition capi_serves s (h : Z) m : Prop := ∃ w, open_database s h w ∧ records w = m.

Definition capi_at_cursor s (c : Z) (items : list (bytes * bytes)) : Prop :=
  ∃ snapshot, cap_cursors s !! c = Some snapshot
    ∧ length (snap_keys snapshot) = length (snap_values snapshot)
    ∧ zip (drop (snap_next snapshot) (snap_keys snapshot)) (drop (snap_next snapshot) (snap_values snapshot)) = items.

(** The state after a method of a database. *)
Definition set_database s (h : Z) w : state :=
  mkCapi (<[h := w]> (cap_databases s)) (cap_next s) (cap_cursors s) (cap_cursor_next s)
    (cap_released s) (cap_outside s).

Lemma set_database_others s h w h' m :
  h' ≠ h → capi_serves s h' m → capi_serves (set_database s h w) h' m.
Proof.
  intros Hne (w' & [Hw Hh] & <-). exists w'. split; [|done]. split; [|done].
  cbn. by rewrite lookup_insert_ne.
Qed.

Lemma set_database_serves s h w : healthy w → capi_serves (set_database s h w) h (records w).
Proof. intros Hh. exists w. split; [|done]. split; [|done]. cbn. by rewrite lookup_insert_eq. Qed.

(** A method runs on the records of its database. *)
Lemma cwp_on_database {A} h w (p : M A) (R : GoError + A → gmap bytes bytes → Prop) Q st :
  healthy w →
  wp (λ _, True) p (λ r m', match r with Ok a => R (inr a) m' | Err e => R (inl e) m' | Panic => False end)
    (records w) →
  (∀ r w', healthy w' → R r (records w') →
     Q r (mkC (c_heap st) (c_brk st) (set_database (c_lib st) h w'))) →
  cwp (on_database (S := S) now h w p) Q st.
Proof.
  intros Hw Hwp HQ. unfold on_database.
  pose proof (wp_sound (λ _, True) (mkEnv Background now) p _ w eq_refl (λ _, I) Hw Hwp) as [HR Hw'].
  destruct (run _ p w) as [r w'] eqn:Hrun. cbn [fst snd] in *.
  apply cwp_bind, cwp_get_lib, cwp_bind, cwp_put_lib.
  destruct r; [apply cwp_ret; by apply HQ..|done].
Qed.

Lemma cwp_with_database {A} h w out (k : World E → CM state (outcome A)) Q st :
  cap_databases (c_lib st) !! h = Some w → cwp (k w) Q st → cwp (with_database h out k) Q st.
Proof.
  intros Hw Hk. unfold with_database, lookup_db. apply cwp_bind, cwp_bind, cwp_get_lib.
  rewrite Hw. by apply cwp_ret.
Qed.

Lemma cwp_with_input {A} b out (k : bytes → CM state (outcome A)) Q st :
  fits b → cwp (k b) Q st → cwp (with_input (slice_pointer b) (slice_length b) out k) Q st.
Proof.
  unfold fits. intros Hf Hk. unfold with_input, inputBytes, slice_pointer.
  rewrite bool_decide_eq_false_2 by lia. apply cwp_bind. destruct b as [|c b]; [done|].
  rewrite !bool_decide_eq_false_2 by (done || (unfold slice_length; cbn; lia)).
  apply cwp_ret. unfold slice_length. by rewrite Nat2Z.id, firstn_all.
Qed.

Lemma cwp_with_key {A} b out (k : bytes → CM state (outcome A)) Q st :
  fits b → b ≠ [] → cwp (k b) Q st → cwp (with_key (slice_pointer b) (slice_length b) out k) Q st.
Proof.
  intros Hf Hne Hk. apply cwp_with_input; [done|]. by rewrite bool_decide_eq_false_2.
Qed.

(** Collecting a scan into a snapshot. *)
Lemma wp_snapshot readings items m (R : result scanSnapshot → gmap bytes bytes → Prop) : ∀ keys values,
  R (Ok (mkSnapshot (keys ++ items.*1) (values ++ items.*2) 0)) m →
  wp readings (for_each items (λ '(key, value) snapshot,
       mret (mkSnapshot (snap_keys snapshot ++ [key]) (snap_values snapshot ++ [value]) 0))
     (mkSnapshot keys values 0)) R m.
Proof.
  induction items as [|[k v] items IH]; intros keys values HR; cbn [for_each].
  - cbn. by rewrite !app_nil_r in HR.
  - wp_steps. cbn [snap_keys snap_values]. apply IH. by rewrite <-!app_assoc.
Qed.

Lemma capi_put st h m key value :
  heap_ok st → capi_serves (c_lib st) h m → key ≠ [] → fits key → fits value →
  cwp (kvlite_raw_put now h (slice_pointer key) (slice_length key) (slice_pointer value) (slice_length value) true)
    (λ o st', o = mkOutcome 0 None None ∧ c_heap st' = c_heap st ∧ heap_ok st'
      ∧ capi_serves (c_lib st') h (<[key := value]> m)
      ∧ ∀ h' m', h' ≠ h → capi_serves (c_lib st) h' m' → capi_serves (c_lib st') h' m') st.
Proof.
  intros Hok (w & [Hw Hh] & <-) Hk Hfk Hfv.
  eapply cwp_with_database; [done|]. apply cwp_with_key; [done..|]. apply cwp_with_input; [done|].
  apply cwp_bind. eapply (cwp_on_database _ _ _ (λ r m', r = inr tt ∧ m' = <[key := value]> (records w)));
    [done|unfold transport_Put; wp_steps; apply wp_ensureOpen; by wp_steps|].
  intros r w' Hh' [-> Hm]. apply cwp_ret. split_and!; [done..| |].
  - rewrite <-Hm. by apply set_database_serves.
  - intros. by apply set_database_others.
Qed.

Lemma capi_delete st h m key :
  heap_ok st → capi_serves (c_lib st) h m → key ≠ [] → fits key →
  cwp (kvlite_raw_delete now h (slice_pointer key) (slice_length key) true)
    (λ o st', o = mkOutcome 0 None None ∧ c_heap st' = c_heap st ∧ heap_ok st'
      ∧ capi_serves (c_lib st') h (delete key m)
      ∧ ∀ h' m', h' ≠ h → capi_serves (c_lib st) h' m' → capi_serves (c_lib st') h' m') st.
Proof.
  intros Hok (w & [Hw Hh] & <-) Hk Hfk.
  eapply cwp_with_database; [done|]. apply cwp_with_key; [done..|].
  apply cwp_bind. eapply (cwp_on_database _ _ _ (λ r m', r = inr tt ∧ m' = delete key (records w)));
    [done|unfold transport_Delete; wp_steps; apply wp_ensureOpen; by wp_steps|].
  intros r w' Hh' [-> Hm]. apply cwp_ret. split_and!; [done..| |].
  - rewrite <-Hm. by apply set_database_serves.
  - intros. by apply set_database_others.
Qed.

Lemma capi_get st h m key :
  heap_ok st → capi_serves (c_lib st) h m → key ≠ [] → fits key →
  cwp (kvlite_raw_get now h (slice_pointer key) (slice_length key) true true true)
    (λ o st', (∃ p, p ≠ 0%Z ∧ c_heap st !! p = None ∧
       match m !! key with
       | Some v => o = mkOutcome 0 None (Some (p, slice_length v)) ∧ c_heap st' = <[p := v]> (c_heap st)
       | None => o = mkOutcome 1 (Some p) None ∧ ∃ t, c_heap st' = <[p := t ++ [NUL]]> (c_heap st)
       end)
      ∧ heap_ok st' ∧ capi_serves (c_lib st') h m
      ∧ ∀ h' m', h' ≠ h → capi_serves (c_lib st) h' m' → capi_serves (c_lib st') h' m') st.
Proof.
  intros Hok (w & [Hw Hh] & <-) Hk Hfk.
  eapply cwp_with_database; [done|]. cbn [negb orb]. apply cwp_with_key; [done..|].
  apply cwp_bind. eapply (cwp_on_database _ _ _ (λ r m', r = inr (records w !! key) ∧ m' = records w));
    [done|unfold transport_Get; wp_steps; apply wp_ensureOpen; by wp_steps|].
  intros r w' Hh' [-> Hm]. destruct (records w !! key) as [v|].
  - apply cwp_bind, cwp_CBytes; [done|]. intros p brk st' Hp Hfr Hok'. apply cwp_ret.
    split; [by exists p|]. split; [done|]. split; [rewrite <-Hm; by apply set_database_serves|].
    intros. by apply set_database_others.
  - apply cwp_bind. unfold setError. apply cwp_bind, cwp_CString; [done|].
    intros p brk st' Hp Hfr Hok'. apply cwp_ret, cwp_ret.
    split; [exists p; split_and!; [done..|by eexists]|].
    split; [done|]. split; [rewrite <-Hm; by apply set_database_serves|].
    intros. by apply set_database_others.
Qed.

Lemma capi_scan_open_next st h m pfx :
  heap_ok st → capi_serves (c_lib st) h m → fits pfx →
  cwp (kvlite_raw_scan_open now h (slice_pointer pfx) (slice_length pfx) true true)
    (λ o st', ∃ c items, o = mkOutcome 0 None (Some c) ∧ items ≡ₚ matches m pfx
      ∧ capi_at_cursor (c_lib st') c items ∧ c_heap st' = c_heap st ∧ heap_ok st'
      ∧ capi_serves (c_lib st') h m
      ∧ (∀ h' m', h' ≠ h → capi_serves (c_lib st) h' m' → capi_serves (c_lib st') h' m')
      ∧ c = cap_cursor_next (c_lib st) ∧ cap_cursor_next (c_lib st') = ((c + 1) mod 2 ^ 64)%Z) st.
Proof.
  intros Hok (w & [Hw Hh] & <-) Hf.
  eapply cwp_with_database; [done|]. cbn [negb]. apply cwp_with_input; [done|].
  apply cwp_bind. eapply (cwp_on_database _ _ _ (λ r m', m' = records w ∧
    ∃ items, items ≡ₚ matches (records w) pfx ∧ r = inr (mkSnapshot items.*1 items.*2 0))); [done| |].
  { unfold transport_ScanPrefix. wp_steps. apply wp_ensureOpen, wp_scan. intros items Hp.
    apply wp_snapshot. split; [done|]. by exists items. }
  intros r w' Hh' (Hm & items & Hp & ->). apply cwp_bind, cwp_get_lib, cwp_bind, cwp_put_lib, cwp_ret.
  eexists _, items. split; [done|]. split; [done|]. split_and!; [|done|done| | |done|done].
  - eexists. cbn. rewrite lookup_insert_eq. split; [done|]. cbn.
    rewrite !length_fmap, !drop_0. by rewrite zip_fst_snd.
  - rewrite <-Hm. by apply (set_database_serves (c_lib st) h w').
  - intros h' m' Hne Hs. by apply (set_database_others (c_lib st) h w' h' m').
Qed.

Lemma capi_scan_open st h m pfx :
  heap_ok st → capi_serves (c_lib st) h m → fits pfx →
  cwp (kvlite_raw_scan_open now h (slice_pointer pfx) (slice_length pfx) true true)
    (λ o st', ∃ c items, o = mkOutcome 0 None (Some c) ∧ items ≡ₚ matches m pfx
      ∧ capi_at_cursor (c_lib st') c items ∧ c_heap st' = c_heap st ∧ heap_ok st'
      ∧ capi_serves (c_lib st') h m
      ∧ ∀ h' m', h' ≠ h → capi_serves (c_lib st) h' m' → capi_serves (c_lib st') h' m') st.
Proof.
  intros Hok Hs Hf. eapply cwp_mono; [by apply capi_scan_open_next|]. naive_solver.
Qed.

Lemma zip_drop_cons (ks vs : list bytes) n k v :
  ks !! n = Some k → vs !! n = Some v →
  zip (drop n ks) (drop n vs) = (k, v) :: zip (drop (Datatypes.S n) ks) (drop (Datatypes.S n) vs).
Proof. intros Hk Hv. by rewrite (drop_S ks k n Hk), (drop_S vs v n Hv). Qed.

Lemma capi_scan_next st c items :
  heap_ok st → capi_at_cursor (c_lib st) c items →
  cwp (kvlite_raw_scan_next c true true true true true)
    (λ o st', match items with
       | [] => o = mkOutcome 1 None None ∧ st' = st
       | (k, v) :: rest =>
           ∃ p q, o = mkOutcome 0 None (Some ((p, slice_length k), (q, slice_length v)))
             ∧ p ≠ 0%Z ∧ q ≠ 0%Z ∧ c_heap st !! p = None ∧ c_heap st !! q = None ∧ p ≠ q
             ∧ c_heap st' = <[p := k]> (<[q := v]> (c_heap st)) ∧ heap_ok st'
             ∧ capi_at_cursor (c_lib st') c rest
             ∧ (∀ h m, capi_serves (c_lib st) h m → capi_serves (c_lib st') h m)
       end) st.
Proof.
  intros Hok ([ks vs n] & Hc & Hl & Hz). cbn [snap_keys snap_values snap_next] in *.
  unfold kvlite_raw_scan_next, lookupCursor. apply cwp_bind, cwp_bind, cwp_get_lib. rewrite Hc.
  apply cwp_ret. cbn [negb orb snap_keys snap_values snap_next]. case_bool_decide as Hn.
  - apply cwp_ret. by rewrite drop_ge in Hz by done; subst items.
  - destruct (lookup_lt_is_Some_2 ks n ltac:(lia)) as [k Hk].
    destruct (lookup_lt_is_Some_2 vs n ltac:(lia)) as [v Hv].
    rewrite Hk, Hv. rewrite (zip_drop_cons ks vs n k v) in Hz by done. subst items.
    apply cwp_bind, cwp_get_lib, cwp_bind, cwp_put_lib.
    apply cwp_bind, cwp_CBytes; [done|]. intros p brk1 st1 Hp Hfp Hok1.
    apply cwp_bind, cwp_CBytes; [done|]. intros q brk2 st2 Hq Hfq Hok2. apply cwp_ret.
    cbn [c_heap st1] in Hfp, Hfq. apply lookup_insert_None in Hfq as [Hfq Hpq].
    exists p, q. split_and!; [done..|by rewrite insert_insert_ne|done| |done].
    eexists. cbn. rewrite lookup_insert_eq. done.
Qed.

Lemma capi_scan_close st c items :
  heap_ok st → capi_at_cursor (c_lib st) c items →
  cwp (kvlite_raw_scan_close c true)
    (λ o st', o = mkOutcome 0 None None ∧ c_heap st' = c_heap st ∧ heap_ok st'
      ∧ (∀ h m, capi_serves (c_lib st) h m → capi_serves (c_lib st') h m)) st.
Proof.
  intros Hok (snapshot & Hc & _). unfold kvlite_raw_scan_close.
  apply cwp_bind, cwp_get_lib. rewrite Hc. by apply cwp_bind, cwp_put_lib, cwp_ret.
Qed.

#[global] Instance capi_RecordLibrary : RecordLibrary capi_functions := {
  serves := capi_serves;
  at_cursor := capi_at_cursor;
  lib_put := capi_put;
  lib_get := capi_get;
  lib_delete := capi_delete;
  lib_scan_open := capi_scan_open;
  lib_scan_next := capi_scan_next;
  lib_scan_close := capi_scan_close
}.
End capi.

(** ** Opening a database through a library *)

(** The status of an error, as the host reads it. *)
Definition abi_error (e : GoError) : sentinel :=
  if errors_Is e ErrNotFound then ErrNotFound
  else if errors_Is e ErrInvalidArgument then ErrInvalidArgument
  else ErrDriverUnavailable.

Section opening.
Context {GT : GoText} {E : Type} `{!Engine E} `{!LocalEngine E} {S : Type}
  (registry : gmap bytes (registeredDriver E)) (open : bytes → bytes → S → result (DB E) * S)
  (now : nat → Z) (dlopen : bytes → option bytes + kvlite_module_api (capiState E S))
  (GOOS_GOARCH : bytes) (getenv : bytes → bytes).
Implicit Types (st : cstate (capiState E S)).

(** The symbols of the library built from [capi/]. *)
Definition capi_library : kvlite_module_api (capiState E S) := {|
  api_library := true;
  api_abi_version := Some kvlite_abi_version;
  api_open_with_driver := Some (kvlite_open_with_driver open);
  api_open_with_backend := Some (kvlite_open_with_backend open);
  api_open := Some (kvlite_open registry open);
  api_close := Some kvlite_close;
  api_free := Some kvlite_free;
  api_raw_put := Some (kvlite_raw_put now);
  api_raw_get := Some (kvlite_raw_get now);
  api_raw_delete := Some (kvlite_raw_delete now);
  api_raw_scan_open := Some (kvlite_raw_scan_open now);
  api_raw_scan_next := Some kvlite_raw_scan_next;
  api_raw_scan_close := Some kvlite_raw_scan_close
|}.

Lemma capi_library_exports : exports capi_library (capi_functions now).
Proof. done. Qed.

(** [kvlite.Open] inside the library changed what it works on. *)
Definition set_outside (s : capiState E S) (outside : S) : capiState E S :=
  mkCapi (cap_databases s) (cap_next s) (cap_cursors s) (cap_cursor_next s) (cap_released s) outside.

Definition add_database (s : capiState E S) (db : DB E) : capiState E S :=
  mkCapi (<[cap_next s := mkWorld db 0]> (cap_databases s)) ((cap_next s + 1) mod 2 ^ 64)
    (cap_cursors s) (cap_cursor_next s) (cap_released s) (cap_outside s).

Lemma cwp_load_library artifactPath Q st :
  heap_ok st → NUL ∉ artifactPath → artifactPath ≠ [] → dlopen artifactPath = inr capi_library →
  bool_decide (GOOS_GOARCH = ⟦"darwin-amd64"⟧) = false →
  (∀ brk, let st' := mkC (c_heap st) brk (c_lib st) in heap_ok st' → Q (inr capi_library) st') →
  cwp (openModuleSharedLibrary dlopen GOOS_GOARCH getenv artifactPath) Q st.
Proof.
  intros Hok Hn Hne Hdl Hmac HQ. unfold openModuleSharedLibrary. rewrite Hmac. cbn [andb].
  apply cwp_bind, cwp_CString; [done|]. intros p brk st' Hp Hfr Hok'.
  apply cwp_bind. unfold kvlite_module_load. apply cwp_bind.
  apply (cwp_GoString p artifactPath); [done|by rewrite lookup_insert_eq|]. intros u Hu.
  rewrite (Hu Hn), bool_decide_eq_false_2, Hdl by done.
  apply cwp_ret. apply cwp_bind. cbn [out_status out_value].
  rewrite bool_decide_eq_false_2 by (intros H; by apply H). apply cwp_bind, cwp_ret, cwp_ret, cwp_bind.
  apply cwp_free_fresh; [done..|]. intros Hok''. by apply cwp_ret, HQ.
Qed.

(** The library opens the database, or reports the error as a status. *)
Lemma cwp_library_open path driver Q st :
  heap_ok st → NUL ∉ path → NUL ∉ driver →
  (∀ brk, let '(r, outside) := open path driver (cap_outside (c_lib st)) in
     let s := set_outside (c_lib st) outside in
     match r with
     | Ok db => heap_ok (mkC (c_heap st) brk (add_database s db)) →
                Q (inr (cap_next s)) (mkC (c_heap st) brk (add_database s db))
     | Err e => ∀ text, heap_ok (mkC (c_heap st) brk s) →
                Q (inl (errorf (abi_error e) text)) (mkC (c_heap st) brk s)
     | Panic => False
     end) →
  cwp (library_open capi_library path driver) Q st.
Proof.
  intros Hok Hp Hd HQ. unfold library_open.
  apply cwp_bind, cwp_CString; [done|]. intros p brk1 st1 Hp0 Hfp Hok1.
  apply cwp_bind, cwp_CString; [done|]. intros q brk2 st2 Hq0 Hfq Hok2.
  cbn [c_heap c_lib st1] in *. pose proof (lookup_insert_None (c_heap st) p q (path ++ [NUL])) as Hpq.
  apply Hpq in Hfq as Hfq'. destruct Hfq' as [Hfq' Hne]. apply cwp_bind.
  unfold kvlite_module_open. cbn [capi_library api_open_with_driver].
  unfold kvlite_open_with_driver, openWithDriver. cbn [negb]. rewrite !bool_decide_eq_false_2 by done. cbn [orb].
  apply cwp_bind, (cwp_GoString p path); [done|by rewrite lookup_insert_ne, lookup_insert_eq|].
  intros u Hu. rewrite (Hu Hp). clear u Hu.
  apply cwp_bind, (cwp_GoString q driver); [done|by rewrite lookup_insert_eq|].
  intros u Hu. rewrite (Hu Hd). clear u Hu.
  apply cwp_bind. unfold call_open. apply cwp_bind, cwp_get_lib. cbn [c_lib].
  assert (∀ brk s (r : GoError + Z), heap_ok (mkC (<[q := driver ++ [NUL]]> (<[p := path ++ [NUL]]> (c_heap st))) brk s) →
    (heap_ok (mkC (c_heap st) brk s) → Q r (mkC (c_heap st) brk s)) →
    cwp (_ ← C_free q; _ ← C_free p; mret r) Q
      (mkC (<[q := driver ++ [NUL]]> (<[p := path ++ [NUL]]> (c_heap st))) brk s)) as Hend.
  { intros brk s r Hok' HQ'. apply cwp_bind, cwp_free_fresh; [done..|]. intros Hok''.
    apply cwp_bind, cwp_free_fresh; [done..|]. intros. by apply cwp_ret, HQ'. }
  destruct (open path driver (cap_outside (c_lib st))) as [r outside].
  apply cwp_bind, cwp_put_lib, cwp_ret. destruct r as [db|e|]; [| |by specialize (HQ 0%Z)].
  - apply cwp_bind, cwp_get_lib, cwp_bind, cwp_put_lib, cwp_ret. cbn [c_lib].
    apply cwp_bind, cwp_quiet. apply Hend; [done|]. exact (HQ brk2).
  - unfold statusFor. apply cwp_bind. unfold setError. apply cwp_bind, cwp_CString; [done|].
    intros t brk3 st3 Ht0 Hft Hok3. apply cwp_ret, cwp_ret.
    apply cwp_bind. unfold status_error. apply cwp_bind. cbn [out_error out_status].
    apply cwp_read_and_free; [done..|]. intros u Hok4. apply cwp_ret. apply Hend; [done|].
    intros Hok5. specialize (HQ brk3). unfold abi_error in HQ.
    destruct (errors_Is e ErrNotFound), (errors_Is e ErrInvalidArgument); by apply HQ.
Qed.

(** Opening a database of a packaged driver. The loader finds the artifact of
    the platform, loads the library, checks its version and opens the path:
    when the library can open it the host gets an engine attached to exactly
    that database, under a fresh handle; otherwise it gets the library's
    error by its kind. In both cases no memory of the exchange is left
    allocated and the other databases of the library are as they were. *)
Theorem module_open_exact (path : bytes) (module : Module_) artifact artifactPath st :
  heap_ok st → cap_databases (c_lib st) !! cap_next (c_lib st) = None →
  ArtifactForCurrentPlatform GOOS_GOARCH module [ModuleArtifactCShared] = Ok artifact →
  ArtifactPath module artifact = Ok artifactPath → artifactPath ≠ [] →
  NUL ∉ artifactPath → NUL ∉ path → NUL ∉ man_Driver (mod_Manifest module) →
  GOOS_GOARCH ≠ ⟦"darwin-amd64"⟧ → dlopen artifactPath = inr capi_library →
  let '(r, outside) := open path (man_Driver (mod_Manifest module)) (cap_outside (c_lib st)) in
  r ≠ Panic → (∀ db, r = Ok db → healthy (mkWorld db 0)) →
  cwp (openModuleDriverFromArtifact dlopen GOOS_GOARCH getenv path module)
    (λ opened st',
       match r with
       | Ok db => ∃ engine, opened = inr engine
           ∧ attached (capi_functions now) capi_library engine (records (mkWorld db 0)) st'
       | Err e => ∃ text, opened = inl (errorf (abi_error e) text)
       | Panic => False
       end
       ∧ c_heap st' = c_heap st ∧ cap_outside (c_lib st') = outside
       ∧ ∀ h m, capi_serves (c_lib st) h m → capi_serves (c_lib st') h m) st.
Proof.
  intros Hok Hfresh Hart Hpath Hne Hn Hnp Hnd Hmac Hdl.
  destruct (open path (man_Driver (mod_Manifest module)) (cap_outside (c_lib st))) as [r outside] eqn:Hopen.
  intros Hr Hhealthy. unfold openModuleDriverFromArtifact. rewrite Hart, Hpath. apply cwp_bind.
  apply cwp_load_library; [done..|by apply bool_decide_eq_false_2|]. intros brk st1 Hok1.
  apply cwp_bind, cwp_library_open; [done..|]. intros brk2. cbn [c_lib st1]. rewrite Hopen.
  destruct r as [db|e|]; [|intros text Hok2|done]; [intros Hok2|]; apply cwp_ret; cbn [c_heap c_lib].
  - split_and!; [|done|done|].
    + eexists. split; [done|]. split_and!; [done..|]. exists (mkWorld db 0). split; [|done].
      split; [by cbn; rewrite lookup_insert_eq|by apply Hhealthy].
    + intros h m (w & [Hw Hh] & <-). exists w. split; [|done]. split; [|done]. cbn.
      rewrite lookup_insert_ne; [done|]. intros Heq. cbn in Heq, Hw. congruence.
  - split_and!; [by eexists|done|done|done].
Qed.

(** Closing: the handle is given back to the library and the engine refuses
    every later operation without calling into it. *)
Theorem module_close_final key value pfx fuel (engine : moduleDriverEngine (capiState E S)) st engine' err st' :
  module_Close engine st = Some ((err, engine'), st') →
  eng_closed engine' = true
  ∧ module_Close engine' st' = Some ((None, engine'), st')
  ∧ (key ≠ [] → module_Get key engine' st' = Some (inl (ESentinel ErrClosed), st'))
  ∧ module_Put key value engine' st' = Some (Some (ESentinel ErrClosed), st')
  ∧ module_Delete key engine' st' = Some (Some (ESentinel ErrClosed), st')
  ∧ module_ScanPrefix fuel pfx engine' st' = Some (([], Some (ESentinel ErrClosed)), st').
Proof.
  intros Hclose. assert (eng_closed engine' = true) as Hc.
  { unfold module_Close in Hclose. destruct (eng_closed engine) eqn:He; [by injection Hclose as <- <- <-|].
    destruct (eng_library engine) as [library|]; [|by injection Hclose as <- <- <-].
    unfold mbind, CM_bind in Hclose.
    destruct (library_close library (eng_handle engine) st) as [[? ?]|]; [|done].
    by injection Hclose as <- <- <-. }
  unfold module_Close, module_Get, module_Put, module_Delete, module_ScanPrefix. rewrite Hc.
  split_and!; [done..| |done|done|done]. intros Hk. by rewrite bool_decide_eq_false_2.
Qed.

(** A record of 2 to 4 GiB ends the host process: the conversion of its
    length to a C [int] is negative. *)
Theorem module_get_overflow_panics (f : record_functions (capiState E S)) (api : kvlite_module_api (capiState E S))
    engine key p n st st' :
  api_raw_get api = Some (rf_get f) → eng_library engine = Some api → eng_closed engine = false →
  key ≠ [] → p ≠ 0%Z → (2 ^ 31 ≤ n < 2 ^ 32)%Z →
  rf_get f (eng_handle engine) (slice_pointer key) (slice_length key) true true true st
    = Some (mkOutcome 0 None (Some (p, n)), st') →
  module_Get key engine st = None.
Proof.
  intros Hget Hl Hc Hk Hp Hn Hrun. unfold module_Get, with_library, library_get.
  rewrite bool_decide_eq_false_2, Hc, Hl, Hget by done.
  unfold mbind, CM_bind. cbn [through]. rewrite Hrun.
  change (status_error _ _ st') with (Some (@None GoError, st')).
  cbn -[C_GoBytes c_int bool_decide]. rewrite !bool_decide_eq_false_2 by lia.
  by rewrite GoBytes_overflow.
Qed.
End opening.

(** ** Witnesses *)

Module loader_example.
#[local] Existing Instance ascii_GoText.

Abbreviation library := (capiState memoryDriverEngine unit).

Definition open (_ _ : bytes) (s : unit) : result (DB memoryDriverEngine) * unit :=
  (Ok (newDB memoryDriver_Open DriverMemory), s).
Definition now (_ : nat) : Z := 0.
Definition database : World memoryDriverEngine :=
  mkWorld (newDB (mkMem {[ ⟦"k"⟧ := ⟦"v"⟧ ]} false) DriverMemory) 0.
Definition state : cstate library := mkC ∅ 1 (mkCapi {[ 1%Z := database ]} 2 ∅ 1 [] tt).
Definition api : kvlite_module_api library := capi_library ∅ open now.
Definition engine : moduleDriverEngine library := mkModuleEngine (Some api) 1 false.

Definition module : Module_ :=
  mkModule (mkManifest 1 ⟦"mem"⟧ ModuleKindEngine [] ⟦"1.0"⟧ 1 ⟦"memory"⟧ [] []
              [mkArtifact ⟦"linux-amd64"⟧ ModuleArtifactCShared ⟦"lib/mem.so"⟧ (replicate 64 "0"%byte) []] ⟦"MIT"⟧)
    ⟦"/m/mem"⟧ [] false.

Lemma state_ok : heap_ok state.
Proof. split; [done|]. intros p [b Hb]. cbn in Hb. by rewrite lookup_empty in Hb. Qed.

Lemma state_serves : capi_serves (c_lib state) 1 {[ ⟦"k"⟧ := ⟦"v"⟧ ]}.
Proof. exists database. split; [|done]. split; [apply lookup_singleton_eq|done]. Qed.
End loader_example.

Section witnesses.
Import loader_example.
#[local] Existing Instance ascii_GoText.

Lemma module_engine_is_library_map_witness :
  cwp (module_Get ⟦"k"⟧ engine) (λ r st', r = inr (Some ⟦"v"⟧) ∧ c_heap st' = ∅) state.
Proof.
  destruct (module_engine_is_library_map (capi_functions now) api (capi_library_exports ∅ open now)
              {[ ⟦"k"⟧ := ⟦"v"⟧ ]} engine state) as (Hget & _).
  { split_and!; [done|done|apply state_ok|apply state_serves]. }
  eapply cwp_mono; [apply Hget; [done|done|]|].
  - rewrite lookup_singleton_eq. by intros v [= <-].
  - cbn beta. rewrite lookup_singleton_eq. intros r st' [-> [-> _]]. done.
Defined.

Lemma module_open_exact_witness :
  ∃ opened st', openModuleDriverFromArtifact (λ _, inr api) ⟦"linux-amd64"⟧ (λ _, []) ⟦"/db"⟧ module state
                = Some (inr opened, st')
    ∧ attached (capi_functions now) api opened ∅ st' ∧ c_heap st' = ∅.
Proof.
  pose proof (module_open_exact ∅ open now (λ _, inr api) ⟦"linux-amd64"⟧ (λ _, []) ⟦"/db"⟧ module
    (mkArtifact ⟦"linux-amd64"⟧ ModuleArtifactCShared ⟦"lib/mem.so"⟧ (replicate 64 "0"%byte) [])
    ⟦"/m/mem/lib/mem.so"⟧ state state_ok) as H. cbv beta iota zeta in H.
  assert (∀ b : bytes, bool_decide (NUL ∉ b) = true → NUL ∉ b) as Hnul by (intros b; by rewrite bool_decide_eq_true).
  cbn [open] in H.
  ospecialize* H; [by apply lookup_singleton_ne|by vm_compute|by vm_compute|done|by apply Hnul..|done|done|done
    |by intros db [= <-]|].
  apply cwp_some in H as (r & st' & Hrun & (opened & -> & Ha) & Hheap & _). by exists opened, st'.
Defined.
End witnesses.
