(* ===== verification/CApiProps.v ===== *)
(** * Properties of the C interface

    A foreign program drives the library by a sequence of calls. Whatever it
    calls, a call touches only the database or cursor it names, a handle that
    was closed is refused from then on, and a scan cursor delivers the
    records of the moment it was opened. *)

From S2P Require Import Prelude Errors Engine Effects MemDriver Envelope Keys ListCodec Text DriverName DB DBTheorems Collections Transport Modules Backend CMemory CApi ModuleLoader LoaderProps.

(** ** Calls *)

Inductive call :=
  | COpen (path : Z) (outHandle out : bool)
  | COpenWith (path driver : Z) (outHandle out : bool)
  | CClose (handle : Z) (out : bool)
  | CPut (handle : Z) (key : option bytes) (keyLength : Z) (value : option bytes) (valueLength ttl : Z) (out : bool)
  | CGet (handle : Z) (key : option bytes) (keyLength : Z) (outValue outLength out : bool)
  | CDelete (handle : Z) (key : option bytes) (keyLength : Z) (out : bool)
  | CFree (pointer : Z)
  | CRawPut (handle : Z) (key : option bytes) (keyLength : Z) (value : option bytes) (valueLength : Z) (out : bool)
  | CRawGet (handle : Z) (key : option bytes) (keyLength : Z) (outValue outLength out : bool)
  | CRawDelete (handle : Z) (key : option bytes) (keyLength : Z) (out : bool)
  | CScanOpen (handle : Z) (pfx : option bytes) (prefixLength : Z) (outCursor out : bool)
  | CScanNext (cursor : Z) (outKey outKeyLength outValue outValueLength out : bool)
  | CScanClose (cursor : Z) (out : bool).

(** The handle a call names, and the cursor. *)
Definition handle_of (c : call) : option Z :=
  match c with
  | CClose h _ | CPut h _ _ _ _ _ _ | CGet h _ _ _ _ _ | CDelete h _ _ _ | CRawPut h _ _ _ _ _
  | CRawGet h _ _ _ _ _ | CRawDelete h _ _ _ | CScanOpen h _ _ _ _ => Some h
  | _ => None
  end.

Definition cursor_of (c : call) : option Z :=
  match c with CScanNext c _ _ _ _ _ | CScanClose c _ => Some c | _ => None end.

Section calls.
Context {GT : GoText} {E : Type} `{!Engine E} {S : Type}
  (registry : gmap bytes (registeredDriver E)) (open : bytes → bytes → S → result (DB E) * S)
  (now : nat → Z).
Abbreviation state := (capiState E S).
Abbreviation C := (CM state).
Implicit Types (s : state) (st : cstate state).

Definition status {A} (p : C (outcome A)) : C Z := o ← p; mret (out_status o).

Definition exec (c : call) : C Z :=
  match c with
  | COpen path outHandle out => status (kvlite_open registry open path outHandle out)
  | COpenWith path driver outHandle out => status (kvlite_open_with_driver open path driver outHandle out)
  | CClose h out => status (kvlite_close h out)
  | CPut h key kl value vl ttl out => status (kvlite_put now h key kl value vl ttl out)
  | CGet h key kl ov ol out => status (kvlite_get now h key kl ov ol out)
  | CDelete h key kl out => status (kvlite_delete now h key kl out)
  | CFree p => _ ← kvlite_free p; mret statusOK
  | CRawPut h key kl value vl out => status (kvlite_raw_put now h key kl value vl out)
  | CRawGet h key kl ov ol out => status (kvlite_raw_get now h key kl ov ol out)
  | CRawDelete h key kl out => status (kvlite_raw_delete now h key kl out)
  | CScanOpen h pfx pl oc out => status (kvlite_raw_scan_open now h pfx pl oc out)
  | CScanNext c ok okl ov ovl out => status (kvlite_raw_scan_next c ok okl ov ovl out)
  | CScanClose c out => status (kvlite_raw_scan_close c out)
  end.

(** Handles and cursors are counted in 64 bits: the next one is not about to
    wrap. *)
Definition numbers_left s : Prop := (cap_next s + 1 < 2 ^ 64)%Z ∧ (cap_cursor_next s + 1 < 2 ^ 64)%Z.

Inductive calls : cstate state → list (call * Z) → cstate state → Prop :=
  | calls_nil st : calls st [] st
  | calls_cons st cl r st' rest st'' :
      numbers_left (c_lib st) → exec cl st = Some (r, st') → calls st' rest st'' →
      calls st ((cl, r) :: rest) st''.

(** What a call that names [h] and [c] may do to the tables. *)
Record keeps (h c : option Z) s s' : Prop := {
  keeps_databases h' : Some h' ≠ h → (h' < cap_next s)%Z → cap_databases s' !! h' = cap_databases s !! h';
  keeps_cursors c' : Some c' ≠ c → (c' < cap_cursor_next s)%Z → cap_cursors s' !! c' = cap_cursors s !! c';
  keeps_next : (cap_next s ≤ cap_next s')%Z;
  keeps_cursor_next : (cap_cursor_next s ≤ cap_cursor_next s')%Z
}.

#[global] Instance keeps_preorder h c : PreOrder (keeps h c).
Proof.
  split; [done|]. intros s1 s2 s3 [Hd Hc Hn Hm] [Hd' Hc' Hn' Hm']. split; [| |lia|lia].
  - intros h' Hne Hlt. rewrite Hd', Hd by (done || lia). done.
  - intros c' Hne Hlt. rewrite Hc', Hc by (done || lia). done.
Qed.

(** A program whose every successful run keeps the tables. *)
Definition keeping {A} (h c : option Z) (p : C A) : Prop :=
  ∀ st a st', numbers_left (c_lib st) → p st = Some (a, st') → keeps h c (c_lib st) (c_lib st').

(** One that leaves the whole library alone. *)
Definition idle {A} (p : C A) : Prop := ∀ st a st', p st = Some (a, st') → c_lib st' = c_lib st.

Lemma idle_keeping {A} h c (p : C A) : idle p → keeping h c p.
Proof. intros Hp st a st' _ Hrun. by rewrite (Hp st a st' Hrun). Qed.

Lemma idle_ret {A} (a : A) : idle (mret a).
Proof. intros st a' st' [= _ <-]. done. Qed.

Lemma idle_crash {A} : idle (crash : C A).
Proof. intros st a st' [=]. Qed.

Lemma idle_bind {A B} (p : C A) (f : A → C B) : idle p → (∀ a, idle (f a)) → idle (p ≫= f).
Proof.
  intros Hp Hf st b st'. unfold mbind, CM_bind. destruct (p st) as [[a st1]|] eqn:Hrun; [|done].
  intros Hb. by rewrite (Hf a _ _ _ Hb), (Hp _ _ _ Hrun).
Qed.

(** After an idle prefix the numbers left are the same. *)
Lemma keeping_bind {A B} h c (p : C A) (f : A → C B) :
  idle p → (∀ a, keeping h c (f a)) → keeping h c (p ≫= f).
Proof.
  intros Hp Hf st b st' Hn. unfold mbind, CM_bind. destruct (p st) as [[a st1]|] eqn:Hrun; [|done].
  intros Hb. apply Hp in Hrun. specialize (Hf a st1 b st'). rewrite Hrun in Hf. auto.
Qed.

Lemma keeping_then {A B} h c (p : C A) (f : A → C B) :
  keeping h c p → (∀ a, idle (f a)) → keeping h c (p ≫= f).
Proof.
  intros Hp Hf st b st' Hn. unfold mbind, CM_bind. destruct (p st) as [[a st1]|] eqn:Hrun; [|done].
  intros Hb. rewrite (Hf _ _ _ _ Hb). eauto.
Qed.

Lemma idle_get_lib : idle (get_lib : C state).
Proof. by intros st a st' [= _ <-]. Qed.

Lemma idle_malloc block : idle (C_malloc block : C Z).
Proof. by intros st a st' [= _ <-]. Qed.

Lemma idle_free p : idle (C_free p : C unit).
Proof.
  intros st a st'. unfold C_free. case_bool_decide; [by intros [= _ <-]|].
  destruct (c_heap st !! p); [by intros [= _ <-]|done].
Qed.

Lemma idle_block p : idle (C_block p : C bytes).
Proof. intros st a st'. unfold C_block. destruct (c_heap st !! p); [by intros [= _ <-]|done]. Qed.
End calls.

Create HintDb capi.
#[global] Hint Resolve idle_ret idle_crash idle_get_lib idle_malloc idle_free idle_block : capi.

(** Idle programs, by their shape. *)
Ltac idle :=
  repeat first
    [ apply idle_bind; [|intros ?]
    | progress intros
    | case_match
    | solve [auto with capi]
    | progress (unfold C_CString, C_CBytes, return_bytes, setError, statusFor, C_GoString, inputBytes,
        lookup_db, lookupCursor) ].

Section confined.
Context {GT : GoText} {E : Type} `{!Engine E} {S : Type}
  (registry : gmap bytes (registeredDriver E)) (open : bytes → bytes → S → result (DB E) * S)
  (now : nat → Z).
Abbreviation state := (capiState E S).
Abbreviation C := (CM state).
Implicit Types (s : state) (st : cstate state).

Lemma idle_statusFor {A} err out : idle (statusFor err out : C (outcome A)).
Proof. idle. Qed.

Lemma idle_return_bytes value : idle (return_bytes value : C (outcome (Z * Z))).
Proof. idle. Qed.

(** A method changes the entry of its handle only. *)
Lemma on_database_run {A} h w (p : M A) st a st' :
  on_database now h w p st = Some (a, st') → ∃ w', c_lib st' = set_database (c_lib st) h w'.
Proof.
  unfold on_database. destruct (run _ p w) as [r w']. intros Hrun. exists w'.
  unfold mbind, CM_bind in Hrun. cbn in Hrun. destruct r; [by injection Hrun as _ <-..|done].
Qed.

Lemma keeps_set_database h c s w : keeps (Some h) c s (set_database s h w).
Proof.
  split; cbn; [|done|lia|lia]. intros h' Hne _. rewrite lookup_insert_ne by congruence. done.
Qed.

Lemma keeping_on_database {A} h c w (p : M A) : keeping (Some h) c (on_database now h w p : C (GoError + A)).
Proof.
  intros st a st' _ Hrun. apply on_database_run in Hrun as [w' ->]. apply keeps_set_database.
Qed.

Lemma next_number n : (n + 1 < 2 ^ 64)%Z → (n ≤ (n + 1) mod 2 ^ 64)%Z.
Proof.
  intros Hn. destruct (decide (0 ≤ n + 1)%Z); [rewrite Z.mod_small; lia|].
  pose proof (Z.mod_pos_bound (n + 1) (2 ^ 64)). lia.
Qed.

Lemma keeping_with_database {A} h c out (k : World E → C (outcome A)) :
  (∀ w, keeping (Some h) c (k w)) → keeping (Some h) c (with_database h out k).
Proof.
  intros Hk. unfold with_database. apply keeping_bind; [idle|]. intros [[w|] text]; [done|].
  apply idle_keeping. idle.
Qed.

Lemma keeping_with_input {A} h c pointer length out (k : bytes → C (outcome A)) :
  (∀ b, keeping h c (k b)) → keeping h c (with_input pointer length out k).
Proof.
  intros Hk. unfold with_input. apply keeping_bind; [idle|]. intros [e|b]; [|done].
  apply idle_keeping, idle_statusFor.
Qed.

Lemma keeping_with_key {A} h c pointer length out (k : bytes → C (outcome A)) :
  (∀ b, keeping h c (k b)) → keeping h c (with_key pointer length out k).
Proof.
  intros Hk. apply keeping_with_input. intros b. case_bool_decide; [|done].
  apply idle_keeping, idle_statusFor.
Qed.

Lemma keeping_status {A} h c (p : C (outcome A)) : keeping h c p → keeping h c (status p).
Proof. intros Hp. apply keeping_then; [done|]. idle. Qed.

(** [call_open] changes nothing but what is outside of the tables. *)
Lemma call_open_run path driver st r st' :
  call_open open path driver st = Some (r, st') →
  c_lib st' = set_outside (c_lib st) (cap_outside (c_lib st')).
Proof.
  unfold call_open, mbind, CM_bind. cbn. destruct (open path driver _) as [r' outside].
  by intros [= _ <-].
Qed.

(** Opening adds at most the entry of the next handle. *)
Lemma keeping_opened path driver out :
  keeping None None (db ← call_open open path driver;
                     match db with
                     | Ok db => register_database db
                     | Err err => statusFor (Some err) out
                     | Panic => crash
                     end).
Proof.
  intros st o st' [Hn _]. unfold mbind at 1, CM_bind at 1.
  destruct (call_open open path driver st) as [[r st1]|] eqn:Hopen; [|done].
  apply call_open_run in Hopen. destruct r as [db|e|]; intros Hrun; [| |done].
  - injection Hrun as _ <-. cbn. rewrite Hopen. cbn. split; cbn; [|done| |lia].
    + intros h' _ Hlt. rewrite lookup_insert_ne by lia. done.
    + by apply next_number.
  - apply idle_statusFor in Hrun. rewrite Hrun, Hopen. by split; cbn.
Qed.

Lemma keeping_open path outHandle out : keeping None None (kvlite_open registry open path outHandle out).
Proof.
  unfold kvlite_open. case_match; [apply idle_keeping, idle_statusFor|].
  apply keeping_bind; [idle|]. intros path'. case_match; [|by apply idle_keeping, idle_crash..].
  apply keeping_opened.
Qed.

Lemma keeping_open_with path driver outHandle out :
  keeping None None (openWithDriver open path driver outHandle out).
Proof.
  unfold openWithDriver. case_match; [apply idle_keeping, idle_statusFor|].
  apply keeping_bind; [idle|]. intros path'. apply keeping_bind; [idle|]. intros driver'.
  apply keeping_opened.
Qed.

Lemma keeping_scan_open h pfx prefixLength outCursor out :
  keeping (Some h) None (kvlite_raw_scan_open now h pfx prefixLength outCursor out : C (outcome Z)).
Proof.
  apply keeping_with_database. intros w. case_match; [apply idle_keeping, idle_statusFor|].
  apply keeping_with_input. intros b st o st' Hn. unfold mbind at 1, CM_bind at 1.
  destruct (on_database now h w _ st) as [[r st1]|] eqn:Hrun; [|done].
  apply on_database_run in Hrun as [w' Hw]. destruct r as [e|snapshot]; intros Ho.
  - apply idle_statusFor in Ho. rewrite Ho, Hw. apply keeps_set_database.
  - injection Ho as _ <-. cbn. rewrite Hw. etrans; [apply (keeps_set_database h None)|].
    split; cbn; [done| |lia|by apply next_number, Hn]. intros c' _ Hlt.
    rewrite lookup_insert_ne by lia. done.
Qed.

Lemma keeping_scan_next c outKey outKeyLength outValue outValueLength out :
  keeping None (Some c) (kvlite_raw_scan_next c outKey outKeyLength outValue outValueLength out : C (outcome _)).
Proof.
  unfold kvlite_raw_scan_next. apply keeping_bind; [idle|]. intros [[snapshot|] text]; [|apply idle_keeping; idle].
  case_match; [apply idle_keeping, idle_statusFor|]. case_match; [apply idle_keeping; idle|].
  case_match; [|apply idle_keeping; idle]. case_match; [|apply idle_keeping; idle].
  intros st o st' Hn Ho. injection Ho as _ <-. split; cbn; [done| |lia|lia].
  intros c' Hne _. rewrite lookup_insert_ne by congruence. done.
Qed.

Lemma keeping_scan_close c out : keeping None (Some c) (kvlite_raw_scan_close c out : C (outcome unit)).
Proof.
  intros st o st' Hn. unfold kvlite_raw_scan_close, mbind, CM_bind. cbn [get_lib].
  destruct (cap_cursors (c_lib st) !! c); intros Ho.
  - injection Ho as _ <-. split; cbn; [done| |lia|lia].
    intros c' Hne _. rewrite lookup_delete_ne by congruence. done.
  - apply idle_statusFor in Ho. by rewrite Ho.
Qed.

Lemma keeping_close h out : keeping (Some h) None (kvlite_close h out : C (outcome unit)).
Proof.
  intros st o st' Hn. unfold kvlite_close, mbind, CM_bind. cbn [get_lib].
  destruct (cap_databases (c_lib st) !! h) as [w|]; intros Ho.
  - destruct (Close (w_db w)) as [err db]. apply idle_statusFor in Ho. rewrite Ho.
    split; cbn; [|done|lia|lia]. intros h' Hne _. rewrite lookup_delete_ne by congruence. done.
  - apply idle_statusFor in Ho. by rewrite Ho.
Qed.

(** Every call keeps the databases and cursors it does not name. *)
Lemma exec_keeps cl : keeping (handle_of cl) (cursor_of cl) (exec registry open now cl).
Proof.
  destruct cl; cbn [exec handle_of cursor_of];
    [apply keeping_status, keeping_open|apply keeping_status, keeping_open_with
    |apply keeping_status, keeping_close| | |
    |apply idle_keeping; unfold kvlite_free; idle| | | |apply keeping_status, keeping_scan_open
    |apply keeping_status, keeping_scan_next|apply keeping_status, keeping_scan_close];
    apply keeping_status, keeping_with_database; intros w.
  - apply keeping_with_key. intros k. apply keeping_with_input. intros v.
    case_match; [apply idle_keeping, idle_statusFor|].
    apply keeping_then; [apply keeping_on_database|]. intros ?. apply idle_statusFor.
  - case_match; [apply idle_keeping, idle_statusFor|]. apply keeping_with_key. intros k.
    apply keeping_then; [apply keeping_on_database|]. idle.
  - apply keeping_with_key. intros k. apply keeping_then; [apply keeping_on_database|].
    intros ?. apply idle_statusFor.
  - apply keeping_with_key. intros k. apply keeping_with_input. intros v.
    apply keeping_then; [apply keeping_on_database|]. intros ?. apply idle_statusFor.
  - case_match; [apply idle_keeping, idle_statusFor|]. apply keeping_with_key. intros k.
    apply keeping_then; [apply keeping_on_database|]. idle.
  - apply keeping_with_key. intros k. apply keeping_then; [apply keeping_on_database|].
    intros ?. apply idle_statusFor.
Qed.

(** A call on a handle that is not in the table is refused. *)
Lemma unknown_handle_refused cl h st r st' :
  handle_of cl = Some h → cap_databases (c_lib st) !! h = None →
  exec registry open now cl st = Some (r, st') → r = statusInvalid ∧ c_lib st' = c_lib st.
Proof.
  intros Hh Hnone Hexec.
  assert (∀ {A} out (k : World E → C (outcome A)),
    status (with_database h out k) st = Some (r, st') → r = statusInvalid ∧ c_lib st' = c_lib st) as Hwith.
  { intros A out k. unfold status, with_database, lookup_db, mbind, CM_bind. cbn [get_lib]. rewrite Hnone.
    destruct out; cbn; by intros [= <- <-]. }
  destruct cl; cbn [handle_of] in Hh; try discriminate Hh; injection Hh as ->; cbn [exec] in Hexec;
    try (by apply Hwith in Hexec).
  revert Hexec. unfold status, kvlite_close, mbind, CM_bind. cbn [get_lib]. rewrite Hnone.
  destruct out; cbn; by intros [= <- <-].
Qed.

(** A cursor is what the calls that name it made of it. *)
Lemma calls_keep_cursor c st cs st' :
  calls registry open now st cs st' → Forall (λ x, cursor_of x.1 ≠ Some c) cs →
  (c < cap_cursor_next (c_lib st))%Z → cap_cursors (c_lib st') !! c = cap_cursors (c_lib st) !! c.
Proof.
  induction 1 as [|st cl r st' rest st'' Hn Hex Hcs IH]; [done|].
  intros [Hne Hno]%Forall_cons Hlt. pose proof (exec_keeps cl st r st' Hn Hex) as [_ Hcu _ Hcn].
  rewrite IH by (done || lia). apply Hcu; [|lia]. cbn in Hne. congruence.
Qed.

(** A handle that is not in the table stays out of it, whatever is called. *)
Lemma calls_refuse h st cs st' :
  calls registry open now st cs st' → cap_databases (c_lib st) !! h = None → (h < cap_next (c_lib st))%Z →
  Forall (λ '(cl, r), handle_of cl = Some h → r = statusInvalid) cs ∧ cap_databases (c_lib st') !! h = None.
Proof.
  induction 1 as [st|st cl r st' rest st'' Hn Hex Hrest IH]; intros Hnone Hlt; [done|].
  pose proof (exec_keeps cl st r st' Hn Hex) as [Hd _ Hnx _].
  assert (cap_databases (c_lib st') !! h = None ∧ (handle_of cl = Some h → r = statusInvalid)) as [Hnone' Hr].
  { destruct (decide (handle_of cl = Some h)) as [Heq|Hne].
    - destruct (unknown_handle_refused cl h st r st' Heq Hnone Hex) as [-> ->]. done.
    - split; [|done]. rewrite Hd; [done|congruence|done]. }
  destruct IH as [Hf Hn']; [done|lia|]. split; [|done]. by constructor.
Qed.

(** C25: Handles are not recycled. When a foreign program closes the handle of an
    open database, that database is closed, and every later call on the
    handle is refused, whatever else is called in between, as long as fewer
    than 2^64 handles were given out. *)
Theorem closed_handle_refused h out w st r st1 cs st2 :
  cap_databases (c_lib st) !! h = Some w → (h < cap_next (c_lib st))%Z → numbers_left (c_lib st) →
  exec registry open now (CClose h out) st = Some (r, st1) →
  calls registry open now st1 cs st2 →
  last (cap_released (c_lib st1)) = Some (Close (w_db w)).2
  ∧ db_closed (Close (w_db w)).2 = true
  ∧ Forall (λ '(cl, r), handle_of cl = Some h → r = statusInvalid) cs.
Proof.
  intros Hw Hlt Hn Hclose Hcs. pose proof (keeps_next _ _ _ _ (exec_keeps (CClose h out) st r st1 Hn Hclose)) as Hnx.
  assert (c_lib st1 = mkCapi (delete h (cap_databases (c_lib st))) (cap_next (c_lib st)) (cap_cursors (c_lib st))
            (cap_cursor_next (c_lib st)) (cap_released (c_lib st) ++ [(Close (w_db w)).2]) (cap_outside (c_lib st)))
    as Hst1.
  { revert Hclose. cbn [exec]. unfold status, kvlite_close, mbind, CM_bind. cbn [get_lib]. rewrite Hw.
    destruct (Close (w_db w)) as [err db]. unfold put_lib. cbn [fst snd].
    destruct (statusFor err out _) as [[o st']|] eqn:Hs; [|done]. apply idle_statusFor in Hs.
    intros [= _ <-]. by rewrite Hs. }
  split_and!.
  - rewrite Hst1. cbn. by rewrite last_snoc.
  - unfold Close. destruct (db_closed (w_db w)) eqn:Hc; [done|]. by destruct (guarded_Close _).
  - apply (calls_refuse h st1 cs st2 Hcs); [|lia]. rewrite Hst1. cbn. by rewrite lookup_delete_eq.
Qed.
End confined.

Section snapshots.
Context {GT : GoText} {E : Type} `{!Engine E} `{!LocalEngine E} {S : Type}
  (registry : gmap bytes (registeredDriver E)) (open : bytes → bytes → S → result (DB E) * S)
  (now : nat → Z).
Implicit Types (st : cstate (capiState E S)).

(** A scan is a snapshot. The cursor opened on a prefix delivers exactly the
    records that were under it when it was opened, each once, whatever is
    called between the opening and the reading: writes and deletes on the
    same database, its closing, other scans. *)
Theorem cursor_is_snapshot h m pfx st :
  heap_ok st → capi_serves (c_lib st) h m → fits pfx → numbers_left (c_lib st) →
  (0 ≤ cap_cursor_next (c_lib st))%Z →
  Forall (λ kv, small kv.1 ∧ small kv.2) (matches m pfx) →
  ∃ c items st1,
    kvlite_raw_scan_open now h (slice_pointer pfx) (slice_length pfx) true true st
      = Some (mkOutcome statusOK None (Some c), st1)
    ∧ items ≡ₚ matches m pfx
    ∧ ∀ cs st2, calls registry open now st1 cs st2 → Forall (λ x, cursor_of x.1 ≠ Some c) cs → heap_ok st2 →
        ∀ fuel, length items < fuel →
          cwp (scan_records fuel (capi_library registry open now) c []) (λ r st3, r = inr items) st2.
Proof.
  intros Hok Hs Hf [Hn Hcn] Hpos Hsm.
  pose proof (capi_scan_open_next now st h m pfx Hok Hs Hf) as Hopen.
  apply cwp_some in Hopen as (o & st1 & Hrun & c & items & -> & Hp & Hat & _ & _ & _ & _ & -> & Hnext).
  exists (cap_cursor_next (c_lib st)), items, st1. split_and!; [done|done|].
  intros cs st2 Hcs Hno Hok2 fuel Hfuel.
  assert (capi_at_cursor (c_lib st2) (cap_cursor_next (c_lib st)) items) as Hat2.
  { destruct Hat as (snapshot & Hc & Hrest). exists snapshot. split; [|done]. rewrite <-Hc.
    rewrite Z.mod_small in Hnext by lia.
    eapply calls_keep_cursor; [done|done|lia]. }
  eapply cwp_mono; [eapply (cwp_scan_records (capi_functions now) _ (capi_library_exports registry open now)
    (cap_cursor_next (c_lib st)) items fuel [] st2); [done|done|by rewrite Hp|done]|].
  naive_solver.
Qed.
End snapshots.

(** ** Witnesses *)

Section witnesses.
Import loader_example.
#[local] Existing Instance ascii_GoText.

(** Closing handle 1 and reading through it again. *)
Lemma closed_handle_refused_witness :
  Forall (λ '(cl, r), handle_of cl = Some 1%Z → r = statusInvalid)
    [(CRawGet 1 (Some ⟦"k"⟧) 1 true true false, 2%Z)].
Proof.
  set (st1 := mkC (S := library) ∅ 1
    (mkCapi ∅ 2 ∅ 1 [(Close (w_db database)).2] tt)).
  destruct (closed_handle_refused ∅ open now 1 false database state 0 st1
    [(CRawGet 1 (Some ⟦"k"⟧) 1 true true false, 2%Z)] st1) as (_ & _ & H);
    [apply lookup_singleton_eq|done|done| | |exact H].
  - unfold exec, status, kvlite_close, mbind, CM_bind, state. cbn [get_lib c_lib cap_databases].
    rewrite lookup_singleton_eq. unfold st1. rewrite <-(delete_singleton_eq 1%Z database). done.
  - apply (calls_cons _ _ _ _ _ _ st1); [done| |apply calls_nil].
    unfold exec, status, kvlite_raw_get, rawStore, with_database, lookup_db, mbind, CM_bind, st1.
    cbn [get_lib c_lib cap_databases]. by rewrite lookup_empty.
Defined.

Lemma cursor_is_snapshot_witness :
  ∃ c items st1,
    kvlite_raw_scan_open now 1 (slice_pointer []) (slice_length []) true true state
      = Some (mkOutcome statusOK None (Some c), st1)
    ∧ items ≡ₚ [(⟦"k"⟧, ⟦"v"⟧)].
Proof.
  assert (matches {[ ⟦"k"⟧ := ⟦"v"⟧ ]} [] = [(⟦"k"⟧, ⟦"v"⟧)]) as Hm.
  { unfold matches. rewrite map_to_list_singleton. done. }
  destruct (cursor_is_snapshot ∅ open now 1 {[ ⟦"k"⟧ := ⟦"v"⟧ ]} [] state) as (c & items & st1 & Hopen & Hp & _);
    [apply state_ok|apply state_serves|done|done|done|rewrite Hm; by repeat constructor|].
  exists c, items, st1. by rewrite <-Hm.
Defined.
End witnesses.
