(* ===== verification/NativeLoader.v ===== *)
(** * Packaged drivers as native modules ([native_module_loader.go])

    A native module is a C library whose entry point registers drivers, each
    a table of operations. The entry point is foreign code: [init_program] is
    what it can do, register a driver and look at the answer, and change its
    own state. [dlopen] gives the entry point of a library, if it exports it,
    or the text of [dlerror]. *)

From S2P Require Import Prelude Errors Engine Effects MemDriver Envelope Keys ListCodec Text DriverName DB Collections Transport PathClean Modules Backend CMemory ModuleLoader.

(** ** What a module registers *)

(** Strings of C; [None] is a null pointer. *)
Record nativeInfo := mkNativeInfo {
  ni_name : option bytes;
  ni_version : option bytes;
  ni_driver : option bytes;
  ni_capabilities : option bytes
}.

Record nativeOps (S : Type) := mkNativeOps {
  no_open : option (Z → bool → bool → CM S (outcome Z));
  no_close : option (Z → bool → CM S (outcome unit));
  no_put : option (Z → option bytes → Z → option bytes → Z → bool → CM S (outcome unit));
  no_get : option (Z → option bytes → Z → bool → bool → bool → CM S (outcome (Z * Z)));
  no_delete : option (Z → option bytes → Z → bool → CM S (outcome unit));
  no_scan_open : option (Z → option bytes → Z → bool → bool → CM S (outcome Z));
  no_scan_next : option (Z → bool → bool → bool → bool → bool → CM S (outcome ((Z * Z) * (Z * Z))));
  no_scan_close : option (Z → bool → CM S (outcome unit));
  no_free : option (Z → CM S unit)
}.
Arguments mkNativeOps {S}.
Arguments no_open {S}.
Arguments no_close {S}.
Arguments no_put {S}.
Arguments no_get {S}.
Arguments no_delete {S}.
Arguments no_scan_open {S}.
Arguments no_scan_next {S}.
Arguments no_scan_close {S}.
Arguments no_free {S}.

Record nativeRegistration (S : Type) := mkNativeReg {
  nr_info : nativeInfo;
  nr_ops : nativeOps S
}.
Arguments mkNativeReg {S}.
Arguments nr_info {S}.
Arguments nr_ops {S}.

(** The entry point: it ends with a status and an error text. *)
Inductive init_program (S : Type) :=
  | IReturn (status : Z) (error : option bytes)
  | IRegister (info : option nativeInfo) (ops : option (nativeOps S)) (k : Z * bytes → init_program S)
  | IStep (f : S → S) (k : init_program S).
Arguments IReturn {S}.
Arguments IRegister {S}.
Arguments IStep {S}.

(** One collected registration in Go. *)
Record nativeModuleRegistration := mkModuleReg {
  mr_name : bytes;
  mr_version : bytes;
  mr_driver : bytes;
  mr_capabilities : list bytes
}.

Record nativeModuleDriver (S : Type) := mkNativeDriver {
  nd_ops : nativeOps S;
  nd_info : DriverInfo
}.
Arguments mkNativeDriver {S}.
Arguments nd_ops {S}.
Arguments nd_info {S}.

Record nativeModuleEngine (S : Type) := mkNativeEngine {
  ne_ops : nativeOps S;
  ne_handle : Z;
  ne_closed : bool
}.
Arguments mkNativeEngine {S}.
Arguments ne_ops {S}.
Arguments ne_handle {S}.
Arguments ne_closed {S}.

Section native.
Context {GT : GoText} {S : Type} (dlopen : bytes → option bytes + option (init_program S))
  (GOOS_GOARCH : bytes).
Abbreviation C := (CM S).
Implicit Types (ops : nativeOps S) (registrations : list (nativeRegistration S)) (engine : nativeModuleEngine S).

(** ** The C side *)

Definition native_set_error (message : bytes) : C (option Z) :=
  if bool_decide (message = []) then mret None else p ← C_CString message; mret (Some p).

Definition null_or_empty (s : option bytes) : bool := bool_decide (default [] s = []).

(** [native_register_driver], with the state that is being loaded: a status,
    a message and the new list; the last registration comes first. *)
Definition native_register_driver (active : option (list (nativeRegistration S)))
    (info : option nativeInfo) (op : option (nativeOps S))
    : (Z * bytes) * option (list (nativeRegistration S)) :=
  match active with
  | None => ((1%Z, ⟦"no native module load is active"⟧), active)
  | Some registrations =>
      match info, op with
      | Some info, Some ops =>
          if null_or_empty (ni_name info) || null_or_empty (ni_driver info)
          then ((1%Z, ⟦"module driver info needs a name and a driver"⟧), active)
          else match no_open ops, no_close ops, no_put ops, no_get ops, no_delete ops, no_free ops with
               | Some _, Some _, Some _, Some _, Some _, Some _ =>
                   ((0%Z, []), Some (mkNativeReg info ops :: registrations))
               | _, _, _, _, _, _ => ((1%Z, ⟦"module driver is missing a required operation"⟧), active)
               end
      | _, _ => ((1%Z, ⟦"module registered a null driver"⟧), active)
      end
  end.

(** Running the entry point. *)
Fixpoint run_init (p : init_program S) (active : option (list (nativeRegistration S)))
    : C ((Z * option bytes) * option (list (nativeRegistration S))) :=
  match p with
  | IReturn status error => mret ((status, error), active)
  | IRegister info op k =>
      let '(answer, active) := native_register_driver active info op in run_init (k answer) active
  | IStep f k => s ← get_lib; _ ← put_lib (f s); run_init k active
  end.

(** [native_load_module]: the registrations, or a status and a message. *)
Definition native_load_module (path : Z) : C (outcome (list (nativeRegistration S))) :=
  let failed message := text ← native_set_error message; mret (mkOutcome 1 text None) in
  name ← C_GoString path;
  if bool_decide (name = []) then failed ⟦"module path is required"⟧
  else match dlopen name with
       | inl error => failed (default ⟦"dynamic loader error"⟧ error)
       | inr None => failed ⟦"library does not export kvlite_module_init_v1"⟧
       | inr (Some init) =>
           '((status, error), active) ← run_init init (Some []);
           if bool_decide (status ≠ 0)%Z
           then failed (if null_or_empty error then ⟦"module initialization failed"⟧ else default [] error)
           else match active with
                | Some (registration :: registrations) =>
                    mret (mkOutcome 0 None (Some (registration :: registrations)))
                | _ => failed ⟦"module initialized without registering a driver"⟧
                end
       end.

(** A call through a function pointer; a null one crashes. *)
Definition call_op {F A} (f : option F) (k : F → C A) : C A :=
  match f with Some f => k f | None => crash end.

Definition native_ops_scan_open ops (handle : Z) (pfx : option bytes) (length : Z) : C (outcome Z) :=
  match no_scan_open ops with
  | None => text ← native_set_error ⟦"native module backend does not expose scan"⟧;
            mret (mkOutcome 3 text None)
  | Some f => f handle pfx length true true
  end.

Definition native_ops_scan_close ops (cursor : Z) : C (outcome unit) :=
  match no_scan_close ops with None => mret (mkOutcome 0 None None) | Some f => f cursor true end.

Definition native_ops_free ops (pointer : Z) : C unit :=
  match no_free ops with
  | Some f => if bool_decide (pointer = 0)%Z then mret tt else f pointer
  | None => mret tt
  end.

(** ** Selecting a registration *)

Definition read_capabilities (capabilities : bytes) : list bytes :=
  filter (λ capability, capability ≠ [])
    ((λ capability, strings_ToLower (strings_TrimSpace capability)) <$> split_on "," capabilities).

Definition readNativeRegistration (registration : nativeRegistration S)
    : list (nativeModuleRegistration * nativeOps S) :=
  let info := nr_info registration in
  let name := strings_ToLower (strings_TrimSpace (default [] (ni_name info))) in
  let version := strings_TrimSpace (default [] (ni_version info)) in
  match normalizeDriverName (default [] (ni_driver info)) with
  | Ok driver =>
      if bool_decide (name = []) then []
      else [(mkModuleReg name version driver (read_capabilities (default [] (ni_capabilities info))),
             nr_ops registration)]
  | _ => []
  end.

Definition readNativeRegistrations registrations : list (nativeModuleRegistration * nativeOps S) :=
  registrations ≫= readNativeRegistration.

Fixpoint validate_capabilities (manifest : ModuleManifest) (registration : nativeModuleRegistration)
    (required : list bytes) : option GoError :=
  match required with
  | [] => None
  | capability :: required =>
      if bool_decide (capability ∈ mr_capabilities registration)
      then validate_capabilities manifest registration required
      else Some (errorf ErrModuleIncompatible
             (⟦"native module "⟧ ++ strconv_Quote (man_Name manifest) ++ ⟦" registered driver "⟧
              ++ strconv_Quote (mr_driver registration) ++ ⟦" without declared capability "⟧
              ++ strconv_Quote capability))
  end.

Definition validateNativeCapabilities (manifest : ModuleManifest) (registration : nativeModuleRegistration)
    : option GoError :=
  validate_capabilities manifest registration (⟦"embedded-storage"⟧ :: man_Capabilities manifest).

Definition select_registration (module : Module_) (wanted : bytes) registrations
    : GoError + (nativeOps S * nativeModuleRegistration) :=
  let manifest := mod_Manifest module in
  match list_find (λ r, mr_driver r.1 = wanted) (readNativeRegistrations registrations) with
  | None => inl (errorf ErrModuleIncompatible
              (⟦"native module "⟧ ++ strconv_Quote (man_Name manifest) ++ ⟦" did not register driver "⟧
               ++ strconv_Quote wanted))
  | Some (_, (selected, ops)) =>
      match validateNativeCapabilities manifest selected with
      | Some err => inl err
      | None => inr (ops, selected)
      end
  end.

Definition loadNativeModuleLibrary (module : Module_) (wanted : bytes)
    : C (GoError + (nativeOps S * nativeModuleRegistration)) :=
  let manifest := mod_Manifest module in
  match ArtifactForCurrentPlatform GOOS_GOARCH module [ModuleArtifactNative] with
  | Panic => crash
  | Err err => mret (inl (wrapf ⟦"kvlite: open native module artifact: "⟧ err))
  | Ok artifact =>
      if bool_decide (art_Symbol artifact ≠ NativeInitSymbol)
      then mret (inl (errorf ErrModuleIncompatible
             (⟦"native module "⟧ ++ strconv_Quote (man_Name manifest) ++ ⟦" names initialization symbol "⟧
              ++ strconv_Quote (art_Symbol artifact) ++ ⟦", want "⟧ ++ strconv_Quote NativeInitSymbol)))
      else match ArtifactPath module artifact with
           | Panic => crash
           | Err err => mret (inl (wrapf ⟦"kvlite: native module artifact path: "⟧ err))
           | Ok artifactPath =>
               cPath ← C_CString artifactPath;
               loaded ← native_load_module cPath;
               r ← (if bool_decide (out_status loaded ≠ 0)%Z then
                      message ← readCStringAndFree (out_error loaded);
                      mret (inl (errorf ErrDriverNotLoaded
                                   (if bool_decide (message = []) then ⟦"unable to load native module"⟧
                                    else message)))
                    else mret (select_registration module wanted (default [] (out_value loaded))));
               _ ← C_free cPath;
               mret r
           end
  end.

(** ** The driver *)

Definition native_Open (driver : nativeModuleDriver S) (path : bytes) : C (GoError + nativeModuleEngine S) :=
  cPath ← C_CString path;
  o ← call_op (no_open (nd_ops driver)) (λ f, f cPath true true);
  r ← (if bool_decide (out_status o ≠ 0)%Z then
         err ← status_error o ⟦"open"⟧;
         match err with Some e => mret (inl e) | None => crash end
       else mret (inr (mkNativeEngine (nd_ops driver) (default 0%Z (out_value o)) false)));
  _ ← C_free cPath;
  mret r.

(** The loaded drivers by module directory, and the driver registry of the
    process; [adapt] is the driver as a value of the [Driver] interface. *)
Definition openNativeModuleDriver {E} (adapt : nativeModuleDriver S → Driver E)
    (loads : gmap bytes (nativeModuleDriver S)) (registry : gmap bytes (registeredDriver E))
    (path : bytes) (module : Module_)
    : C ((GoError + nativeModuleEngine S) * gmap bytes (nativeModuleDriver S) * gmap bytes (registeredDriver E)) :=
  match loads !! mod_Directory module with
  | Some driver => opened ← native_Open driver path; mret (opened, loads, registry)
  | None =>
      match normalizeDriverName (man_Driver (mod_Manifest module)) with
      | Panic => crash
      | Err err => mret (inl err, loads, registry)
      | Ok wanted =>
          loaded ← loadNativeModuleLibrary module wanted;
          match loaded with
          | inl err => mret (inl err, loads, registry)
          | inr (ops, _) =>
              let trimmed := strings_TrimSpace (man_Version (mod_Manifest module)) in
              let version := if bool_decide (trimmed = []) then ⟦"unknown"⟧ else trimmed in
              let driver := mkNativeDriver ops
                    (mkDriverInfo wanted wanted (man_Name (mod_Manifest module)) version version true false) in
              match RegisterDriver (Some (adapt driver)) registry with
              | Panic => crash
              | Err err =>
                  mret (inl (wrapf (⟦"kvlite: register native driver "⟧ ++ strconv_Quote wanted ++ ⟦": "⟧) err),
                        loads, registry)
              | Ok registry =>
                  opened ← native_Open driver path;
                  mret (opened, <[mod_Directory module := driver]> loads, registry)
              end
          end
      end
  end.

(** ** The engine *)

Definition native_Get (key : bytes) engine : C (GoError + option bytes) :=
  if bool_decide (key = []) then mret (inl (errorf ErrInvalidArgument ⟦"key is required"⟧))
  else if ne_closed engine then mret (inl (ESentinel ErrClosed))
  else
    o ← call_op (no_get (ne_ops engine)) (λ f,
          f (ne_handle engine) (slice_pointer key) (slice_length key) true true true);
    err ← status_error o ⟦"get"⟧;
    match err with
    | Some e => mret (if errors_Is e ErrNotFound then inr None else inl e)
    | None =>
        let '(value, valueLength) := default (0, 0)%Z (out_value o) in
        if bool_decide (value = 0)%Z || bool_decide (valueLength = 0)%Z
        then _ ← native_ops_free (ne_ops engine) value; mret (inr (Some []))
        else result ← C_GoBytes value (c_int valueLength);
             _ ← native_ops_free (ne_ops engine) value;
             mret (inr (Some result))
    end.

Definition native_Put (key value : bytes) engine : C (option GoError) :=
  if ne_closed engine then mret (Some (ESentinel ErrClosed))
  else
    o ← call_op (no_put (ne_ops engine)) (λ f,
          f (ne_handle engine) (slice_pointer key) (slice_length key) (slice_pointer value) (slice_length value) true);
    status_error o ⟦"put"⟧.

Definition native_Delete (key : bytes) engine : C (option GoError) :=
  if ne_closed engine then mret (Some (ESentinel ErrClosed))
  else
    o ← call_op (no_delete (ne_ops engine)) (λ f,
          f (ne_handle engine) (slice_pointer key) (slice_length key) true);
    status_error o ⟦"delete"⟧.

Definition native_scan_close ops (cursor : Z) : C (option GoError) :=
  o ← native_ops_scan_close ops cursor; status_error o ⟦"scan close"⟧.

(** The scan loop: the records delivered and the error that ended it. The
    callback runs in the caller, which stops at its first error; the loop of
    the source then closes the cursor and stops too. *)
Fixpoint native_scan_loop (fuel : nat) ops (cursor : Z) (delivered : list (bytes * bytes))
    : C (list (bytes * bytes) * option GoError) :=
  match fuel with
  | O => crash
  | Datatypes.S fuel =>
      o ← call_op (no_scan_next ops) (λ f, f cursor true true true true true);
      if bool_decide (out_status o = 1)%Z then err ← native_scan_close ops cursor; mret (delivered, err)
      else
        err ← status_error o ⟦"scan next"⟧;
        match err with
        | Some e => _ ← native_scan_close ops cursor; mret (delivered, Some e)
        | None =>
            let '((cKey, cKeyLength), (cValue, cValueLength)) :=
              default ((0, 0), (0, 0))%Z (out_value o) in
            key ← C_GoBytes cKey (c_int cKeyLength);
            _ ← native_ops_free ops cKey;
            value ← C_GoBytes cValue (c_int cValueLength);
            _ ← native_ops_free ops cValue;
            native_scan_loop fuel ops cursor (delivered ++ [(key, value)])
        end
  end.

Definition native_ScanPrefix (fuel : nat) (pfx : bytes) engine : C (list (bytes * bytes) * option GoError) :=
  if ne_closed engine then mret ([], Some (ESentinel ErrClosed))
  else
    o ← native_ops_scan_open (ne_ops engine) (ne_handle engine) (slice_pointer pfx) (slice_length pfx);
    if bool_decide (out_status o ≠ 0)%Z then err ← status_error o ⟦"scan open"⟧; mret ([], err)
    else native_scan_loop fuel (ne_ops engine) (default 0%Z (out_value o)) [].

Definition native_Close engine : C (option GoError * nativeModuleEngine S) :=
  if ne_closed engine then mret (None, engine)
  else
    o ← call_op (no_close (ne_ops engine)) (λ f, f (ne_handle engine) true);
    err ← status_error o ⟦"close"⟧;
    mret (err, mkNativeEngine (ne_ops engine) (ne_handle engine) true).
End native.
