(* ===== verification/NativeProps.v ===== *)
(** * Properties of the loader of native modules

    The driver it selects is one the module registered, complete and with the
    declared capabilities; a module is initialized once; and the engine over
    a table of operations that keep the contract [RecordLibrary] is the
    record map behind it. *)

From S2P Require Import Prelude Errors Engine Effects MemDriver Envelope Keys ListCodec Text DriverName DB Collections Transport PathClean Modules Backend CMemory CApi ModuleLoader LoaderProps NativeLoader.

Section engine.
Context {S : Type} (f : record_functions S) `{!RecordLibrary f} (ops : nativeOps S).

(** The table has the record functions [f] and frees with [C.free]. *)
Definition provides : Prop :=
  no_put ops = Some (rf_put f) ∧ no_get ops = Some (rf_get f) ∧ no_delete ops = Some (rf_delete f)
  ∧ no_scan_open ops = Some (rf_scan_open f) ∧ no_scan_next ops = Some (rf_scan_next f)
  ∧ no_scan_close ops = Some (rf_scan_close f) ∧ no_free ops = Some C_free.

Hypothesis ops_provide : provides.
Implicit Types (st : cstate S) (engine : nativeModuleEngine S) (m : gmap bytes bytes) (key value pfx : bytes).

Definition native_attached engine m st : Prop :=
  ne_ops engine = ops ∧ ne_closed engine = false
  ∧ heap_ok st ∧ serves (c_lib st) (ne_handle engine) m.

Definition native_leaves engine m st st' : Prop :=
  c_heap st' = c_heap st ∧ native_attached engine m st'
  ∧ others (ne_handle engine) (c_lib st) (c_lib st').

Lemma cwp_native_free p block h brk (s : S) Q :
  p ≠ 0%Z → h !! p = None → heap_ok (mkC (<[p := block]> h) brk s) →
  (heap_ok (mkC h brk s) → Q tt (mkC h brk s)) →
  cwp (native_ops_free ops p) Q (mkC (<[p := block]> h) brk s).
Proof using ops_provide.
  destruct ops_provide as (_ & _ & _ & _ & _ & _ & Hf). intros Hp Hh Hok HQ.
  unfold native_ops_free. rewrite Hf, bool_decide_eq_false_2 by done. by apply cwp_free_fresh.
Qed.

Lemma native_Put_attached key value m engine st :
  native_attached engine m st → key ≠ [] → fits key → fits value →
  cwp (native_Put key value engine) (λ r st', r = None ∧ native_leaves engine (<[key := value]> m) st st') st.
Proof using ops_provide.
  intros (Hl & Hc & Hok & Hs) Hk Hfk Hfv. unfold native_Put. rewrite Hc, Hl.
  pose proof ops_provide as (-> & _). apply cwp_bind.
  eapply cwp_mono; [by apply lib_put|]. intros o st' (-> & Hh & Hok' & Hs' & Ho).
  by apply cwp_quiet.
Qed.

Lemma native_Delete_attached key m engine st :
  native_attached engine m st → key ≠ [] → fits key →
  cwp (native_Delete key engine) (λ r st', r = None ∧ native_leaves engine (delete key m) st st') st.
Proof using ops_provide.
  intros (Hl & Hc & Hok & Hs) Hk Hfk. unfold native_Delete. rewrite Hc, Hl.
  pose proof ops_provide as (_ & _ & -> & _). apply cwp_bind.
  eapply cwp_mono; [by apply lib_delete|]. intros o st' (-> & Hh & Hok' & Hs' & Ho).
  by apply cwp_quiet.
Qed.

Lemma native_Get_attached key m engine st :
  native_attached engine m st → key ≠ [] → fits key → (∀ v, m !! key = Some v → small v) →
  cwp (native_Get key engine) (λ r st', r = inr (m !! key) ∧ native_leaves engine m st st') st.
Proof using ops_provide.
  intros (Hl & Hc & Hok & Hs) Hk Hfk Hv. unfold native_Get.
  rewrite bool_decide_eq_false_2 by done. rewrite Hc, Hl.
  pose proof ops_provide as (_ & -> & _). apply cwp_bind.
  eapply cwp_mono; [by apply lib_get|]. intros o [h' brk s'] ((p & Hp & Hfr & Ho) & Hok' & Hs' & Hoth).
  cbn [c_heap c_lib] in *. apply cwp_bind. destruct (m !! key) as [v|].
  - destruct Ho as [-> ->]. apply cwp_quiet. cbn [out_value default id].
    rewrite bool_decide_eq_false_2 by done. cbn [orb].
    case_bool_decide as Hz; apply cwp_bind.
    + apply cwp_native_free; [done..|]. intros Hok''. apply cwp_ret.
      destruct v; [done|]. unfold slice_length in Hz. cbn in Hz. lia.
    + apply cwp_GoBytes; [by rewrite lookup_insert_eq|by apply Hv|]. apply cwp_bind.
      apply cwp_native_free; [done..|]. intros Hok''. by apply cwp_ret.
  - destruct Ho as [-> [t ->]]. unfold status_error. apply cwp_bind.
    apply cwp_read_and_free; [done..|]. intros u Hok''. cbn [out_status]. apply cwp_ret.
    unfold nativeModuleStatusError. rewrite bool_decide_eq_false_2 by done.
    rewrite bool_decide_eq_true_2 by done. apply cwp_ret. by rewrite errors_Is_errorf.
Qed.

Lemma cwp_native_scan_close c items st Q :
  heap_ok st → at_cursor (c_lib st) c items →
  (∀ st', c_heap st' = c_heap st → heap_ok st' →
     (∀ h m, serves (c_lib st) h m → serves (c_lib st') h m) → Q None st') →
  cwp (native_scan_close ops c) Q st.
Proof using ops_provide.
  intros Hok Hat HQ. unfold native_scan_close, native_ops_scan_close.
  pose proof ops_provide as (_ & _ & _ & _ & _ & -> & _). apply cwp_bind.
  eapply cwp_mono; [by eapply lib_scan_close|]. intros o st' (-> & Hh & Hok' & Hs).
  by apply cwp_quiet, HQ.
Qed.

Lemma cwp_native_scan c : ∀ items fuel read st,
  heap_ok st → at_cursor (c_lib st) c items → Forall (λ kv, small kv.1 ∧ small kv.2) items →
  length items < fuel →
  cwp (native_scan_loop fuel ops c read)
    (λ r st', r = (read ++ items, None) ∧ c_heap st' = c_heap st ∧ heap_ok st'
       ∧ ∀ h m, serves (c_lib st) h m → serves (c_lib st') h m) st.
Proof using ops_provide.
  induction items as [|[k v] items IH]; intros [|fuel] read st Hok Hat Hsm Hf; cbn [length] in Hf;
    [lia| |lia|]; cbn [native_scan_loop]; pose proof ops_provide as (_ & _ & _ & _ & -> & _);
    apply cwp_bind; (eapply cwp_mono; [by apply lib_scan_next|]); cbn beta iota.
  - intros o st' [-> ->]. cbn [out_status]. rewrite bool_decide_eq_true_2 by done.
    apply cwp_bind. eapply cwp_native_scan_close; [done..|]. intros st' Hh Hok' Hs.
    apply cwp_ret. by rewrite app_nil_r.
  - intros o [h' brk s'] (p & q & -> & Hp & Hq & Hfp & Hfq & Hpq & Hh & Hok' & Hat' & Hsv).
    apply Forall_cons in Hsm as [[Hk Hv] Hsm]. cbn [c_heap c_lib fst snd out_status out_value] in *. subst h'.
    rewrite bool_decide_eq_false_2 by done. apply cwp_bind, cwp_quiet. cbn [default id].
    apply cwp_bind, cwp_GoBytes; [by rewrite lookup_insert_eq|done|].
    apply cwp_bind, cwp_native_free; [done| |done|]; [by rewrite lookup_insert_ne|]. intros Hok1.
    apply cwp_bind, cwp_GoBytes; [by rewrite lookup_insert_eq|done|].
    apply cwp_bind, cwp_native_free; [done..|]. intros Hok2.
    eapply cwp_mono; [apply (IH fuel); [done|done|done|lia]|]. cbn [c_heap c_lib].
    intros r st' (-> & Hh & Hok3 & Hsv'). rewrite <-app_assoc. naive_solver.
Qed.

Lemma native_Scan_attached pfx m engine st :
  native_attached engine m st → fits pfx →
  Forall (λ kv, small kv.1 ∧ small kv.2) (matches m pfx) →
  ∃ items, items ≡ₚ matches m pfx ∧
    ∀ fuel, length items < fuel →
    cwp (native_ScanPrefix fuel pfx engine)
      (λ r st', r = (items, None) ∧ native_leaves engine m st st') st.
Proof using ops_provide.
  intros (Hl & Hc & Hok & Hs) Hf Hsm.
  pose proof (lib_scan_open st (ne_handle engine) m pfx Hok Hs Hf) as Hopen.
  apply cwp_some in Hopen as (o & st1 & Hrun & c & items & -> & Hperm & Hat & Hh1 & Hok1 & Hs1 & Hoth1).
  exists items. split; [done|]. intros fuel Hfuel.
  unfold native_ScanPrefix, native_ops_scan_open. rewrite Hc, Hl.
  pose proof ops_provide as (_ & _ & _ & Ho & _ & _ & _). apply cwp_bind.
  rewrite Ho. apply cwp_some. eexists _, _. split; [exact Hrun|].
  cbn [out_status out_value default id]. rewrite bool_decide_eq_false_2 by (intros H; by apply H).
  eapply cwp_mono; [apply (cwp_native_scan c items fuel [] st1); [done|done| |done]|].
  { by rewrite Hperm. }
  intros r st2 (-> & Hh2 & Hok2 & Hs2). split; [done|]. split_and!; [congruence| |].
  - split_and!; auto.
  - intros h' m' Hne Hsv. auto.
Qed.

End engine.

(** ** Selection *)

Section selection.
Context {GT : GoText} {S : Type} (dlopen : bytes → option bytes + option (init_program S)) (GOOS_GOARCH : bytes).
Implicit Types (ops : nativeOps S) (st : cstate S) (registrations : list (nativeRegistration S)).

(** No operation the engine cannot do without is null. *)
Definition complete ops : Prop :=
  is_Some (no_open ops) ∧ is_Some (no_close ops) ∧ is_Some (no_put ops) ∧ is_Some (no_get ops)
  ∧ is_Some (no_delete ops) ∧ is_Some (no_free ops).

Lemma register_complete registrations info op answer active :
  Forall (λ r, complete (nr_ops r)) registrations →
  native_register_driver (Some registrations) info op = (answer, active) →
  ∃ registrations', active = Some registrations' ∧ Forall (λ r, complete (nr_ops r)) registrations'.
Proof.
  intros Hall. unfold native_register_driver. destruct info as [info|], op as [ops|]; try (intros [= _ <-]; eauto).
  case_match; [intros [= _ <-]; eauto|].
  destruct (no_open ops) eqn:?, (no_close ops) eqn:?, (no_put ops) eqn:?, (no_get ops) eqn:?,
    (no_delete ops) eqn:?, (no_free ops) eqn:?; intros [= _ <-]; eauto.
  eexists. split; [done|]. constructor; [|done]. unfold complete. cbn. by simplify_option_eq; eauto 10.
Qed.

(** Whatever the entry point does, only complete drivers are collected and
    the heap of the host is as it was. *)
Lemma cwp_run_init (p : init_program S) : ∀ registrations Q st,
  Forall (λ r, complete (nr_ops r)) registrations → heap_ok st →
  (∀ result registrations' st', Forall (λ r, complete (nr_ops r)) registrations' →
     c_heap st' = c_heap st → heap_ok st' → Q (result, Some registrations') st') →
  cwp (run_init p (Some registrations)) Q st.
Proof.
  induction p as [status error|info op k IH|f k IH]; intros registrations Q st Hall Hok HQ; cbn [run_init].
  - by apply cwp_ret, HQ.
  - destruct (native_register_driver _ info op) as [answer active] eqn:Hreg.
    eapply register_complete in Hreg as (registrations' & -> & Hall'); [|done]. by apply IH.
  - apply cwp_bind, cwp_get_lib, cwp_bind, cwp_put_lib. apply IH; [done|by destruct st|]. by destruct st.
Qed.

Lemma cwp_native_failed {A} message h brk (s : S) (Q : outcome A → cstate S → Prop) :
  heap_ok (mkC h brk s) →
  (∀ brk', (∀ p t, p ≠ 0%Z → h !! p = None → heap_ok (mkC (<[p := t ++ [NUL]]> h) brk' s) →
     Q (mkOutcome 1 (Some p) None) (mkC (<[p := t ++ [NUL]]> h) brk' s))) →
  Q (mkOutcome 1 None None) (mkC h brk s) →
  cwp (text ← native_set_error message; mret (mkOutcome 1 text None)) Q (mkC h brk s).
Proof.
  intros Hok HQ HQ'. apply cwp_bind. unfold native_set_error. case_bool_decide; [by apply cwp_ret, cwp_ret|].
  apply cwp_bind, cwp_CString; [done|]. intros p brk' st' Hp Hfr Hok'. apply cwp_ret, cwp_ret. by apply HQ.
Qed.

(** Loading ends with the heap as it was and a message, or with registrations
    of complete drivers. *)
Definition loaded_or_message (h : gmap Z bytes) (o : outcome (list (nativeRegistration S))) st : Prop :=
  heap_ok st ∧
  ((out_status o = 0%Z ∧ c_heap st = h ∧ Forall (λ r, complete (nr_ops r)) (default [] (out_value o)))
   ∨ (out_status o = 1%Z ∧ out_error o = None ∧ c_heap st = h)
   ∨ (out_status o = 1%Z ∧ ∃ p t, out_error o = Some p ∧ p ≠ 0%Z ∧ h !! p = None
        ∧ c_heap st = <[p := t ++ [NUL]]> h)).

Lemma cwp_load_module path t h brk (s : S) :
  path ≠ 0%Z → h !! path = Some (t ++ [NUL]) → heap_ok (mkC h brk s) →
  cwp (native_load_module dlopen path) (loaded_or_message h) (mkC h brk s).
Proof.
  intros Hp Hh Hok. unfold native_load_module. apply cwp_bind, (cwp_GoString path t); [done..|]. intros u _.
  assert (∀ message brk s, heap_ok (mkC h brk s) →
    cwp (text ← native_set_error message; mret (mkOutcome 1 text None)) (loaded_or_message h) (mkC h brk s))
    as Hfail.
  { intros message brk' s' Hok'. apply cwp_native_failed; [done| |].
    - intros brk'' p t' Hp' Hfr Hok''. split; [done|]. right; right. split; [done|]. by exists p, t'.
    - split; [done|]. right; left. done. }
  case_bool_decide; [by apply Hfail|]. destruct (dlopen u) as [error|[init|]]; [by apply Hfail| |by apply Hfail].
  apply cwp_bind, cwp_run_init; [done|done|]. intros [status error] registrations [h' brk' s'] Hall Hh' Hok'.
  cbn in Hh'. subst h'. case_bool_decide; [by apply Hfail|].
  destruct registrations as [|registration registrations]; [by apply Hfail|].
  apply cwp_ret. split; [done|]. by left.
Qed.

Lemma read_registrations_complete registrations r ops :
  Forall (λ r, complete (nr_ops r)) registrations → (r, ops) ∈ readNativeRegistrations registrations → complete ops.
Proof.
  intros Hall (registration & Hin & Hreg)%list_elem_of_bind.
  rewrite Forall_forall in Hall. specialize (Hall _ Hreg).
  unfold readNativeRegistration in Hin. case_match; [|by apply not_elem_of_nil in Hin..].
  case_bool_decide; [by apply not_elem_of_nil in Hin|]. apply list_elem_of_singleton in Hin. by simplify_eq.
Qed.

Lemma validate_capabilities_None manifest r required :
  validate_capabilities manifest r required = None ↔ ∀ c, c ∈ required → c ∈ mr_capabilities r.
Proof.
  induction required as [|c required IH]; cbn.
  - split; [|done]. intros _ c Hc. by apply not_elem_of_nil in Hc.
  - case_bool_decide as Hc; [rewrite IH; set_solver|]. split; [done|]. intros H. destruct Hc. apply H. left.
Qed.

(** What a selection promises. *)
Definition selected_ok (module : Module_) (wanted : bytes) ops (r : nativeModuleRegistration) : Prop :=
  complete ops ∧ mr_driver r = wanted
  ∧ ∀ c, c ∈ ⟦"embedded-storage"⟧ :: man_Capabilities (mod_Manifest module) → c ∈ mr_capabilities r.

Lemma select_registration_ok module wanted registrations ops r :
  Forall (λ r, complete (nr_ops r)) registrations →
  select_registration module wanted registrations = inr (ops, r) → selected_ok module wanted ops r.
Proof.
  intros Hall. unfold select_registration.
  destruct (list_find _ _) as [[i [r' ops']]|] eqn:Hfind; [|done].
  apply list_find_Some in Hfind as (Hin & Hw & _). apply list_elem_of_lookup_2 in Hin.
  destruct (validateNativeCapabilities _ _) eqn:Hval; [done|]. intros [= <- <-].
  split_and!; [by eapply read_registrations_complete|done|].
  exact (proj1 (validate_capabilities_None _ _ _) Hval).
Qed.

Lemma refuse_then_no_panic {A} bad err (r : result A) : r ≠ Panic → (refuse bad err ≫= λ _, r) ≠ Panic.
Proof. by destruct bad. Qed.

Lemma artifact_path_no_panic module artifact : ArtifactPath module artifact ≠ Panic.
Proof.
  unfold ArtifactPath. case_bool_decide; [done|].
  assert (validateModuleArtifact artifact ≠ Panic) as Hv.
  { unfold validateModuleArtifact. do 4 apply refuse_then_no_panic. by destruct (_ && _). }
  by destruct (validateModuleArtifact artifact).
Qed.


(** A module is initialized once per process. When an open loaded a module,
    its driver is in the registry under the manifest's driver name, and every
    later open of the module uses that driver without loading the library
    again, whatever the file system then holds. *)
Theorem native_module_loaded_once {E} (adapt : nativeModuleDriver S → Driver E) loads registry path module st
    r loads' registry' st' driver :
  (∀ d, drv_Info (adapt d) = nd_info d) →
  loads !! mod_Directory module = None →
  openNativeModuleDriver dlopen GOOS_GOARCH adapt loads registry path module st = Some ((r, loads', registry'), st') →
  loads' !! mod_Directory module = Some driver →
  normalizeDriverName (man_Driver (mod_Manifest module)) = Ok (info_Driver (nd_info driver))
  ∧ registry' !! info_Driver (nd_info driver)
    = Some (mkRegistered (Some (adapt driver)) (set_names (nd_info driver) (info_Driver (nd_info driver))))
  ∧ ∀ dlopen' path' st2,
      openNativeModuleDriver dlopen' GOOS_GOARCH adapt loads' registry' path' module st2
      = (opened ← native_Open driver path'; mret (opened, loads', registry')) st2.
Proof.
  intros Hinfo Hnone Hopen Hdriver. unfold openNativeModuleDriver in Hopen at 1. rewrite Hnone in Hopen.
  destruct (normalizeDriverName _) as [wanted| |] eqn:Hw; [|injection Hopen as <- <- <- <-; congruence|done].
  unfold mbind at 1, CM_bind at 1 in Hopen.
  destruct (loadNativeModuleLibrary _ _ _ _ _) as [[[e|[ops selected]] st1]|]; [|..|done];
    [injection Hopen as <- <- <- <-; congruence|].
  set (d := mkNativeDriver ops _) in Hopen.
  destruct (RegisterDriver (Some (adapt d)) registry) as [registry1| |] eqn:Hreg;
    [|injection Hopen as <- <- <- <-; congruence|done].
  unfold mbind, CM_bind in Hopen. destruct (native_Open d path st1) as [[opened st2]|]; [|done].
  injection Hopen as <- <- <- <-. rewrite lookup_insert_eq in Hdriver. injection Hdriver as <-.
  split_and!; [done| |].
  - revert Hreg. unfold RegisterDriver. rewrite Hinfo. cbn [nd_info info_Driver d].
    pose proof (normalizeDriverName_Ok _ wanted Hw) as [Hne Hc].
    rewrite (bool_decide_eq_false_2 (wanted = [])) by done.
    rewrite (normalizeDriverName_canonical wanted Hne Hc). cbn [mbind result_bind].
    destruct (_ || _); [done|]. cbn [refuse mbind result_bind]. case_bool_decide; [done|].
    intros [= <-]. by rewrite lookup_insert_eq.
  - intros dlopen' path' st3. unfold openNativeModuleDriver. by rewrite lookup_insert_eq.
Qed.
End selection.

(** ** A module without scans

    A driver may leave the scan operations out. [Delete] of a handle then
    skips the hash fields and set members it cannot enumerate. *)

Theorem scanless_module_reports_unavailable {S} (engine : nativeModuleEngine S) pfx fuel st :
  heap_ok st → ne_closed engine = false → no_scan_open (ne_ops engine) = None →
  cwp (native_ScanPrefix fuel pfx engine)
    (λ r st', (∃ e, r = ([], Some e) ∧ errors_Is e ErrDriverUnavailable = true)
       ∧ c_heap st' = c_heap st ∧ c_lib st' = c_lib st) st.
Proof.
  intros Hok Hc Hn. unfold native_ScanPrefix, native_ops_scan_open. rewrite Hc, Hn.
  apply cwp_bind, cwp_bind. unfold native_set_error. rewrite bool_decide_eq_false_2 by done.
  apply cwp_bind, cwp_CString; [done|]. intros p brk st' Hp Hfr Hok'. apply cwp_ret, cwp_ret.
  cbn [out_status]. rewrite bool_decide_eq_true_2 by done. apply cwp_bind. unfold status_error.
  apply cwp_bind. cbn [out_error]. apply cwp_read_and_free; [done..|]. intros u Hok2.
  apply cwp_ret, cwp_ret. split; [|done]. unfold nativeModuleStatusError.
  rewrite !bool_decide_eq_false_2 by done. eexists. split; [done|]. by rewrite errors_Is_errorf.
Qed.

(** ** Witnesses *)

Module native_example.
Import loader_example.
#[local] Existing Instance ascii_GoText.

(** A native module with the operations of the C interface. *)
Definition ops : nativeOps library := {|
  no_open := Some (kvlite_open ∅ open);
  no_close := Some kvlite_close;
  no_put := Some (kvlite_raw_put now);
  no_get := Some (kvlite_raw_get now);
  no_delete := Some (kvlite_raw_delete now);
  no_scan_open := Some (kvlite_raw_scan_open now);
  no_scan_next := Some kvlite_raw_scan_next;
  no_scan_close := Some kvlite_raw_scan_close;
  no_free := Some C_free
|}.

Definition init : init_program library :=
  IRegister (Some (mkNativeInfo (Some ⟦"mem"⟧) None (Some ⟦"Memory"⟧) (Some ⟦"embedded-storage"⟧))) (Some ops)
    (λ answer, IReturn answer.1 None).

Definition native_module : Module_ :=
  mkModule (mkManifest 1 ⟦"mem"⟧ ModuleKindEngine [] ⟦"1.0"⟧ 1 ⟦"memory"⟧ [] []
              [mkArtifact ⟦"linux-amd64"⟧ ModuleArtifactNative ⟦"lib/mem.so"⟧ (replicate 64 "0"%byte) NativeInitSymbol]
              ⟦"MIT"⟧)
    ⟦"/m/mem"⟧ [] false.

Definition adapt (d : nativeModuleDriver library) : Driver unit :=
  mkDriver (nd_info d) None (λ _ d, (inr tt, d)).
Definition opened := openNativeModuleDriver (λ _, inr (Some init)) ⟦"linux-amd64"⟧ adapt ∅ ∅ ⟦"/db"⟧ native_module state.
End native_example.

Section witnesses.
Import loader_example native_example.
#[local] Existing Instance ascii_GoText.



Lemma native_module_loaded_once_witness :
  ∃ r loads registry st' d, opened = Some ((r, loads, registry), st')
    ∧ loads !! ⟦"/m/mem"⟧ = Some d
    ∧ registry !! ⟦"memory"⟧ = Some (mkRegistered (Some (adapt d)) (set_names (nd_info d) ⟦"memory"⟧)).
Proof.
  assert (match opened with
          | Some ((_, loads, _), _) =>
              match loads !! ⟦"/m/mem"⟧ with Some d => bool_decide (info_Driver (nd_info d) = ⟦"memory"⟧) | None => false end
          | None => false end = true) as Hv by (by vm_compute).
  destruct opened as [[[[r loads] registry] st']|] eqn:Hopen; [|done].
  destruct (loads !! ⟦"/m/mem"⟧) as [d|] eqn:Hd; [|done]. apply bool_decide_eq_true in Hv.
  exists r, loads, registry, st', d. split_and!; [done..|].
  destruct (native_module_loaded_once (λ _, inr (Some init)) ⟦"linux-amd64"⟧ adapt ∅ ∅ ⟦"/db"⟧ native_module state
    r loads registry st' d (λ _, eq_refl) (lookup_empty _) Hopen Hd) as (_ & Hr & _).
  by rewrite Hv in Hr.
Defined.

Lemma scanless_module_reports_unavailable_witness :
  cwp (native_ScanPrefix 1 [] (mkNativeEngine (mkNativeOps (S := library) None None None None None None None None None) 1 false))
    (λ r st', ∃ e, r = ([], Some e) ∧ errors_Is e ErrDriverUnavailable = true) state.
Proof.
  eapply cwp_mono; [by apply (scanless_module_reports_unavailable _ [] 1 state state_ok)|]. by intros r st' [? _].
Defined.
End witnesses.
