(* ===== verification/Drivers.v ===== *)
(** * The bundled storage drivers ([extensions/boltdb], [extensions/leveldb],
      [extensions/badgerdb], [extensions/lmdb], [extensions/rocksdb])

    Each is an adapter of a third-party library of ordered records. What the
    adapters use of a library is the class [OrderedStore]; its documented
    behaviour, the class [OrderedStoreLaws], is what their properties rely
    on. An iterator is the sequence of records it would still deliver and the
    error it would end with: the iterators of the libraries read a snapshot. *)

From S2P Require Import Prelude Errors Engine Effects MemDriver Envelope Keys ListCodec Text DriverName DB Collections Transport PathClean Modules Backend.

(** ** The libraries *)

(** An error of a library: the key is absent, the map is full, or another. *)
Inductive storeError :=
  | StoreNotFound (e : GoError)
  | StoreMapFull (e : GoError)
  | StoreError (e : GoError).

Definition store_error (e : storeError) : GoError :=
  match e with StoreNotFound e | StoreMapFull e | StoreError e => e end.

Definition IsNotFound (e : storeError) : bool := match e with StoreNotFound _ => true | _ => false end.
Definition IsMapFull (e : storeError) : bool := match e with StoreMapFull _ => true | _ => false end.

Class OrderedStore (D : Type) := {
  (** the stored value; an absent key is [None] or an error *)
  os_get : bytes → D → storeError + option bytes;
  os_put : bytes → bytes → D → option storeError * D;
  os_delete : bytes → D → option storeError * D;
  (** the records from the first key not below the argument on *)
  os_seek : bytes → D → list (bytes * bytes) * option storeError;
  (** the records under a prefix, for a library with range iterators *)
  os_range : bytes → D → list (bytes * bytes) * option storeError;
  (** the value of the current record of an iterator *)
  os_value : bytes * bytes → GoError + bytes;
  os_max_key_size : D → Z;
  os_close : D → option GoError * D
}.

(** ** BoltDB *)

Record boltEngine (D : Type) := mkBolt { bolt_db : D }.
Arguments mkBolt {D}.
Arguments bolt_db {D}.

(** Read-only and read-write transactions of the records bucket. *)
Definition bolt_Get {D} `{!OrderedStore D} (ctx : GoContext) (key : bytes) (e : boltEngine D)
    : (GoError + option bytes) * boltEngine D :=
  match ctx with
  | Some err => (inl err, e)
  | None => (match os_get key (bolt_db e) with inl err => inl (store_error err) | inr stored => inr stored end, e)
  end.

Definition bolt_update {D} (f : D → option storeError * D) (e : boltEngine D) : option GoError * boltEngine D :=
  let '(err, db) := f (bolt_db e) in (store_error <$> err, mkBolt db).

Definition bolt_Put {D} `{!OrderedStore D} (ctx : GoContext) (key value : bytes) (e : boltEngine D)
    : option GoError * boltEngine D :=
  match ctx with Some err => (Some err, e) | None => bolt_update (os_put key value) e end.

Definition bolt_Delete {D} `{!OrderedStore D} (ctx : GoContext) (key : bytes) (e : boltEngine D)
    : option GoError * boltEngine D :=
  match ctx with Some err => (Some err, e) | None => bolt_update (os_delete key) e end.

(** [for key, value := cursor.Seek(prefix); key != nil && HasPrefix(key,
    prefix); key, value = cursor.Next()]. *)
Fixpoint bolt_scan (ctx : GoContext) (pfx : bytes) (cursor : list (bytes * bytes))
    : list (bytes * bytes) * option GoError :=
  match cursor with
  | [] => ([], None)
  | (key, value) :: cursor =>
      if has_prefix pfx key then
        match ctx with
        | Some err => ([], Some err)
        | None => let '(delivered, err) := bolt_scan ctx pfx cursor in ((key, value) :: delivered, err)
        end
      else ([], None)
  end.

Definition bolt_ScanPrefix {D} `{!OrderedStore D} (ctx : GoContext) (pfx : bytes) (e : boltEngine D)
    : (list (bytes * bytes) * option GoError) * boltEngine D :=
  match ctx with
  | Some err => (([], Some err), e)
  | None => (bolt_scan ctx pfx (os_seek pfx (bolt_db e)).1, e)
  end.

Definition bolt_Close {D} `{!OrderedStore D} (e : boltEngine D) : option GoError * boltEngine D :=
  let '(err, db) := os_close (bolt_db e) in (err, mkBolt db).

Definition bolt_DatabaseFilename : bytes := ⟦"KVLITE-BOLT.db"⟧.

(** [bolt.Open] of a file, and the transaction that creates the bucket; the
    middle result is the databases closed again on a failure. *)
Definition bolt_Open {D W} `{!OrderedStore D} (open : bytes → W → (GoError + D) * W)
    (CreateBucketIfNotExists : D → option GoError * D) (path : bytes) (w : W)
    : (GoError + boltEngine D) * list D * W :=
  let '(r, w) := open (path_Join path bolt_DatabaseFilename) w in
  match r with
  | inl err => (inl (wrapf ⟦"kvlite: open BoltDB: "⟧ err), [], w)
  | inr db =>
      let '(err, db) := CreateBucketIfNotExists db in
      match err with
      | Some err => (inl (wrapf ⟦"kvlite: initialize BoltDB: "⟧ err), [(os_close db).2], w)
      | None => (inr (mkBolt db), [], w)
      end
  end.

#[global] Instance bolt_Engine {D} `{!OrderedStore D} : Engine (boltEngine D) := {
  engine_Get := bolt_Get;
  engine_Put := bolt_Put;
  engine_Delete := bolt_Delete;
  engine_ScanPrefix := bolt_ScanPrefix;
  engine_Close := bolt_Close;
  engine_PushList := None;
  engine_AddSet := None;
  engine_RemoveSet := None;
  engine_DeleteHashFields := None;
  engine_ReplaceLogicalValue := None
}.

(** ** LevelDB *)

Record leveldbEngine (D : Type) := mkLevelDB { leveldb_db : D }.
Arguments mkLevelDB {D}.
Arguments leveldb_db {D}.

Definition leveldb_Get {D} `{!OrderedStore D} (ctx : GoContext) (key : bytes) (e : leveldbEngine D)
    : (GoError + option bytes) * leveldbEngine D :=
  match ctx with
  | Some err => (inl err, e)
  | None =>
      (match os_get key (leveldb_db e) with
       | inl err => if IsNotFound err then inr None else inl (store_error err)
       | inr None => inr (Some [])
       | inr (Some value) => inr (Some value)
       end, e)
  end.

Definition leveldb_write {D} (f : D → option storeError * D) (e : leveldbEngine D)
    : option GoError * leveldbEngine D :=
  let '(err, db) := f (leveldb_db e) in (store_error <$> err, mkLevelDB db).

Definition leveldb_Put {D} `{!OrderedStore D} (ctx : GoContext) (key value : bytes) (e : leveldbEngine D)
    : option GoError * leveldbEngine D :=
  match ctx with Some err => (Some err, e) | None => leveldb_write (os_put key value) e end.

Definition leveldb_Delete {D} `{!OrderedStore D} (ctx : GoContext) (key : bytes) (e : leveldbEngine D)
    : option GoError * leveldbEngine D :=
  match ctx with Some err => (Some err, e) | None => leveldb_write (os_delete key) e end.

(** The loop over a range iterator, ended by [iterator.Error()]. *)
Fixpoint leveldb_scan (ctx : GoContext) (iterator : list (bytes * bytes)) (ending : option storeError)
    : list (bytes * bytes) * option GoError :=
  match iterator with
  | [] => ([], store_error <$> ending)
  | (key, value) :: iterator =>
      match ctx with
      | Some err => ([], Some err)
      | None => let '(delivered, err) := leveldb_scan ctx iterator ending in ((key, value) :: delivered, err)
      end
  end.

Definition leveldb_ScanPrefix {D} `{!OrderedStore D} (ctx : GoContext) (pfx : bytes) (e : leveldbEngine D)
    : (list (bytes * bytes) * option GoError) * leveldbEngine D :=
  match ctx with
  | Some err => (([], Some err), e)
  | None => let '(iterator, ending) := os_range pfx (leveldb_db e) in (leveldb_scan ctx iterator ending, e)
  end.

Definition leveldb_Close {D} `{!OrderedStore D} (e : leveldbEngine D) : option GoError * leveldbEngine D :=
  let '(err, db) := os_close (leveldb_db e) in (err, mkLevelDB db).

Definition leveldb_Open {D W} (OpenFile : bytes → DriverOptions → W → (GoError + D) * W) (path : bytes)
    (options : DriverOptions) (w : W) : (GoError + leveldbEngine D) * W :=
  let '(r, w) := OpenFile path options w in
  (match r with inl err => inl (wrapf ⟦"kvlite: open LevelDB: "⟧ err) | inr db => inr (mkLevelDB db) end, w).

#[global] Instance leveldb_Engine {D} `{!OrderedStore D} : Engine (leveldbEngine D) := {
  engine_Get := leveldb_Get;
  engine_Put := leveldb_Put;
  engine_Delete := leveldb_Delete;
  engine_ScanPrefix := leveldb_ScanPrefix;
  engine_Close := leveldb_Close;
  engine_PushList := None;
  engine_AddSet := None;
  engine_RemoveSet := None;
  engine_DeleteHashFields := None;
  engine_ReplaceLogicalValue := None
}.

(** ** BadgerDB *)

Record badgerEngine (D : Type) := mkBadger { badger_db : D }.
Arguments mkBadger {D}.
Arguments badger_db {D}.

Definition badger_Get {D} `{!OrderedStore D} (ctx : GoContext) (key : bytes) (e : badgerEngine D)
    : (GoError + option bytes) * badgerEngine D :=
  match ctx with
  | Some err => (inl err, e)
  | None =>
      (match os_get key (badger_db e) with
       | inl err => if IsNotFound err then inr None else inl (store_error err)
       | inr None => inr (Some [])
       | inr (Some value) =>
           match os_value (key, value) with inl err => inl err | inr value => inr (Some value) end
       end, e)
  end.

Definition badger_update {D} (f : D → option storeError * D) (e : badgerEngine D)
    : option GoError * badgerEngine D :=
  let '(err, db) := f (badger_db e) in (store_error <$> err, mkBadger db).

Definition badger_Put {D} `{!OrderedStore D} (ctx : GoContext) (key value : bytes) (e : badgerEngine D)
    : option GoError * badgerEngine D :=
  match ctx with Some err => (Some err, e) | None => badger_update (os_put key value) e end.

Definition badger_Delete {D} `{!OrderedStore D} (ctx : GoContext) (key : bytes) (e : badgerEngine D)
    : option GoError * badgerEngine D :=
  match ctx with Some err => (Some err, e) | None => badger_update (os_delete key) e end.

Fixpoint badger_scan {D} `{!OrderedStore D} (ctx : GoContext) (pfx : bytes) (iterator : list (bytes * bytes))
    : list (bytes * bytes) * option GoError :=
  match iterator with
  | [] => ([], None)
  | (key, value) :: iterator =>
      match ctx with
      | Some err => ([], Some err)
      | None =>
          if negb (has_prefix pfx key) then ([], None)
          else match os_value (key, value) with
               | inl err => ([], Some err)
               | inr value =>
                   let '(delivered, err) := badger_scan ctx pfx iterator in ((key, value) :: delivered, err)
               end
      end
  end.

Definition badger_ScanPrefix {D} `{!OrderedStore D} (ctx : GoContext) (pfx : bytes) (e : badgerEngine D)
    : (list (bytes * bytes) * option GoError) * badgerEngine D :=
  match ctx with
  | Some err => (([], Some err), e)
  | None => (badger_scan ctx pfx (os_seek pfx (badger_db e)).1, e)
  end.

Definition badger_Close {D} `{!OrderedStore D} (e : badgerEngine D) : option GoError * badgerEngine D :=
  let '(err, db) := os_close (badger_db e) in (err, mkBadger db).

(** The settings the adapter changes: memory-table and block-cache sizes. *)
Definition badger_Open {D W} (open : bytes → option Z → option Z → W → (GoError + D) * W) (path : bytes)
    (options : DriverOptions) (w : W) : (GoError + badgerEngine D) * W :=
  let positive z := if bool_decide (0 < z)%Z then Some z else None in
  let '(r, w) := open path (positive (opt_WriteBufferSize options)) (positive (opt_BlockCacheSize options)) w in
  (match r with inl err => inl (wrapf ⟦"kvlite: open BadgerDB: "⟧ err) | inr db => inr (mkBadger db) end, w).

#[global] Instance badger_Engine {D} `{!OrderedStore D} : Engine (badgerEngine D) := {
  engine_Get := badger_Get;
  engine_Put := badger_Put;
  engine_Delete := badger_Delete;
  engine_ScanPrefix := badger_ScanPrefix;
  engine_Close := badger_Close;
  engine_PushList := None;
  engine_AddSet := None;
  engine_RemoveSet := None;
  engine_DeleteHashFields := None;
  engine_ReplaceLogicalValue := None
}.

(** ** LMDB *)

Record lmdbEngine (D : Type) := mkLMDB { lmdb_env : D; lmdb_maxKeySize : Z }.
Arguments mkLMDB {D}.
Arguments lmdb_env {D}.
Arguments lmdb_maxKeySize {D}.

Definition lmdb_validateKey {D} (e : lmdbEngine D) (key : bytes) : option GoError :=
  if bool_decide (lmdb_maxKeySize e < Z.of_nat (length key))%Z
  then Some (ENew (⟦"kvlite: LMDB storage key is "⟧ ++ format_int (Z.of_nat (length key))
                   ++ ⟦" bytes; maximum is "⟧ ++ format_int (lmdb_maxKeySize e)))
  else None.

Definition lmdb_Get {D} `{!OrderedStore D} (ctx : GoContext) (key : bytes) (e : lmdbEngine D)
    : (GoError + option bytes) * lmdbEngine D :=
  match ctx, lmdb_validateKey e key with
  | Some err, _ | None, Some err => (inl err, e)
  | None, None =>
      (match os_get key (lmdb_env e) with
       | inl err => if IsNotFound err then inr None else inl (store_error err)
       | inr stored => inr (Some (default [] stored))
       end, e)
  end.

Definition lmdb_Put {D} `{!OrderedStore D} (ctx : GoContext) (key value : bytes) (e : lmdbEngine D)
    : option GoError * lmdbEngine D :=
  match ctx, lmdb_validateKey e key with
  | Some err, _ | None, Some err => (Some err, e)
  | None, None =>
      let '(err, env) := os_put key value (lmdb_env e) in
      ((λ err, if IsMapFull err
               then wrapf ⟦"kvlite: LMDB map is full (16 GiB virtual limit): "⟧ (store_error err)
               else store_error err) <$> err, mkLMDB env (lmdb_maxKeySize e))
  end.

Definition lmdb_Delete {D} `{!OrderedStore D} (ctx : GoContext) (key : bytes) (e : lmdbEngine D)
    : option GoError * lmdbEngine D :=
  match ctx, lmdb_validateKey e key with
  | Some err, _ | None, Some err => (Some err, e)
  | None, None =>
      let '(err, env) := os_delete key (lmdb_env e) in
      (match err with
       | Some err => if IsNotFound err then None else Some (store_error err)
       | None => None
       end, mkLMDB env (lmdb_maxKeySize e))
  end.

(** The cursor loop; the position after the last record is an error, usually
    [NotFound]. *)
Fixpoint lmdb_scan (ctx : GoContext) (pfx : bytes) (cursor : list (bytes * bytes)) (ending : option storeError)
    : list (bytes * bytes) * option GoError :=
  match cursor with
  | [] => ([], match ending with
               | Some err => if IsNotFound err then None else Some (store_error err)
               | None => None
               end)
  | (key, value) :: cursor =>
      if has_prefix pfx key then
        match ctx with
        | Some err => ([], Some err)
        | None => let '(delivered, err) := lmdb_scan ctx pfx cursor ending in ((key, value) :: delivered, err)
        end
      else ([], None)
  end.

(** [cursor.Get(nil, nil, First)] is the position of the empty key. *)
Definition lmdb_ScanPrefix {D} `{!OrderedStore D} (ctx : GoContext) (pfx : bytes) (e : lmdbEngine D)
    : (list (bytes * bytes) * option GoError) * lmdbEngine D :=
  match ctx with
  | Some err => (([], Some err), e)
  | None =>
      if bool_decide (lmdb_maxKeySize e < Z.of_nat (length pfx))%Z then (([], None), e)
      else let '(cursor, ending) := os_seek pfx (lmdb_env e) in (lmdb_scan ctx pfx cursor ending, e)
  end.

Definition lmdb_Close {D} `{!OrderedStore D} (e : lmdbEngine D) : option GoError * lmdbEngine D :=
  let '(err, env) := os_close (lmdb_env e) in (err, mkLMDB env (lmdb_maxKeySize e)).

Definition lmdb_mapSize : Z := Z.shiftl 16 30.

(** [openNative] with cgo: the environment is closed again when a step of its
    setup fails. *)
Definition lmdb_openNative {D W} `{!OrderedStore D} (NewEnv : W → (GoError + D) * W)
    (SetMapSize : Z → D → option GoError * D) (env_Open : bytes → D → W → (option GoError * D) * W)
    (OpenRoot : D → option GoError * D) (path : bytes) (w : W) : (GoError + lmdbEngine D) * list D * W :=
  let '(r, w) := NewEnv w in
  match r with
  | inl err => (inl (wrapf ⟦"kvlite: create LMDB environment: "⟧ err), [], w)
  | inr env =>
      let '(err, env) := SetMapSize lmdb_mapSize env in
      match err with
      | Some err => (inl (wrapf ⟦"kvlite: configure LMDB map: "⟧ err), [(os_close env).2], w)
      | None =>
          let '((err, env), w) := env_Open path env w in
          match err with
          | Some err => (inl (wrapf ⟦"kvlite: open LMDB: "⟧ err), [(os_close env).2], w)
          | None =>
              let '(err, env) := OpenRoot env in
              match err with
              | Some err => (inl (wrapf ⟦"kvlite: open LMDB root database: "⟧ err), [(os_close env).2], w)
              | None => (inr (mkLMDB env (os_max_key_size env)), [], w)
              end
          end
      end
  end.

#[global] Instance lmdb_Engine {D} `{!OrderedStore D} : Engine (lmdbEngine D) := {
  engine_Get := lmdb_Get;
  engine_Put := lmdb_Put;
  engine_Delete := lmdb_Delete;
  engine_ScanPrefix := lmdb_ScanPrefix;
  engine_Close := lmdb_Close;
  engine_PushList := None;
  engine_AddSet := None;
  engine_RemoveSet := None;
  engine_DeleteHashFields := None;
  engine_ReplaceLogicalValue := None
}.

(** ** RocksDB *)

Record rocksdbEngine (D : Type) := mkRocksDB { rocksdb_db : D }.
Arguments mkRocksDB {D}.
Arguments rocksdb_db {D}.

Definition rocksdb_Get {D} `{!OrderedStore D} (ctx : GoContext) (key : bytes) (e : rocksdbEngine D)
    : (GoError + option bytes) * rocksdbEngine D :=
  match ctx with
  | Some err => (inl err, e)
  | None => (match os_get key (rocksdb_db e) with inl err => inl (store_error err) | inr value => inr value end, e)
  end.

Definition rocksdb_write {D} (f : D → option storeError * D) (e : rocksdbEngine D)
    : option GoError * rocksdbEngine D :=
  let '(err, db) := f (rocksdb_db e) in (store_error <$> err, mkRocksDB db).

Definition rocksdb_Put {D} `{!OrderedStore D} (ctx : GoContext) (key value : bytes) (e : rocksdbEngine D)
    : option GoError * rocksdbEngine D :=
  match ctx with Some err => (Some err, e) | None => rocksdb_write (os_put key value) e end.

Definition rocksdb_Delete {D} `{!OrderedStore D} (ctx : GoContext) (key : bytes) (e : rocksdbEngine D)
    : option GoError * rocksdbEngine D :=
  match ctx with Some err => (Some err, e) | None => rocksdb_write (os_delete key) e end.

(** The loop: the records delivered, and the error of a cancelled context. *)
Fixpoint rocksdb_scan (ctx : GoContext) (pfx : bytes) (iterator : list (bytes * bytes)) (ending : option storeError)
    : list (bytes * bytes) * option GoError :=
  match iterator with
  | [] => ([], store_error <$> ending)
  | (key, value) :: iterator =>
      match ctx with
      | Some err => ([], Some err)
      | None =>
          if negb (has_prefix pfx key) then ([], None)
          else let '(delivered, err) := rocksdb_scan ctx pfx iterator ending in ((key, value) :: delivered, err)
      end
  end.

Definition rocksdb_ScanPrefix {D} `{!OrderedStore D} (ctx : GoContext) (pfx : bytes) (e : rocksdbEngine D)
    : (list (bytes * bytes) * option GoError) * rocksdbEngine D :=
  let '(iterator, ending) := os_seek pfx (rocksdb_db e) in (rocksdb_scan ctx pfx iterator ending, e).

Definition rocksdb_Close {D} `{!OrderedStore D} (e : rocksdbEngine D) : option GoError * rocksdbEngine D :=
  let '(_, db) := os_close (rocksdb_db e) in (None, mkRocksDB db).

(** [expiryCompactionFilter.Filter]: whether compaction drops a record. *)
Definition compaction_Filter (options : DriverOptions) (now : Z) (value : bytes) : bool :=
  opt_RecordExpired options now value.

Definition rocksdb_openNative {D W} (OpenDb : DriverOptions → bytes → W → (GoError + D) * W) (path : bytes)
    (options : DriverOptions) (w : W) : (GoError + rocksdbEngine D) * W :=
  let '(r, w) := OpenDb options path w in
  (match r with inl err => inl (wrapf ⟦"kvlite: open RocksDB: "⟧ err) | inr db => inr (mkRocksDB db) end, w).

#[global] Instance rocksdb_Engine {D} `{!OrderedStore D} : Engine (rocksdbEngine D) := {
  engine_Get := rocksdb_Get;
  engine_Put := rocksdb_Put;
  engine_Delete := rocksdb_Delete;
  engine_ScanPrefix := rocksdb_ScanPrefix;
  engine_Close := rocksdb_Close;
  engine_PushList := None;
  engine_AddSet := None;
  engine_RemoveSet := None;
  engine_DeleteHashFields := None;
  engine_ReplaceLogicalValue := None
}.

(** ** Metadata *)

Definition engine_manifest (name : bytes) (capabilities : list bytes) (license : bytes) : ModuleManifest :=
  mkManifest ModuleManifestVersion name ModuleKindEngine [] ⟦"v0.1.0"⟧ ModuleABIVersion name capabilities [] [] license.

Definition boltdb_Manifest : ModuleManifest := engine_manifest DriverBoltDB [⟦"embedded-storage"⟧] ⟦"MIT"⟧.
Definition leveldb_Manifest : ModuleManifest := engine_manifest DriverLevelDB [⟦"embedded-storage"⟧] ⟦"Apache-2.0"⟧.
Definition badgerdb_Manifest : ModuleManifest := engine_manifest DriverBadgerDB [⟦"embedded-storage"⟧] ⟦"Apache-2.0"⟧.
Definition lmdb_Manifest : ModuleManifest :=
  engine_manifest DriverLMDB [⟦"embedded-storage"⟧; ⟦"native-cgo"⟧] ⟦"BSD-3-Clause AND OLDAP-2.8"⟧.
Definition rocksdb_Manifest : ModuleManifest :=
  engine_manifest DriverRocksDB [⟦"embedded-storage"⟧; ⟦"ttl-compaction"⟧] ⟦"Apache-2.0"⟧.
Definition berkeleydb_Manifest : ModuleManifest :=
  engine_manifest DriverBerkeleyDB [⟦"embedded-storage"⟧; ⟦"native-cgo"⟧; ⟦"license-gated"⟧]
    ⟦"LicenseRef-Oracle-BerkeleyDB-separate-distribution"⟧.

Definition boltdb_Info : DriverInfo := mkDriverInfo DriverBoltDB [] ⟦"bbolt"⟧ ⟦"bbolt-v1"⟧ ⟦"v1.4.3"⟧ false false.
Definition leveldb_Info : DriverInfo := mkDriverInfo DriverLevelDB [] ⟦"goleveldb"⟧ ⟦"v1"⟧ ⟦"v1.0.0"⟧ false false.
Definition badgerdb_Info : DriverInfo :=
  mkDriverInfo DriverBadgerDB [] ⟦"badger-go"⟧ ⟦"badger-v4"⟧ ⟦"v4.8.0"⟧ false false.
Definition lmdb_Info : DriverInfo :=
  mkDriverInfo DriverLMDB [] ⟦"powerdns-lmdb-go"⟧ ⟦"lmdb-0.9-v1"⟧ ⟦"v1.9.4"⟧ false false.
Definition rocksdb_Info : DriverInfo := mkDriverInfo DriverRocksDB [] ⟦"grocksdb"⟧ ⟦"v1"⟧ ⟦"v1.10.6"⟧ false true.
Definition berkeleydb_Info : DriverInfo :=
  mkDriverInfo DriverBerkeleyDB [] ⟦"berkeleydb-c"⟧ ⟦"bdb-btree-v1"⟧ ⟦"compatible-c-api"⟧ false false.

(** A build without the library of a driver reports why it is missing. *)
Definition ErrRocksDBNotBuilt : GoError :=
  errorf ErrDriverUnavailable ⟦"RocksDB support is not built; rebuild with -tags rocksdb"⟧.
Definition ErrBerkeleyDBNotBuilt : GoError :=
  errorf ErrDriverUnavailable
    ⟦"Berkeley DB support is not built; rebuild with -tags berkeleydb and link a licensed Berkeley DB distribution"⟧.
Definition lmdb_unavailable : GoError := ENew ⟦"kvlite: LMDB driver requires CGO_ENABLED=1"⟧.

(** [Open] of the drivers over native libraries: [available] is what
    [nativeAvailable] reports in the build. *)
Definition native_driver_Open {E W} (available : option GoError)
    (openNative : bytes → DriverOptions → W → (GoError + E) * W) (path : bytes) (options : DriverOptions) (w : W)
    : (GoError + E) * W :=
  match available with Some err => (inl err, w) | None => openNative path options w end.
