(* ===== verification/DriverProps.v ===== *)
(** * Properties of the bundled storage drivers

    On a library that behaves as documented every adapter is the record map
    of its library: it delivers exactly the records of a prefix, in the order
    of their keys. Programs cannot tell two such engines apart, and the
    compaction of expired records cannot be seen. *)

From S2P Require Import Prelude Errors Engine Effects MemDriver Envelope Keys ListCodec Text DriverName DB DBTheorems Collections Transport PathClean Modules Backend RedisStorage RedisModel Drivers.

(** ** Keys under a prefix are adjacent *)

Lemma byte_ltb_irrefl c : (byte_to_Z c <? byte_to_Z c)%Z = false.
Proof. apply Z.ltb_irrefl. Qed.

Lemma bytes_le_prefix pfx rest : bytes_le pfx (pfx ++ rest).
Proof.
  unfold bytes_le. induction pfx as [|c pfx IH]; [done|]. cbn. by rewrite byte_ltb_irrefl, Z.eqb_refl.
Qed.

(** What lies between a prefix and a key under it is under it too. *)
Lemma has_prefix_between pfx a b :
  bytes_le pfx a → bytes_le a b → has_prefix pfx b = true → has_prefix pfx a = true.
Proof.
  unfold bytes_le. rewrite !has_prefix_spec. revert a b.
  induction pfx as [|c pfx IH]; intros a b Hpa Hab [rest ->]; [by exists a|].
  destruct a as [|d a]; [done|]. cbn in Hpa, Hab.
  destruct (Z.ltb_spec (byte_to_Z c) (byte_to_Z d)), (Z.ltb_spec (byte_to_Z d) (byte_to_Z c));
    [lia| | |].
  - destruct (Z.eqb_spec (byte_to_Z d) (byte_to_Z c)); [lia|done].
  - destruct (Z.eqb_spec (byte_to_Z c) (byte_to_Z d)); [lia|done].
  - assert (c = d) as <- by (apply byte_to_Z_inj; lia). rewrite Z.eqb_refl in Hpa, Hab.
    destruct (IH a (pfx ++ rest)) as [rest' ->]; [done|done|by exists rest|]. by exists rest'.
Qed.

(** The leading records under a prefix. *)
Fixpoint while_prefix (pfx : bytes) (l : list (bytes * bytes)) : list (bytes * bytes) :=
  match l with
  | [] => []
  | kv :: l => if has_prefix pfx kv.1 then kv :: while_prefix pfx l else []
  end.

Abbreviation sorted_keys l := (StronglySorted bytes_le l.*1).

Lemma while_prefix_none pfx l :
  sorted_keys l → (∀ kv, kv ∈ l → bytes_le pfx kv.1) →
  while_prefix pfx l = filter (λ kv, has_prefix pfx kv.1 = true) l.
Proof.
  induction l as [|[k v] l IH]; intros Hs Hle; [done|].
  inversion Hs as [|? ? Hs' Hk]; subst. cbn [while_prefix fst]. rewrite filter_cons. cbn [fst].
  destruct (has_prefix pfx k) eqn:Hp.
  - rewrite decide_True by done. f_equal. apply IH; [done|]. intros kv Hin. apply Hle. by right.
  - rewrite decide_False by done. symmetry. apply elem_of_nil_inv. intros [k' v'] [Hp' Hin]%list_elem_of_filter.
    cbn [fst] in Hp'. rewrite Forall_forall in Hk.
    assert (bytes_le k k') as Hkk by (apply Hk, list_elem_of_fmap; by exists (k', v')).
    rewrite (has_prefix_between pfx k k') in Hp; [done|by apply (Hle (k, v)); left|done|done].
Qed.

(** From the first key not below the prefix, the leading records under it are
    all of them. *)
Lemma seek_prefix_exact pfx l :
  sorted_keys l →
  while_prefix pfx (filter (λ kv, bytes_le pfx kv.1) l) = filter (λ kv, has_prefix pfx kv.1 = true) l.
Proof.
  intros Hs. rewrite while_prefix_none.
  - rewrite list_filter_filter. apply list_filter_iff. intros [k v]. cbn [fst]. split; [tauto|].
    intros Hp. split; [done|]. apply has_prefix_spec in Hp as [rest ->]. apply bytes_le_prefix.
  - clear -Hs. induction l as [|[k v] l IH]; [done|]. inversion Hs as [|? ? Hs' Hk]; subst.
    rewrite filter_cons. case_decide; [|by apply IH]. cbn. constructor; [by apply IH|].
    rewrite Forall_forall in Hk |- *. intros x ([k' v'] & -> & [_ Hin]%list_elem_of_filter)%list_elem_of_fmap.
    apply Hk, list_elem_of_fmap. by exists (k', v').
  - intros kv [Hle _]%list_elem_of_filter. done.
Qed.

(** ** The records of a map in the order of their keys *)

Definition sorted_records (m : gmap bytes bytes) : list (bytes * bytes) :=
  (λ key, (key, default [] (m !! key))) <$> sort_strings (map_to_list m).*1.

Definition sorted_matches (m : gmap bytes bytes) (pfx : bytes) : list (bytes * bytes) :=
  filter (λ kv, has_prefix pfx kv.1 = true) (sorted_records m).

Lemma sorted_records_keys m : (sorted_records m).*1 = sort_strings (map_to_list m).*1.
Proof. unfold sorted_records. rewrite <-list_fmap_compose. change (fst ∘ _) with (@id bytes). apply list_fmap_id. Qed.

Lemma sorted_records_sorted m : sorted_keys (sorted_records m).
Proof. rewrite sorted_records_keys. apply Sorted_StronglySorted; [apply _|apply sort_strings_sorted]. Qed.

Lemma sorted_records_perm m : sorted_records m ≡ₚ map_to_list m.
Proof.
  unfold sorted_records. rewrite sort_strings_perm.
  enough (∀ l : list (bytes * bytes), (∀ k v, (k, v) ∈ l → m !! k = Some v) →
    (λ key, (key, default [] (m !! key))) <$> l.*1 = l) as H.
  { rewrite H; [done|]. intros k v. apply elem_of_map_to_list. }
  induction l as [|[k v] l IH]; intros Hl; [done|]. cbn. rewrite (Hl k v) by left. cbn. f_equal.
  apply IH. intros k' v' Hin. apply Hl. by right.
Qed.

Lemma sorted_matches_perm m pfx : sorted_matches m pfx ≡ₚ matches m pfx.
Proof. unfold sorted_matches, matches. by rewrite sorted_records_perm. Qed.

Lemma seek_sorted_matches m pfx :
  while_prefix pfx (filter (λ kv, bytes_le pfx kv.1) (sorted_records m)) = sorted_matches m pfx.
Proof. apply seek_prefix_exact, sorted_records_sorted. Qed.

(** ** What a library documents *)

Class OrderedStoreLaws (D : Type) `{!OrderedStore D} := {
  os_contents : D → gmap bytes bytes;
  os_live : D → Prop;
  (** the keys and values the library can store *)
  os_accepts : D → bytes → Prop;
  os_fits : bytes → Prop;
  (** how it reports an absent key on a read and on a delete, and the end of
      an iterator *)
  os_missing : storeError + option bytes;
  os_absent : option storeError;
  os_exhausted : option storeError;
  law_get d k : os_live d → os_accepts d k →
    os_get k d = match os_contents d !! k with Some v => inr (Some v) | None => os_missing end;
  law_put d k v : os_live d → os_accepts d k → os_fits v → ∃ d',
    os_put k v d = (None, d') ∧ os_live d' ∧ os_accepts d' = os_accepts d
    ∧ os_contents d' = <[k := v]> (os_contents d);
  law_delete d k : os_live d → os_accepts d k → ∃ d',
    os_delete k d = (match os_contents d !! k with Some _ => None | None => os_absent end, d')
    ∧ os_live d' ∧ os_accepts d' = os_accepts d ∧ os_contents d' = delete k (os_contents d);
  law_seek d k : os_live d →
    os_seek k d = (filter (λ kv, bytes_le k kv.1) (sorted_records (os_contents d)), os_exhausted);
  law_range d k : os_live d → os_range k d = (sorted_matches (os_contents d) k, os_exhausted);
  law_value kv : os_value kv = inr kv.2;
  law_keys d k : os_live d → is_Some (os_contents d !! k) → os_accepts d k
}.

(** The three conventions of the libraries. *)
Definition reports_nil {D} `{!OrderedStore D} (_ : OrderedStoreLaws D) : Prop :=
  os_missing = inr None ∧ os_absent = None ∧ os_exhausted = None.
Definition reports_not_found {D} `{!OrderedStore D} (_ : OrderedStoreLaws D) : Prop :=
  (∃ e, os_missing = inl (StoreNotFound e)) ∧ os_absent = None ∧ os_exhausted = None.
Definition reports_always {D} `{!OrderedStore D} (_ : OrderedStoreLaws D) : Prop :=
  (∃ e, os_missing = inl (StoreNotFound e)) ∧ (∃ e, os_absent = Some (StoreNotFound e))
  ∧ (∃ e, os_exhausted = Some (StoreNotFound e)).

(** ** What an adapter promises: its engine is an ordered record map *)

Record exact_engine (E : Type) `{!Engine E} (contents_of : E → gmap bytes bytes) (ok : E → Prop)
    (accepts : E → bytes → Prop) (fits : bytes → Prop) : Prop := {
  exact_Get e k : ok e → accepts e k → engine_Get Background k e = (inr (contents_of e !! k), e);
  exact_Put e k v : ok e → accepts e k → fits v → ∃ e', engine_Put Background k v e = (None, e')
    ∧ ok e' ∧ accepts e' = accepts e ∧ contents_of e' = <[k := v]> (contents_of e);
  exact_Delete e k : ok e → accepts e k → ∃ e', engine_Delete Background k e = (None, e')
    ∧ ok e' ∧ accepts e' = accepts e ∧ contents_of e' = delete k (contents_of e);
  exact_Scan e pfx : ok e → engine_ScanPrefix Background pfx e = ((sorted_matches (contents_of e) pfx, None), e)
}.
Arguments exact_engine E {_}.

Lemma bolt_scan_while pfx l : bolt_scan None pfx l = (while_prefix pfx l, None).
Proof.
  induction l as [|[k v] l IH]; cbn [bolt_scan while_prefix fst]; [done|].
  destruct (has_prefix pfx k); [|done]. by rewrite IH.
Qed.

Lemma rocksdb_scan_while pfx l : rocksdb_scan None pfx l None = (while_prefix pfx l, None).
Proof.
  induction l as [|[k v] l IH]; cbn [rocksdb_scan while_prefix fst]; [done|].
  destruct (has_prefix pfx k); [|done]. cbn. by rewrite IH.
Qed.

Lemma lmdb_scan_while pfx l e : lmdb_scan None pfx l (Some (StoreNotFound e)) = (while_prefix pfx l, None).
Proof.
  induction l as [|[k v] l IH]; cbn [lmdb_scan while_prefix fst]; [done|].
  destruct (has_prefix pfx k); [|done]. by rewrite IH.
Qed.

Lemma leveldb_scan_all l : leveldb_scan None l None = (l, None).
Proof. induction l as [|[k v] l IH]; cbn [leveldb_scan]; [done|]. by rewrite IH. Qed.

Section adapters.
Context {D : Type} `{!OrderedStore D} `{laws : !OrderedStoreLaws D}.

Lemma badger_scan_while pfx l : badger_scan None pfx l = (while_prefix pfx l, None).
Proof.
  induction l as [|[k v] l IH]; cbn [badger_scan while_prefix fst]; [done|].
  destruct (has_prefix pfx k); [|done]. cbn [negb]. rewrite law_value. cbn [snd]. by rewrite IH.
Qed.


Lemma bolt_exact : reports_nil laws →
  exact_engine (boltEngine D) (λ e, os_contents (bolt_db e)) (λ e, os_live (bolt_db e))
    (λ e, os_accepts (bolt_db e)) os_fits.
Proof.
  intros (Hm & Ha & He). split; intros [d].
  - intros k Hl Hk. cbn. rewrite law_get by done. destruct (os_contents d !! k); [done|]. by rewrite Hm.
  - intros k v Hl Hk Hv. cbn. unfold bolt_update. cbn [bolt_db].
    destruct (law_put d k v Hl Hk Hv) as (d' & -> & ? & ? & ?). by eexists.
  - intros k Hl Hk. cbn. unfold bolt_update. cbn [bolt_db].
    destruct (law_delete d k Hl Hk) as (d' & -> & ? & ? & ?). exists (mkBolt d'). split; [|by split_and!].
    destruct (os_contents d !! k); [done|]. by rewrite Ha.
  - intros pfx Hl. cbn. rewrite law_seek by done. cbn [fst]. by rewrite bolt_scan_while, seek_sorted_matches.
Qed.

Lemma rocksdb_exact : reports_nil laws →
  exact_engine (rocksdbEngine D) (λ e, os_contents (rocksdb_db e)) (λ e, os_live (rocksdb_db e))
    (λ e, os_accepts (rocksdb_db e)) os_fits.
Proof.
  intros (Hm & Ha & He). split; intros [d].
  - intros k Hl Hk. cbn. rewrite law_get by done. destruct (os_contents d !! k); [done|]. by rewrite Hm.
  - intros k v Hl Hk Hv. cbn. unfold rocksdb_write. cbn [rocksdb_db].
    destruct (law_put d k v Hl Hk Hv) as (d' & -> & ? & ? & ?). by eexists.
  - intros k Hl Hk. cbn. unfold rocksdb_write. cbn [rocksdb_db].
    destruct (law_delete d k Hl Hk) as (d' & -> & ? & ? & ?). exists (mkRocksDB d'). split; [|by split_and!].
    destruct (os_contents d !! k); [done|]. by rewrite Ha.
  - intros pfx Hl. cbn. unfold rocksdb_ScanPrefix. cbn [rocksdb_db]. rewrite law_seek, He by done.
    by rewrite rocksdb_scan_while, seek_sorted_matches.
Qed.

Lemma leveldb_exact : reports_not_found laws →
  exact_engine (leveldbEngine D) (λ e, os_contents (leveldb_db e)) (λ e, os_live (leveldb_db e))
    (λ e, os_accepts (leveldb_db e)) os_fits.
Proof.
  intros ((err & Hm) & Ha & He). split; intros [d].
  - intros k Hl Hk. cbn. rewrite law_get by done. destruct (os_contents d !! k); [done|]. by rewrite Hm.
  - intros k v Hl Hk Hv. cbn. unfold leveldb_write. cbn [leveldb_db].
    destruct (law_put d k v Hl Hk Hv) as (d' & -> & ? & ? & ?). by eexists.
  - intros k Hl Hk. cbn. unfold leveldb_write. cbn [leveldb_db].
    destruct (law_delete d k Hl Hk) as (d' & -> & ? & ? & ?). exists (mkLevelDB d'). split; [|by split_and!].
    destruct (os_contents d !! k); [done|]. by rewrite Ha.
  - intros pfx Hl. cbn. rewrite law_range, He by done. by rewrite leveldb_scan_all.
Qed.

Lemma badger_exact : reports_not_found laws →
  exact_engine (badgerEngine D) (λ e, os_contents (badger_db e)) (λ e, os_live (badger_db e))
    (λ e, os_accepts (badger_db e)) os_fits.
Proof.
  intros ((err & Hm) & Ha & He). split; intros [d].
  - intros k Hl Hk. cbn. rewrite law_get by done.
    destruct (os_contents d !! k); [by rewrite law_value|]. by rewrite Hm.
  - intros k v Hl Hk Hv. cbn. unfold badger_update. cbn [badger_db].
    destruct (law_put d k v Hl Hk Hv) as (d' & -> & ? & ? & ?). by eexists.
  - intros k Hl Hk. cbn. unfold badger_update. cbn [badger_db].
    destruct (law_delete d k Hl Hk) as (d' & -> & ? & ? & ?). exists (mkBadger d'). split; [|by split_and!].
    destruct (os_contents d !! k); [done|]. by rewrite Ha.
  - intros pfx Hl. cbn. rewrite law_seek by done. cbn [fst]. by rewrite badger_scan_while, seek_sorted_matches.
Qed.

(** LMDB stores keys up to its maximal size. *)
Definition lmdb_ok (e : lmdbEngine D) : Prop :=
  os_live (lmdb_env e) ∧ ∀ k, os_accepts (lmdb_env e) k ↔ (Z.of_nat (length k) ≤ lmdb_maxKeySize e)%Z.

Lemma lmdb_exact : reports_always laws →
  exact_engine (lmdbEngine D) (λ e, os_contents (lmdb_env e)) lmdb_ok (λ e, os_accepts (lmdb_env e)) os_fits.
Proof.
  intros ((err & Hm) & (err' & Ha) & (err'' & He)).
  assert (∀ e k, lmdb_ok e → os_accepts (lmdb_env e) k → lmdb_validateKey e k = None) as Hvalid.
  { intros e k [_ Hmax] Hk. unfold lmdb_validateKey. rewrite bool_decide_eq_false_2; [done|].
    apply Hmax in Hk. lia. }
  assert (∀ d d' max, lmdb_ok (mkLMDB d max) → os_live d' → os_accepts d' = os_accepts d → lmdb_ok (mkLMDB d' max))
    as Hkeep.
  { intros d d' max [_ Hmax] Hl' Hac. split; [done|]. cbn. by rewrite Hac. }
  split; intros [d max].
  - intros k Hl Hk. cbn -[lmdb_Get]. unfold lmdb_Get. rewrite Hvalid by done. cbn [lmdb_env].
    rewrite law_get by (done || apply Hl). destruct (os_contents d !! k); [done|]. by rewrite Hm.
  - intros k v Hl Hk Hv. cbn -[lmdb_Put]. unfold lmdb_Put. rewrite Hvalid by done. cbn [lmdb_env lmdb_maxKeySize].
    destruct (law_put d k v (proj1 Hl) Hk Hv) as (d' & -> & ? & ? & ?). eexists. split; [done|].
    split_and!; [by apply (Hkeep d)|done|done].
  - intros k Hl Hk. cbn -[lmdb_Delete]. unfold lmdb_Delete. rewrite Hvalid by done. cbn [lmdb_env lmdb_maxKeySize].
    destruct (law_delete d k (proj1 Hl) Hk) as (d' & -> & ? & ? & ?). exists (mkLMDB d' max).
    split; [|split_and!; [by apply (Hkeep d)|done|done]].
    destruct (os_contents d !! k); [done|]. by rewrite Ha.
  - intros pfx Hl. cbn -[lmdb_ScanPrefix]. unfold lmdb_ScanPrefix. cbn [lmdb_env lmdb_maxKeySize].
    case_bool_decide as Hlong.
    + f_equal. f_equal. symmetry. apply elem_of_nil_inv. intros [k v]. rewrite sorted_matches_perm, elem_of_matches.
      intros [Hk Hp]. destruct Hl as [Hl Hmax]. apply has_prefix_spec in Hp as [rest ->].
      pose proof (law_keys d (pfx ++ rest) Hl ltac:(by rewrite Hk)) as Hac. apply Hmax in Hac. cbn in Hac.
      rewrite length_app in Hac. lia.
    + rewrite law_seek, He by apply Hl. by rewrite lmdb_scan_while, seek_sorted_matches.
Qed.
End adapters.


(** ** Engines that cannot be told apart *)

(** A local engine whose scans follow the order of the keys. *)
Class OrderedEngine (E : Type) `{!Engine E} `{!LocalEngine E} :=
  ordered_Scan e pfx : live e → ∃ e',
    engine_ScanPrefix Background pfx e = ((sorted_matches (contents e) pfx, None), e')
    ∧ live e' ∧ contents e' = contents e.

#[global] Instance memory_OrderedEngine : OrderedEngine memoryDriverEngine.
Proof.
  intros e pfx He. exists e. split; [|done]. cbn. unfold memory_ScanPrefix. rewrite He, memory_deliver_background.
  f_equal. f_equal. unfold sorted_matches, sorted_records.
  set (f := λ key, (key, default [] (mem_data e !! key))).
  assert (∀ l : list bytes, filter (λ kv, has_prefix pfx kv.1 = true) (f <$> l) = f <$> filter (λ k, has_prefix pfx k = true) l)
    as Hf.
  { induction l as [|k l IH]; [done|]. rewrite fmap_cons, !filter_cons. cbn [f fst].
    destruct (decide (has_prefix pfx k = true)); [|done]. by rewrite IH. }
  rewrite Hf. f_equal. apply (Sorted_unique bytes_le); [apply sort_strings_sorted| |].
  - apply StronglySorted_Sorted.
    pose proof (Sorted_StronglySorted bytes_le _ (sort_strings_sorted (map_to_list (mem_data e)).*1)) as Hs.
    induction Hs as [|k l Hs IH Hk]; [constructor|]. rewrite filter_cons. case_decide; [|done].
    constructor; [done|]. rewrite Forall_forall in Hk |- *. intros x [_ Hx]%list_elem_of_filter. auto.
  - by rewrite !sort_strings_perm.
Qed.

(** An exact engine over a library that accepts everything. *)
Section total.
Context {E : Type} `{!Engine E} (contents_of : E → gmap bytes bytes) (ok : E → Prop)
  (accepts : E → bytes → Prop) (fits : bytes → Prop).
Hypothesis exact : exact_engine E contents_of ok accepts fits.
Hypothesis accepts_all : ∀ e k, ok e → accepts e k.
Hypothesis fits_all : ∀ v, fits v.
Hypothesis local_only : @engine_PushList E _ = None ∧ @engine_AddSet E _ = None ∧ @engine_RemoveSet E _ = None
  ∧ @engine_DeleteHashFields E _ = None ∧ @engine_ReplaceLogicalValue E _ = None.

Definition exact_LocalEngine : LocalEngine E.
Proof using exact accepts_all fits_all local_only.
  destruct local_only as (H1 & H2 & H3 & H4 & H5).
  refine {| contents := contents_of; live := ok; local_PushList := H1; local_AddSet := H2; local_RemoveSet := H3;
            local_DeleteHashFields := H4; local_ReplaceLogicalValue := H5 |}.
  - intros e k He. exists e. split; [|done]. apply (exact_Get _ _ _ _ _ exact); auto.
  - intros e k v He. destruct (exact_Put _ _ _ _ _ exact e k v) as (e' & ? & ? & _ & ?); eauto.
  - intros e k He. destruct (exact_Delete _ _ _ _ _ exact e k) as (e' & ? & ? & _ & ?); eauto.
  - intros e pfx He. exists (sorted_matches (contents_of e) pfx), e.
    split_and!; [by apply (exact_Scan _ _ _ _ _ exact)|apply sorted_matches_perm|done|done].
Defined.

Lemma exact_OrderedEngine : @OrderedEngine E _ exact_LocalEngine.
Proof using Type.
  intros e pfx He. unfold exact_LocalEngine in *. destruct local_only as (? & ? & ? & ? & ?).
  exists e. split; [|done]. by apply (exact_Scan _ _ _ _ _ exact).
Qed.
End total.

(** Two worlds a program cannot distinguish. *)
Definition alike {E1 E2} `{!Engine E1} `{!LocalEngine E1} `{!Engine E2} `{!LocalEngine E2}
    (w1 : World E1) (w2 : World E2) : Prop :=
  healthy w1 ∧ healthy w2 ∧ records w1 = records w2 ∧ w_ticks w1 = w_ticks w2.

Lemma perform_alike {E1 E2} `{!Engine E1} `{!LocalEngine E1} `{!OrderedEngine E1}
    `{!Engine E2} `{!LocalEngine E2} `{!OrderedEngine E2} env (o : op) (w1 : World E1) (w2 : World E2) :
  env_ctx env = Background → alike w1 w2 →
  (Effects.perform env o w1).1 = (Effects.perform env o w2).1 ∧ alike (Effects.perform env o w1).2 (Effects.perform env o w2).2.
Proof.
  destruct env as [ctx now], w1 as [[[e1 c1] b1 r1 d1] n1], w2 as [[[e2 c2] b2 r2 d2] n2].
  unfold alike, healthy, records. cbn [env_ctx w_db w_ticks db_engine db_closed inner closed].
  intros -> ((-> & -> & Hl1) & (-> & -> & Hl2) & Hr & ->).
  destruct o; cbn [Effects.perform w_db w_ticks db_engine db_closed env_ctx env_now on_engine];
    unfold guarded_Get, guarded_Put, guarded_Delete, guarded_ScanPrefix, guarded_PushList,
      guarded_AddSet, guarded_RemoveSet, guarded_DeleteHashFields, guarded_ReplaceLogicalValue, on_inner, on_engine;
    cbn [closed inner db_engine w_db]; rewrite ?local_PushList, ?local_AddSet, ?local_RemoveSet,
      ?local_DeleteHashFields, ?local_ReplaceLogicalValue; try (by split_and!).
  - destruct (local_Get e1 key Hl1) as (e1' & -> & ? & ?), (local_Get e2 key Hl2) as (e2' & -> & ? & ?).
    cbn. split_and!; [by rewrite Hr|done..|congruence|done].
  - destruct (local_Put e1 key value Hl1) as (e1' & -> & ? & ?), (local_Put e2 key value Hl2) as (e2' & -> & ? & ?).
    cbn. split_and!; [done..|congruence|done].
  - destruct (local_Delete e1 key Hl1) as (e1' & -> & ? & ?), (local_Delete e2 key Hl2) as (e2' & -> & ? & ?).
    cbn. split_and!; [done..|congruence|done].
  - destruct (ordered_Scan e1 pfx Hl1) as (e1' & -> & ? & ?), (ordered_Scan e2 pfx Hl2) as (e2' & -> & ? & ?).
    cbn. split_and!; [by rewrite Hr|done..|congruence|done].
Qed.


(** ** Compaction *)

(** What a compaction at the clock reading [t] may leave of the records. *)
Definition compacted (options : DriverOptions) (t : Z) (m m' : gmap bytes bytes) : Prop :=
  ∀ k, m' !! k = m !! k ∨ ∃ v, m !! k = Some v ∧ compaction_Filter options t v = true ∧ m' !! k = None.

Section compaction.
Context {X Y : Type} (cfg : config X Y) (t t' : Z) (m m' : gmap bytes bytes).
Hypothesis compaction : compacted (driverOptions cfg) t m m'.
Hypothesis later : (unixNano t ≤ unixNano t')%Z.

(** A record that is gone was not visible any more. *)
Lemma compacted_live k : m' !! k ≫= decode_live t' = m !! k ≫= decode_live t'.
Proof using compaction later.
  destruct (compaction k) as [->|(v & Hv & Hf & ->)]; [done|]. rewrite Hv. cbn.
  unfold compaction_Filter, driverOptions in Hf. cbn in Hf. unfold envelopeExpired in Hf. unfold decode_live.
  destruct (unmarshalEnvelope v) as [e| |]; [|done..].
  unfold expired_at in *. apply bool_decide_eq_true in Hf as [H1 H2].
  rewrite bool_decide_eq_true_2; [done|]. lia.
Qed.

(** A record that is no envelope stays. *)
Lemma compacted_keeps k : (∀ v, m !! k = Some v → length v < envelopeHeaderSize ∨ take 4 v ≠ envelopeMagic) →
  m' !! k = m !! k.
Proof using compaction.
  intros Hno. destruct (compaction k) as [->|(v & Hv & Hf & _)]; [done|].
  unfold compaction_Filter, driverOptions in Hf. cbn in Hf. unfold envelopeExpired, unmarshalEnvelope in Hf.
  by rewrite bool_decide_eq_true_2 in Hf by (by apply Hno).
Qed.

(** C40: Physical expiry is invisible. A compaction that drops records by the
    expiry test of the handle, at any moment, changes nothing a reader sees
    at that moment or later: every key has the same value, of the same type,
    with the same fields, members and items. (The record of a list starts
    with its length, which is the envelope's mark only for a list of
    1263947825 items.) *)
Theorem compaction_invisible key :
  short key →
  (∀ member v, m !! namespacedKey kindSet key member = Some v → length v < envelopeHeaderSize) →
  (∀ v, m !! collectionTTLKey key = Some v → length v = 8) →
  (∀ v, m !! listKey key = Some v → take 4 v ≠ envelopeMagic) →
  view m' t' key = view m t' key.
Proof using compaction later.
  intros Hs Hset Httl Hlist.
  assert (m' !! collectionTTLKey key = m !! collectionTTLKey key) as Ht.
  { apply compacted_keeps. intros v Hv. left. rewrite (Httl v Hv). unfold envelopeHeaderSize. lia. }
  assert (m' !! listKey key = m !! listKey key) as Hl by (apply compacted_keeps; eauto).
  assert (set_of m' key = set_of m key) as Hsets.
  { apply set_eq. intros x. rewrite !elem_of_set_of. rewrite compacted_keeps; [done|]. eauto. }
  assert (hash_of m' t' key = hash_of m t' key) as Hh.
  { apply map_eq. intros f. by rewrite !lookup_hash_of, compacted_live. }
  unfold view, ttl_dead, ttl_of, string_of, collection_view, list_of, list_items.
  by rewrite Ht, Hl, Hsets, Hh, compacted_live.
Qed.
End compaction.

(** ** Registration *)

(** The [init] functions of the linked drivers: the module, then the driver. *)
Definition register_bundled {GT : GoText} {E} (drivers : list (ModuleManifest * Driver E))
    (registry : gmap bytes (registeredDriver E)) (linked : gmap bytes ModuleManifest)
    : result (gmap bytes (registeredDriver E) * gmap bytes ModuleManifest) :=
  foldl (λ r '(manifest, driver),
    '(registry, linked) ← r;
    linked ← MustRegisterLinkedModule manifest linked;
    registry ← MustRegisterDriver (Some driver) registry;
    Ok (registry, linked)) (Ok (registry, linked)) drivers.

Definition bundled_metadata : list (ModuleManifest * DriverInfo) :=
  [(boltdb_Manifest, boltdb_Info); (leveldb_Manifest, leveldb_Info); (badgerdb_Manifest, badgerdb_Info);
   (lmdb_Manifest, lmdb_Info); (rocksdb_Manifest, rocksdb_Info); (berkeleydb_Manifest, berkeleydb_Info)].

(** A bundle with all six drivers starts: no registration panics, [Drivers]
    lists them by name, and the default is RocksDB. *)
Theorem bundled_drivers_register {GT : GoText} :
  let driver (info : DriverInfo) : Driver unit := mkDriver info None (λ _ d, (inr tt, d)) in
  match register_bundled (prod_map id driver <$> bundled_metadata) ∅ ∅ with
  | Ok (registry, linked) =>
      (∃ infos, Drivers registry = Ok infos ∧ info_Driver <$> infos
        = [DriverBadgerDB; DriverBerkeleyDB; DriverBoltDB; DriverLevelDB; DriverLMDB; DriverRocksDB])
      ∧ DefaultDriver registry = Ok DriverRocksDB
  | _ => False
  end.
Proof.
  intros driver.
  assert (match register_bundled (prod_map id driver <$> bundled_metadata) ∅ ∅ with
          | Ok (registry, _) =>
              match Drivers registry with
              | Ok infos => bool_decide (info_Driver <$> infos
                  = [DriverBadgerDB; DriverBerkeleyDB; DriverBoltDB; DriverLevelDB; DriverLMDB; DriverRocksDB])
              | _ => false
              end && bool_decide (DefaultDriver registry = Ok DriverRocksDB)
          | _ => false
          end = true) as H by (by vm_compute).
  destruct (register_bundled _ _ _) as [[registry linked]| |]; [|done..].
  apply andb_true_iff in H as [H1 H2]. apply bool_decide_eq_true in H2.
  destruct (Drivers registry) as [infos| |]; [|done..]. apply bool_decide_eq_true in H1. eauto.
Qed.

(** ** Witnesses *)

Module driver_example.
(** A library that keeps its records in a map, in a given convention. *)
Section store.
Context (missing : storeError + option bytes) (absent exhausted : option storeError).

Abbreviation store := (gmap bytes bytes).

#[local] Instance map_store : OrderedStore store := {
  os_get k d := match d !! k with Some v => inr (Some v) | None => missing end;
  os_put k v d := (None, <[k := v]> d);
  os_delete k d := (match d !! k with Some _ => None | None => absent end, delete k d);
  os_seek k d := (filter (λ kv, bytes_le k kv.1) (sorted_records d), exhausted);
  os_range k d := (sorted_matches d k, exhausted);
  os_value kv := inr kv.2;
  os_max_key_size _ := 511%Z;
  os_close d := (None, d)
}.

#[local] Instance map_laws : OrderedStoreLaws store := {
  os_contents := id;
  os_live := λ _, True;
  os_accepts := λ _ _, True;
  os_fits := λ _, True;
  os_missing := missing;
  os_absent := absent;
  os_exhausted := exhausted;
  law_get d k _ _ := eq_refl;
  law_put d k v _ _ _ := ex_intro _ (<[k := v]> d) (conj eq_refl (conj I (conj eq_refl eq_refl)));
  law_delete d k _ _ := ex_intro _ (delete k d) (conj eq_refl (conj I (conj eq_refl eq_refl)));
  law_seek d k _ := eq_refl;
  law_range d k _ := eq_refl;
  law_value kv := eq_refl;
  law_keys d k _ _ := I
}.
End store.

(** The RocksDB adapter over such a library. *)
#[export] Instance rocks_store : OrderedStore (gmap bytes bytes) := map_store (inr None) None None.
Definition rocks_laws : OrderedStoreLaws (gmap bytes bytes) := map_laws (inr None) None None.
Definition rocks_exact := @rocksdb_exact _ _ rocks_laws (conj eq_refl (conj eq_refl eq_refl)).

#[export] Instance rocks_local : LocalEngine (rocksdbEngine (gmap bytes bytes)) :=
  exact_LocalEngine _ _ _ _ rocks_exact (λ _ _ _, I) (λ _, I)
    (conj eq_refl (conj eq_refl (conj eq_refl (conj eq_refl eq_refl)))).

#[export] Instance rocks_ordered : OrderedEngine (rocksdbEngine (gmap bytes bytes)).
Proof. apply exact_OrderedEngine. Qed.

Definition data : gmap bytes bytes := {[ ⟦"k"⟧ := ⟦"v"⟧ ]}.
Definition on_memory : World memoryDriverEngine := mkWorld (newDB (mkMem data false) DriverMemory) 0.
Definition on_rocksdb : World (rocksdbEngine (gmap bytes bytes)) := mkWorld (newDB (mkRocksDB data) DriverRocksDB) 0.
Definition env : Env := mkEnv Background (λ _, 5%Z).

(** A string that expired at 3, and the map after the compaction. *)
Definition expired : bytes := envelopeMagic ++ be_put 8 3 ++ be_put 2 0.
Definition config0 : config unit unit :=
  mkConfig {| codec_Name := []; codec_Marshal := λ _, Panic; codec_Unmarshal := λ _ _, Panic |} ∅
    DriverRocksDB true 0 0 0 0.
End driver_example.

Section witnesses.
Import driver_example.



Lemma compaction_invisible_witness :
  view ∅ 5 ⟦"k"⟧ = view {[ valueKey ⟦"k"⟧ := expired ]} 5 ⟦"k"⟧.
Proof.
  apply (compaction_invisible config0 4 5 {[ valueKey ⟦"k"⟧ := expired ]} ∅); [|done|done|..].
  - intros k. destruct (decide (k = valueKey ⟦"k"⟧)) as [->|Hne].
    + right. exists expired. by rewrite lookup_singleton_eq.
    + left. by rewrite lookup_singleton_ne.
  - intros member v. by rewrite lookup_singleton_ne.
  - intros v. by rewrite lookup_singleton_ne.
  - intros v. by rewrite lookup_singleton_ne.
Defined.
End witnesses.
