(* ===== verification/BerkeleyDB.v ===== *)
(** * The Berkeley DB driver ([extensions/berkeleydb])

    An adapter in C and Go over the C library. The library is a parameter,
    [BerkeleyLib]: its calls report a status and, for reads, the bytes of the
    record they point at. The adapter copies those bytes into buffers of the
    C heap, which the Go side copies again and frees. [malloc_fails] says for
    which sizes the allocation of such a buffer fails. *)

From S2P Require Import Prelude Errors Engine Effects MemDriver Envelope Keys ListCodec Text DriverName DB Collections Transport PathClean Modules Backend CMemory Drivers DriverProps.

Definition EINVAL : Z := 22.
Definition ENOMEM : Z := 12.
Definition DB_NOTFOUND : Z := -30988.
Definition maxUint32 : Z := (2 ^ 32 - 1)%Z.

Class BerkeleyLib (D : Type) := {
  db_create : D → Z;
  db_open : bytes → D → Z * D;
  db_get : bytes → D → Z * bytes;
  db_put : bytes → bytes → D → Z * D;
  db_del : bytes → D → Z * D;
  db_cursor : D → Z;
  (** the records from the first key not below the argument on, and the
      status after the last *)
  dbc_set_range : bytes → D → list (bytes * bytes) * Z;
  dbc_close : D → Z;
  db_close : D → Z * D;
  db_strerror : Z → bytes
}.

(** A cursor: the records it has still to deliver, [None] before it is
    positioned. *)
Record DBC := mkDBC { dbc_rest : option (list (bytes * bytes)); dbc_ending : Z }.

Section berkeleydb.
Context {D : Type} `{!BerkeleyLib D} (malloc_fails : Z → bool).
Abbreviation C := (CM D).

(** ** The C side

    [db = false] is a null database. *)

Definition kvlite_bdb_dbt (data : bytes) : Z + bytes :=
  if bool_decide (maxUint32 < slice_length data)%Z then inl EINVAL else inr data.

(** A copy of the record on the heap: status, pointer and length. *)
Definition kvlite_bdb_copy_dbt (source : bytes) : C (Z * (Z * Z)) :=
  if bool_decide (source = []) then mret (0, (0, 0))%Z
  else if malloc_fails (slice_length source) then mret (ENOMEM, (0, 0)%Z)
  else p ← C_malloc source; mret (0%Z, (p, slice_length source)).

Definition kvlite_bdb_copy_pair (key value : bytes) : C (Z * ((Z * Z) * (Z * Z))) :=
  '(status, k) ← kvlite_bdb_copy_dbt key;
  if bool_decide (status ≠ 0)%Z then mret (status, ((0, 0), (0, 0)))%Z
  else
    '(status, v) ← kvlite_bdb_copy_dbt value;
    if bool_decide (status ≠ 0)%Z then _ ← C_free k.1; mret (status, ((0, 0), v))%Z
    else mret (status, (k, v)).

(** The database opened at the path, [false] when that failed; a failed
    [open] still closes the handle [db_create] made. *)
Definition kvlite_bdb_open (path : bytes) : C (Z * bool) :=
  d ← get_lib;
  if bool_decide (db_create d ≠ 0)%Z then mret (db_create d, false)
  else
    let '(status, d) := db_open path d in
    if bool_decide (status ≠ 0)%Z then _ ← put_lib (db_close d).2; mret (status, false)
    else _ ← put_lib d; mret (0%Z, true).

Definition kvlite_bdb_get (db : bool) (key : bytes) : C (Z * (Z * Z)) :=
  if negb db then mret (EINVAL, (0, 0)%Z)
  else match kvlite_bdb_dbt key with
       | inl status => mret (status, (0, 0)%Z)
       | inr key =>
           d ← get_lib;
           let '(status, value) := db_get key d in
           if bool_decide (status ≠ 0)%Z then mret (status, (0, 0)%Z) else kvlite_bdb_copy_dbt value
       end.

Definition kvlite_bdb_put (db : bool) (key value : bytes) : C Z :=
  if negb db then mret EINVAL
  else match kvlite_bdb_dbt key, kvlite_bdb_dbt value with
       | inl status, _ | inr _, inl status => mret status
       | inr key, inr value =>
           d ← get_lib;
           let '(status, d) := db_put key value d in
           _ ← put_lib d; mret status
       end.

Definition kvlite_bdb_delete (db : bool) (key : bytes) : C Z :=
  if negb db then mret EINVAL
  else match kvlite_bdb_dbt key with
       | inl status => mret status
       | inr key => d ← get_lib; let '(status, d) := db_del key d in _ ← put_lib d; mret status
       end.

Definition kvlite_bdb_cursor_open (db : bool) : C (Z * option DBC) :=
  if negb db then mret (EINVAL, None)
  else d ← get_lib;
       let status := db_cursor d in
       mret (status, if bool_decide (status = 0)%Z then Some (mkDBC None 0) else None).

Definition kvlite_bdb_cursor_close (cursor : option DBC) : C Z :=
  match cursor with None => mret 0%Z | Some _ => d ← get_lib; mret (dbc_close d) end.

(** [cursor->get] with [DB_SET_RANGE] or [DB_NEXT]: the record, or a status. *)
Definition cursor_get (cursor : DBC) (seek_data : bytes) (seek : bool) : C ((Z + bytes * bytes) * DBC) :=
  d ← get_lib;
  let '(rest, ending) :=
    if seek then dbc_set_range seek_data d
    else match dbc_rest cursor with
         | Some rest => (rest, dbc_ending cursor)
         | None => dbc_set_range [] d
         end in
  mret (match rest with
        | [] => (inl ending, mkDBC (Some []) ending)
        | record :: rest => (inr record, mkDBC (Some rest) ending)
        end).

Definition kvlite_bdb_cursor_read (cursor : option DBC) (seek_data : bytes) (seek : bool)
    : C ((Z * ((Z * Z) * (Z * Z))) * option DBC) :=
  match cursor with
  | None => mret ((EINVAL, ((0, 0), (0, 0)))%Z, None)
  | Some dbc =>
      match (if seek then kvlite_bdb_dbt seek_data else inr []) with
      | inl status => mret ((status, ((0, 0), (0, 0))%Z), cursor)
      | inr seek_data =>
          '(r, dbc) ← cursor_get dbc seek_data seek;
          match r with
          | inl status => mret ((status, ((0, 0), (0, 0))%Z), Some dbc)
          | inr (key, value) => o ← kvlite_bdb_copy_pair key value; mret (o, Some dbc)
          end
      end
  end.

(** ** The Go side *)

Record berkeleyEngine := mkBerkeley { berkeley_db : bool }.

Definition bdbError (operation : bytes) (status : Z) : GoError :=
  ENew (⟦"kvlite: Berkeley DB "⟧ ++ operation ++ ⟦": "⟧ ++ db_strerror status ++ ⟦" (status "⟧
        ++ format_int status ++ ⟦")"⟧).

Definition DatabaseFilename : bytes := ⟦"KVLITE-BERKELEYDB.db"⟧.

Definition berkeley_openNative (path : bytes) : C (GoError + berkeleyEngine) :=
  cFilename ← C_CString (path_Join path DatabaseFilename);
  filename ← C_GoString cFilename;
  '(status, database) ← kvlite_bdb_open filename;
  _ ← C_free cFilename;
  mret (if bool_decide (status ≠ 0)%Z then inl (bdbError ⟦"open"⟧ status) else inr (mkBerkeley database)).

Definition takeCBytes (buffer : Z * Z) : C (GoError + bytes) :=
  let '(pointer, length) := buffer in
  if bool_decide (pointer = 0)%Z then
    mret (if bool_decide (length = 0)%Z then inr []
          else inl (ENew (⟦"kvlite: Berkeley DB returned a nil value with length "⟧ ++ format_int length)))
  else if bool_decide (maxInt64 < length)%Z then
    _ ← C_free pointer;
    mret (inl (ENew (⟦"kvlite: Berkeley DB value is too large for this process: "⟧ ++ format_int length
                     ++ ⟦" bytes"⟧)))
  else
    block ← C_block pointer;
    if bool_decide (Z.of_nat (List.length block) < length)%Z then crash
    else _ ← C_free pointer; mret (inr (take (Z.to_nat length) block)).

Definition takeCPair (key value : Z * Z) : C (GoError + bytes * bytes) :=
  k ← takeCBytes key;
  match k with
  | inl err => _ ← C_free value.1; mret (inl err)
  | inr k =>
      v ← takeCBytes value;
      mret (match v with inl err => inl err | inr v => inr (k, v) end)
  end.

Definition berkeley_Get (ctx : GoContext) (key : bytes) (e : berkeleyEngine) : C (GoError + option bytes) :=
  match ctx with
  | Some err => mret (inl err)
  | None =>
      '(status, value) ← kvlite_bdb_get (berkeley_db e) key;
      if bool_decide (status = DB_NOTFOUND) then mret (inr None)
      else if bool_decide (status ≠ 0)%Z then mret (inl (bdbError ⟦"get"⟧ status))
      else r ← takeCBytes value;
           mret (match r with inl err => inl err | inr b => inr (Some b) end)
  end.

Definition berkeley_Put (ctx : GoContext) (key value : bytes) (e : berkeleyEngine) : C (option GoError) :=
  match ctx with
  | Some err => mret (Some err)
  | None =>
      status ← kvlite_bdb_put (berkeley_db e) key value;
      mret (if bool_decide (status ≠ 0)%Z then Some (bdbError ⟦"put"⟧ status) else None)
  end.

Definition berkeley_Delete (ctx : GoContext) (key : bytes) (e : berkeleyEngine) : C (option GoError) :=
  match ctx with
  | Some err => mret (Some err)
  | None =>
      status ← kvlite_bdb_delete (berkeley_db e) key;
      mret (if bool_decide (status = 0 ∨ status = DB_NOTFOUND)%Z then None else Some (bdbError ⟦"delete"⟧ status))
  end.

(** The loop of [ScanPrefix]; [fuel] bounds the reads. *)
Fixpoint berkeley_loop (fuel : nat) (ctx : GoContext) (pfx : bytes) (cursor : option DBC) (seek : bool)
    (delivered : list (bytes * bytes)) : C (list (bytes * bytes) * option GoError) :=
  match fuel with
  | O => crash
  | Datatypes.S fuel =>
      match ctx with
      | Some err => mret (delivered, Some err)
      | None =>
          '((status, (key, value)), cursor) ← kvlite_bdb_cursor_read cursor pfx seek;
          if bool_decide (status = DB_NOTFOUND) then mret (delivered, None)
          else if bool_decide (status ≠ 0)%Z then mret (delivered, Some (bdbError ⟦"scan"⟧ status))
          else
            r ← takeCPair key value;
            match r with
            | inl err => mret (delivered, Some err)
            | inr (key, value) =>
                if negb (has_prefix pfx key) then mret (delivered, None)
                else berkeley_loop fuel ctx pfx cursor false (delivered ++ [(key, value)])
            end
      end
  end.

(** The deferred close of the cursor reports its status when nothing else
    failed. *)
Definition berkeley_ScanPrefix (fuel : nat) (ctx : GoContext) (pfx : bytes) (e : berkeleyEngine)
    : C (list (bytes * bytes) * option GoError) :=
  match ctx with
  | Some err => mret ([], Some err)
  | None =>
      '(status, cursor) ← kvlite_bdb_cursor_open (berkeley_db e);
      if bool_decide (status ≠ 0)%Z then mret ([], Some (bdbError ⟦"open cursor"⟧ status))
      else
        '(delivered, err) ← berkeley_loop fuel ctx pfx cursor true [];
        status ← kvlite_bdb_cursor_close cursor;
        mret (delivered, match err with
                         | Some err => Some err
                         | None => if bool_decide (status ≠ 0)%Z then Some (bdbError ⟦"close cursor"⟧ status) else None
                         end)
  end.

Definition berkeley_Close (e : berkeleyEngine) : C (option GoError * berkeleyEngine) :=
  status ← (if berkeley_db e then d ← get_lib; let '(status, d) := db_close d in _ ← put_lib d; mret status
            else mret 0%Z);
  mret (if bool_decide (status ≠ 0)%Z then Some (bdbError ⟦"close"⟧ status) else None, mkBerkeley false).
End berkeleydb.

(** ** Properties *)

(** What the library documents. *)
Class BerkeleyLaws (D : Type) `{!BerkeleyLib D} := {
  bdb_contents : D → gmap bytes bytes;
  bdb_live : D → Prop;
  bdb_law_get d k : bdb_live d →
    db_get k d = match bdb_contents d !! k with Some v => (0%Z, v) | None => (DB_NOTFOUND, []) end;
  bdb_law_put d k v : bdb_live d → ∃ d', db_put k v d = (0%Z, d') ∧ bdb_live d'
    ∧ bdb_contents d' = <[k := v]> (bdb_contents d);
  bdb_law_del d k : bdb_live d → ∃ d',
    db_del k d = (if bool_decide (is_Some (bdb_contents d !! k)) then 0%Z else DB_NOTFOUND, d')
    ∧ bdb_live d' ∧ bdb_contents d' = delete k (bdb_contents d);
  bdb_law_cursor d : bdb_live d → db_cursor d = 0%Z ∧ dbc_close d = 0%Z;
  bdb_law_range d k : bdb_live d →
    dbc_set_range k d = (filter (λ kv, bytes_le k kv.1) (sorted_records (bdb_contents d)), DB_NOTFOUND)
}.

(** A record the adapter can pass: its lengths fit 32 bits. *)
Definition dbt_fits (b : bytes) : Prop := (slice_length b ≤ maxUint32)%Z.

Lemma kvlite_bdb_dbt_fits b : dbt_fits b → kvlite_bdb_dbt b = inr b.
Proof. unfold dbt_fits, kvlite_bdb_dbt. intros Hb. by rewrite bool_decide_eq_false_2 by lia. Qed.

Lemma dbt_fits_int64 b : dbt_fits b → (slice_length b ≤ maxInt64)%Z.
Proof. unfold dbt_fits, maxUint32, maxInt64. lia. Qed.

(** *** Buffers on the C heap

    Whatever allocations fail: what the C side copies and the Go side takes
    leaves the heap as it was. *)
Section buffers.
Context {D : Type} `{!BerkeleyLib D} (malloc_fails : Z → bool).
Implicit Types (st : cstate D) (key value pfx : bytes).

(** A buffer that stands for [b]: null for the empty value. *)
Definition buffer (b : bytes) (p : Z) : Z * Z := if bool_decide (b = []) then (0, 0)%Z else (p, slice_length b).
Definition with_buffer (b : bytes) (p : Z) (h : gmap Z bytes) : gmap Z bytes :=
  if bool_decide (b = []) then h else <[p := b]> h.

Lemma cwp_copy_dbt b Q st :
  heap_ok st →
  (∀ p brk, let st' := mkC (with_buffer b p (c_heap st)) brk (c_lib st) in
     p ≠ 0%Z → c_heap st !! p = None → heap_ok st' → Q (0%Z, buffer b p) st') →
  (malloc_fails (slice_length b) = true → Q (ENOMEM, (0, 0)%Z) st) →
  cwp (kvlite_bdb_copy_dbt malloc_fails b) Q st.
Proof.
  intros Hok HQ Hno. unfold kvlite_bdb_copy_dbt. unfold buffer, with_buffer in HQ.
  case_bool_decide.
  - apply cwp_ret. destruct st as [h brk s]. pose proof Hok as [Hb Hh].
    apply (HQ brk brk); [cbn in Hb; lia| |done].
    destruct (h !! brk) eqn:Hx; [|done]. specialize (Hh brk ltac:(by cbn; rewrite Hx)). cbn in Hh. lia.
  - destruct (malloc_fails _); [by apply cwp_ret, Hno|].
    apply cwp_bind, cwp_malloc; [done|]. intros p brk st' Hp Hf Hok'. by apply cwp_ret, HQ.
Qed.

Lemma cwp_takeCBytes b p h brk (s : D) Q :
  p ≠ 0%Z → h !! p = None → heap_ok (mkC (with_buffer b p h) brk s) →
  (∀ r, heap_ok (mkC h brk s) → (dbt_fits b → r = inr b) → Q r (mkC h brk s)) →
  cwp (takeCBytes (buffer b p)) Q (mkC (with_buffer b p h) brk s).
Proof.
  intros Hp Hh Hok HQ. unfold takeCBytes, buffer, with_buffer in *. case_bool_decide as Hb.
  - subst b. by apply HQ.
  - rewrite bool_decide_eq_false_2 by done. case_bool_decide as Hlong.
    { apply cwp_bind, cwp_free_fresh; [done..|]. intros Hok'. apply cwp_ret, HQ; [done|].
      intros ?%dbt_fits_int64. lia. }
    apply cwp_bind. unfold cwp at 1, C_block. cbn [c_heap].
    rewrite lookup_insert_eq. rewrite bool_decide_eq_false_2 by (unfold slice_length; lia).
    apply cwp_bind, cwp_free_fresh; [done..|]. intros Hok'. apply cwp_ret. unfold slice_length.
    rewrite Nat2Z.id, firstn_all. auto.
Qed.

Lemma with_buffer_comm k v p q h :
  (k ≠ [] → v ≠ [] → p ≠ q) → with_buffer v q (with_buffer k p h) = with_buffer k p (with_buffer v q h).
Proof.
  unfold with_buffer. intros Hne. repeat case_bool_decide; try done. apply insert_insert_ne.
  intros ->. by apply Hne.
Qed.

Lemma with_buffer_fresh b p q h : with_buffer b p h !! q = None → h !! q = None ∧ (b ≠ [] → p ≠ q).
Proof. unfold with_buffer. case_bool_decide; [done|]. by intros [? ?]%lookup_insert_None. Qed.

(** Taking the two buffers of a pair. *)
Lemma cwp_takeCPair key value p q h brk (s : D) Q :
  p ≠ 0%Z → q ≠ 0%Z → h !! p = None → with_buffer key p h !! q = None →
  heap_ok (mkC (with_buffer value q (with_buffer key p h)) brk s) →
  (∀ r, heap_ok (mkC h brk s) → (dbt_fits key → dbt_fits value → r = inr (key, value)) → Q r (mkC h brk s)) →
  cwp (takeCPair (buffer key p) (buffer value q)) Q (mkC (with_buffer value q (with_buffer key p h)) brk s).
Proof.
  intros Hp Hq Hfp [Hfq Hpq]%with_buffer_fresh. rewrite with_buffer_comm by auto. intros Hok HQ.
  unfold takeCPair. apply cwp_bind.
  set (R := λ (k : GoError + bytes) (st' : cstate D), st' = mkC (with_buffer value q h) brk s ∧ heap_ok st'
    ∧ (dbt_fits key → k = inr key)).
  enough (cwp (takeCBytes (buffer key p)) R (mkC (with_buffer key p (with_buffer value q h)) brk s)) as Hkey.
  { eapply cwp_mono; [exact Hkey|]. intros k st' (-> & Hok' & Hk). destruct k as [err|k].
    - apply cwp_bind. unfold buffer, with_buffer in *. case_bool_decide.
      + apply cwp_free_null, cwp_ret, HQ; [done|]. intros Hf. by specialize (Hk Hf).
      + cbn [fst]. apply cwp_free_fresh; [done..|]. intros Hok''. apply cwp_ret, HQ; [done|].
        intros Hf. by specialize (Hk Hf).
    - apply cwp_bind, cwp_takeCBytes; [done..|]. intros r Hok'' Hv. apply cwp_ret, HQ; [done|].
      intros Hfk Hfv. rewrite (Hv Hfv). by specialize (Hk Hfk) as [= ->]. }
  destruct (decide (key = [])) as [->|Hne]; [by split_and!|].
  apply cwp_takeCBytes; [done| |done|by intros r Hok' Hr; split_and!].
  unfold with_buffer. case_bool_decide; [done|]. rewrite lookup_insert_ne; [done|]. intros ->. by apply Hpq.
Qed.

(** A pair copied to the heap and taken again. *)
Lemma cwp_copy_take_pair key value Q st :
  heap_ok st →
  (∀ brk r, heap_ok (mkC (c_heap st) brk (c_lib st)) → (dbt_fits key → dbt_fits value → r = inr (key, value)) →
     Q r (mkC (c_heap st) brk (c_lib st))) →
  cwp (kvlite_bdb_copy_pair malloc_fails key value)
    (λ o st', (o.1 = 0%Z ∧ cwp (takeCPair o.2.1 o.2.2) Q st')
       ∨ (o.1 = ENOMEM ∧ (∃ n, malloc_fails n = true) ∧ heap_ok st' ∧ c_heap st' = c_heap st ∧ c_lib st' = c_lib st)) st.
Proof.
  intros Hok HQ. unfold kvlite_bdb_copy_pair. apply cwp_bind, cwp_copy_dbt; [done| |].
  - intros p brk st1 Hp Hf Hok1. rewrite bool_decide_eq_false_2 by (intros H; by apply H).
    apply cwp_bind, cwp_copy_dbt; [done| |].
    + intros q brk' st2 Hq Hf2 Hok2. rewrite bool_decide_eq_false_2 by (intros H; by apply H).
      apply cwp_ret. left. split; [done|]. apply cwp_takeCPair; [done..|]. eauto.
    + intros Hno. rewrite bool_decide_eq_true_2 by done. unfold st1, buffer, with_buffer in *. apply cwp_bind.
      case_bool_decide.
      * apply cwp_free_null, cwp_ret. right. eauto 10.
      * apply cwp_free_fresh; [done..|]. intros Hok'. apply cwp_ret. right. eauto 10.
  - intros Hno. rewrite bool_decide_eq_true_2 by done. apply cwp_ret. right. eauto 10.
Qed.
End buffers.

(** *** Reads and scans, whatever happens *)
Section reads.
Context {D : Type} `{!BerkeleyLib D} (malloc_fails : Z → bool).
Implicit Types (st : cstate D) (key value pfx : bytes).

Abbreviation enough_memory := (∀ n, malloc_fails n = false).

(** What a read leaves: the heap and the database are as they were. *)
Definition settled st st' : Prop := c_heap st' = c_heap st ∧ heap_ok st' ∧ c_lib st' = c_lib st.

Lemma berkeley_Get_settled ctx key e st :
  heap_ok st →
  cwp (berkeley_Get malloc_fails ctx key e)
    (λ r st', settled st st' ∧
       (enough_memory → ctx = Background → berkeley_db e = true → dbt_fits key →
        ∀ found, (∀ v, found = Some v → dbt_fits v) →
        db_get key (c_lib st) = match found with Some v => (0%Z, v) | None => (DB_NOTFOUND, []) end →
        r = inr found)) st.
Proof.
  intros Hok. unfold berkeley_Get, kvlite_bdb_get. destruct ctx as [err|]; [by apply cwp_ret|].
  apply cwp_bind. destruct (berkeley_db e); cbn [negb]; [|by apply cwp_ret, cwp_ret].
  destruct (kvlite_bdb_dbt key) as [status|key'] eqn:Hdbt.
  { apply cwp_ret. assert (status = EINVAL) as -> by (unfold kvlite_bdb_dbt in Hdbt; by case_bool_decide; simplify_eq).
    apply cwp_ret. split; [done|]. intros _ _ _ Hfit. by rewrite kvlite_bdb_dbt_fits in Hdbt. }
  assert (key' = key) as -> by (unfold kvlite_bdb_dbt in Hdbt; by case_bool_decide; simplify_eq).
  apply cwp_bind, cwp_get_lib. destruct (db_get key (c_lib st)) as [status value] eqn:Hget. case_bool_decide.
  - apply cwp_ret. repeat case_bool_decide; try done; apply cwp_ret; (split; [done|]);
      intros _ _ _ _ [v|] _ [= ? ?]; by subst.
  - apply cwp_copy_dbt; [done| |].
    + intros p brk st' Hp Hf Hok'. rewrite !bool_decide_eq_false_2 by (done || intros H'; by apply H').
      apply cwp_bind, cwp_takeCBytes; [done..|]. intros r Hok'' Hr. apply cwp_ret. split; [done|].
      intros _ _ _ _ [v|] Hv [= ? ?]; subst; [|done]. by rewrite Hr by (by apply Hv).
    + intros Hno. apply cwp_ret. split; [done|]. intros Hm. by rewrite Hm in Hno.
Qed.

(** The records a cursor still has to deliver. *)
Definition cursor_records (pfx : bytes) (cursor : DBC) (seek : bool) (d : D) : list (bytes * bytes) * Z :=
  if seek then dbc_set_range pfx d
  else match dbc_rest cursor with Some rest => (rest, dbc_ending cursor) | None => dbc_set_range [] d end.

Definition all_pairs_fit (l : list (bytes * bytes)) : Prop := ∀ k v, (k, v) ∈ l → dbt_fits k ∧ dbt_fits v.

Lemma berkeley_loop_settled pfx rest ending fuel ctx cursor seek delivered st :
  heap_ok st → length rest < fuel → ending ≠ 0%Z →
  cursor_records pfx cursor seek (c_lib st) = (rest, ending) →
  cwp (berkeley_loop malloc_fails fuel ctx pfx (Some cursor) seek delivered)
    (λ r st', settled st st' ∧
       (enough_memory → ctx = Background → dbt_fits pfx → all_pairs_fit rest → ending = DB_NOTFOUND →
        r = (delivered ++ while_prefix pfx rest, None))) st.
Proof.
  revert fuel cursor seek delivered st.
  induction rest as [|[k v] rest IH]; intros [|fuel] cursor seek delivered st Hok Hfuel Hend Hrec;
    cbn [length] in Hfuel; try lia; cbn [berkeley_loop]; (destruct ctx as [err|]; [by apply cwp_ret|]);
    unfold kvlite_bdb_cursor_read, cursor_get; apply cwp_bind;
    (destruct (if seek then kvlite_bdb_dbt pfx else inr []) as [status|seek_data] eqn:Hseek;
     [apply cwp_ret; assert (status = EINVAL ∧ ¬ dbt_fits pfx) as [-> Hno];
       [destruct seek; [|done]; unfold kvlite_bdb_dbt, dbt_fits in *; case_bool_decide; simplify_eq; split; [done|lia]
       |by apply cwp_ret]|]);
    apply cwp_bind, cwp_bind, cwp_get_lib;
    replace (if seek then dbc_set_range seek_data (c_lib st) else _)
      with (cursor_records pfx cursor seek (c_lib st))
      by (destruct seek; [unfold kvlite_bdb_dbt in Hseek; case_bool_decide; by simplify_eq|done]);
    rewrite Hrec; apply cwp_ret.
  - apply cwp_ret. case_bool_decide; [apply cwp_ret; by rewrite app_nil_r|].
    rewrite bool_decide_eq_true_2 by done. by apply cwp_ret.
  - apply cwp_bind. eapply cwp_mono.
    { apply (cwp_copy_take_pair malloc_fails k v (λ r st', settled st st' ∧
        (dbt_fits k → dbt_fits v → r = inr (k, v)))); [done|]. by intros brk r Hok' Hr. }
    cbv beta. intros [status [kb vb]] st1 [[Hs Htake]|(Hs & Hno & Hok' & Hh & Hl)]; cbn [fst snd] in *; subst status;
      apply cwp_ret.
    + rewrite !bool_decide_eq_false_2 by (done || intros H; by apply H).
      apply cwp_bind. eapply cwp_mono; [exact Htake|]. cbv beta. intros r st2 ((Hh & Hok' & Hl) & Hr).
      destruct r as [err|[k' v']].
      { apply cwp_ret. split; [done|]. intros _ _ _ Hfit _. destruct (Hfit k v) as [Hk Hv]; [left|].
        by specialize (Hr Hk Hv). }
      assert (all_pairs_fit ((k, v) :: rest) → k' = k ∧ v' = v ∧ all_pairs_fit rest) as Hpair.
      { intros Hfit. destruct (Hfit k v) as [Hk Hv]; [left|]. specialize (Hr Hk Hv) as [= -> ->].
        split_and!; [done..|]. intros k0 v0 Hin. apply Hfit. by right. }
      destruct (has_prefix pfx k') eqn:Hpfx; cbn [negb].
      * eapply cwp_mono; [apply (IH fuel (mkDBC (Some rest) ending) false); [done|lia|done|done]|].
        intros r' st' ((Hh' & Hok'' & Hl') & Hr'). split; [split_and!; [by rewrite Hh'|done|by rewrite Hl']|].
        intros Hm Hc Hp Hfit He. destruct (Hpair Hfit) as (-> & -> & Hfit'). rewrite Hr' by done.
        cbn [while_prefix fst]. by rewrite Hpfx, <-app_assoc.
      * apply cwp_ret. split; [done|]. intros Hm Hc Hp Hfit He. destruct (Hpair Hfit) as (-> & -> & _).
        cbn [while_prefix fst]. by rewrite Hpfx, app_nil_r.
    + apply cwp_ret. split; [done|]. intros Hm. destruct Hno as [n Hn]. by rewrite Hm in Hn.
Qed.
End reads.

(** *** Over a library that behaves as documented *)
Section exact.
Context {D : Type} `{!BerkeleyLib D} `{!BerkeleyLaws D} (malloc_fails : Z → bool).
Implicit Types (st : cstate D) (e : berkeleyEngine) (m : gmap bytes bytes) (key value pfx : bytes).

Definition bdb_serving e m st : Prop :=
  berkeley_db e = true ∧ heap_ok st ∧ bdb_live (c_lib st) ∧ bdb_contents (c_lib st) = m.

Definition bdb_leaves e m st st' : Prop := c_heap st' = c_heap st ∧ bdb_serving e m st'.

(** Every record of the database fits the 32-bit lengths of the library. *)
Definition all_fit (m : gmap bytes bytes) : Prop := ∀ k v, m !! k = Some v → dbt_fits k ∧ dbt_fits v.

Lemma settled_leaves e m st st' : bdb_serving e m st → settled st st' → bdb_leaves e m st st'.
Proof. intros (? & ? & ? & ?) (? & ? & Hl). split; [done|]. unfold bdb_serving. by rewrite Hl. Qed.

Lemma berkeley_Put_serving key value m e st :
  bdb_serving e m st → dbt_fits key → dbt_fits value →
  cwp (berkeley_Put Background key value e) (λ r st', r = None ∧ bdb_leaves e (<[key := value]> m) st st') st.
Proof.
  intros (Hdb & Hok & Hl & Hm) Hk Hv. unfold berkeley_Put, kvlite_bdb_put. cbn. rewrite Hdb. cbn [negb].
  rewrite !kvlite_bdb_dbt_fits by done. apply cwp_bind, cwp_bind, cwp_get_lib.
  destruct (bdb_law_put (c_lib st) key value Hl) as (d' & -> & Hl' & Hc).
  apply cwp_bind, cwp_put_lib, cwp_ret, cwp_ret. split; [done|]. by split_and!; [..|rewrite <-Hm].
Qed.

Lemma berkeley_Delete_serving key m e st :
  bdb_serving e m st → dbt_fits key →
  cwp (berkeley_Delete Background key e) (λ r st', r = None ∧ bdb_leaves e (delete key m) st st') st.
Proof.
  intros (Hdb & Hok & Hl & Hm) Hk. unfold berkeley_Delete, kvlite_bdb_delete. cbn. rewrite Hdb. cbn [negb].
  rewrite !kvlite_bdb_dbt_fits by done. apply cwp_bind, cwp_bind, cwp_get_lib.
  destruct (bdb_law_del (c_lib st) key Hl) as (d' & -> & Hl' & Hc).
  apply cwp_bind, cwp_put_lib, cwp_ret, cwp_ret. split.
  - rewrite bool_decide_eq_true_2; [done|]. case_bool_decide; auto.
  - by split_and!; [..|rewrite <-Hm].
Qed.

(** A scan over a library as documented: it always leaves the state settled,
    and with enough memory it delivers the records of the prefix. *)
Lemma berkeley_ScanPrefix_serving fuel pfx m e st :
  bdb_serving e m st → size m < fuel →
  cwp (berkeley_ScanPrefix malloc_fails fuel Background pfx e)
    (λ r st', settled st st' ∧
       ((∀ n, malloc_fails n = false) → dbt_fits pfx → all_fit m → r = (sorted_matches m pfx, None))) st.
Proof.
  intros (Hdb & Hok & Hl & Hm) Hfuel. destruct (bdb_law_cursor (c_lib st) Hl) as [Hcur Hcl].
  unfold berkeley_ScanPrefix, kvlite_bdb_cursor_open. cbn. rewrite Hdb. cbn [negb].
  apply cwp_bind, cwp_bind, cwp_get_lib. rewrite Hcur, bool_decide_eq_true_2 by done. apply cwp_ret.
  rewrite bool_decide_eq_false_2 by (intros H'; by apply H'). apply cwp_bind.
  set (rest := filter (λ kv, bytes_le pfx kv.1) (sorted_records m)).
  eapply cwp_mono; [apply (berkeley_loop_settled malloc_fails pfx rest DB_NOTFOUND); [done| |done|]|].
  - eapply Nat.le_lt_trans; [apply length_filter|]. unfold sorted_records.
    by rewrite length_fmap, sort_strings_perm, length_fmap, length_map_to_list.
  - cbn. by rewrite bdb_law_range, Hm by done.
  - cbv beta. intros [delivered err] st' ((Hh & Hok' & Hlib) & Hr). apply cwp_bind. unfold kvlite_bdb_cursor_close.
    apply cwp_bind, cwp_get_lib. rewrite Hlib, Hcl. apply cwp_ret, cwp_ret.
    rewrite bool_decide_eq_false_2 by (intros H'; by apply H'). split; [done|]. intros Hmem Hp Hfit.
    assert (all_pairs_fit rest) as Hrest.
    { intros k v [_ Hin]%list_elem_of_filter. apply Hfit.
      by rewrite sorted_records_perm, elem_of_map_to_list in Hin. }
    specialize (Hr Hmem eq_refl Hp Hrest eq_refl) as [= -> ->]. cbn [app]. unfold rest. by rewrite seek_sorted_matches.
Qed.


End exact.

(** ** Witnesses *)

Module berkeley_example.
(** A library that keeps its records in a map. *)
#[export] Instance map_lib : BerkeleyLib (gmap bytes bytes) := {
  db_create _ := 0%Z;
  db_open _ d := (0%Z, d);
  db_get k d := match d !! k with Some v => (0%Z, v) | None => (DB_NOTFOUND, []) end;
  db_put k v d := (0%Z, <[k := v]> d);
  db_del k d := (if bool_decide (is_Some (d !! k)) then 0%Z else DB_NOTFOUND, delete k d);
  db_cursor _ := 0%Z;
  dbc_set_range k d := (filter (λ kv, bytes_le k kv.1) (sorted_records d), DB_NOTFOUND);
  dbc_close _ := 0%Z;
  db_close d := (0%Z, d);
  db_strerror _ := []
}.

#[export] Instance map_laws : BerkeleyLaws (gmap bytes bytes) := {
  bdb_contents := id;
  bdb_live _ := True;
  bdb_law_get d k _ := eq_refl;
  bdb_law_put d k v _ := ex_intro _ (<[k := v]> d) (conj eq_refl (conj I eq_refl));
  bdb_law_del d k _ := ex_intro _ (delete k d) (conj eq_refl (conj I eq_refl));
  bdb_law_cursor d _ := conj eq_refl eq_refl;
  bdb_law_range d k _ := eq_refl
}.

Definition records : gmap bytes bytes := {[ ⟦"k"⟧ := ⟦"vv"⟧ ]}.
Definition state : cstate (gmap bytes bytes) := mkC ∅ 1 records.

Lemma state_serving : bdb_serving (mkBerkeley true) records state.
Proof. split_and!; [done| |done|done]. split; [done|]. by intros p [? ?]. Qed.

Lemma records_fit : all_fit records.
Proof. unfold records. intros k v [<- <-]%lookup_singleton_Some. split; by vm_compute. Qed.
End berkeley_example.

Section witnesses.
Import berkeley_example.


End witnesses.
