(* ===== verification/Linking.v ===== *)
(** * Linked packages ([init] of the extensions, build tags of the programs)

    A Go program runs the [init] function of each package it imports before
    [main]. The core registers the memory driver; build tags decide which
    extensions follow, and the order is the one of their import paths. *)

From S2P Require Import Prelude Errors Engine Effects MemDriver Envelope Text DriverName DB PathClean Modules Backend Http RedisServer RedisLifecycle Drivers BerkeleyDB.

Section linking.
Context {GT : GoText} {E : Type}.

(** The two process-wide registries: drivers and linked modules. *)
Notation registries := (gmap bytes (registeredDriver E) * gmap bytes ModuleManifest)%type.
Notation opener := (DriverOptions → directory → (GoError + E) * directory).
Implicit Types (rs : registries) (open : opener).

(** ** The [init] functions *)

(** [MustRegisterLinkedModule(Manifest()); MustRegisterDriver(driver{})]. *)
Definition driver_init (manifest : ModuleManifest) (driver : Driver E) rs : result registries :=
  linked ← MustRegisterLinkedModule manifest rs.2;
  registry ← MustRegisterDriver (Some driver) rs.1;
  Ok (registry, linked).

(** The driver of each package: its metadata, what [Available] reports, and
    its [Open]. BoltDB, LevelDB and BadgerDB are Go code and always
    available; the others report [nativeAvailable] of the build. *)
Definition boltdb_driver open : Driver E := mkDriver boltdb_Info None open.
Definition leveldb_driver open : Driver E := mkDriver leveldb_Info None open.
Definition badgerdb_driver open : Driver E := mkDriver badgerdb_Info None open.

Definition lmdb_nativeAvailable (cgo : bool) : option GoError :=
  if cgo then None else Some lmdb_unavailable.
Definition rocksdb_nativeAvailable (tag : bool) : option GoError :=
  if tag then None else Some ErrRocksDBNotBuilt.
Definition berkeleydb_nativeAvailable (tag : bool) : option GoError :=
  if tag then None else Some ErrBerkeleyDBNotBuilt.

Definition lmdb_driver (cgo : bool) open : Driver E :=
  mkDriver lmdb_Info (lmdb_nativeAvailable cgo) open.
Definition rocksdb_driver (tag : bool) open : Driver E :=
  mkDriver rocksdb_Info (rocksdb_nativeAvailable tag) open.
Definition berkeleydb_driver (tag : bool) open : Driver E :=
  mkDriver berkeleydb_Info (berkeleydb_nativeAvailable tag) open.

Definition boltdb_init open := driver_init boltdb_Manifest (boltdb_driver open).
Definition leveldb_init open := driver_init leveldb_Manifest (leveldb_driver open).
Definition badgerdb_init open := driver_init badgerdb_Manifest (badgerdb_driver open).
Definition lmdb_init cgo open := driver_init lmdb_Manifest (lmdb_driver cgo open).
Definition rocksdb_init tag open := driver_init rocksdb_Manifest (rocksdb_driver tag open).
Definition berkeleydb_init tag open := driver_init berkeleydb_Manifest (berkeleydb_driver tag open).

Definition http_init (linked : gmap bytes ModuleManifest) : result (gmap bytes ModuleManifest) :=
  MustRegisterLinkedModule Manifest linked.

(** ** Programs *)

(** An imported package, with the build of its native part. *)
Inductive package :=
  | PkgBoltDB | PkgLevelDB | PkgBadgerDB
  | PkgLMDB (cgo : bool) | PkgRocksDB (tag : bool) | PkgBerkeleyDB (tag : bool)
  | PkgHTTP | PkgRedis.

Variable opens : package → opener.

Definition package_init (p : package) rs : result registries :=
  match p with
  | PkgBoltDB => boltdb_init (opens p) rs
  | PkgLevelDB => leveldb_init (opens p) rs
  | PkgBadgerDB => badgerdb_init (opens p) rs
  | PkgLMDB cgo => lmdb_init cgo (opens p) rs
  | PkgRocksDB tag => rocksdb_init tag (opens p) rs
  | PkgBerkeleyDB tag => berkeleydb_init tag (opens p) rs
  | PkgHTTP => linked ← http_init rs.2; Ok (rs.1, linked)
  | PkgRedis => linked ← redis_init rs.2; Ok (rs.1, linked)
  end.

Fixpoint init_all (packages : list package) rs : result registries :=
  match packages with
  | [] => Ok rs
  | p :: packages => rs ← package_init p rs; init_all packages rs
  end.

(** ** What linking amounts to *)

Definition package_manifest (p : package) : ModuleManifest :=
  match p with
  | PkgBoltDB => boltdb_Manifest
  | PkgLevelDB => leveldb_Manifest
  | PkgBadgerDB => badgerdb_Manifest
  | PkgLMDB _ => lmdb_Manifest
  | PkgRocksDB _ => rocksdb_Manifest
  | PkgBerkeleyDB _ => berkeleydb_Manifest
  | PkgHTTP => Manifest
  | PkgRedis => redis_Manifest
  end.

Definition package_name (p : package) : bytes := man_Name (package_manifest p).

Definition package_driver (p : package) : option (Driver E) :=
  match p with
  | PkgBoltDB => Some (boltdb_driver (opens p))
  | PkgLevelDB => Some (leveldb_driver (opens p))
  | PkgBadgerDB => Some (badgerdb_driver (opens p))
  | PkgLMDB cgo => Some (lmdb_driver cgo (opens p))
  | PkgRocksDB tag => Some (rocksdb_driver tag (opens p))
  | PkgBerkeleyDB tag => Some (berkeleydb_driver tag (opens p))
  | PkgHTTP | PkgRedis => None
  end.

(** The entry a package adds to the driver registry. *)
Definition package_entry (p : package) : option (registeredDriver E) :=
  (λ d, mkRegistered (Some d) (set_names (drv_Info d) (package_name p))) <$> package_driver p.

Definition link (p : package) rs : registries :=
  (match package_entry p with Some e => <[package_name p := e]> rs.1 | None => rs.1 end,
   <[package_name p := package_manifest p]> rs.2).

(** The name of a package is not taken in either registry. *)
Definition unlinked (p : package) rs : Prop :=
  rs.1 !! package_name p = None ∧ rs.2 !! package_name p = None.

Lemma register_driver_fresh (driver : Driver E) registry canonical :
  normalizeDriverName (info_Driver (drv_Info driver)) = Ok canonical →
  info_Driver (drv_Info driver) ≠ [] →
  bool_decide (strings_TrimSpace (info_Implementation (drv_Info driver)) = [])
  || bool_decide (strings_TrimSpace (info_Format (drv_Info driver)) = [])
  || bool_decide (strings_TrimSpace (info_Version (drv_Info driver)) = []) = false →
  registry !! canonical = None →
  MustRegisterDriver (Some driver) registry
  = Ok (<[canonical := mkRegistered (Some driver) (set_names (drv_Info driver) canonical)]> registry).
Proof.
  intros Hn Hne Hmeta Hl. unfold MustRegisterDriver, RegisterDriver. cbv zeta.
  rewrite (bool_decide_eq_false_2 (info_Driver _ = [])) by done. rewrite Hn.
  cbn [mbind result_bind]. rewrite Hmeta. cbn [refuse mbind result_bind].
  by rewrite bool_decide_eq_false_2 by (by rewrite <-eq_None_not_Some).
Qed.

Lemma register_module_fresh manifest linked :
  canonicalModuleKind (man_Kind manifest) = man_Kind manifest → Validate manifest = Ok tt →
  linked !! man_Name manifest = None →
  MustRegisterLinkedModule manifest linked = Ok (<[man_Name manifest := manifest]> linked).
Proof.
  intros Hk Hv Hl. unfold MustRegisterLinkedModule, RegisterLinkedModule. cbv zeta. rewrite Hk.
  replace (set_kind manifest (man_Kind manifest)) with manifest by by destruct manifest.
  rewrite Hv. cbn [mbind result_bind].
  by rewrite bool_decide_eq_false_2 by (by rewrite <-eq_None_not_Some).
Qed.

Lemma package_init_eq p rs :
  package_init p rs
  = (linked ← MustRegisterLinkedModule (package_manifest p) rs.2;
     match package_driver p with
     | Some d => registry ← MustRegisterDriver (Some d) rs.1; Ok (registry, linked)
     | None => Ok (rs.1, linked)
     end).
Proof. by destruct p. Qed.

Lemma package_init_links p rs : unlinked p rs → package_init p rs = Ok (link p rs).
Proof.
  intros [Hr Hl]. rewrite package_init_eq. unfold link, package_entry.
  rewrite register_module_fresh; [|by destruct p|by destruct p|exact Hl].
  cbn [mbind result_bind]. destruct (package_driver p) as [d|] eqn:Hd; [|done].
  by rewrite (register_driver_fresh _ _ (package_name p));
    [|by destruct p; simplify_eq/=..|exact Hr].
Qed.

Lemma package_init_taken p rs :
  is_Some (rs.2 !! package_name p) → package_init p rs = Panic.
Proof.
  intros Hl. rewrite package_init_eq. unfold MustRegisterLinkedModule, RegisterLinkedModule.
  cbv zeta. replace (set_kind _ _) with (package_manifest p) by by destruct p.
  replace (Validate _) with (Ok tt) by by destruct p.
  cbn [mbind result_bind]. by rewrite bool_decide_eq_true_2.
Qed.

(** Packages of different names write different entries. *)
Lemma link_unlinked p q rs :
  package_name p ≠ package_name q → unlinked q rs → unlinked q (link p rs).
Proof.
  intros Hne [Hr Hl]. unfold unlinked, link. cbn [fst snd]. split.
  - destruct (package_entry p); [|done]. by rewrite lookup_insert_ne.
  - by rewrite lookup_insert_ne.
Qed.

Lemma link_comm p q rs :
  package_name p ≠ package_name q → link p (link q rs) = link q (link p rs).
Proof.
  intros Hne. unfold link. cbn [fst snd]. f_equal.
  - destruct (package_entry p), (package_entry q); try done. by apply insert_insert_ne.
  - by apply insert_insert_ne.
Qed.

(** The packages of one program: no two of one name. *)
Definition importable (packages : list package) rs : Prop :=
  NoDup (package_name <$> packages) ∧ Forall (λ p, unlinked p rs) packages.

#[global] Instance importable_dec packages rs : Decision (importable packages rs).
Proof. unfold importable, unlinked. apply _. Defined.

Lemma importable_cons p packages rs :
  importable (p :: packages) rs → unlinked p rs ∧ importable packages (link p rs).
Proof.
  intros [Hnd Hall]. rewrite fmap_cons, NoDup_cons in Hnd. destruct Hnd as [Hnot Hnd].
  apply Forall_cons in Hall as [Hp Hall]. split; [done|]. split; [done|].
  apply Forall_forall. intros q Hq. rewrite Forall_forall in Hall.
  apply link_unlinked; [|by apply Hall].
  intros Heq. apply Hnot. rewrite Heq. by apply list_elem_of_fmap_2.
Qed.

Lemma init_all_links packages rs :
  importable packages rs → init_all packages rs = Ok (foldl (λ rs p, link p rs) rs packages).
Proof.
  revert rs. induction packages as [|p packages IH]; intros rs Himp; [done|].
  apply importable_cons in Himp as [Hp Himp]. cbn [init_all foldl].
  rewrite package_init_links by done. cbn [mbind result_bind]. by apply IH.
Qed.

Lemma foldl_link_perm packages packages' rs :
  packages ≡ₚ packages' → NoDup (package_name <$> packages) →
  foldl (λ rs p, link p rs) rs packages = foldl (λ rs p, link p rs) rs packages'.
Proof.
  intros Hp. revert rs. induction Hp as [|p l l' _ IH|p q l|l l' l'' Hl IH _ IH'];
    intros rs Hnd; cbn [foldl].
  - done.
  - rewrite fmap_cons, NoDup_cons in Hnd. apply IH, Hnd.
  - f_equal. apply link_comm. rewrite !fmap_cons, NoDup_cons in Hnd.
    intros Heq. apply (proj1 Hnd). rewrite Heq. constructor.
  - rewrite IH by done. apply IH'. by rewrite <-Hl.
Qed.

Lemma lookup_foldl_link packages rs p :
  NoDup (package_name <$> packages) → p ∈ packages →
  (foldl (λ rs p, link p rs) rs packages).2 !! package_name p = Some (package_manifest p)
  ∧ (is_Some (package_driver p) →
     (foldl (λ rs p, link p rs) rs packages).1 !! package_name p = package_entry p).
Proof.
  intros Hnd Hp. apply elem_of_Permutation in Hp as [rest Hrest].
  rewrite (foldl_link_perm packages (rest ++ [p])); [|by rewrite Hrest, Permutation_cons_append|done].
  rewrite foldl_app. cbn [foldl]. unfold link, package_entry. cbn [fst snd]. split.
  - by rewrite lookup_insert_eq.
  - intros [d ->]. cbn [fmap option_fmap option_map]. by rewrite lookup_insert_eq.
Qed.

Lemma lookup_foldl_other packages rs name :
  name ∉ package_name <$> packages →
  (foldl (λ rs p, link p rs) rs packages).1 !! name = rs.1 !! name
  ∧ (foldl (λ rs p, link p rs) rs packages).2 !! name = rs.2 !! name.
Proof.
  revert rs. induction packages as [|p packages IH]; intros rs Hn; cbn [foldl]; [done|].
  rewrite fmap_cons, not_elem_of_cons in Hn. destruct Hn as [Hne Hn].
  destruct (IH (link p rs) Hn) as [-> ->]. unfold link. cbn [fst snd].
  split; [destruct (package_entry p); [|done]|]; by rewrite lookup_insert_ne.
Qed.

(** A program starts, whatever extensions its build tags select: the [init]
    functions run without a panic in any order, with the same registries at
    the end. Each package is then a linked module, each driver among them is
    found under its name with the metadata and the availability of its build,
    and no other entry has changed. *)
Theorem linked_programs_start packages packages' rs :
  importable packages rs → packages ≡ₚ packages' →
  ∃ rs', init_all packages' rs = Ok rs'
    ∧ init_all packages rs = Ok rs'
    ∧ (∀ p, p ∈ packages → LinkedModule (package_name p) rs'.2 = Ok (linked_module (package_manifest p)))
    ∧ (∀ p d, p ∈ packages → package_driver p = Some d →
         DriverInfoFor rs'.1 (package_name p)
         = Ok (set_available (set_names (drv_Info d) (package_name p)) (bool_decide (drv_Available d = None))))
    ∧ ∀ name, name ∉ package_name <$> packages → rs'.1 !! name = rs.1 !! name ∧ rs'.2 !! name = rs.2 !! name.
Proof.
  intros Himp Hperm. destruct (Himp) as [Hnd Hall].
  assert (importable packages' rs) as Himp' by (split; by rewrite <-Hperm).
  exists (foldl (λ rs p, link p rs) rs packages). split_and!.
  - by rewrite init_all_links, (foldl_link_perm packages packages').
  - by apply init_all_links.
  - intros p Hp. destruct (lookup_foldl_link packages rs p Hnd Hp) as [Hl _].
    unfold LinkedModule. replace (normalizeModuleName _) with (Ok (package_name p)) by by destruct p.
    cbn [mbind result_bind]. by rewrite Hl.
  - intros p d Hp Hd. destruct (lookup_foldl_link packages rs p Hnd Hp) as [_ He].
    unfold DriverInfoFor, registeredDriverFor.
    replace (normalizeDriverName _) with (Ok (package_name p)) by by destruct p.
    cbn [mbind result_bind]. rewrite He by by eexists. unfold package_entry. by rewrite Hd.
  - intros name. apply lookup_foldl_other.
Qed.
End linking.

(** Every extension in one program, after the core: the native drivers are
    built in two of three cases. *)
Module linking_example.
Definition opens (p : package) (_ : DriverOptions) (d : directory) : (GoError + memoryDriverEngine) * directory :=
  (inr memoryDriver_Open, d).

Definition core : gmap bytes (registeredDriver memoryDriverEngine) * gmap bytes ModuleManifest :=
  match memory_init (GT := ascii_GoText) ∅ ∅ with Ok rs => rs | _ => (∅, ∅) end.

Definition packages : list package :=
  [PkgBadgerDB; PkgBerkeleyDB false; PkgBoltDB; PkgHTTP; PkgLevelDB; PkgLMDB true; PkgRedis; PkgRocksDB true].
End linking_example.

Lemma linked_programs_start_witness :
  is_Some (linking_example.core.2 !! DriverMemory)
  ∧ ∃ rs', init_all (GT := ascii_GoText) linking_example.opens linking_example.packages linking_example.core = Ok rs'
    ∧ (∀ name, name ∉ package_name <$> linking_example.packages →
         rs'.1 !! name = linking_example.core.1 !! name
         ∧ rs'.2 !! name = linking_example.core.2 !! name).
Proof.
  split; [by apply (bool_decide_unpack _); vm_compute|].
  destruct (linked_programs_start (GT := ascii_GoText) linking_example.opens
    linking_example.packages linking_example.packages linking_example.core) as (rs' & Hi & _ & _ & _ & Hother);
    [by apply (bool_decide_unpack _); vm_compute|done|].
  by exists rs'.
Defined.
