(* ===== verification/Flags.v ===== *)
(** * Command lines

    The functions of Go's [flag], [strconv] and [net] packages the programs
    use, and the repeatable flag [--driver-path] of [cmd/kvlite/main.go]. *)

From Stdlib Require Import Decimal DecimalN DecimalFacts.
From S2P Require Import Prelude Errors Engine Effects Text PathClean.

Definition DashByte : Byte.byte := "-".
Definition EqualByte : Byte.byte := "=".
Definition ColonByte : Byte.byte := ":".

(** [strings.Cut(s, sep)] for a one-byte separator. *)
Fixpoint cut (sep : Byte.byte) (s : bytes) : option (bytes * bytes) :=
  match s with
  | [] => None
  | c :: s =>
      if bool_decide (c = sep) then Some ([], s)
      else prod_map (cons c) id <$> cut sep s
  end.

(** ** [flag.FlagSet.Parse] with [ContinueOnError]

    The flags of a program are a partial function from names to setters of
    its options; none of them is boolean. The result is the options and the
    remaining arguments, or the error the program reports. *)
Section flags.
Context {S : Type} (flags : bytes → option (bytes → S → GoError + S)).

(** The name of a flag and its value, when the argument carries one. The
    first byte of a name is never taken for the separator. *)
Definition split_flag (name : bytes) : bytes * option bytes :=
  match name with
  | [] => ([], None)
  | c :: rest => match cut EqualByte rest with Some (n, v) => (c :: n, Some v) | None => (name, None) end
  end.

(** What [parseOne] makes of an argument: no flag, the terminator, a
    malformed flag, or a flag. *)
Inductive lexed := NotFlag | Terminator | BadFlag | Flag (name : bytes) (value : option bytes).

Definition lex_argument (s : bytes) : lexed :=
  match s with
  | d :: rest =>
      if bool_decide (d ≠ DashByte ∨ rest = []) then NotFlag
      else
        let name := match rest with d :: rest' => if bool_decide (d = DashByte) then rest' else rest | [] => rest end in
        if bool_decide (s = [DashByte; DashByte]) then Terminator
        else match name with
             | [] => BadFlag
             | c :: _ =>
                 if bool_decide (c = DashByte ∨ c = EqualByte) then BadFlag
                 else let '(n, v) := split_flag name in Flag n v
             end
  | [] => NotFlag
  end.

Definition ErrHelp : GoError := ENew ⟦"flag: help requested"⟧.

Fixpoint flag_Parse (args : list bytes) (s : S) : GoError + (S * list bytes) :=
  match args with
  | [] => inr (s, [])
  | arg :: args' =>
      match lex_argument arg with
      | NotFlag => inr (s, args)
      | Terminator => inr (s, args')
      | BadFlag => inl (ENew (⟦"bad flag syntax: "⟧ ++ arg))
      | Flag name value =>
          match flags name with
          | None =>
              inl (if bool_decide (name = ⟦"help"⟧ ∨ name = ⟦"h"⟧) then ErrHelp
                   else ENew (⟦"flag provided but not defined: -"⟧ ++ name))
          | Some set =>
              let assign value s :=
                match set value s with
                | inl err => inl (EWrap (⟦"invalid value for flag -"⟧ ++ name ++ ⟦": "⟧) err [])
                | inr s => inr s
                end in
              match value, args' with
              | Some value, _ => match assign value s with inl err => inl err | inr s => flag_Parse args' s end
              | None, value :: args'' => match assign value s with inl err => inl err | inr s => flag_Parse args'' s end
              | None, [] => inl (ENew (⟦"flag needs an argument: -"⟧ ++ name))
              end
          end
      end
  end.
End flags.

(** ** [strconv.ParseInt(s, 0, 64)], what [Int64] and [Int] flags use *)

(** The base a literal starts with, and its digits. *)
Definition literal_base (s : bytes) : Z * bytes :=
  match s with
  | "0"%byte :: rest =>
      match rest with
      | c :: _ :: _ =>
          if bool_decide (lower_byte c = "b"%byte) then (2%Z, tail rest)
          else if bool_decide (lower_byte c = "o"%byte) then (8%Z, tail rest)
          else if bool_decide (lower_byte c = "x"%byte) then (16%Z, tail rest)
          else (8%Z, rest)
      | _ => (8%Z, rest)
      end
  | _ => (10%Z, s)
  end.

Definition digit_value (c : Byte.byte) : option Z :=
  if in_range "0" "9" c then Some (byte_to_Z c - 48)%Z
  else let c := lower_byte c in
       if in_range "a" "z" c then Some (byte_to_Z c - 97 + 10)%Z else None.

Fixpoint parse_digits (base : Z) (s : bytes) (n : Z) : option Z :=
  match s with
  | [] => Some n
  | c :: s =>
      if bool_decide (c = "_"%byte) then parse_digits base s n
      else match digit_value c with
           | Some d => if bool_decide (base ≤ d)%Z then None else parse_digits base s (n * base + d)%Z
           | None => None
           end
  end.

(** [underscoreOK]: underscores separate digits; a base prefix counts as a
    digit. [previous] is the source's [i]. *)
Inductive underscorePrevious := AtStart | AfterDigit | AfterUnderscore | AfterOther.

#[global] Instance underscorePrevious_eq_dec : EqDecision underscorePrevious.
Proof. solve_decision. Defined.

Fixpoint underscore_from (hex : bool) (previous : underscorePrevious) (s : bytes) : bool :=
  match s with
  | [] => bool_decide (previous ≠ AfterUnderscore)
  | c :: s =>
      if in_range "0" "9" c || (hex && in_range "a" "f" (lower_byte c)) then underscore_from hex AfterDigit s
      else if bool_decide (c = "_"%byte) then
        if bool_decide (previous = AfterDigit) then underscore_from hex AfterUnderscore s else false
      else if bool_decide (previous = AfterUnderscore) then false
      else underscore_from hex AfterOther s
  end.

Definition underscoreOK (s : bytes) : bool :=
  match s with
  | "0"%byte :: c :: rest =>
      let c := lower_byte c in
      if bool_decide (c = "b"%byte ∨ c = "o"%byte ∨ c = "x"%byte)
      then underscore_from (bool_decide (c = "x"%byte)) AfterDigit rest
      else underscore_from false AtStart s
  | _ => underscore_from false AtStart s
  end.

(** [ParseUint(s, 0, 64)]. *)
Definition parse_uint0 (s : bytes) : option Z :=
  if bool_decide (s = []) then None
  else
    let '(base, digits) := literal_base s in
    n ← parse_digits base digits 0;
    if bool_decide (2 ^ 64 ≤ n)%Z then None
    else if bool_decide ("_"%byte ∈ digits) && negb (underscoreOK s) then None
    else Some n.

Definition parse_int0 (s : bytes) : option Z :=
  match s with
  | [] => None
  | c :: rest =>
      let neg := bool_decide (c = "-"%byte) in
      n ← parse_uint0 (if bool_decide (c = "+"%byte ∨ c = "-"%byte) then rest else s);
      if neg then (if bool_decide (2 ^ 63 < n)%Z then None else Some (- n)%Z)
      else (if bool_decide (2 ^ 63 ≤ n)%Z then None else Some n)
  end.

Definition set_flag_string {S} (f : bytes → S → S) : bytes → S → GoError + S := λ v s, inr (f v s).
Definition set_flag_int {S} (f : Z → S → S) : bytes → S → GoError + S := λ v s,
  match parse_int0 v with
  | Some n => inr (f n s)
  | None => inl (ENew ⟦"parse error"⟧)
  end.

(** ** [net.SplitHostPort]

    The result is the port, all the program uses. *)

(** The last index of a byte. *)
Definition last_index (c : Byte.byte) (s : bytes) : option nat :=
  match list_find (.= c) (reverse s) with
  | Some (i, _) => Some (length s - 1 - i)
  | None => None
  end.

Definition address_error (reason address : bytes) : GoError :=
  ENew (⟦"address "⟧ ++ address ++ ⟦": "⟧ ++ reason).

Definition net_SplitHostPort (hostport : bytes) : GoError + (bytes * bytes) :=
  match last_index ColonByte hostport with
  | None => inl (address_error ⟦"missing port in address"⟧ hostport)
  | Some i =>
      let bracketed := bool_decide (head hostport = Some "["%byte) in
      let checked : GoError + (bytes * nat * nat) :=
        if bracketed then
          match list_find (.= "]"%byte) hostport with
          | None => inl (address_error ⟦"missing ']' in address"⟧ hostport)
          | Some (close, _) =>
              if bool_decide (close + 1 = length hostport) then
                inl (address_error ⟦"missing port in address"⟧ hostport)
              else if bool_decide (close + 1 = i) then inr (slice 1 close hostport, 1, close + 1)
              else inl (address_error (if bool_decide (hostport !! (close + 1) = Some ColonByte)
                                       then ⟦"too many colons in address"⟧ else ⟦"missing port in address"⟧) hostport)
          end
        else
          let host := take i hostport in
          if bool_decide (ColonByte ∈ host) then inl (address_error ⟦"too many colons in address"⟧ hostport)
          else inr (host, 0, 0) in
      match checked with
      | inl err => inl err
      | inr (host, j, k) =>
          if bool_decide ("["%byte ∈ drop j hostport) then inl (address_error ⟦"unexpected '[' in address"⟧ hostport)
          else if bool_decide ("]"%byte ∈ drop k hostport) then inl (address_error ⟦"unexpected ']' in address"⟧ hostport)
          else inr (host, drop (i + 1) hostport)
      end
  end.

(** ** [--driver-path DRIVER=PATH], repeatable *)

Section driver_paths.
Context {GT : GoText}.

Abbreviation driverPathValues := (gmap bytes bytes).

Definition driver_paths_String (values : driverPathValues) : bytes :=
  let pairs := sort_strings ((λ '(driver, path), driver ++ [EqualByte] ++ path) <$> map_to_list values) in
  join_with ","%byte pairs.

Definition driver_paths_Set (raw : bytes) (values : driverPathValues) : GoError + driverPathValues :=
  let '(driver, path, found) :=
    match cut EqualByte raw with Some (driver, path) => (driver, path, true) | None => (raw, [], false) end in
  let driver := strings_TrimSpace driver in
  let path := strings_TrimSpace path in
  if negb found || bool_decide (driver = []) || bool_decide (path = [])
  then inl (ENew ⟦"driver mapping must use DRIVER=PATH"⟧)
  else
    let name := strings_ToLower driver in
    match values !! name with
    | Some _ => inl (ENew (⟦"driver mapping for "⟧ ++ strconv_Quote name ++ ⟦" was supplied more than once"⟧))
    | None => inr (<[name := path]> values)
    end.
End driver_paths.

(** ** What is formatted is parsed *)

Ltac digit_step :=
  match goal with
  | |- context [digit_value ?c] => let v := eval vm_compute in (digit_value c) in change (digit_value c) with v
  end.

Lemma parse_digits_acc d acc :
  parse_digits 10 (uint_to_bytes d) (Z.pos acc) = Some (Z.pos (Pos.of_uint_acc d acc)).
Proof.
  revert acc. induction d as [|d IH|d IH|d IH|d IH|d IH|d IH|d IH|d IH|d IH|d IH]; intros acc; [done|..];
    cbn [uint_to_bytes parse_digits Pos.of_uint_acc]; rewrite bool_decide_eq_false_2 by done;
    digit_step; cbv beta iota; rewrite bool_decide_eq_false_2 by lia; rewrite <-IH; f_equal; lia.
Qed.

Lemma parse_digits_uint d : parse_digits 10 (uint_to_bytes d) 0 = Some (Z.of_N (Pos.of_uint d)).
Proof.
  induction d as [|d IH|d IH|d IH|d IH|d IH|d IH|d IH|d IH|d IH|d IH]; [done|..];
    cbn [uint_to_bytes parse_digits Pos.of_uint]; rewrite bool_decide_eq_false_2 by done;
    digit_step; cbv beta iota; rewrite bool_decide_eq_false_2 by lia; [done|..];
    cbn [Z.of_N]; rewrite <-parse_digits_acc; f_equal; lia.
Qed.

Lemma uint_no_underscore d : "_"%byte ∉ uint_to_bytes d.
Proof. induction d; cbn; set_solver. Qed.

(** A decimal number has no leading zero. *)
Lemma to_uint_leading n d : N.to_uint n = D0 d → n = 0%N.
Proof.
  intros Hd. pose proof (DecimalN.Unsigned.to_of (N.to_uint n)) as Hn.
  rewrite DecimalN.Unsigned.of_to, Hd in Hn. unfold unorm in Hn.
  destruct (nzhead (D0 d)) eqn:Hz; try done.
  - injection Hn as ->. apply (f_equal N.of_uint) in Hd. by rewrite DecimalN.Unsigned.of_to in Hd.
  - by apply nzhead_nonzero in Hz.
Qed.

Lemma parse_uint0_format n : (Z.of_N n < 2 ^ 64)%Z → parse_uint0 (format_nat n) = Some (Z.of_N n).
Proof.
  intros Hn. unfold parse_uint0. rewrite bool_decide_eq_false_2 by apply format_nat_nonempty.
  destruct (decide (n = 0%N)) as [->|Hnz]; [by vm_compute|].
  assert (literal_base (format_nat n) = (10%Z, format_nat n)) as ->.
  { unfold format_nat. destruct (N.to_uint n) eqn:Hd; try done. by apply to_uint_leading in Hd. }
  cbv beta iota. unfold format_nat. rewrite parse_digits_uint.
  change (Pos.of_uint (N.to_uint n)) with (N.of_uint (N.to_uint n)). rewrite DecimalN.Unsigned.of_to. cbn.
  rewrite bool_decide_eq_false_2 by lia. rewrite bool_decide_eq_false_2 by apply uint_no_underscore. done.
Qed.

(** An [Int64] flag takes what [strconv.FormatInt] writes. *)
Lemma parse_int0_format z : (minInt64 ≤ z ≤ maxInt64)%Z → parse_int0 (format_int z) = Some z.
Proof.
  unfold minInt64, maxInt64. intros Hz. unfold format_int, parse_int0. destruct (Z.ltb_spec z 0) as [Hneg|Hneg].
  - rewrite (bool_decide_eq_true_2 ("-"%byte = "-"%byte)), bool_decide_eq_true_2 by auto.
    rewrite parse_uint0_format by lia. cbn. rewrite bool_decide_eq_false_2 by lia. f_equal. lia.
  - pose proof (format_nat_nonempty (Z.to_N z)) as Hne. pose proof (parse_uint0_format (Z.to_N z)) as Hp.
    unfold format_nat in *. destruct (N.to_uint (Z.to_N z)) as [|d|d|d|d|d|d|d|d|d|d] eqn:Hd; [done|..];
      cbn [uint_to_bytes] in *; rewrite !bool_decide_eq_false_2 by (done || intros [|]; done);
      rewrite Hp by lia; cbn; rewrite bool_decide_eq_false_2 by lia; f_equal; lia.
Qed.
