(* ===== verification/Cli.v ===== *)
(** * The command-line programs

    [cmd/kvlite/main.go] with its link-time switch
    [cmd/kvlite/linked_extensions_enabled.go], and the standalone programs
    [extensions/http/cmd/kvlite-http/main.go] and
    [extensions/redis/cmd/kvlite-redis/main.go].

    A program is a tree of calls, [cli]: what it asks of the process, of the
    operating system and of the servers, and how it goes on for every answer.
    The outcome is the exit status. Lines are written without their line feed;
    the flag package's own usage text is left out. The catalog of modules and the registry
    of drivers are those of the components that model them. *)

From S2P Require Import Prelude Errors Engine Effects MemDriver Envelope Keys ListCodec Text DriverName DB Collections Transport Json PathClean Modules Backend Flags.

(** ** Calls *)

Record linkedHTTPServeConfig := mkHTTPServe {
  hs_listenAddress : bytes;
  hs_bearerToken : bytes;
  hs_maxRequestBytes : Z;
  hs_driverPaths : gmap bytes bytes;
  hs_redisURL : bytes
}.

Record linkedRedisServeConfig := mkRedisServe { rs_listenAddress : bytes; rs_password : bytes; rs_maxClients : Z }.

(** What [Cmd.Wait] reports: nil, an [ExitError] with its exit code (-1 for
    a process ended by a signal), or another error. *)
Inductive waitError := WaitOk | WaitExit (code : Z) | WaitFailed (err : GoError).

#[global] Instance waitError_eq_dec : EqDecision waitError.
Proof. solve_decision. Defined.

(** A request for a health endpoint: [http.NewRequest] fails, the transport
    fails, or there is a response with its status code, status line and body. *)
Inductive healthReply := BadRequest (err : GoError) | NoReply (err : GoError) | Replied (code : Z) (status body : bytes).

Abbreviation pid := nat.

Inductive cliOp :=
  | Stdout (line : bytes)
  | Stderr (line : bytes)
  (** [kvlite.Open]; the driver is empty when the option is absent *)
  | OpenDB (path driver : bytes)
  | CloseDB
  (** [kvlitehttp.Connect] *)
  | ConnectDB (baseURL token driver : bytes)
  | ServeHTTP (config : linkedHTTPServeConfig)
  | CloseHTTP
  | ServeRedis (remote : bool) (config : linkedRedisServeConfig)
  | CloseRedis
  (** [Cmd.Start] of the executable of the named module *)
  | StartModule (name artifactPath : bytes) (args : list bytes)
  | Kill (p : pid)
  (** receive from the channel closed when the process was waited for *)
  | AwaitExit (p : pid)
  (** [Cmd.Wait], while a goroutine forwards one signal to the process *)
  | WaitForwarding (p : pid)
  (** [waitForAttachedModule] *)
  | Supervise (owner attached : pid)
  | AwaitSignal
  | TimeNow
  (** a poll of the channel, and a wait for it of at most 200 ms *)
  | HasExited (p : pid)
  | ExitedWithin (p : pid)
  | Health (url token : bytes).

Definition answer (o : cliOp) : Type :=
  match o with
  | Stdout _ | Stderr _ | CloseDB | Kill _ | AwaitExit _ | AwaitSignal => unit
  (** the driver's name, as [db.Backend()] reports it *)
  | OpenDB _ _ => GoError + bytes
  | ConnectDB _ _ _ => option GoError
  (** the URL of the server *)
  | ServeHTTP _ | ServeRedis _ _ => GoError + bytes
  | CloseHTTP | CloseRedis => option GoError
  | StartModule _ _ _ => GoError + pid
  | WaitForwarding _ => waitError
  | Supervise _ _ => Z
  | TimeNow => Z
  | HasExited _ | ExitedWithin _ => bool
  | Health _ _ => healthReply
  end.

(** [Unfinished] is a loop that has not ended within its fuel. *)
Inductive cli (A : Type) : Type :=
  | CRet (a : A)
  | CDo (o : cliOp) (k : answer o → cli A)
  | CPanic
  | Unfinished.
Arguments CRet {A}.
Arguments CDo {A}.
Arguments CPanic {A}.
Arguments Unfinished {A}.

Fixpoint cli_bind {A B} (f : A → cli B) (p : cli A) : cli B :=
  match p with
  | CRet a => f a
  | CDo o k => CDo o (λ r, cli_bind f (k r))
  | CPanic => CPanic
  | Unfinished => Unfinished
  end.

#[global] Instance cli_mret : MRet cli := λ A a, CRet a.
#[global] Instance cli_mbind : MBind cli := λ A B f p, cli_bind f p.

Definition call (o : cliOp) : cli (answer o) := CDo o CRet.

(** [defer cleanup]; then the body, which returns the exit status. *)
Definition deferring {A} (cleanup : cli unit) (body : cli A) : cli A :=
  a ← body; _ ← cleanup; mret a.

Definition fail_with (status : Z) (line : bytes) : cli Z := _ ← call (Stderr line); mret status.

(** ** The programs *)

Section programs.
Context {GT : GoText} {E : Type} (FS : FileSystem) (sha256 : bytes → bytes) (json_error : bytes → bytes)
  (GOOS_GOARCH : bytes) (env : ModuleEnv) (linked : gmap bytes ModuleManifest)
  (drivers : gmap bytes (registeredDriver E)).

(** Whether the binary was built with the extensions
    ([linked_extensions_enabled.go]) rather than with their stubs. *)
Context (extensions : bool).

Definition tt_cli {A} (p : cli A) : cli unit := _ ← p; mret tt.

(** *** Modules *)

Definition MultiKindLabel (manifest : ModuleManifest) : bytes :=
  if bool_decide (man_SchemaVersion manifest = ModuleManifestMultiKindVersion)
  then ⟦"kinds="⟧ ++ join_with ","%byte (ProvidedKinds manifest)
  else ⟦"kind="⟧ ++ man_Kind manifest.

Definition Tab : bytes := [Byte.x09].

Definition printModule (module : Module_) (source : bytes) : cli unit :=
  let manifest := mod_Manifest module in
  let line := man_Name manifest ++ Tab ++ MultiKindLabel manifest ++ Tab ++ ⟦"version="⟧ ++ man_Version manifest
              ++ Tab ++ ⟦"source="⟧ ++ source in
  call (Stdout (if bool_decide (mod_Directory module = []) then line
                else line ++ Tab ++ ⟦"path="⟧ ++ mod_Directory module)).

Fixpoint print_all {A} (print : A → cli unit) (l : list A) : cli unit :=
  match l with
  | [] => mret tt
  | x :: l => _ ← print x; print_all print l
  end.

Definition print_error (program : bytes) (err : GoError) : bytes := program ++ ⟦": "⟧ ++ error_text err.

Definition DiscoverInstalled : result (list Module_) :=
  DiscoverModules FS json_error env [].

Definition runModuleList : cli Z :=
  _ ← print_all (λ module, printModule module ⟦"linked"⟧) (LinkedModules linked);
  match DiscoverInstalled with
  | Panic => CPanic
  | Err err => fail_with 1 (print_error ⟦"kvlite"⟧ err)
  | Ok installed => _ ← print_all (λ module, printModule module ⟦"installed"⟧) installed; mret 0%Z
  end.

Fixpoint verify_each (modules : list Module_) : cli Z :=
  match modules with
  | [] => mret 0%Z
  | module :: modules =>
      let name := man_Name (mod_Manifest module) in
      match Verify FS sha256 module with
      | Panic => CPanic
      | Err err => fail_with 1 (⟦"kvlite: module "⟧ ++ name ++ ⟦": "⟧ ++ error_text err)
      | Ok _ => _ ← call (Stdout (name ++ Tab ++ ⟦"verified"⟧)); verify_each modules
      end
  end.

Definition runModuleVerify (name : bytes) : cli Z :=
  match (if bool_decide (name ≠ [])
         then module ← FindInstalledModule FS json_error env name []; mret [module]
         else DiscoverInstalled) with
  | Panic => CPanic
  | Err err => fail_with 1 (print_error ⟦"kvlite"⟧ err)
  | Ok modules => verify_each modules
  end.

Definition startModuleProcess (name : bytes) (subargs : list bytes) : cli (GoError + pid) :=
  match ResolveModuleExecutable FS sha256 json_error GOOS_GOARCH env linked name [] with
  | Panic => CPanic
  | Err err => mret (inl err)
  | Ok (module, artifact) =>
      match ArtifactPath module artifact with
      | Panic => CPanic
      | Err err => mret (inl (EWrap (⟦"kvlite: module "⟧ ++ name ++ ⟦" artifact path error: "⟧) err []))
      | Ok artifactPath =>
          r ← call (StartModule name artifactPath subargs);
          mret (match r with
                | inl err => inl (EWrap (⟦"kvlite: start module "⟧ ++ strconv_Quote name ++ ⟦": "⟧) err [])
                | inr p => inr p
                end)
      end
  end.

(** The status of a process that was waited for: its own when positive,
    else 1. *)
Definition exit_status (err : waitError) : Z :=
  match err with
  | WaitOk => 0
  | WaitExit code => if bool_decide (0 < code)%Z then code else 1
  | WaitFailed _ => 1
  end.

Definition wait_text (err : waitError) : bytes :=
  match err with
  | WaitFailed err => error_text err
  | WaitExit code => ⟦"exit status "⟧ ++ format_int code
  | WaitOk => []
  end.

(** The status of the process, and the diagnostic when it has none. *)
Definition report_wait (what : bytes) (err : waitError) : cli Z :=
  match err with
  | WaitOk => mret 0%Z
  | WaitExit code =>
      if bool_decide (0 < code)%Z then mret code
      else fail_with 1 (⟦"kvlite: "⟧ ++ what ++ ⟦" exited with error: "⟧ ++ wait_text err)
  | WaitFailed _ => fail_with 1 (⟦"kvlite: "⟧ ++ what ++ ⟦" exited with error: "⟧ ++ wait_text err)
  end.

Definition runModuleRun (args : list bytes) : cli Z :=
  match args with
  | [] => fail_with 2 ⟦"Usage: kvlite module run <name> [args]"⟧
  | name :: subargs =>
      cmd ← startModuleProcess name subargs;
      match cmd with
      | inl err => fail_with 1 (print_error ⟦"kvlite"⟧ err)
      | inr p => err ← call (WaitForwarding p); report_wait (⟦"module "⟧ ++ strconv_Quote name) err
      end
  end.

Definition runModule (args : list bytes) : cli Z :=
  match args with
  | [] => fail_with 2 ⟦"Usage: kvlite module list|run|verify [NAME]"⟧
  | command :: rest =>
      if bool_decide (command = ⟦"list"⟧) then
        if bool_decide (rest ≠ []) then fail_with 2 ⟦"Usage: kvlite module list"⟧ else runModuleList
      else if bool_decide (command = ⟦"run"⟧) then
        if bool_decide (rest = []) then fail_with 2 ⟦"Usage: kvlite module run <name> [args]"⟧ else runModuleRun rest
      else if bool_decide (command = ⟦"exec"⟧) then
        if bool_decide (rest = []) then fail_with 2 ⟦"Usage: kvlite module exec <name> [args]"⟧ else runModuleRun rest
      else if bool_decide (command = ⟦"verify"⟧) then
        if bool_decide (1 < length rest) then fail_with 2 ⟦"Usage: kvlite module verify [NAME]"⟧
        else runModuleVerify (default [] (head rest))
      else fail_with 2 (⟦"kvlite: unknown module command "⟧ ++ strconv_Quote command)
  end.

(** *** Drivers *)

Definition driver_line (info : DriverInfo) : bytes :=
  info_Driver info ++ Tab ++ ⟦"available="⟧ ++ (if info_Available info then ⟦"true"⟧ else ⟦"false"⟧)
  ++ Tab ++ ⟦"implementation="⟧ ++ info_Implementation info ++ Tab ++ ⟦"format="⟧ ++ info_Format info
  ++ Tab ++ ⟦"version="⟧ ++ info_Version info.

Definition runDriver (args : list bytes) : cli Z :=
  if bool_decide (args ≠ [⟦"list"⟧]) then fail_with 2 ⟦"Usage: kvlite driver list"⟧
  else match Drivers drivers with
       | Ok infos => _ ← print_all (λ info, call (Stdout (driver_line info))) infos; mret 0%Z
       | _ => CPanic
       end.

(** *** Standalone servers *)

Definition path_required : bytes := ⟦"kvlite: --path is required"⟧.
Definition blank (s : bytes) : bool := bool_decide (strings_TrimSpace s = []).

(** [if value != "" { args = append(args, flag, value) }] *)
Definition optional_flag (flag value : bytes) : list bytes := if bool_decide (value = []) then [] else [flag; value].

(** The arguments of an owner and of an attached process. *)
Definition httpArgs (path driver listen token : bytes) (maxRequestBytes : Z) : list bytes :=
  [⟦"--path"⟧; path; ⟦"--listen"⟧; listen; ⟦"--max-request-bytes"⟧; format_int maxRequestBytes]
  ++ optional_flag ⟦"--driver"⟧ driver ++ optional_flag ⟦"--token"⟧ token.

Definition redisArgs (path driver listen password : bytes) : list bytes :=
  [⟦"--path"⟧; path; ⟦"--listen"⟧; listen]
  ++ optional_flag ⟦"--driver"⟧ driver ++ optional_flag ⟦"--password"⟧ password.

Definition attachedArgs (ownerURL token driver redisListen redisPassword : bytes) : list bytes :=
  [⟦"--upstream"⟧; ownerURL; ⟦"--listen"⟧; redisListen]
  ++ optional_flag ⟦"--upstream-token"⟧ token ++ optional_flag ⟦"--upstream-driver"⟧ driver
  ++ optional_flag ⟦"--password"⟧ redisPassword.

Definition runServeStandaloneHTTP (path driver listen token : bytes) (maxRequestBytes : Z)
    (driverPaths : gmap bytes bytes) : cli Z :=
  if blank path then fail_with 2 path_required
  else if blank listen then fail_with 2 ⟦"kvlite: --listen is required in standalone HTTP mode"⟧
  else if bool_decide (driverPaths ≠ ∅) then
    fail_with 2 ⟦"kvlite: --driver-path is only supported in linked HTTP mode"⟧
  else
    _ ← call (Stdout ⟦"kvlite: starting standalone HTTP module"⟧);
    runModuleRun (⟦"http"⟧ :: httpArgs path driver listen token maxRequestBytes).

Definition runServeStandaloneRedis (path driver listen password : bytes) : cli Z :=
  if blank path then fail_with 2 path_required
  else if blank listen then fail_with 2 ⟦"kvlite: --redis-listen is required for standalone Redis mode"⟧
  else
    _ ← call (Stdout ⟦"kvlite: starting standalone Redis module"⟧);
    runModuleRun (⟦"redis"⟧ :: redisArgs path driver listen password).

Definition requireExplicitServePort (address flagName : bytes) : cli (option GoError) :=
  let refused := call (Stderr (⟦"kvlite: "⟧ ++ flagName
    ++ ⟦" needs an explicit host:port when HTTP and Redis serve together (got "⟧ ++ strconv_Quote address ++ ⟦")"⟧)) in
  match net_SplitHostPort (strings_TrimSpace address) with
  | inl err => _ ← refused; mret (Some err)
  | inr (_, port) =>
      if blank port || bool_decide (port = ⟦"0"⟧)
      then _ ← refused; mret (Some (ENew (⟦"kvlite: "⟧ ++ flagName ++ ⟦" needs an explicit host:port"⟧)))
      else mret None
  end.

Definition MemoryNotice (program : bytes) : bytes :=
  program ++ ⟦": serving an ephemeral in-memory database; everything will be lost on exit"⟧.

Definition PersistenceHint : bytes := ⟦" (choose --driver for persistence)"⟧.

(** Nanoseconds. *)
Definition HealthDeadline : Z := (30 * 10 ^ 9)%Z.

(** The loop of [waitForOwnerHealth]; [fuel] bounds its rounds. *)
Fixpoint poll_health (fuel : nat) (ownerURL token : bytes) (owner : pid) (deadline : Z) : cli bool :=
  match fuel with
  | O => Unfinished
  | Datatypes.S fuel =>
      let exited := _ ← call (Stderr ⟦"kvlite: HTTP owner module exited before becoming ready"⟧); mret false in
      now ← call TimeNow;
      if bool_decide (deadline ≤ now)%Z then
        _ ← call (Stderr ⟦"kvlite: HTTP owner module did not become ready in time"⟧); mret false
      else
        gone ← call (HasExited owner);
        if (gone : bool) then exited
        else
          reply ← call (Health (ownerURL ++ ⟦"/v1/health"⟧) token);
          match reply with
          | BadRequest err => _ ← call (Stderr (print_error ⟦"kvlite"⟧ err)); mret false
          | _ =>
              if (match reply with Replied code _ _ => bool_decide (code = 200%Z) | _ => false end) then mret true
              else
                gone ← call (ExitedWithin owner);
                if (gone : bool) then exited else poll_health fuel ownerURL token owner deadline
          end
  end.

Definition waitForOwnerHealth (fuel : nat) (ownerURL token : bytes) (owner : pid) : cli bool :=
  now ← call TimeNow; poll_health fuel ownerURL token owner (now + HealthDeadline)%Z.

Definition runServeStandaloneBoth (fuel : nat) (path driver listen token : bytes) (maxRequestBytes : Z)
    (redisListen redisPassword : bytes) : cli Z :=
  if blank path then fail_with 2 path_required
  else
    _ ← (if bool_decide (driver = DriverMemory) then call (Stderr (MemoryNotice ⟦"kvlite"⟧ ++ PersistenceHint)) else mret tt);
    err ← requireExplicitServePort listen ⟦"--listen"⟧;
    if bool_decide (err ≠ None) then mret 2%Z
    else
    err ← requireExplicitServePort redisListen ⟦"--redis-listen"⟧;
    if bool_decide (err ≠ None) then mret 2%Z
    else
    _ ← call (Stdout ⟦"kvlite: starting standalone HTTP owner module"⟧);
    owner ← startModuleProcess ⟦"http"⟧ (httpArgs path driver listen token maxRequestBytes);
    match owner with
    | inl err => fail_with 1 (print_error ⟦"kvlite"⟧ err)
    | inr owner =>
        let ownerURL := ⟦"http://"⟧ ++ listen in
        ready ← waitForOwnerHealth fuel ownerURL token owner;
        if negb ready then _ ← call (Kill owner); _ ← call (AwaitExit owner); mret 1%Z
        else
        _ ← call (Stdout ⟦"kvlite: starting standalone Redis module attached to the HTTP owner"⟧);
        attached ← startModuleProcess ⟦"redis"⟧ (attachedArgs ownerURL token driver redisListen redisPassword);
        match attached with
        | inl err =>
            _ ← call (Stderr (print_error ⟦"kvlite"⟧ err));
            _ ← call (Kill owner); _ ← call (AwaitExit owner); mret 1%Z
        | inr attached => call (Supervise owner attached)
        end
    end.

(** *** Linked servers *)

Definition close_db : cli unit := tt_cli (call CloseDB).

Definition close_server (close : cli (option GoError)) (name : bytes) : cli unit :=
  err ← close;
  match err with
  | Some err => call (Stderr (⟦"kvlite: "⟧ ++ name ++ ⟦" extension close failed: "⟧ ++ error_text err))
  | None => mret tt
  end.

Definition isExtensionLinked (name : bytes) : bool :=
  extensions && match LinkedModule name linked with Ok _ => true | _ => false end.

Definition isHTTPExtensionLinked : bool := isExtensionLinked ⟦"http"⟧.
Definition isRedisExtensionLinked : bool := isExtensionLinked ⟦"redis"⟧.

Definition linkedHTTPServe (config : linkedHTTPServeConfig) : cli (GoError + bytes) :=
  if extensions then call (ServeHTTP config)
  else mret (inl (ENew ⟦"http extension linking is not enabled in this binary"⟧)).

Definition linkedRedisServe (config : linkedRedisServeConfig) : cli (GoError + bytes) :=
  if extensions then call (ServeRedis false config)
  else mret (inl (ENew ⟦"redis extension linking is not enabled in this binary"⟧)).

Definition serving_line : bytes := ⟦"kvlite: serving; press Ctrl-C to stop"⟧.

(** [backend] is [db.Backend()]. *)
Definition runServeLinkedHTTPWithAttachedRedis (backend listen token : bytes) (maxRequestBytes : Z)
    (driverPaths : gmap bytes bytes) (redisListen redisPassword : bytes) : cli Z :=
  err ← requireExplicitServePort redisListen ⟦"--redis-listen"⟧;
  if bool_decide (err ≠ None) then mret 2%Z
  else
  server ← linkedHTTPServe (mkHTTPServe listen token maxRequestBytes driverPaths []);
  match server with
  | inl err => fail_with 1 (print_error ⟦"kvlite"⟧ err)
  | inr url =>
      deferring (close_server (call CloseHTTP) ⟦"http"⟧) (
        let driver := if bool_decide (backend = [] ∨ backend = BackendRemote) then [] else backend in
        _ ← call (Stdout ⟦"kvlite: starting standalone Redis module attached to the linked HTTP server"⟧);
        attached ← startModuleProcess ⟦"redis"⟧ (attachedArgs url token driver redisListen redisPassword);
        match attached with
        | inl err => fail_with 1 (print_error ⟦"kvlite"⟧ err)
        | inr attached =>
            _ ← call (Stdout (⟦"driver="⟧ ++ backend));
            _ ← call (Stdout (⟦"http="⟧ ++ url));
            _ ← call (Stdout serving_line);
            err ← call (WaitForwarding attached); report_wait ⟦"attached redis module"⟧ err
        end)
  end.

(** *** [kvlite serve] *)

Definition extensionModeAuto : bytes := ⟦"auto"⟧.
Definition extensionModeLinked : bytes := ⟦"linked"⟧.
Definition extensionModeStandalone : bytes := ⟦"standalone"⟧.

Record serveOptions := mkServe {
  sv_path : bytes;
  sv_driver : bytes;
  sv_backend : bytes;
  sv_listen : bytes;
  sv_token : bytes;
  sv_maxRequestBytes : Z;
  sv_extensionMode : bytes;
  sv_redisListen : bytes;
  sv_redisPassword : bytes;
  sv_driverPaths : gmap bytes bytes
}.

Definition serve_defaults : serveOptions :=
  mkServe [] [] [] ⟦"127.0.0.1:0"⟧ [] (Z.shiftl 64 20) extensionModeAuto [] [] ∅.

Definition serveFlags (name : bytes) : option (bytes → serveOptions → GoError + serveOptions) :=
  let string f := Some (set_flag_string f) in
  if bool_decide (name = ⟦"path"⟧) then
    string (λ v '(mkServe _ d b l t m x r w p), mkServe v d b l t m x r w p)
  else if bool_decide (name = ⟦"driver"⟧) then
    string (λ v '(mkServe p _ b l t m x r w ps), mkServe p v b l t m x r w ps)
  else if bool_decide (name = ⟦"backend"⟧) then
    string (λ v '(mkServe p d _ l t m x r w ps), mkServe p d v l t m x r w ps)
  else if bool_decide (name = ⟦"listen"⟧) then
    string (λ v '(mkServe p d b _ t m x r w ps), mkServe p d b v t m x r w ps)
  else if bool_decide (name = ⟦"token"⟧) then
    string (λ v '(mkServe p d b l _ m x r w ps), mkServe p d b l v m x r w ps)
  else if bool_decide (name = ⟦"max-request-bytes"⟧) then
    Some (set_flag_int (λ v '(mkServe p d b l t _ x r w ps), mkServe p d b l t v x r w ps))
  else if bool_decide (name = ⟦"extension-mode"⟧) then
    string (λ v '(mkServe p d b l t m _ r w ps), mkServe p d b l t m v r w ps)
  else if bool_decide (name = ⟦"redis-listen"⟧) then
    string (λ v '(mkServe p d b l t m x _ w ps), mkServe p d b l t m x v w ps)
  else if bool_decide (name = ⟦"redis-password"⟧) then
    string (λ v '(mkServe p d b l t m x r _ ps), mkServe p d b l t m x r v ps)
  else if bool_decide (name = ⟦"driver-path"⟧) then
    Some (λ v '(mkServe p d b l t m x r w ps),
            match driver_paths_Set v ps with
            | inl err => inl err
            | inr ps => inr (mkServe p d b l t m x r w ps)
            end)
  else None.

(** The scan for [--listen] before the flags are parsed. *)
Definition listenExplicit (args : list bytes) : bool :=
  existsb (λ arg, bool_decide (arg = ⟦"--listen"⟧) || strings_HasPrefix arg ⟦"--listen="⟧) args.

(** The end of [run]: the HTTP server, until a signal. *)
Definition serve_http (o : serveOptions) (backend : bytes) (redisURL : option bytes) : cli Z :=
  server ← linkedHTTPServe (mkHTTPServe (sv_listen o) (sv_token o) (sv_maxRequestBytes o)
                              (sv_driverPaths o) (default [] redisURL));
  match server with
  | inl err => fail_with 1 (print_error ⟦"kvlite"⟧ err)
  | inr url =>
      deferring (close_server (call CloseHTTP) ⟦"http"⟧) (
        _ ← call (Stdout (⟦"driver="⟧ ++ backend));
        _ ← call (Stdout (⟦"http="⟧ ++ url));
        _ ← match redisURL with Some url => call (Stdout (⟦"redis="⟧ ++ url)) | None => mret tt end;
        _ ← call (Stdout serving_line);
        _ ← call AwaitSignal; mret 0%Z)
  end.

Definition serve_linked (o : serveOptions) (driver : bytes) : cli Z :=
  driver ← (if bool_decide (driver = [])
            then match DefaultDriver drivers with Ok name => mret name | _ => CPanic end
            else mret driver);
  _ ← (if bool_decide (driver = DriverMemory) then call (Stderr (MemoryNotice ⟦"kvlite"⟧ ++ PersistenceHint)) else mret tt);
  db ← call (OpenDB (sv_path o) driver);
  match db with
  | inl err => fail_with 1 (print_error ⟦"kvlite"⟧ err)
  | inr backend =>
      deferring close_db (
        if bool_decide (sv_redisListen o ≠ []) && negb isRedisExtensionLinked then
          runServeLinkedHTTPWithAttachedRedis backend (sv_listen o) (sv_token o) (sv_maxRequestBytes o)
            (sv_driverPaths o) (sv_redisListen o) (sv_redisPassword o)
        else
          if bool_decide (sv_redisListen o = []) then serve_http o backend None
          else
            redis ← linkedRedisServe (mkRedisServe (sv_redisListen o) (sv_redisPassword o) 0);
            match redis with
            | inl err => fail_with 1 (print_error ⟦"kvlite"⟧ err)
            | inr url => deferring (close_server (call CloseRedis) ⟦"redis"⟧) (serve_http o backend (Some url))
            end)
  end.

Definition serve_dispatch (fuel : nat) (explicit : bool) (o : serveOptions) (driver mode : bytes) : cli Z :=
  let both := runServeStandaloneBoth fuel (sv_path o) driver (sv_listen o) (sv_token o) (sv_maxRequestBytes o)
                (sv_redisListen o) (sv_redisPassword o) in
  let http := runServeStandaloneHTTP (sv_path o) driver (sv_listen o) (sv_token o) (sv_maxRequestBytes o)
                (sv_driverPaths o) in
  let redis := runServeStandaloneRedis (sv_path o) driver (sv_redisListen o) (sv_redisPassword o) in
  let with_redis := bool_decide (sv_redisListen o ≠ []) in
  if bool_decide (mode = extensionModeStandalone) then
    if with_redis && explicit then both else if with_redis then redis else http
  else if bool_decide (mode = extensionModeAuto) && negb isHTTPExtensionLinked then
    if bool_decide (sv_driverPaths o ≠ ∅) then
      fail_with 1 ⟦"kvlite: --driver-path requires a linked HTTP extension"⟧
    else if with_redis && explicit then both
    else if with_redis && negb isRedisExtensionLinked then redis
    else if negb with_redis then http
    else serve_linked o driver
  else serve_linked o driver.

Definition usage : cli unit :=
  print_all (λ line, call (Stderr line))
    [⟦"Usage: kvlite serve --path DIR [--driver NAME] [--driver-path NAME=DIR] [--listen HOST:PORT] [--token TOKEN] [--redis-listen HOST:PORT] [--redis-password PASSWORD] [--extension-mode auto|linked|standalone]"⟧;
     ⟦"       kvlite driver list"⟧;
     ⟦"       kvlite module list|run <name> [args...]|verify [NAME]"⟧;
     Byte.x0a :: ⟦"Defaults prefer linked extensions, and fall back to standalone module binaries when auto-linked extensions are missing."⟧;
     ⟦"Standalone HTTP and Redis share one database through a shared-owner topology: a kvlite-http owner holds the directory and kvlite-redis attaches over the owner's loopback protocol. Serving both together needs explicit --listen and --redis-listen ports."⟧;
     ⟦"The binary can discover installed module descriptors from KVLITE_MODULE_PATH, KVLITE_HOME/{modules,drivers}, or KVLITE_SYSTEM_MODULE_PATH; listing them never loads code."⟧;
     ⟦"Build a driver bundle with -tags kvlite_rocksdb,rocksdb; -tags kvlite_leveldb; -tags kvlite_badgerdb; -tags kvlite_boltdb; -tags kvlite_lmdb; or -tags kvlite_berkeleydb,berkeleydb, then inspect it with `kvlite driver list`."⟧].

Definition runServe (fuel : nat) (args : list bytes) : cli Z :=
  match flag_Parse serveFlags args serve_defaults with
  | inl err => fail_with 2 (error_text err)
  | inr (o, _) =>
      if bool_decide (sv_path o = []) then fail_with 2 path_required
      else if bool_decide (sv_backend o ≠ [] ∧ sv_driver o ≠ [] ∧ sv_driver o ≠ sv_backend o) then
        fail_with 2 ⟦"kvlite: --driver and --backend select different drivers"⟧
      else
        let driver := if bool_decide (sv_backend o ≠ []) then sv_backend o else sv_driver o in
        let mode := strings_ToLower (strings_TrimSpace (sv_extensionMode o)) in
        if bool_decide (mode ≠ extensionModeAuto ∧ mode ≠ extensionModeLinked ∧ mode ≠ extensionModeStandalone) then
          fail_with 2 (⟦"kvlite: unknown extension mode "⟧ ++ strconv_Quote (sv_extensionMode o)
                       ++ ⟦" (want auto, linked, or standalone)"⟧)
        else serve_dispatch fuel (listenExplicit args) o driver mode
  end.

Definition run (fuel : nat) (args : list bytes) : cli Z :=
  match args with
  | [] => _ ← usage; mret 0%Z
  | command :: rest =>
      if bool_decide (command = ⟦"-h"⟧ ∨ command = ⟦"--help"⟧) then _ ← usage; mret 0%Z
      else if bool_decide (command = ⟦"driver"⟧) then runDriver rest
      else if bool_decide (command = ⟦"module"⟧) then runModule rest
      else if bool_decide (command = ⟦"serve"⟧) then runServe fuel rest
      else
        _ ← call (Stderr (⟦"kvlite: unknown command "⟧ ++ strconv_Quote command));
        _ ← usage; mret 2%Z
  end.
End programs.
