(* ===== verification/ModuleCmds.v ===== *)
(** * The standalone programs of the HTTP and Redis modules

    [extensions/http/cmd/kvlite-http/main.go] and
    [extensions/redis/cmd/kvlite-redis/main.go], in the calls of [Cli]. *)

From S2P Require Import Prelude Errors Engine Effects MemDriver Envelope Keys ListCodec Text DriverName DB Collections Transport Json PathClean Modules Backend HttpClient Flags Cli.

Section programs.
Context {GT : GoText} (json_error : bytes → bytes).

(** ** [kvlite-http] *)

Record httpOptions := mkHTTP {
  ho_path : bytes;
  ho_driver : bytes;
  ho_listen : bytes;
  ho_token : bytes;
  ho_maxRequestBytes : Z
}.

Definition http_defaults : httpOptions := mkHTTP [] [] ⟦"127.0.0.1:8089"⟧ [] (Z.shiftl 64 20).

Definition httpFlags (name : bytes) : option (bytes → httpOptions → GoError + httpOptions) :=
  let string f := Some (set_flag_string f) in
  if bool_decide (name = ⟦"path"⟧) then string (λ v '(mkHTTP _ d l t m), mkHTTP v d l t m)
  else if bool_decide (name = ⟦"driver"⟧) then string (λ v '(mkHTTP p _ l t m), mkHTTP p v l t m)
  else if bool_decide (name = ⟦"listen"⟧) then string (λ v '(mkHTTP p d _ t m), mkHTTP p d v t m)
  else if bool_decide (name = ⟦"token"⟧) then string (λ v '(mkHTTP p d l _ m), mkHTTP p d l v m)
  else if bool_decide (name = ⟦"max-request-bytes"⟧) then Some (set_flag_int (λ v '(mkHTTP p d l t _), mkHTTP p d l t v))
  else None.

(** The two [defer]s drop the errors of closing. *)
Definition http_run (args : list bytes) : cli Z :=
  match flag_Parse httpFlags args http_defaults with
  | inl err => fail_with 2 (error_text err)
  | inr (o, _) =>
      if bool_decide (ho_path o = []) then fail_with 2 ⟦"kvlite-http: --path is required"⟧
      else
      _ ← (if bool_decide (ho_driver o = DriverMemory) then call (Stderr (MemoryNotice ⟦"kvlite-http"⟧)) else mret tt);
      db ← call (OpenDB (ho_path o) (ho_driver o));
      match db with
      | inl err => fail_with 1 (print_error ⟦"kvlite-http"⟧ err)
      | inr _ =>
          deferring close_db (
            server ← call (ServeHTTP (mkHTTPServe (ho_listen o) (ho_token o) (ho_maxRequestBytes o) ∅ []));
            match server with
            | inl err => fail_with 1 (print_error ⟦"kvlite-http"⟧ err)
            | inr url =>
                deferring (tt_cli (call CloseHTTP)) (
                  _ ← call (Stdout (⟦"kvlite-http url="⟧ ++ url));
                  _ ← call (Stdout ⟦"kvlite-http: serving; press Ctrl-C to stop"⟧);
                  _ ← call AwaitSignal; mret 0%Z)
            end)
      end
  end.

(** ** [kvlite-redis] *)

Record redisOptions := mkRedis {
  ro_path : bytes;
  ro_driver : bytes;
  ro_upstream : bytes;
  ro_upstreamToken : bytes;
  ro_upstreamDriver : bytes;
  ro_listen : bytes;
  ro_password : bytes;
  ro_maxClients : Z
}.

Definition redis_defaults : redisOptions := mkRedis [] [] [] [] [] ⟦"127.0.0.1:6379"⟧ [] 0.

Definition redisFlags (name : bytes) : option (bytes → redisOptions → GoError + redisOptions) :=
  let string f := Some (set_flag_string f) in
  if bool_decide (name = ⟦"path"⟧) then string (λ v '(mkRedis _ d u t x l w m), mkRedis v d u t x l w m)
  else if bool_decide (name = ⟦"driver"⟧) then string (λ v '(mkRedis p _ u t x l w m), mkRedis p v u t x l w m)
  else if bool_decide (name = ⟦"upstream"⟧) then string (λ v '(mkRedis p d _ t x l w m), mkRedis p d v t x l w m)
  else if bool_decide (name = ⟦"upstream-token"⟧) then string (λ v '(mkRedis p d u _ x l w m), mkRedis p d u v x l w m)
  else if bool_decide (name = ⟦"upstream-driver"⟧) then string (λ v '(mkRedis p d u t _ l w m), mkRedis p d u t v l w m)
  else if bool_decide (name = ⟦"listen"⟧) then string (λ v '(mkRedis p d u t x _ w m), mkRedis p d u t x v w m)
  else if bool_decide (name = ⟦"password"⟧) then string (λ v '(mkRedis p d u t x l _ m), mkRedis p d u t x l v m)
  else if bool_decide (name = ⟦"max-clients"⟧) then Some (set_flag_int (λ v '(mkRedis p d u t x l w _), mkRedis p d u t x l w v))
  else None.

(** [strings.TrimRight(s, "/")]. *)
Definition trim_right_slashes (s : bytes) : bytes := reverse (drop_while_slash (reverse s)).

(** The [status] member of the health reply. *)
Definition decode_health (body : bytes) : option bytes :=
  decoded ← decode_next body; set_struct false [(⟦"status"⟧, decode_string)] decoded.1 [].

Definition checkOwnerHealth (baseURL token : bytes) : cli (option GoError) :=
  reply ← call (Health (baseURL ++ ⟦"/v1/health"⟧) token);
  mret (match reply with
        | BadRequest err | NoReply err => Some err
        | Replied code status body =>
            if bool_decide (code ≠ 200%Z) then
              Some (ENew (⟦"owner returned status "⟧ ++ status ++ ⟦" (check the URL and token)"⟧))
            else match decode_health body with
                 | None => Some (EWrap ⟦"owner returned an unreadable health reply: "⟧ (EExternal (json_error body)) [])
                 | Some text =>
                     if bool_decide (text ≠ ⟦"ok"⟧) then Some (ENew (⟦"owner reported status "⟧ ++ strconv_Quote text))
                     else None
                 end
        end).

Definition redis_serve (o : redisOptions) (remote : bool) (suffix serving : bytes) : cli Z :=
  server ← call (ServeRedis remote (mkRedisServe (ro_listen o) (ro_password o) (ro_maxClients o)));
  match server with
  | inl err => fail_with 1 (print_error ⟦"kvlite-redis"⟧ err)
  | inr url =>
      deferring (tt_cli (call CloseRedis)) (
        _ ← call (Stdout (⟦"kvlite-redis url="⟧ ++ url ++ suffix));
        _ ← call (Stdout (⟦"kvlite-redis: "⟧ ++ serving ++ ⟦"; press Ctrl-C to stop"⟧));
        _ ← call AwaitSignal; mret 0%Z)
  end.

Definition runAttached (o : redisOptions) : cli Z :=
  if bool_decide (ro_path o ≠ [] ∨ ro_driver o ≠ []) then
    fail_with 2 ⟦"kvlite-redis: --upstream cannot be combined with --path or --driver"⟧
  else if blank (ro_listen o) then fail_with 2 ⟦"kvlite-redis: --listen is required"⟧
  else
  let baseURL := trim_right_slashes (strings_TrimSpace (ro_upstream o)) in
  if bool_decide (baseURL = []) then fail_with 2 ⟦"kvlite-redis: --upstream must be an http(s) URL"⟧
  else
  match (if bool_decide (ro_upstreamDriver o = []) then Ok [] else ParseDriverName (ro_upstreamDriver o)) with
  | Panic => CPanic
  | Err err => fail_with 2 (print_error ⟦"kvlite-redis"⟧ err)
  | Ok driver =>
      health ← checkOwnerHealth baseURL (ro_upstreamToken o);
      match health with
      | Some err =>
          fail_with 1 (⟦"kvlite-redis: upstream owner "⟧ ++ baseURL ++ ⟦" is not reachable: "⟧ ++ error_text err)
      | None =>
          remote ← call (ConnectDB baseURL (ro_upstreamToken o) driver);
          match remote with
          | Some err => fail_with 1 (⟦"kvlite-redis: connect to upstream owner: "⟧ ++ error_text err)
          | None =>
              deferring close_db (redis_serve o true (⟦" upstream="⟧ ++ baseURL) ⟦"serving attached"⟧)
          end
      end
  end.

Definition redis_run (args : list bytes) : cli Z :=
  match flag_Parse redisFlags args redis_defaults with
  | inl err => fail_with 2 (error_text err)
  | inr (o, _) =>
      if bool_decide (ro_upstream o ≠ []) then runAttached o
      else if bool_decide (ro_path o = []) then
        fail_with 2 ⟦"kvlite-redis: --path is required in direct-owner mode (or use --upstream for shared-owner mode)"⟧
      else
      _ ← (if bool_decide (ro_driver o = DriverMemory) then call (Stderr (MemoryNotice ⟦"kvlite-redis"⟧)) else mret tt);
      db ← call (OpenDB (ro_path o) (ro_driver o));
      match db with
      | inl err => fail_with 1 (print_error ⟦"kvlite-redis"⟧ err)
      | inr _ => deferring close_db (redis_serve o false [] ⟦"serving"⟧)
      end
  end.
End programs.
