(* ===== verification/Supervisor.v ===== *)
(** * Supervision of an owner and an attached process

    [waitForAttachedModule] of [cmd/kvlite/main.go] as a step relation: the
    [select] loop, the goroutines that wait for the two processes, the
    processes themselves and the signals of the user, in any interleaving. *)

From S2P Require Import Prelude Errors Engine Effects Text Backend Flags Cli.

Inductive signal := SIGINT | SIGTERM.

#[global] Instance signal_eq_dec : EqDecision signal.
Proof. solve_decision. Defined.

(** A process: running, with [Kill] called or not; ended; or waited for, when
    the channel of its goroutine is ready. *)
Inductive life := Running (killed : bool) | Ended (err : waitError) | Waited (err : waitError).

(** [p_signals]: the signals the supervisor sent, the last first. *)
Record process := mkProcess { p_life : life; p_signals : list signal }.

(** Where the loop is: in its [select]; after the case of [ownerExited], in
    the receive from [attachedExited]; after the case of [attachedExited], in
    the receive from [ownerExited]; returned. *)
Inductive point := Selecting | OwnerGone | AttachedGone (err : waitError) | Returned (status : Z).

Record supervision := mkSup {
  s_owner : process;
  s_attached : process;
  s_pending : option signal;   (** the buffer of the channel [signals] *)
  s_stopping : bool;
  s_point : point
}.

Definition supervision_start (owner attached : process) : supervision := mkSup owner attached None false Selecting.

(** [Process.Kill] and [Process.Signal]: nothing for a process that ended. *)
Definition kill (p : process) : process :=
  match p_life p with Running _ => mkProcess (Running true) (p_signals p) | _ => p end.

Definition send (sig : signal) (p : process) : process :=
  match p_life p with Running _ => mkProcess (p_life p) (sig :: p_signals p) | _ => p end.

(** What the operating system and the waiting goroutine do to a process. A
    killed process has ended by the signal, unless it ended by itself. *)
Inductive lives : process → process → Prop :=
  | process_ends killed err sent : lives (mkProcess (Running killed) sent) (mkProcess (Ended err) sent)
  | process_killed sent : lives (mkProcess (Running true) sent) (mkProcess (Ended (WaitExit (-1))) sent)
  | process_waited err sent : lives (mkProcess (Ended err) sent) (mkProcess (Waited err) sent).

(** The status returned when the owner was first to exit. *)
Definition owner_gone_status (stopping : bool) (err : waitError) : Z :=
  if stopping && bool_decide (err = WaitOk) then 0 else 1.

Inductive sup_step : supervision → supervision → Prop :=
  | step_owner owner owner' attached pending stopping pt :
      lives owner owner' →
      sup_step (mkSup owner attached pending stopping pt) (mkSup owner' attached pending stopping pt)
  | step_attached owner attached attached' pending stopping pt :
      lives attached attached' →
      sup_step (mkSup owner attached pending stopping pt) (mkSup owner attached' pending stopping pt)
  (** [case <-ownerExited] *)
  | step_owner_gone err sent attached pending stopping :
      sup_step (mkSup (mkProcess (Waited err) sent) attached pending stopping Selecting)
        (mkSup (mkProcess (Waited err) sent) (kill attached) pending stopping OwnerGone)
  | step_attached_reaped owner err sent pending stopping :
      sup_step (mkSup owner (mkProcess (Waited err) sent) pending stopping OwnerGone)
        (mkSup owner (mkProcess (Waited err) sent) pending stopping (Returned (owner_gone_status stopping err)))
  (** [case waitErr := <-attachedExited] *)
  | step_attached_gone owner err sent pending stopping :
      sup_step (mkSup owner (mkProcess (Waited err) sent) pending stopping Selecting)
        (mkSup (kill owner) (mkProcess (Waited err) sent) pending stopping (AttachedGone err))
  | step_owner_reaped waitErr err sent attached pending stopping :
      sup_step (mkSup (mkProcess (Waited err) sent) attached pending stopping (AttachedGone waitErr))
        (mkSup (mkProcess (Waited err) sent) attached pending stopping (Returned (exit_status waitErr)))
  (** [case sig := <-signals] *)
  | step_signal owner attached sig stopping :
      sup_step (mkSup owner attached (Some sig) stopping Selecting)
        (mkSup (send sig owner) (send sig attached) None true Selecting).

(** The user: a signal is dropped when the buffer holds one. *)
Inductive user_step : supervision → supervision → Prop :=
  | step_user owner attached pending stopping pt sig :
      user_step (mkSup owner attached pending stopping pt)
        (mkSup owner attached (Some (default sig pending)) stopping pt).

Definition any_step (s s' : supervision) : Prop := sup_step s s' ∨ user_step s s'.

(** A process the supervisor did not kill. *)
Definition spared (p : process) : Prop := p_life p ≠ Running true.

(** The owner may have ended before the supervision starts. *)
Definition fresh : process := mkProcess (Running false) [].
Definition reachable (s : supervision) : Prop :=
  ∃ owner, spared owner ∧ rtc any_step (supervision_start owner fresh) s.

(** ** What holds in every interleaving *)

Definition waited (p : process) (err : waitError) : Prop := p_life p = Waited err.

Definition sup_invariant (s : supervision) : Prop :=
  match s_point s with
  | Selecting => spared (s_owner s) ∧ spared (s_attached s)
  | OwnerGone => ∃ err, waited (s_owner s) err
  | AttachedGone err => waited (s_attached s) err
  | Returned status =>
      ∃ owner attached, waited (s_owner s) owner ∧ waited (s_attached s) attached
        ∧ (status = exit_status attached ∨ status = owner_gone_status (s_stopping s) attached)
  end.

Lemma lives_waited p p' err : lives p p' → waited p err → False.
Proof. unfold waited. by intros []. Qed.

Lemma lives_spared p p' : lives p p' → spared p → spared p'.
Proof. unfold spared. by intros []. Qed.

Lemma send_spared sig p : spared p → spared (send sig p).
Proof. unfold spared, send. by destruct (p_life p) eqn:?; cbn; congruence. Qed.

Lemma sup_step_invariant s s' : sup_step s s' → sup_invariant s → sup_invariant s'.
Proof.
  unfold sup_invariant.
  intros [owner owner' attached pending stopping [] Hl|owner attached attached' pending stopping [] Hl| | | | |];
    cbn; try done.
  - intros [? ?]. split; [by eapply lives_spared|done].
  - intros [err Hw]. by destruct (lives_waited _ _ _ Hl Hw).
  - intros (err & ? & Hw & _). by destruct (lives_waited _ _ _ Hl Hw).
  - intros [? ?]. split; [done|by eapply lives_spared].
  - intros Hw. by destruct (lives_waited _ _ _ Hl Hw).
  - intros (? & err & _ & Hw & _). by destruct (lives_waited _ _ _ Hl Hw).
  - intros _. by eexists.
  - intros [oerr Ho]. exists oerr, err. split_and!; [done..|by right].
  - intros Ha. exists err, waitErr. split_and!; [done..|by left].
  - intros [? ?]. split; by apply send_spared.
Qed.

Lemma reachable_invariant s : reachable s → sup_invariant s.
Proof.
  intros (owner & Ho & Hr). remember (supervision_start owner fresh) as s0 eqn:Hs0.
  assert (sup_invariant s0) as Hinv by (by subst s0). clear Hs0.
  induction Hr as [|x y z [Hs|Hu] _ IH]; [done| |].
  - by apply IH, (sup_step_invariant x).
  - apply IH. by destruct Hu.
Qed.

(** No process is left behind. However the exits of the two processes, the
    signals and the supervisor interleave, when [waitForAttachedModule]
    returns both processes have ended and were waited for, and the status is
    0 only if the attached process ended without an error. *)
Theorem supervisor_leaves_no_process s status :
  reachable s → s_point s = Returned status →
  ∃ owner attached, waited (s_owner s) owner ∧ waited (s_attached s) attached
    ∧ (status = 0%Z → attached = WaitOk)
    ∧ (0 < exit_status attached → status = exit_status attached ∨ status = 1)%Z.
Proof.
  intros Hr Hp. pose proof (reachable_invariant s Hr) as Hinv. unfold sup_invariant in Hinv. rewrite Hp in Hinv.
  destruct Hinv as (owner & attached & Ho & Ha & Hst). exists owner, attached. split_and!; [done..| |].
  - intros ->. unfold exit_status, owner_gone_status in Hst. destruct attached as [|code|err]; [done| |].
    + destruct Hst as [Hst|Hst]; [case_bool_decide; lia|]. by destruct (s_stopping s).
    + destruct Hst as [Hst|Hst]; [done|]. by destruct (s_stopping s).
  - intros Hpos. destruct Hst as [-> | ->]; [by left|]. right. unfold owner_gone_status.
    destruct attached; [cbn in Hpos; lia|..]; by destruct (s_stopping s).
Qed.

(** ** It returns *)

Definition life_rank (p : process) : nat :=
  match p_life p with Running _ => 2 | Ended _ => 1 | Waited _ => 0 end.

Definition point_rank (pt : point) : nat :=
  match pt with Selecting => 2 | OwnerGone | AttachedGone _ => 1 | Returned _ => 0 end.

(** Every step but the arrival of a signal makes this smaller. *)
Definition sup_rank (s : supervision) : nat :=
  life_rank (s_owner s) + life_rank (s_attached s) + point_rank (s_point s)
  + match s_pending s with Some _ => 1 | None => 0 end.

Lemma life_rank_kill p : life_rank (kill p) = life_rank p.
Proof. unfold life_rank, kill. by destruct (p_life p) eqn:Hp; cbn; rewrite ?Hp. Qed.

Lemma life_rank_send sig p : life_rank (send sig p) = life_rank p.
Proof. unfold life_rank, send. by destruct (p_life p) eqn:Hp; cbn; rewrite ?Hp. Qed.

Lemma sup_step_decreases s s' : sup_step s s' → sup_rank s' < sup_rank s.
Proof.
  intros [o o' a pe st pt []|o a a' pe st pt []| | | | |]; unfold sup_rank; cbn;
    rewrite ?life_rank_kill, ?life_rank_send; cbn; try lia.
Qed.

(** One of the processes has ended. *)
Definition over (p : process) : Prop := match p_life p with Running _ => False | _ => True end.
Definition one_over (s : supervision) : Prop := over (s_owner s) ∨ over (s_attached s).

(** The process the supervisor waits for was killed or has ended. *)
Definition will_end (p : process) : Prop := p_life p ≠ Running false.

Definition awaiting (s : supervision) : Prop :=
  match s_point s with
  | OwnerGone => will_end (s_attached s)
  | AttachedGone _ => will_end (s_owner s)
  | _ => True
  end.

Lemma lives_over p p' : lives p p' → over p'.
Proof. by intros []. Qed.

Lemma lives_will_end p p' : lives p p' → will_end p'.
Proof. by intros []. Qed.

Lemma kill_will_end p : will_end (kill p).
Proof. unfold will_end, kill. by destruct (p_life p) eqn:Hp; cbn; rewrite ?Hp. Qed.

Lemma kill_over p : over p → over (kill p).
Proof. unfold over, kill. destruct (p_life p) eqn:Hp; [done|..]; by rewrite Hp. Qed.

Lemma send_over sig p : over p → over (send sig p).
Proof. unfold over, send. destruct (p_life p) eqn:Hp; [done|..]; by rewrite Hp. Qed.

Definition settling (s : supervision) : Prop := one_over s ∧ awaiting s.

Lemma sup_step_settling s s' : sup_step s s' → settling s → settling s'.
Proof.
  unfold settling, one_over, awaiting. intros Hs [Ho Ha]. destruct Hs; cbn in *.
  - split; [left; by eapply lives_over|]. destruct pt; try done. by eapply lives_will_end.
  - split; [right; by eapply lives_over|]. destruct pt; try done. by eapply lives_will_end.
  - split; [by left|apply kill_will_end].
  - split; [by right|done].
  - split; [by right|apply kill_will_end].
  - split; [by left|done].
  - split; [|done]. destruct Ho; [left|right]; by apply send_over.
Qed.

(** A process that ended or was killed goes on to be waited for. *)
Lemma will_end_progress p : will_end p → (∃ err, waited p err) ∨ ∃ p', lives p p'.
Proof.
  destruct p as [[[]|err|err] sent]; unfold will_end, waited; cbn; intros Hne.
  - right. eexists. apply process_killed.
  - done.
  - right. eexists. apply process_waited.
  - left. by eexists.
Qed.

Lemma over_will_end p : over p → will_end p.
Proof. unfold over, will_end. by destruct (p_life p). Qed.

Lemma settling_progress s : settling s → (∃ status, s_point s = Returned status) ∨ ∃ s', sup_step s s'.
Proof.
  destruct s as [[olife osent] [alife asent] pending stopping pt]. intros [Ho Ha].
  destruct pt as [| |err|status]; cbn in *; [| | |left; by eexists].
  - right. destruct Ho as [Ho|Ho]; apply over_will_end, will_end_progress in Ho as [[err Hw]|[p' Hp]].
    + unfold waited in Hw. cbn in Hw. subst olife. eexists. apply step_owner_gone.
    + eexists. by apply step_owner.
    + unfold waited in Hw. cbn in Hw. subst alife. eexists. apply step_attached_gone.
    + eexists. by apply step_attached.
  - right. apply will_end_progress in Ha as [[err Hw]|[p' Hp]].
    + unfold waited in Hw. cbn in Hw. subst alife. eexists. apply step_attached_reaped.
    + eexists. by apply step_attached.
  - right. apply will_end_progress in Ha as [[oerr Hw]|[p' Hp]].
    + unfold waited in Hw. cbn in Hw. subst olife. eexists. apply step_owner_reaped.
    + eexists. by apply step_owner.
Qed.

(** Every way to go on without further signals leads to [P], and there is one
    while [P] has not been reached. *)
Inductive inevitable (P : supervision → Prop) : supervision → Prop :=
  | inevitable_now s : P s → inevitable P s
  | inevitable_later s : (∃ s', sup_step s s') → (∀ s', sup_step s s' → inevitable P s') → inevitable P s.

Definition returned (s : supervision) : Prop := ∃ status, s_point s = Returned status.

Lemma settling_inevitable n s : sup_rank s ≤ n → settling s → inevitable returned s.
Proof.
  revert s. induction n as [|n IH]; intros s Hn Hs;
    (destruct (settling_progress s Hs) as [Hret|Hstep]; [by apply inevitable_now|]).
  - destruct Hstep as [s' Hstep]. apply sup_step_decreases in Hstep. lia.
  - apply inevitable_later; [done|]. intros s' Hs'. apply IH; [|by eapply sup_step_settling].
    apply sup_step_decreases in Hs'. lia.
Qed.

Lemma reachable_awaiting s : reachable s → awaiting s.
Proof.
  intros (owner & _ & Hr). remember (supervision_start owner fresh) as s0 eqn:Hs0.
  assert (awaiting s0) as Ha by (by subst s0). clear Hs0.
  induction Hr as [|x y z [Hs|Hu] _ IH]; [done|..]; apply IH; clear IH.
  - unfold awaiting in *. destruct Hs; cbn in *; try done; try (by apply kill_will_end);
      destruct pt; try done; by eapply lives_will_end.
  - by destruct Hu.
Qed.


(** Stopping races. The user interrupts; both processes receive the signal
    and shut down, and neither fails by itself. If the Redis process is first
    to end, the owner of the database is killed while it shuts down. If the
    owner is first, the Redis process is killed and the status is 1. *)
Theorem interrupt_races :
  (∃ s, reachable s ∧ s_point s = Returned 0 ∧ waited (s_attached s) WaitOk ∧ waited (s_owner s) (WaitExit (-1))
     ∧ p_signals (s_owner s) = [SIGINT])
  ∧ (∃ s, reachable s ∧ s_point s = Returned 1 ∧ waited (s_owner s) WaitOk ∧ waited (s_attached s) (WaitExit (-1))
     ∧ p_signals (s_attached s) = [SIGINT]).
Proof.
  assert (rtc any_step (supervision_start fresh fresh)
    (mkSup (mkProcess (Running false) [SIGINT]) (mkProcess (Running false) [SIGINT]) None true Selecting)) as Hboth.
  { eapply rtc_l; [right; apply (step_user _ _ _ _ _ SIGINT)|].
    eapply rtc_l; [left; apply step_signal|]. apply rtc_refl. }
  split.
  - eexists. split.
    { exists fresh. split; [done|]. etransitivity; [exact Hboth|].
      eapply rtc_l; [left; apply step_attached, (process_ends _ WaitOk)|].
      eapply rtc_l; [left; apply step_attached, process_waited|].
      eapply rtc_l; [left; apply step_attached_gone|].
      eapply rtc_l; [left; apply step_owner, process_killed|].
      eapply rtc_l; [left; apply step_owner, process_waited|].
      eapply rtc_l; [left; apply step_owner_reaped|]. apply rtc_refl. }
    by split_and!.
  - eexists. split.
    { exists fresh. split; [done|]. etransitivity; [exact Hboth|].
      eapply rtc_l; [left; apply step_owner, (process_ends _ WaitOk)|].
      eapply rtc_l; [left; apply step_owner, process_waited|].
      eapply rtc_l; [left; apply step_owner_gone|].
      eapply rtc_l; [left; apply step_attached, process_killed|].
      eapply rtc_l; [left; apply step_attached, process_waited|].
      eapply rtc_l; [left; apply step_attached_reaped|]. apply rtc_refl. }
    by split_and!.
Qed.

(** ** Witnesses *)

Section witnesses.
(** The owner ends with status 1 before the supervision starts. *)
Definition crashed : process := mkProcess (Waited (WaitExit 1)) [].

Lemma crashed_reachable : reachable (supervision_start crashed fresh).
Proof. by exists crashed. Qed.

Lemma supervisor_leaves_no_process_witness :
  ∃ s, s_point s = Returned 1 ∧ ∃ owner attached, waited (s_owner s) owner ∧ waited (s_attached s) attached.
Proof.
  exists (mkSup crashed (mkProcess (Waited (WaitExit (-1))) []) None false (Returned 1)). split; [done|].
  destruct (supervisor_leaves_no_process
    (mkSup crashed (mkProcess (Waited (WaitExit (-1))) []) None false (Returned 1)) 1) as (o & a & Ho & Ha & _);
    [|done|by exists o, a].
  exists crashed. split; [done|].
  eapply rtc_l; [left; apply step_owner_gone|]. eapply rtc_l; [left; apply step_attached, process_killed|].
  eapply rtc_l; [left; apply step_attached, process_waited|].
  eapply rtc_l; [left; apply step_attached_reaped|]. apply rtc_refl.
Defined.

End witnesses.
