(* ===== verification/CliProps.v ===== *)
(** * Properties of the command-line programs

    Every run of a program is a sequence of calls with their answers, and the
    answers are arbitrary: drivers, servers, modules and processes may fail
    at any call. The theorems hold of all runs. *)

From S2P Require Import Prelude Errors Engine Effects MemDriver Envelope Keys ListCodec Text DriverName DB Collections Transport Json PathClean Modules Backend HttpClient Flags Cli ModuleCmds.

(** ** Runs and monitors *)

Definition event : Type := sigT answer.

Inductive executes {A} : cli A → list event → A → Prop :=
  | executes_ret a : executes (CRet a) [] a
  | executes_do o k (r : answer o) tr a : executes (k r) tr a → executes (CDo o k) (existT o r :: tr) a.

(** A monitor follows the calls in a state of its own and says which are
    allowed. *)
Record monitor := mkMonitor {
  m_state : Type;
  m_next : m_state → ∀ o, answer o → m_state;
  m_allows : m_state → ∀ o, answer o → Prop
}.

Section monitor.
Context (M : monitor).

Fixpoint accepts (g : m_state M) (tr : list event) : Prop :=
  match tr with
  | [] => True
  | existT o r :: tr => m_allows M g o r ∧ accepts (m_next M g o r) tr
  end.

Definition final (g : m_state M) (tr : list event) : m_state M :=
  foldl (λ g '(existT o r), m_next M g o r) g tr.

Fixpoint cli_wp {A} (p : cli A) (Q : A → m_state M → Prop) (g : m_state M) : Prop :=
  match p with
  | CRet a => Q a g
  | CDo o k => ∀ r, m_allows M g o r ∧ cli_wp (k r) Q (m_next M g o r)
  | CPanic | Unfinished => True
  end.

Lemma cli_wp_sound {A} (p : cli A) Q g tr a :
  cli_wp p Q g → executes p tr a → accepts g tr ∧ Q a (final g tr).
Proof.
  intros Hwp Hex. revert g Hwp. induction Hex as [a|o k r tr a _ IH]; intros g Hwp; [done|].
  destruct (Hwp r) as [Hall Hk]. destruct (IH _ Hk) as [Hacc HQ]. done.
Qed.

Lemma cli_wp_mono {A} (p : cli A) (P Q : A → m_state M → Prop) g :
  cli_wp p P g → (∀ a g', P a g' → Q a g') → cli_wp p Q g.
Proof.
  intros Hp HPQ. revert g Hp. induction p as [a|o k IH| |]; intros g Hp; cbn; [by apply HPQ| |done|done].
  intros r. destruct (Hp r) as [Hall Hk]. split; [done|]. by apply IH.
Qed.

Lemma cli_wp_bind {A B} (p : cli A) (f : A → cli B) Q g :
  cli_wp p (λ a, cli_wp (f a) Q) g → cli_wp (p ≫= f) Q g.
Proof.
  change (p ≫= f) with (cli_bind f p). revert g.
  induction p as [a|o k IH| |]; intros g Hp; cbn; [done| |done|done].
  intros r. destruct (Hp r) as [Hall Hk]. split; [done|]. by apply IH.
Qed.

Lemma cli_wp_call o Q g :
  (∀ r, m_allows M g o r ∧ Q r (m_next M g o r)) → cli_wp (call o) Q g.
Proof. done. Qed.

Lemma cli_wp_ret {A} (a : A) Q g : Q a g → cli_wp (mret a) Q g.
Proof. done. Qed.

Lemma cli_wp_deferring {A} cleanup (body : cli A) Q g :
  cli_wp body (λ a, cli_wp cleanup (λ _, Q a)) g → cli_wp (deferring cleanup body) Q g.
Proof.
  intros Hb. unfold deferring. apply cli_wp_bind. eapply cli_wp_mono; [exact Hb|]. cbv beta. intros a g' Hc.
  apply cli_wp_bind. eapply cli_wp_mono; [exact Hc|]. by intros.
Qed.

(** Output is followed by no monitor. *)
Definition ignores_output : Prop :=
  ∀ g line r, (m_allows M g (Stdout line) r ∧ m_next M g (Stdout line) r = g)
            ∧ (m_allows M g (Stderr line) r ∧ m_next M g (Stderr line) r = g).

Context (quiet : ignores_output).

Lemma cli_wp_stdout line Q g : Q tt g → cli_wp (call (Stdout line)) Q g.
Proof using quiet. intros HQ r. destruct (quiet g line r) as [[? ->] _], r. done. Qed.

Lemma cli_wp_stderr line Q g : Q tt g → cli_wp (call (Stderr line)) Q g.
Proof using quiet. intros HQ r. destruct (quiet g line r) as [_ [? ->]], r. done. Qed.

Lemma cli_wp_fail_with status line Q g : Q status g → cli_wp (fail_with status line) Q g.
Proof using quiet. intros HQ. apply cli_wp_bind, cli_wp_stderr, cli_wp_ret, HQ. Qed.

Lemma cli_wp_notice (b : bool) line Q g : Q tt g → cli_wp (if b then call (Stderr line) else mret tt) Q g.
Proof using quiet. intros HQ. destruct b; [by apply cli_wp_stderr|done]. Qed.

Lemma cli_wp_print_all {A} (print : A → cli unit) l Q g :
  (∀ x P, P tt g → cli_wp (print x) P g) → Q tt g → cli_wp (print_all print l) Q g.
Proof.
  intros Hprint HQ. induction l as [|x l IH]; [done|]. apply cli_wp_bind. apply Hprint, IH.
Qed.

Lemma cli_wp_requireExplicitServePort {GT : GoText} address flag Q g :
  (∀ err, Q err g) → cli_wp (requireExplicitServePort address flag) Q g.
Proof using quiet.
  intros HQ. unfold requireExplicitServePort. destruct (net_SplitHostPort _) as [err|[host port]].
  - apply cli_wp_bind, cli_wp_stderr, cli_wp_ret, HQ.
  - case_match; [|by apply cli_wp_ret]. apply cli_wp_bind, cli_wp_stderr, cli_wp_ret, HQ.
Qed.

Lemma cli_wp_report_wait what err Q g : Q (exit_status err) g → cli_wp (report_wait what err) Q g.
Proof using quiet.
  unfold report_wait, exit_status. intros HQ. destruct err as [|code|err]; [done| |by apply cli_wp_fail_with].
  case_bool_decide; [done|by apply cli_wp_fail_with].
Qed.
End monitor.

(** ** What a program holds *)

Inductive resource := RDatabase | RHTTP | RRedis | RProcess (p : pid).

(** The resources held, the last acquired first. *)
Definition holds (held : list resource) (o : cliOp) : answer o → list resource :=
  match o return answer o → list resource with
  | OpenDB _ _ => λ r, match r with inr _ => RDatabase :: held | inl _ => held end
  | ConnectDB _ _ _ => λ r, match r with None => RDatabase :: held | Some _ => held end
  | ServeHTTP _ => λ r, match r with inr _ => RHTTP :: held | inl _ => held end
  | ServeRedis _ _ => λ r, match r with inr _ => RRedis :: held | inl _ => held end
  | StartModule _ _ _ => λ r, match r with inr p => RProcess p :: held | inl _ => held end
  | CloseDB | CloseHTTP | CloseRedis | AwaitExit _ | WaitForwarding _ => λ _, tail held
  | Supervise _ _ => λ _, drop 2 held
  | _ => λ _, held
  end.

(** A resource is released only while held, the last acquired first; a
    process is addressed only while it has not been waited for; a server runs
    on an open database. *)
Definition may (held : list resource) (o : cliOp) (_ : answer o) : Prop :=
  match o with
  | CloseDB => head held = Some RDatabase
  | CloseHTTP => head held = Some RHTTP
  | CloseRedis => head held = Some RRedis
  | AwaitExit p | WaitForwarding p => head held = Some (RProcess p)
  | Supervise owner attached => take 2 held = [RProcess attached; RProcess owner]
  | Kill p | HasExited p | ExitedWithin p => RProcess p ∈ held
  | ServeHTTP _ | ServeRedis _ _ => RDatabase ∈ held
  | _ => True
  end.

Definition held_monitor : monitor := mkMonitor (list resource) holds may.

Lemma held_quiet : ignores_output held_monitor.
Proof. done. Qed.

Abbreviation hwp := (cli_wp held_monitor).
Definition released {A} (held : list resource) : A → list resource → Prop := λ _ held', held' = held.

(** One step of a symbolic run. *)
Ltac cli_step :=
  match goal with
  | |- cli_wp _ (fail_with _ _) _ _ => apply cli_wp_fail_with; [done|]
  | |- cli_wp _ (call (Stdout _)) _ _ => apply cli_wp_stdout; [done|]
  | |- cli_wp _ (call (Stderr _)) _ _ => apply cli_wp_stderr; [done|]
  | |- cli_wp _ (mret _) _ _ => apply cli_wp_ret
  | |- cli_wp _ (CRet _) _ _ => apply cli_wp_ret
  | |- cli_wp _ (deferring _ _) _ _ => apply cli_wp_deferring
  | |- cli_wp _ (_ ≫= _) _ _ => apply cli_wp_bind
  | |- cli_wp _ (requireExplicitServePort _ _) _ _ => apply cli_wp_requireExplicitServePort; [done|]; intros ?
  | |- cli_wp _ (report_wait _ _) _ _ => apply cli_wp_report_wait; [done|]
  | |- cli_wp _ (print_all _ _) _ _ => apply cli_wp_print_all; [intros ? ? ?|]
  | |- cli_wp _ CPanic _ _ => exact I
  | |- cli_wp _ Unfinished _ _ => exact I
  | |- cli_wp _ (if _ then call (Stderr _) else mret tt) _ _ => apply cli_wp_notice; [done|]
  | |- cli_wp _ (if ?b then _ else _) _ _ => destruct b eqn:?
  end; cbv beta.

Ltac cli_run := repeat cli_step.

(** What starting a process leaves to show, for any monitor. *)
Lemma cli_wp_startModuleProcess (M : monitor) {GT : GoText} FS sha256 json_error GOOS_GOARCH env linked name args Q g :
  (∀ err, Q (inl err) g) →
  (∀ path r, m_allows M g (StartModule name path args) r ∧
     match r with
     | inl _ => ∀ err, Q (inl err) (m_next M g (StartModule name path args) r)
     | inr p => Q (inr p) (m_next M g (StartModule name path args) r)
     end) →
  cli_wp M (startModuleProcess FS sha256 json_error GOOS_GOARCH env linked name args) Q g.
Proof.
  intros Herr Hstart. unfold startModuleProcess.
  destruct (ResolveModuleExecutable _ _ _ _ _ _ _ _) as [[module artifact]| |]; [|by apply cli_wp_ret|done].
  destruct (ArtifactPath _ _) as [path|err|]; [|by apply cli_wp_ret|done].
  cli_run. intros r. destruct (Hstart path r) as [Hall Hr]. split; [done|]. destruct r; cli_run; apply Hr.
Qed.

Section held.
Context {GT : GoText} {E : Type} (FS : FileSystem) (sha256 : bytes → bytes) (json_error : bytes → bytes)
  (GOOS_GOARCH : bytes) (env : ModuleEnv) (linked : gmap bytes ModuleManifest)
  (drivers : gmap bytes (registeredDriver E)) (extensions : bool).
Implicit Types (held : list resource).

Lemma hwp_startModuleProcess name args Q held :
  (∀ err, Q (inl err) held) → (∀ p, Q (inr p) (RProcess p :: held)) →
  hwp (startModuleProcess FS sha256 json_error GOOS_GOARCH env linked name args) Q held.
Proof.
  intros Herr Hp. apply cli_wp_startModuleProcess; [done|]. by intros path [err|p].
Qed.

Lemma hwp_runModuleRun args held : hwp (runModuleRun FS sha256 json_error GOOS_GOARCH env linked args) (released held) held.
Proof.
  unfold runModuleRun. destruct args as [|name args]; [by cli_run|]. cli_run.
  apply hwp_startModuleProcess; [intros err; by cli_run|]. intros p. cli_run. intros r. split; [done|]. by cli_run.
Qed.

Lemma hwp_poll_health fuel url token owner deadline Q held :
  RProcess owner ∈ held → (∀ ready, Q ready held) → hwp (poll_health fuel url token owner deadline) Q held.
Proof.
  intros Ho HQ. induction fuel as [|fuel IH]; [done|]. cbn [poll_health]. cli_run.
  intros now. split; [done|]. cli_run; [done|]. intros gone. split; [done|]. cli_run; [done|].
  intros reply. split; [done|]. destruct reply as [err|err|code status body]; cli_run; try done;
    intros gone'; (split; [done|]); by cli_run.
Qed.

Lemma hwp_runServeStandaloneBoth fuel path driver listen token n redisListen redisPassword held :
  hwp (runServeStandaloneBoth FS sha256 json_error GOOS_GOARCH env linked fuel path driver listen token n redisListen
         redisPassword) (released held) held.
Proof.
  unfold runServeStandaloneBoth, waitForOwnerHealth. cli_run; try done.
  apply hwp_startModuleProcess; [intros ?; by cli_run|]. intros owner. cli_run. intros now. split; [done|]. cli_run.
  apply hwp_poll_health; [left|]. intros ready. cli_run.
  - intros r. split; [left|]. cli_run. intros r'. by split.
  - apply hwp_startModuleProcess; [intros ?|intros attached; by split].
    cli_run. intros r. split; [left|]. cli_run. intros r'. by split.
Qed.

Lemma hwp_close_http name Q held : Q tt held → hwp (close_server (call CloseHTTP) name) Q (RHTTP :: held).
Proof. intros HQ. unfold close_server. cli_run. intros err. split; [done|]. destruct err; by cli_run. Qed.

Lemma hwp_close_redis name Q held : Q tt held → hwp (close_server (call CloseRedis) name) Q (RRedis :: held).
Proof. intros HQ. unfold close_server. cli_run. intros err. split; [done|]. destruct err; by cli_run. Qed.

Lemma hwp_close_db Q held : Q tt held → hwp close_db Q (RDatabase :: held).
Proof. intros HQ. unfold close_db, tt_cli. cli_run. intros r. by split. Qed.

Lemma hwp_linkedHTTPServe config Q held :
  RDatabase ∈ held → (∀ err, Q (inl err) held) → (∀ url, Q (inr url) (RHTTP :: held)) →
  hwp (linkedHTTPServe extensions config) Q held.
Proof.
  intros Hdb Herr Hok. unfold linkedHTTPServe. cli_run; [|apply Herr].
  intros [err|url]; (split; [done|]); [apply Herr|apply Hok].
Qed.

Lemma hwp_linkedRedisServe config Q held :
  RDatabase ∈ held → (∀ err, Q (inl err) held) → (∀ url, Q (inr url) (RRedis :: held)) →
  hwp (linkedRedisServe extensions config) Q held.
Proof.
  intros Hdb Herr Hok. unfold linkedRedisServe. cli_run; [|apply Herr].
  intros [err|url]; (split; [done|]); [apply Herr|apply Hok].
Qed.

Lemma hwp_attached backend listen token n paths redisListen redisPassword held :
  RDatabase ∈ held →
  hwp (runServeLinkedHTTPWithAttachedRedis FS sha256 json_error GOOS_GOARCH env linked extensions backend listen token n
         paths redisListen redisPassword) (released held) held.
Proof.
  intros Hdb. unfold runServeLinkedHTTPWithAttachedRedis. cli_run; [done|].
  apply hwp_linkedHTTPServe; [done|intros ?; by cli_run|]. intros url. cli_run.
  apply hwp_startModuleProcess; [intros ?; cli_run; by apply hwp_close_http|].
  intros p. cli_run. intros r. split; [done|]. cli_run. by apply hwp_close_http.
Qed.

Lemma hwp_serve_http o backend redisURL held :
  RDatabase ∈ held → hwp (serve_http extensions o backend redisURL) (released held) held.
Proof.
  intros Hdb. unfold serve_http. cli_run. apply hwp_linkedHTTPServe; [done|intros ?; by cli_run|]. intros url.
  cli_run. destruct redisURL; cli_run; intros r; (split; [done|]); cli_run; by apply hwp_close_http.
Qed.

Lemma hwp_serve_linked o driver held :
  hwp (serve_linked FS sha256 json_error GOOS_GOARCH env linked drivers extensions o driver) (released held) held.
Proof.
  unfold serve_linked. apply cli_wp_bind, (cli_wp_mono held_monitor _ (released held)).
  { cli_run; [|done]. by destruct (DefaultDriver drivers). }
  intros driver' held' ->. cli_run. intros [err|backend]; (split; [done|]); cli_run; [done|..].
  - eapply cli_wp_mono; [by apply hwp_attached; left|]. intros ? ? ->. by apply hwp_close_db.
  - eapply cli_wp_mono; [by apply hwp_serve_http; left|]. intros ? ? ->. by apply hwp_close_db.
  - apply hwp_linkedRedisServe; [left|intros ?; cli_run; by apply hwp_close_db|]. intros url. cli_run.
    eapply cli_wp_mono; [by apply hwp_serve_http; right; left|]. intros ? ? ->.
    by apply hwp_close_redis, hwp_close_db.
Qed.

Lemma hwp_serve_dispatch fuel explicit o driver mode held :
  hwp (serve_dispatch FS sha256 json_error GOOS_GOARCH env linked drivers extensions fuel explicit o driver mode)
    (released held) held.
Proof.
  unfold serve_dispatch, runServeStandaloneHTTP, runServeStandaloneRedis.
  cli_run; try done; by (apply hwp_runServeStandaloneBoth || apply hwp_serve_linked || apply hwp_runModuleRun).
Qed.

Lemma hwp_runModule args held :
  hwp (runModule FS sha256 json_error GOOS_GOARCH env linked args) (released held) held.
Proof.
  unfold runModule. destruct args as [|command rest]; [by cli_run|]. cli_run; try done; try apply hwp_runModuleRun.
  - unfold runModuleList. cli_run; [unfold printModule; by cli_run|].
    destruct (DiscoverInstalled _ _ _); [|by cli_run|done]. cli_run; [unfold printModule; by cli_run|done].
  - unfold runModuleVerify. destruct (if bool_decide _ then _ else _) as [modules|err|]; [|by cli_run|done].
    induction modules as [|module modules IH]; [done|]. cbn [verify_each].
    destruct (Verify FS sha256 module); [|by cli_run|done]. cli_run. apply IH.
Qed.

Lemma hwp_run fuel args held :
  hwp (run FS sha256 json_error GOOS_GOARCH env linked drivers extensions fuel args) (released held) held.
Proof.
  unfold run, usage. destruct args as [|command rest]; [cli_run; done|]. cli_run; try done; [| |].
  - unfold runDriver. cli_run; [done|]. destruct (Drivers drivers); [|done..]. cli_run; done.
  - apply hwp_runModule.
  - unfold runServe. destruct (flag_Parse _ _ _) as [err|[o rest']]; [by cli_run|]. cli_run; try done.
    apply hwp_serve_dispatch.
Qed.

Lemma hwp_http_run args held : hwp (http_run args) (released held) held.
Proof.
  unfold http_run, tt_cli. destruct (flag_Parse _ _ _) as [err|[o rest]]; [by cli_run|]. cli_run; [done|].
  intros [err|backend]; (split; [done|]); cli_run; [done|].
  intros [err|url]; (split; [left|]); cli_run; [by apply hwp_close_db|].
  intros r. split; [done|]. cli_run. intros r'. split; [done|]. by apply hwp_close_db.
Qed.

Lemma hwp_redis_serve o remote suffix serving held :
  RDatabase ∈ held → hwp (redis_serve o remote suffix serving) (released held) held.
Proof.
  intros Hdb. unfold redis_serve, tt_cli. cli_run. intros [err|url]; (split; [done|]); cli_run; [done|].
  intros r. split; [done|]. cli_run. intros r'. by split.
Qed.

Lemma hwp_checkOwnerHealth url token Q held : (∀ err, Q err held) → hwp (checkOwnerHealth json_error url token) Q held.
Proof. intros HQ. unfold checkOwnerHealth. cli_run. intros reply. split; [done|]. cli_run. apply HQ. Qed.

Lemma hwp_redis_run args held : hwp (redis_run json_error args) (released held) held.
Proof.
  unfold redis_run, runAttached.
  destruct (flag_Parse _ _ _) as [err|[o rest]]; [by cli_run|]. cli_run; try done.
  - destruct (if bool_decide (ro_upstreamDriver o = []) then _ else _); [|by cli_run|done]. cli_run.
    apply hwp_checkOwnerHealth. intros [err|]; [by cli_run|]. cli_run. intros [err|]; (split; [done|]); cli_run; [done|].
    eapply cli_wp_mono; [by apply hwp_redis_serve; left|]. intros ? ? ->. by apply hwp_close_db.
  - intros [err|backend]; (split; [done|]); cli_run; [done|].
    eapply cli_wp_mono; [by apply hwp_redis_serve; left|]. intros ? ? ->. by apply hwp_close_db.
Qed.
End held.

Lemma released_sound (p : cli Z) tr status :
  hwp p (released []) [] → executes p tr status → accepts held_monitor [] tr ∧ final held_monitor [] tr = [].
Proof. apply cli_wp_sound. Qed.

(** C19: Nothing is left open. Whatever the arguments, and whichever of its calls
    fail, a program that exits has closed every database and server it
    opened and waited for every process it started, the last acquired first;
    it serves only an open database, and addresses a process only before it
    has been waited for. *)
Theorem programs_release_everything {GT : GoText} {E} FS sha256 json_error GOOS_GOARCH env linked
    (drivers : gmap bytes (registeredDriver E)) extensions fuel args p tr status :
  p ∈ [run FS sha256 json_error GOOS_GOARCH env linked drivers extensions fuel args; http_run args;
       redis_run json_error args] →
  executes p tr status →
  accepts held_monitor [] tr ∧ final held_monitor [] tr = [].
Proof.
  rewrite !elem_of_cons, elem_of_nil. intros [-> | [-> | [-> | []]]] Hex.
  - eapply released_sound; [|exact Hex]. apply hwp_run.
  - eapply released_sound; [|exact Hex]. apply hwp_http_run.
  - eapply released_sound; [|exact Hex]. apply hwp_redis_run.
Qed.

(** ** Options handed to another program *)

(** One flag in its own argument. *)
Lemma flag_Parse_value {S} (flags : bytes → option (bytes → S → GoError + S)) arg name value rest s s' set :
  lex_argument arg = Flag name None → flags name = Some set → set value s = inr s' →
  flag_Parse flags (arg :: value :: rest) s = flag_Parse flags rest s'.
Proof. intros Hl Hf Hs. cbn [flag_Parse]. by rewrite Hl, Hf, Hs. Qed.

Lemma flag_Parse_optional {S} (flags : bytes → option (bytes → S → GoError + S)) arg name value rest s f :
  lex_argument arg = Flag name None → flags name = Some (set_flag_string f) → (value = [] → f value s = s) →
  flag_Parse flags (optional_flag arg value ++ rest) s = flag_Parse flags rest (f value s).
Proof.
  intros Hl Hf Hs. unfold optional_flag. case_bool_decide as Hv; [by rewrite Hs|]. by eapply flag_Parse_value.
Qed.

Lemma set_flag_int_format {S} (f : Z → S → S) z s :
  (minInt64 ≤ z ≤ maxInt64)%Z → set_flag_int f (format_int z) s = inr (f z s).
Proof. intros Hz. unfold set_flag_int. by rewrite parse_int0_format. Qed.

Lemma httpArgs_arrive path driver listen token n :
  (minInt64 ≤ n ≤ maxInt64)%Z →
  flag_Parse httpFlags (httpArgs path driver listen token n) http_defaults = inr (mkHTTP path driver listen token n, []).
Proof.
  intros Hn. unfold httpArgs. cbn [app].
  erewrite (flag_Parse_value _ _ ⟦"path"⟧); [|done..].
  erewrite (flag_Parse_value _ _ ⟦"listen"⟧); [|done..].
  erewrite (flag_Parse_value _ _ ⟦"max-request-bytes"⟧); [|done|done|by apply set_flag_int_format].
  erewrite (flag_Parse_optional _ _ ⟦"driver"⟧); [|done..|by intros ->].
  rewrite <-(app_nil_r (optional_flag _ token)).
  erewrite (flag_Parse_optional _ _ ⟦"token"⟧); [|done..|by intros ->]. done.
Qed.

Lemma redisArgs_arrive path driver listen password :
  flag_Parse redisFlags (redisArgs path driver listen password) redis_defaults
  = inr (mkRedis path driver [] [] [] listen password 0, []).
Proof.
  unfold redisArgs. cbn [app].
  erewrite (flag_Parse_value _ _ ⟦"path"⟧); [|done..].
  erewrite (flag_Parse_value _ _ ⟦"listen"⟧); [|done..].
  erewrite (flag_Parse_optional _ _ ⟦"driver"⟧); [|done..|by intros ->].
  rewrite <-(app_nil_r (optional_flag _ password)).
  erewrite (flag_Parse_optional _ _ ⟦"password"⟧); [|done..|by intros ->]. done.
Qed.

Lemma attachedArgs_arrive url token driver listen password :
  flag_Parse redisFlags (attachedArgs url token driver listen password) redis_defaults
  = inr (mkRedis [] [] url token driver listen password 0, []).
Proof.
  unfold attachedArgs. cbn [app].
  erewrite (flag_Parse_value _ _ ⟦"upstream"⟧); [|done..].
  erewrite (flag_Parse_value _ _ ⟦"listen"⟧); [|done..].
  erewrite (flag_Parse_optional _ _ ⟦"upstream-token"⟧); [|done..|by intros ->].
  erewrite (flag_Parse_optional _ _ ⟦"upstream-driver"⟧); [|done..|by intros ->].
  rewrite <-(app_nil_r (optional_flag _ password)).
  erewrite (flag_Parse_optional _ _ ⟦"password"⟧); [|done..|by intros ->]. done.
Qed.

(** The arguments one program writes are the options another reads: the HTTP
    module, the Redis module and the attached Redis module receive exactly
    the values of the command line, whatever bytes they consist of, also a
    value that looks like a flag. *)
Theorem handed_options_arrive path driver listen token n password url :
  (minInt64 ≤ n ≤ maxInt64)%Z →
  flag_Parse httpFlags (httpArgs path driver listen token n) http_defaults = inr (mkHTTP path driver listen token n, [])
  ∧ flag_Parse redisFlags (redisArgs path driver listen password) redis_defaults
    = inr (mkRedis path driver [] [] [] listen password 0, [])
  ∧ flag_Parse redisFlags (attachedArgs url token driver listen password) redis_defaults
    = inr (mkRedis [] [] url token driver listen password 0, []).
Proof. intros Hn. split_and!; [by apply httpArgs_arrive|apply redisArgs_arrive|apply attachedArgs_arrive]. Qed.

(** ** One owner *)

(** What every setter of a flag preserves holds of the parsed options. *)
Lemma flag_Parse_invariant {S} (I : S → Prop) flags args s s' rest :
  (∀ name set value s s', flags name = Some set → set value s = inr s' → I s → I s') →
  flag_Parse flags args s = inr (s', rest) → I s → I s'.
Proof.
  intros Hset. enough (∀ n args s, length args ≤ n → flag_Parse flags args s = inr (s', rest) → I s → I s') by eauto.
  induction n as [|n IH]; intros [|arg args'] t Hn Hp Ht; cbn [length] in Hn; try lia; try (by simplify_eq/=).
  cbn [flag_Parse] in Hp. destruct (lex_argument arg) as [| | |name value]; try (by simplify_eq).
  destruct (flags name) as [set|] eqn:Hf; [|done].
  destruct value as [value|]; [|destruct args' as [|value args'']; [done|]];
    destruct (set value t) as [err|t'] eqn:Hs; try done; apply IH in Hp; cbn [length] in *; try lia; eauto.
Qed.

Lemma parse_int0_range v z : parse_int0 v = Some z → (minInt64 ≤ z ≤ maxInt64)%Z.
Proof.
  assert (∀ s n, parse_uint0 s = Some n → (0 ≤ n)%Z) as Hpos.
  { assert (∀ base s n m, (0 ≤ base)%Z → (0 ≤ n)%Z → parse_digits base s n = Some m → (0 ≤ m)%Z) as Hd.
    { intros base s. induction s as [|c s IH]; intros n m Hb Hn; cbn; [by intros [= ->]|].
      case_bool_decide; [by apply IH|]. destruct (digit_value c) as [d|] eqn:Hdv; [|done]. case_bool_decide; [done|].
      apply IH; [done|]. assert (0 ≤ d)%Z; [|nia]. unfold digit_value, in_range in Hdv.
      repeat case_match; simplify_eq; rewrite ?andb_true_iff, ?bool_decide_eq_true in *;
        change (byte_to_Z "0") with 48%Z in *; change (byte_to_Z "a") with 97%Z in *; lia. }
    intros s n. unfold parse_uint0. case_bool_decide; [done|]. destruct (literal_base s) as [base digits] eqn:Hb.
    destruct (parse_digits base digits 0) as [m|] eqn:Hm; [|done]. cbn. repeat case_match; intros; simplify_eq.
    eapply Hd; [| |exact Hm]; [|done]. unfold literal_base in Hb. repeat case_match; simplify_eq; lia. }
  unfold parse_int0, minInt64, maxInt64. destruct v as [|c rest]; [done|].
  destruct (parse_uint0 _) as [n|] eqn:Hu; [|done]. apply Hpos in Hu. cbn.
  repeat case_match; intros; simplify_eq; rewrite ?bool_decide_eq_false in *; lia.
Qed.

Lemma serve_max_in_range {GT : GoText} args o rest :
  flag_Parse serveFlags args serve_defaults = inr (o, rest) → (minInt64 ≤ sv_maxRequestBytes o ≤ maxInt64)%Z.
Proof.
  intros Hp. eapply (flag_Parse_invariant (λ o, minInt64 ≤ sv_maxRequestBytes o ≤ maxInt64)%Z); [|exact Hp|by vm_compute].
  intros name set value s s' Hf Hs Hs0. unfold serveFlags in Hf.
  repeat case_bool_decide; try done; injection Hf as <-; destruct s; cbn in *; unfold set_flag_string, set_flag_int in Hs;
    repeat case_match; simplify_eq/=; try done. by eapply parse_int0_range.
Qed.

(** The directory a process started with these arguments opens. *)
Definition owned_by (name : bytes) (args : list bytes) : list bytes :=
  if bool_decide (name = ⟦"http"⟧) then
    match flag_Parse httpFlags args http_defaults with inr (o, _) => [ho_path o] | inl _ => [] end
  else
    match flag_Parse redisFlags args redis_defaults with
    | inr (o, _) => if bool_decide (ro_upstream o ≠ [] ∨ ro_path o = []) then [] else [ro_path o]
    | inl _ => []
    end.

(** The directories that are owned, by this process or one it started. *)
Definition owners (owned : list bytes) (o : cliOp) : answer o → list bytes :=
  match o return answer o → list bytes with
  | OpenDB path _ => λ r, match r with inr _ => path :: owned | inl _ => owned end
  | StartModule name _ args => λ r, match r with inr _ => owned_by name args ++ owned | inl _ => owned end
  | _ => λ _, owned
  end.

(** A server, or a process that becomes one, has the options of the command
    line: addresses, token, password, limits. *)
Definition as_requested (o : serveOptions) (driver : bytes) (c : cliOp) : Prop :=
  match c with
  | OpenDB path _ => path = sv_path o
  | ServeHTTP config =>
      hs_listenAddress config = sv_listen o ∧ hs_bearerToken config = sv_token o
      ∧ hs_maxRequestBytes config = sv_maxRequestBytes o ∧ hs_driverPaths config = sv_driverPaths o
  | ServeRedis _ config => rs_listenAddress config = sv_redisListen o ∧ rs_password config = sv_redisPassword o
  | StartModule name _ args =>
      (name = ⟦"http"⟧ ∧ flag_Parse httpFlags args http_defaults
         = inr (mkHTTP (sv_path o) driver (sv_listen o) (sv_token o) (sv_maxRequestBytes o), []))
      ∨ (name = ⟦"redis"⟧ ∧ ∃ ro, flag_Parse redisFlags args redis_defaults = inr (ro, [])
         ∧ ro_listen ro = sv_redisListen o ∧ ro_password ro = sv_redisPassword o
         ∧ (ro_path ro = [] → ro_upstreamToken ro = sv_token o))
  | _ => True
  end.

Definition owner_monitor (o : serveOptions) (driver : bytes) : monitor :=
  mkMonitor (list bytes) owners (λ _ c _, as_requested o driver c).

Section owner.
Context {GT : GoText} {E : Type} (FS : FileSystem) (sha256 : bytes → bytes) (json_error : bytes → bytes)
  (GOOS_GOARCH : bytes) (env : ModuleEnv) (linked : gmap bytes ModuleManifest)
  (drivers : gmap bytes (registeredDriver E)) (extensions : bool) (o : serveOptions) (driver : bytes).
Hypothesis in_range : (minInt64 ≤ sv_maxRequestBytes o ≤ maxInt64)%Z.
Hypothesis has_path : sv_path o ≠ [].

Abbreviation owp := (cli_wp (owner_monitor o driver)).

Lemma owner_quiet : ignores_output (owner_monitor o driver).
Proof using Type. done. Qed.

(** At most the directory of the command line is owned. *)
Definition one_owner : Z → list bytes → Prop := λ _ owned, owned = [] ∨ owned = [sv_path o].

Definition owner_args : list bytes :=
  httpArgs (sv_path o) driver (sv_listen o) (sv_token o) (sv_maxRequestBytes o).
Definition direct_args : list bytes := redisArgs (sv_path o) driver (sv_redisListen o) (sv_redisPassword o).
Definition attached_args (url name : bytes) : list bytes :=
  attachedArgs url (sv_token o) name (sv_redisListen o) (sv_redisPassword o).

Lemma owp_start name args owned' Q owned :
  (∀ path, as_requested o driver (StartModule name path args)) → owned_by name args ++ owned = owned' →
  (∀ err, Q (inl err) owned) → (∀ p, Q (inr p) owned') →
  owp (startModuleProcess FS sha256 json_error GOOS_GOARCH env linked name args) Q owned.
Proof using Type.
  intros Hreq <- Herr Hp. apply cli_wp_startModuleProcess; [done|]. intros path r. split; [apply Hreq|].
  destruct r; [apply Herr|apply Hp].
Qed.

Lemma owp_start_owner Q :
  (∀ err, Q (inl err) []) → (∀ p, Q (inr p) [sv_path o]) →
  owp (startModuleProcess FS sha256 json_error GOOS_GOARCH env linked ⟦"http"⟧ owner_args) Q [].
Proof using in_range.
  apply owp_start.
  - intros path. left. split; [done|]. by apply httpArgs_arrive.
  - unfold owned_by, owner_args. by rewrite bool_decide_eq_true_2, httpArgs_arrive.
Qed.

Lemma owp_start_direct Q :
  (∀ err, Q (inl err) []) → (∀ p, Q (inr p) [sv_path o]) →
  owp (startModuleProcess FS sha256 json_error GOOS_GOARCH env linked ⟦"redis"⟧ direct_args) Q [].
Proof using has_path.
  apply owp_start.
  - intros path. right. split; [done|]. eexists. split; [apply redisArgs_arrive|]. done.
  - unfold owned_by, direct_args. rewrite bool_decide_eq_false_2, redisArgs_arrive by done. cbn.
    by rewrite bool_decide_eq_false_2 by (by intros [|]).
Qed.

(** The attached process owns nothing. *)
Lemma owp_start_attached url name Q owned :
  (∀ err, Q (inl err) owned) → (∀ p, Q (inr p) owned) →
  owp (startModuleProcess FS sha256 json_error GOOS_GOARCH env linked ⟦"redis"⟧ (attached_args url name)) Q owned.
Proof using Type.
  apply owp_start.
  - intros path. right. split; [done|]. eexists. split; [apply attachedArgs_arrive|]. done.
  - unfold owned_by, attached_args. rewrite bool_decide_eq_false_2, attachedArgs_arrive by done. cbn.
    by rewrite bool_decide_eq_true_2 by (by right).
Qed.

Lemma owp_poll_health fuel url token owner deadline Q owned :
  (∀ ready, Q ready owned) → owp (poll_health fuel url token owner deadline) Q owned.
Proof using Type.
  intros HQ. induction fuel as [|fuel IH]; [done|]. cbn [poll_health]. cli_run.
  intros now. split; [done|]. cli_run; [done|]. intros gone. split; [done|]. cli_run; [done|].
  intros reply. split; [done|]. destruct reply as [err|err|code status body]; cli_run; try done;
    intros gone'; (split; [done|]); by cli_run.
Qed.

Lemma owp_standalone_both fuel :
  owp (runServeStandaloneBoth FS sha256 json_error GOOS_GOARCH env linked fuel (sv_path o) driver (sv_listen o) (sv_token o)
         (sv_maxRequestBytes o) (sv_redisListen o) (sv_redisPassword o)) one_owner [].
Proof using in_range.
  unfold runServeStandaloneBoth, waitForOwnerHealth. cli_run; try (by left).
  apply owp_start_owner; [intros ?; cli_run; by left|]. intros owner. cli_run. intros now. split; [done|]. cli_run.
  apply owp_poll_health. intros ready. cli_run.
  - intros r. split; [done|]. cli_run. intros r'. split; [done|]. by right.
  - apply owp_start_attached; [intros ?|intros attached r; split; [done|by right]].
    cli_run. intros r. split; [done|]. cli_run. intros r'. split; [done|]. by right.
Qed.

Lemma owp_run_module name args :
  (∀ Q, (∀ err, Q (inl err) []) → (∀ p, Q (inr p) [sv_path o]) →
     owp (startModuleProcess FS sha256 json_error GOOS_GOARCH env linked name args) Q []) →
  owp (runModuleRun FS sha256 json_error GOOS_GOARCH env linked (name :: args)) one_owner [].
Proof using Type.
  intros Hstart. unfold runModuleRun. cli_run. apply Hstart; [intros ?; cli_run; by left|].
  intros p. cli_run. intros r. split; [done|]. cli_run. by right.
Qed.

Lemma owp_close_server close name Q owned :
  close = call CloseHTTP ∨ close = call CloseRedis → Q tt owned → owp (close_server close name) Q owned.
Proof using Type.
  intros [-> | ->] HQ; unfold close_server; cli_run; intros err; (split; [done|]); destruct err; by cli_run.
Qed.

Lemma owp_close_db Q owned : Q tt owned → owp close_db Q owned.
Proof using Type. intros HQ. unfold close_db, tt_cli. cli_run. intros r. by split. Qed.

Lemma owp_linkedHTTPServe url Q owned :
  (∀ r, Q r owned) →
  owp (linkedHTTPServe extensions (mkHTTPServe (sv_listen o) (sv_token o) (sv_maxRequestBytes o) (sv_driverPaths o) url))
    Q owned.
Proof using Type. intros HQ. unfold linkedHTTPServe. cli_run; [|apply HQ]. intros r. split; [done|apply HQ]. Qed.

Lemma owp_linkedRedisServe n Q owned :
  (∀ r, Q r owned) → owp (linkedRedisServe extensions (mkRedisServe (sv_redisListen o) (sv_redisPassword o) n)) Q owned.
Proof using Type. intros HQ. unfold linkedRedisServe. cli_run; [|apply HQ]. intros r. split; [done|apply HQ]. Qed.

Lemma owp_serve_http backend redisURL owned :
  owp (serve_http extensions o backend redisURL) (λ _ owned', owned' = owned) owned.
Proof using Type.
  unfold serve_http. cli_run. apply owp_linkedHTTPServe. intros [err|url]; cli_run; [done|].
  destruct redisURL; cli_run; intros r; (split; [done|]); cli_run; by apply owp_close_server; [left|].
Qed.

Lemma owp_attached backend owned :
  owp (runServeLinkedHTTPWithAttachedRedis FS sha256 json_error GOOS_GOARCH env linked extensions backend (sv_listen o)
         (sv_token o) (sv_maxRequestBytes o) (sv_driverPaths o) (sv_redisListen o) (sv_redisPassword o))
    (λ _ owned', owned' = owned) owned.
Proof using Type.
  unfold runServeLinkedHTTPWithAttachedRedis. cli_run; [done|]. apply owp_linkedHTTPServe.
  intros [?|url]; cli_run; [done|].
  apply owp_start_attached; [intros ?; cli_run; by apply owp_close_server; [left|]|].
  intros p. cli_run. intros r. split; [done|]. cli_run. by apply owp_close_server; [left|].
Qed.

Lemma owp_serve_linked : owp (serve_linked FS sha256 json_error GOOS_GOARCH env linked drivers extensions o driver) one_owner [].
Proof using Type.
  unfold serve_linked. apply cli_wp_bind, (cli_wp_mono (owner_monitor o driver) _ (λ _ owned, owned = [])).
  { cli_run; [|done]. by destruct (DefaultDriver drivers). }
  intros name owned ->. cli_run. intros [err|backend]; (split; [done|]); cli_run; [by left|..].
  - eapply cli_wp_mono; [apply owp_attached|]. intros ? ? ->. apply owp_close_db. by right.
  - eapply cli_wp_mono; [apply owp_serve_http|]. intros ? ? ->. apply owp_close_db. by right.
  - apply owp_linkedRedisServe. intros [err|url]; cli_run; [apply owp_close_db; by right|].
    eapply cli_wp_mono; [apply owp_serve_http|]. intros ? ? ->. apply owp_close_server; [by right|].
    apply owp_close_db. by right.
Qed.

Lemma owp_serve_dispatch fuel explicit mode :
  owp (serve_dispatch FS sha256 json_error GOOS_GOARCH env linked drivers extensions fuel explicit o driver mode)
    one_owner [].
Proof using in_range has_path.
  unfold serve_dispatch, runServeStandaloneHTTP, runServeStandaloneRedis.
  cli_run; try (by left); try apply owp_standalone_both; try apply owp_serve_linked; apply owp_run_module;
    (apply owp_start_owner || apply owp_start_direct).
Qed.
End owner.

(** The driver of the command line, by its flag or the deprecated one. *)
Definition requested_driver (o : serveOptions) : bytes :=
  if bool_decide (sv_backend o ≠ []) then sv_backend o else sv_driver o.


(** ** Waiting for the owner *)

(** The readings of the clock in a run. *)
Definition readings (tr : list event) : list Z :=
  omap (λ e : event, let '(existT o r) := e in
          match o return answer o → option Z with TimeNow => λ r, Some r | _ => λ _, None end r) tr.

(** A run that ends in a loop still going when its fuel is spent. *)
Inductive spends {A} : cli A → list event → Prop :=
  | spends_now : spends Unfinished []
  | spends_do o k (r : answer o) tr : spends (k r) tr → spends (CDo o k) (existT o r :: tr).

(** The clock does not go back, and between the readings of two rounds at
    least 200 ms pass. *)
Fixpoint rounds (last : Z) (l : list Z) : Prop :=
  match l with
  | [] => True
  | t :: l => (last ≤ t)%Z ∧ rounds (t + 200 * 10 ^ 6) l
  end.

Definition clock_advances (l : list Z) : Prop := match l with [] => True | t :: l => rounds t l end.

Lemma rounds_bound last l t i : rounds last l → l !! i = Some t → (last + Z.of_nat i * (200 * 10 ^ 6) ≤ t)%Z.
Proof.
  revert last i. induction l as [|x l IH]; intros last i Hr Hi; [done|]. destruct Hr as [Hx Hr].
  destruct i as [|i]; [injection Hi as ->; lia|]. cbn in Hi. apply (IH _ _ Hr) in Hi. lia.
Qed.

Lemma spends_inv {A} (p : cli A) tr :
  spends p tr →
  match p with
  | CDo o k => ∃ r tr', tr = existT o r :: tr' ∧ spends (k r) tr'
  | Unfinished => tr = []
  | _ => False
  end.
Proof. intros []; eauto. Qed.

(** A loop that spent its fuel has read the clock once a round, always before
    the deadline. *)
Lemma spends_poll_health fuel url token owner deadline tr :
  spends (poll_health fuel url token owner deadline) tr →
  length (readings tr) = fuel ∧ Forall (λ t, t < deadline)%Z (readings tr).
Proof.
  revert tr. induction fuel as [|fuel IH]; intros tr Hs; [by apply spends_inv in Hs as ->|].
  cbn in Hs. apply spends_inv in Hs as (now & tr1 & -> & Hs).
  case_bool_decide as Hd; cbn in Hs.
  { by apply spends_inv in Hs as (? & ? & -> & []%spends_inv). }
  apply spends_inv in Hs as (gone & tr2 & -> & Hs). destruct gone; cbn in Hs.
  { by apply spends_inv in Hs as (? & ? & -> & []%spends_inv). }
  apply spends_inv in Hs as (reply & tr3 & -> & Hs).
  assert (∃ tr4, readings tr3 = readings tr4 ∧ spends (poll_health fuel url token owner deadline) tr4)
    as (tr4 & Hr & Hs4).
  { destruct reply as [err|err|code status body]; [cbn in Hs|cbn in Hs|case_bool_decide; cbn in Hs].
    1: by apply spends_inv in Hs as (? & ? & -> & []%spends_inv).
    2: by apply spends_inv in Hs.
    all: apply spends_inv in Hs as (gone' & tr5 & -> & Hs); destruct gone'; cbn in Hs;
      [by apply spends_inv in Hs as (? & ? & -> & []%spends_inv)|by exists tr5]. }
  destruct (IH tr4 Hs4) as [Hl Hf].
  match goal with |- context [readings ?t] => replace (readings t) with (now :: readings tr4) by (by rewrite <-Hr) end.
  split; [by cbn; rewrite Hl|]. by constructor; [lia|].
Qed.

(** Waiting for the owner ends. The loop of [waitForOwnerHealth] runs at most
    151 rounds, whatever the owner answers: its 30 seconds are spent. *)
Theorem health_wait_ends fuel url token owner tr :
  151 ≤ fuel → clock_advances (readings tr) → ¬ spends (waitForOwnerHealth fuel url token owner) tr.
Proof.
  intros Hfuel Hclock Hs. apply spends_inv in Hs as (start & tr' & -> & Hs). cbn in Hs, Hclock.
  apply spends_poll_health in Hs as [Hl Hf].
  destruct (readings tr' !! 150) as [t|] eqn:Ht; [|apply lookup_ge_None in Ht; lia].
  pose proof (rounds_bound _ _ _ _ Hclock Ht) as Hge. rewrite Forall_lookup in Hf. specialize (Hf _ _ Ht).
  unfold HealthDeadline in Hf. lia.
Qed.

(** ** Flags the dispatch does not see *)

Section dashes.
Context {GT : GoText} {E : Type} (FS : FileSystem) (sha256 : bytes → bytes) (json_error : bytes → bytes)
  (GOOS_GOARCH : bytes) (env : ModuleEnv) (linked : gmap bytes ModuleManifest)
  (drivers : gmap bytes (registeredDriver E)) (extensions : bool) (fuel : nat).

Definition spelled (dashes : bytes) : list bytes :=
  [dashes ++ ⟦"path"⟧; ⟦"/db"⟧; dashes ++ ⟦"listen"⟧; ⟦"127.0.0.1:8089"⟧; dashes ++ ⟦"redis-listen"⟧; ⟦"127.0.0.1:6379"⟧;
   dashes ++ ⟦"extension-mode"⟧; ⟦"standalone"⟧].

(** The number of dashes changes what is served. The flag package reads
    [-listen] and [--listen] alike, but the scan for an explicit address
    knows only the second: with one dash the HTTP server is left out and the
    Redis process opens the database. *)
Theorem dashes_change_topology :
  runServe FS sha256 json_error GOOS_GOARCH env linked drivers extensions fuel (spelled ⟦"--"⟧)
  = runServeStandaloneBoth FS sha256 json_error GOOS_GOARCH env linked fuel ⟦"/db"⟧ [] ⟦"127.0.0.1:8089"⟧ []
      (Z.shiftl 64 20) ⟦"127.0.0.1:6379"⟧ []
  ∧ runServe FS sha256 json_error GOOS_GOARCH env linked drivers extensions fuel (spelled ⟦"-"⟧)
    = runServeStandaloneRedis FS sha256 json_error GOOS_GOARCH env linked ⟦"/db"⟧ [] ⟦"127.0.0.1:6379"⟧ [].
Proof. split; reflexivity. Qed.

(** Standalone servers for both protocols drop the mappings of
    [--driver-path] without a word; a standalone HTTP server refuses them. *)
Lemma standalone_both_drops_driver_paths o paths driver explicit :
  sv_redisListen o ≠ [] → explicit = true →
  let with_paths := mkServe (sv_path o) (sv_driver o) (sv_backend o) (sv_listen o) (sv_token o) (sv_maxRequestBytes o)
                      (sv_extensionMode o) (sv_redisListen o) (sv_redisPassword o) paths in
  serve_dispatch FS sha256 json_error GOOS_GOARCH env linked drivers extensions fuel explicit with_paths driver
    extensionModeStandalone
  = serve_dispatch FS sha256 json_error GOOS_GOARCH env linked drivers extensions fuel explicit o driver
      extensionModeStandalone.
Proof.
  intros Hr ->. unfold serve_dispatch. cbn [sv_redisListen]. rewrite (bool_decide_eq_true_2 (sv_redisListen o ≠ [])) by done.
  by rewrite !bool_decide_eq_true_2 by done.
Qed.
End dashes.

(** ** Witnesses *)

Module cli_example.
#[export] Existing Instance ascii_GoText.

(** A machine without modules or drivers. *)
Definition no_files : FileSystem :=
  mkFS (λ _, inl FsNotExist) (λ _, inl FsNotExist) (λ _, inl FsNotExist) (λ _, inl FsNotExist).
Definition no_drivers : gmap bytes (registeredDriver unit) := ∅.
Definition serve (extensions : bool) (args : list bytes) : cli Z :=
  run no_files id id [] (mkModuleEnv [] [] []) ∅ no_drivers extensions 151 (⟦"serve"⟧ :: args).

Definition arguments : list bytes := [⟦"--path"⟧; ⟦"/db"⟧; ⟦"--extension-mode"⟧; ⟦"linked"⟧; ⟦"--driver"⟧; ⟦"bolt"⟧].

(** The database opens, the HTTP server starts, the user interrupts. *)
Definition events : list event :=
  [existT (OpenDB ⟦"/db"⟧ ⟦"bolt"⟧) (inr ⟦"bolt"⟧);
   existT (ServeHTTP (mkHTTPServe ⟦"127.0.0.1:0"⟧ [] (Z.shiftl 64 20) ∅ [])) (inr ⟦"http://h"⟧);
   existT (Stdout ⟦"driver=bolt"⟧) tt; existT (Stdout ⟦"http=http://h"⟧) tt; existT (Stdout serving_line) tt;
   existT AwaitSignal tt; existT CloseHTTP None; existT CloseDB tt].

Lemma serves : executes (serve true arguments) events 0%Z.
Proof.
  unfold events. apply (executes_do (OpenDB _ _) _ (inr ⟦"bolt"⟧)). apply (executes_do (ServeHTTP _) _ (inr ⟦"http://h"⟧)).
  apply (executes_do (Stdout _) _ tt), (executes_do (Stdout _) _ tt), (executes_do (Stdout _) _ tt).
  apply (executes_do AwaitSignal _ tt), (executes_do CloseHTTP _ None), (executes_do CloseDB _ tt). apply executes_ret.
Qed.
End cli_example.

Section witnesses.
Import cli_example.

Lemma programs_release_everything_witness : final held_monitor [] events = [].
Proof.
  apply (programs_release_everything no_files id id [] (mkModuleEnv [] [] []) ∅ no_drivers true 151
    (⟦"serve"⟧ :: arguments) (serve true arguments) events 0%Z); [left|apply serves].
Defined.

Lemma handed_options_arrive_witness :
  flag_Parse httpFlags (httpArgs ⟦"--path"⟧ [] ⟦"h:1"⟧ [] 5) http_defaults = inr (mkHTTP ⟦"--path"⟧ [] ⟦"h:1"⟧ [] 5, []).
Proof. apply (handed_options_arrive ⟦"--path"⟧ [] ⟦"h:1"⟧ [] 5 [] []). by vm_compute. Defined.


Lemma health_wait_ends_witness :
  ¬ spends (waitForOwnerHealth 151 ⟦"http://h:1"⟧ [] 7) [existT TimeNow 0%Z].
Proof. by apply (health_wait_ends 151 ⟦"http://h:1"⟧ [] 7 [existT TimeNow 0%Z]). Defined.
End witnesses.
